(* ===== verification/_CoqProject ===== *)
-Q . S2P
Prelude.v
Worklist.v
Json.v
MetaData.v
BuiltinMD.v
Callgraph.v
CallgraphWf.v
CallgraphOps.v
CallgraphSpec.v
CallgraphProps.v
Merge.v
MergeProps.v
MergeExamples.v
Manager.v
Reach.v
Util.v
Dominators.v
PgisMD.v
PgisAccess.v
PgisWalk.v
CgHelper.v
InclusiveCounts.v
PgisConfig.v
PgisPhases.v
PgisGaps.v
PgisCounts.v
PgisReach.v
PgisCountsProps.v
PgisSelect.v
PgisStatistics.v
LIPhase.v
LIProps.v
DominatorExamples.v
Format4.v
Roundtrip4.v
Format4Examples.v
Exchange.v
Format2.v
Format2Props.v
Format2Examples.v
Dot.v
DotProps.v
DotReader.v
DotGenerator.v
DotExamples.v
PgisProcessor.v
PgisStatic.v
PgisStaticRun.v
PgisInstance.v
PgisExamples.v
Diff.v
DiffProps.v
DiffExamples.v
Query.v
QueryProps.v
QueryExamples.v
Collector.v
CollectorProps.v
CallDepth.v
CollectorMerge.v
CollectorMergeProps.v
CollectorExamples.v
AliasNames.v
AliasClasses.v
AliasWf.v
AliasClosure.v
AliasRecursion.v
AliasExtractor.v
AliasInit.v
AliasExtractorProps.v
AliasProgram.v
AliasMerge.v
AliasMergeProps.v
AliasMergeResult.v
CollectorMergeTwo.v
AliasExamples.v
Tools.v
ToolsProps.v
CgFormatProps.v
ToolsExamples.v
