(* ===== verification/Prelude.v ===== *)
(** * MetaCG: a model of the call graph library and its tools

    MetaCG is a library for whole-program call graphs with metadata, with tools
    around it.  This development models the library in [graph/] (container,
    metadata, merging, manager, analyses, file formats), the tools [cgdiff],
    [cgquery], [cgconvert], [cgmerge2], [cgformat] and [cgtodot], of the
    collector in [cgcollector/] the part that works on its JSON files and the
    alias analysis that resolves calls through pointers, and of the
    instrumentation selection in [pgis/] the static selection and the load
    imbalance detection.  Paths below are relative to [src/].

    ** How C++ is modelled

    A C++ operation is a Rocq function into [outcome]: it returns, throws, runs
    into a failed [assert], or has undefined behaviour; a call of [exit] counts
    as an exception that nobody catches.  [assert] is taken to be enabled.
    Mutable objects are passed and returned; a pointer to a node is the
    identifier of the node ([None] for null), and a pointer to a managed graph
    is an abstract pointer into a map from pointers to graphs, so that dangling
    pointers can be told apart.  [double] is IEEE binary64 ([SpecFloat]).  [int] is [Z] with checked overflow
    ([int_add]: overflow is undefined) and with the wrap-around of a
    conversion ([to_int]).
    The traversal order of unordered containers is the class [IterOrder]: all
    theorems hold for every order; [std::map] and [std::set] are traversed in
    increasing order ([ordered_iter], [ordered_set]).  Loops without an evident
    bound take fuel: [OutOfFuel] is not an outcome of the code.  Theorems about
    such loops state that from some amount of fuel on the result is the one
    described (global loop depths: more than the number of functions; alias
    analysis: more than the number of objects), or that no amount is enough
    ([computeDominators_diverges]).

    The JSON library is a parameter: [JsonOps] are its operations, [JsonLaws]
    their documented behaviour, [JsonTree] is a concrete instance, on which the
    examples run.  Metadata classes are behind the interface [MetaDataI] (with
    laws [MetaDataLaws]), which [BuiltinMD] implements with the classes of the
    repository.  The merge takes any [MergePolicy].  The option parser and the
    file system of the tools are parameters, and so are floating point numbers
    in JSON where call counts are merged.

    ** Files and the code they model

    - [Prelude]: outcomes, loops, vectors, iteration orders, machine integers.
    - [Worklist]: the invariant and the measure of traversals with a queue and
      a set of visited elements; used by [Reach] and [CollectorProps].
    - [Json]: the JSON interface, its laws and the instance.
    - [MetaData], [BuiltinMD]: [graph/include/metacg/metadata/]: the interface,
      the thirteen classes, their registry, reading, writing and merging them.
    - [Callgraph]: [graph/src/Callgraph.cpp], [CgNode.cpp]: the record
      [Callgraph] has the fields of the class, each method is a function.
      [CallgraphWf] is the invariant [wf], [CallgraphOps] its preservation,
      [CallgraphSpec] the abstract graph (a map of nodes, a set of edges) and
      the refinement, [CallgraphProps] the theorems and counterexamples.
    - [Merge]: [Callgraph::merge] and [graph/src/MergePolicy.cpp]; theorems in
      [MergeProps], examples in [MergeExamples].
    - [Manager]: [graph/src/MCGManager.cpp].
    - [Reach]: [graph/src/ReachabilityAnalysis.cpp].
    - [Dominators], [DominatorExamples]: [graph/include/DominatorAnalysis.h].
    - [Util]: [graph/include/metacg/Util.h], [MCGBaseInfo.h].
    - [Format4], [Roundtrip4], [Format4Examples]: the reader and writer of
      format 4; [Format2], [Format2Props], [Format2Examples]: those of format 2
      and the factories, all in [graph/src/io/].
    - [Dot], [DotProps], [DotReader], [DotGenerator], [DotExamples]:
      [graph/src/DotIO.cpp].
    - [Diff], [DiffProps], [DiffExamples]: [tools/cgdiff/].
    - [Query], [QueryProps], [QueryExamples]: [tools/cgquery/].
    - [Exchange]: graphs in files, shared by the tools; [Tools]: the main
      functions of [tools/cgconvert/], [cgmerge2/], [cgformat/] and [cgtodot/];
      [ToolsProps], [CgFormatProps], [ToolsExamples].
    - [Collector], [CollectorProps]: [cgcollector/lib/src/JSONManager.cpp] and
      its header; [CallDepth]:
      [cgcollector/lib/src/GlobalCallDepth.cpp]; [CollectorMerge],
      [CollectorMergeProps]: [cgcollector/tools/CGMerge.cpp];
      [CollectorExamples] runs them.
    - [AliasNames]: the objects of the alias analysis, their
      orders and representations; [AliasClasses]: the container of equivalence
      classes ([cgcollector/lib/include/AliasAnalysis.h], and
      [EquivClassContainer] in [AliasAnalysis.cpp]); [AliasWf],
      [AliasClosure], [AliasRecursion]: its invariant, and what merging does.
      [AliasExtractor]: [ASTInformationExtractor::calculatePERelation] and its
      parts, with the nodes of [CallGraph.h]; its theorems are in [AliasInit]
      (the classes before any merge), [AliasExtractorProps] (merging with all
      calls that follow, and the steps) and [AliasProgram] (the result).
      [AliasMerge]: the JSON of the container and [mergeEquivalenceClasses] of
      [cgcollector/tools/CGMerge.cpp]; [AliasMergeProps] (adding the classes of
      another file), [AliasMergeResult] (the result).  [CollectorMergeTwo]:
      [mergeFileFormatTwo] and [main] of [CGMerge.cpp], with the theorem on the
      merge of whole files.  [AliasExamples] runs all.
    - [PgisMD]: the metadata classes of [pgis/lib/include/MetaData/] and
      [loadImbalance/LIMetaData.h] with typed access to them; [PgisInstance]:
      their JSON, and their union with the library's classes as an instance of
      [MetaDataI]; [PgisAccess]: views of the metadata of a node, frames
      (graphs that differ in some metadata only) and marks.
    - [PgisWalk]: traversals of a graph with a queue; [CgHelper],
      [InclusiveCounts]: [pgis/lib/src/CgHelper.cpp].
    - [PgisConfig]: [pgis/lib/include/config/GlobalConfig.h].
    - [PgisPhases], [PgisGaps]: the phases that do not count, from
      [EstimatorPhase.cpp], [LegacyEstimatorPhases.cpp] and
      [IPCGEstimatorPhase.cpp]; [PgisCounts]: the phases that do, with the
      statistics; their theorems are in [PgisReach], [PgisCountsProps],
      [PgisSelect] and [PgisStatistics].
    - [LIPhase], [LIProps]: [pgis/lib/src/loadImbalance/].
    - [PgisProcessor]: [pgis/lib/src/PiraMCGProcessor.cpp] and the registration
      of the phases in [pgis/tool/PGISMain.cpp]; [PgisStatic], [PgisStaticRun]:
      the static selection as a whole; [PgisExamples] runs it.

    ** What is shown

    - The container: every history of the operations in [CallgraphSpec.op]
      keeps [wf] and refines the abstract graph, and the queries agree with it; where it does not, the
      statement says what happens instead (one past the last identifier, [clear]
      and the entry function, foreign nodes, renamed nodes).
    - Merging, for sources without erased nodes and with unique names, and
      metadata whose merge cannot fail: every node of the source has an image
      with the same name, edges and metadata are carried along, and merging by
      name is the union by name; the manager's merge is the union of all graphs.
      Counterexamples: erased nodes, metadata of edges.
    - Metadata: what the merge of two objects of a class returns, class by class
      and in terms of their fields, and when a sum overflows; merging is
      idempotent where the classes mean it to be; JSON round trips.
    - Reachability and dominators: both analyses terminate and compute the
      closure of the call relation and the dominators, under the stated
      condition on the start node; without it the dominator analysis may run
      forever, as it does on a graph given here in every iteration order.
    - Formats 4 and 2: writing and reading gives the same graph up to the
      numbers of the nodes, if no edge has metadata and identifiers are distinct;
      the round trip through format 2 at the level of JSON; what is lost or
      undefined.
    - DOT: what the parser makes of the lines of a graph whose names the
      tokenizer does not tear apart, what the generator
      lists, and that the two do not fit together.
    - Diff: for graphs without erased nodes and with unique names, the comparison
      reports exactly the names whose summaries differ, and every reported node
      carries a reason.
    - Query: the composition of the layers: writing a graph, choosing the reader,
      reading, looking names up and running the analysis answers the question
      about the graph that was written.
    - Collector files: the propagation closes the override relation (and never
      runs for format 2); global loop depths are the deepest call chains; merging
      files of format 1 is the union of their functions, merged loop depths are
      the maxima.
    - Alias analysis: the recursive merge terminates, keeps the classes a
      partition and computes the congruence closure of the merged pair under
      prefixes with the same member; the objects get consistent classes, with
      the prefixes that their spelling says; the analysis of a translation unit
      joins what assignments, calls, members and this pointers ask for and
      nothing beyond the least relation closed under prefixes, calls and this
      pointers, and the call graph gets the edges of the calls that this
      relation brings together with a function.  Where the code does less, or uses a
      class that it has erased, the statement or an example says so.  The data is
      read back as written; merging the data of another file computes the least
      relation with the classes of both, closed in the same way, and the call
      graph gets exactly the edges of its calls.  Merging files of format 2 is
      the union of their functions with these edges, for files without loop
      depths and call counts.
    - The other tools, on files of the format-4 writer without metadata of edges:
      conversion keeps the graph, merging files is the union of their graphs, the
      check and the repair of origins do what they promise.
    - Instrumentation selection: every phase terminates and marks exactly the
      functions its description names (inclusive counts over what is reachable,
      each function once; cutoff values of the histogram; gaps on the paths to
      main, if no two functions have the same name; children of imbalanced functions), changes no other metadata, and the
      static selection as a whole writes the file with exactly the functions
      above the cutoff.  What survives a file of the metadata.

    ** Not modelled

    - Collectors based on clang and flang (most of
      [cgcollector/lib/src/CallGraph.cpp], the traversal in [AliasAnalysis.cpp]
      by which the alias analysis gets its input and the USRs of expressions,
      [tools/cgcollector2], [cgfcollector]) and the LLVM
      passes ([tools/cage], [tools/cgpatch]): they follow syntax trees and
      intermediate code of compilers that are not in the repository.
    - In [pgis]: the selection by measured run time and overhead
      ([RuntimeEstimatorPhase], [AttachInstrumentationResultsEstimatorPhase]),
      the readers of Cube profiles and the phases on Extra-P models (libraries
      that are not in the repository) with [PiraTwoData], the estimate of call
      counts, the reader of format 1, the parameter file and the command line.
    - In [cgdiff]: the rendering of the differences as JSON.
    - Option parsing of the tools, logging, timing, the Python bindings: input
      and output around the operations modelled here. *)

From stdpp Require Export base tactics option list gmap strings fin_maps sets pretty sorting.

(** ** Outcomes of C++ code

    A C++ operation returns a value, throws an exception, runs into a failed
    [assert], or has undefined behaviour.  A call of [exit] ends the program,
    which is treated like an exception that nobody catches.  [OutOfFuel] is not an outcome of the
    code: it says that the bound given to a loop of the model was too small. *)

Inductive cpp_exn :=
  | out_of_range
  | runtime_error (what : string)
  | json_type_error
  | json_out_of_range
  | invalid_argument
  | process_exit (code : Z).

Inductive outcome (A : Type) :=
  | Ret (a : A)
  | Throw (e : cpp_exn)
  | AssertFail
  | UB
  | OutOfFuel.
Arguments Ret {A} _.
Arguments Throw {A} _.
Arguments AssertFail {A}.
Arguments UB {A}.
Arguments OutOfFuel {A}.

#[export] Instance cpp_exn_eq_dec : EqDecision cpp_exn.
Proof. solve_decision. Defined.

#[export] Instance outcome_ret : MRet outcome := fun A a => Ret a.
#[export] Instance outcome_bind : MBind outcome := fun A B f o =>
  match o with
  | Ret a => f a
  | Throw e => Throw e
  | AssertFail => AssertFail
  | UB => UB
  | OutOfFuel => OutOfFuel
  end.

Definition cpp_assert (b : bool) : outcome unit := if b then Ret tt else AssertFail.

(** Dereferencing a pointer that may be null. *)
Definition deref {A} (p : option A) : outcome A :=
  match p with Some a => Ret a | None => UB end.

(** [std::vector::at] and [unordered_map::at] throw [std::out_of_range]. *)
Definition at_or_throw {A} (p : option A) : outcome A :=
  match p with Some a => Ret a | None => Throw out_of_range end.

(** The code returned normally with [v]. *)
Declare Scope outcome_scope.
Delimit Scope outcome_scope with outcome.
Notation "o '⇓' v" := (o = Ret v) (at level 70) : outcome_scope.
#[global] Open Scope outcome_scope.

(** A loop whose body may fail, run over the elements in order. *)
Fixpoint foldM {A B} (f : B → A → outcome B) (b : B) (l : list A) : outcome B :=
  match l with
  | [] => Ret b
  | x :: l => b' ← f b x; foldM f b' l
  end.

Lemma bind_ret {A B} (f : A → outcome B) a : (Ret a ≫= f) = f a.
Proof. reflexivity. Qed.

Lemma bind_ret_inv {A B} (f : A → outcome B) (o : outcome A) b :
  (o ≫= f) ⇓ b → ∃ a, o ⇓ a ∧ f a ⇓ b.
Proof. destruct o; naive_solver. Qed.

(** Rule for loops: an invariant over the elements already processed. *)
Lemma foldM_ind {A B} (P : list A → B → Prop) (f : B → A → outcome B) l b :
  P [] b →
  (∀ done x rest b, l = done ++ x :: rest → P done b →
     ∃ b', f b x ⇓ b' ∧ P (done ++ [x]) b') →
  ∃ b', foldM f b l ⇓ b' ∧ P l b'.
Proof.
  intros H0 Hstep.
  assert (∀ rest done b, l = done ++ rest → P done b →
            ∃ b', foldM f b rest ⇓ b' ∧ P l b') as Hgen.
  { intros rest. induction rest as [|x rest IH]; intros done0 b0 Hl Hb; simpl.
    - rewrite app_nil_r in Hl. subst. eauto.
    - destruct (Hstep done0 x rest b0 Hl Hb) as (b' & -> & Hb'). simpl.
      apply (IH (done0 ++ [x])); [by rewrite <- app_assoc|done]. }
  apply (Hgen l []); auto.
Qed.

(** The same with the elements as a set of premises: no order is used. *)
Lemma foldM_inv {A B} (P : B → Prop) (f : B → A → outcome B) l b :
  P b →
  (∀ x b, x ∈ l → P b → ∃ b', f b x ⇓ b' ∧ P b') →
  ∃ b', foldM f b l ⇓ b' ∧ P b'.
Proof.
  intros H0 Hstep. apply (foldM_ind (fun _ => P)); [done|].
  intros d x r b1 -> Hb. apply Hstep; [|done]. set_solver.
Qed.

(** What every step keeps, the loop keeps, if it returns. *)
Lemma foldM_keeps {A B} (P : B → Prop) (f : B → A → outcome B) l b b' :
  (∀ x b b', x ∈ l → P b → f b x ⇓ b' → P b') → P b → foldM f b l ⇓ b' → P b'.
Proof.
  revert b. induction l as [|x l IH]; intros b Hf Hb Hr; simpl in Hr; [by injection Hr as <-|].
  apply bind_ret_inv in Hr as (b1 & H1 & Hr). apply (IH b1); [|by eapply Hf; [left| |]|done].
  intros y c c' Hy. apply Hf. by right.
Qed.

Lemma foldM_ext {A B} (f h : B → A → outcome B) b l :
  (∀ b x, f b x = h b x) → foldM f b l = foldM h b l.
Proof.
  intros Hfh. revert b. induction l as [|x l IH]; intros b; simpl; [done|]. rewrite Hfh.
  destruct (h b x); simpl; auto.
Qed.

(** Loops with a body that takes fuel: one bound serves for all elements. *)
Lemma foldM_fuel {A B} (P : list A → B → Prop) (f : nat → B → A → outcome B) N l b :
  P [] b →
  (∀ done x rest b, l = done ++ x :: rest → P done b →
     ∃ b', P (done ++ [x]) b' ∧ ∀ fuel, N ≤ fuel → f fuel b x ⇓ b') →
  ∃ b', P l b' ∧ ∀ fuel, N ≤ fuel → foldM (f fuel) b l ⇓ b'.
Proof.
  intros H0 Hstep.
  assert (∀ rest dn b1, l = dn ++ rest → P dn b1 → ∃ b2, P l b2 ∧
    ∀ fuel, N ≤ fuel → foldM (f fuel) b1 rest ⇓ b2) as Hgo.
  { intros rest. induction rest as [|x rest IH]; intros dn b1 Hl HP1.
    - rewrite app_nil_r in Hl. subst dn. by exists b1.
    - destruct (Hstep dn x rest b1 Hl HP1) as (b2 & HP2 & Hr).
      destruct (IH (dn ++ [x]) b2) as (b3 & HP3 & Hr3); [by rewrite <- app_assoc|done|].
      exists b3. split; [done|]. intros fuel Hf. simpl. rewrite Hr by done. simpl. by apply Hr3. }
  by apply (Hgo l []).
Qed.

Lemma foldM_app {A B} (f : B → A → outcome B) b l1 l2 :
  foldM f b (l1 ++ l2) = (b' ← foldM f b l1; foldM f b' l2).
Proof.
  revert b. induction l1 as [|x l1 IH]; intros b; simpl; [done|].
  destruct (f b x); simpl; auto.
Qed.

(** ** Unbounded loops

    One turn of a [while] loop continues with [inl] or stops with [inr]. *)

Fixpoint loop {A B} (fuel : nat) (step : A → outcome (A + B)) (a : A) : outcome B :=
  match fuel with
  | 0 => OutOfFuel
  | S fuel => r ← step a; match r with inl a' => loop fuel step a' | inr b => Ret b end
  end.

Lemma loop_mono {A B} (step : A → outcome (A + B)) n m a b :
  loop n step a ⇓ b → n ≤ m → loop m step a ⇓ b.
Proof.
  revert m a. induction n as [|n IH]; intros [|m] a Hr Hle; simpl in *; [done|done|lia|].
  destruct (step a) as [[a'|b']| | | |]; simpl in *; try done. apply IH; [done|lia].
Qed.

Lemma loop_ext {A B} (step step' : A → outcome (A + B)) fuel a :
  (∀ a, step a = step' a) → loop fuel step a = loop fuel step' a.
Proof.
  intros Hs. revert a. induction fuel as [|fuel IH]; intros a; simpl; [done|]. rewrite Hs.
  destruct (step' a) as [[a'|b]| | | |]; simpl; auto.
Qed.

(** A loop with an invariant and a measure that decreases along a well-founded
    order stops, and every large enough bound gives its result. *)
Lemma loop_terminates {A B} (step : A → outcome (A + B)) (I : A → Prop) (Q : B → Prop)
    (R : A → A → Prop) a :
  well_founded R → I a →
  (∀ a, I a → (∃ a', step a ⇓ inl a' ∧ I a' ∧ R a' a) ∨ (∃ b, step a ⇓ inr b ∧ Q b)) →
  ∃ b N, Q b ∧ ∀ fuel, N ≤ fuel → loop fuel step a ⇓ b.
Proof.
  intros Hwf Ha Hstep. revert Ha. induction (Hwf a) as [a _ IH]. intros Ha.
  destruct (Hstep a Ha) as [(a' & Hs & Ha' & HR)|(b & Hs & HQ)].
  - destruct (IH a' HR Ha') as (b & N & HQ & HN). exists b, (S N). split; [done|].
    intros [|fuel] Hf; [lia|]. simpl. rewrite Hs. simpl. apply HN. lia.
  - exists b, 1. split; [done|]. intros [|fuel] Hf; [lia|]. simpl. by rewrite Hs.
Qed.

(** The state after some turns, if the loop has not stopped by then. *)
Fixpoint turns {A B} (n : nat) (step : A → outcome (A + B)) (a : A) : option A :=
  match n with
  | 0 => Some a
  | S n => match step a with Ret (inl a') => turns n step a' | _ => None end
  end.

Lemma loop_turns {A B} (step : A → outcome (A + B)) n a a' fuel :
  turns n step a = Some a' →
  loop fuel step a = if decide (fuel ≤ n) then OutOfFuel else loop (fuel - n) step a'.
Proof.
  revert n a. induction fuel as [|fuel IH]; intros n a Hn; [by case_decide|].
  destruct n as [|n]; simpl in Hn; [injection Hn as ->; by rewrite decide_False by lia|]. simpl.
  destruct (step a) as [[a1|b]| | | |]; try done. simpl. rewrite (IH n a1 Hn).
  by repeat case_decide; lia || done.
Qed.

(** A loop that comes back to a state never stops. *)
Lemma loop_diverges {A B} (step : A → outcome (A + B)) n m a a' :
  turns n step a = Some a' → turns (S m) step a' = Some a' → ∀ fuel, loop fuel step a = OutOfFuel.
Proof.
  intros Hn Hm fuel. rewrite (loop_turns _ _ _ _ _ Hn). case_decide; [done|].
  generalize (fuel - n). intros k. induction k as [k IH] using lt_wf_ind.
  rewrite (loop_turns _ _ _ _ _ Hm). case_decide; [done|]. apply IH. lia.
Qed.

(** Two measures, the second one counting when the first one stays. *)
Definition lex_lt {A} (f1 f2 : A → nat) (a b : A) : Prop :=
  f1 a < f1 b ∨ (f1 a = f1 b ∧ f2 a < f2 b).

Lemma lex_lt_wf {A} (f1 f2 : A → nat) : well_founded (lex_lt f1 f2).
Proof.
  intros a. remember (f1 a) as n eqn:Hn. revert a Hn.
  induction n as [n IH1] using lt_wf_ind. intros a. remember (f2 a) as m eqn:Hm. revert a Hm.
  induction m as [m IH2] using lt_wf_ind. intros a -> ->. constructor.
  intros b [Hlt|[Heq Hlt]]; [by eapply IH1|by eapply IH2].
Qed.

(** ** [std::vector] helpers *)

(** [v.erase(std::find(v.begin(), v.end(), x))]: removes the first occurrence;
    erasing [end()] is undefined behaviour. *)
Fixpoint erase_find {A} `{EqDecision A} (x : A) (l : list A) : outcome (list A) :=
  match l with
  | [] => UB
  | y :: l => if decide (y = x) then Ret l else l' ← erase_find x l; Ret (y :: l')
  end.

Lemma erase_find_spec {A} `{EqDecision A} (x : A) l :
  x ∈ l → NoDup l →
  ∃ l', erase_find x l ⇓ l' ∧ NoDup l' ∧ (∀ y, y ∈ l' ↔ y ∈ l ∧ y ≠ x) ∧
        length l = S (length l').
Proof.
  induction l as [|z l IH]; [by intros ?%elem_of_nil|].
  intros Hx [Hz Hnd]%NoDup_cons. simpl. case_decide as Heq.
  - subst. exists l. set_solver.
  - destruct IH as (l' & -> & Hnd' & Hin & Hlen); [set_solver|done|].
    exists (z :: l'). split_and!; [done| | |simpl; lia].
    + constructor; [|done]. rewrite Hin. naive_solver.
    + intros y. rewrite !elem_of_cons, Hin. naive_solver.
Qed.

Lemma erase_find_not_in {A} `{EqDecision A} (x : A) l : x ∉ l → erase_find x l = UB.
Proof.
  induction l as [|y l IH]; intros Hx; simpl; [done|].
  case_decide; [set_solver|]. rewrite IH; [done|set_solver].
Qed.

(** [erase_find] keeps the other elements in place: sublists stay sorted. *)
Lemma erase_find_sublist {A} `{EqDecision A} (x : A) l l' :
  erase_find x l ⇓ l' → sublist l' l.
Proof.
  revert l'. induction l as [|y l IH]; intros l'; simpl; [done|].
  case_decide; [intros [= <-]; by constructor|].
  intros (l1 & Hl1 & [= <-])%bind_ret_inv. constructor. auto.
Qed.

(** ** Filtered lists *)

Lemma filter_iff_in {A} (P Q : A → Prop) `{∀ x, Decision (P x)} `{∀ x, Decision (Q x)}
    (l : list A) :
  (∀ x, x ∈ l → P x ↔ Q x) → filter P l = filter Q l.
Proof.
  induction l as [|x l IH]; intros HPQ; [done|].
  pose proof (HPQ x ltac:(set_solver)). rewrite !filter_cons, IH by set_solver.
  do 2 case_decide; naive_solver.
Qed.

(** ** Iteration order of the unordered containers

    The C++ standard leaves the order in which [std::unordered_map] and
    [std::unordered_set] are traversed open.  The model takes the order as a
    parameter; every theorem holds for all of them. *)

Class IterOrder := {
  iter_map : ∀ {K} `{Countable K} {A}, gmap K A → list (K * A);
  iter_map_perm : ∀ {K} `{Countable K} {A} (m : gmap K A),
    iter_map m ≡ₚ map_to_list m;
  iter_set : ∀ {K} `{Countable K}, gset K → list K;
  iter_set_perm : ∀ {K} `{Countable K} (X : gset K),
    iter_set X ≡ₚ elements X
}.

(** One possible order, used by the concrete examples. *)
Definition canonical_order : IterOrder := {|
  iter_map := fun K _ _ A m => map_to_list m;
  iter_map_perm := fun K _ _ A m => reflexivity _;
  iter_set := fun K _ _ X => elements X;
  iter_set_perm := fun K _ _ X => reflexivity _
|}.

(** Another one: every container in the reverse order. *)
Definition reversed_order : IterOrder := {|
  iter_map := fun K _ _ A m => reverse (map_to_list m);
  iter_map_perm := fun K _ _ A m => reverse_Permutation _;
  iter_set := fun K _ _ X => reverse (elements X);
  iter_set_perm := fun K _ _ X => reverse_Permutation _
|}.

Section iter_order.
Context {IO : IterOrder}.

Lemma elem_of_iter_map {K} `{Countable K} {A} (m : gmap K A) k v :
  (k, v) ∈ iter_map m ↔ m !! k = Some v.
Proof. by rewrite iter_map_perm, elem_of_map_to_list. Qed.

Lemma elem_of_iter_set {K} `{Countable K} (X : gset K) k :
  k ∈ iter_set X ↔ k ∈ X.
Proof. by rewrite iter_set_perm, elem_of_elements. Qed.

Lemma iter_map_NoDup_fst {K} `{Countable K} {A} (m : gmap K A) :
  NoDup (iter_map m).*1.
Proof. rewrite iter_map_perm. apply NoDup_fst_map_to_list. Qed.

Lemma iter_set_NoDup {K} `{Countable K} (X : gset K) : NoDup (iter_set X).
Proof. rewrite iter_set_perm. apply NoDup_elements. Qed.

Lemma iter_set_empty {K} `{Countable K} : iter_set (∅ : gset K) = [].
Proof. apply Permutation_nil_r. by rewrite iter_set_perm, elements_empty. Qed.

Lemma length_iter_set {K} `{Countable K} (X : gset K) : length (iter_set X) = size X.
Proof. apply Permutation_length, iter_set_perm. Qed.

Lemma iter_map_to_map {K} `{Countable K} {A} (m : gmap K A) :
  list_to_map (iter_map m) = m.
Proof.
  rewrite <- (list_to_map_to_list m) at 2.
  apply list_to_map_proper; [apply iter_map_NoDup_fst|apply iter_map_perm].
Qed.
End iter_order.

(** ** Strings and ordered maps *)

Lemma string_app_assoc s t u : s +:+ t +:+ u = (s +:+ t) +:+ u.
Proof.
  induction s as [|c s IH]; [done|].
  change (String c (s +:+ t +:+ u) = String c ((s +:+ t) +:+ u)). by rewrite IH.
Qed.

(** [std::map<std::string, T>] is traversed by increasing key. *)

Definition key_le {A} (p q : string * A) : Prop := String.leb p.1 q.1 = true.
#[export] Instance key_le_dec {A} (p q : string * A) : Decision (key_le p q).
Proof. unfold key_le. apply _. Defined.

Definition ordered_iter {A} (m : gmap string A) : list (string * A) :=
  merge_sort key_le (map_to_list m).

Lemma ordered_iter_perm {A} (m : gmap string A) : ordered_iter m ≡ₚ map_to_list m.
Proof. apply merge_sort_Permutation. Qed.

Lemma elem_of_ordered_iter {A} (m : gmap string A) k v :
  (k, v) ∈ ordered_iter m ↔ m !! k = Some v.
Proof. by rewrite ordered_iter_perm, elem_of_map_to_list. Qed.

Lemma ordered_iter_NoDup_fst {A} (m : gmap string A) : NoDup (ordered_iter m).*1.
Proof. rewrite ordered_iter_perm. apply NoDup_fst_map_to_list. Qed.

Lemma ordered_iter_to_map {A} (m : gmap string A) : list_to_map (ordered_iter m) = m.
Proof.
  rewrite <- (list_to_map_to_list m) at 2.
  apply list_to_map_proper; [apply ordered_iter_NoDup_fst|apply ordered_iter_perm].
Qed.

#[export] Instance key_le_total {A} : Total (@key_le A).
Proof. intros p q. unfold key_le. apply String.leb_total. Qed.

Lemma ordered_iter_sorted {A} (m : gmap string A) : Sorted key_le (ordered_iter m).
Proof. apply Sorted_merge_sort; apply _. Qed.

(** The order only depends on the keys. *)
#[export] Instance string_leb_trans : Transitive (λ s t : string, String.leb s t = true).
Proof.
  intros s t u Hs Ht. apply Is_true_true. change (String.le s u).
  transitivity t; by apply Is_true_true.
Qed.
#[export] Instance string_leb_antisym : AntiSymm (=) (λ s t : string, String.leb s t = true).
Proof. intros s t. apply String.leb_antisym. Qed.

Lemma string_ltb_leb s t : String.ltb s t = negb (String.leb t s).
Proof.
  unfold String.ltb, String.leb. rewrite String.compare_antisym. by destruct (String.compare t s).
Qed.

Lemma string_ltb_trans s t u :
  String.ltb s t = true → String.ltb t u = true → String.ltb s u = true.
Proof.
  rewrite !string_ltb_leb, !negb_true_iff. intros Hts Hut.
  destruct (String.leb u s) eqn:Hus; [|done]. destruct (String.leb_total s t) as [Hst|Hst]; [|congruence].
  assert (String.leb u t = true) by (by apply (string_leb_trans u s t)). congruence.
Qed.

Lemma string_ltb_irrefl s : String.ltb s s = false.
Proof. rewrite string_ltb_leb. by destruct (String.leb_total s s) as [->| ->]. Qed.

Lemma string_ltb_total s t : String.ltb s t = false → String.ltb t s = false → s = t.
Proof.
  rewrite !string_ltb_leb, !negb_false_iff. intros ??. by apply String.leb_antisym.
Qed.

Lemma ordered_iter_keys_sorted {A} (m : gmap string A) :
  Sorted (λ s t : string, String.leb s t = true) (ordered_iter m).*1.
Proof. apply (Sorted_fmap _ key_le); [done|apply ordered_iter_sorted]. Qed.

Lemma ordered_keys_dom {A B} (m : gmap string A) (m' : gmap string B) :
  (∀ k, is_Some (m !! k) ↔ is_Some (m' !! k)) → (ordered_iter m).*1 = (ordered_iter m').*1.
Proof.
  intros Hd. apply (Sorted_unique (λ s t : string, String.leb s t = true));
    [apply ordered_iter_keys_sorted..|].
  apply NoDup_Permutation; [apply ordered_iter_NoDup_fst..|]. intros k.
  rewrite !list_elem_of_fmap. split.
  - intros ([k' v] & -> & Hv%elem_of_ordered_iter). destruct (proj1 (Hd k')) as [w Hw]; [by eexists|].
    exists (k', w). split; [done|]. by apply elem_of_ordered_iter.
  - intros ([k' v] & -> & Hv%elem_of_ordered_iter). destruct (proj2 (Hd k')) as [w Hw]; [by eexists|].
    exists (k', w). split; [done|]. by apply elem_of_ordered_iter.
Qed.

(** Building a map by converting the entries of another one. *)
Lemma foldM_insert {K} `{Countable K} {A B} (f : A → outcome B) (L : list (K * A)) (m : gmap K B) :
  NoDup L.*1 →
  (∀ k b, m !! k = Some b ↔ ∃ a, (k, a) ∈ L ∧ f a ⇓ b) →
  (∀ k a, (k, a) ∈ L → ∃ b, f a ⇓ b) →
  foldM (λ m '(k, a), b ← f a; Ret (<[k:=b]> m)) ∅ L ⇓ m.
Proof.
  intros Hnd Hm Hf.
  destruct (foldM_ind (λ done m', ∀ k b, m' !! k = Some b ↔ ∃ a, (k, a) ∈ done ∧ f a ⇓ b)
    (λ m '(k, a), b ← f a; Ret (<[k:=b]> m)) L (∅ : gmap K B)) as (m' & -> & Hm').
  - intros k b. rewrite lookup_empty. set_solver.
  - intros dn [k a] rest m' -> Hm'. destruct (Hf k a) as [b Hb]; [set_solver|].
    exists (<[k:=b]> m'). rewrite Hb. split; [done|]. intros k' b'.
    rewrite lookup_insert_Some, Hm'.
    rewrite fmap_app, NoDup_app in Hnd. destruct Hnd as (_ & Hnd & _).
    assert (∀ a', (k, a') ∈ dn → False) as Hfresh.
    { intros a' Ha'. apply (Hnd k); [by apply (list_elem_of_fmap_2 fst _ (k, a'))|].
      by apply elem_of_cons; left. }
    split.
    + intros [[<- <-]|(Hne & a' & Ha' & Hb')].
      * exists a. split; [apply elem_of_app; right; by apply list_elem_of_singleton|done].
      * exists a'. split; [by apply elem_of_app; left|done].
    + intros (a' & [Ha'|Ha'%list_elem_of_singleton]%elem_of_app & Hb').
      * right. split; [intros <-; by eapply Hfresh|by exists a'].
      * injection Ha' as <- <-. left. split; [done|congruence].
  - f_equal. apply map_eq. intros k. apply option_eq. intros b. by rewrite Hm, Hm'.
Qed.

(** ** Machine integers

    [int] has 32 bits and its arithmetic is undefined on overflow. *)

Definition INT_MIN : Z := - 2 ^ 31.
Definition INT_MAX : Z := 2 ^ 31 - 1.
Definition is_int (z : Z) : Prop := (INT_MIN ≤ z ≤ INT_MAX)%Z.
#[export] Instance is_int_dec z : Decision (is_int z).
Proof. unfold is_int. apply _. Defined.

Definition int_add (a b : Z) : outcome Z :=
  if decide (is_int (a + b)) then Ret (a + b)%Z else UB.

Lemma int_add_ret a b : is_int (a + b) → int_add a b ⇓ (a + b)%Z.
Proof. intros. unfold int_add. by rewrite decide_True. Qed.

Lemma int_add_is_int a b c : int_add a b ⇓ c → is_int c.
Proof. unfold int_add. case_decide; naive_solver. Qed.

(** The conversion of a wider integer to [int] keeps the low 32 bits. *)
Definition to_int (z : Z) : Z := ((z - INT_MIN) `mod` 2 ^ 32 + INT_MIN)%Z.

Lemma to_int_id z : is_int z → to_int z = z.
Proof.
  unfold is_int, to_int, INT_MIN, INT_MAX. intros. rewrite Z.mod_small; lia.
Qed.

Lemma to_int_is_int z : is_int (to_int z).
Proof.
  unfold is_int, to_int, INT_MIN, INT_MAX.
  pose proof (Z.mod_pos_bound (z - - 2 ^ 31) (2 ^ 32) ltac:(lia)). lia.
Qed.

(** [long long int] has 64 bits. *)
Definition is_longlong (z : Z) : Prop := (- 2 ^ 63 ≤ z ≤ 2 ^ 63 - 1)%Z.
#[export] Instance is_longlong_dec z : Decision (is_longlong z).
Proof. unfold is_longlong. apply _. Defined.

(** [long int] is as wide here. *)
Definition LONG_MAX : Z := 2 ^ 63 - 1.
Definition long_add (a b : Z) : outcome Z :=
  if decide (is_longlong (a + b)) then Ret (a + b)%Z else UB.

Lemma long_add_ret a b : is_longlong (a + b) → long_add a b ⇓ (a + b)%Z.
Proof. intros. unfold long_add. by rewrite decide_True. Qed.

(** ** Automation *)

Create HintDb metacg.
Create Rewrite HintDb metacg.
#[export] Hint Resolve bind_ret erase_find_not_in int_add_ret : metacg.
#[export] Hint Rewrite @bind_ret : metacg.

(** Takes apart a successful run of sequenced code. *)
Ltac invert_outcome :=
  repeat match goal with
  | H : (_ ≫= _) = Ret _ |- _ =>
      let a := fresh "r" in let Ha := fresh "Hr" in
      apply bind_ret_inv in H; destruct H as (a & Ha & H)
  | H : Ret _ = Ret _ |- _ => injection H as H; subst
  | H : Throw _ = Ret _ |- _ => discriminate H
  | H : AssertFail = Ret _ |- _ => discriminate H
  | H : UB = Ret _ |- _ => discriminate H
  | H : OutOfFuel = Ret _ |- _ => discriminate H
  end.
