(* ===== verification/Worklist.v ===== *)
(** * Work lists with a set of visited elements

    Both the reachability analysis and the propagation of overriding functions
    take an element from a queue, mark it as visited and append those of its
    successors that are not marked; elements may be queued, and even expanded,
    several times.  The invariant of such a loop, what it implies at the end,
    and the measure that makes it stop. *)

From S2P Require Import Prelude.

Section worklist.
Context {A} `{Countable A} (R : A → A → Prop) (start : A).

Record wl_inv (V : gset A) (q : list A) : Prop := {
  wl_sound : ∀ x, x ∈ V ∨ x ∈ q → rtc R start x;
  wl_start : start ∈ V ∨ start ∈ q;
  wl_closed : ∀ x y, x ∈ V → R x y → y ∈ V ∨ y ∈ q
}.

Lemma wl_inv_init : wl_inv ∅ [start].
Proof.
  split; [|right; by apply list_elem_of_singleton|by intros x y ?%elem_of_empty].
  intros x [?%elem_of_empty| ->%list_elem_of_singleton]; done.
Qed.

(** When the queue is empty, exactly the reachable elements are marked. *)
Lemma wl_done V : wl_inv V [] → ∀ x, x ∈ V ↔ rtc R start x.
Proof.
  intros [Hs Hst Hc] x. split; [intros; apply Hs; by left|].
  destruct Hst as [Hst|?%elem_of_nil]; [|done]. revert x.
  apply (rtc_ind_r (λ x, x ∈ V) start); [done|]. intros y z _ Hyz IH.
  destruct (Hc y z IH Hyz) as [?|?%elem_of_nil]; done.
Qed.

(** How many elements at the front of the queue are marked already. *)
Fixpoint visited_prefix (V : gset A) (q : list A) : nat :=
  match q with
  | [] => 0
  | x :: q => if decide (x ∈ V) then S (visited_prefix V q) else 0
  end.

Lemma visited_prefix_app V q q' :
  (∀ x, x ∈ q' → x ∉ V) → visited_prefix V (q ++ q') = visited_prefix V q.
Proof.
  intros Hq'. induction q as [|x q IH]; simpl; [|by rewrite IH].
  destruct q' as [|y q']; [done|]. simpl. rewrite decide_False; [done|]. apply Hq'. set_solver.
Qed.

(** The elements of the finite set [U] that are not marked. *)
Definition unvisited (U V : gset A) : nat := size (U ∖ V).

Lemma wl_step U V x q new :
  (∀ y, rtc R start y → y ∈ U) → wl_inv V (x :: q) →
  (∀ y, y ∈ new ↔ (y ∉ ({[x]} ∪ V)) ∧ R x y) →
  wl_inv ({[x]} ∪ V) (q ++ new) ∧
  (unvisited U ({[x]} ∪ V) < unvisited U V ∨
   unvisited U ({[x]} ∪ V) = unvisited U V ∧
   visited_prefix ({[x]} ∪ V) (q ++ new) < visited_prefix V (x :: q)).
Proof.
  intros HU [Hs Hst Hc] Hnew. assert (rtc R start x) as Hx by (apply Hs; set_solver). split; [split|].
  - intros y. rewrite elem_of_app, Hnew. intros [Hy|[Hy|[_ Hy]]].
    + apply elem_of_union in Hy as [->%elem_of_singleton|Hy]; [done|]. apply Hs. by left.
    + apply Hs. set_solver.
    + by eapply rtc_r.
  - set_solver.
  - intros y z Hy Hyz. destruct (decide (z ∈ {[x]} ∪ V)) as [?|Hz]; [by left|right].
    apply elem_of_app. apply elem_of_union in Hy as [->%elem_of_singleton|Hy].
    + right. by apply Hnew.
    + left. destruct (Hc y z Hy Hyz) as [Hz'|[->|?]%elem_of_cons]; [set_solver..|done].
  - destruct (decide (x ∈ V)) as [Hv|Hv]; [right|left].
    + replace ({[x]} ∪ V) with V in Hnew |- * by set_solver. split; [done|].
      rewrite visited_prefix_app; [simpl; rewrite decide_True by done; lia|].
      intros y Hy. by apply Hnew in Hy as [? _].
    + apply subset_size. apply HU in Hx. set_solver.
Qed.
End worklist.

(** ** Queues that hold every successor

    The traversals of [pgis] append all successors of an element to the queue
    and test the mark when an element is taken out, so that every element is
    expanded once.  [visit] is the body of the loop for an element that was not
    marked: it updates the state of the loop and returns what it appends. *)

Section visits.
Context {A St : Type} `{Countable A}.

Definition visit_turn (visit : St → A → outcome (St * list A)) (st : St * gset A * list A)
    : outcome ((St * gset A * list A) + (St * gset A)) :=
  match st with
  | (s, V, []) => Ret (inr (s, V))
  | (s, V, x :: q) =>
      if decide (x ∈ V) then Ret (inl (s, V, q))
      else r ← visit s x; Ret (inl (r.1, {[x]} ∪ V, q ++ r.2))
  end.

(** The body may itself contain loops, which get the fuel [k]. *)
Context (visit : nat → St → A → outcome (St * list A)).
Context (R : A → A → Prop) (starts : list A) (U : gset A) (deg : A → nat).
Context (P : gset A → St → Prop).

(** What can be reached from one of the start elements. *)
Definition from_starts (x : A) : Prop := ∃ s, s ∈ starts ∧ rtc R s x.

Record visit_inv (s : St) (V : gset A) (q : list A) : Prop := {
  vi_sound : ∀ x, x ∈ V ∨ x ∈ q → from_starts x;
  vi_starts : ∀ x, x ∈ starts → x ∈ V ∨ x ∈ q;
  vi_closed : ∀ x y, x ∈ V → R x y → y ∈ V ∨ y ∈ q;
  vi_state : P V s
}.

Lemma visit_done s V : visit_inv s V [] → ∀ x, x ∈ V ↔ from_starts x.
Proof.
  intros [Hs Hst Hc _] x. split; [intros; apply Hs; by left|]. intros (s0 & Hs0 & Hr).
  destruct (Hst s0 Hs0) as [Hs0'|?%elem_of_nil]; [|done]. revert x Hr.
  apply (rtc_ind_r (λ x, x ∈ V) s0); [done|]. intros y z _ Hyz IH.
  by destruct (Hc y z IH Hyz) as [?|?%elem_of_nil].
Qed.

(** What may still be appended. *)
Definition rest_degree (V : gset A) : nat := sum_list (deg <$> elements (U ∖ V)).

Lemma rest_degree_step V x : x ∈ U → x ∉ V → rest_degree V = deg x + rest_degree ({[x]} ∪ V).
Proof.
  intros HU HV. unfold rest_degree. replace (U ∖ V) with ({[x]} ∪ (U ∖ ({[x]} ∪ V))) at 1.
  - rewrite elements_union_singleton by set_solver. done.
  - apply set_eq. intros y. destruct (decide (y = x)); set_solver.
Qed.

(** The loop stops after at most as many turns as there are start elements and
    edges to follow, with the reachable elements marked, and keeps [P]. *)
Lemma visit_loop N s0 :
  (∀ y, from_starts y → y ∈ U) → P ∅ s0 →
  (∀ V s x, P V s → x ∉ V → from_starts x → ∃ s' new, (∀ k, N ≤ k → visit k s x ⇓ (s', new)) ∧
     (∀ y, y ∈ new ↔ R x y) ∧ length new ≤ deg x ∧ P ({[x]} ∪ V) s') →
  ∃ s V, P V s ∧ (∀ x, x ∈ V ↔ from_starts x) ∧
    ∀ k fuel, N ≤ k → length starts + rest_degree ∅ < fuel →
      loop fuel (visit_turn (visit k)) (s0, ∅, starts) ⇓ (s, V).
Proof.
  intros HU HP Hvisit.
  assert (∀ n s V q, length q + rest_degree V = n → visit_inv s V q → ∃ s' V', P V' s' ∧
    (∀ x, x ∈ V' ↔ from_starts x) ∧
    ∀ k fuel, N ≤ k → n < fuel → loop fuel (visit_turn (visit k)) (s, V, q) ⇓ (s', V')) as Hgo.
  { intros n. induction n as [n IH] using lt_wf_ind. intros s V [|x q] Hn Hinv.
    { exists s, V. split_and!; [apply Hinv|by eapply visit_done|]. intros k [|fuel] Hk Hf; [lia|done]. }
    assert (from_starts x) as Hx by (apply (vi_sound _ _ _ Hinv); set_solver).
    destruct (decide (x ∈ V)) as [HV|HV].
    - destruct (IH (pred n) ltac:(simpl in Hn; lia) s V q ltac:(simpl in Hn; lia)) as (s' & V' & HP' & HV' & Hrun).
      { destruct Hinv as [Hs Hst Hc HPs]. split; [set_solver| | |done].
        - intros y Hy. destruct (Hst y Hy) as [?|[->|?]%elem_of_cons]; by auto.
        - intros y z Hy Hyz. destruct (Hc y z Hy Hyz) as [?|[->|?]%elem_of_cons]; by auto. }
      exists s', V'. split_and!; [done..|]. intros k [|fuel] Hk Hf; [lia|]. simpl in Hn |- *.
      rewrite decide_True by done. apply Hrun; [done|lia].
    - destruct (Hvisit V s x (vi_state _ _ _ Hinv) HV Hx) as (s1 & new & Hrun1 & Hnew & Hlen & HP1).
      pose proof (rest_degree_step V x (HU x Hx) HV) as Hrest. simpl in Hn.
      set (n1 := length (q ++ new) + rest_degree ({[x]} ∪ V)).
      assert (n1 < n) as Hlt by (unfold n1; rewrite length_app; lia).
      destruct (IH n1 Hlt s1 ({[x]} ∪ V) (q ++ new) eq_refl) as (s' & V' & HP' & HV' & Hrun).
      { destruct Hinv as [Hs Hst Hc HPs]. split; [| | |done].
        - intros y. rewrite elem_of_app, Hnew, elem_of_union, elem_of_singleton.
          intros [[->|Hy]|[Hy|Hy]]; [done|apply Hs; by left|apply Hs; set_solver|].
          destruct Hx as (s2 & Hs2 & Hr). exists s2. split; [done|]. by eapply rtc_r.
        - intros y Hy. destruct (Hst y Hy) as [?|[->|?]%elem_of_cons]; set_solver.
        - intros y z [->%elem_of_singleton|Hy]%elem_of_union Hyz; [right; set_solver|].
          destruct (Hc y z Hy Hyz) as [?|[->|?]%elem_of_cons]; set_solver. }
      exists s', V'. split_and!; [done..|]. intros k [|fuel] Hk Hf; [lia|]. simpl.
      rewrite decide_False by done. rewrite Hrun1, bind_ret by done. cbn [fst snd]. apply Hrun; [done|lia]. }
  apply (Hgo _ s0 ∅ starts eq_refl). split; [|by right|by intros ?? ?%elem_of_empty|done].
  intros x [?%elem_of_empty|Hx]; [done|]. by exists x.
Qed.
End visits.
