(* ===== verification/Json.v ===== *)
(** * JSON values

    The readers and writers of [graph/src/io] work on [nlohmann::json], which
    is not part of the repository.  Its public operations are the fields of
    the class [JsonOps]; [JsonLaws] states the documented behaviour the code
    relies on, all of it in terms of one observer, [jview], that exposes the
    type and content of a value.  [JsonTree] is a concrete implementation that
    satisfies the laws; the examples run on it. *)

From S2P Require Import Prelude.

(** What a value is: [json::type()] together with its content. *)
Inductive json_view (J : Type) :=
  | VNull
  | VBool (b : bool)
  | VInt (z : Z)
  | VStr (s : string)
  | VArr (l : list J)
  | VObj (m : gmap string J).
Arguments VNull {J}.
Arguments VBool {J} _.
Arguments VInt {J} _.
Arguments VStr {J} _.
Arguments VArr {J} _.
Arguments VObj {J} _.

Class JsonOps := {
  json : Type;
  (** construction from a C++ value *)
  jmk : json_view json → json;
  jview : json → json_view json;
  (** [j.is_null()], [j.is_object()], [j.empty()], [j.contains(k)] *)
  jis_null : json → bool;
  jis_object : json → bool;
  jempty : json → bool;
  jcontains : json → string → bool;
  (** [j.at(k)]; [j[k]] read as a value, on a mutable and on a [const] value *)
  jat : json → string → outcome json;
  jindex : json → string → outcome json;
  jindex_const : json → string → outcome json;
  (** [j[k] = v], [j.erase(k)] *)
  jset : json → string → json → outcome json;
  jerase : json → string → outcome json;
  (** [j.get<T>()] *)
  jget_bool : json → outcome bool;
  jget_int : json → outcome Z;
  jget_longlong : json → outcome Z;
  jget_string : json → outcome string;
  (** [j.items()] and plain iteration *)
  jitems : json → list (string * json);
  jelems : json → list json;
  (** [j.push_back(v)], and [std::sort] of the elements of an array *)
  jpush_back : json → json → outcome json;
  jsort : list json → list json;
  (** [j.dump()] *)
  jdump : json → string
}.

Abbreviation jnull := (jmk VNull).
Abbreviation jbool b := (jmk (VBool b)).
Abbreviation jint z := (jmk (VInt z)).
Abbreviation jstr s := (jmk (VStr s)).
Abbreviation jarr l := (jmk (VArr l)).
Abbreviation jobj m := (jmk (VObj m)).

Class JsonLaws {JO : JsonOps} := {
  jview_jmk v : jview (jmk v) = v;
  jmk_jview j : jmk (jview j) = j;
  jis_null_spec j : jis_null j = match jview j with VNull => true | _ => false end;
  jis_object_spec j : jis_object j = match jview j with VObj _ => true | _ => false end;
  jempty_spec j : jempty j =
    match jview j with
    | VNull => true
    | VArr l => bool_decide (l = [])
    | VObj m => bool_decide (m = ∅)
    | _ => false
    end;
  jcontains_spec j k : jcontains j k =
    match jview j with VObj m => bool_decide (is_Some (m !! k)) | _ => false end;
  jat_spec j k : jat j k =
    match jview j with
    | VObj m => match m !! k with Some v => Ret v | None => Throw json_out_of_range end
    | _ => Throw json_type_error
    end;
  jindex_spec j k : jindex j k =
    match jview j with
    | VObj m => Ret (default jnull (m !! k))
    | VNull => Ret jnull
    | _ => Throw json_type_error
    end;
  (** the [const] operator requires the key to be present *)
  jindex_const_spec j k : jindex_const j k =
    match jview j with
    | VObj m => match m !! k with Some v => Ret v | None => UB end
    | _ => Throw json_type_error
    end;
  jset_spec j k v : jset j k v =
    match jview j with
    | VObj m => Ret (jobj (<[k:=v]> m))
    | VNull => Ret (jobj {[k:=v]})
    | _ => Throw json_type_error
    end;
  jerase_spec j k : jerase j k =
    match jview j with
    | VObj m => Ret (jobj (delete k m))
    | _ => Throw json_type_error
    end;
  jget_bool_spec j : jget_bool j =
    match jview j with VBool b => Ret b | _ => Throw json_type_error end;
  jget_int_int j z : jview j = VInt z → jget_int j ⇓ to_int z;
  jget_longlong_int j z : jview j = VInt z → is_longlong z → jget_longlong j ⇓ z;
  jget_int_null j : jview j = VNull → jget_int j = Throw json_type_error;
  jget_string_spec j : jget_string j =
    match jview j with VStr s => Ret s | _ => Throw json_type_error end;
  jitems_obj j m : jview j = VObj m → jitems j = ordered_iter m;
  jitems_null j : jview j = VNull → jitems j = [];
  jelems_arr j l : jview j = VArr l → jelems j = l;
  jelems_null j : jview j = VNull → jelems j = [];
  jpush_back_spec j v : jpush_back j v =
    match jview j with
    | VArr l => Ret (jarr (l ++ [v]))
    | VNull => Ret (jarr [v])
    | _ => Throw json_type_error
    end;
  jsort_perm l : jsort l ≡ₚ l;
  jdump_inj j1 j2 : jdump j1 = jdump j2 → j1 = j2
}.

(** An update through the reference [j[k]]. *)
Definition jupdate {JO : JsonOps} (j : json) (k : string) (f : json → outcome json) : outcome json :=
  v ← jindex j k; v' ← f v; jset j k v'.

(** An update through the reference [j.at(k)]. *)
Definition jupdate_at {JO : JsonOps} (j : json) (k : string) (f : json → outcome json) : outcome json :=
  v ← jat j k; v' ← f v; jset j k v'.

(** Iteration with [it.key()], which objects and null support. *)
Definition jiter_keys {JO : JsonOps} (j : json) : outcome (list (string * json)) :=
  match jview j with
  | VObj _ | VNull => Ret (jitems j)
  | VArr [] => Ret []
  | _ => Throw json_type_error
  end.

(** [j.get<std::vector<std::string>>()] *)
Definition jget_strings {JO : JsonOps} (j : json) : outcome (list string) :=
  match jview j with
  | VArr l => foldr (fun e acc => s ← jget_string e; l' ← acc; Ret (s :: l')) (Ret []) l
  | _ => Throw json_type_error
  end.

(** A fixed object with the given fields: [{{k1, v1}, {k2, v2}}]. *)
Definition jfields {JO : JsonOps} (l : list (string * json)) : json :=
  jobj (list_to_map l).

Section json_lemmas.
Context {JO : JsonOps} {JL : JsonLaws}.

Lemma jmk_inj v w : jmk v = jmk w → v = w.
Proof. intros H. by rewrite <- (jview_jmk v), H, jview_jmk. Qed.

Lemma jview_eq j v : jview j = v → j = jmk v.
Proof. intros <-. by rewrite jmk_jview. Qed.

Lemma jget_string_str s : jget_string (jstr s) ⇓ s.
Proof. by rewrite jget_string_spec, jview_jmk. Qed.

Lemma jget_bool_bool b : jget_bool (jbool b) ⇓ b.
Proof. by rewrite jget_bool_spec, jview_jmk. Qed.

Lemma jis_null_jmk v : jis_null (jmk v) = match v with VNull => true | _ => false end.
Proof. by rewrite jis_null_spec, jview_jmk. Qed.

Lemma jis_object_jmk v : jis_object (jmk v) = match v with VObj _ => true | _ => false end.
Proof. by rewrite jis_object_spec, jview_jmk. Qed.

Lemma jempty_obj m : jempty (jobj m) = bool_decide (m = ∅).
Proof. by rewrite jempty_spec, jview_jmk. Qed.

Lemma jcontains_obj m k : jcontains (jobj m) k = bool_decide (is_Some (m !! k)).
Proof. by rewrite jcontains_spec, jview_jmk. Qed.

Lemma jat_obj m k v : m !! k = Some v → jat (jobj m) k ⇓ v.
Proof. intros H. by rewrite jat_spec, jview_jmk, H. Qed.

Lemma jindex_obj m k v : m !! k = Some v → jindex (jobj m) k ⇓ v.
Proof. intros H. by rewrite jindex_spec, jview_jmk, H. Qed.

Lemma jindex_obj_none m k : m !! k = None → jindex (jobj m) k ⇓ jnull.
Proof. intros H. by rewrite jindex_spec, jview_jmk, H. Qed.

Lemma jindex_const_obj m k v : m !! k = Some v → jindex_const (jobj m) k ⇓ v.
Proof. intros H. by rewrite jindex_const_spec, jview_jmk, H. Qed.

Lemma jget_int_jint z : is_int z → jget_int (jint z) ⇓ z.
Proof.
  intros Hz. rewrite (jget_int_int _ z) by apply jview_jmk. by rewrite to_int_id.
Qed.

Lemma jget_longlong_jint z : is_int z → jget_longlong (jint z) ⇓ z.
Proof.
  intros Hz. apply jget_longlong_int; [apply jview_jmk|].
  revert Hz. unfold is_int, is_longlong, INT_MIN, INT_MAX. lia.
Qed.

Lemma jset_obj m k v : jset (jobj m) k v ⇓ jobj (<[k:=v]> m).
Proof. by rewrite jset_spec, jview_jmk. Qed.

Lemma jerase_obj m k : jerase (jobj m) k ⇓ jobj (delete k m).
Proof. by rewrite jerase_spec, jview_jmk. Qed.

Lemma jitems_jobj m : jitems (jobj m) = ordered_iter m.
Proof. apply jitems_obj, jview_jmk. Qed.

Lemma elem_of_jitems m k v : (k, v) ∈ jitems (jobj m) ↔ m !! k = Some v.
Proof. by rewrite jitems_jobj, elem_of_ordered_iter. Qed.

Lemma jitems_NoDup m : NoDup (jitems (jobj m)).*1.
Proof. rewrite jitems_jobj. apply ordered_iter_NoDup_fst. Qed.

Lemma jupdate_obj m k v f v' :
  m !! k = Some v → f v ⇓ v' → jupdate (jobj m) k f ⇓ jobj (<[k:=v']> m).
Proof.
  intros Hk Hf. unfold jupdate. rewrite (jindex_obj _ _ _ Hk), bind_ret, Hf, bind_ret.
  apply jset_obj.
Qed.

Lemma jpush_back_arr l v : jpush_back (jarr l) v ⇓ jarr (l ++ [v]).
Proof. by rewrite jpush_back_spec, jview_jmk. Qed.

Lemma jiter_keys_obj m : jiter_keys (jobj m) ⇓ ordered_iter m.
Proof. unfold jiter_keys. by rewrite jview_jmk, jitems_jobj. Qed.

Lemma jiter_keys_null : jiter_keys jnull ⇓ [].
Proof. unfold jiter_keys. rewrite jview_jmk. by rewrite jitems_null by apply jview_jmk. Qed.

Lemma jget_strings_arr l : jget_strings (jarr ((fun s => jstr s) <$> l)) ⇓ l.
Proof.
  unfold jget_strings. rewrite jview_jmk.
  induction l as [|s l IH]; [done|]. cbn in IH |- *.
  rewrite jget_string_str. cbn. by rewrite IH.
Qed.

End json_lemmas.

#[export] Hint Resolve jindex_const_obj jget_int_jint jget_longlong_jint jget_string_str jget_bool_bool jat_obj jindex_obj
  jindex_obj_none jset_obj jerase_obj jget_strings_arr : metacg.

(** ** A concrete implementation *)

Module JsonTree.

#[local] Unset Elimination Schemes.
Inductive tree :=
  | TNull
  | TBool (b : bool)
  | TInt (z : Z)
  | TStr (s : string)
  | TArr (l : list tree)
  | TObj (m : gmap string tree).
#[local] Set Elimination Schemes.

Definition view (t : tree) : json_view tree :=
  match t with
  | TNull => VNull | TBool b => VBool b | TInt z => VInt z
  | TStr s => VStr s | TArr l => VArr l | TObj m => VObj m
  end.

Definition mk (v : json_view tree) : tree :=
  match v with
  | VNull => TNull | VBool b => TBool b | VInt z => TInt z
  | VStr s => TStr s | VArr l => TArr l | VObj m => TObj m
  end.

(** An injective encoding of trees as binary strings stands for [dump]. *)
Fixpoint encode (t : tree) : positive :=
  match t with
  | TNull => countable.encode (0, 1%positive)
  | TBool b => countable.encode (1, countable.encode b)
  | TInt z => countable.encode (2, countable.encode z)
  | TStr s => countable.encode (3, countable.encode s)
  | TArr l => countable.encode (4, countable.encode (encode <$> l))
  | TObj m => countable.encode (5, countable.encode (map_to_list (encode <$> m)))
  end.

Fixpoint size_tree (t : tree) : nat :=
  match t with
  | TArr l => S (sum_list (size_tree <$> l))
  | TObj m => S (sum_list ((map_to_list (size_tree <$> m)).*2))
  | _ => 1
  end.

Lemma size_tree_arr l t : t ∈ l → size_tree t < size_tree (TArr l).
Proof.
  intros Ht. cbn. induction l as [|u l IH]; [by apply elem_of_nil in Ht|].
  cbn. apply elem_of_cons in Ht as [->|Ht]; [lia|]. specialize (IH Ht). lia.
Qed.

Lemma sum_list_elem (x : nat) l : x ∈ l → x ≤ sum_list l.
Proof. induction 1; simpl; lia. Qed.

Lemma size_tree_obj m k t : m !! k = Some t → size_tree t < size_tree (TObj m).
Proof.
  intros Ht. simpl. apply Nat.lt_succ_r, sum_list_elem.
  apply list_elem_of_fmap. exists (k, size_tree t). split; [done|].
  apply elem_of_map_to_list. by rewrite lookup_fmap, Ht.
Qed.

Lemma encode_inj t1 t2 : encode t1 = encode t2 → t1 = t2.
Proof.
  remember (size_tree t1) as n eqn:Hn. revert t1 t2 Hn.
  induction n as [n IH] using lt_wf_ind. intros t1 t2 -> Henc.
  destruct t1 as [| | | |l1|m1], t2 as [| | | |l2|m2]; simpl in Henc;
    apply (inj countable.encode) in Henc; try discriminate Henc; [done|..];
    injection Henc as Henc; apply (inj countable.encode) in Henc; [congruence..| |].
  - f_equal.
    assert (∀ t, t ∈ l1 → ∀ u, encode t = encode u → t = u) as Hl.
    { intros t Ht u. eapply IH; [|done]. by apply size_tree_arr. }
    clear IH. revert l2 Henc. induction l1 as [|t l1 IHl]; intros [|u l2] Henc;
      try done; simpl in Henc; injection Henc as Htu Hr.
    f_equal; [eapply Hl; [set_solver|done]|].
    apply IHl; [|done]. intros; eapply Hl; [set_solver|done].
  - apply (f_equal (list_to_map (M:=gmap string positive))) in Henc.
    rewrite !list_to_map_to_list in Henc. f_equal. apply map_eq. intros k.
    assert (encode <$> m1 !! k = encode <$> m2 !! k) as Hk
      by (rewrite <- !lookup_fmap; by rewrite Henc).
    destruct (m1 !! k) as [t|] eqn:Ht, (m2 !! k) as [u|]; simplify_eq/=; [|done].
    f_equal. eapply IH; [by eapply size_tree_obj|done|done].
Qed.

(** A printable form of the encoding. *)
Definition dump (t : tree) : string := pretty (encode t).

Definition tree_le (t1 t2 : tree) : Prop := (encode t1 ≤ encode t2)%positive.
#[export] Instance tree_le_dec t1 t2 : Decision (tree_le t1 t2).
Proof. unfold tree_le. apply _. Defined.

#[export] Instance ops : JsonOps := {|
  json := tree;
  jmk := mk;
  jview := view;
  jis_null t := match t with TNull => true | _ => false end;
  jis_object t := match t with TObj _ => true | _ => false end;
  jempty t :=
    match t with
    | TNull => true
    | TArr l => match l with [] => true | _ => false end
    | TObj m => bool_decide (map_to_list m = [])
    | _ => false
    end;
  jcontains t k := match t with TObj m => match m !! k with Some _ => true | None => false end | _ => false end;
  jat t k :=
    match t with
    | TObj m => match m !! k with Some v => Ret v | None => Throw json_out_of_range end
    | _ => Throw json_type_error
    end;
  jindex t k :=
    match t with
    | TObj m => Ret (default TNull (m !! k)) | TNull => Ret TNull | _ => Throw json_type_error
    end;
  jset t k v :=
    match t with
    | TObj m => Ret (TObj (<[k:=v]> m)) | TNull => Ret (TObj {[k:=v]}) | _ => Throw json_type_error
    end;
  jerase t k := match t with TObj m => Ret (TObj (delete k m)) | _ => Throw json_type_error end;
  jget_bool t := match t with TBool b => Ret b | _ => Throw json_type_error end;
  jindex_const t k :=
    match t with
    | TObj m => match m !! k with Some v => Ret v | None => UB end
    | _ => Throw json_type_error
    end;
  jget_int t := match t with TInt z => Ret (to_int z) | _ => Throw json_type_error end;
  jget_longlong t := match t with TInt z => Ret z | _ => Throw json_type_error end;
  jget_string t := match t with TStr s => Ret s | _ => Throw json_type_error end;
  jitems t := match t with TObj m => ordered_iter m | _ => [] end;
  jelems t := match t with TArr l => l | TObj m => (ordered_iter m).*2 | _ => [] end;
  jpush_back t v :=
    match t with
    | TArr l => Ret (TArr (l ++ [v])) | TNull => Ret (TArr [v]) | _ => Throw json_type_error
    end;
  jsort l := merge_sort tree_le l;
  jdump := dump
|}.

#[export] Instance laws : JsonLaws.
Proof.
  split; try (intros []; reflexivity); simpl;
    try (intros []; simpl; intros; simplify_eq; done).
  - intros [| | | |[]|m]; simpl; try done.
    apply bool_decide_ext. apply map_to_list_empty_iff.
  - intros [] k; simpl; try done. by destruct (_ !! _).
  - intros l. apply merge_sort_Permutation.
  - intros t1 t2 Hd. unfold dump in Hd.
    apply (inj pretty) in Hd. by apply encode_inj.
Qed.

End JsonTree.
