(* ===== verification/MetaData.v ===== *)
(** * Metadata: the interface

    [graph/include/metacg/MergePolicy.h] (the data exchanged during a merge),
    [graph/include/metacg/metadata/MetaData.h] (the virtual base class and its
    registry) and [graph/include/metacg/metadata/MetadataMixin.h] (the
    containers attached to nodes and graphs).

    The virtual class [MetaData] is the class [MetaDataI]; [MetaDataLaws] is
    what the rest of the library may assume of every implementation.  The
    built-in metadata types implement it in [BuiltinMD]. *)

From S2P Require Import Prelude Json.

(** [using NodeId = size_t]: an index into the node container of a graph. *)
Abbreviation NodeId := nat (only parsing).

(** ** Merge actions *)

Record MergeAction := mkMergeAction {
  targetNode : NodeId;
  replace : bool
}.

#[export] Instance MergeAction_eq_dec : EqDecision MergeAction.
Proof. solve_decision. Defined.

Abbreviation GraphMapping := (gmap NodeId NodeId).

Record MergeRecorder := mkMergeRecorder {
  actions : gmap NodeId MergeAction;
  mapping : GraphMapping
}.

Definition empty_recorder : MergeRecorder := mkMergeRecorder ∅ ∅.

Definition recordMerge (r : MergeRecorder) (sourceId : NodeId) (action : MergeAction) :=
  {| actions := <[sourceId:=action]> (actions r);
     mapping := <[sourceId:=targetNode action]> (mapping r) |}.

Definition recordCopy (r : MergeRecorder) (sourceId targetId : NodeId) :=
  {| actions := actions r;
     mapping := <[sourceId:=targetId]> (mapping r) |}.

Definition getAction (r : MergeRecorder) (sourceId : NodeId) : option MergeAction :=
  actions r !! sourceId.

Definition getMapping (r : MergeRecorder) : GraphMapping := mapping r.

(** ** String identifiers: [graph/include/metacg/io/IdMapping.h] *)

(** [NodeToStrMapping::getStrFromNode] and [StrToNodeMapping::getNodeFromStr]
    (null for an unknown identifier). *)
Definition NodeToStrMapping : Type := NodeId → outcome string.
Definition StrToNodeMapping : Type := string → option NodeId.

(** ** The virtual base class *)

Class MetaDataI {JO : JsonOps} := {
  MD : Type;
  md_getKey : MD → string;
  md_merge : MD → MD → option MergeAction → GraphMapping → outcome MD;
  md_clone : MD → MD;
  md_applyMapping : MD → GraphMapping → outcome MD;
  md_toJson : MD → NodeToStrMapping → outcome json;
  (** the constructor registered under a key, [None] when there is none *)
  md_registry : string → option (json → StrToNodeMapping → outcome MD);
  (** [static_cast<EntryFunctionMD*>(md)->getEntryFunctionId()] *)
  md_getEntryFunctionId : MD → option NodeId;
  (** [std::make_unique<OverrideMD>()] *)
  md_newOverrideMD : MD;
  (** [static_cast<FilePropertiesMD*>(md)->fromSystemInclude] *)
  md_fromSystemInclude : MD → outcome bool;
  (** the node IDs stored in the metadata *)
  md_refs : MD → gset NodeId
}.

(** The [key] constants the library itself looks up. *)
Definition EntryFunctionMD_key : string := "entryFunction".
Definition OverrideMD_key : string := "overrideMD".
Definition FilePropertiesMD_key : string := "fileProperties".
(** [MetaData::key], the constant of the abstract base class. *)
Definition MetaData_key : string := "BaseClass".

Class MetaDataLaws {JO : JsonOps} {MDI : MetaDataI} := {
  md_clone_eq m : md_clone m = m;
  md_merge_key a b act map c :
    md_merge a b act map ⇓ c → md_getKey c = md_getKey a;
  md_applyMapping_key m map m' :
    md_applyMapping m map ⇓ m' → md_getKey m' = md_getKey m;
  (** an applied mapping only needs to know the IDs that are stored *)
  md_applyMapping_total m map :
    md_refs m ⊆ dom map → ∃ m', md_applyMapping m map ⇓ m';
  md_applyMapping_refs m map m' :
    md_applyMapping m map ⇓ m' →
    ∀ i, i ∈ md_refs m' → ∃ j, j ∈ md_refs m ∧ map !! j = Some i;
  md_merge_refs a b act map c :
    md_merge a b act map ⇓ c →
    ∀ i, i ∈ md_refs c → i ∈ md_refs a ∨ ∃ j, j ∈ md_refs b ∧ map !! j = Some i;
  md_newOverrideMD_key : md_getKey md_newOverrideMD = OverrideMD_key;
  md_newOverrideMD_refs : md_refs md_newOverrideMD = ∅;
  md_registry_key k f j s m :
    md_registry k = Some f → f j s ⇓ m → md_getKey m = k;
  md_entry_refs m i : md_getEntryFunctionId m = Some i →
    md_getKey m = EntryFunctionMD_key → i ∈ md_refs m
}.

Section metadata.
Context {JO : JsonOps} {MDI : MetaDataI}.

(** ** [MetaDataFactory] *)

Definition MetaDataFactory_isRegistered (metadataKey : string) : bool :=
  match md_registry metadataKey with Some _ => true | None => false end.

(** Returns null for a key that is not registered. *)
Definition MetaDataFactory_create (s : string) (j : json) (strToNode : StrToNodeMapping)
    : outcome (option MD) :=
  match md_registry s with
  | None => Ret None
  | Some f => md ← f j strToNode; Ret (Some md)
  end.

(** ** [MetadataMixin] *)

Abbreviation NamedMetadata := (gmap string MD).

Definition md_has (metaFields : NamedMetadata) (metadataName : string) : bool :=
  bool_decide (is_Some (metaFields !! metadataName)).

Definition md_get (metaFields : NamedMetadata) (metadataName : string) : option MD :=
  metaFields !! metadataName.

(** Returns the new container and whether there was an entry. *)
Definition md_erase (metaFields : NamedMetadata) (mdKey : string) : NamedMetadata * bool :=
  (delete mdKey metaFields, md_has metaFields mdKey).

(** [addMetaData(std::unique_ptr<T>)]: stored under the constant [T::key]. *)
Definition addMetaData_typed (metaFields : NamedMetadata) (T_key : string) (md : MD) :=
  <[T_key := md]> metaFields.

(** [addMetaData(std::unique_ptr<MetaData>)]: stored under [md->getKey()]. *)
Definition addMetaData (metaFields : NamedMetadata) (md : MD) : NamedMetadata :=
  <[md_getKey md := md]> metaFields.

(** [getOrCreate<T>(args...)]: [fresh] is the object built from the arguments. *)
Definition md_getOrCreate (metaFields : NamedMetadata) (T_key : string) (fresh : MD)
    : NamedMetadata * MD :=
  match metaFields !! T_key with
  | Some md => (metaFields, md)
  | None => (<[T_key := fresh]> metaFields, fresh)
  end.

(** Every entry is filed under its own key. *)
Definition keyed (metaFields : NamedMetadata) : Prop :=
  map_Forall (λ k md, md_getKey md = k) metaFields.

Lemma keyed_empty : keyed ∅.
Proof. apply map_Forall_empty. Qed.

Lemma keyed_add m md : keyed m → keyed (addMetaData m md).
Proof. intros Hm. by apply map_Forall_insert_2. Qed.

Lemma keyed_delete m k : keyed m → keyed (delete k m).
Proof. intros Hm k' md [_ H]%lookup_delete_Some. by apply Hm. Qed.

Lemma keyed_insert m k md : keyed m → md_getKey md = k → keyed (<[k:=md]> m).
Proof. intros Hm Hk. by apply map_Forall_insert_2. Qed.

Lemma md_erase_spec m k :
  md_get (md_erase m k).1 k = None ∧
  (∀ k', k' ≠ k → md_get (md_erase m k).1 k' = md_get m k').
Proof.
  split; unfold md_get, md_erase; simpl; [apply lookup_delete_eq|].
  intros. by apply lookup_delete_ne.
Qed.

Lemma md_getOrCreate_has m k fresh :
  md_get (md_getOrCreate m k fresh).1 k = Some (md_getOrCreate m k fresh).2.
Proof.
  unfold md_getOrCreate, md_get. destruct (m !! k) eqn:E; simpl; [done|].
  apply lookup_insert_eq.
Qed.

Lemma create_unregistered k j s :
  MetaDataFactory_isRegistered k = false → MetaDataFactory_create k j s ⇓ None.
Proof.
  unfold MetaDataFactory_isRegistered, MetaDataFactory_create.
  by destruct (md_registry k).
Qed.

End metadata.

Abbreviation NamedMetadata := (gmap string MD).

#[export] Hint Resolve keyed_empty keyed_add keyed_delete keyed_insert : metacg.
