(* ===== verification/BuiltinMD.v ===== *)
(** * The built-in metadata types

    [graph/include/metacg/metadata/*MD.h]: for every class that
    [BuiltinMD.h] includes, its fields, its construction from JSON, [toJson],
    [merge] and [applyMapping].  The classes together implement the interface
    [MetaDataI]; [builtin_laws] discharges [MetaDataLaws] for them. *)

From S2P Require Import Prelude Json MetaData.

(** ** Fields of the classes *)

Record NumOperations := mkNumOperations {
  numberOfIntOps : Z;
  numberOfFloatOps : Z;
  numberOfControlFlowOps : Z;
  numberOfMemoryAccesses : Z
}.

Record InlineInfo := mkInlineInfo {
  markedInline : bool;
  likelyInline : bool;
  markedAlwaysInline : bool;
  isTemplateFunction : bool
}.

Record OverrideInfo := mkOverrideInfo {
  overrides : list NodeId;
  overriddenBy : list NodeId
}.

(** One constructor per class.  [fromSystemInclude] is an option because the
    constructor from a null JSON value leaves the field uninitialised. *)
Inductive BuiltinMD :=
  | CodeStatisticsMD (numVars : Z)
  | EntryFunctionMD (entryFunction : option NodeId)
  | FilePropertiesMD (fromSystemInclude : option bool)
  | InlineMD (info : InlineInfo)
  | LoopDepthMD (loopDepth : Z)
  | GlobalLoopDepthMD (globalLoopDepth : Z)
  | LoopCallDepthMD (loopFunctionMap : gmap string Z)
  | MallocVariableMD (allocs : gmap string string)
  | NumConditionalBranchMD (numConditionalBranches : Z)
  | NumOperationsMD (ops : NumOperations)
  | NumStatementsMD (numStmts : Z)
  | OverrideMD (info : OverrideInfo)
  | UniqueTypeMD (numTypes : Z).

#[export] Instance NumOperations_eq_dec : EqDecision NumOperations.
Proof. solve_decision. Defined.
#[export] Instance InlineInfo_eq_dec : EqDecision InlineInfo.
Proof. solve_decision. Defined.
#[export] Instance OverrideInfo_eq_dec : EqDecision OverrideInfo.
Proof. solve_decision. Defined.
#[export] Instance BuiltinMD_eq_dec : EqDecision BuiltinMD.
Proof. solve_decision. Defined.

Definition getKey (m : BuiltinMD) : string :=
  match m with
  | CodeStatisticsMD _ => "codeStatistics"
  | EntryFunctionMD _ => EntryFunctionMD_key
  | FilePropertiesMD _ => FilePropertiesMD_key
  | InlineMD _ => "inlineInfo"
  | LoopDepthMD _ => "loopDepth"
  | GlobalLoopDepthMD _ => "globalLoopDepth"
  | LoopCallDepthMD _ => "loopCallDepth"
  | MallocVariableMD _ => "mallocCollector"
  | NumConditionalBranchMD _ => "numConditionalBranches"
  | NumOperationsMD _ => "numOperations"
  | NumStatementsMD _ => "numStatements"
  | OverrideMD _ => OverrideMD_key
  | UniqueTypeMD _ => "uniqueTypeMetaData"
  end.

(** ** Merging *)

(** The rule shared by [CodeStatisticsMD], [NumConditionalBranchMD] and
    [UniqueTypeMD]: two different counts are added. *)
Definition CodeStatisticsMD_merge (numVars other : Z) : outcome Z :=
  if decide (numVars ≠ other) then int_add numVars other else Ret numVars.
Definition NumConditionalBranchMD_merge (numConditionalBranches other : Z) : outcome Z :=
  if decide (numConditionalBranches ≠ other) then int_add numConditionalBranches other
  else Ret numConditionalBranches.
Definition UniqueTypeMD_merge (numTypes other : Z) : outcome Z :=
  if decide (numTypes ≠ other) then int_add numTypes other else Ret numTypes.

(** Whether [CodeStatisticsMD::merge] prints its warning: the test reads the
    count after the addition. *)
Definition CodeStatisticsMD_merge_warns (numVars other : Z) : bool :=
  if decide (numVars ≠ other)
  then bool_decide (numVars + other ≠ 0)%Z && bool_decide (other ≠ 0%Z)
  else false.

(** [NumStatementsMD::merge] tests the count before it changes it. *)
Definition NumStatementsMD_merge_warns (numStmts other : Z) : bool :=
  bool_decide (numStmts ≠ 0%Z) && bool_decide (other ≠ 0%Z) && bool_decide (numStmts ≠ other).
Definition NumStatementsMD_merge (numStmts other : Z) : Z := Z.max numStmts other.

Definition FilePropertiesMD_merge (this other : option bool) (action : option MergeAction)
    : outcome (option bool) :=
  match action with
  | Some act => if replace act then b ← deref other; Ret (Some b) else Ret this
  | None => Ret this
  end.

Definition InlineMD_merge (this other : InlineInfo) : InlineInfo := {|
  markedInline := markedInline this || markedInline other;
  likelyInline := likelyInline this || likelyInline other;
  markedAlwaysInline := markedAlwaysInline this || markedAlwaysInline other;
  isTemplateFunction := isTemplateFunction this
|}.

Definition NumOperationsMD_merge (this other : NumOperations) : outcome NumOperations :=
  if decide (this ≠ other) then
    i ← int_add (numberOfIntOps this) (numberOfIntOps other);
    f ← int_add (numberOfFloatOps this) (numberOfFloatOps other);
    c ← int_add (numberOfControlFlowOps this) (numberOfControlFlowOps other);
    a ← int_add (numberOfMemoryAccesses this) (numberOfMemoryAccesses other);
    Ret (mkNumOperations i f c a)
  else Ret this.

(** First the depths of the functions known here, then the missing ones, by
    increasing name. *)
Definition LoopCallDepthMD_merge (this other : gmap string Z) : gmap string Z :=
  let updated := map_imap (λ calledFunction callDepths,
    match other !! calledFunction with
    | Some otherv => Some (if decide (otherv > callDepths)%Z then otherv else callDepths)
    | None => Some callDepths
    end) this in
  foldl (λ m '(calledFunction, callDepths),
    match m !! calledFunction with
    | Some _ => m
    | None => <[calledFunction := callDepths]> m
    end) updated (ordered_iter other).

Definition EntryFunctionMD_merge (this other : option NodeId) (action : option MergeAction)
    (mapping : GraphMapping) : outcome (option NodeId) :=
  match action with
  | Some _ => Ret this
  | None =>
      match other with
      | Some o =>
          match this with
          | None => i ← at_or_throw (mapping !! o); Ret (Some i)
          | Some _ => Ret this
          end
      | None => Ret this
      end
  end.

Fixpoint mergeVectors (dst src : list NodeId) (mapping : GraphMapping)
    : outcome (list NodeId) :=
  match src with
  | [] => Ret dst
  | entry :: src =>
      _ ← cpp_assert (bool_decide (is_Some (mapping !! entry)));
      mappedId ← at_or_throw (mapping !! entry);
      mergeVectors (if decide (mappedId ∈ dst) then dst else dst ++ [mappedId]) src mapping
  end.

Definition OverrideMD_merge (this other : OverrideInfo) (mapping : GraphMapping)
    : outcome OverrideInfo :=
  by' ← mergeVectors (overriddenBy this) (overriddenBy other) mapping;
  o' ← mergeVectors (overrides this) (overrides other) mapping;
  Ret (mkOverrideInfo o' by').

Definition LoopDepthMD_merge (loopDepth other : Z) : Z := Z.max other loopDepth.

Definition GlobalLoopDepthMD_merge (globalLoopDepth other : Z) : Z := Z.max globalLoopDepth other.

(** Not implemented in the source: this side is kept. *)
Definition MallocVariableMD_merge (this other : gmap string string) : gmap string string := this.

Definition merge (this toMerge : BuiltinMD) (action : option MergeAction)
    (mapping : GraphMapping) : outcome BuiltinMD :=
  match this, toMerge with
  | CodeStatisticsMD a, CodeStatisticsMD b => r ← CodeStatisticsMD_merge a b; Ret (CodeStatisticsMD r)
  | EntryFunctionMD a, EntryFunctionMD b =>
      r ← EntryFunctionMD_merge a b action mapping; Ret (EntryFunctionMD r)
  | FilePropertiesMD a, FilePropertiesMD b =>
      r ← FilePropertiesMD_merge a b action; Ret (FilePropertiesMD r)
  | InlineMD a, InlineMD b => Ret (InlineMD (InlineMD_merge a b))
  | LoopDepthMD a, LoopDepthMD b => Ret (LoopDepthMD (LoopDepthMD_merge a b))
  | GlobalLoopDepthMD a, GlobalLoopDepthMD b => Ret (GlobalLoopDepthMD (GlobalLoopDepthMD_merge a b))
  | LoopCallDepthMD a, LoopCallDepthMD b => Ret (LoopCallDepthMD (LoopCallDepthMD_merge a b))
  | MallocVariableMD a, MallocVariableMD b => Ret (MallocVariableMD (MallocVariableMD_merge a b))
  | NumConditionalBranchMD a, NumConditionalBranchMD b =>
      r ← NumConditionalBranchMD_merge a b; Ret (NumConditionalBranchMD r)
  | NumOperationsMD a, NumOperationsMD b => r ← NumOperationsMD_merge a b; Ret (NumOperationsMD r)
  | NumStatementsMD a, NumStatementsMD b => Ret (NumStatementsMD (NumStatementsMD_merge a b))
  | OverrideMD a, OverrideMD b => r ← OverrideMD_merge a b mapping; Ret (OverrideMD r)
  | UniqueTypeMD a, UniqueTypeMD b => r ← UniqueTypeMD_merge a b; Ret (UniqueTypeMD r)
  (* assert(toMerge.getKey() == getKey()) *)
  | _, _ => AssertFail
  end.

(** ** Re-mapping of node IDs *)

Definition applyMapping_ids (ids : list NodeId) (mapping : GraphMapping) : outcome (list NodeId) :=
  foldr (λ i acc,
    _ ← cpp_assert (bool_decide (is_Some (mapping !! i)));
    i' ← at_or_throw (mapping !! i);
    l ← acc; Ret (i' :: l)) (Ret []) ids.

Definition OverrideMD_applyMapping (m : OverrideInfo) (mapping : GraphMapping)
    : outcome OverrideInfo :=
  o ← applyMapping_ids (overrides m) mapping;
  b ← applyMapping_ids (overriddenBy m) mapping;
  Ret (mkOverrideInfo o b).

Definition EntryFunctionMD_applyMapping (e : option NodeId) (mapping : GraphMapping)
    : outcome (option NodeId) :=
  match e with
  | Some i => i' ← at_or_throw (mapping !! i); Ret (Some i')
  | None => Ret None
  end.

Definition applyMapping (m : BuiltinMD) (mapping : GraphMapping) : outcome BuiltinMD :=
  match m with
  | EntryFunctionMD e => e' ← EntryFunctionMD_applyMapping e mapping; Ret (EntryFunctionMD e')
  | OverrideMD info => i ← OverrideMD_applyMapping info mapping; Ret (OverrideMD i)
  | _ => Ret m
  end.

Definition getEntryFunctionId (m : BuiltinMD) : option NodeId :=
  match m with EntryFunctionMD e => e | _ => None end.

Definition getFromSystemInclude (m : BuiltinMD) : outcome bool :=
  match m with FilePropertiesMD b => deref b | _ => UB end.

(** The node IDs a metadata object stores. *)
Definition refs (m : BuiltinMD) : gset NodeId :=
  match m with
  | EntryFunctionMD (Some i) => {[i]}
  | OverrideMD info => list_to_set (overrides info ++ overriddenBy info)
  | _ => ∅
  end.

(** ** JSON *)

Section builtin_json.
Context {JO : JsonOps}.

Definition CodeStatisticsMD_toJson (numVars : Z) : json :=
  jfields [("numVars", jint numVars)].

Definition CodeStatisticsMD_fromJson (j : json) : outcome Z :=
  if jis_null j then Ret 0%Z
  else v ← jindex_const j "numVars"; jget_int v.

(** The entry function is written as a node identifier, or as an empty string. *)
Definition EntryFunctionMD_toJson (e : option NodeId) (nodeToStr : NodeToStrMapping)
    : outcome json :=
  match e with
  | Some i => s ← nodeToStr i; Ret (jstr s)
  | None => Ret (jstr "")
  end.

Definition EntryFunctionMD_fromJson (j : json) (strToNode : StrToNodeMapping)
    : outcome (option NodeId) :=
  nodeStr ← jget_string j;
  Ret (strToNode nodeStr).

Definition FilePropertiesMD_toJson (b : option bool) : outcome json :=
  b ← deref b; Ret (jfields [("systemInclude", jbool b)]).

Definition FilePropertiesMD_fromJson (j : json) : outcome (option bool) :=
  if jis_null j then Ret None
  else v ← jindex_const j "systemInclude"; b ← jget_bool v; Ret (Some b).

Definition InlineMD_toJson (i : InlineInfo) : json :=
  jfields [("markedInline", jbool (markedInline i));
           ("likelyInline", jbool (likelyInline i));
           ("isTemplate", jbool (isTemplateFunction i));
           ("markedAlwaysInline", jbool (markedAlwaysInline i))].

Definition InlineMD_fromJson (j : json) : outcome InlineInfo :=
  if jis_null j then Ret (mkInlineInfo false false false false)
  else
    m ← jindex_const j "markedInline"; m ← jget_bool m;
    l ← jindex_const j "likelyInline"; l ← jget_bool l;
    a ← jindex_const j "markedAlwaysInline"; a ← jget_bool a;
    t ← jindex_const j "isTemplate"; t ← jget_bool t;
    Ret (mkInlineInfo m l a t).

(** [LoopDepthMD], [GlobalLoopDepthMD] and [NumConditionalBranchMD] share the
    shape: a plain number, absent in a null value. *)
Definition LoopDepthMD_fromJson (j : json) : outcome Z :=
  if jis_null j then Ret 0%Z else jget_int j.
Definition GlobalLoopDepthMD_fromJson (j : json) : outcome Z :=
  if jis_null j then Ret 0%Z else jget_int j.
Definition NumConditionalBranchMD_fromJson (j : json) : outcome Z :=
  if jis_null j then Ret 0%Z else jget_int j.

(** [j.get<std::map<std::string, int>>()] *)
Definition LoopCallDepthMD_fromJson (j : json) : outcome (gmap string Z) :=
  if jis_null j then Ret ∅
  else if jis_object j then
    foldM (λ m '(k, v), n ← jget_int v; Ret (<[k:=n]> m)) ∅ (jitems j)
  else Throw json_type_error.

Definition LoopCallDepthMD_toJson (m : gmap string Z) : json :=
  jobj ((λ n, jint n) <$> m).

Definition MallocVariableMD_toJson (allocs : gmap string string) : json :=
  jarr ((λ '(k, v), jfields [("global", jstr k); ("allocStmt", jstr v)]) <$> ordered_iter allocs).

Definition MallocVariableMD_fromJson (j : json) : outcome (gmap string string) :=
  foldM (λ m elem,
    g ← jat elem "global"; k ← jget_string g;
    a ← jat elem "allocStmt"; v ← jget_string a;
    Ret (<[k:=v]> m)) ∅ (jelems j).

Definition NumOperationsMD_toJson (o : NumOperations) : json :=
  jfields [("numberOfIntOps", jint (numberOfIntOps o));
           ("numberOfFloatOps", jint (numberOfFloatOps o));
           ("numberOfControlFlowOps", jint (numberOfControlFlowOps o));
           ("numberOfMemoryAccesses", jint (numberOfMemoryAccesses o))].

Definition NumOperationsMD_fromJson (j : json) : outcome NumOperations :=
  if jis_null j then Ret (mkNumOperations 0 0 0 0)
  else
    i ← jindex_const j "numberOfIntOps"; i ← jget_int i;
    f ← jindex_const j "numberOfFloatOps"; f ← jget_int f;
    c ← jindex_const j "numberOfControlFlowOps"; c ← jget_int c;
    a ← jindex_const j "numberOfMemoryAccesses"; a ← jget_int a;
    Ret (mkNumOperations i f c a).

(** [setNumberOfStatements] narrows the 64-bit number that was read. *)
Definition NumStatementsMD_fromJson (j : json) : outcome Z :=
  if jis_null j then Ret 0%Z
  else jsonNumStmts ← jget_longlong j; Ret (to_int jsonNumStmts).

Definition ids_toJson (ids : list NodeId) (nodeToStr : NodeToStrMapping) : outcome json :=
  l ← foldr (λ i acc, s ← nodeToStr i; l ← acc; Ret (jstr s :: l)) (Ret []) ids;
  Ret (jarr l).

Definition OverrideMD_toJson (m : OverrideInfo) (nodeToStr : NodeToStrMapping) : outcome json :=
  jOverrides ← ids_toJson (overrides m) nodeToStr;
  jOverriddenBy ← ids_toJson (overriddenBy m) nodeToStr;
  Ret (jfields [("overrides", jOverrides); ("overriddenBy", jOverriddenBy)]).

Definition ids_fromStrs (strs : list string) (strToNode : StrToNodeMapping)
    : outcome (list NodeId) :=
  foldr (λ s acc,
    n ← (match strToNode s with Some n => Ret n | None => AssertFail end);
    l ← acc; Ret (n :: l)) (Ret []) strs.

Definition OverrideMD_fromJson (j : json) (strToNode : StrToNodeMapping)
    : outcome OverrideInfo :=
  jo ← jat j "overrides"; overrideStrs ← jget_strings jo;
  o ← ids_fromStrs overrideStrs strToNode;
  jb ← jat j "overriddenBy"; overriddenByStrs ← jget_strings jb;
  b ← ids_fromStrs overriddenByStrs strToNode;
  Ret (mkOverrideInfo o b).

(** A null value is reported and then converted all the same. *)
Definition UniqueTypeMD_fromJson (j : json) : outcome Z := jget_int j.

(** The classes that hold one number write it as it is. *)
Definition LoopDepthMD_toJson (loopDepth : Z) : json := jint loopDepth.
Definition GlobalLoopDepthMD_toJson (globalLoopDepth : Z) : json := jint globalLoopDepth.
Definition NumConditionalBranchMD_toJson (numConditionalBranches : Z) : json :=
  jint numConditionalBranches.
Definition NumStatementsMD_toJson (numStmts : Z) : json := jint numStmts.
Definition UniqueTypeMD_toJson (numTypes : Z) : json := jint numTypes.

Definition toJson (m : BuiltinMD) (nodeToStr : NodeToStrMapping) : outcome json :=
  match m with
  | CodeStatisticsMD n => Ret (CodeStatisticsMD_toJson n)
  | EntryFunctionMD e => EntryFunctionMD_toJson e nodeToStr
  | FilePropertiesMD b => FilePropertiesMD_toJson b
  | InlineMD i => Ret (InlineMD_toJson i)
  | LoopDepthMD n => Ret (LoopDepthMD_toJson n)
  | GlobalLoopDepthMD n => Ret (GlobalLoopDepthMD_toJson n)
  | NumConditionalBranchMD n => Ret (NumConditionalBranchMD_toJson n)
  | NumStatementsMD n => Ret (NumStatementsMD_toJson n)
  | UniqueTypeMD n => Ret (UniqueTypeMD_toJson n)
  | LoopCallDepthMD l => Ret (LoopCallDepthMD_toJson l)
  | MallocVariableMD a => Ret (MallocVariableMD_toJson a)
  | NumOperationsMD o => Ret (NumOperationsMD_toJson o)
  | OverrideMD i => OverrideMD_toJson i nodeToStr
  end.

(** The registry that [Registrar<T>::registerT] fills, one entry per class. *)
Definition registry : list (string * (json → StrToNodeMapping → outcome BuiltinMD)) := [
  ("codeStatistics", λ j _, n ← CodeStatisticsMD_fromJson j; Ret (CodeStatisticsMD n));
  ("entryFunction", λ j s, e ← EntryFunctionMD_fromJson j s; Ret (EntryFunctionMD e));
  ("fileProperties", λ j _, b ← FilePropertiesMD_fromJson j; Ret (FilePropertiesMD b));
  ("inlineInfo", λ j _, i ← InlineMD_fromJson j; Ret (InlineMD i));
  ("loopDepth", λ j _, n ← LoopDepthMD_fromJson j; Ret (LoopDepthMD n));
  ("globalLoopDepth", λ j _, n ← GlobalLoopDepthMD_fromJson j; Ret (GlobalLoopDepthMD n));
  ("loopCallDepth", λ j _, m ← LoopCallDepthMD_fromJson j; Ret (LoopCallDepthMD m));
  ("mallocCollector", λ j _, m ← MallocVariableMD_fromJson j; Ret (MallocVariableMD m));
  ("numConditionalBranches",
     λ j _, n ← NumConditionalBranchMD_fromJson j; Ret (NumConditionalBranchMD n));
  ("numOperations", λ j _, o ← NumOperationsMD_fromJson j; Ret (NumOperationsMD o));
  ("numStatements", λ j _, n ← NumStatementsMD_fromJson j; Ret (NumStatementsMD n));
  ("overrideMD", λ j s, i ← OverrideMD_fromJson j s; Ret (OverrideMD i));
  ("uniqueTypeMetaData", λ j _, n ← UniqueTypeMD_fromJson j; Ret (UniqueTypeMD n))
].

Definition registry_lookup (key : string)
    : option (json → StrToNodeMapping → outcome BuiltinMD) :=
  snd <$> List.find (λ kf, bool_decide (kf.1 = key)) registry.

#[export] Instance builtin_md : MetaDataI := {|
  MD := BuiltinMD;
  md_getKey := getKey;
  md_merge := merge;
  md_clone m := m;
  md_applyMapping := applyMapping;
  md_toJson := toJson;
  md_registry := registry_lookup;
  md_getEntryFunctionId := getEntryFunctionId;
  md_newOverrideMD := OverrideMD (mkOverrideInfo [] []);
  md_fromSystemInclude := getFromSystemInclude;
  md_refs := refs
|}.

End builtin_json.

(** ** The interface laws *)

Lemma mergeVectors_elem dst src mapping dst' :
  mergeVectors dst src mapping ⇓ dst' →
  ∀ i, i ∈ dst' ↔ i ∈ dst ∨ ∃ j, j ∈ src ∧ mapping !! j = Some i.
Proof.
  revert dst. induction src as [|e src IH]; intros dst Hm i; simpl in Hm.
  - injection Hm as <-. set_solver.
  - destruct (mapping !! e) as [e'|] eqn:He; simpl in Hm; [|done].
    rewrite (IH _ Hm). case_decide; set_solver.
Qed.

Lemma mergeVectors_total dst src mapping :
  (∀ j, j ∈ src → is_Some (mapping !! j)) → ∃ dst', mergeVectors dst src mapping ⇓ dst'.
Proof.
  revert dst. induction src as [|e src IH]; intros dst Hs; simpl; [by eauto|].
  destruct (Hs e) as [e' He']; [set_solver|]. rewrite He'. simpl.
  apply IH. set_solver.
Qed.

Lemma applyMapping_ids_spec ids mapping ids' :
  applyMapping_ids ids mapping ⇓ ids' →
  ∀ i, i ∈ ids' ↔ ∃ j, j ∈ ids ∧ mapping !! j = Some i.
Proof.
  revert ids'. induction ids as [|e ids IH]; intros ids' Hm i; simpl in Hm.
  - injection Hm as <-. set_solver.
  - destruct (mapping !! e) as [e'|] eqn:He; simpl in Hm; [|done].
    fold (applyMapping_ids ids mapping) in Hm. invert_outcome.
    specialize (IH _ Hr). set_solver.
Qed.

Lemma applyMapping_ids_total ids mapping :
  (∀ j, j ∈ ids → is_Some (mapping !! j)) → ∃ ids', applyMapping_ids ids mapping ⇓ ids'.
Proof.
  induction ids as [|e ids IH]; intros Hs; simpl; [by eauto|].
  destruct (Hs e) as [e' ->]; [set_solver|]. simpl.
  destruct IH as [ids' Hids]; [set_solver|].
  fold (applyMapping_ids ids mapping). rewrite Hids. simpl. eauto.
Qed.

Lemma merge_getKey a b act mapping c : merge a b act mapping ⇓ c → getKey c = getKey a.
Proof. destruct a, b; simpl; intros Hm; try done; invert_outcome; done. Qed.

Lemma merge_refs a b act mapping c : merge a b act mapping ⇓ c →
  ∀ i, i ∈ refs c → i ∈ refs a ∨ ∃ j, j ∈ refs b ∧ mapping !! j = Some i.
Proof.
  destruct a as [|e1| | | | | | | | | |[o1 b1]|], b as [|e2| | | | | | | | | |[o2 b2]|];
    simpl; intros Hm; try done; invert_outcome; intros i; try set_solver.
  - unfold EntryFunctionMD_merge in *.
    destruct act, e1, e2 as [j|]; simplify_eq; try set_solver.
    destruct (mapping !! j) eqn:Hj; simpl in *; simplify_eq; set_solver.
  - unfold OverrideMD_merge in *. simpl in *. invert_outcome. simpl.
    repeat match goal with H : mergeVectors _ _ _ ⇓ _ |- _ =>
      pose proof (mergeVectors_elem _ _ _ _ H i); clear H end.
    set_solver.
Qed.

Lemma registry_lookup_key {JO : JsonOps} k f j s m :
  registry_lookup k = Some f → f j s ⇓ m → getKey m = k.
Proof.
  unfold registry_lookup. intros ([k' f'] & Hf & ->)%fmap_Some.
  apply List.find_some in Hf as [Hin Hk]. apply bool_decide_eq_true in Hk.
  simpl in Hk. subst k'. unfold registry in Hin. simpl in Hin.
  intros Hm.
  repeat (destruct Hin as [[= <- <-]|Hin]; [simpl in Hm; invert_outcome; done|]).
  done.
Qed.

#[export] Instance builtin_laws {JO : JsonOps} : MetaDataLaws.
Proof.
  split; simpl; try done.
  - apply merge_getKey.
  - intros [] map m'; simpl; intros Hm; invert_outcome; done.
  - intros [|[i|]| | | | | | | | | |[o b]|] map Hd; simpl in *; eauto.
    + assert (i ∈ dom map) as [i' Hi']%elem_of_dom by set_solver.
      rewrite Hi'. simpl. eauto.
    + unfold OverrideMD_applyMapping. simpl.
      destruct (applyMapping_ids_total o map) as [o' ->].
      { intros j Hj. apply elem_of_dom. set_solver. }
      destruct (applyMapping_ids_total b map) as [b' ->].
      { intros j Hj. apply elem_of_dom. set_solver. }
      simpl. eauto.
  - intros [|[i|]| | | | | | | | | |[o b]|] map m'; simpl; intros Hm; invert_outcome;
      simpl; try set_solver.
    + destruct (map !! i) eqn:Hi; simpl in *; invert_outcome. set_solver.
    + unfold OverrideMD_applyMapping in *. invert_outcome. simpl in *. intros j.
      repeat match goal with H : applyMapping_ids _ _ ⇓ _ |- _ =>
        pose proof (applyMapping_ids_spec _ _ _ H j); clear H end.
      set_solver.
  - apply merge_refs.
  - intros k f j s m. apply registry_lookup_key.
  - intros [] i; simpl; try done. intros -> _. set_solver.
Qed.

(** ** Merging: functional behaviour *)

Lemma foldl_insert_missing (l : list (string * Z)) (m : gmap string Z) k :
  NoDup l.*1 →
  foldl (λ m '(calledFunction, callDepths),
    match m !! calledFunction with
    | Some _ => m
    | None => <[calledFunction := callDepths]> m
    end) m l !! k =
  match m !! k with Some v => Some v | None => list_to_map (M:=gmap string Z) l !! k end.
Proof.
  revert m. induction l as [|[k' v'] l IH]; intros m Hnd; simpl.
  - by destruct (m !! k).
  - apply NoDup_cons in Hnd as [Hk' Hnd]. simpl in Hk'. rewrite IH by done.
    destruct (m !! k') as [w|] eqn:Hm.
    + destruct (m !! k) eqn:Hk; [done|].
      rewrite lookup_insert_ne; [done|congruence].
    + destruct (decide (k = k')) as [->|Hne].
      * by rewrite Hm, !lookup_insert_eq.
      * by rewrite !lookup_insert_ne by done.
Qed.

Lemma LoopCallDepthMD_merge_max (this other : gmap string Z) :
  LoopCallDepthMD_merge this other = union_with (λ a b, Some (Z.max a b)) this other.
Proof.
  apply map_eq. intros k. unfold LoopCallDepthMD_merge.
  rewrite foldl_insert_missing by apply ordered_iter_NoDup_fst.
  rewrite ordered_iter_to_map, lookup_union_with, map_lookup_imap.
  destruct (this !! k), (other !! k); simpl; [|done..].
  f_equal. case_decide; lia.
Qed.

(** Merging two [loopCallDepth] tables takes, for every called function,
    the larger of the depths on the two sides, and keeps the functions that
    only one side knows. *)
Theorem LoopCallDepthMD_merge_union (this other : gmap string Z) :
  LoopCallDepthMD_merge this other = union_with (λ a b, Some (Z.max a b)) this other.
Proof. apply LoopCallDepthMD_merge_max. Qed.

(** Values the classes actually hold: initialised, and within [int]. *)
Definition valid (m : BuiltinMD) : Prop :=
  match m with
  | CodeStatisticsMD n | LoopDepthMD n | GlobalLoopDepthMD n | NumConditionalBranchMD n
  | NumStatementsMD n | UniqueTypeMD n => is_int n
  | FilePropertiesMD b => is_Some b
  | LoopCallDepthMD l => map_Forall (λ _, is_int) l
  | NumOperationsMD o =>
      is_int (numberOfIntOps o) ∧ is_int (numberOfFloatOps o) ∧
      is_int (numberOfControlFlowOps o) ∧ is_int (numberOfMemoryAccesses o)
  | _ => True
  end.

Lemma valid_counter_merge n m r :
  is_int n → (if decide (n ≠ m) then int_add n m else Ret n) ⇓ r → is_int r.
Proof. intros Hn. case_decide; [apply int_add_is_int|congruence]. Qed.

Lemma int_max_is_int a b : is_int a → is_int b → is_int (Z.max a b).
Proof. unfold is_int. lia. Qed.

Lemma merge_keeps_valid a b act mapping c :
  valid a → valid b → merge a b act mapping ⇓ c → valid c.
Proof.
  destruct a, b; simpl; intros Ha Hb Hm; try done; invert_outcome; simpl; try done;
    eauto using valid_counter_merge, int_max_is_int.
  - unfold FilePropertiesMD_merge in *. destruct act as [[? []]|]; simpl in *; simplify_eq; try done.
    invert_outcome. done.
  - rewrite LoopCallDepthMD_merge_max. intros k v.
    rewrite lookup_union_with. specialize (Ha k). specialize (Hb k).
    destruct (_ !! k), (_ !! k); intros [= <-]; eauto using int_max_is_int.
  - unfold NumOperationsMD_merge in *. case_decide; invert_outcome; [simpl|done].
    split_and!; eauto using int_add_is_int.
Qed.

(** ** Merging: specification

    What a merge returns, and when it is undefined, class by class and in
    terms of the fields alone. *)

(** The rule of the counters: equal counts are kept, different ones added. *)
Definition counted (n m r : Z) : Prop := (n = m ∧ r = n) ∨ (n ≠ m ∧ r = n + m)%Z.

(** The list [r] is [l] with the nodes for [src] that it does not have yet,
    each of them once. *)
Definition appended (mapping : GraphMapping) (l src r : list NodeId) : Prop :=
  ∃ new, r = l ++ new ∧ NoDup new ∧
    ∀ i, i ∈ new ↔ i ∉ l ∧ ∃ j, j ∈ src ∧ mapping !! j = Some i.

Definition deeper (n m : option Z) : option Z :=
  match n, m with
  | Some n, Some m => Some (Z.max n m)
  | Some n, None => Some n
  | None, m => m
  end.

Definition merge_spec (action : option MergeAction) (mapping : GraphMapping)
    (a b c : BuiltinMD) : Prop :=
  match a, b, c with
  | CodeStatisticsMD n, CodeStatisticsMD m, CodeStatisticsMD r
  | NumConditionalBranchMD n, NumConditionalBranchMD m, NumConditionalBranchMD r
  | UniqueTypeMD n, UniqueTypeMD m, UniqueTypeMD r => counted n m r
  | LoopDepthMD n, LoopDepthMD m, LoopDepthMD r
  | GlobalLoopDepthMD n, GlobalLoopDepthMD m, GlobalLoopDepthMD r
  | NumStatementsMD n, NumStatementsMD m, NumStatementsMD r => r = Z.max n m
  | NumOperationsMD n, NumOperationsMD m, NumOperationsMD r =>
      (n = m ∧ r = n) ∨
      (n ≠ m ∧ numberOfIntOps r = numberOfIntOps n + numberOfIntOps m ∧
        numberOfFloatOps r = numberOfFloatOps n + numberOfFloatOps m ∧
        numberOfControlFlowOps r = numberOfControlFlowOps n + numberOfControlFlowOps m ∧
        numberOfMemoryAccesses r = numberOfMemoryAccesses n + numberOfMemoryAccesses m)%Z
  | InlineMD n, InlineMD m, InlineMD r =>
      (markedInline r = true ↔ markedInline n = true ∨ markedInline m = true) ∧
      (likelyInline r = true ↔ likelyInline n = true ∨ likelyInline m = true) ∧
      (markedAlwaysInline r = true ↔ markedAlwaysInline n = true ∨ markedAlwaysInline m = true) ∧
      isTemplateFunction r = isTemplateFunction n
  | LoopCallDepthMD n, LoopCallDepthMD m, LoopCallDepthMD r => ∀ f, r !! f = deeper (n !! f) (m !! f)
  | MallocVariableMD n, MallocVariableMD _, MallocVariableMD r => r = n
  | FilePropertiesMD n, FilePropertiesMD m, FilePropertiesMD r =>
      ((∃ act, action = Some act ∧ replace act = true) ∧ r = m) ∨
      ((∀ act, action = Some act → replace act = false) ∧ r = n)
  | EntryFunctionMD n, EntryFunctionMD m, EntryFunctionMD r =>
      (action = None ∧ n = None ∧ ∃ j i, m = Some j ∧ mapping !! j = Some i ∧ r = Some i) ∨
      ((action ≠ None ∨ n ≠ None ∨ m = None) ∧ r = n)
  | OverrideMD n, OverrideMD m, OverrideMD r =>
      appended mapping (overrides n) (overrides m) (overrides r) ∧
      appended mapping (overriddenBy n) (overriddenBy m) (overriddenBy r)
  | _, _, _ => False
  end.

(** Two counters that differ and whose sum does not fit an [int]. *)
Definition overflows (a b : BuiltinMD) : Prop :=
  match a, b with
  | CodeStatisticsMD n, CodeStatisticsMD m
  | NumConditionalBranchMD n, NumConditionalBranchMD m
  | UniqueTypeMD n, UniqueTypeMD m => n ≠ m ∧ ¬ is_int (n + m)
  | NumOperationsMD n, NumOperationsMD m =>
      n ≠ m ∧
      (¬ is_int (numberOfIntOps n + numberOfIntOps m) ∨
       ¬ is_int (numberOfFloatOps n + numberOfFloatOps m) ∨
       ¬ is_int (numberOfControlFlowOps n + numberOfControlFlowOps m) ∨
       ¬ is_int (numberOfMemoryAccesses n + numberOfMemoryAccesses m))
  | _, _ => False
  end.

Lemma counter_merge_cases n m :
  (n ≠ m ∧ ¬ is_int (n + m) ∧ (if decide (n ≠ m) then int_add n m else Ret n) = UB) ∨
  (¬ (n ≠ m ∧ ¬ is_int (n + m)) ∧
    ∃ r, (if decide (n ≠ m) then int_add n m else Ret n) ⇓ r ∧ counted n m r).
Proof.
  unfold int_add, counted. destruct (decide (n = m)) as [->|Hne].
  - right. split; [naive_solver|]. exists m. rewrite decide_False by naive_solver. eauto.
  - rewrite decide_True by done. case_decide; [right|left; done].
    split; [naive_solver|]. eexists. split; [done|]. by right.
Qed.

Lemma NumOperationsMD_merge_cases n m :
  (overflows (NumOperationsMD n) (NumOperationsMD m) ∧ NumOperationsMD_merge n m = UB) ∨
  (¬ overflows (NumOperationsMD n) (NumOperationsMD m) ∧
    ∃ r, NumOperationsMD_merge n m ⇓ r ∧
      merge_spec None ∅ (NumOperationsMD n) (NumOperationsMD m) (NumOperationsMD r)).
Proof.
  unfold NumOperationsMD_merge, int_add. cbn [overflows merge_spec].
  destruct (decide (n = m)) as [->|Hne].
  - right. split; [naive_solver|]. exists m. rewrite decide_False by naive_solver. eauto.
  - rewrite decide_True by done.
    repeat case_decide; cbn; try (left; split; [naive_solver|done]).
    right. split; [naive_solver|]. eexists. split; [done|]. by right.
Qed.

Lemma mergeVectors_appended dst src mapping :
  (∀ j, j ∈ src → is_Some (mapping !! j)) →
  ∃ r, mergeVectors dst src mapping ⇓ r ∧ appended mapping dst src r.
Proof.
  revert dst. induction src as [|e src IH]; intros dst Hs; cbn.
  - exists dst. split; [done|]. exists []. rewrite app_nil_r. split_and!; [done|constructor|set_solver].
  - destruct (Hs e) as [e' He]; [set_solver|]. rewrite He. cbn.
    destruct (IH (if decide (e' ∈ dst) then dst else dst ++ [e'])) as (r & -> & new & -> & Hnd & Hnew);
      [set_solver|]. eexists. split; [done|]. case_decide.
    + exists new. split_and!; [done|done|]. set_solver.
    + exists (e' :: new). rewrite <- app_assoc. split_and!; [done|constructor; set_solver|].
      intros i. rewrite elem_of_cons, Hnew. destruct (decide (i = e')) as [->|]; set_solver.
Qed.

Lemma EntryFunctionMD_merge_cases n m act mapping :
  (∀ i, m = Some i → is_Some (mapping !! i)) →
  ∃ r, EntryFunctionMD_merge n m act mapping ⇓ r ∧
    merge_spec act mapping (EntryFunctionMD n) (EntryFunctionMD m) (EntryFunctionMD r).
Proof.
  intros Hm. unfold EntryFunctionMD_merge. cbn.
  destruct act, m as [j|], n; try (eexists; split; [done|]; right; split; [naive_solver|done]).
  destruct (Hm j eq_refl) as [i Hi]. rewrite Hi. exists (Some i). split; [done|]. left. naive_solver.
Qed.

Lemma FilePropertiesMD_merge_cases n m act mapping :
  is_Some m → ∃ r, FilePropertiesMD_merge n m act ⇓ r ∧
    merge_spec act mapping (FilePropertiesMD n) (FilePropertiesMD m) (FilePropertiesMD r).
Proof.
  intros [b ->]. unfold FilePropertiesMD_merge. cbn.
  destruct act as [act|]; [destruct (replace act) eqn:Hr|];
    eexists; (split; [done|]); naive_solver.
Qed.

(** Undefined behaviour or a result that the specification describes. *)
Lemma merge_cases a b act mapping :
  valid a → valid b → getKey a = getKey b → (∀ i, i ∈ refs b → is_Some (mapping !! i)) →
  (overflows a b ∧ merge a b act mapping = UB) ∨
  (¬ overflows a b ∧ ∃ c, merge a b act mapping ⇓ c ∧ merge_spec act mapping a b c).
Proof.
  intros Ha Hb Hk Hm.
  destruct a as [n|n|n|n|n|n|n|n|n|n|n|n|n], b as [m|m|m|m|m|m|m|m|m|m|m|m|m]; try done; clear Hk;
    cbn [merge]; try (right; split; [naive_solver|]; eexists; split; [done|]; cbn; done).
  all: try (unfold CodeStatisticsMD_merge, NumConditionalBranchMD_merge, UniqueTypeMD_merge;
    destruct (counter_merge_cases n m) as [(? & ? & ->)|(? & r & -> & ?)];
    [by left|right; split; [done|]; by eexists]).
  - right. split; [naive_solver|].
    destruct (EntryFunctionMD_merge_cases n m act mapping) as (r & -> & ?); [|by eexists].
    intros i ->. apply Hm. set_solver.
  - right. split; [naive_solver|].
    destruct (FilePropertiesMD_merge_cases n m act mapping Hb) as (r & -> & ?). by eexists.
  - right. split; [naive_solver|]. eexists. split; [done|]. cbn. rewrite !orb_true_iff. done.
  - right. split; [naive_solver|]. eexists. split; [done|]. cbn. unfold LoopDepthMD_merge. lia.
  - right. split; [naive_solver|]. eexists. split; [done|]. cbn. intros f.
    rewrite LoopCallDepthMD_merge_max, lookup_union_with. by destruct (n !! f), (m !! f).
  - destruct (NumOperationsMD_merge_cases n m) as [(? & ->)|(? & r & -> & ?)]; [by left|right].
    split; [done|]. by eexists.
  - right. split; [naive_solver|]. cbn in Hm. unfold OverrideMD_merge.
    destruct (mergeVectors_appended (overriddenBy n) (overriddenBy m) mapping) as (r1 & -> & ?); [set_solver|].
    destruct (mergeVectors_appended (overrides n) (overrides m) mapping) as (r2 & -> & ?); [set_solver|].
    by eexists.
Qed.

(** C34: [merge] of two valid metadata objects of the same class, where the
    node mapping knows the nodes that the second one stores, is determined for
    every built-in class.  If the class counts something, the counts of the two
    sides differ and a sum does not fit an [int], the merge is undefined
    behaviour.  In every other case it returns valid metadata of that class:
    counts that differ are added and equal ones kept ([codeStatistics],
    [numConditionalBranches], [uniqueTypeMetaData], and [numOperations] field
    by field), statements and loop depths are the maximum, loop call depths the
    maximum per called function, the inline marks are joined, override lists
    are extended by the mapped nodes that are missing, file properties are the
    other side's when it replaces this one, the entry function is taken over
    where this side has none, and allocations stay as they are. *)
Theorem builtin_merge_specified a b act mapping :
  valid a → valid b → getKey a = getKey b → (∀ i, i ∈ refs b → is_Some (mapping !! i)) →
  (overflows a b ∧ merge a b act mapping = UB) ∨
  (¬ overflows a b ∧ ∃ c, merge a b act mapping ⇓ c ∧ valid c ∧ merge_spec act mapping a b c).
Proof.
  intros Ha Hb Hk Hm.
  destruct (merge_cases a b act mapping Ha Hb Hk Hm) as [?|[? (c & Hc & ?)]]; [by left|right].
  split; [done|]. exists c. split; [done|]. split; [|done].
  exact (merge_keeps_valid a b act mapping c Ha Hb Hc).
Qed.

Lemma mergeVectors_present dst src mapping :
  (∀ j, j ∈ src → ∃ i, mapping !! j = Some i ∧ i ∈ dst) → mergeVectors dst src mapping ⇓ dst.
Proof.
  induction src as [|e src IH]; intros Hs; simpl; [done|].
  destruct (Hs e) as (i & -> & Hi); [set_solver|]. simpl.
  rewrite decide_True by done. apply IH. set_solver.
Qed.

(** Merging metadata with an equal copy of itself changes nothing, for
    every built-in class: counters are only added when the two sides differ,
    and node lists only grow by new entries. *)
Theorem merge_idempotent m act mapping :
  valid m → (∀ i, i ∈ refs m → mapping !! i = Some i) → merge m m act mapping ⇓ m.
Proof.
  intros Hv Hid.
  destruct m as [n|[i|]|b|[[] [] [] []]|n|n|l|a|n|o|n|[o b]|n]; simpl in *;
    unfold CodeStatisticsMD_merge, NumConditionalBranchMD_merge, UniqueTypeMD_merge,
      NumOperationsMD_merge, NumStatementsMD_merge, OverrideMD_merge, LoopDepthMD_merge,
      GlobalLoopDepthMD_merge;
    rewrite ?Z.max_id; try (case_decide; [done|]); try done.
  - by destruct act.
  - by destruct act.
  - destruct b as [b|]; [|by destruct Hv]. by destruct act as [[? []]|].
  - do 2 f_equal. rewrite LoopCallDepthMD_merge_max. apply map_eq. intros k.
    rewrite lookup_union_with. destruct (l !! k); simpl; [by rewrite Z.max_id|done].
  - simpl. rewrite !mergeVectors_present; [done|..];
      intros j Hj; exists j; (split; [apply Hid; set_solver|done]).
Qed.

Lemma merge_idempotent_witness :
  valid (NumOperationsMD (mkNumOperations 1 2 3 4)) ∧
  merge (NumOperationsMD (mkNumOperations 1 2 3 4)) (NumOperationsMD (mkNumOperations 1 2 3 4))
    None ∅ ⇓ NumOperationsMD (mkNumOperations 1 2 3 4).
Proof.
  split; [by vm_compute|].
  apply (merge_idempotent (NumOperationsMD (mkNumOperations 1 2 3 4)) None ∅);
    [by vm_compute|intros i Hi; by apply not_elem_of_empty in Hi].
Defined.

Lemma builtin_merge_specified_witness :
  ∃ c, merge (NumOperationsMD (mkNumOperations 1 2 3 4)) (NumOperationsMD (mkNumOperations 5 0 0 1))
         None ∅ ⇓ c ∧ valid c ∧
       merge_spec None ∅ (NumOperationsMD (mkNumOperations 1 2 3 4))
         (NumOperationsMD (mkNumOperations 5 0 0 1)) c.
Proof.
  destruct (builtin_merge_specified (NumOperationsMD (mkNumOperations 1 2 3 4))
    (NumOperationsMD (mkNumOperations 5 0 0 1)) None ∅) as [[_ Ho]|[_ Hc]].
  - by vm_compute.
  - by vm_compute.
  - reflexivity.
  - intros i Hi. by apply not_elem_of_empty in Hi.
  - discriminate Ho.
  - exact Hc.
Defined.

(** Adding counters makes the result of a merge depend on the order in
    which three translation units are combined. *)
Theorem counter_merge_not_associative :
  ∃ a b c r1 r2,
    (x ← CodeStatisticsMD_merge a b; CodeStatisticsMD_merge x c) ⇓ r1 ∧
    (x ← CodeStatisticsMD_merge b c; CodeStatisticsMD_merge a x) ⇓ r2 ∧ r1 ≠ r2.
Proof. by exists 1%Z, 1%Z, 2%Z, 3%Z, 4%Z. Qed.

(** [CodeStatisticsMD::merge] warns about two different definitions even
    when this side had none, while [NumStatementsMD::merge] stays silent. *)
Theorem CodeStatisticsMD_warns_spuriously (other : Z) :
  other ≠ 0%Z →
  CodeStatisticsMD_merge_warns 0 other = true ∧ NumStatementsMD_merge_warns 0 other = false.
Proof.
  intros Ho. unfold CodeStatisticsMD_merge_warns, NumStatementsMD_merge_warns.
  rewrite decide_True by done. by rewrite Z.add_0_l, bool_decide_eq_true_2.
Qed.

Lemma CodeStatisticsMD_warns_spuriously_witness : CodeStatisticsMD_merge_warns 0 5 = true.
Proof. apply (CodeStatisticsMD_warns_spuriously 5). done. Defined.

(** ** Reading back what was written *)

Section builtin_roundtrip.
Context {JO : JsonOps} {JL : JsonLaws}.

Lemma ids_roundtrip ids nodeToStr (strToNode : StrToNodeMapping) (π : GraphMapping) :
  (∀ i, i ∈ ids → ∃ s k, nodeToStr i ⇓ s ∧ strToNode s = Some k ∧ π !! i = Some k) →
  ∃ strs ids', ids_toJson ids nodeToStr ⇓ jarr ((λ s, jstr s) <$> strs) ∧
          ids_fromStrs strs strToNode ⇓ ids' ∧ applyMapping_ids ids π ⇓ ids'.
Proof.
  unfold ids_toJson, ids_fromStrs, applyMapping_ids.
  induction ids as [|i ids IH]; intros Hi; cbn; [by exists [], []|].
  destruct (Hi i) as (s & k & -> & Hs & Hk); [set_solver|].
  destruct IH as (strs & ids' & Hto & Hfrom & Hmap); [set_solver|].
  exists (s :: strs), (k :: ids'). cbn. rewrite Hs, Hk. cbn. rewrite Hfrom, Hmap.
  apply bind_ret_inv in Hto as (l & -> & [= Hl]). cbn.
  split; [|done]. apply jmk_inj in Hl. injection Hl as ->. done.
Qed.

Lemma LoopCallDepthMD_roundtrip l :
  map_Forall (λ _, is_int) l → LoopCallDepthMD_fromJson (LoopCallDepthMD_toJson l) ⇓ l.
Proof.
  intros Hl. unfold LoopCallDepthMD_fromJson, LoopCallDepthMD_toJson.
  rewrite jis_null_jmk, jis_object_jmk.
  apply foldM_insert; [apply jitems_NoDup|..].
  - intros k z. setoid_rewrite elem_of_jitems. setoid_rewrite lookup_fmap.
    split.
    + intros Hz. exists (jint z). rewrite Hz. split; [done|].
      apply jget_int_jint. by eapply Hl.
    + intros (j & Hj & Hz). destruct (l !! k) as [z'|] eqn:Hz'; [|done].
      injection Hj as <-. rewrite jget_int_jint in Hz by (by eapply Hl). congruence.
  - intros k j Hj. apply elem_of_jitems in Hj. rewrite lookup_fmap in Hj.
    destruct (l !! k) as [z'|] eqn:Hz'; [|done]. injection Hj as <-.
    exists z'. apply jget_int_jint. by eapply Hl.
Qed.

Lemma MallocVariableMD_roundtrip a :
  MallocVariableMD_fromJson (MallocVariableMD_toJson a) ⇓ a.
Proof.
  unfold MallocVariableMD_fromJson, MallocVariableMD_toJson.
  erewrite jelems_arr by apply jview_jmk.
  transitivity (foldM (λ m '(k, v), b ← Ret v; Ret (<[k:=b]> m)) (∅ : gmap string string)
                      (ordered_iter a)).
  - generalize (∅ : gmap string string). induction (ordered_iter a) as [|[k v] l IH]; [done|].
    intros m. cbn [fmap list_fmap foldM]. unfold jfields.
    rewrite (jat_obj _ "global" (jstr k)), (jat_obj _ "allocStmt" (jstr v)) by done.
    cbn [mbind outcome_bind]. rewrite !jget_string_str. apply IH.
  - apply (foldM_insert Ret); [apply ordered_iter_NoDup_fst|..].
    + intros k b. setoid_rewrite elem_of_ordered_iter. naive_solver.
    + naive_solver.
Qed.

Lemma create_builtin k f j (strToNode : StrToNodeMapping) :
  registry_lookup k = Some f →
  MetaDataFactory_create k j strToNode = (md ← f j strToNode; Ret (Some md)).
Proof. unfold MetaDataFactory_create. simpl. by intros ->. Qed.

Ltac open_create := erewrite create_builtin by reflexivity; cbn [snd]; cbv beta.

(** Fields of a fixed object are found by their names. *)
Ltac read_fields :=
  unfold jfields; rewrite ?jis_null_jmk; cbv beta iota;
  repeat (match goal with
  | |- context [jindex_const (jobj ?m) ?k] =>
      erewrite (jindex_const_obj m k) by reflexivity
  | |- context [jat (jobj ?m) ?k] => erewrite (jat_obj m k) by reflexivity
  | |- context [jget_bool (jbool ?b)] => rewrite (jget_bool_bool b)
  | |- context [jget_int (jint ?z)] => rewrite (jget_int_jint z) by done
  | |- context [jget_string (jstr ?s)] => rewrite (jget_string_str s)
  | |- context [Ret ?a ≫= ?f] => rewrite (bind_ret f a)
  end; cbn [snd fst]; cbv beta).

(** Metadata whose JSON value is not empty; the writer leaves out the others. *)
Definition writes_value (m : BuiltinMD) : Prop :=
  match m with
  | LoopCallDepthMD l => l ≠ ∅
  | MallocVariableMD a => a ≠ ∅
  | _ => True
  end.

(** A value that the writer of a graph keeps. *)
Definition kept (j : json) : Prop := jempty j = false ∧ jis_null j = false.

Lemma kept_jmk v :
  match v with
  | VNull => False | VArr l => l ≠ [] | VObj m => m ≠ ∅ | _ => True
  end → kept (jmk v).
Proof.
  unfold kept. rewrite jempty_spec, jis_null_spec, !jview_jmk. destruct v; try done.
  - intros ?. by rewrite bool_decide_false.
  - intros ?. by rewrite bool_decide_false.
Qed.

Lemma kept_fields k v l : kept (jfields ((k, v) :: l)).
Proof. apply kept_jmk. cbn. apply insert_non_empty. Qed.

Lemma write_read_builtin (m : BuiltinMD) (nodeToStr : NodeToStrMapping)
    (strToNode : StrToNodeMapping) (π : GraphMapping) :
  valid m →
  (∀ i, i ∈ refs m → ∃ s k, nodeToStr i ⇓ s ∧ strToNode s = Some k ∧ π !! i = Some k) →
  strToNode "" = None →
  ∃ j m', toJson m nodeToStr ⇓ j ∧ (writes_value m → kept j) ∧
    MetaDataFactory_create (getKey m) j strToNode ⇓ Some m' ∧ applyMapping m π ⇓ m'.
Proof.
  intros Hv Hid Hempty.
  destruct m as [n|[i|]|b|[]|n|n|l|a|n|[]|n|[o b]|n]; simpl in Hv; cbn [toJson applyMapping];
    unfold LoopDepthMD_toJson, GlobalLoopDepthMD_toJson, NumConditionalBranchMD_toJson,
      NumStatementsMD_toJson, UniqueTypeMD_toJson.
  - eexists _, _. split_and!; [done|intros _; apply kept_fields| |done]. open_create.
    unfold CodeStatisticsMD_fromJson, CodeStatisticsMD_toJson. by read_fields.
  - destruct (Hid i) as (s & k & Hto & Hs & Hk); [set_solver|]. eexists (jstr s), _.
    cbn [EntryFunctionMD_toJson EntryFunctionMD_applyMapping]. rewrite Hto, Hk.
    split_and!; [done|intros _; by apply kept_jmk| |done]. open_create.
    unfold EntryFunctionMD_fromJson. read_fields. by rewrite Hs.
  - eexists _, _. split_and!; [done|intros _; by apply kept_jmk| |done]. open_create.
    unfold EntryFunctionMD_fromJson. read_fields. by rewrite Hempty.
  - destruct Hv as [b' ->]. eexists _, _. split_and!; [done|intros _; apply kept_fields| |done].
    open_create. unfold FilePropertiesMD_fromJson. by read_fields.
  - eexists _, _. split_and!; [done|intros _; apply kept_fields| |done]. open_create.
    unfold InlineMD_fromJson, InlineMD_toJson. simpl. by read_fields.
  - eexists _, _. split_and!; [done|intros _; by apply kept_jmk| |done]. open_create.
    unfold LoopDepthMD_fromJson. by read_fields.
  - eexists _, _. split_and!; [done|intros _; by apply kept_jmk| |done]. open_create.
    unfold GlobalLoopDepthMD_fromJson. by read_fields.
  - eexists _, _. split_and!; [done| | |done].
    + intros Hl. apply kept_jmk. intros He. by apply fmap_empty_inv in He.
    + open_create. by rewrite LoopCallDepthMD_roundtrip.
  - eexists _, _. split_and!; [done| | |done].
    + intros Hl. apply kept_jmk. intros He. apply fmap_nil_inv in He. apply Hl.
      by rewrite <- (ordered_iter_to_map a), He.
    + open_create. by rewrite MallocVariableMD_roundtrip.
  - eexists _, _. split_and!; [done|intros _; by apply kept_jmk| |done]. open_create.
    unfold NumConditionalBranchMD_fromJson. by read_fields.
  - destruct Hv as (? & ? & ? & ?). eexists _, _.
    split_and!; [done|intros _; apply kept_fields| |done]. open_create.
    unfold NumOperationsMD_fromJson, NumOperationsMD_toJson. simpl in *. by read_fields.
  - eexists _, _. split_and!; [done|intros _; by apply kept_jmk| |done]. open_create.
    unfold NumStatementsMD_fromJson. rewrite jis_null_jmk.
    rewrite jget_longlong_jint by done. cbn. by rewrite to_int_id.
  - simpl in Hid.
    destruct (ids_roundtrip o nodeToStr strToNode π) as (os & o' & Hto & Hfo & Hmo); [set_solver|].
    destruct (ids_roundtrip b nodeToStr strToNode π) as (bs & b' & Htb & Hfb & Hmb); [set_solver|].
    unfold OverrideMD_toJson, OverrideMD_applyMapping. simpl. rewrite Hto, Htb, Hmo, Hmb.
    eexists _, _. split_and!; [done|intros _; apply kept_fields| |done]. open_create.
    unfold OverrideMD_fromJson. read_fields. rewrite jget_strings_arr, bind_ret, Hfo, bind_ret.
    read_fields. by rewrite jget_strings_arr, bind_ret, Hfb.
  - eexists _, _. split_and!; [done|intros _; by apply kept_jmk| |done]. open_create.
    unfold UniqueTypeMD_fromJson. by read_fields.
Qed.

(** C33: reading the JSON value that [toJson] wrote gives the metadata back, for
    every built-in class; the nodes it stores are the ones that the reader made
    for their identifiers. *)
Theorem builtin_json_roundtrip (m : BuiltinMD) (nodeToStr : NodeToStrMapping)
    (strToNode : StrToNodeMapping) (π : GraphMapping) :
  valid m →
  (∀ i, i ∈ refs m → ∃ s k, nodeToStr i ⇓ s ∧ strToNode s = Some k ∧ π !! i = Some k) →
  strToNode "" = None →
  ∃ j m', toJson m nodeToStr ⇓ j ∧
       MetaDataFactory_create (getKey m) j strToNode ⇓ Some m' ∧ applyMapping m π ⇓ m'.
Proof.
  intros Hv Hid He. destruct (write_read_builtin m nodeToStr strToNode π Hv Hid He)
    as (j & m' & Hj & _ & Hc & Ha). by exists j, m'.
Qed.
End builtin_roundtrip.

Lemma builtin_json_roundtrip_witness :
  let m := OverrideMD (mkOverrideInfo [3] [1; 2]) in
  let π : GraphMapping := list_to_map [(1, 4); (2, 5); (3, 6)] in
  ∃ j m', toJson (JO := JsonTree.ops) m (λ i, Ret (pretty i)) ⇓ j ∧
       MetaDataFactory_create (getKey m) j
         (λ s, if decide (s = "1") then Some 4 else if decide (s = "2") then Some 5
               else if decide (s = "3") then Some 6 else None) ⇓ Some m' ∧
       applyMapping m π ⇓ m'.
Proof.
  intros m π. apply (builtin_json_roundtrip (JL := JsonTree.laws) m); [done| |done].
  intros i Hi.
  assert (i = 3 ∨ i = 1 ∨ i = 2) as [->|[->| ->]] by (simpl in Hi; set_solver);
    [exists "3", 6|exists "1", 4|exists "2", 5]; split_and!; reflexivity.
Defined.
