(* ===== verification/Callgraph.v ===== *)
(** * The call graph

    [graph/include/metacg/Callgraph.h], [graph/include/metacg/CgNode.h],
    [graph/src/Callgraph.cpp] (everything except [Callgraph::merge], see
    [Merge]) and [graph/src/CgNode.cpp].

    A pointer or reference to a node of a graph is the identifier of the node
    (for nodes that are looked at through it) or a copy of the node (for nodes
    that are only read).  [hasNode(const CgNode&)] compares addresses: every
    node carries the address it was allocated at, which is a pair of the
    identity of the graph that allocated it and its index, so that live nodes
    of different graphs have different addresses. *)

From S2P Require Import Prelude Json MetaData.

(** ** Nodes *)

Section cgnode.
Context {JO : JsonOps} {MDI : MetaDataI}.

Record CgNode := mkCgNode {
  node_id : NodeId;
  node_addr : nat * nat;
  functionName : string;
  origin : option string;
  hasBody : bool;
  node_md : NamedMetadata
}.

Definition set_node_md (n : CgNode) (m : NamedMetadata) : CgNode :=
  mkCgNode (node_id n) (node_addr n) (functionName n) (origin n) (hasBody n) m.

(** [CgNode::CgNode] *)
Definition CgNode_new (id : NodeId) (addr : nat * nat) (function : string)
    (orig : option string) (isVirt body : bool) : CgNode :=
  let n := mkCgNode id addr function orig body ∅ in
  if isVirt
  then set_node_md n (md_getOrCreate (node_md n) OverrideMD_key md_newOverrideMD).1
  else n.

Definition isSameFunctionName (n otherNode : CgNode) : bool :=
  bool_decide (functionName n = functionName otherNode).

Definition setHasBody (bodyStatus : bool) (n : CgNode) : CgNode :=
  mkCgNode (node_id n) (node_addr n) (functionName n) (origin n) bodyStatus (node_md n).

Definition setFunctionName (name : string) (n : CgNode) : CgNode :=
  mkCgNode (node_id n) (node_addr n) name (origin n) (hasBody n) (node_md n).

Definition setOrigin (orig : option string) (n : CgNode) : CgNode :=
  mkCgNode (node_id n) (node_addr n) (functionName n) orig (hasBody n) (node_md n).

Definition setVirtual (virtualness : bool) (n : CgNode) : CgNode :=
  if virtualness
  then set_node_md n (md_getOrCreate (node_md n) OverrideMD_key md_newOverrideMD).1
  else set_node_md n (md_erase (node_md n) OverrideMD_key).1.

Definition isVirtual (n : CgNode) : bool := md_has (node_md n) OverrideMD_key.

(** Attaching metadata to a node, [addMetaData(std::unique_ptr<MetaData>)]. *)
Definition CgNode_addMetaData (md : MD) (n : CgNode) : CgNode :=
  set_node_md n (addMetaData (node_md n) md).

Lemma setVirtual_isVirtual b n : isVirtual (setVirtual b n) = b.
Proof.
  unfold isVirtual, md_has. destruct b; simpl.
  - apply bool_decide_eq_true. unfold md_getOrCreate.
    destruct (node_md n !! OverrideMD_key) eqn:E; simpl; [by rewrite E|].
    by rewrite lookup_insert_eq.
  - apply bool_decide_eq_false. rewrite lookup_delete_eq. by intros [? ?].
Qed.
End cgnode.

(** ** The graph *)

Section callgraph.
Context {JO : JsonOps} {MDI : MetaDataI}.

Record Callgraph := mkCallgraph {
  uid : nat;
  nodes : list (option CgNode);
  nameIdMap : gmap string (list NodeId);
  edges : gmap (NodeId * NodeId) NamedMetadata;
  callerList : gmap NodeId (list NodeId);
  calleeList : gmap NodeId (list NodeId);
  mainNode : option NodeId;
  hasDuplicates : bool;
  numErased : nat;
  cg_md : NamedMetadata
}.

Definition Callgraph_new (u : nat) : Callgraph := mkCallgraph u [] ∅ ∅ ∅ ∅ None false 0 ∅.

Definition set_main (g : Callgraph) (m : option NodeId) : Callgraph :=
  mkCallgraph (uid g) (nodes g) (nameIdMap g) (edges g) (callerList g) (calleeList g)
    m (hasDuplicates g) (numErased g) (cg_md g).

Definition set_cg_md (g : Callgraph) (m : NamedMetadata) : Callgraph :=
  mkCallgraph (uid g) (nodes g) (nameIdMap g) (edges g) (callerList g) (calleeList g)
    (mainNode g) (hasDuplicates g) (numErased g) m.

Definition set_adjacency (g : Callgraph) es cr ce : Callgraph :=
  mkCallgraph (uid g) (nodes g) (nameIdMap g) es cr ce
    (mainNode g) (hasDuplicates g) (numErased g) (cg_md g).

Definition set_edges (g : Callgraph) es : Callgraph :=
  set_adjacency g es (callerList g) (calleeList g).

(** The value of [m[k]] for a map of vectors (a missing entry is empty). *)
Definition entry {K} `{Countable K} {A} (m : gmap K (list A)) (k : K) : list A :=
  default [] (m !! k).

(** The node stored under an identifier, if it is in range and not erased. *)
Definition node_at (g : Callgraph) (i : NodeId) : option CgNode := mjoin (nodes g !! i).

(** *** Look-ups *)

Definition hasNode_id (g : Callgraph) (i : NodeId) : bool :=
  bool_decide (i < length (nodes g)) && bool_decide (is_Some (node_at g i)).

Definition hasNode_name (g : Callgraph) (name : string) : bool :=
  match nameIdMap g !! name with
  | Some l => existsb (hasNode_id g) l
  | None => false
  end.

Definition hasNode_ref (g : Callgraph) (n : CgNode) : bool :=
  if decide (length (nodes g) ≤ node_id n) then false
  else match node_at g (node_id n) with
       | Some nodeAtId => bool_decide (node_addr nodeAtId = node_addr n)
       | None => false
       end.

(** The guard is [id > nodes.size()], so [id == nodes.size()] reaches [at]. *)
Definition getNode (g : Callgraph) (i : NodeId) : outcome (option CgNode) :=
  if decide (length (nodes g) < i) then Ret None
  else at_or_throw (nodes g !! i).

Definition countNodes (g : Callgraph) (name : string) : nat :=
  match nameIdMap g !! name with Some l => length l | None => 0 end.

Definition getFirstNode (g : Callgraph) (name : string) : outcome (option CgNode) :=
  match nameIdMap g !! name with
  | Some l => match l with [] => Ret None | i :: _ => getNode g i end
  | None => Ret None
  end.

(** [it->second] is read even when the name is missing. *)
Definition getSingleNode (g : Callgraph) (name : string) : outcome CgNode :=
  l ← deref (nameIdMap g !! name);
  cpp_assert (bool_decide (length l = 1));;
  i ← deref (head l);
  node ← getNode g i;
  cpp_assert (bool_decide (is_Some node));;
  deref node.

Definition getNodes_name (g : Callgraph) (name : string) : list NodeId :=
  match nameIdMap g !! name with Some l => l | None => [] end.

Definition cg_size (g : Callgraph) : nat := length (nodes g).
Definition getNodeCount (g : Callgraph) : nat := length (nodes g) - numErased g.
Definition isEmpty (g : Callgraph) : bool := bool_decide (getNodeCount g = 0).

Definition existsEdge (g : Callgraph) (source target : NodeId) : bool :=
  bool_decide (is_Some (edges g !! (source, target))).

Definition existsEdge_ref (g : Callgraph) (source target : CgNode) : bool :=
  hasNode_ref g source && hasNode_ref g target &&
  existsEdge g (node_id source) (node_id target).

Definition existsAnyEdge (g : Callgraph) (source target : string) : bool :=
  existsb (λ sourceId, existsb (λ targetId, existsEdge g sourceId targetId)
             (getNodes_name g target)) (getNodes_name g source).

(** The sets of pointers that [getCallees] and [getCallers] return. *)
Definition pointer_set (g : Callgraph) (l : list NodeId) : outcome (gset (option NodeId)) :=
  foldM (λ S i, p ← at_or_throw (nodes g !! i); Ret ({[node_id <$> p]} ∪ S)) ∅ l.

Definition getCallees (g : Callgraph) (i : NodeId) : outcome (gset (option NodeId)) :=
  match calleeList g !! i with None => Ret ∅ | Some l => pointer_set g l end.

Definition getCallers (g : Callgraph) (i : NodeId) : outcome (gset (option NodeId)) :=
  match callerList g !! i with None => Ret ∅ | Some l => pointer_set g l end.

Definition getCallees_ref (g : Callgraph) (n : CgNode) : outcome (gset (option NodeId)) :=
  if hasNode_ref g n then getCallees g (node_id n) else Ret ∅.

Definition getCallers_ref (g : Callgraph) (n : CgNode) : outcome (gset (option NodeId)) :=
  if hasNode_ref g n then getCallers g (node_id n) else Ret ∅.

(** *** Edge metadata *)

Definition getEdgeMetaData (g : Callgraph) (ids : NodeId * NodeId) (metadataName : string)
    : option MD :=
  match edges g !! ids with None => None | Some edgeMD => edgeMD !! metadataName end.

Definition getEdgeMetaData_ref (g : Callgraph) (func1 func2 : CgNode) (metadataName : string)
    : option MD :=
  if hasNode_ref g func1 && hasNode_ref g func2
  then getEdgeMetaData g (node_id func1, node_id func2) metadataName
  else None.

Definition getAllEdgeMetaData (g : Callgraph) (ids : NodeId * NodeId) : outcome NamedMetadata :=
  cpp_assert (bool_decide (is_Some (edges g !! ids)));;
  at_or_throw (edges g !! ids).

Definition hasEdgeMetaData (g : Callgraph) (ids : NodeId * NodeId) (metadataName : string) : bool :=
  match edges g !! ids with
  | Some m => bool_decide (is_Some (m !! metadataName))
  | None => false
  end.

Definition hasEdgeMetaData_ref (g : Callgraph) (func1 func2 : CgNode) (metadataName : string)
    : bool :=
  hasNode_ref g func1 && hasNode_ref g func2 &&
  hasEdgeMetaData g (node_id func1, node_id func2) metadataName.

(** [hasEdgeMetaData<T>(id)] looks the edge up with [at]. *)
Definition hasEdgeMetaData_typed (g : Callgraph) (ids : NodeId * NodeId) (T_key : string)
    : outcome bool :=
  m ← at_or_throw (edges g !! ids); Ret (bool_decide (is_Some (m !! T_key))).

(** [addEdgeMetaData<T>(id, md)]: the metadata is stored under [T::key], the
    key of the static type of the pointer. *)
Definition addEdgeMetaData (g : Callgraph) (ids : NodeId * NodeId) (T_key : string) (md : MD)
    : Callgraph * bool :=
  match edges g !! ids with
  | Some m => (set_edges g (<[ids := <[T_key := md]> m]> (edges g)), true)
  | None => (g, false)
  end.

Definition addEdgeMetaData_ref (g : Callgraph) (func1 func2 : CgNode) (T_key : string) (md : MD)
    : Callgraph * bool :=
  if negb (hasNode_ref g func1) || negb (hasNode_ref g func2) then (g, false)
  else addEdgeMetaData g (node_id func1, node_id func2) T_key md.

(** *** The main function *)

Fixpoint first_named (g : Callgraph) (names : list string) : outcome (option NodeId) :=
  match names with
  | [] => Ret None
  | name :: names =>
      n ← getFirstNode g name;
      match n with Some n => Ret (Some (node_id n)) | None => first_named g names end
  end.

Definition main_names : list string := ["main"; "_Z4main"; "_ZSt4mainiPPc"; "_QQmain"].

(** The node that the [entryFunction] metadata of the graph points to. *)
Definition entry_function (g : Callgraph) : outcome (option NodeId) :=
  match md_get (cg_md g) EntryFunctionMD_key with
  | Some md =>
      match md_getEntryFunctionId md with
      | Some i => n ← getNode g i; Ret (option_map node_id n)
      | None => Ret None
      end
  | None => Ret None
  end.

(** Returns the graph because [mainNode] is a mutable cache. *)
Definition getMain (g : Callgraph) (forceRecompute : bool)
    : outcome (Callgraph * option NodeId) :=
  let g := if forceRecompute then set_main g None else g in
  match mainNode g with
  | Some i => Ret (g, Some i)
  | None =>
      m ← entry_function g;
      match m with
      | Some i => Ret (set_main g (Some i), Some i)
      | None => m ← first_named g main_names; Ret (set_main g m, m)
      end
  end.

(** *** Operations that change the graph *)

(** Returns the identifier of the new node. *)
Definition insert_node (g : Callgraph) (function : string) (orig : option string)
    (isVirt body : bool) : outcome (Callgraph * NodeId) :=
  cpp_assert (bool_decide (function ≠ ""));;
  let i := length (nodes g) in
  let n := CgNode_new i (uid g, i) function orig isVirt body in
  let nodesWithName := entry (nameIdMap g) function in
  Ret (mkCallgraph (uid g) (nodes g ++ [Some n])
         (<[function := nodesWithName ++ [i]]> (nameIdMap g))
         (edges g) (callerList g) (calleeList g) (mainNode g)
         (hasDuplicates g || negb (bool_decide (nodesWithName = [])))
         (numErased g) (cg_md g), i).

Definition getOrInsertNode (g : Callgraph) (function : string) (orig : option string)
    (isVirt body : bool) : outcome (Callgraph * NodeId) :=
  node ← getFirstNode g function;
  match node with
  | Some n => Ret (g, node_id n)
  | None => insert_node g function orig isVirt body
  end.

(** One turn of the two loops of [Callgraph::erase]: the edge [mk i c] is
    erased together with its entry in the list [m] keeps for [c].  The loop
    over the callees has [mk i c = (i, c)], the one over the callers [(c, i)]. *)
Definition detach (mk : NodeId → NodeId → NodeId * NodeId) (i : NodeId)
    (st : gmap (NodeId * NodeId) NamedMetadata * gmap NodeId (list NodeId)) (c : NodeId)
    : outcome (gmap (NodeId * NodeId) NamedMetadata * gmap NodeId (list NodeId)) :=
  l ← at_or_throw (st.2 !! c);
  l' ← erase_find i l;
  Ret (delete (mk i c) st.1, <[c := l']> st.2).

Definition erase_node (g : Callgraph) (i : NodeId) : outcome (Callgraph * bool) :=
  if negb (hasNode_id g i) then Ret (g, false)
  else
    st1 ← foldM (detach pair i) (edges g, callerList g) (entry (calleeList g) i);
    let ce1 := delete i (calleeList g) in
    st2 ← foldM (detach (flip pair) i) (st1.1, ce1) (entry st1.2 i);
    let cr2 := delete i st1.2 in
    cpp_assert (bool_decide (is_Some (node_at g i)));;
    n ← deref (node_at g i);
    let isMain := bool_decide (mainNode g = Some i) in
    let md' :=
      if isMain then
        match md_get (cg_md g) EntryFunctionMD_key with
        | Some md => if decide (md_getEntryFunctionId md = Some i)
                     then (md_erase (cg_md g) EntryFunctionMD_key).1 else cg_md g
        | None => cg_md g
        end
      else cg_md g in
    names' ← erase_find i (entry (nameIdMap g) (functionName n));
    Ret (mkCallgraph (uid g) (<[i := None]> (nodes g))
           (<[functionName n := names']> (nameIdMap g))
           st2.1 cr2 st2.2 (if isMain then None else mainNode g)
           (hasDuplicates g) (S (numErased g)) md', true).

(** [Callgraph::clear] leaves the metadata of the graph in place. *)
Definition clear (g : Callgraph) : Callgraph :=
  mkCallgraph (uid g) [] ∅ ∅ ∅ ∅ None false 0 (cg_md g).

(** The message about an existing edge names its two nodes. *)
Definition addEdgeInternal (g : Callgraph) (caller callee : NodeId)
    : outcome (Callgraph * bool) :=
  match edges g !! (caller, callee) with
  | Some _ =>
      n1 ← getNode g caller; _ ← deref n1;
      n2 ← getNode g callee; _ ← deref n2;
      Ret (g, false)
  | None =>
      Ret (set_adjacency g
             (<[(caller, callee) := ∅]> (edges g))
             (<[callee := entry (callerList g) callee ++ [caller]]> (callerList g))
             (<[caller := entry (calleeList g) caller ++ [callee]]> (calleeList g)), true)
  end.

Definition addEdge_ref (g : Callgraph) (parentNode childNode : CgNode)
    : outcome (Callgraph * bool) :=
  if negb (hasNode_ref g parentNode) || negb (hasNode_ref g childNode) then Ret (g, false)
  else addEdgeInternal g (node_id parentNode) (node_id childNode).

Definition addEdge (g : Callgraph) (parentID childID : NodeId) : outcome (Callgraph * bool) :=
  parentNode ← getNode g parentID;
  match parentNode with
  | None => Ret (g, false)
  | Some _ =>
      childNode ← getNode g childID;
      match childNode with
      | None => Ret (g, false)
      | Some _ => addEdgeInternal g parentID childID
      end
  end.

Definition addEdge_name (g : Callgraph) (callerName calleeName : string)
    : outcome (Callgraph * bool) :=
  match getNodes_name g callerName, getNodes_name g calleeName with
  | [i], [j] => addEdge g i j
  | _, _ => Ret (g, false)
  end.

Definition removeEdge (g : Callgraph) (parentID childID : NodeId) : outcome (Callgraph * bool) :=
  match edges g !! (parentID, childID) with
  | None => Ret (g, false)
  | Some _ =>
      parentCallees ← erase_find childID (entry (calleeList g) parentID);
      childCallers ← erase_find parentID (entry (callerList g) childID);
      Ret (set_adjacency g (delete (parentID, childID) (edges g))
             (<[childID := childCallers]> (callerList g))
             (<[parentID := parentCallees]> (calleeList g)), true)
  end.

(** The guard joins the two tests with [&&]. *)
Definition removeEdge_ref (g : Callgraph) (parentNode childNode : CgNode)
    : outcome (Callgraph * bool) :=
  if negb (hasNode_ref g parentNode) && negb (hasNode_ref g childNode) then Ret (g, false)
  else removeEdge g (node_id parentNode) (node_id childNode).

Definition removeEdge_name (g : Callgraph) (callerName calleeName : string)
    : outcome (Callgraph * bool) :=
  match getNodes_name g callerName, getNodes_name g calleeName with
  | [i], [j] => removeEdge g i j
  | _, _ => Ret (g, false)
  end.

(** Changing a node through a pointer to it. *)
Definition update_node (g : Callgraph) (i : NodeId) (f : CgNode → CgNode) : Callgraph :=
  mkCallgraph (uid g) (alter (fmap f) i (nodes g)) (nameIdMap g) (edges g) (callerList g)
    (calleeList g) (mainNode g) (hasDuplicates g) (numErased g) (cg_md g).
End callgraph.
