(* ===== verification/CallgraphWf.v ===== *)
(** * The call graph: invariant

    [wf] is what the containers of a [Callgraph] always satisfy together, and
    every operation of the class preserves it. *)

From S2P Require Import Prelude Json MetaData Callgraph.

(** ** The containers of vectors *)

Lemma entry_insert {K} `{Countable K} {A} (m : gmap K (list A)) k v k' :
  entry (<[k := v]> m) k' = if decide (k = k') then v else entry m k'.
Proof. unfold entry. rewrite lookup_insert. by case_decide. Qed.

Lemma entry_delete {K} `{Countable K} {A} (m : gmap K (list A)) k k' :
  entry (delete k m) k' = if decide (k = k') then [] else entry m k'.
Proof. unfold entry. rewrite lookup_delete. by case_decide. Qed.

Lemma entry_empty {K} `{Countable K} {A} k : entry (∅ : gmap K (list A)) k = [].
Proof. unfold entry. by rewrite lookup_empty. Qed.

Lemma entry_some {K} `{Countable K} {A} (m : gmap K (list A)) k x :
  x ∈ entry m k → m !! k = Some (entry m k).
Proof. unfold entry. destruct (m !! k); [done|]. by intros ?%elem_of_nil. Qed.

#[export] Hint Rewrite @entry_insert @entry_delete @entry_empty : metacg.

(** ** Edges and adjacency lists *)

Section adjacency.
Context {JO : JsonOps} {MDI : MetaDataI}.
Implicit Types (es : gmap (NodeId * NodeId) NamedMetadata) (m cr ce : gmap NodeId (list NodeId)).

(** The lists of [m] are the adjacency of the edge set [es]: [i] is in the
    list of [j] exactly if [mk i j] is an edge, once. *)
Definition half_ok (mk : NodeId → NodeId → NodeId * NodeId) es m : Prop :=
  (∀ i j, i ∈ entry m j ↔ is_Some (es !! mk i j)) ∧ (∀ j, NoDup (entry m j)).

Definition adj_ok es cr ce : Prop := half_ok pair es cr ∧ half_ok (flip pair) es ce.

Lemma half_ok_empty mk : half_ok mk ∅ ∅.
Proof.
  split; intros; rewrite entry_empty; [|constructor].
  rewrite lookup_empty, elem_of_nil. split; [done|by intros [? ?]].
Qed.

Lemma half_ok_dom mk es es' m :
  (∀ p, is_Some (es !! p) ↔ is_Some (es' !! p)) → half_ok mk es m → half_ok mk es' m.
Proof. intros He [H1 H2]. split; [|done]. intros i j. by rewrite H1, He. Qed.

Lemma half_ok_insert mk `{!Inj2 (=) (=) (=) mk} es m i j md :
  es !! mk i j = None → half_ok mk es m →
  half_ok mk (<[mk i j := md]> es) (<[j := entry m j ++ [i]]> m).
Proof.
  intros Hno [H1 H2].
  assert (i ∉ entry m j) as Hni by (rewrite H1, Hno; by intros [? ?]).
  split.
  - intros i' j'. rewrite entry_insert, lookup_insert_is_Some'. case_decide as Hj; subst.
    + rewrite elem_of_app, list_elem_of_singleton, H1. split.
      * intros [?| ->]; [by right|by left].
      * intros [[-> _]%(inj2 mk)|?]; [by right|by left].
    + rewrite H1. split; [by right|]. intros [[_ ?]%(inj2 mk)|?]; naive_solver.
  - intros j'. rewrite entry_insert. case_decide; [|done]. subst.
    apply NoDup_app. split_and!; [done| |apply NoDup_singleton].
    intros x Hx ->%list_elem_of_singleton. done.
Qed.

Lemma half_ok_erase mk `{!Inj2 (=) (=) (=) mk} es m i j :
  half_ok mk es m → is_Some (es !! mk i j) →
  ∃ l, m !! j = Some (entry m j) ∧ erase_find i (entry m j) ⇓ l ∧
       half_ok mk (delete (mk i j) es) (<[j := l]> m).
Proof.
  intros [H1 H2] Hij.
  destruct (erase_find_spec i (entry m j)) as (l & Hl & Hnd & Hin & _); [by apply H1|done|].
  exists l. split_and!; [eapply entry_some, H1, Hij|done|].
  split.
  - intros i' j'. rewrite entry_insert, lookup_delete_is_Some. case_decide; subst.
    + rewrite Hin, H1. split.
      * intros [? Hne]. split; [|done]. by intros [-> _]%(inj2 mk).
      * intros [Hne ?]. split; [done|]. by intros ->.
    + rewrite H1. split; [|tauto]. intros ?. split; [|done]. by intros [_ ?]%(inj2 mk).
  - intros j'. rewrite entry_insert. case_decide; [done|apply H2].
Qed.

#[export] Instance pair_inj2 : Inj2 (=) (=) (=) (@pair NodeId NodeId).
Proof. by intros ???? [= -> ->]. Qed.
#[export] Instance flip_pair_inj2 : Inj2 (=) (=) (=) (flip (@pair NodeId NodeId)).
Proof. by intros ???? [= -> ->]. Qed.

Lemma adj_ok_add es cr ce i j md :
  es !! (i, j) = None → adj_ok es cr ce →
  adj_ok (<[(i, j) := md]> es) (<[j := entry cr j ++ [i]]> cr) (<[i := entry ce i ++ [j]]> ce).
Proof.
  intros Hno [H1 H2]. split; [by apply (half_ok_insert pair)|].
  by apply (half_ok_insert (flip pair) es ce j i).
Qed.

Lemma adj_ok_remove es cr ce i j :
  is_Some (es !! (i, j)) → adj_ok es cr ce →
  ∃ lr le, erase_find i (entry cr j) ⇓ lr ∧ erase_find j (entry ce i) ⇓ le ∧
    adj_ok (delete (i, j) es) (<[j := lr]> cr) (<[i := le]> ce).
Proof.
  intros Hij [H1 H2].
  destruct (half_ok_erase pair es cr i j H1 Hij) as (lr & _ & Hlr & Hr).
  destruct (half_ok_erase (flip pair) es ce j i H2 Hij) as (le & _ & Hle & He).
  exists lr, le. by split_and!.
Qed.

(** A whole loop of [erase]. *)
Lemma detach_loop mk `{!Inj2 (=) (=) (=) mk} i es m l :
  half_ok mk es m → NoDup l → (∀ c, c ∈ l → is_Some (es !! mk i c)) →
  ∃ es' m', foldM (detach mk i) (es, m) l ⇓ (es', m') ∧ half_ok mk es' m' ∧
    (∀ c, c ∈ l → es' !! mk i c = None) ∧
    (∀ p, (∀ c, c ∈ l → p ≠ mk i c) → es' !! p = es !! p).
Proof.
  intros Hok Hnd Hl.
  destruct (foldM_ind (λ dn '(es', m'), half_ok mk es' m' ∧
      (∀ c, c ∈ dn → es' !! mk i c = None) ∧
      (∀ p, (∀ c, c ∈ dn → p ≠ mk i c) → es' !! p = es !! p))
    (detach mk i) l (es, m)) as ((es' & m') & Hrun & H); [| |by eauto].
  - split_and!; [done|by intros ? ?%elem_of_nil|done].
  - intros dn c rest [es' m'] -> (Hok' & Hdel & Hkeep).
    apply NoDup_app in Hnd as (_ & Hnd & _).
    assert (is_Some (es' !! mk i c)) as Hc.
    { rewrite Hkeep; [apply Hl; set_solver|].
      intros c' Hc' [_ ->]%(inj2 mk). apply (Hnd c'); set_solver. }
    destruct (half_ok_erase mk es' m' i c Hok' Hc) as (l' & Hm & Hl' & Hok2).
    exists (delete (mk i c) es', <[c := l']> m'). split.
    { unfold detach; cbn [fst snd]. rewrite Hm. cbn. by rewrite Hl'. }
    split_and!; [done|..].
    + intros c' [Hc'| ->%list_elem_of_singleton]%elem_of_app; [|apply lookup_delete_eq].
      apply lookup_delete_None. right. by apply Hdel.
    + intros p Hp. rewrite lookup_delete_ne; [|intros <-; by apply (Hp c); set_solver].
      apply Hkeep. intros c' Hc'. apply Hp. set_solver.
Qed.

(** Both loops and the two [erase] calls on the adjacency maps. *)
Lemma detach_node i es cr ce :
  adj_ok es cr ce →
  ∃ es1 cr1 es2 ce2,
    foldM (detach pair i) (es, cr) (entry ce i) ⇓ (es1, cr1) ∧
    foldM (detach (flip pair) i) (es1, delete i ce) (entry cr1 i) ⇓ (es2, ce2) ∧
    adj_ok es2 (delete i cr1) ce2 ∧
    (∀ p, es2 !! p = if decide (p.1 = i ∨ p.2 = i) then None else es !! p).
Proof.
  intros [Hcr Hce].
  destruct (detach_loop pair i es cr (entry ce i)) as (es1 & cr1 & Hrun1 & Hcr1 & Hdel1 & Hkeep1);
    [done|apply Hce|intros c ?; by apply (proj1 Hce c i)|].
  assert (∀ c, es1 !! (i, c) = None) as Hout.
  { intros c. destruct (decide (c ∈ entry ce i)) as [Hc|Hc]; [by apply Hdel1|].
    rewrite Hkeep1 by (intros c' ? [= <-]; done).
    apply eq_None_not_Some. intros Hs. apply Hc. by apply (proj1 Hce c i). }
  assert (half_ok (flip pair) es1 (delete i ce)) as Hce1.
  { split; intros; rewrite entry_delete; case_decide; subst; [..|constructor|apply Hce].
    - simpl. rewrite Hout, elem_of_nil. split; [done|by intros [? ?]].
    - rewrite (proj1 Hce). simpl. rewrite Hkeep1; [done|]. by intros ? _ [= <-]. }
  destruct (detach_loop (flip pair) i es1 (delete i ce) (entry cr1 i))
    as (es2 & ce2 & Hrun2 & Hce2 & Hdel2 & Hkeep2);
    [done|apply Hcr1|intros c ?; simpl|].
  { by apply (proj1 Hcr1 c i). }
  assert (∀ c, es2 !! (c, i) = None) as Hin.
  { intros c. destruct (decide (c ∈ entry cr1 i)) as [Hc|Hc]; [by apply (Hdel2 c)|].
    rewrite Hkeep2 by (intros c' ? [= <-]; done).
    apply eq_None_not_Some. intros Hs. apply Hc. by apply (proj1 Hcr1 c i). }
  exists es1, cr1, es2, ce2. split_and!; [done|done|split; [|done]|].
  - split; intros; rewrite entry_delete; case_decide; subst; [..|constructor|apply Hcr1].
    + rewrite Hin, elem_of_nil. split; [done|by intros [? ?]].
    + rewrite (proj1 Hcr1). rewrite Hkeep2; [done|]. by intros ? _ [= ? <-].
  - intros [a b]; simpl. destruct (decide (b = i)) as [->|Hb].
    { rewrite decide_True by tauto. apply Hin. }
    rewrite Hkeep2 by (intros c _ [= ? ?]; done).
    destruct (decide (a = i)) as [->|Ha]; [rewrite decide_True by tauto; apply Hout|].
    rewrite decide_False by tauto. apply Hkeep1. by intros c _ [= ? ?].
Qed.
End adjacency.

(** ** Nodes and names *)

Section names.
Context {JO : JsonOps} {MDI : MetaDataI}.
Implicit Types ns : list (option CgNode).

(** The live nodes called [f], in the order of their identifiers. *)
Definition ids_named ns (f : string) : list NodeId :=
  filter (λ i, option_map functionName (mjoin (ns !! i)) = Some f) (seq 0 (length ns)).

Definition erased ns : nat := length (filter (λ o, o = None) ns).

Lemma mjoin_Some {A} (o : option (option A)) a : mjoin o = Some a ↔ o = Some (Some a).
Proof. destruct o as [[|]|]; naive_solver. Qed.

Lemma node_at_Some (g : Callgraph) i n : node_at g i = Some n ↔ nodes g !! i = Some (Some n).
Proof. apply mjoin_Some. Qed.

Lemma elem_of_ids_named ns f i :
  i ∈ ids_named ns f ↔ ∃ n, ns !! i = Some (Some n) ∧ functionName n = f.
Proof.
  unfold ids_named. rewrite list_elem_of_filter, elem_of_seq. split.
  - intros [Hn _]. destruct (ns !! i) as [[n|]|]; naive_solver.
  - intros (n & Hn & Hf). rewrite Hn. simpl. split; [congruence|].
    apply lookup_lt_Some in Hn. lia.
Qed.

Lemma ids_named_NoDup ns f : NoDup (ids_named ns f).
Proof. apply NoDup_filter, NoDup_seq. Qed.

Lemma ids_named_app ns n f :
  ids_named (ns ++ [Some n]) f =
  ids_named ns f ++ (if decide (functionName n = f) then [length ns] else []).
Proof.
  unfold ids_named. rewrite length_app. simpl. rewrite Nat.add_1_r, seq_S, filter_app.
  f_equal.
  - apply filter_iff_in. intros i [_ Hi]%elem_of_seq.
    rewrite lookup_app_l by lia. done.
  - rewrite filter_cons, filter_nil. rewrite list_lookup_middle by done. simpl.
    do 2 case_decide; naive_solver.
Qed.

Lemma erase_find_filter {A} `{EqDecision A} (P Q : A → Prop) `{∀ x, Decision (P x)}
    `{∀ x, Decision (Q x)} i (l : list A) :
  NoDup l → i ∈ l → P i → (∀ j, j ∈ l → Q j ↔ P j ∧ j ≠ i) →
  erase_find i (filter P l) ⇓ filter Q l.
Proof.
  induction l as [|j l IH]; intros Hnd Hi HP HQ; [by apply elem_of_nil in Hi|].
  apply NoDup_cons in Hnd as [Hj Hnd].
  assert (∀ j', j' ∈ l → Q j' ↔ P j' ∧ j' ≠ i) as HQ' by (intros; apply HQ; set_solver).
  pose proof (HQ j ltac:(set_solver)) as HQj.
  destruct (decide (j = i)) as [->|Hne].
  - rewrite (filter_cons_True _ _ _ HP), filter_cons_False by naive_solver. simpl.
    rewrite decide_True by done. f_equal. apply filter_iff_in. intros j' Hj'. rewrite HQ' by done.
    split; [intros ?; split; [done|by intros ->]|tauto].
  - assert (i ∈ l) as Hil by set_solver. specialize (IH Hnd Hil HP HQ').
    destruct (decide (P j)) as [HPj|HPj].
    + rewrite (filter_cons_True _ _ _ HPj), filter_cons_True by naive_solver. simpl.
      rewrite decide_False by done. by rewrite IH.
    + rewrite (filter_cons_False _ _ _ HPj), filter_cons_False by naive_solver. done.
Qed.

Lemma ids_named_erase ns i n :
  ns !! i = Some (Some n) →
  erase_find i (ids_named ns (functionName n)) ⇓ ids_named (<[i := None]> ns) (functionName n).
Proof.
  intros Hn. unfold ids_named. rewrite length_insert.
  pose proof (lookup_lt_Some _ _ _ Hn) as Hlt.
  apply erase_find_filter; [apply NoDup_seq|apply elem_of_seq; lia|by rewrite Hn|].
  intros j _. destruct (decide (j = i)) as [->|Hne].
  - rewrite list_lookup_insert_eq by done. simpl. naive_solver.
  - rewrite list_lookup_insert_ne by done. naive_solver.
Qed.

Lemma ids_named_ext ns ns' f :
  length ns = length ns' →
  (∀ i, option_map functionName (mjoin (ns !! i)) = Some f ↔
        option_map functionName (mjoin (ns' !! i)) = Some f) →
  ids_named ns f = ids_named ns' f.
Proof.
  intros Hl Hf. unfold ids_named. rewrite Hl. apply list_filter_iff.
  intros i. apply Hf.
Qed.

Lemma ids_named_erase_ne ns i n f :
  ns !! i = Some (Some n) → functionName n ≠ f →
  ids_named (<[i := None]> ns) f = ids_named ns f.
Proof.
  intros Hn Hf. apply ids_named_ext; [apply length_insert|]. intros j.
  destruct (decide (j = i)) as [->|Hne].
  - rewrite list_lookup_insert_eq by (by eapply lookup_lt_Some). rewrite Hn. simpl. naive_solver.
  - by rewrite list_lookup_insert_ne.
Qed.

Lemma erased_app ns n : erased (ns ++ [Some n]) = erased ns.
Proof. unfold erased. rewrite filter_app, length_app. simpl. lia. Qed.

Lemma erased_le ns : erased ns ≤ length ns.
Proof. apply length_filter. Qed.

Lemma erased_insert ns i n :
  ns !! i = Some (Some n) → erased (<[i := None]> ns) = S (erased ns).
Proof.
  unfold erased. revert i. induction ns as [|o ns IH]; intros [|i] Hi; simplify_eq/=; [done|].
  rewrite !filter_cons. case_decide; simpl; by rewrite (IH i).
Qed.

Lemma erased_update ns ns' :
  Forall2 (λ o o', o = None ↔ o' = None) ns ns' → erased ns = erased ns'.
Proof.
  unfold erased. induction 1 as [|o o' ns ns' Ho _ IH]; [done|].
  rewrite !filter_cons. do 2 case_decide; simpl; naive_solver.
Qed.
End names.

(** ** The invariant *)

Section wf.
Context {JO : JsonOps} {MDI : MetaDataI}.
Implicit Types g : Callgraph.

Abbreviation live g i := (is_Some (node_at g i)).

Record wf g : Prop := {
  (** a node knows its index, and its address is that of this slot *)
  wf_ids : ∀ i n, node_at g i = Some n → node_id n = i ∧ node_addr n = (uid g, i);
  (** the name index lists exactly the live nodes with a name, in order *)
  wf_names : ∀ f, entry (nameIdMap g) f = ids_named (nodes g) f;
  (** edges and adjacency lists agree *)
  wf_adj : adj_ok (edges g) (callerList g) (calleeList g);
  (** edges only connect live nodes *)
  wf_edges : ∀ i j, is_Some (edges g !! (i, j)) → live g i ∧ live g j;
  (** the cached main function is live *)
  wf_main : ∀ i, mainNode g = Some i → live g i;
  wf_erased : numErased g = erased (nodes g);
  (** without the flag, names are unique *)
  wf_dup : hasDuplicates g = false → ∀ f, length (ids_named (nodes g) f) ≤ 1
}.

Lemma wf_new u : wf (Callgraph_new u).
Proof.
  split; simpl; [|done|split; apply half_ok_empty|..|done|done|by simpl; lia].
  - by intros i n ?%node_at_Some.
  - intros i j [? ?]. by rewrite lookup_empty in *.
Qed.

(** *** Look-ups *)

Lemma node_at_lt g i n : node_at g i = Some n → i < length (nodes g).
Proof. intros ?%node_at_Some. by eapply lookup_lt_Some. Qed.

Lemma live_lt g i : live g i → i < length (nodes g).
Proof. intros [n Hn]. by eapply node_at_lt. Qed.

Lemma hasNode_id_spec g i : hasNode_id g i = bool_decide (live g i).
Proof.
  unfold hasNode_id. destruct (decide (live g i)) as [Hl|Hl].
  - rewrite !bool_decide_true; [done|done|by apply live_lt].
  - by rewrite (bool_decide_false _ Hl), andb_false_r.
Qed.

Lemma getNode_live g i n : node_at g i = Some n → getNode g i ⇓ Some n.
Proof.
  intros Hn. unfold getNode. pose proof (node_at_lt _ _ _ Hn).
  rewrite decide_False by lia. apply node_at_Some in Hn. by rewrite Hn.
Qed.

Lemma getNode_ret g i : i ≠ length (nodes g) → getNode g i ⇓ node_at g i.
Proof.
  intros Hi. unfold getNode, node_at. case_decide.
  - by rewrite (proj2 (lookup_ge_None (nodes g) i)) by lia.
  - destruct (lookup_lt_is_Some_2 (nodes g) i) as [o Ho]; [lia|]. by rewrite Ho.
Qed.

Lemma getNode_end g : getNode g (length (nodes g)) = Throw out_of_range.
Proof.
  unfold getNode. rewrite decide_False by lia.
  by rewrite (proj2 (lookup_ge_None (nodes g) _)) by lia.
Qed.

Lemma getNodes_name_entry g f : getNodes_name g f = entry (nameIdMap g) f.
Proof. unfold getNodes_name, entry. by destruct (nameIdMap g !! f). Qed.

Lemma elem_of_getNodes_name g f i :
  wf g → i ∈ getNodes_name g f ↔ ∃ n, node_at g i = Some n ∧ functionName n = f.
Proof.
  intros Hwf. rewrite getNodes_name_entry, (wf_names _ Hwf), elem_of_ids_named.
  by setoid_rewrite <- node_at_Some.
Qed.

Lemma getFirstNode_ret g f :
  wf g → getFirstNode g f ⇓ (head (ids_named (nodes g) f) ≫= node_at g).
Proof.
  intros Hwf. unfold getFirstNode. pose proof (wf_names _ Hwf f) as Hf. unfold entry in Hf.
  destruct (nameIdMap g !! f) as [l|]; simpl in Hf; subst; [|by rewrite <- Hf].
  destruct (ids_named (nodes g) f) as [|i l] eqn:Hl; [done|]. simpl.
  assert (i ∈ ids_named (nodes g) f) as Hi by (rewrite Hl; set_solver).
  apply elem_of_ids_named in Hi as (n & Hn & _). apply node_at_Some in Hn.
  by rewrite (getNode_live _ _ _ Hn), Hn.
Qed.

Lemma ids_named_live g f i : i ∈ ids_named (nodes g) f → live g i.
Proof. intros (n & Hn & _)%elem_of_ids_named. exists n. by apply node_at_Some. Qed.

Lemma getFirstNode_id g f :
  wf g → ∃ o, getFirstNode g f ⇓ o ∧ option_map node_id o = head (ids_named (nodes g) f) ∧
              ∀ n, o = Some n → node_at g (node_id n) = Some n.
Proof.
  intros Hwf. rewrite getFirstNode_ret by done. eexists. split; [done|].
  destruct (ids_named (nodes g) f) as [|i l] eqn:Hl; [done|]. simpl.
  destruct (ids_named_live g f i) as [n Hn]; [rewrite Hl; set_solver|]. rewrite Hn. simpl.
  destruct (wf_ids _ Hwf _ _ Hn) as [<- _]. naive_solver.
Qed.

Lemma hasNode_ref_live g i n : wf g → node_at g i = Some n → hasNode_ref g n = true.
Proof.
  intros Hwf Hn. unfold hasNode_ref. destruct (wf_ids _ Hwf _ _ Hn) as [-> _].
  rewrite decide_False by (apply node_at_lt in Hn; lia). rewrite Hn.
  by apply bool_decide_eq_true.
Qed.

(** *** Edges *)

Lemma callees_spec g i j : wf g → j ∈ entry (calleeList g) i ↔ is_Some (edges g !! (i, j)).
Proof. intros Hwf. apply (proj1 (proj2 (wf_adj _ Hwf)) j i). Qed.

Lemma callers_spec g i j : wf g → i ∈ entry (callerList g) j ↔ is_Some (edges g !! (i, j)).
Proof. intros Hwf. apply (proj1 (proj1 (wf_adj _ Hwf)) i j). Qed.

Lemma pointer_set_ret g l :
  wf g → (∀ i, i ∈ l → live g i) →
  ∃ S, pointer_set g l ⇓ S ∧ ∀ p, p ∈ S ↔ ∃ i, p = Some i ∧ i ∈ l.
Proof.
  intros Hwf Hl. unfold pointer_set.
  apply (foldM_ind (λ dn S, ∀ p, p ∈ S ↔ ∃ i, p = Some i ∧ i ∈ dn)).
  - intros p. set_solver.
  - intros dn i rest S -> HS. destruct (Hl i) as [n Hn]; [set_solver|].
    destruct (wf_ids _ Hwf _ _ Hn) as [Hid _]. apply node_at_Some in Hn. rewrite Hn.
    eexists. split; [done|]. simpl. rewrite Hid. intros p.
    rewrite elem_of_union, elem_of_singleton, HS. set_solver.
Qed.

Lemma getCallees_ret g i :
  wf g → ∃ S, getCallees g i ⇓ S ∧ ∀ p, p ∈ S ↔ ∃ j, p = Some j ∧ is_Some (edges g !! (i, j)).
Proof.
  intros Hwf. unfold getCallees.
  destruct (pointer_set_ret g (entry (calleeList g) i) Hwf) as (S & HS & Hin).
  { intros j Hj. apply (callees_spec g i j Hwf) in Hj. by apply (wf_edges _ Hwf) in Hj as [? ?]. }
  setoid_rewrite (callees_spec g i) in Hin; [|done]. unfold entry in *.
  destruct (calleeList g !! i); [by exists S|]. cbn in HS. injection HS as <-. by exists ∅.
Qed.

Lemma getCallers_ret g i :
  wf g → ∃ S, getCallers g i ⇓ S ∧ ∀ p, p ∈ S ↔ ∃ j, p = Some j ∧ is_Some (edges g !! (j, i)).
Proof.
  intros Hwf. unfold getCallers.
  destruct (pointer_set_ret g (entry (callerList g) i) Hwf) as (S & HS & Hin).
  { intros j Hj. apply (callers_spec g j i Hwf) in Hj. by apply (wf_edges _ Hwf) in Hj as [? ?]. }
  assert (∀ p, p ∈ S ↔ ∃ j, p = Some j ∧ is_Some (edges g !! (j, i))) as Hin'.
  { intros p. rewrite Hin. by setoid_rewrite (callers_spec g _ i Hwf). }
  unfold entry in *.
  destruct (callerList g !! i); [by exists S|]. cbn in HS. injection HS as <-. by exists ∅.
Qed.
End wf.

Abbreviation live g i := (is_Some (node_at g i)).
