(* ===== verification/CallgraphOps.v ===== *)
(** * The call graph: effect of the operations

    For every operation of [Callgraph] that changes the graph: it returns, it
    keeps the invariant [wf], and what it does to the nodes and edges. *)

From S2P Require Import Prelude Json MetaData Callgraph CallgraphWf.

Section ops.
Context {JO : JsonOps} {MDI : MetaDataI}.
Implicit Types g : Callgraph.

(** ** Building the invariant of a changed graph *)

(** A change of the nodes that keeps identifiers, addresses and names. *)
Definition same_slot (o o' : option CgNode) : Prop :=
  match o, o' with
  | None, None => True
  | Some n, Some n' => node_id n' = node_id n ∧ node_addr n' = node_addr n ∧
                       functionName n' = functionName n
  | _, _ => False
  end.

Lemma same_slots_refl ns : Forall2 same_slot ns ns.
Proof. apply Forall_Forall2_diag, Forall_forall. by intros [?|] _. Qed.

Lemma wf_same_nodes g g' :
  wf g →
  uid g' = uid g → nameIdMap g' = nameIdMap g →
  Forall2 same_slot (nodes g) (nodes g') →
  adj_ok (edges g') (callerList g') (calleeList g') →
  (∀ p, is_Some (edges g' !! p) → live g p.1 ∧ live g p.2) →
  (∀ i, mainNode g' = Some i → live g i) →
  numErased g' = numErased g → hasDuplicates g' = hasDuplicates g →
  wf g' ∧ (∀ i, live g' i ↔ live g i).
Proof.
  intros Hwf Hu Hn Hns Hadj Hes Hm He Hd.
  assert (∀ i n', node_at g' i = Some n' → ∃ n, node_at g i = Some n ∧
            node_id n' = node_id n ∧ node_addr n' = node_addr n ∧
            functionName n' = functionName n) as Hback.
  { intros i n' Hi%node_at_Some. destruct (Forall2_lookup_r same_slot _ _ _ _ Hns Hi) as ([n|] & Ho & HR);
      [|done]. exists n. by rewrite node_at_Some. }
  assert (∀ i, live g' i ↔ live g i) as Hlive.
  { intros i. split.
    - intros [n' Hn']. destruct (Hback _ _ Hn') as (n & ? & _). by exists n.
    - intros [n Hi%node_at_Some].
      destruct (Forall2_lookup_l same_slot _ _ _ _ Hns Hi) as ([n'|] & Ho & HR); [|done].
      exists n'. by apply node_at_Some. }
  assert (∀ f, ids_named (nodes g') f = ids_named (nodes g) f) as Hids.
  { intros f. apply ids_named_ext; [symmetry; by eapply Forall2_length|]. intros i.
    pose proof (proj1 (Forall2_lookup same_slot (nodes g) (nodes g')) Hns i) as Hi.
    inversion Hi as [o o' HR|]; simpl; [|done].
    destruct o, o'; simpl; try done. destruct HR as (_ & _ & ->). done. }
  split; [|done]. split.
  - intros i n' Hn'. destruct (Hback _ _ Hn') as (n & Hi & -> & -> & _).
    rewrite Hu. by apply (wf_ids _ Hwf).
  - intros f. rewrite Hn, Hids. by apply wf_names.
  - done.
  - intros i j Hij. rewrite !Hlive. by apply (Hes (i, j)).
  - intros i Hi. rewrite Hlive. by apply Hm.
  - rewrite He, (wf_erased _ Hwf). apply erased_update.
    eapply Forall2_impl; [exact Hns|]. intros [?|] [?|]; naive_solver.
  - intros Hdup f. rewrite Hids. apply wf_dup; [done|congruence].
Qed.

(** The same nodes, other edges. *)
Lemma wf_set_adjacency g es cr ce :
  wf g → adj_ok es cr ce → (∀ p, is_Some (es !! p) → live g p.1 ∧ live g p.2) →
  wf (set_adjacency g es cr ce).
Proof.
  intros Hwf Hadj Hes. eapply (wf_same_nodes g); try done.
  - apply same_slots_refl.
  - apply Hwf.
Qed.

Lemma wf_set_main g m : wf g → (∀ i, m = Some i → live g i) → wf (set_main g m).
Proof.
  intros Hwf Hm. eapply (wf_same_nodes g); try done.
  - apply same_slots_refl.
  - apply Hwf.
  - intros [i j]. apply (wf_edges _ Hwf).
Qed.

Lemma wf_set_cg_md g m : wf g → wf (set_cg_md g m).
Proof.
  intros Hwf. eapply (wf_same_nodes g); try done.
  - apply same_slots_refl.
  - apply Hwf.
  - intros [i j]. apply (wf_edges _ Hwf).
  - apply Hwf.
Qed.

(** ** Nodes *)

(** A change of a node that keeps what the graph relies on. *)
Definition keeps_identity (f : CgNode → CgNode) : Prop :=
  ∀ n, node_id (f n) = node_id n ∧ node_addr (f n) = node_addr n ∧
       functionName (f n) = functionName n.

Lemma setHasBody_identity b : keeps_identity (setHasBody b).
Proof. by intros n. Qed.
Lemma setOrigin_identity o : keeps_identity (setOrigin o).
Proof. by intros n. Qed.
Lemma setVirtual_identity b : keeps_identity (setVirtual b).
Proof. by intros n; destruct b. Qed.
Lemma addMetaData_identity md : keeps_identity (CgNode_addMetaData md).
Proof. by intros n. Qed.

Lemma update_node_wf_at g i f :
  wf g → (∀ n, node_at g i = Some n → node_id (f n) = node_id n ∧
               node_addr (f n) = node_addr n ∧ functionName (f n) = functionName n) →
  wf (update_node g i f) ∧ ∀ j, live (update_node g i f) j ↔ live g j.
Proof.
  intros Hwf Hf. apply wf_same_nodes; try done.
  - simpl. apply Forall2_same_length_lookup. rewrite length_alter. split; [done|].
    intros j o o' Ho Ho'. destruct (decide (i = j)) as [->|Hne].
    + rewrite list_lookup_alter_eq, Ho in Ho'. simplify_eq/=.
      destruct o as [n|]; simpl; [|done]. apply Hf. by apply node_at_Some.
    + rewrite list_lookup_alter_ne, Ho in Ho' by done. simplify_eq. by destruct o'.
  - apply Hwf.
  - intros [a b]. apply (wf_edges _ Hwf).
  - apply Hwf.
Qed.

Lemma update_node_wf g i f :
  wf g → keeps_identity f → wf (update_node g i f) ∧ ∀ j, live (update_node g i f) j ↔ live g j.
Proof. intros Hwf Hf. apply update_node_wf_at; [done|]. intros n _. apply Hf. Qed.

Lemma update_node_at g i f j :
  node_at (update_node g i f) j = if decide (i = j) then f <$> node_at g j else node_at g j.
Proof.
  unfold node_at, update_node. simpl. case_decide; subst.
  - rewrite list_lookup_alter_eq. by destruct (nodes g !! j) as [[]|].
  - by rewrite list_lookup_alter_ne.
Qed.

Lemma CgNode_new_fields i a f o v b :
  let n := CgNode_new i a f o v b in
  node_id n = i ∧ node_addr n = a ∧ functionName n = f ∧ origin n = o ∧ hasBody n = b ∧
  isVirtual n = v.
Proof.
  destruct v; simpl; split_and!; try done; apply (setVirtual_isVirtual true) ||
    apply (setVirtual_isVirtual false (mkCgNode i a f o b ∅)).
Qed.

Lemma insert_node_ret g f o v b :
  wf g → f ≠ "" →
  ∃ g', insert_node g f o v b ⇓ (g', length (nodes g)) ∧ wf g' ∧
    length (nodes g') = S (length (nodes g)) ∧
    (∀ j, node_at g' j =
       if decide (j = length (nodes g))
       then Some (CgNode_new (length (nodes g)) (uid g, length (nodes g)) f o v b)
       else node_at g j) ∧
    edges g' = edges g ∧ mainNode g' = mainNode g ∧ cg_md g' = cg_md g ∧ uid g' = uid g ∧
    hasDuplicates g' = hasDuplicates g || negb (bool_decide (ids_named (nodes g) f = [])).
Proof.
  intros Hwf Hf. unfold insert_node, cpp_assert. rewrite (bool_decide_true (f ≠ "")) by done. cbn.
  set (n := CgNode_new _ _ _ _ _ _).
  pose proof (CgNode_new_fields (length (nodes g)) (uid g, length (nodes g)) f o v b)
    as (Hid & Haddr & Hname & _). fold n in Hid, Haddr, Hname. clearbody n.
  eexists. split; [done|].
  match goal with |- wf ?G ∧ _ => set (g' := G) end.
  assert (∀ j, node_at g' j = if decide (j = length (nodes g)) then Some n else node_at g j) as Hat.
  { intros j. unfold node_at, g'. simpl. case_decide as Hj; [rewrite Hj; by rewrite list_lookup_middle|].
    destruct (decide (j < length (nodes g))); [by rewrite lookup_app_l|].
    rewrite lookup_ge_None_2 by (rewrite length_app; simpl; lia).
    by rewrite lookup_ge_None_2 by lia. }
  assert (∀ j, live g j → live g' j) as Hlive.
  { intros j Hj. rewrite Hat. by case_decide. }
  split_and!; [|by unfold g'; simpl; rewrite length_app; simpl; lia|exact Hat|done|done|done|done|].
  - split; [..|by apply Hwf| | | |].
    + intros j m. rewrite Hat. case_decide; [|apply (wf_ids _ Hwf)]. intros [= <-]. subst. by split.
    + intros f'. simpl. rewrite entry_insert, ids_named_app, !(wf_names _ Hwf), Hname.
      case_decide; subst; [done|by rewrite app_nil_r].
    + intros i j Hij. apply (wf_edges _ Hwf) in Hij as [??]. split; by apply Hlive.
    + intros i Hi. by apply Hlive, (wf_main _ Hwf).
    + simpl. rewrite erased_app. apply Hwf.
    + simpl. intros [Hd Hn]%orb_false_iff f'. rewrite ids_named_app, length_app, Hname.
      pose proof (wf_dup _ Hwf Hd f'). case_decide; simpl; [|lia]. subst f'.
      apply negb_false_iff, bool_decide_eq_true in Hn. rewrite (wf_names _ Hwf) in Hn.
      rewrite Hn. simpl. lia.
  - simpl. by rewrite (wf_names _ Hwf).
Qed.

Lemma clear_wf g : wf (clear g).
Proof.
  split; simpl; [|done|split; apply half_ok_empty|..|done|done|by simpl; lia].
  - by intros i n ?%node_at_Some.
  - intros i j [? ?]. by rewrite lookup_empty in *.
Qed.

(** What [erase] does to the metadata of the graph. *)
Definition erase_md g (i : NodeId) : NamedMetadata :=
  if bool_decide (mainNode g = Some i) then
    match cg_md g !! EntryFunctionMD_key with
    | Some md => if decide (md_getEntryFunctionId md = Some i)
                 then delete EntryFunctionMD_key (cg_md g) else cg_md g
    | None => cg_md g
    end
  else cg_md g.

Lemma erase_node_absent g i : ¬ live g i → erase_node g i ⇓ (g, false).
Proof.
  intros Hi. unfold erase_node. by rewrite hasNode_id_spec, bool_decide_false.
Qed.

Lemma erase_node_ret g i :
  wf g → live g i →
  ∃ g', erase_node g i ⇓ (g', true) ∧ wf g' ∧
    length (nodes g') = length (nodes g) ∧
    (∀ j, node_at g' j = if decide (j = i) then None else node_at g j) ∧
    (∀ p, edges g' !! p = if decide (p.1 = i ∨ p.2 = i) then None else edges g !! p) ∧
    mainNode g' = (if bool_decide (mainNode g = Some i) then None else mainNode g) ∧
    cg_md g' = erase_md g i ∧ uid g' = uid g ∧ hasDuplicates g' = hasDuplicates g.
Proof.
  intros Hwf Hi. pose proof (live_lt _ _ Hi) as Hlt. destruct Hi as [n Hn].
  destruct (detach_node i (edges g) (callerList g) (calleeList g) (wf_adj _ Hwf))
    as (es1 & cr1 & es2 & ce2 & Hrun1 & Hrun2 & Hadj & Hes).
  unfold erase_node. rewrite hasNode_id_spec, bool_decide_true by eauto. cbn [negb].
  rewrite Hrun1, bind_ret. cbn [fst snd]. rewrite Hrun2, bind_ret, Hn. cbn [fst snd].
  cbn [cpp_assert deref]. rewrite !bind_ret.
  pose proof (proj1 (node_at_Some _ _ _) Hn) as Hn'.
  rewrite (wf_names _ Hwf), (ids_named_erase _ _ _ Hn'), bind_ret.
  eexists. split; [done|].
  match goal with |- wf ?G ∧ _ => set (g' := G) end.
  assert (∀ j, node_at g' j = if decide (j = i) then None else node_at g j) as Hat.
  { intros j. unfold node_at, g'. simpl. case_decide; subst.
    - by rewrite list_lookup_insert_eq.
    - by rewrite list_lookup_insert_ne. }
  split_and!; [|by unfold g'; simpl; rewrite length_insert|done|done|done|done|done|done].
  split; [..|done| | | |].
  - intros j m. rewrite Hat. case_decide; [done|]. apply (wf_ids _ Hwf).
  - intros f. simpl. rewrite entry_insert. case_decide; subst; [done|].
    rewrite (wf_names _ Hwf). by rewrite (ids_named_erase_ne _ _ n).
  - intros a b. simpl. rewrite Hes. case_decide as Hab; [by intros [? ?]|].
    simpl in Hab. intros [??]%(wf_edges _ Hwf). rewrite !Hat, !decide_False by tauto. done.
  - intros j. simpl. rewrite Hat. case_bool_decide as Hmain; [done|].
    intros Hj. rewrite decide_False by congruence. by apply (wf_main _ Hwf).
  - simpl. by rewrite (erased_insert _ _ n), (wf_erased _ Hwf).
  - simpl. intros Hd f. pose proof (wf_dup _ Hwf Hd f) as Hle.
    destruct (decide (functionName n = f)) as [<-|Hne].
    + pose proof (ids_named_erase _ _ _ Hn') as He. apply erase_find_sublist in He.
      apply sublist_length in He. lia.
    + by rewrite (ids_named_erase_ne _ _ n).
Qed.

(** ** Edges *)

Lemma addEdge_ret g i j :
  wf g → i ≠ length (nodes g) → (live g i → j ≠ length (nodes g)) →
  ∃ g', addEdge g i j ⇓ (g', hasNode_id g i && hasNode_id g j && negb (existsEdge g i j)) ∧
    wf g' ∧ nodes g' = nodes g ∧ mainNode g' = mainNode g ∧ cg_md g' = cg_md g ∧
    uid g' = uid g ∧ hasDuplicates g' = hasDuplicates g ∧
    edges g' = if hasNode_id g i && hasNode_id g j && negb (existsEdge g i j)
               then <[(i, j) := ∅]> (edges g) else edges g.
Proof.
  intros Hwf Hi Hj. unfold addEdge. rewrite (getNode_ret g i) by done. cbn. rewrite !hasNode_id_spec.
  destruct (node_at g i) as [n|] eqn:Hn; [|by exists g].
  rewrite (bool_decide_true (is_Some (Some n))) by eauto.
  rewrite (getNode_ret g j) by eauto. cbn. destruct (node_at g j) as [m|] eqn:Hm; [|by exists g].
  rewrite (bool_decide_true (is_Some (Some m))) by eauto. unfold addEdgeInternal, existsEdge.
  destruct (edges g !! (i, j)) as [md|] eqn:He.
  - rewrite (getNode_live _ _ _ Hn), (getNode_live _ _ _ Hm). cbn. by exists g.
  - cbn. eexists. split; [done|]. split; [|done]. apply wf_set_adjacency; [done|..].
    + apply adj_ok_add; [done|apply Hwf].
    + intros [a b] [[= <- <-]|Hab]%lookup_insert_is_Some'; simpl.
      * rewrite Hn, Hm. eauto.
      * by apply (wf_edges _ Hwf).
Qed.

Lemma removeEdge_ret g i j :
  wf g →
  ∃ g', removeEdge g i j ⇓ (g', existsEdge g i j) ∧
    wf g' ∧ nodes g' = nodes g ∧ mainNode g' = mainNode g ∧ cg_md g' = cg_md g ∧
    uid g' = uid g ∧ hasDuplicates g' = hasDuplicates g ∧ edges g' = delete (i, j) (edges g).
Proof.
  intros Hwf. unfold removeEdge, existsEdge.
  destruct (edges g !! (i, j)) as [md|] eqn:He.
  - destruct (adj_ok_remove (edges g) (callerList g) (calleeList g) i j)
      as (lr & le & Hlr & Hle & Hadj); [by eexists|apply Hwf|].
    rewrite Hle, bind_ret, Hlr, bind_ret. eexists. split; [done|]. split; [|done].
    apply wf_set_adjacency; [done|done|].
    intros [a b] [_ Hab]%lookup_delete_is_Some. by apply (wf_edges _ Hwf).
  - exists g. rewrite delete_id by done. by split_and!.
Qed.

Lemma addEdgeMetaData_wf g ids k md :
  wf g →
  let r := addEdgeMetaData g ids k md in
  wf r.1 ∧ r.2 = bool_decide (is_Some (edges g !! ids)) ∧ nodes r.1 = nodes g ∧
  mainNode r.1 = mainNode g ∧ cg_md r.1 = cg_md g ∧ uid r.1 = uid g ∧
  hasDuplicates r.1 = hasDuplicates g ∧
  edges r.1 = alter (λ m, <[k := md]> m) ids (edges g).
Proof.
  intros Hwf. unfold addEdgeMetaData. destruct (edges g !! ids) as [m|] eqn:Hm; simpl.
  - split_and!; try done.
    + assert (∀ p, is_Some (<[ids:=<[k:=md]> m]> (edges g) !! p) ↔ is_Some (edges g !! p)) as Hdom.
      { intros p. rewrite lookup_insert_is_Some'. split; [|tauto].
        intros [<-|?]; [by eexists|done]. }
      apply wf_set_adjacency; [done|..].
      * destruct (wf_adj _ Hwf) as [H1 H2].
        split; (eapply half_ok_dom; [|done]); intros; by rewrite Hdom.
      * intros [a b]. rewrite Hdom. apply (wf_edges _ Hwf).
    + apply map_eq. intros p. rewrite lookup_insert, lookup_alter. case_decide; subst; [|done].
      by rewrite Hm.
  - split_and!; try done. apply map_eq. intros p. rewrite lookup_alter.
    case_decide; subst; [|done]. by rewrite Hm.
Qed.

(** ** Graphs without edge metadata *)

Definition edge_md_free (g : Callgraph) : Prop := ∀ p m, edges g !! p = Some m → m = ∅.

Lemma edge_md_free_eq g g' : edges g' = edges g → edge_md_free g → edge_md_free g'.
Proof. unfold edge_md_free. by intros ->. Qed.

Lemma addEdge_md_free g i j p : addEdge g i j ⇓ p → edge_md_free g → edge_md_free p.1.
Proof.
  unfold addEdge, addEdgeInternal. intros Hr Hg.
  apply bind_ret_inv in Hr as ([n|] & _ & Hr); [|by injection Hr as <-].
  apply bind_ret_inv in Hr as ([m|] & _ & Hr); [|by injection Hr as <-].
  destruct (edges g !! (i, j)) as [md|].
  - repeat (apply bind_ret_inv in Hr as (? & _ & Hr)). by injection Hr as <-.
  - injection Hr as <-. intros q md'. cbn [fst set_adjacency edges]. intros [[_ <-]|[_ ?]]%lookup_insert_Some; [done|by eapply Hg].
Qed.

End ops.

#[export] Hint Resolve wf_set_main wf_set_cg_md clear_wf wf_new setHasBody_identity
  setOrigin_identity setVirtual_identity addMetaData_identity : metacg.
