(* ===== verification/CallgraphSpec.v ===== *)
(** * The call graph: abstract specification and refinement

    What [Callgraph] promises, without its index structures: a finite map of
    nodes, a finite map of edges with their metadata, and the next identifier.
    [graph_refines] shows that the operations of the class implement it. *)

From S2P Require Import Prelude Json MetaData Callgraph CallgraphWf CallgraphOps.

Section spec.
Context {JO : JsonOps} {MDI : MetaDataI}.

(** ** Abstract graphs *)

Record Graph := mkGraph {
  a_uid : nat;
  a_next : nat;
  a_nodes : gmap NodeId CgNode;
  a_edges : gmap (NodeId * NodeId) NamedMetadata;
  a_main : option NodeId;
  a_dup : bool;
  a_md : NamedMetadata
}.

(** The abstract graph that a concrete one represents. *)
Definition abs (g : Callgraph) : Graph := {|
  a_uid := uid g;
  a_next := length (nodes g);
  a_nodes := omap (λ o, o) (map_seq 0 (nodes g) : gmap NodeId (option CgNode));
  a_edges := edges g;
  a_main := mainNode g;
  a_dup := hasDuplicates g;
  a_md := cg_md g
|}.

(** The nodes with a name, by increasing identifier. *)
Definition a_named (a : Graph) (f : string) : list NodeId :=
  filter (λ i, option_map functionName (a_nodes a !! i) = Some f) (seq 0 (a_next a)).

(** ** The operations *)

Inductive NodeUpdate :=
  | SetHasBody (b : bool)
  | SetOrigin (o : option string)
  | SetVirtual (b : bool)
  | AddMetaData (md : MD).

Definition apply_update (u : NodeUpdate) : CgNode → CgNode :=
  match u with
  | SetHasBody b => setHasBody b
  | SetOrigin o => setOrigin o
  | SetVirtual b => setVirtual b
  | AddMetaData md => CgNode_addMetaData md
  end.

Inductive op :=
  | OInsert (function : string) (orig : option string) (isVirt body : bool)
  | OGetOrInsert (function : string) (orig : option string) (isVirt body : bool)
  | OErase (i : NodeId)
  | OClear
  | OAddEdge (i j : NodeId)
  | OAddEdgeName (caller callee : string)
  | ORemoveEdge (i j : NodeId)
  | ORemoveEdgeName (caller callee : string)
  | OAddEdgeMetaData (ids : NodeId * NodeId) (T_key : string) (md : MD)
  | OAddMetaData (md : MD)
  | OUpdateNode (i : NodeId) (u : NodeUpdate)
  | OGetMain (forceRecompute : bool).

Inductive result :=
  | RId (i : NodeId)
  | RBool (b : bool)
  | RMain (m : option NodeId)
  | RUnit.

Definition lift {A} (r : A → result) (x : outcome (Callgraph * A))
    : outcome (Callgraph * result) :=
  p ← x; Ret (p.1, r p.2).

(** The code. *)
Definition run (o : op) (g : Callgraph) : outcome (Callgraph * result) :=
  match o with
  | OInsert f orig v b => lift RId (insert_node g f orig v b)
  | OGetOrInsert f orig v b => lift RId (getOrInsertNode g f orig v b)
  | OErase i => lift RBool (erase_node g i)
  | OClear => Ret (clear g, RUnit)
  | OAddEdge i j => lift RBool (addEdge g i j)
  | OAddEdgeName s t => lift RBool (addEdge_name g s t)
  | ORemoveEdge i j => lift RBool (removeEdge g i j)
  | ORemoveEdgeName s t => lift RBool (removeEdge_name g s t)
  | OAddEdgeMetaData ids k md => lift RBool (Ret (addEdgeMetaData g ids k md))
  | OAddMetaData md => Ret (set_cg_md g (addMetaData (cg_md g) md), RUnit)
  | OUpdateNode i u => Ret (update_node g i (apply_update u), RUnit)
  | OGetMain force => lift RMain (getMain g force)
  end.

(** The specification of each operation. *)
Definition spec_insert (a : Graph) f orig v b : Graph * NodeId :=
  ({| a_uid := a_uid a; a_next := S (a_next a);
      a_nodes := <[a_next a := CgNode_new (a_next a) (a_uid a, a_next a) f orig v b]> (a_nodes a);
      a_edges := a_edges a; a_main := a_main a;
      a_dup := a_dup a || negb (bool_decide (a_named a f = [])); a_md := a_md a |}, a_next a).

Definition with_edges (a : Graph) es : Graph :=
  mkGraph (a_uid a) (a_next a) (a_nodes a) es (a_main a) (a_dup a) (a_md a).

Definition with_main (a : Graph) m : Graph :=
  mkGraph (a_uid a) (a_next a) (a_nodes a) (a_edges a) m (a_dup a) (a_md a).

Definition spec_erase (a : Graph) (i : NodeId) : Graph * bool :=
  match a_nodes a !! i with
  | None => (a, false)
  | Some _ =>
      (mkGraph (a_uid a) (a_next a) (delete i (a_nodes a))
         (filter (λ e, e.1.1 ≠ i ∧ e.1.2 ≠ i) (a_edges a))
         (if bool_decide (a_main a = Some i) then None else a_main a) (a_dup a)
         (if bool_decide (a_main a = Some i ∧
              (a_md a !! EntryFunctionMD_key) ≫= md_getEntryFunctionId = Some i)
          then delete EntryFunctionMD_key (a_md a) else a_md a), true)
  end.

Definition spec_addEdge (a : Graph) (i j : NodeId) : Graph * bool :=
  match a_nodes a !! i, a_nodes a !! j, a_edges a !! (i, j) with
  | Some _, Some _, None => (with_edges a (<[(i, j) := ∅]> (a_edges a)), true)
  | _, _, _ => (a, false)
  end.

Definition spec_removeEdge (a : Graph) (i j : NodeId) : Graph * bool :=
  (with_edges a (delete (i, j) (a_edges a)), bool_decide (is_Some (a_edges a !! (i, j)))).

(** An operation on two names applies if each of them is unique. *)
Definition by_name (f : Graph → NodeId → NodeId → Graph * bool) (a : Graph) (s t : string)
    : Graph * bool :=
  match a_named a s, a_named a t with
  | [i], [j] => f a i j
  | _, _ => (a, false)
  end.

(** The main function: the cached one, the entry function if it is still a
    node, or the first node with one of the known names. *)
Definition spec_find_main (a : Graph) : option NodeId :=
  let entry_md := i ← (a_md a !! EntryFunctionMD_key) ≫= md_getEntryFunctionId;
                  (if decide (is_Some (a_nodes a !! i)) then Some i else None) in
  match entry_md with
  | Some i => Some i
  | None => head (main_names ≫= a_named a)
  end.

Definition spec_getMain (a : Graph) (force : bool) : Graph * option NodeId :=
  match a_main a, force with
  | Some i, false => (a, Some i)
  | _, _ => let m := spec_find_main a in (with_main a m, m)
  end.

Definition lift_spec {A} (r : A → result) (p : Graph * A) : Graph * result := (p.1, r p.2).

Definition spec (o : op) (a : Graph) : Graph * result :=
  match o with
  | OInsert f orig v b => lift_spec RId (spec_insert a f orig v b)
  | OGetOrInsert f orig v b =>
      match head (a_named a f) with
      | Some i => (a, RId i)
      | None => lift_spec RId (spec_insert a f orig v b)
      end
  | OErase i => lift_spec RBool (spec_erase a i)
  | OClear => (mkGraph (a_uid a) 0 ∅ ∅ None false (a_md a), RUnit)
  | OAddEdge i j => lift_spec RBool (spec_addEdge a i j)
  | OAddEdgeName s t => lift_spec RBool (by_name spec_addEdge a s t)
  | ORemoveEdge i j => lift_spec RBool (spec_removeEdge a i j)
  | ORemoveEdgeName s t => lift_spec RBool (by_name spec_removeEdge a s t)
  | OAddEdgeMetaData ids k md =>
      (with_edges a (alter (λ m, <[k := md]> m) ids (a_edges a)),
       RBool (bool_decide (is_Some (a_edges a !! ids))))
  | OAddMetaData md =>
      (mkGraph (a_uid a) (a_next a) (a_nodes a) (a_edges a) (a_main a) (a_dup a)
         (<[md_getKey md := md]> (a_md a)), RUnit)
  | OUpdateNode i u =>
      (mkGraph (a_uid a) (a_next a) (alter (apply_update u) i (a_nodes a)) (a_edges a)
         (a_main a) (a_dup a) (a_md a), RUnit)
  | OGetMain force => lift_spec RMain (spec_getMain a force)
  end.

(** What a caller has to respect.  The identifier one past the end is excluded
    because [getNode] throws for it. *)
Definition pre (o : op) (a : Graph) : Prop :=
  match o with
  | OInsert f _ _ _ | OGetOrInsert f _ _ _ => f ≠ ""
  | OAddEdge i j => i ≠ a_next a ∧ j ≠ a_next a
  | OGetMain _ => (a_md a !! EntryFunctionMD_key) ≫= md_getEntryFunctionId ≠ Some (a_next a)
  | _ => True
  end.

(** ** Refinement *)

Lemma abs_nodes g i : a_nodes (abs g) !! i = node_at g i.
Proof.
  unfold abs, node_at. cbn [a_nodes]. rewrite lookup_omap, lookup_map_seq_0.
  by destruct (nodes g !! i) as [[]|].
Qed.

Lemma abs_named g f : a_named (abs g) f = ids_named (nodes g) f.
Proof.
  unfold a_named, ids_named. apply list_filter_iff. intros i. by rewrite abs_nodes.
Qed.

Lemma first_named_ret g names :
  wf g → first_named g names ⇓ head (names ≫= ids_named (nodes g)).
Proof.
  intros Hwf. induction names as [|f names IH]; [done|]. simpl.
  destruct (getFirstNode_id g f Hwf) as (o & -> & Hid & _). rewrite bind_ret. destruct o as [n|], (ids_named (nodes g) f); simplify_eq/=; done.
Qed.

Lemma entry_function_ret g :
  wf g → pre (OGetMain false) (abs g) →
  entry_function g ⇓ (i ← (cg_md g !! EntryFunctionMD_key) ≫= md_getEntryFunctionId;
                      if decide (is_Some (node_at g i)) then Some i else None).
Proof.
  intros Hwf Hpre. unfold pre in Hpre. cbn [abs a_md a_next] in Hpre.
  unfold entry_function, md_get in *.
  destruct (cg_md g !! EntryFunctionMD_key) as [md|]; [|done]. cbn in Hpre |- *.
  destruct (md_getEntryFunctionId md) as [i|]; [|done]. cbn.
  rewrite getNode_ret by congruence. cbn.
  destruct (node_at g i) as [n|] eqn:Hn; simpl; [|done].
  by destruct (wf_ids _ Hwf _ _ Hn) as [-> _].
Qed.

Lemma find_main_abs g :
  spec_find_main (abs g) =
  match (i ← (cg_md g !! EntryFunctionMD_key) ≫= md_getEntryFunctionId;
         if decide (is_Some (node_at g i)) then Some i else None) with
  | Some i => Some i
  | None => head (main_names ≫= ids_named (nodes g))
  end.
Proof.
  unfold spec_find_main. cbn [abs a_md].
  rewrite (list_bind_ext (a_named (abs g)) (ids_named (nodes g)) main_names main_names)
    by (intros; apply abs_named || done).
  destruct ((cg_md g !! EntryFunctionMD_key) ≫= md_getEntryFunctionId) as [i|]; [|done]. cbn.
  by rewrite <- abs_nodes.
Qed.

Lemma find_main_live g i : spec_find_main (abs g) = Some i → live g i.
Proof.
  rewrite find_main_abs. generalize main_names as names. intros names.
  destruct ((cg_md g !! EntryFunctionMD_key) ≫= md_getEntryFunctionId) as [j|]; cbn.
  1: case_decide as Hj; [by intros [= <-]|].
  all: intros Hi%head_Some_elem_of; apply list_elem_of_bind in Hi as (f & Hi & _);
    by eapply ids_named_live.
Qed.

Lemma getMain_uncached g :
  wf g → pre (OGetMain false) (abs g) → mainNode g = None →
  getMain g false ⇓ (set_main g (spec_find_main (abs g)), spec_find_main (abs g)).
Proof.
  intros Hwf Hpre Hm. unfold getMain. rewrite Hm, entry_function_ret, bind_ret by done.
  rewrite find_main_abs. destruct (_ ≫= _); [done|]. by rewrite first_named_ret.
Qed.

Lemma getMain_ret g force :
  wf g → pre (OGetMain force) (abs g) →
  ∃ g' m, getMain g force ⇓ (g', m) ∧ wf g' ∧ spec_getMain (abs g) force = (abs g', m).
Proof.
  intros Hwf Hpre. unfold spec_getMain. cbn [abs a_main].
  assert (∀ g1, wf g1 → pre (OGetMain false) (abs g1) → mainNode g1 = None →
    ∃ g' m, getMain g1 false ⇓ (g', m) ∧ wf g' ∧
      (with_main (abs g1) (spec_find_main (abs g1)), spec_find_main (abs g1)) = (abs g', m))
    as Hunc.
  { intros g1 Hwf1 Hpre1 Hm1. rewrite getMain_uncached by done. do 2 eexists. split; [done|].
    split; [|done]. apply wf_set_main; [done|]. apply find_main_live. }
  destruct force.
  - destruct (Hunc (set_main g None)) as (g' & m & Hrun & Hw & Heq); try done.
    { by apply wf_set_main. }
    exists g', m. split_and!; [done|done|]. rewrite <- Heq. by destruct (mainNode g).
  - destruct (mainNode g) as [i|] eqn:Hm; [|by apply Hunc].
    exists g, (Some i). unfold getMain. by rewrite Hm.
Qed.

Lemma abs_intro g a :
  uid g = a_uid a → length (nodes g) = a_next a → (∀ i, node_at g i = a_nodes a !! i) →
  edges g = a_edges a → mainNode g = a_main a → hasDuplicates g = a_dup a → cg_md g = a_md a →
  abs g = a.
Proof.
  destruct a; cbn [a_uid a_next a_nodes a_edges a_main a_dup a_md]. intros <- <- Hn <- <- <- <-. unfold abs. f_equal.
  apply map_eq. intros i. rewrite <- Hn. apply (abs_nodes g).
Qed.

Lemma insert_refines g f o v b :
  wf g → f ≠ "" →
  ∃ g', insert_node g f o v b ⇓ (g', (spec_insert (abs g) f o v b).2) ∧ wf g' ∧
        abs g' = (spec_insert (abs g) f o v b).1.
Proof.
  intros Hwf Hf. destruct (insert_node_ret g f o v b Hwf Hf)
    as (g' & Hrun & Hwf' & Hlen & Hat & He & Hm & Hmd & Hu & Hd).
  exists g'. split_and!; [done|done|]. apply abs_intro; try done.
  - intros i. rewrite Hat. cbn [spec_insert fst a_nodes]. rewrite lookup_insert, abs_nodes. cbn [abs a_next a_uid].
    repeat case_decide; congruence.
  - cbn [spec_insert fst a_dup]. by rewrite Hd, abs_named.
Qed.

Lemma erase_refines g i :
  wf g →
  ∃ g', erase_node g i ⇓ (g', (spec_erase (abs g) i).2) ∧ wf g' ∧
        abs g' = (spec_erase (abs g) i).1.
Proof.
  intros Hwf. unfold spec_erase. rewrite abs_nodes. destruct (node_at g i) as [n|] eqn:Hn.
  - destruct (erase_node_ret g i Hwf) as (g' & Hrun & Hwf' & Hlen & Hat & He & Hm & Hmd & Hu & Hd);
      [by eexists|].
    exists g'. split_and!; [done|done|]. apply abs_intro; try done.
    + intros j. rewrite Hat. cbn [fst a_nodes]. rewrite lookup_delete, abs_nodes.
      repeat case_decide; congruence.
    + apply map_eq. intros p. rewrite He. simpl. destruct (decide (p.1 = i ∨ p.2 = i)) as [Hp|Hp].
      * symmetry. apply map_lookup_filter_None_2. right. simpl. tauto.
      * destruct (edges g !! p) as [md|] eqn:Hmd'.
        -- symmetry. apply map_lookup_filter_Some_2; simpl; tauto.
        -- symmetry. apply map_lookup_filter_None_2. by left.
    + rewrite Hmd. unfold erase_md. simpl. repeat case_bool_decide; try tauto.
      * destruct (cg_md g !! EntryFunctionMD_key) as [md|] eqn:E; simpl in *; [|naive_solver].
        rewrite decide_True by naive_solver. done.
      * destruct (cg_md g !! EntryFunctionMD_key) as [md|]; simpl in *; [|done].
        rewrite decide_False by naive_solver. done.
  - exists g. rewrite erase_node_absent; [done|]. rewrite Hn. by intros [? ?].
Qed.

Lemma addEdge_refines g i j :
  wf g → i ≠ length (nodes g) → j ≠ length (nodes g) →
  ∃ g', addEdge g i j ⇓ (g', (spec_addEdge (abs g) i j).2) ∧ wf g' ∧
        abs g' = (spec_addEdge (abs g) i j).1.
Proof.
  intros Hwf Hi Hj. destruct (addEdge_ret g i j Hwf Hi ltac:(done))
    as (g' & Hrun & Hwf' & Hn & Hm & Hmd & Hu & Hd & He).
  exists g'. revert Hrun He. rewrite !hasNode_id_spec. unfold spec_addEdge, existsEdge.
  rewrite !abs_nodes. simpl.
  destruct (node_at g i) as [n|] eqn:Hni, (node_at g j) as [m|] eqn:Hmj,
    (edges g !! (i, j)) as [md|] eqn:He; simpl; intros Hrun Hes;
    (split_and!; [done|done|apply abs_intro; simpl; try congruence]);
    intros k; unfold node_at; rewrite Hn; symmetry; apply (abs_nodes g).
Qed.

Lemma removeEdge_refines g i j :
  wf g →
  ∃ g', removeEdge g i j ⇓ (g', (spec_removeEdge (abs g) i j).2) ∧ wf g' ∧
        abs g' = (spec_removeEdge (abs g) i j).1.
Proof.
  intros Hwf. destruct (removeEdge_ret g i j Hwf) as (g' & Hrun & Hwf' & Hn & Hm & Hmd & Hu & Hd & He).
  exists g'. split_and!; [done|done|]. apply abs_intro; simpl; try congruence.
  intros k; unfold node_at; rewrite Hn; symmetry; apply (abs_nodes g).
Qed.

(** The operations on two names. *)
Lemma by_name_refines g s t (f : Callgraph → NodeId → NodeId → outcome (Callgraph * bool)) sf :
  wf g →
  (∀ i j, live g i → live g j →
     ∃ g', f g i j ⇓ (g', (sf (abs g) i j).2) ∧ wf g' ∧ abs g' = (sf (abs g) i j).1) →
  ∃ g', match getNodes_name g s, getNodes_name g t with
        | [i], [j] => f g i j
        | _, _ => Ret (g, false)
        end ⇓ (g', (by_name sf (abs g) s t).2) ∧ wf g' ∧
        abs g' = (by_name sf (abs g) s t).1.
Proof.
  intros Hwf Hf. unfold by_name. rewrite !getNodes_name_entry, !(wf_names _ Hwf), !abs_named.
  pose proof (ids_named_live g s) as Hs. pose proof (ids_named_live g t) as Ht.
  destruct (ids_named (nodes g) s) as [|i []], (ids_named (nodes g) t) as [|j []];
    try (by exists g). apply Hf; [apply Hs|apply Ht]; set_solver.
Qed.

Lemma live_ne g i : live g i → i ≠ length (nodes g).
Proof. intros ?%live_lt. lia. Qed.

(** The work is in this lemma; [graph_refines] states it. *)
Lemma op_refines (o : op) (g : Callgraph) :
  wf g → pre o (abs g) →
  ∃ g', run o g ⇓ (g', (spec o (abs g)).2) ∧ wf g' ∧ abs g' = (spec o (abs g)).1.
Proof.
  intros Hwf Hpre.
  assert (∀ A (r : A → result) x (y : Graph * A),
    (∃ g', x ⇓ (g', y.2) ∧ wf g' ∧ abs g' = y.1) →
    ∃ g', lift r x ⇓ (g', (lift_spec r y).2) ∧ wf g' ∧ abs g' = (lift_spec r y).1) as Hlift.
  { intros A r x y (g' & -> & ? & ?). by exists g'. }
  destruct o as [f o v b|f o v b|i| |i j|s t|i j|s t|ids k md|md|i u|force]; cbn [run spec].
  - apply Hlift. by apply insert_refines.
  - unfold getOrInsertNode. rewrite abs_named.
    destruct (getFirstNode_id g f Hwf) as ([n|] & -> & Hh & _); rewrite bind_ret, <- Hh; cbn [option_map].
    + by exists g.
    + apply Hlift. by apply insert_refines.
  - apply Hlift. by apply erase_refines.
  - exists (clear g). split_and!; [done|apply clear_wf|by apply abs_intro].
  - destruct Hpre. apply Hlift. by apply addEdge_refines.
  - apply Hlift, (by_name_refines g s t addEdge spec_addEdge); [done|].
    intros; by apply addEdge_refines; eauto using live_ne.
  - apply Hlift. by apply removeEdge_refines.
  - apply Hlift, (by_name_refines g s t removeEdge spec_removeEdge); [done|].
    intros; by apply removeEdge_refines.
  - destruct (addEdgeMetaData_wf g ids k md Hwf) as (Hwf' & Hb & Hn & Hm & Hmd & Hu & Hd & He).
    exists (addEdgeMetaData g ids k md).1. unfold lift. rewrite bind_ret, Hb.
    split_and!; [done|done|]. apply abs_intro; simpl; try congruence.
    intros i; unfold node_at; rewrite Hn; symmetry; apply (abs_nodes g).
  - eexists. split_and!; [done|by apply wf_set_cg_md|done].
  - eexists. split_and!; [done|apply update_node_wf; [done|by destruct u; eauto with metacg]|].
    apply abs_intro; try done; [apply length_alter|].
    intros j. cbn [fst a_nodes]. rewrite update_node_at, lookup_alter, !abs_nodes. case_decide; by subst.
  - apply Hlift. destruct (getMain_ret g force Hwf Hpre) as (g' & m & Hrun & Hwf' & Heq).
    exists g'. by rewrite Heq.
Qed.

(** Every operation of [op], called within its precondition on a graph that
    satisfies the invariant, returns the result and produces the graph that the
    abstract specification says, and the invariant holds again afterwards. *)
Theorem graph_refines (o : op) (g : Callgraph) :
  wf g → pre o (abs g) →
  ∃ g', run o g ⇓ (g', (spec o (abs g)).2) ∧ wf g' ∧ abs g' = (spec o (abs g)).1.
Proof. apply op_refines. Qed.
End spec.
