(* ===== verification/CallgraphProps.v ===== *)
(** * The call graph: sequences of operations, queries, edge cases

    The refinement of single operations extends to whole histories of a graph;
    the queries of the class answer from the abstract graph; and the calls
    outside the precondition of the specification are worked out. *)

From S2P Require Import Prelude Json MetaData BuiltinMD Callgraph CallgraphWf.
From S2P Require Import CallgraphOps CallgraphSpec.

Section histories.
Context {JO : JsonOps} {MDI : MetaDataI}.

(** ** Histories *)

Fixpoint run_all (os : list op) (g : Callgraph) : outcome (Callgraph * list result) :=
  match os with
  | [] => Ret (g, [])
  | o :: os => p ← run o g; q ← run_all os p.1; Ret (q.1, p.2 :: q.2)
  end.

Fixpoint spec_all (os : list op) (a : Graph) : Graph * list result :=
  match os with
  | [] => (a, [])
  | o :: os => let p := spec o a in let q := spec_all os p.1 in (q.1, p.2 :: q.2)
  end.

(** Every operation respects its precondition when its turn comes. *)
Fixpoint pre_all (os : list op) (a : Graph) : Prop :=
  match os with
  | [] => True
  | o :: os => pre o a ∧ pre_all os (spec o a).1
  end.

#[export] Instance pre_dec o a : Decision (pre o a).
Proof. destruct o; simpl; apply _. Defined.

#[export] Instance pre_all_dec os a : Decision (pre_all os a).
Proof. revert a. induction os as [|o os IH]; intros a; simpl; apply _. Defined.

(** The graphs a program can build, as a transition system. *)
Inductive reachable (u : nat) : Callgraph → Prop :=
  | reachable_new : reachable u (Callgraph_new u)
  | reachable_step g o g' r :
      reachable u g → pre o (abs g) → run o g ⇓ (g', r) → reachable u g'.

Lemma run_all_refines os g :
  wf g → pre_all os (abs g) →
  ∃ g', run_all os g ⇓ (g', (spec_all os (abs g)).2) ∧ wf g' ∧ abs g' = (spec_all os (abs g)).1.
Proof.
  revert g. induction os as [|o os IH]; intros g Hwf Hpre; [by exists g|].
  destruct Hpre as [Ho Hos].
  destruct (op_refines o g Hwf Ho) as (g1 & Hrun & Hwf1 & Habs). simpl. rewrite Hrun. cbn.
  rewrite <- Habs in Hos |- *. destruct (IH g1 Hwf1 Hos) as (g2 & -> & Hwf2 & Habs2).
  by exists g2.
Qed.

Lemma reachable_run_all u os g g' rs :
  reachable u g → pre_all os (abs g) → run_all os g ⇓ (g', rs) → wf g → reachable u g'.
Proof.
  revert g rs. induction os as [|o os IH]; intros g rs Hr Hpre Hrun Hwf; simpl in *.
  - by injection Hrun as <- _.
  - destruct Hpre as [Ho Hos]. destruct (op_refines o g Hwf Ho) as (g1 & Hrun1 & Hwf1 & Habs).
    rewrite Hrun1 in Hrun. cbn in Hrun. apply bind_ret_inv in Hrun as ([g2 rs2] & Hrun2 & Heq).
    injection Heq as -> _. rewrite <- Habs in Hos. eapply IH; [|done..]. by eapply reachable_step.
Qed.

(** C1: a program that starts from an empty graph and performs any sequence of
    operations within their preconditions observes exactly the results of the
    abstract specification; no operation of the sequence throws, fails an
    assertion or has undefined behaviour. *)
Theorem history_refines (u : nat) (os : list op) :
  pre_all os (abs (Callgraph_new u)) →
  ∃ g, run_all os (Callgraph_new u) ⇓ (g, (spec_all os (abs (Callgraph_new u))).2) ∧
       wf g ∧ abs g = (spec_all os (abs (Callgraph_new u))).1.
Proof. apply run_all_refines, wf_new. Qed.

(** The invariant holds in every graph that can be reached, and from every
    such graph the next operation runs to completion. *)
Theorem reachable_wf (u : nat) (g : Callgraph) :
  reachable u g → wf g ∧ ∀ o, pre o (abs g) → ∃ g' r, run o g ⇓ (g', r) ∧ reachable u g'.
Proof.
  intros Hr. assert (wf g) as Hwf.
  { induction Hr as [|g o g' r _ IH Hpre Hrun]; [apply wf_new|].
    destruct (op_refines o g IH Hpre) as (g2 & Hrun2 & Hwf2 & _). congruence. }
  split; [done|]. intros o Ho. destruct (op_refines o g Hwf Ho) as (g' & Hrun & _).
  do 2 eexists. split; [done|]. by eapply reachable_step.
Qed.

(** ** Queries *)

Lemma abs_size ns :
  size (omap (λ o, o) (map_seq 0 ns : gmap NodeId (option CgNode))) + erased ns = length ns.
Proof.
  induction ns as [|o ns IH] using rev_ind; [done|].
  rewrite map_seq_snoc, length_app. simpl. unfold erased in *. rewrite filter_app, length_app.
  assert (omap (λ o, o) (map_seq 0 ns : gmap NodeId (option CgNode)) !! length ns = None) as Hno.
  { rewrite lookup_omap, lookup_map_seq_0, lookup_ge_None_2 by done. done. }
  rewrite omap_insert. destruct o as [n|]; simpl.
  - rewrite map_size_insert_None by done. lia.
  - rewrite delete_id by done. lia.
Qed.

Lemma hasNode_name_abs g f :
  wf g → hasNode_name g f = bool_decide (a_named (abs g) f ≠ []).
Proof.
  intros Hwf. rewrite abs_named. unfold hasNode_name. pose proof (wf_names _ Hwf f) as Hf.
  unfold entry in Hf. destruct (nameIdMap g !! f) as [l|]; simpl in Hf; rewrite <- Hf; [|done].
  destruct l as [|i l]; [done|]. simpl. rewrite hasNode_id_spec, bool_decide_true; [done|].
  eapply ids_named_live. rewrite <- Hf. set_solver.
Qed.

Lemma existsAnyEdge_spec g s t :
  wf g →
  existsAnyEdge g s t = true ↔
  ∃ i j n m, a_nodes (abs g) !! i = Some n ∧ functionName n = s ∧
             a_nodes (abs g) !! j = Some m ∧ functionName m = t ∧
             is_Some (a_edges (abs g) !! (i, j)).
Proof.
  intros Hwf. unfold existsAnyEdge, existsEdge. setoid_rewrite abs_nodes.
  rewrite existsb_exists. setoid_rewrite existsb_exists.
  setoid_rewrite bool_decide_eq_true. setoid_rewrite <- list_elem_of_In.
  pose proof (λ f i, elem_of_getNodes_name g f i Hwf) as Hin. split.
  - intros (i & (n & ? & ?)%Hin & j & (m & ? & ?)%Hin & He). by exists i, j, n, m.
  - intros (i & j & n & m & ? & ? & ? & ? & He).
    exists i. split; [apply Hin; eauto|]. exists j. split; [apply Hin; eauto|done].
Qed.

Lemma hasNode_name_true g f :
  wf g → hasNode_name g f = true ↔ ∃ i n, node_at g i = Some n ∧ functionName n = f.
Proof.
  intros Hwf. rewrite hasNode_name_abs, bool_decide_eq_true, abs_named by done. split.
  - destruct (ids_named (nodes g) f) as [|i l] eqn:Hl; [done|]. intros _.
    assert (i ∈ ids_named (nodes g) f) as (n & Hn & ?)%elem_of_ids_named by (rewrite Hl; set_solver).
    exists i, n. by rewrite node_at_Some.
  - intros (i & n & Hn%node_at_Some & Hf) Hnil. eapply elem_of_nil. rewrite <- Hnil.
    apply elem_of_ids_named. eauto.
Qed.

Lemma existsAnyEdge_true g s t :
  wf g → existsAnyEdge g s t = true ↔
  ∃ i j n m, node_at g i = Some n ∧ functionName n = s ∧ node_at g j = Some m ∧
             functionName m = t ∧ is_Some (edges g !! (i, j)).
Proof.
  intros Hwf. rewrite existsAnyEdge_spec by done.
  split; intros (i & j & n & m & H); exists i, j, n, m; revert H; by rewrite !abs_nodes.
Qed.

(** C7: On a graph that satisfies the invariant, the queries that are answered from
    the index structures agree with the nodes and edges of the graph:
    [getNodeCount] is the number of nodes, [hasNode] and [countNodes] look at
    the nodes with a name, [getNode] finds the node with an identifier (for
    every identifier but the one past the largest slot), [getFirstNode] the
    one with the least identifier among the nodes with a name, [existsEdge]
    and [existsAnyEdge] say whether there is an edge between two identifiers or
    two names, and [getCallees] and [getCallers] return exactly the live nodes
    at the other ends of the edges of a node. *)
Theorem queries_refine (g : Callgraph) :
  wf g →
  getNodeCount g = size (a_nodes (abs g)) ∧
  (∀ i, hasNode_id g i = bool_decide (is_Some (a_nodes (abs g) !! i))) ∧
  (∀ i, i ≠ a_next (abs g) → getNode g i ⇓ a_nodes (abs g) !! i) ∧
  (∀ f, hasNode_name g f = bool_decide (a_named (abs g) f ≠ [])) ∧
  (∀ f, countNodes g f = length (a_named (abs g) f)) ∧
  (∀ f, getFirstNode g f ⇓ (head (a_named (abs g) f) ≫= λ i, a_nodes (abs g) !! i)) ∧
  (∀ i j, existsEdge g i j = bool_decide (is_Some (a_edges (abs g) !! (i, j)))) ∧
  (∀ s t, existsAnyEdge g s t = true ↔
     ∃ i j n m, a_nodes (abs g) !! i = Some n ∧ functionName n = s ∧
                a_nodes (abs g) !! j = Some m ∧ functionName m = t ∧
                is_Some (a_edges (abs g) !! (i, j))) ∧
  (∀ i, ∃ S, getCallees g i ⇓ S ∧ ∀ p, p ∈ S ↔ ∃ j, p = Some j ∧
          is_Some (a_edges (abs g) !! (i, j)) ∧ is_Some (a_nodes (abs g) !! j)) ∧
  (∀ i, ∃ S, getCallers g i ⇓ S ∧ ∀ p, p ∈ S ↔ ∃ j, p = Some j ∧
          is_Some (a_edges (abs g) !! (j, i)) ∧ is_Some (a_nodes (abs g) !! j)).
Proof.
  intros Hwf. split_and!.
  - unfold getNodeCount. rewrite (wf_erased _ Hwf). cbn [abs a_nodes].
    pose proof (abs_size (nodes g)). lia.
  - intros i. rewrite abs_nodes. apply hasNode_id_spec.
  - intros i Hi. rewrite abs_nodes. by apply getNode_ret.
  - intros f. by rewrite hasNode_name_abs, abs_named.
  - intros f. rewrite abs_named, <- (wf_names _ Hwf). unfold countNodes, entry.
    by destruct (_ !! f).
  - intros f. rewrite abs_named, getFirstNode_ret by done.
    destruct (head _) as [i|]; [f_equal; symmetry; apply (abs_nodes g)|done].
  - done.
  - intros s t. by rewrite existsAnyEdge_spec.
  - intros i. destruct (getCallees_ret g i Hwf) as (S & HS & Hin). exists S. split; [done|].
    intros p. rewrite Hin. split; intros (j & -> & Hj); exists j; [|naive_solver].
    rewrite abs_nodes. split_and!; [done|done|]. by apply (wf_edges _ Hwf) in Hj as [??].
  - intros i. destruct (getCallers_ret g i Hwf) as (S & HS & Hin). exists S. split; [done|].
    intros p. rewrite Hin. split; intros (j & -> & Hj); exists j; [|naive_solver].
    rewrite abs_nodes. split_and!; [done|done|]. by apply (wf_edges _ Hwf) in Hj as [??].
Qed.
End histories.

(** ** Calls outside the specification *)

Section edge_cases.
Context {JO : JsonOps} {MDI : MetaDataI}.

(** The guard of [getNode] lets the identifier one past the end through:
    where the interface promises null or [false], [getNode] and [addEdge] throw
    [std::out_of_range]; every larger identifier is handled as documented. *)
Theorem addEdge_one_past_end (g : Callgraph) (j : NodeId) :
  getNode g (cg_size g) = Throw out_of_range ∧
  addEdge g (cg_size g) j = Throw out_of_range ∧
  ∀ i, cg_size g < i → getNode g i ⇓ None ∧ addEdge g i j ⇓ (g, false).
Proof.
  unfold cg_size. unfold addEdge at 1. rewrite getNode_end. split_and!; [done|done|].
  intros i Hi. assert (getNode g i ⇓ None) as Hn.
  { unfold getNode. by rewrite decide_True. }
  unfold addEdge. by rewrite Hn.
Qed.

(** [clear] keeps the metadata of the graph.  If its entry function was
    node 0, [getMain] throws on the cleared graph, and returns whatever node is
    inserted first afterwards. *)
Theorem clear_keeps_entry_function (g : Callgraph) (md : MD) (f : string) :
  cg_md g !! EntryFunctionMD_key = Some md → md_getEntryFunctionId md = Some 0 → f ≠ "" →
  getMain (clear g) false = Throw out_of_range ∧
  ∃ g', insert_node (clear g) f None false false ⇓ (g', 0) ∧
        getMain g' false ⇓ (set_main g' (Some 0), Some 0).
Proof.
  intros Hmd Hid Hf. split.
  - unfold getMain, entry_function, md_get. cbn [clear mainNode cg_md]. by rewrite Hmd, Hid.
  - destruct (insert_node_ret (clear g) f None false false (clear_wf g) Hf)
      as (g' & Hrun & Hwf & Hlen & Hat & _ & Hm & Hcmd & _).
    exists g'. split; [done|]. unfold getMain, entry_function, md_get.
    rewrite Hm, Hcmd. cbn [clear mainNode cg_md]. rewrite Hmd, Hid.
    rewrite (getNode_live _ 0 (CgNode_new 0 (uid g, 0) f None false false)); [done|].
    by rewrite Hat.
Qed.

(** [setFunctionName] does not update the name index: erasing a renamed
    node erases [end()] of the index entry of its new name. *)
Theorem rename_then_erase (g : Callgraph) (i : NodeId) (n : CgNode) (f : string) :
  wf g → node_at g i = Some n → functionName n ≠ f →
  erase_node (update_node g i (setFunctionName f)) i = UB.
Proof.
  intros Hwf Hn Hf. set (g' := update_node g i (setFunctionName f)).
  assert (node_at g' i = Some (setFunctionName f n)) as Hn'.
  { unfold g'. rewrite update_node_at, decide_True, Hn by done. done. }
  destruct (detach_node i (edges g) (callerList g) (calleeList g) (wf_adj _ Hwf))
    as (es1 & cr1 & es2 & ce2 & Hrun1 & Hrun2 & _).
  unfold erase_node. rewrite hasNode_id_spec, bool_decide_true by eauto. cbn [negb].
  change (edges g') with (edges g). change (callerList g') with (callerList g).
  change (calleeList g') with (calleeList g). change (nameIdMap g') with (nameIdMap g).
  rewrite Hrun1, bind_ret. cbn [fst snd]. rewrite Hrun2, bind_ret, Hn'.
  cbn [cpp_assert deref]. rewrite !bind_ret, (wf_names _ Hwf), erase_find_not_in; [done|].
  rewrite elem_of_ids_named. intros (m & Hm & Hmf). apply node_at_Some in Hm.
  simpl in Hmf. congruence.
Qed.

(** The guard of [removeEdge(const CgNode&, const CgNode&)] lets a call
    through when only one of the nodes belongs to the graph: the edge of the
    node with the same identifier as the foreign node is removed.  [addEdge]
    refuses the same arguments. *)
Theorem removeEdge_foreign_node (g : Callgraph) (n m : CgNode) :
  wf g → node_at g (node_id n) = Some n → node_addr m ≠ (uid g, node_id m) →
  is_Some (edges g !! (node_id n, node_id m)) →
  hasNode_ref g m = false ∧
  addEdge_ref g n m ⇓ (g, false) ∧
  ∃ g', removeEdge_ref g n m ⇓ (g', true) ∧ edges g' = delete (node_id n, node_id m) (edges g).
Proof.
  intros Hwf Hn Hm He.
  assert (hasNode_ref g m = false) as Hrm.
  { unfold hasNode_ref. case_decide; [done|].
    destruct (node_at g (node_id m)) as [m'|] eqn:Hm'; [|done].
    apply bool_decide_eq_false. destruct (wf_ids _ Hwf _ _ Hm') as [_ ->]. congruence. }
  pose proof (hasNode_ref_live g _ n Hwf Hn) as Hrn.
  split_and!; [done|unfold addEdge_ref; by rewrite Hrn, Hrm|].
  destruct (removeEdge_ret g (node_id n) (node_id m) Hwf) as (g' & Hrun & _ & _ & _ & _ & _ & _ & Hes).
  exists g'. split; [|done]. unfold removeEdge_ref. rewrite Hrn. simpl. rewrite Hrun.
  unfold existsEdge. by rewrite bool_decide_true.
Qed.
End edge_cases.

(** ** Concrete histories *)

Module GraphExamples.

#[export] Existing Instance JsonTree.ops.

#[export] Instance MD_eq_dec : EqDecision MD := BuiltinMD_eq_dec.
#[export] Instance CgNode_eq_dec : EqDecision CgNode.
Proof. solve_decision. Defined.

Definition sample : list op := [
  OInsert "main" None false true;
  OInsert "foo" (Some "a.cpp") true true;
  OInsert "bar" None false false;
  OAddEdge 0 1; OAddEdge 1 2; OAddEdge 1 1;
  OAddEdgeName "main" "bar";
  OGetMain false;
  OErase 1;
  OGetOrInsert "foo" None false false;
  OAddEdge 0 3
].

Definition sample_graph : Callgraph :=
  match run_all sample (Callgraph_new 7) with Ret (g, _) => g | _ => Callgraph_new 7 end.

Lemma sample_pre : pre_all sample (abs (Callgraph_new 7)).
Proof. by apply (bool_decide_unpack _); vm_compute. Qed.

Definition results (x : outcome (Callgraph * list result)) : option (list result) :=
  match x with Ret (_, rs) => Some rs | _ => None end.

Lemma sample_results :
  results (run_all sample (Callgraph_new 7)) =
  Some [RId 0; RId 1; RId 2; RBool true; RBool true; RBool true; RBool true;
        RMain (Some 0); RBool true; RId 3; RBool true].
Proof. vm_compute. reflexivity. Qed.

Lemma sample_wf : wf sample_graph.
Proof.
  unfold sample_graph. destruct (run_all_refines sample (Callgraph_new 7)) as (g & -> & Hwf & _);
    [apply wf_new|apply sample_pre|done].
Qed.

Lemma sample_reachable : reachable 7 sample_graph.
Proof.
  unfold sample_graph. destruct (run_all_refines sample (Callgraph_new 7)) as (g & Hrun & _);
    [apply wf_new|apply sample_pre|]. rewrite Hrun.
  eapply reachable_run_all; [apply reachable_new|apply sample_pre|done|apply wf_new].
Qed.

Definition sample_main : CgNode := CgNode_new 0 (7, 0) "main" None false true.

Lemma sample_main_at : node_at sample_graph 0 = Some sample_main.
Proof. by apply (bool_decide_unpack _); vm_compute. Qed.

(** A node of another graph. *)
Definition foreign : CgNode := CgNode_new 2 (8, 2) "other" None false false.

(** The sample graph with metadata that names its main function. *)
Definition sample_entry : Callgraph :=
  set_cg_md sample_graph {[EntryFunctionMD_key := EntryFunctionMD (Some 0)]}.

Lemma graph_refines_witness :
  ∃ g', run (OErase 0) sample_graph ⇓ (g', RBool true) ∧ wf g' ∧ node_at g' 0 = None.
Proof.
  destruct (graph_refines (OErase 0) sample_graph sample_wf I) as (g' & Hrun & Hwf & Habs).
  exists g'. assert ((spec (OErase 0) (abs sample_graph)).2 = RBool true) as <-
    by (vm_compute; reflexivity).
  split_and!; [done|done|]. rewrite <- abs_nodes, Habs. by apply (bool_decide_unpack _); vm_compute.
Defined.

Lemma history_refines_witness :
  pre_all sample (abs (Callgraph_new 7)) ∧
  ∃ g, run_all sample (Callgraph_new 7) ⇓ (g, (spec_all sample (abs (Callgraph_new 7))).2) ∧
       wf g ∧ abs g = (spec_all sample (abs (Callgraph_new 7))).1.
Proof. split; [apply sample_pre|]. apply (history_refines 7 sample sample_pre). Defined.

Lemma reachable_wf_witness :
  reachable 7 sample_graph ∧
  ∃ g' r, run (OAddEdge 2 0) sample_graph ⇓ (g', r) ∧ reachable 7 g'.
Proof.
  split; [apply sample_reachable|].
  apply (proj2 (reachable_wf 7 sample_graph sample_reachable)).
  by apply (bool_decide_unpack _); vm_compute.
Defined.

Lemma queries_refine_witness :
  wf sample_graph ∧ getNodeCount sample_graph = size (a_nodes (abs sample_graph)).
Proof. split; [apply sample_wf|]. exact (proj1 (queries_refine sample_graph sample_wf)). Defined.

Lemma clear_keeps_entry_function_witness :
  getMain (clear sample_entry) false = Throw out_of_range ∧
  ∃ g', insert_node (clear sample_entry) "helper" None false false ⇓ (g', 0) ∧
        getMain g' false ⇓ (set_main g' (Some 0), Some 0).
Proof.
  apply (clear_keeps_entry_function sample_entry (EntryFunctionMD (Some 0)) "helper");
    [apply lookup_singleton_eq|reflexivity|done].
Defined.

Lemma rename_then_erase_witness :
  node_at sample_graph 0 = Some sample_main ∧
  erase_node (update_node sample_graph 0 (setFunctionName "start")) 0 = UB.
Proof.
  split; [apply sample_main_at|].
  apply (rename_then_erase sample_graph 0 sample_main "start" sample_wf sample_main_at).
  discriminate.
Defined.

Lemma removeEdge_foreign_node_witness :
  addEdge_ref sample_graph sample_main foreign ⇓ (sample_graph, false) ∧
  ∃ g', removeEdge_ref sample_graph sample_main foreign ⇓ (g', true) ∧
        edges g' = delete (0, 2) (edges sample_graph).
Proof.
  apply (removeEdge_foreign_node sample_graph sample_main foreign sample_wf sample_main_at).
  - by apply (bool_decide_unpack _); vm_compute.
  - by apply (bool_decide_unpack _); vm_compute.
Defined.
End GraphExamples.
