(* ===== verification/Merge.v ===== *)
(** * Merging call graphs

    [MergeByName] ([graph/src/MergePolicy.cpp]) and [Callgraph::merge]
    ([graph/src/Callgraph.cpp]).  The source graph is a different object than
    the target; the order in which its unordered maps are visited is open. *)

From S2P Require Import Prelude Json MetaData Callgraph CallgraphWf CallgraphOps.

Section merge.
Context {JO : JsonOps} {MDI : MetaDataI} {IO : IterOrder}.

(** ** Policies *)

(** [struct MergePolicy], an interface with one method. *)
Class MergePolicy := findMatchingNode : Callgraph → CgNode → outcome (option MergeAction).

Definition MergeByName_findMatchingNode (targetCG : Callgraph) (sourceNode : CgNode)
    : outcome (option MergeAction) :=
  match getNodes_name targetCG (functionName sourceNode) with
  | [] => Ret None
  | i :: _ =>
      targetNode ← getNode targetCG i;
      cpp_assert (bool_decide (is_Some targetNode));;
      targetNode ← deref targetNode;
      if hasBody targetNode || negb (hasBody sourceNode)
      then Ret (Some (mkMergeAction (node_id targetNode) false))
      else Ret (Some (mkMergeAction (node_id targetNode) true))
  end.

Definition MergeByName : MergePolicy := MergeByName_findMatchingNode.

(** What [merge] needs from a policy: it returns, it matches live nodes of the
    same name, and it keeps the definition of a function. *)
Class PolicyLaws (P : MergePolicy) := policy_spec : ∀ g n, wf g →
  findMatchingNode g n ⇓ None ∨
  ∃ act t, findMatchingNode g n ⇓ Some act ∧ node_at g (targetNode act) = Some t ∧
    functionName t = functionName n ∧
    (if replace act then hasBody n else hasBody t) = hasBody t || hasBody n.

(** ** [Callgraph::merge] *)

(** The core attributes of the source node replace those of the target. *)
Definition replace_attributes (n : CgNode) (t : CgNode) : CgNode :=
  setOrigin (origin n) (setHasBody (hasBody n) (setFunctionName (functionName n) t)).

(** Steps 1 and 2, for one node of the source. *)
Definition merge_node (P : MergePolicy) (st : Callgraph * MergeRecorder) (node : option CgNode)
    : outcome (Callgraph * MergeRecorder) :=
  n ← deref node;
  m ← findMatchingNode st.1 n;
  match m with
  | Some action =>
      t ← getNode st.1 (targetNode action);
      cpp_assert (bool_decide (is_Some t));;
      let g' := if replace action
                then update_node st.1 (targetNode action) (replace_attributes n)
                else st.1 in
      Ret (g', recordMerge st.2 (node_id n) action)
  | None =>
      p ← insert_node st.1 (functionName n) (origin n) false (hasBody n);
      Ret (p.1, recordCopy st.2 (node_id n) p.2)
  end.

(** Replacing one metadata object of an edge after [md->merge] changed it. *)
Definition set_edge_md (g : Callgraph) (ids : NodeId * NodeId) (k : string) (md : MD) : Callgraph :=
  set_edges g (alter (<[k := md]>) ids (edges g)).

(** Step 3: one metadata object of one edge. *)
Definition merge_edge_md (r : MergeRecorder) (src : NodeId * NodeId) (ids : NodeId * NodeId)
    (g : Callgraph) (edgeMd : string * MD) : outcome Callgraph :=
  match getEdgeMetaData g ids edgeMd.1 with
  | Some md =>
      let action := getAction r src.1 in
      cpp_assert (bool_decide (is_Some action));;
      action ← deref action;
      md' ← md_merge md edgeMd.2 (Some action) (getMapping r);
      Ret (set_edge_md g ids edgeMd.1 md')
  | None =>
      clonedMd ← md_applyMapping (md_clone edgeMd.2) (getMapping r);
      (* the static type of the pointer is the base class *)
      Ret (addEdgeMetaData g ids MetaData_key clonedMd).1
  end.

(** Step 3: one edge of the source. *)
Definition merge_edge (other : Callgraph) (r : MergeRecorder) (g : Callgraph)
    (edge : (NodeId * NodeId) * NamedMetadata) : outcome Callgraph :=
  let sourceIds := edge.1 in
  cpp_assert (bool_decide (is_Some (getMapping r !! sourceIds.1)) &&
              bool_decide (is_Some (getMapping r !! sourceIds.2)));;
  mappedCallerId ← at_or_throw (getMapping r !! sourceIds.1);
  mappedCalleeId ← at_or_throw (getMapping r !! sourceIds.2);
  p ← (if existsEdge g mappedCallerId mappedCalleeId then Ret (g, false)
       else addEdge g mappedCallerId mappedCalleeId);
  mds ← getAllEdgeMetaData other sourceIds;
  foldM (merge_edge_md r sourceIds (mappedCallerId, mappedCalleeId)) p.1 (iter_map mds).

(** Step 4: one metadata object of one node. *)
Definition merge_node_md_entry (r : MergeRecorder) (src t : NodeId) (g : Callgraph)
    (md : string * MD) : outcome Callgraph :=
  targetNode ← deref (node_at g t);
  match md_get (node_md targetNode) md.1 with
  | Some existing =>
      let action := getAction r src in
      cpp_assert (bool_decide (is_Some action));;
      action ← deref action;
      md' ← md_merge existing md.2 (Some action) (getMapping r);
      Ret (update_node g t (λ n, set_node_md n (<[md.1 := md']> (node_md n))))
  | None =>
      clonedMd ← md_applyMapping (md_clone md.2) (getMapping r);
      Ret (update_node g t (CgNode_addMetaData clonedMd))
  end.

(** Step 4: one node of the source. *)
Definition merge_node_md (r : MergeRecorder) (g : Callgraph) (node : option CgNode)
    : outcome Callgraph :=
  n ← deref node;
  cpp_assert (bool_decide (is_Some (getMapping r !! node_id n)));;
  mappedNodeId ← at_or_throw (getMapping r !! node_id n);
  targetNode ← getNode g mappedNodeId;
  cpp_assert (bool_decide (is_Some targetNode));;
  foldM (merge_node_md_entry r (node_id n) mappedNodeId) g (iter_map (node_md n)).

(** Step 5: one metadata object of the graph. *)
Definition merge_global_md (r : MergeRecorder) (g : Callgraph) (md : string * MD)
    : outcome Callgraph :=
  match md_get (cg_md g) md.1 with
  | Some existingMd =>
      md' ← md_merge existingMd md.2 None (getMapping r);
      Ret (set_cg_md g (<[md.1 := md']> (cg_md g)))
  | None =>
      clonedMd ← md_applyMapping (md_clone md.2) (getMapping r);
      Ret (set_cg_md g (addMetaData (cg_md g) clonedMd))
  end.

Definition Callgraph_merge (P : MergePolicy) (g other : Callgraph)
    : outcome (Callgraph * MergeRecorder) :=
  st ← foldM (merge_node P) (g, empty_recorder) (nodes other);
  g ← foldM (merge_edge other st.2) st.1 (iter_map (edges other));
  g ← foldM (merge_node_md st.2) g (nodes other);
  g ← foldM (merge_global_md st.2) g (iter_map (cg_md other));
  Ret (set_main g None, st.2).

#[export] Instance MergeByName_laws : PolicyLaws MergeByName.
Proof.
  intros g n Hwf. unfold findMatchingNode, MergeByName, MergeByName_findMatchingNode.
  destruct (getNodes_name g (functionName n)) as [|i l] eqn:Hl; [by left|right].
  assert (i ∈ getNodes_name g (functionName n)) as Hi by (rewrite Hl; set_solver).
  apply (elem_of_getNodes_name _ _ _ Hwf) in Hi as (t & Ht & Hname).
  rewrite (getNode_live _ _ _ Ht). cbn.
  destruct (wf_ids _ Hwf _ _ Ht) as [-> _].
  destruct (hasBody t) eqn:Hbt, (hasBody n) eqn:Hbn; cbn;
    do 2 eexists; (split; [done|]); cbn; rewrite ?Hbt; done.
Qed.
End merge.
