(* ===== verification/MergeProps.v ===== *)
(** * Merging call graphs: correctness

    [Callgraph::merge] with a policy that satisfies [PolicyLaws] returns, keeps
    the invariant, and joins the two graphs along the names of the functions,
    whatever the order in which the unordered containers are visited. *)

From S2P Require Import Prelude Json MetaData BuiltinMD Callgraph CallgraphWf.
From S2P Require Import CallgraphOps CallgraphSpec CallgraphProps Merge.

Section nodes.
Context {JO : JsonOps} {MDI : MetaDataI} {MDL : MetaDataLaws}.
(** The source of a merge: consistent, and no node was erased from it. *)
Record mergeable_source (other : Callgraph) : Prop := {
  ms_wf : wf other;
  ms_full : ∀ o, o ∈ nodes other → is_Some o
}.

Lemma source_split other dn x rest :
  mergeable_source other → nodes other = dn ++ x :: rest →
  ∃ n, x = Some n ∧ node_at other (length dn) = Some n ∧ node_id n = length dn ∧
    ∀ m, Some m ∈ dn → node_id m < length dn.
Proof.
  intros [Hwf Hfull] Heq. destruct (Hfull x) as [n ->]; [rewrite Heq; set_solver|].
  assert (node_at other (length dn) = Some n) as Hn.
  { apply node_at_Some. rewrite Heq. by apply list_lookup_middle. }
  exists n. split_and!; [done|done|by apply (wf_ids _ Hwf)|].
  intros m (i & Hi)%list_elem_of_lookup. pose proof (lookup_lt_Some _ _ _ Hi).
  assert (node_at other i = Some m) as Hm.
  { apply node_at_Some. rewrite Heq. by apply lookup_app_l_Some. }
  destruct (wf_ids _ Hwf _ _ Hm) as [-> _]. done.
Qed.

Lemma source_elem other n :
  mergeable_source other → Some n ∈ nodes other ↔ node_at other (node_id n) = Some n.
Proof.
  intros [Hwf _]. rewrite node_at_Some. split; [|apply list_elem_of_lookup_2].
  intros (i & Hi)%list_elem_of_lookup. assert (node_at other i = Some n) as Hn by by apply node_at_Some.
  by destruct (wf_ids _ Hwf _ _ Hn) as [-> _].
Qed.

(** Steps 1 and 2, after the nodes [dn] of the source. *)
Record nodes_merged (g : Callgraph) (dn : list (option CgNode)) (g1 : Callgraph)
    (r : MergeRecorder) : Prop := {
  nm_wf : wf g1;
  nm_edges : edges g1 = edges g;
  nm_md : cg_md g1 = cg_md g;
  nm_len : length (nodes g) ≤ length (nodes g1);
  nm_old : ∀ i n, node_at g i = Some n →
    ∃ n', node_at g1 i = Some n' ∧ functionName n' = functionName n ∧ node_md n' = node_md n;
  nm_new : ∀ i n', node_at g1 i = Some n' → live g i ∨
    (length (nodes g) ≤ i ∧ node_md n' = ∅ ∧ ∃ s, mapping r !! s = Some i);
  nm_src : ∀ n, Some n ∈ dn →
    ∃ t n', mapping r !! node_id n = Some t ∧ node_at g1 t = Some n' ∧
            functionName n' = functionName n;
  nm_dom : ∀ s, is_Some (mapping r !! s) → ∃ n, Some n ∈ dn ∧ node_id n = s;
  nm_act : ∀ s t, mapping r !! s = Some t → is_Some (actions r !! s) ∨ length (nodes g) ≤ t;
  nm_body : ∀ i n', node_at g1 i = Some n' →
    (hasBody n' = true ↔
      (∃ n, node_at g i = Some n ∧ hasBody n = true) ∨
      (∃ n, Some n ∈ dn ∧ mapping r !! node_id n = Some i ∧ hasBody n = true))
}.

Lemma nodes_merged_nil g : wf g → nodes_merged g [] g empty_recorder.
Proof.
  intros Hwf. split; try done.
  - intros i n Hn. by exists n.
  - intros i n' Hn. left. by exists n'.
  - by intros n ?%elem_of_nil.
  - intros s [? Hs]. cbn in Hs. by rewrite lookup_empty in Hs.
  - intros i n' Hn. split; [left; by exists n'|].
    intros [(n & Hn' & ?)|(n & ?%elem_of_nil & _)]; [congruence|done].
Qed.

(** A source node that is matched with a node of the target. *)
Lemma nodes_merged_match g dn g1 r n act t :
  nodes_merged g dn g1 r → (∀ m, Some m ∈ dn → node_id m ≠ node_id n) →
  node_at g1 (targetNode act) = Some t → functionName t = functionName n →
  (if replace act then hasBody n else hasBody t) = hasBody t || hasBody n →
  nodes_merged g (dn ++ [Some n])
    (if replace act then update_node g1 (targetNode act) (replace_attributes n) else g1)
    (recordMerge r (node_id n) act).
Proof.
  intros [Hwf Hed Hmd Hlen Hold Hnew Hsrc Hdom Hact Hbody] Hfresh Ht Hname Hb.
  set (g2 := if replace act then _ else g1).
  assert (wf g2 ∧ edges g2 = edges g1 ∧ cg_md g2 = cg_md g1 ∧
          length (nodes g2) = length (nodes g1)) as (Hwf2 & Hed2 & Hmd2 & Hlen2).
  { unfold g2. destruct (replace act); [|done].
    split_and!; [|done|done|apply length_alter].
    apply update_node_wf_at; [done|]. intros m Hm. assert (m = t) as -> by congruence.
    by split_and!. }
  assert (∀ i, ∃ f : CgNode → CgNode, node_at g2 i = f <$> node_at g1 i ∧
    ∀ m, node_at g1 i = Some m → functionName (f m) = functionName m ∧ node_md (f m) = node_md m ∧
      hasBody (f m) = if decide (i = targetNode act) then hasBody m || hasBody n else hasBody m) as Hat.
  { intros i. unfold g2. destruct (replace act) eqn:Hrep.
    - rewrite update_node_at. destruct (decide (targetNode act = i)) as [<-|Hne].
      + exists (replace_attributes n). split; [done|]. intros m Hm.
        assert (m = t) as -> by congruence. rewrite decide_True by done. by split_and!.
      + exists id. split; [by destruct (node_at g1 i)|]. intros m _. by rewrite decide_False.
    - exists id. split; [by destruct (node_at g1 i)|]. intros m Hm.
      case_decide; subst; [|done]. assert (m = t) as -> by congruence. done. }
  assert (∀ i m, node_at g1 i = Some m → ∃ m', node_at g2 i = Some m' ∧
    functionName m' = functionName m ∧ node_md m' = node_md m) as Hfwd.
  { intros i m Hm. destruct (Hat i) as (f & Hf & Hp). exists (f m).
    rewrite Hf, Hm. split; [done|]. split; by apply Hp. }
  assert (∀ i m', node_at g2 i = Some m' → ∃ m, node_at g1 i = Some m ∧
    functionName m' = functionName m ∧ node_md m' = node_md m ∧
    hasBody m' = if decide (i = targetNode act) then hasBody m || hasBody n else hasBody m) as Hbwd.
  { intros i m' Hm'. destruct (Hat i) as (f & Hf & Hp). rewrite Hf in Hm'.
    destruct (node_at g1 i) as [m|] eqn:Hm; [|done]. injection Hm' as <-. exists m.
    split; [done|]. by apply Hp. }
  split; simpl; try congruence.
  - intros i m Hm. destruct (Hold i m Hm) as (m1 & Hm1 & ? & ?).
    destruct (Hfwd i m1 Hm1) as (m2 & ? & ? & ?). exists m2. split_and!; congruence.
  - intros i m' Hm'. destruct (Hbwd i m' Hm') as (m & Hm & _ & Hmm & _).
    destruct (Hnew i m Hm) as [?|(? & ? & s & Hs)]; [by left|right].
    split_and!; [done|congruence|]. destruct (decide (s = node_id n)) as [->|Hne].
    + destruct (Hdom (node_id n)) as (m0 & Hin & Heq); [by eexists|]. by apply Hfresh in Heq.
    + exists s. by rewrite lookup_insert_ne.
  - intros m [Hm|[= ->]%list_elem_of_singleton]%elem_of_app.
    + destruct (Hsrc m Hm) as (u & m1 & Hu & Hm1 & Hn1).
      destruct (Hfwd u m1 Hm1) as (m2 & ? & ? & ?). exists u, m2.
      rewrite lookup_insert_ne by (intros Heq; by apply (Hfresh m Hm)). split_and!; congruence.
    + destruct (Hfwd (targetNode act) t Ht) as (m2 & ? & ? & ?). exists (targetNode act), m2.
      rewrite lookup_insert_eq. split_and!; congruence.
  - intros s Hs. apply lookup_insert_is_Some' in Hs as [<-|Hs].
    + exists n. split; [set_solver|done].
    + destruct (Hdom s Hs) as (m & ? & ?). exists m. split; [set_solver|done].
  - intros s u. rewrite !lookup_insert. case_decide; [left; by eexists|]. apply Hact.
  - intros i m' Hm'. destruct (Hbwd i m' Hm') as (m & Hm & _ & _ & Hmb).
    rewrite Hmb. specialize (Hbody i m Hm). setoid_rewrite elem_of_app.
    setoid_rewrite list_elem_of_singleton.
    assert (∀ m0, Some m0 ∈ dn → (<[node_id n := targetNode act]> (mapping r)) !! node_id m0 =
                    mapping r !! node_id m0) as Hkeep.
    { intros m0 Hm0. apply lookup_insert_ne. intros Heq. by apply (Hfresh m0 Hm0). }
    transitivity (hasBody m = true ∨ (i = targetNode act ∧ hasBody n = true)).
    { case_decide as Hi; [rewrite orb_true_iff|]; tauto. }
    rewrite Hbody. split.
    + intros [[?|(m0 & Hin & Hmap & Hb0)]|[-> Hb0]]; [by left|right..].
      * exists m0. rewrite Hkeep by done. tauto.
      * exists n. rewrite lookup_insert_eq. tauto.
    + intros [?|(m0 & [Hin|[= ->]] & Hmap & Hb0)]; [tauto|left; right|right].
      * exists m0. rewrite Hkeep in Hmap by done. tauto.
      * rewrite lookup_insert_eq in Hmap. split; [congruence|done].
Qed.

(** A source node without a match: it is copied. *)
Lemma nodes_merged_copy g dn g1 r n :
  nodes_merged g dn g1 r → (∀ m, Some m ∈ dn → node_id m ≠ node_id n) → functionName n ≠ "" →
  ∃ g2, insert_node g1 (functionName n) (origin n) false (hasBody n) ⇓ (g2, length (nodes g1)) ∧
    nodes_merged g (dn ++ [Some n]) g2 (recordCopy r (node_id n) (length (nodes g1))).
Proof.
  intros [Hwf Hed Hmd Hlen Hold Hnew Hsrc Hdom Hact Hbody] Hfresh Hname.
  destruct (insert_node_ret g1 (functionName n) (origin n) false (hasBody n) Hwf Hname)
    as (g2 & Hrun & Hwf2 & Hlen2 & Hat & He & _ & Hmd2 & _).
  exists g2. split; [done|].
  assert (∀ i m, node_at g1 i = Some m → node_at g2 i = Some m) as Hfwd.
  { intros i m Hm. rewrite Hat, decide_False; [done|]. apply node_at_lt in Hm. lia. }
  assert (∀ m0, Some m0 ∈ dn → (<[node_id n := length (nodes g1)]> (mapping r)) !! node_id m0 =
                  mapping r !! node_id m0) as Hkeep.
  { intros m0 Hm0. apply lookup_insert_ne. intros Heq. by apply (Hfresh m0 Hm0). }
  split; simpl; try congruence; [lia|..].
  - intros i m Hm. destruct (Hold i m Hm) as (m1 & Hm1 & ? & ?). exists m1. split; [by apply Hfwd|done].
  - intros i m'. rewrite Hat. case_decide as Hi.
    + intros [= <-]. right. split_and!; [lia|done|]. exists (node_id n).
      by rewrite lookup_insert_eq, Hi.
    + intros Hm. destruct (Hnew i m' Hm) as [?|(? & ? & s & Hs)]; [by left|right].
      split_and!; [done|done|]. exists s. rewrite lookup_insert_ne; [done|]. intros <-.
      destruct (Hdom (node_id n)) as (m0 & Hin & Heq); [by eexists|]. by apply (Hfresh m0).
  - intros m [Hm|[= ->]%list_elem_of_singleton]%elem_of_app.
    + destruct (Hsrc m Hm) as (u & m1 & Hu & Hm1 & Hn1). exists u, m1.
      rewrite Hkeep by done. split_and!; [done|by apply Hfwd|done].
    + eexists _, _. rewrite lookup_insert_eq, Hat, decide_True by done. by split_and!.
  - intros s Hs. apply lookup_insert_is_Some' in Hs as [<-|Hs].
    + exists n. split; [set_solver|done].
    + destruct (Hdom s Hs) as (m & ? & ?). exists m. split; [set_solver|done].
  - intros s u. rewrite lookup_insert. case_decide; [intros [= <-]; by right|]. apply Hact.
  - intros i m'. rewrite Hat. setoid_rewrite elem_of_app. setoid_rewrite list_elem_of_singleton.
    case_decide as Hi.
    + intros [= <-]. simpl. split.
      * intros Hb. right. exists n. rewrite lookup_insert_eq, Hi. tauto.
      * intros [(m0 & Hm0 & _)|(m0 & [Hin|[= ->]] & Hmap & Hb)]; [|exfalso|done].
        -- destruct (Hold i m0 Hm0) as (m1 & Hm1 & _). apply node_at_lt in Hm1. lia.
        -- rewrite Hkeep in Hmap by done. destruct (Hsrc m0 Hin) as (u & m1 & Hu & Hm1 & _).
           apply node_at_lt in Hm1. assert (u = i) by congruence. lia.
    + intros Hm. rewrite (Hbody i m' Hm). split.
      * intros [?|(m0 & Hin & Hmap & Hb0)]; [by left|right]. exists m0. rewrite Hkeep by done. tauto.
      * intros [?|(m0 & [Hin|[= ->]] & Hmap & Hb0)]; [by left|right|].
        -- exists m0. rewrite Hkeep in Hmap by done. tauto.
        -- rewrite lookup_insert_eq in Hmap. congruence.
Qed.

Context (P : MergePolicy) {PL : PolicyLaws P}.

(** Steps 1 and 2. *)
Lemma merge_nodes_ret g other :
  wf g → mergeable_source other → (∀ n, Some n ∈ nodes other → functionName n ≠ "") →
  ∃ g1 r, foldM (merge_node P) (g, empty_recorder) (nodes other) ⇓ (g1, r) ∧
          nodes_merged g (nodes other) g1 r.
Proof.
  intros Hwf Hsrc Hnames.
  destruct (foldM_ind (λ dn st, nodes_merged g dn st.1 st.2) (merge_node P) (nodes other)
    (g, empty_recorder)) as ([g1 r] & Hrun & Hinv); [by apply nodes_merged_nil| |by eauto].
  intros dn x rest [g1 r] Heq Hinv. simpl in Hinv.
  destruct (source_split other dn x rest Hsrc Heq) as (n & -> & Hn & Hid & Hlt).
  assert (∀ m, Some m ∈ dn → node_id m ≠ node_id n) as Hfresh.
  { intros m Hm. apply Hlt in Hm. lia. }
  unfold merge_node. cbn [deref fst snd]. rewrite bind_ret.
  destruct (policy_spec g1 n (nm_wf _ _ _ _ Hinv)) as [Hno|(act & t & Hyes & Ht & Hname & Hb)].
  - rewrite Hno, bind_ret.
    destruct (nodes_merged_copy g dn g1 r n Hinv Hfresh) as (g2 & -> & Hinv2).
    { apply Hnames. rewrite Heq. set_solver. }
    by eexists.
  - rewrite Hyes, bind_ret, (getNode_live _ _ _ Ht), bind_ret. cbn. eexists. split; [done|].
    by apply (nodes_merged_match g dn g1 r n act t).
Qed.
End nodes.

(** ** Metadata objects *)

(** A class of metadata objects whose merges always succeed. *)
Class Mergeable {JO : JsonOps} {MDI : MetaDataI} (good : MD → Prop) := {
  good_merge a b act map :
    good a → good b → md_getKey a = md_getKey b → md_refs b ⊆ dom map →
    ∃ c, md_merge a b act map ⇓ c ∧ good c;
  good_apply m map m' : good m → md_applyMapping m map ⇓ m' → good m'
}.

Section metadata_objects.
Context {JO : JsonOps} {MDI : MetaDataI} {MDL : MetaDataLaws}.
Context (good : MD → Prop) {MG : Mergeable good}.

(** An object that belongs to a graph with the live nodes [L]. *)
Definition md_ok (L : NodeId → Prop) (md : MD) : Prop :=
  good md ∧ ∀ i, i ∈ md_refs md → L i.

Context (L : NodeId → Prop) (map : GraphMapping) (Hmap : ∀ s t, map !! s = Some t → L t).

(** An object of the source of the merge. *)
Definition md_source (md : MD) : Prop := good md ∧ md_refs md ⊆ dom map.

Lemma merge_md_ok a b act :
  md_ok L a → md_source b → md_getKey a = md_getKey b →
  ∃ c, md_merge a b act map ⇓ c ∧ md_ok L c ∧ md_getKey c = md_getKey a.
Proof using All.
  intros [Ha HLa] [Hb HLb] Hk. destruct (good_merge a b act map Ha Hb Hk HLb) as (c & Hc & Hg).
  exists c. split_and!; [done|split; [done|]|by eapply md_merge_key].
  intros i Hi. destruct (md_merge_refs _ _ _ _ _ Hc i Hi) as [?|(j & _ & Hj)]; [by apply HLa|].
  by eapply Hmap.
Qed.

Lemma apply_md_ok b :
  md_source b →
  ∃ c, md_applyMapping (md_clone b) map ⇓ c ∧ md_ok L c ∧ md_getKey c = md_getKey b.
Proof using All.
  intros [Hb HLb]. rewrite md_clone_eq. destruct (md_applyMapping_total b map HLb) as [c Hc].
  exists c. split_and!; [done|split; [by eapply good_apply|]|by eapply md_applyMapping_key].
  intros i Hi. destruct (md_applyMapping_refs _ _ _ Hc i Hi) as (j & _ & Hj). by eapply Hmap.
Qed.

(** ** Step 3: edges *)

Definition edge_keyed (m : NamedMetadata) : Prop :=
  ∀ k md, m !! k = Some md → k ≠ MetaData_key → md_getKey md = k.

Lemma set_edge_md_wf g ids k md :
  wf g → wf (set_edge_md g ids k md) ∧
  (∀ p, is_Some (edges (set_edge_md g ids k md) !! p) ↔ is_Some (edges g !! p)).
Proof.
  intros Hwf.
  assert (∀ p, is_Some (edges (set_edge_md g ids k md) !! p) ↔ is_Some (edges g !! p)) as Hdom.
  { intros p. simpl. rewrite lookup_alter_is_Some. done. }
  split; [|done]. apply wf_set_adjacency; [done|..].
  - destruct (wf_adj _ Hwf) as [H1 H2].
    split; (eapply half_ok_dom; [|done]); intros; by rewrite <- Hdom.
  - intros [a b] Hab. apply (wf_edges _ Hwf). by apply (Hdom (a, b)).
Qed.

Lemma addEdgeMetaData_set g ids k md :
  is_Some (edges g !! ids) → (addEdgeMetaData g ids k md).1 = set_edge_md g ids k md.
Proof.
  intros [m Hm]. unfold addEdgeMetaData. rewrite Hm. simpl. unfold set_edge_md. f_equal.
  apply map_eq. intros p. rewrite lookup_insert, lookup_alter. case_decide; subst; [|done].
  by rewrite Hm.
Qed.

(** The metadata of an edge of the target: objects of the graph, filed under
    their keys; under [MetaData::key] lies what earlier merges copied.  A key
    other than this one is only present if the edge was [old]. *)
Definition edge_md_ok (old : NodeId * NodeId → Prop) (p : NodeId * NodeId) (m : NamedMetadata)
    : Prop :=
  edge_keyed m ∧ map_Forall (λ _, md_ok L) m ∧
  ∀ k, is_Some (m !! k) → k ≠ MetaData_key → old p.

Lemma edge_md_ok_insert old p m k md :
  edge_md_ok old p m → md_ok L md → (k ≠ MetaData_key → md_getKey md = k ∧ old p) →
  edge_md_ok old p (<[k := md]> m).
Proof.
  intros (H1 & H2 & H3) Hmd Hk. split_and!.
  - intros k' md' [[<- <-]|[_ ?]]%lookup_insert_Some Hne; [by apply Hk|by apply H1].
  - by apply map_Forall_insert_2.
  - intros k' [<-|?]%lookup_insert_is_Some' Hne; [by apply Hk|by eapply H3].
Qed.

Lemma merge_edge_mds_ret old r src ids g mds :
  wf g → getMapping r = map → is_Some (edges g !! ids) →
  (∀ p m, edges g !! p = Some m → edge_md_ok old p m) →
  (∀ k md, (k, md) ∈ mds → md_source md ∧ md_getKey md = k ∧ k ≠ MetaData_key) →
  (old ids → is_Some (getAction r src.1)) →
  ∃ g', foldM (merge_edge_md r src ids) g mds ⇓ g' ∧
    wf g' ∧ nodes g' = nodes g ∧ cg_md g' = cg_md g ∧
    (∀ p, is_Some (edges g' !! p) ↔ is_Some (edges g !! p)) ∧
    (∀ p m, edges g' !! p = Some m → edge_md_ok old p m).
Proof using All.
  intros Hwf Hr Hids Hok Hsrc Hact.
  apply (foldM_inv (λ g', wf g' ∧ nodes g' = nodes g ∧ cg_md g' = cg_md g ∧
    (∀ p, is_Some (edges g' !! p) ↔ is_Some (edges g !! p)) ∧
    (∀ p m, edges g' !! p = Some m → edge_md_ok old p m))); [by split_and!|].
  intros [k md] g' Hin (Hwf' & Hn & Hmd & Hdom & Hok').
  destruct (Hsrc k md Hin) as (Hmds & Hkey & Hne).
  assert (∀ k' md', md_ok L md' → (k' ≠ MetaData_key → md_getKey md' = k' ∧ old ids) →
    wf (set_edge_md g' ids k' md') ∧ nodes (set_edge_md g' ids k' md') = nodes g ∧
    cg_md (set_edge_md g' ids k' md') = cg_md g ∧
    (∀ p, is_Some (edges (set_edge_md g' ids k' md') !! p) ↔ is_Some (edges g !! p)) ∧
    (∀ p m, edges (set_edge_md g' ids k' md') !! p = Some m → edge_md_ok old p m)) as Hset.
  { intros k' md' Hmd' Hk'. destruct (set_edge_md_wf g' ids k' md' Hwf') as [Hw Hd].
    split_and!; [done|done|done|intros p; by rewrite Hd|]. intros p m. simpl.
    rewrite lookup_alter. case_decide; [subst|by apply Hok'].
    destruct (edges g' !! p) as [m0|] eqn:Hm0; [|done]. intros [= <-].
    apply edge_md_ok_insert; [by apply Hok'|done|done]. }
  unfold merge_edge_md, getEdgeMetaData. cbn [fst snd].
  destruct (proj2 (Hdom ids) Hids) as [m Hm]. rewrite Hm.
  destruct (m !! k) as [e|] eqn:He.
  - destruct (Hok' ids m Hm) as (Hk & Hall & Hold).
    assert (old ids) as Ho by (eapply Hold; [by eexists|done]).
    destruct (Hact Ho) as [act Ha]. rewrite Ha. cbn.
    destruct (merge_md_ok e md (Some act)) as (c & Hc & Hcok & Hckey);
      [by eapply Hall|done|by rewrite Hkey, (Hk k e)|].
    rewrite Hr, Hc. cbn. eexists. split; [done|]. apply Hset; [done|].
    intros _. split; [by rewrite Hckey, (Hk k e)|done].
  - destruct (apply_md_ok md Hmds) as (c & Hc & Hcok & Hckey). rewrite Hr, Hc. cbn.
    eexists. split; [done|]. rewrite addEdgeMetaData_set by eauto. by apply Hset.
Qed.

(** The pair [p] is what the pair [q] of source nodes is mapped to. *)
Definition mapped (q p : NodeId * NodeId) : Prop :=
  map !! q.1 = Some p.1 ∧ map !! q.2 = Some p.2.

Lemma merge_edges_ret old r g other es :
  wf g → getMapping r = map → (∀ i, L i → live g i) →
  (∀ p m, edges g !! p = Some m → edge_md_ok old p m) →
  (∀ q mds, (q, mds) ∈ es → edges other !! q = Some mds ∧
     is_Some (map !! q.1) ∧ is_Some (map !! q.2) ∧
     ∀ k md, mds !! k = Some md → md_source md ∧ md_getKey md = k ∧ k ≠ MetaData_key) →
  (∀ q p, mapped q p → old p → is_Some (getAction r q.1)) →
  ∀ IO : IterOrder,
  ∃ g', foldM (merge_edge other r) g es ⇓ g' ∧
    wf g' ∧ nodes g' = nodes g ∧ cg_md g' = cg_md g ∧
    (∀ p, is_Some (edges g' !! p) ↔
          is_Some (edges g !! p) ∨ ∃ q, q ∈ es.*1 ∧ mapped q p) ∧
    (∀ p m, edges g' !! p = Some m → edge_md_ok old p m).
Proof using All.
  intros Hwf Hr HL Hok Hsrc Hact IO.
  apply (foldM_ind (λ dn g', wf g' ∧ nodes g' = nodes g ∧ cg_md g' = cg_md g ∧
    (∀ p, is_Some (edges g' !! p) ↔
          is_Some (edges g !! p) ∨ ∃ q, q ∈ dn.*1 ∧ mapped q p) ∧
    (∀ p m, edges g' !! p = Some m → edge_md_ok old p m))).
  { split_and!; try done. intros p. set_solver. }
  intros dn [q mds] rest g' -> (Hwf' & Hn & Hmd & Hdom & Hok').
  destruct (Hsrc q mds) as (Hq & [a Ha] & [b Hb] & Hmds); [set_solver|].
  unfold merge_edge. cbn [fst snd]. rewrite Hr, Ha, Hb. cbn [cpp_assert].
  cbn -[existsEdge addEdge getAllEdgeMetaData foldM].
  assert (∀ i, L i → live g' i) as HL'.
  { intros i Hi. unfold node_at. rewrite Hn. by apply HL. }
  assert (∃ g2 b0, (if existsEdge g' a b then Ret (g', false) else addEdge g' a b) ⇓ (g2, b0) ∧
    wf g2 ∧ nodes g2 = nodes g ∧ cg_md g2 = cg_md g ∧
    edges g2 = (if existsEdge g' a b then edges g' else <[(a, b) := ∅]> (edges g')))
    as (g2 & b0 & Hrun & Hwf2 & Hn2 & Hmd2 & He2).
  { destruct (existsEdge g' a b) eqn:Hex; [by exists g', false|].
    pose proof (HL' a ltac:(by eapply Hmap)) as Hla. pose proof (HL' b ltac:(by eapply Hmap)) as Hlb.
    destruct (addEdge_ret g' a b Hwf') as (g2 & Hrun & Hwf2 & Hn2 & _ & Hmd2 & _ & _ & He2).
    { apply live_lt in Hla. lia. } { apply live_lt in Hlb. lia. }
    rewrite !hasNode_id_spec, !bool_decide_true, Hex in Hrun, He2 by done.
    eexists g2, _. split_and!; [done|done|congruence|congruence|done]. }
  rewrite Hrun. cbn -[getAllEdgeMetaData foldM].
  assert (∀ p, is_Some (edges g2 !! p) ↔ is_Some (edges g' !! p) ∨ p = (a, b)) as Hdom2.
  { intros p. rewrite He2. unfold existsEdge. case_bool_decide as Hex.
    - split; [by left|]. by intros [?| ->].
    - rewrite lookup_insert_is_Some'. naive_solver. }
  unfold getAllEdgeMetaData. rewrite Hq. cbn -[foldM].
  destruct (merge_edge_mds_ret old r q (a, b) g2 (iter_map mds)) as (g3 & Hrun3 & Hwf3 & Hn3 & Hmd3 & Hd3 & Hok3).
  - done.
  - done.
  - apply Hdom2. by right.
  - intros p m. rewrite He2. destruct (existsEdge g' a b); [apply Hok'|].
    intros [[<- <-]|[_ ?]]%lookup_insert_Some; [|by apply Hok'].
    split_and!; [by intros k md ?|apply map_Forall_empty|].
    intros k [? Hk]. by rewrite lookup_empty in Hk.
  - intros k md Hk%elem_of_iter_map. by apply Hmds.
  - intros Ho. by apply (Hact q (a, b)).
  - exists g3. split; [done|]. split_and!; [done|congruence|congruence| |done].
    intros p. rewrite Hd3, Hdom2, Hdom, fmap_app. setoid_rewrite elem_of_app. cbn.
    setoid_rewrite list_elem_of_singleton. split.
    + intros [[?|(q' & ? & ?)]| ->]; [by left|right; eauto|right; exists q; by split; [right|]].
    + intros [?|(q' & [?| ->] & [H1 H2])]; [tauto|left; right; by exists q'|right].
      destruct p; simpl in *. congruence.
Qed.

(** ** Steps 4 and 5: metadata of nodes and of the graph *)

Definition named_md_ok (m : NamedMetadata) : Prop := keyed m ∧ map_Forall (λ _, md_ok L) m.

Lemma named_md_ok_insert m k md :
  named_md_ok m → md_ok L md → md_getKey md = k → named_md_ok (<[k := md]> m).
Proof. intros [H1 H2] H Hk. split; [by apply keyed_insert|by apply map_Forall_insert_2]. Qed.

(** Everything of a node but its metadata. *)
Definition same_core (n n' : CgNode) : Prop :=
  functionName n' = functionName n ∧ hasBody n' = hasBody n ∧ origin n' = origin n.

(** [g'] differs from [g] at most in the metadata of node [t]. *)
Definition only_md_of (t : NodeId) (g g' : Callgraph) : Prop :=
  wf g' ∧ edges g' = edges g ∧ cg_md g' = cg_md g ∧
  (∀ j, j ≠ t → node_at g' j = node_at g j).

Lemma update_md_only g t n f :
  wf g → node_at g t = Some n →
  only_md_of t g (update_node g t (λ n, set_node_md n (f n))) ∧
  node_at (update_node g t (λ n, set_node_md n (f n))) t = Some (set_node_md n (f n)).
Proof.
  intros Hwf Hn. split.
  - split_and!; [by apply update_node_wf|done|done|].
    intros j Hj. by rewrite update_node_at, decide_False.
  - by rewrite update_node_at, decide_True, Hn.
Qed.

Lemma merge_node_mds_ret r src t g n mds :
  wf g → getMapping r = map → node_at g t = Some n → named_md_ok (node_md n) →
  (∀ k md, (k, md) ∈ mds → md_source md ∧ md_getKey md = k) → NoDup mds.*1 →
  (∀ k, is_Some (node_md n !! k) → k ∈ mds.*1 → is_Some (getAction r src)) →
  ∃ g' n', foldM (merge_node_md_entry r src t) g mds ⇓ g' ∧ only_md_of t g g' ∧
    node_at g' t = Some n' ∧ same_core n n' ∧ named_md_ok (node_md n') ∧
    ∀ k, is_Some (node_md n' !! k) ↔ is_Some (node_md n !! k) ∨ k ∈ mds.*1.
Proof using All.
  intros Hwf Hr Hn Hok Hsrc Hnd Hact.
  destruct (foldM_ind (λ dn g', only_md_of t g g' ∧ ∃ n', node_at g' t = Some n' ∧
    same_core n n' ∧ named_md_ok (node_md n') ∧
    ∀ k, is_Some (node_md n' !! k) ↔ is_Some (node_md n !! k) ∨ k ∈ dn.*1)
    (merge_node_md_entry r src t) mds g) as (g' & Hrun & Honly & n' & H); [| |by exists g', n'].
  { split; [done|]. exists n. split_and!; try done. set_solver. }
  intros dn [k md] rest g' -> (Honly & n' & Hn' & Hcore & Hok' & Hkeys).
  destruct (Hsrc k md) as [Hmds Hkey]; [set_solver|]. rewrite fmap_app in Hnd.
  apply NoDup_app in Hnd as (_ & Hnd & _).
  assert (k ∉ dn.*1) as Hk by (intros ?; apply (Hnd k); set_solver).
  assert (∀ md' , md_ok L md' → md_getKey md' = k →
    only_md_of t g (update_node g' t (λ n, set_node_md n (<[k := md']> (node_md n)))) ∧
    ∃ n2, node_at (update_node g' t (λ n, set_node_md n (<[k := md']> (node_md n)))) t = Some n2 ∧
      same_core n n2 ∧ named_md_ok (node_md n2) ∧
      ∀ k0, is_Some (node_md n2 !! k0) ↔ is_Some (node_md n !! k0) ∨ k0 ∈ (dn ++ [(k, md)]).*1)
    as Hset.
  { intros md' Hmd' Hk'. destruct Honly as (Hw & He & Hc & Ho).
    destruct (update_md_only g' t n' (λ n, <[k := md']> (node_md n)) Hw Hn')
      as ((Hw2 & He2 & Hc2 & Ho2) & Hn2).
    split; [split_and!; [done|congruence|congruence|intros j Hj; by rewrite Ho2, Ho]|].
    eexists. split; [done|]. split_and!; [by destruct Hcore as (?&?&?)|by apply named_md_ok_insert|].
    intros k0. simpl. rewrite lookup_insert_is_Some', Hkeys, fmap_app, elem_of_app. cbn.
    rewrite list_elem_of_singleton. naive_solver. }
  unfold merge_node_md_entry, md_get. rewrite Hn'. cbn.
  destruct (node_md n' !! k) as [e|] eqn:He.
  - destruct (Hact k) as [act Ha].
    { destruct (proj1 (Hkeys k)) as [?|?]; [by eexists|done|done]. }
    { rewrite fmap_app. set_solver. }
    rewrite Ha. cbn. destruct Hok' as [Hke Hall].
    destruct (merge_md_ok e md (Some act)) as (c & Hc & Hcok & Hckey);
      [by eapply Hall|done|by rewrite Hkey, (Hke k e)|].
    rewrite Hr, Hc. cbn. eexists. split; [done|]. apply Hset; [done|].
    by rewrite Hckey, (Hke k e).
  - destruct (apply_md_ok md Hmds) as (c & Hc & Hcok & Hckey). rewrite Hr, Hc. cbn.
    eexists. split; [done|]. unfold CgNode_addMetaData, addMetaData.
    rewrite Hckey, Hkey. apply Hset; [done|congruence].
Qed.

(** Step 4, for all nodes of the source. *)
Lemma merge_node_md_ret r g other :
  wf g → getMapping r = map → mergeable_source other → (∀ i, L i ↔ live g i) →
  (∀ i n, node_at g i = Some n → named_md_ok (node_md n)) →
  (∀ s n, node_at other s = Some n → is_Some (map !! s) ∧
     ∀ k md, node_md n !! k = Some md → md_source md ∧ md_getKey md = k) →
  (∀ s s' t, map !! s = Some t → map !! s' = Some t → s = s') →
  (∀ s t n, map !! s = Some t → node_at g t = Some n → node_md n ≠ ∅ → is_Some (getAction r s)) →
  ∀ IO : IterOrder,
  ∃ g', foldM (merge_node_md r) g (nodes other) ⇓ g' ∧ wf g' ∧ edges g' = edges g ∧
    cg_md g' = cg_md g ∧ (∀ i, live g' i ↔ live g i) ∧
    ∀ i n, node_at g i = Some n → ∃ n', node_at g' i = Some n' ∧ same_core n n' ∧
      named_md_ok (node_md n') ∧
      ∀ k, is_Some (node_md n' !! k) ↔ is_Some (node_md n !! k) ∨
        ∃ m, Some m ∈ nodes other ∧ map !! node_id m = Some i ∧ is_Some (node_md m !! k).
Proof using All.
  intros Hwf Hr Hother HL Hok Hsrc Hinj Hact IO.
  apply (foldM_ind (λ dn g', wf g' ∧ edges g' = edges g ∧ cg_md g' = cg_md g ∧
    (∀ i, live g' i ↔ live g i) ∧
    ∀ i n, node_at g i = Some n → ∃ n', node_at g' i = Some n' ∧ same_core n n' ∧
      named_md_ok (node_md n') ∧
      ∀ k, is_Some (node_md n' !! k) ↔ is_Some (node_md n !! k) ∨
        ∃ m, Some m ∈ dn ∧ map !! node_id m = Some i ∧ is_Some (node_md m !! k))).
  { split_and!; try done. intros i n Hn. exists n. split_and!; try done; [by eapply Hok|].
    set_solver. }
  intros dn x rest g' Heq (Hwf' & He & Hcmd & Hlive & Hall).
  destruct (source_split other dn x rest Hother Heq) as (m & -> & Hm & Hid & Hlt).
  destruct (Hsrc _ _ Hm) as [[t Ht] Hmds]. rewrite <- Hid in Ht, Hm.
  assert (live g t) as [n Hn] by (apply HL; by eapply Hmap).
  destruct (Hall t n Hn) as (n' & Hn' & Hcore & Hok' & Hkeys).
  destruct (merge_node_mds_ret r (node_id m) t g' n' (iter_map (node_md m)))
    as (g2 & n2 & Hrun & (Hwf2 & He2 & Hc2 & Ho2) & Hn2 & Hcore2 & Hok2 & Hkeys2); try done.
  - intros k md Hk%elem_of_iter_map. by apply Hmds.
  - apply iter_map_NoDup_fst.
  - intros k [Hk|(m' & Hin & Hm' & _)]%Hkeys _.
    + apply (Hact _ t n); [done..|]. intros Hemp. rewrite Hemp, lookup_empty in Hk.
      by destruct Hk.
    + exfalso. pose proof (Hinj _ _ _ Ht Hm'). apply Hlt in Hin. lia.
  - exists g2. split.
    { unfold merge_node_md. cbn [deref]. rewrite bind_ret, Hr, Ht. cbn -[foldM getNode].
      rewrite (getNode_live _ _ _ Hn'). done. }
    split_and!; [done|congruence|congruence|..].
    + intros i. rewrite <- Hlive. destruct (decide (i = t)) as [->|Hne]; [|by rewrite Ho2].
      rewrite Hn2, Hn'. split; by eexists.
    + intros i ni Hni. destruct (decide (i = t)) as [->|Hne].
      * assert (ni = n) as -> by congruence. exists n2. split_and!; [done| |done|].
        { unfold same_core in *. intuition congruence. }
        intros k. rewrite Hkeys2, Hkeys. setoid_rewrite elem_of_app.
        setoid_rewrite list_elem_of_singleton.
        assert (k ∈ (iter_map (node_md m)).*1 ↔ is_Some (node_md m !! k)) as ->.
        { rewrite list_elem_of_fmap. split.
          - intros ([k' md] & -> & Hin%elem_of_iter_map). by eexists.
          - intros [md Hmd]. exists (k, md). split; [done|by apply elem_of_iter_map]. }
        split; [intros [[?|(m' & ? & ? & ?)]|?]|intros [?|(m' & [?|[= ->]] & ? & ?)]]; eauto 8.
      * destruct (Hall i ni Hni) as (n3 & Hn3 & Hcore3 & Hok3 & Hkeys3). exists n3.
        rewrite Ho2 by done. split_and!; [done..|]. intros k. rewrite Hkeys3.
        setoid_rewrite elem_of_app. setoid_rewrite list_elem_of_singleton.
        split; [intros [?|(m' & ? & ? & ?)]|intros [?|(m' & [?|[= ->]] & ? & ?)]]; eauto 8.
        congruence.
Qed.

(** Step 5. *)
Lemma merge_global_ret r g mds :
  wf g → getMapping r = map → named_md_ok (cg_md g) →
  (∀ k md, (k, md) ∈ mds → md_source md ∧ md_getKey md = k) →
  ∃ g', foldM (merge_global_md r) g mds ⇓ g' ∧ wf g' ∧ nodes g' = nodes g ∧ edges g' = edges g ∧
    named_md_ok (cg_md g') ∧
    ∀ k, is_Some (cg_md g' !! k) ↔ is_Some (cg_md g !! k) ∨ k ∈ mds.*1.
Proof using All.
  intros Hwf Hr Hok Hsrc.
  apply (foldM_ind (λ dn g', wf g' ∧ nodes g' = nodes g ∧ edges g' = edges g ∧
    named_md_ok (cg_md g') ∧
    ∀ k, is_Some (cg_md g' !! k) ↔ is_Some (cg_md g !! k) ∨ k ∈ dn.*1)).
  { split_and!; try done. set_solver. }
  intros dn [k md] rest g' -> (Hwf' & Hn & He & Hok' & Hkeys).
  destruct (Hsrc k md) as [Hmds Hkey]; [set_solver|].
  assert (∀ c, md_ok L c → md_getKey c = k → let g2 := set_cg_md g' (<[k := c]> (cg_md g')) in
    wf g2 ∧ nodes g2 = nodes g ∧ edges g2 = edges g ∧ named_md_ok (cg_md g2) ∧
    ∀ k0, is_Some (cg_md g2 !! k0) ↔ is_Some (cg_md g !! k0) ∨ k0 ∈ (dn ++ [(k, md)]).*1) as Hset.
  { intros c Hc Hck. split_and!; [by apply wf_set_cg_md|done|done|by apply named_md_ok_insert|].
    intros k0. simpl. rewrite lookup_insert_is_Some', Hkeys, fmap_app, elem_of_app. cbn.
    rewrite list_elem_of_singleton. naive_solver. }
  unfold merge_global_md, md_get. cbn [fst snd]. destruct (cg_md g' !! k) as [e|] eqn:Hk.
  - destruct Hok' as [Hke Hall].
    destruct (merge_md_ok e md None) as (c & Hc & Hcok & Hckey);
      [by eapply Hall|done|by rewrite Hkey, (Hke k e)|].
    rewrite Hr, Hc. cbn. eexists. split; [done|]. apply Hset; [done|].
    by rewrite Hckey, (Hke k e).
  - destruct (apply_md_ok md Hmds) as (c & Hc & Hcok & Hckey). rewrite Hr, Hc. cbn.
    eexists. split; [done|]. unfold addMetaData. rewrite Hckey, Hkey.
    apply Hset; [done|congruence].
Qed.
End metadata_objects.

(** ** The whole merge *)

Section whole.
Context {JO : JsonOps} {MDI : MetaDataI} {MDL : MetaDataLaws}.
Context (good : MD → Prop) {MG : Mergeable good}.

(** The metadata of a graph: filed under its keys, and it only refers to nodes
    of the graph. *)
Record graph_md_ok (g : Callgraph) : Prop := {
  go_nodes : ∀ i n, node_at g i = Some n → named_md_ok good (λ j, live g j) (node_md n);
  go_edges : ∀ p m, edges g !! p = Some m →
    edge_keyed m ∧ map_Forall (λ _, md_ok good (λ j, live g j)) m;
  go_global : named_md_ok good (λ j, live g j) (cg_md g)
}.

(** A source of a merge: complete, with unique named functions, and edge
    metadata that no merge has copied before. *)
Record good_source (other : Callgraph) : Prop := {
  gs_source : mergeable_source other;
  gs_names : ∀ n, Some n ∈ nodes other → functionName n ≠ "";
  gs_unique : ∀ i j n m, node_at other i = Some n → node_at other j = Some m →
    functionName n = functionName m → i = j;
  gs_md : graph_md_ok other;
  gs_edges : ∀ p m k, edges other !! p = Some m → is_Some (m !! k) → k ≠ MetaData_key
}.

(** [g'] is the merge of [other] into [g] along [map]. *)
Record merged (g other : Callgraph) (map : GraphMapping) (g' : Callgraph) : Prop := {
  (** every source node has a counterpart of the same name, others have none *)
  mg_src : ∀ s n, node_at other s = Some n → ∃ t n', map !! s = Some t ∧
    node_at g' t = Some n' ∧ functionName n' = functionName n;
  mg_dom : ∀ s, is_Some (map !! s) → live other s;
  mg_inj : ∀ s s' t, map !! s = Some t → map !! s' = Some t → s = s';
  (** the nodes of the target stay, and there are no others *)
  mg_old : ∀ i n, node_at g i = Some n → ∃ n', node_at g' i = Some n' ∧
    functionName n' = functionName n;
  mg_new : ∀ i, live g' i ↔ live g i ∨ ∃ s, map !! s = Some i;
  (** a function has a body if it had one on either side *)
  mg_body : ∀ i n', node_at g' i = Some n' → (hasBody n' = true ↔
    (∃ n, node_at g i = Some n ∧ hasBody n = true) ∨
    (∃ s n, map !! s = Some i ∧ node_at other s = Some n ∧ hasBody n = true));
  (** the edges are those of the target and the mapped ones *)
  mg_edges : ∀ p, is_Some (edges g' !! p) ↔ is_Some (edges g !! p) ∨
    ∃ q, is_Some (edges other !! q) ∧ mapped map q p;
  (** node and graph metadata: the kinds of both sides *)
  mg_node_md : ∀ i n', node_at g' i = Some n' → ∀ k, is_Some (node_md n' !! k) ↔
    (∃ n, node_at g i = Some n ∧ is_Some (node_md n !! k)) ∨
    (∃ s n, map !! s = Some i ∧ node_at other s = Some n ∧ is_Some (node_md n !! k));
  mg_global_md : ∀ k, is_Some (cg_md g' !! k) ↔ is_Some (cg_md g !! k) ∨ is_Some (cg_md other !! k);
  mg_main : mainNode g' = None
}.

Lemma md_ok_mono (L L' : NodeId → Prop) md :
  (∀ i, L i → L' i) → md_ok good L md → md_ok good L' md.
Proof. intros HL [Hg Hr]. split; eauto. Qed.

Lemma named_md_ok_mono (L L' : NodeId → Prop) m :
  (∀ i, L i → L' i) → named_md_ok good L m → named_md_ok good L' m.
Proof.
  intros HL [Hk Hm]. split; [done|]. intros k md Hmd. eapply md_ok_mono; [done|]. by eapply Hm.
Qed.

(** The mapping the first two steps record. *)
Section mapping.
Context (g other g1 : Callgraph) (r : MergeRecorder).
Context (Hsrc : good_source other) (NM : nodes_merged g (nodes other) g1 r).

Lemma mapping_src s n : node_at other s = Some n → ∃ t n', mapping r !! s = Some t ∧
  node_at g1 t = Some n' ∧ functionName n' = functionName n.
Proof using All.
  intros Hn. destruct (wf_ids _ (ms_wf _ (gs_source _ Hsrc)) _ _ Hn) as [<- _].
  apply (nm_src _ _ _ _ NM). by apply source_elem; [apply Hsrc|].
Qed.

Lemma mapping_dom s : is_Some (mapping r !! s) → ∃ n, node_at other s = Some n ∧ node_id n = s.
Proof using All.
  intros (n & Hn & <-)%(nm_dom _ _ _ _ NM). exists n. split; [|done].
  by apply source_elem; [apply Hsrc|].
Qed.

Lemma mapping_live s t : mapping r !! s = Some t → live g1 t.
Proof using All.
  intros Ht. destruct (mapping_dom s) as (n & Hn & _); [by eexists|].
  destruct (mapping_src s n Hn) as (t' & n' & Ht' & Hn' & _). assert (t' = t) as -> by congruence.
  by eexists.
Qed.

Lemma mapping_inj s s' t : mapping r !! s = Some t → mapping r !! s' = Some t → s = s'.
Proof using All.
  intros Ht Ht'.
  destruct (mapping_dom s) as (n & Hn & _); [by eexists|].
  destruct (mapping_dom s') as (m & Hm & _); [by eexists|].
  destruct (mapping_src s n Hn) as (u & n' & Hu & Hn' & Hnn).
  destruct (mapping_src s' m Hm) as (u' & m' & Hu' & Hm' & Hmm).
  apply (gs_unique _ Hsrc _ _ n m); congruence.
Qed.

Lemma mapping_source md :
  md_ok good (λ j, live other j) md → md_source good (mapping r) md.
Proof using All.
  intros [Hg Hr]. split; [done|]. intros i Hi. apply elem_of_dom. destruct (Hr i Hi) as [n Hn].
  destruct (mapping_src i n Hn) as (t & _ & Ht & _). by eexists.
Qed.

Lemma mapping_action s t : mapping r !! s = Some t → live g t → is_Some (actions r !! s).
Proof using All.
  intros Ht Hl%live_lt. destruct (nm_act _ _ _ _ NM s t Ht); [done|lia].
Qed.

Lemma mapping_old_live i : live g i → live g1 i.
Proof using All. intros [n Hn]. destruct (nm_old _ _ _ _ NM i n Hn) as (n' & Hn' & _). by eexists. Qed.

Lemma mapping_new i : live g1 i ↔ live g i ∨ ∃ s, mapping r !! s = Some i.
Proof using All.
  split.
  - intros [n' Hn']. destruct (nm_new _ _ _ _ NM i n' Hn') as [?|(_ & _ & ?)]; [by left|by right].
  - intros [?|[s Hs]]; [by apply mapping_old_live|by eapply mapping_live].
Qed.

(** The premises of the later steps. *)
Lemma source_edge_md q mds :
  edges other !! q = Some mds →
  edges other !! q = Some mds ∧ is_Some (mapping r !! q.1) ∧ is_Some (mapping r !! q.2) ∧
  ∀ k md, mds !! k = Some md →
    md_source good (mapping r) md ∧ md_getKey md = k ∧ k ≠ MetaData_key.
Proof using All.
  intros Hq. destruct (wf_edges _ (ms_wf _ (gs_source _ Hsrc)) q.1 q.2) as [[n Hn] [m Hm]];
    [destruct q; by eexists|].
  destruct (mapping_src _ _ Hn) as (t & _ & Ht & _). destruct (mapping_src _ _ Hm) as (u & _ & Hu & _).
  split_and!; [done|by eexists|by eexists|]. intros k md Hmd.
  destruct (go_edges _ (gs_md _ Hsrc) _ _ Hq) as [Hk Hall].
  pose proof (gs_edges _ Hsrc q mds k Hq ltac:(by eexists)) as Hne.
  split_and!; [eapply mapping_source, Hall; done|by apply Hk|done].
Qed.

Lemma source_node_md s n :
  node_at other s = Some n → is_Some (mapping r !! s) ∧
  ∀ k md, node_md n !! k = Some md → md_source good (mapping r) md ∧ md_getKey md = k.
Proof using All.
  intros Hn. destruct (mapping_src _ _ Hn) as (t & _ & Ht & _). split; [by eexists|].
  intros k md Hmd. destruct (go_nodes _ (gs_md _ Hsrc) _ _ Hn) as [Hk Hall].
  split; [eapply mapping_source, Hall; done|by apply Hk].
Qed.

Context (Hok : graph_md_ok g).

Lemma target_edge_md p m :
  edges g1 !! p = Some m → edge_md_ok good (λ i, live g1 i) (λ p, is_Some (edges g !! p)) p m.
Proof using All.
  rewrite (nm_edges _ _ _ _ NM). intros Hm.
  destruct (go_edges _ Hok _ _ Hm) as [Hk Hall]. split_and!; [done| |intros; by eexists].
  intros k md Hmd. eapply md_ok_mono; [exact mapping_old_live|]. by eapply Hall.
Qed.

Lemma target_node_md i n :
  node_at g1 i = Some n → named_md_ok good (λ i, live g1 i) (node_md n).
Proof using All.
  intros Hn. destruct (nm_new _ _ _ _ NM i n Hn) as [[n0 Hn0]|(_ & -> & _)].
  - destruct (nm_old _ _ _ _ NM i n0 Hn0) as (n' & Hn' & _ & Hmd). assert (n' = n) as -> by congruence.
    rewrite Hmd. eapply named_md_ok_mono; [exact mapping_old_live|]. by eapply go_nodes.
  - split; [apply keyed_empty|apply map_Forall_empty].
Qed.
End mapping.

(** What steps 3 to 5 make of the graph [g1] that step 2 leaves. *)
Record completed (other g1 : Callgraph) (r : MergeRecorder) (g4 : Callgraph) : Prop := {
  cp_wf : wf g4;
  cp_live : ∀ i, live g4 i ↔ live g1 i;
  cp_nodes : ∀ i n', node_at g4 i = Some n' → ∃ n, node_at g1 i = Some n ∧ same_core n n' ∧
    named_md_ok good (λ i, live g1 i) (node_md n') ∧
    ∀ k, is_Some (node_md n' !! k) ↔ is_Some (node_md n !! k) ∨
      ∃ m, Some m ∈ nodes other ∧ mapping r !! node_id m = Some i ∧ is_Some (node_md m !! k);
  cp_edges : ∀ p, is_Some (edges g4 !! p) ↔ is_Some (edges g1 !! p) ∨
    ∃ q, is_Some (edges other !! q) ∧ mapped (mapping r) q p;
  cp_edge_md : ∀ p m, edges g4 !! p = Some m →
    edge_keyed m ∧ map_Forall (λ _, md_ok good (λ i, live g1 i)) m;
  cp_global : named_md_ok good (λ i, live g1 i) (cg_md g4);
  cp_global_keys : ∀ k, is_Some (cg_md g4 !! k) ↔ is_Some (cg_md g1 !! k) ∨ is_Some (cg_md other !! k)
}.

Lemma elem_of_iter_keys {IO : IterOrder} {K} `{Countable K} {A} (m : gmap K A) k :
  k ∈ (iter_map m).*1 ↔ is_Some (m !! k).
Proof.
  rewrite list_elem_of_fmap. split.
  - intros ([k' md] & -> & Hin%elem_of_iter_map). by eexists.
  - intros [md Hmd]. exists (k, md). split; [done|by apply elem_of_iter_map].
Qed.

Lemma merge_run (P : MergePolicy) {PL : PolicyLaws P} (IO : IterOrder) (g other : Callgraph) :
  wf g → graph_md_ok g → good_source other →
  ∃ g1 r g4, nodes_merged g (nodes other) g1 r ∧ completed other g1 r g4 ∧
    Callgraph_merge P g other ⇓ (set_main g4 None, r).
Proof.
  intros Hwf Hok Hsrc.
  destruct (merge_nodes_ret P g other Hwf (gs_source _ Hsrc) (gs_names _ Hsrc)) as (g1 & r & Hrun1 & NM).
  pose proof (mapping_live g other g1 r Hsrc NM) as HM.
  destruct (merge_edges_ret good (λ i, live g1 i) (mapping r) HM (λ p, is_Some (edges g !! p))
      r g1 other (iter_map (edges other))) with IO
    as (g2 & Hrun2 & Hwf2 & Hn2 & Hmd2 & He2 & Hok2); [apply NM|done|done|..].
  { intros p m. by eapply target_edge_md. }
  { intros q mds Hq%elem_of_iter_map. by eapply source_edge_md. }
  { intros q p [Hq _] Hp. eapply mapping_action; [done..|].
    destruct p as [a b]. by apply (wf_edges _ Hwf a b). }
  assert (∀ i, node_at g2 i = node_at g1 i) as Hat2 by (intros i; unfold node_at; by rewrite Hn2).
  destruct (merge_node_md_ret good (λ i, live g1 i) (mapping r) HM r g2 other) with IO
    as (g3 & Hrun3 & Hwf3 & He3 & Hmd3 & Hlive3 & Hnodes3); [done|done|apply Hsrc|..].
  { intros i. by rewrite Hat2. }
  { intros i n. rewrite Hat2. by eapply target_node_md. }
  { by eapply source_node_md. }
  { by eapply mapping_inj. }
  { intros s t n Ht. rewrite Hat2. intros Hn Hmd.
    destruct (nm_new _ _ _ _ NM t n Hn) as [Hl|(_ & Hemp & _)]; [by eapply mapping_action|done]. }
  destruct (merge_global_ret good (λ i, live g1 i) (mapping r) HM r g3 (iter_map (cg_md other)))
    as (g4 & Hrun4 & Hwf4 & Hn4 & He4 & Hok4 & Hkeys4); [done|done|..].
  { rewrite Hmd3, Hmd2, (nm_md _ _ _ _ NM).
    eapply named_md_ok_mono; [by eapply mapping_old_live|by apply go_global]. }
  { intros k md Hk%elem_of_iter_map. destruct (go_global _ (gs_md _ Hsrc)) as [Hkey Hall].
    split; [eapply mapping_source, Hall; done|by apply Hkey]. }
  exists g1, r, g4. split_and!; [done| |].
  - assert (∀ i, node_at g4 i = node_at g3 i) as Hat4 by (intros i; unfold node_at; by rewrite Hn4).
    split; [done|..].
    + intros i. by rewrite Hat4, Hlive3, Hat2.
    + intros i n'. rewrite Hat4. intros Hn'. destruct (proj1 (Hlive3 i)) as [n Hn]; [by eexists|].
      destruct (Hnodes3 i n Hn) as (n'' & Hn'' & H). exists n. rewrite <- Hat2.
      assert (n'' = n') as -> by congruence. done.
    + intros p. rewrite He4, He3, He2. by setoid_rewrite elem_of_iter_keys.
    + intros p m. rewrite He4, He3. by intros (Hk & Hall & _)%Hok2.
    + done.
    + intros k. by rewrite Hkeys4, Hmd3, Hmd2, elem_of_iter_keys.
  - unfold Callgraph_merge. rewrite Hrun1, bind_ret. cbn [fst snd].
    by rewrite Hrun2, bind_ret, Hrun3, bind_ret, Hrun4.
Qed.

Lemma completed_merged g other g1 r g4 :
  good_source other → nodes_merged g (nodes other) g1 r → completed other g1 r g4 →
  merged g other (mapping r) (set_main g4 None).
Proof.
  intros Hsrc NM [Hwf Hlive Hnodes Hedges _ _ Hglob].
  assert (∀ i n, node_at g1 i = Some n → ∃ n', node_at g4 i = Some n' ∧ functionName n' = functionName n)
    as Hfwd.
  { intros i n Hn. destruct (proj2 (Hlive i)) as [n' Hn']; [by eexists|]. exists n'. split; [done|].
    destruct (Hnodes i n' Hn') as (n0 & Hn0 & (Hname & _) & _). congruence. }
  assert (∀ i (Q : CgNode → Prop), (∃ m, Some m ∈ nodes other ∧ mapping r !! node_id m = Some i ∧ Q m) ↔
     (∃ s m, mapping r !! s = Some i ∧ node_at other s = Some m ∧ Q m)) as Hsrcs.
  { intros i Q. pose proof (ms_wf _ (gs_source _ Hsrc)) as Hw. split.
    - intros (m & Hm & Hmap & HQ). exists (node_id m), m. split_and!; [done| |done].
      by apply source_elem; [apply Hsrc|].
    - intros (s & m & Hmap & Hm & HQ). exists m. destruct (wf_ids _ Hw _ _ Hm) as [Hid _].
      split_and!; [|by rewrite Hid|done]. apply source_elem; [apply Hsrc|by rewrite Hid]. }
  split.
  - intros s n Hn. destruct (mapping_src g other g1 r Hsrc NM s n Hn) as (t & n1 & Ht & Hn1 & Hname).
    destruct (Hfwd t n1 Hn1) as (n' & Hn' & ?). exists t, n'. split_and!; [done|done|congruence].
  - intros s (n & Hn & _)%(mapping_dom g other g1 r Hsrc NM). by eexists.
  - by eapply mapping_inj.
  - intros i n Hn. destruct (nm_old _ _ _ _ NM i n Hn) as (n1 & Hn1 & Hname & _).
    destruct (Hfwd i n1 Hn1) as (n' & Hn' & ?). exists n'. split; [done|congruence].
  - intros i. rewrite <- (mapping_new g other g1 r Hsrc NM). apply Hlive.
  - intros i n' Hn'. destruct (Hnodes i n' Hn') as (n & Hn & (_ & Hb & _) & _).
    rewrite Hb, (nm_body _ _ _ _ NM i n Hn). by rewrite (Hsrcs i (λ m, hasBody m = true)).
  - intros p. simpl. by rewrite Hedges, (nm_edges _ _ _ _ NM).
  - intros i n' Hn' k. destruct (Hnodes i n' Hn') as (n & Hn & _ & _ & Hkeys).
    rewrite Hkeys, (Hsrcs i (λ m, is_Some (node_md m !! k))). f_equiv.
    destruct (nm_new _ _ _ _ NM i n Hn) as [[n0 Hn0]|(Hge & Hemp & _)].
    + destruct (nm_old _ _ _ _ NM i n0 Hn0) as (n1 & Hn1 & _ & Hmd).
      assert (n1 = n) as -> by congruence. rewrite Hmd. split; [by eauto|].
      intros (n2 & Hn2 & ?). by assert (n2 = n0) as -> by congruence.
    + rewrite Hemp, lookup_empty. split; [by intros [? ?]|].
      intros (n2 & Hn2%node_at_lt & _). lia.
  - intros k. simpl. by rewrite Hglob, (nm_md _ _ _ _ NM).
  - done.
Qed.

Lemma merge_ret (P : MergePolicy) {PL : PolicyLaws P} (IO : IterOrder) (g other : Callgraph) :
  wf g → graph_md_ok g → good_source other →
  ∃ g' r, Callgraph_merge P g other ⇓ (g', r) ∧
    wf g' ∧ graph_md_ok g' ∧ merged g other (getMapping r) g'.
Proof.
  intros Hwf Hok Hsrc. destruct (merge_run P IO g other Hwf Hok Hsrc) as (g1 & r & g4 & NM & CP & Hrun).
  exists (set_main g4 None), r. split_and!; [done|by apply wf_set_main; [apply CP|]| |by eapply completed_merged].
  assert (∀ i, live g1 i → live (set_main g4 None) i) as Hmono
    by (intros i; apply (cp_live _ _ _ _ CP)).
  split.
  - intros i n (n0 & _ & _ & Hmd & _)%(cp_nodes _ _ _ _ CP).
    exact (named_md_ok_mono (λ i, live g1 i) _ _ Hmono Hmd).
  - intros p m (Hk & Hall)%(cp_edge_md _ _ _ _ CP). split; [done|].
    intros k md Hmd. exact (md_ok_mono (λ i, live g1 i) _ _ Hmono (Hall k md Hmd)).
  - exact (named_md_ok_mono (λ i, live g1 i) _ _ Hmono (cp_global _ _ _ _ CP)).
Qed.

(** C2: merging by a name-preserving policy, in particular [MergeByName],
    returns for every consistent target and every complete source with unique
    names, whatever the order of the unordered containers; the result is again
    consistent, all node references in its metadata are live, its nodes are
    those of the target and the copies, and its edges those of the target and
    the re-mapped ones of the source. *)
Theorem merge_correct (P : MergePolicy) {PL : PolicyLaws P} (IO : IterOrder)
    (g other : Callgraph) :
  wf g → graph_md_ok g → good_source other →
  ∃ g' r, Callgraph_merge P g other ⇓ (g', r) ∧
    wf g' ∧ graph_md_ok g' ∧ merged g other (getMapping r) g'.
Proof. intros. by apply (merge_ret P IO). Qed.

Lemma merge_union (P : MergePolicy) {PL : PolicyLaws P} (IO : IterOrder)
    (g other : Callgraph) :
  wf g → graph_md_ok g → good_source other →
  ∃ g' r, Callgraph_merge P g other ⇓ (g', r) ∧ wf g' ∧ graph_md_ok g' ∧
    (∀ f, hasNode_name g' f = hasNode_name g f || hasNode_name other f) ∧
    (∀ s t, existsAnyEdge g' s t = existsAnyEdge g s t || existsAnyEdge other s t).
Proof.
  intros Hwf Hok Hsrc.
  destruct (merge_ret P IO g other Hwf Hok Hsrc) as (g' & r & Hrun & Hwf' & Hok' & M).
  pose proof (ms_wf _ (gs_source _ Hsrc)) as Hwfo.
  assert (∀ i n' n, node_at g' i = Some n' → node_at g i = Some n → functionName n' = functionName n)
    as Hold.
  { intros i n' n Hn' Hn. destruct (mg_old _ _ _ _ M i n Hn) as (? & ? & ?). congruence. }
  assert (∀ s i n' n, getMapping r !! s = Some i → node_at g' i = Some n' → node_at other s = Some n →
    functionName n' = functionName n) as Hnew.
  { intros s i n' n Hs Hn' Hn. destruct (mg_src _ _ _ _ M s n Hn) as (? & ? & ? & ? & ?). congruence. }
  exists g', r. split; [done|]. split; [done|]. split; [done|]. split.
  - intros f. apply eq_true_iff_eq. rewrite orb_true_iff, !hasNode_name_true by done. split.
    + intros (i & n' & Hn' & <-). destruct (proj1 (mg_new _ _ _ _ M i)) as [[n Hn]|[s Hs]]; [by eexists| |].
      * left. exists i, n. split; [done|]. symmetry. by eapply Hold.
      * right. destruct (mg_dom _ _ _ _ M s) as [n Hn]; [by eexists|].
        exists s, n. split; [done|]. symmetry. by eapply Hnew.
    + intros [(i & n & Hn & <-)|(s & n & Hn & <-)].
      * destruct (mg_old _ _ _ _ M i n Hn) as (n' & ? & ?). by exists i, n'.
      * destruct (mg_src _ _ _ _ M s n Hn) as (t & n' & _ & ? & ?). by exists t, n'.
  - intros s t. apply eq_true_iff_eq. rewrite orb_true_iff, !existsAnyEdge_true by done. split.
    + intros (i & j & n & m & Hn & <- & Hm & <- & He).
      apply (mg_edges _ _ _ _ M) in He as [He|([a b] & He & Ha & Hb)]; [left|right].
      * destruct (wf_edges _ Hwf i j He) as [[n0 Hn0] [m0 Hm0]]. exists i, j, n0, m0.
        split_and!; try done; symmetry; by eapply Hold.
      * destruct (wf_edges _ Hwfo a b He) as [[n0 Hn0] [m0 Hm0]]. exists a, b, n0, m0. simpl in Ha, Hb.
        split_and!; try done; symmetry; first [by apply (Hnew a i)|by apply (Hnew b j)].
    + intros [(i & j & n & m & Hn & <- & Hm & <- & He)|(i & j & n & m & Hn & <- & Hm & <- & He)].
      * destruct (mg_old _ _ _ _ M i n Hn) as (n' & ? & ?), (mg_old _ _ _ _ M j m Hm) as (m' & ? & ?).
        exists i, j, n', m'. split_and!; try done. apply (mg_edges _ _ _ _ M). by left.
      * destruct (mg_src _ _ _ _ M i n Hn) as (a & n' & Ha & ? & ?),
                 (mg_src _ _ _ _ M j m Hm) as (b & m' & Hb & ? & ?).
        exists a, b, n', m'. split_and!; try done. apply (mg_edges _ _ _ _ M). right. by exists (i, j).
Qed.

(** Without metadata of edges on both sides there is none afterwards. *)
Lemma merge_edge_md_free (P : MergePolicy) (IO : IterOrder) (g other g' : Callgraph)
    (r : MergeRecorder) :
  Callgraph_merge P g other ⇓ (g', r) → edge_md_free g → edge_md_free other → edge_md_free g'.
Proof.
  unfold Callgraph_merge. intros Hr Hg Ho.
  apply bind_ret_inv in Hr as (st & H1 & Hr). apply bind_ret_inv in Hr as (g1 & H2 & Hr).
  apply bind_ret_inv in Hr as (g2 & H3 & Hr). apply bind_ret_inv in Hr as (g3 & H4 & Hr).
  injection Hr as <- <-. apply (edge_md_free_eq g3); [done|].
  apply (foldM_keeps edge_md_free (merge_global_md st.2)) in H4; [done| |].
  { intros [k md] h h' _ Hh Hm. unfold merge_global_md in Hm.
    destruct (md_get _ _); apply bind_ret_inv in Hm as (? & _ & [= <-]); by apply (edge_md_free_eq h). }
  apply (foldM_keeps edge_md_free (merge_node_md st.2)) in H3; [done| |].
  { intros o h h' _ Hh Hm. unfold merge_node_md in Hm. invert_outcome.
    eapply (foldM_keeps edge_md_free); [|exact Hh|eassumption].
    intros md k k' _ Hk Hrun. unfold merge_node_md_entry in Hrun.
    apply bind_ret_inv in Hrun as (t & _ & Hrun).
    destruct (md_get _ _); invert_outcome; by apply (edge_md_free_eq k). }
  apply (foldM_keeps edge_md_free (merge_edge other st.2)) in H2; [done| |].
  { intros [ids md] h h' _ Hh Hm. unfold merge_edge in Hm. cbn [fst] in Hm.
    apply bind_ret_inv in Hm as (_ & _ & Hm).
    apply bind_ret_inv in Hm as (i & _ & Hm). apply bind_ret_inv in Hm as (j & _ & Hm).
    apply bind_ret_inv in Hm as (p & Hp & Hm). apply bind_ret_inv in Hm as (mds & Hmds & Hm).
    assert (mds = ∅) as ->.
    { unfold getAllEdgeMetaData in Hmds. apply bind_ret_inv in Hmds as (_ & _ & Hmds).
      destruct (edges other !! ids) eqn:He; [|done]. injection Hmds as <-. by eapply Ho. }
    destruct (iter_map ∅) as [|[k md'] l] eqn:Hl.
    - injection Hm as <-. destruct (existsEdge h i j); [by injection Hp as <-|].
      by apply (addEdge_md_free _ _ _ _ Hp).
    - assert ((k, md') ∈ iter_map (∅ : NamedMetadata)) as Hin by (rewrite Hl; set_solver).
      apply elem_of_iter_map in Hin. by rewrite lookup_empty in Hin. }
  apply (foldM_keeps (λ st, edge_md_free st.1) (merge_node P)) in H1; [done| |done].
  intros o h h' _ Hh Hm. unfold merge_node in Hm. apply bind_ret_inv in Hm as (n & _ & Hm).
  apply bind_ret_inv in Hm as ([act|] & _ & Hm).
  - invert_outcome. cbn [fst]. destruct (replace act); by apply (edge_md_free_eq h.1).
  - apply bind_ret_inv in Hm as (p & Hp & [= <-]). unfold insert_node in Hp.
    apply bind_ret_inv in Hp as (_ & _ & [= <-]). by apply (edge_md_free_eq h.1).
Qed.

(** Merging a good source (no erased nodes, unique names, metadata that merges)
    by a name-preserving policy is the union by name. *)
Theorem merge_is_union_by_name (P : MergePolicy) {PL : PolicyLaws P} (IO : IterOrder)
    (g other : Callgraph) :
  wf g → graph_md_ok g → good_source other →
  ∃ g' r, Callgraph_merge P g other ⇓ (g', r) ∧
    (∀ f, hasNode_name g' f = hasNode_name g f || hasNode_name other f) ∧
    (∀ s t, existsAnyEdge g' s t = existsAnyEdge g s t || existsAnyEdge other s t).
Proof.
  intros Hwf Hok Hsrc. destruct (merge_union P IO g other Hwf Hok Hsrc) as (g' & r & ? & _ & _ & ?).
  by exists g', r.
Qed.
End whole.
