(* ===== verification/MergeExamples.v ===== *)
(** * Merging call graphs: built-in metadata, limits, examples

    The built-in metadata types that are [Mergeable], what [merge] does with
    sources outside its contract, and concrete merges. *)

From S2P Require Import Prelude Json MetaData BuiltinMD Callgraph CallgraphWf.
From S2P Require Import CallgraphOps CallgraphSpec CallgraphProps Merge MergeProps.

(** ** Built-in metadata *)

(** The types whose merge never adds: everything but the four counters. *)
Definition combinable (m : BuiltinMD) : Prop :=
  valid m ∧
  match m with
  | CodeStatisticsMD _ | NumConditionalBranchMD _ | UniqueTypeMD _ | NumOperationsMD _ => False
  | _ => True
  end.

#[export] Instance combinable_dec m : Decision (combinable m).
Proof. unfold combinable. destruct m; simpl; apply _. Defined.

#[export] Instance builtin_mergeable {JO : JsonOps} : Mergeable combinable.
Proof.
  split; simpl.
  - intros a b act map [Hva Ha] [Hvb Hb] Hk Hd.
    assert (∃ c, merge a b act map ⇓ c) as [c Hc].
    { destruct a as [| e1| p1| | | | | | | | |[o1 b1]|], b as [|e2|p2| | | | | | | | |[o2 b2]|];
        simpl in *; try done; try (by eexists).
      - unfold EntryFunctionMD_merge. destruct act; [by eexists|].
        destruct e2 as [i|]; [|by eexists]. destruct e1; [by eexists|].
        assert (i ∈ dom map) as [i' Hi']%elem_of_dom by set_solver. rewrite Hi'. by eexists.
      - unfold FilePropertiesMD_merge. destruct Hvb as [y ->].
        destruct act as [[? []]|]; by eexists.
      - unfold OverrideMD_merge. simpl.
        destruct (mergeVectors_total b1 b2 map) as [b' ->].
        { intros j Hj. apply elem_of_dom. set_solver. }
        destruct (mergeVectors_total o1 o2 map) as [o' Ho'].
        { intros j Hj. apply elem_of_dom. set_solver. }
        simpl. rewrite Ho'. by eexists. }
    exists c. split; [done|]. split; [by apply (merge_keeps_valid a b act map)|].
    pose proof (merge_getKey _ _ _ _ _ Hc) as Hck. clear Hc. destruct a, c; simpl in *; done.
  - intros m map m' [Hv Hm]. destruct m; simpl; intros H; invert_outcome; done.
Qed.

(** ** Sources outside the contract *)

Section limits.
Context {JO : JsonOps} {MDI : MetaDataI}.

Lemma merge_node_wf (P : MergePolicy) {PL : PolicyLaws P} st n :
  wf st.1 → functionName n ≠ "" → ∃ st', merge_node P st (Some n) ⇓ st' ∧ wf st'.1.
Proof.
  intros Hwf Hf. unfold merge_node. cbn [deref]. rewrite bind_ret.
  destruct (policy_spec st.1 n Hwf) as [Hno|(act & t & Hyes & Ht & Hname & _)].
  - rewrite Hno, bind_ret.
    destruct (insert_node_ret st.1 (functionName n) (origin n) false (hasBody n) Hwf Hf)
      as (g' & -> & Hwf' & _). by eexists.
  - rewrite Hyes, bind_ret, (getNode_live _ _ _ Ht), bind_ret. cbn. eexists. split; [done|].
    cbn. destruct (replace act); [|done]. apply update_node_wf_at; [done|].
    intros m Hm. assert (m = t) as -> by congruence. by split_and!.
Qed.

Lemma first_None {A} (l : list (option A)) :
  None ∈ l → ∃ l1 l2, l = l1 ++ None :: l2 ∧ None ∉ l1.
Proof.
  induction l as [|[a|] l IH]; intros Hl; [by apply elem_of_nil in Hl| |].
  - apply elem_of_cons in Hl as [?|Hl]; [done|]. destruct (IH Hl) as (l1 & l2 & -> & Hn).
    exists (Some a :: l1), l2. split; [done|]. by intros [?|?]%elem_of_cons.
  - exists [], l. split; [done|]. apply not_elem_of_nil.
Qed.

(** [merge] walks over the raw node container of the source and
    dereferences every entry: a source from which a node was erased makes it
    run into undefined behaviour. *)
Theorem merge_erased_source_UB (P : MergePolicy) {PL : PolicyLaws P} (IO : IterOrder)
    (g other : Callgraph) :
  wf g → None ∈ nodes other → (∀ n, Some n ∈ nodes other → functionName n ≠ "") →
  Callgraph_merge P g other = UB.
Proof.
  intros Hwf Hnone Hnames.
  apply first_None in Hnone as (dn & rest & Heq & Hdn).
  unfold Callgraph_merge. rewrite Heq, foldM_app.
  assert (∃ st, foldM (merge_node P) (g, empty_recorder) dn ⇓ st ∧ wf st.1) as (st & -> & _).
  { apply (foldM_inv (λ st, wf st.1)); [done|]. intros [n|] st Hin Hst; [|done].
    apply (merge_node_wf P); [done|]. apply Hnames. rewrite Heq. set_solver. }
  done.
Qed.

(** Metadata of an edge that the target does not have yet is copied under
    the key of the abstract class instead of its own: afterwards it is not found
    under its name, and of two kinds of metadata only the second one is left. *)
Theorem merge_edge_metadata_key_lost (r : MergeRecorder) (src ids : NodeId * NodeId)
    (g : Callgraph) (k1 k2 : string) (md1 md2 c1 c2 : MD) :
  edges g !! ids = Some ∅ → k1 ≠ MetaData_key → k2 ≠ MetaData_key →
  md_applyMapping (md_clone md1) (getMapping r) ⇓ c1 →
  md_applyMapping (md_clone md2) (getMapping r) ⇓ c2 →
  ∃ g', foldM (merge_edge_md r src ids) g [(k1, md1); (k2, md2)] ⇓ g' ∧
    edges g' !! ids = Some {[MetaData_key := c2]} ∧
    hasEdgeMetaData g' ids k1 = false ∧ hasEdgeMetaData g' ids k2 = false.
Proof.
  intros Hids H1 H2 Hc1 Hc2.
  assert (∀ g' m k md c, edges g' !! ids = Some m → m !! k = None →
    md_applyMapping (md_clone md) (getMapping r) ⇓ c →
    merge_edge_md r src ids g' (k, md) ⇓ set_edge_md g' ids MetaData_key c) as Hstep.
  { intros g' m k md c Hm Hk Hc. unfold merge_edge_md, getEdgeMetaData. cbn [fst snd].
    rewrite Hm, Hk, Hc, bind_ret. f_equal. apply addEdgeMetaData_set. by eexists. }
  assert (∀ g' m c, edges g' !! ids = Some m →
    edges (set_edge_md g' ids MetaData_key c) !! ids = Some (<[MetaData_key := c]> m)) as Hget.
  { intros g' m c Hm. simpl. by rewrite lookup_alter_eq, Hm. }
  exists (set_edge_md (set_edge_md g ids MetaData_key c1) ids MetaData_key c2).
  pose proof (Hget g ∅ c1 Hids) as Hg1. pose proof (Hget _ _ c2 Hg1) as Hg2.
  rewrite insert_insert_eq in Hg2. split_and!.
  - cbn [foldM]. rewrite (Hstep g ∅ k1 md1 c1), bind_ret by done.
    rewrite (Hstep _ _ k2 md2 c2 Hg1), bind_ret; [done| |done].
    by rewrite lookup_insert_ne, lookup_empty.
  - done.
  - unfold hasEdgeMetaData. rewrite Hg2. apply bool_decide_eq_false.
    rewrite lookup_insert_ne, lookup_empty by done. by intros [? ?].
  - unfold hasEdgeMetaData. rewrite Hg2. apply bool_decide_eq_false.
    rewrite lookup_insert_ne, lookup_empty by done. by intros [? ?].
Qed.
End limits.

(** ** Checking the premises of a merge *)

Section checker.
Context {JO : JsonOps} {MDI : MetaDataI} (good : MD → Prop) `{∀ m, Decision (good m)}.

#[export] Instance md_ok_dec (L : NodeId → Prop) `{∀ i, Decision (L i)} md : Decision (md_ok good L md).
Proof.
  unfold md_ok. apply and_dec; [apply _|].
  change (Decision (set_Forall L (md_refs md))). apply _.
Defined.

#[export] Instance named_md_ok_dec (L : NodeId → Prop) `{∀ i, Decision (L i)} m :
  Decision (named_md_ok good L m).
Proof. unfold named_md_ok, keyed. apply _. Defined.

Abbreviation all_md_ok g := (named_md_ok good (λ j, live g j)).

Definition check_graph_md (g : Callgraph) : bool :=
  forallb (λ o, match o with Some n => bool_decide (all_md_ok g (node_md n)) | None => true end)
    (nodes g) &&
  forallb (λ e, bool_decide (all_md_ok g e.2) && negb (md_has e.2 MetaData_key))
    (map_to_list (edges g)) &&
  bool_decide (all_md_ok g (cg_md g)).

Definition check_source (g : Callgraph) : bool :=
  forallb (λ o, match o with Some n => bool_decide (functionName n ≠ "") | None => false end)
    (nodes g) &&
  bool_decide (NoDup (option_map functionName <$> nodes g)) && check_graph_md g.

Lemma check_graph_md_ok g : check_graph_md g = true → graph_md_ok good g.
Proof.
  unfold check_graph_md. rewrite !andb_true_iff, !forallb_forall, bool_decide_eq_true.
  intros [[Hn He] Hg]. split; [..|done].
  - intros i n Hi%node_at_Some%list_elem_of_lookup_2%list_elem_of_In.
    by apply Hn, bool_decide_eq_true in Hi.
  - intros p m Hp%elem_of_map_to_list%list_elem_of_In.
    apply He, andb_true_iff in Hp as [[Hk Hm]%bool_decide_eq_true _]. split; [|done].
    intros k md Hkm _. by apply Hk.
Qed.

Lemma check_source_ok g : wf g → check_source g = true → good_source good g.
Proof.
  unfold check_source. rewrite !andb_true_iff, forallb_forall, bool_decide_eq_true.
  intros Hwf [[Hn Hnd] Hmd].
  assert (∀ i n, node_at g i = Some n →
            (option_map functionName <$> nodes g) !! i = Some (Some (functionName n))) as Hname.
  { intros i n Hi%node_at_Some. by rewrite list_lookup_fmap, Hi. }
  split; [|..|by apply check_graph_md_ok|].
  - split; [done|]. intros [n|] Ho; [by eexists|]. by apply list_elem_of_In, Hn in Ho.
  - intros n Hn'%list_elem_of_In%Hn. by apply bool_decide_eq_true in Hn'.
  - intros i j n m Hi%Hname Hj%Hname Heq. rewrite Heq in Hi. by eapply NoDup_lookup.
  - unfold check_graph_md in Hmd. rewrite !andb_true_iff, !forallb_forall in Hmd.
    intros p m k Hp%elem_of_map_to_list%list_elem_of_In [md Hk] ->.
    apply Hmd, andb_true_iff in Hp as [_ Hp]. unfold md_has in Hp. simpl in Hp.
    by rewrite bool_decide_true in Hp.
Qed.
End checker.

(** ** A concrete merge *)

Module MergeExample.
Import GraphExamples.

(** [main -> helper], and [helper] is only declared. *)
Definition target_ops : list op := [
  OInsert "main" (Some "main.cpp") false true; OInsert "helper" None false false;
  OAddEdge 0 1;
  OAddMetaData (EntryFunctionMD (Some 0));
  OUpdateNode 1 (AddMetaData (LoopDepthMD 1))
].

(** [helper] is defined, calls [base], and overrides it. *)
Definition source_ops : list op := [
  OInsert "base" (Some "lib.h") true false; OInsert "helper" (Some "lib.cpp") false true;
  OAddEdge 1 0;
  OUpdateNode 1 (AddMetaData (OverrideMD (mkOverrideInfo [0] [])));
  OUpdateNode 1 (AddMetaData (LoopDepthMD 3));
  OAddEdgeMetaData (1, 0) "loopCallDepth" (LoopCallDepthMD {["base" := 2%Z]})
].

Definition graph_of (u : nat) (os : list op) : Callgraph :=
  match run_all os (Callgraph_new u) with Ret (g, _) => g | _ => Callgraph_new u end.

Lemma graph_of_wf u os : pre_all os (abs (Callgraph_new u)) → wf (graph_of u os).
Proof.
  intros Hpre. unfold graph_of.
  destruct (run_all_refines os (Callgraph_new u)) as (g & -> & Hwf & _); [apply wf_new|done..].
Qed.

Lemma graph_of_reachable u os : pre_all os (abs (Callgraph_new u)) → reachable u (graph_of u os).
Proof.
  intros Hpre. unfold graph_of.
  destruct (run_all_refines os (Callgraph_new u)) as (g & Hrun & _); [apply wf_new|done|].
  rewrite Hrun. eapply reachable_run_all; [apply reachable_new|done|done|apply wf_new].
Qed.

Definition target : Callgraph := graph_of 1 target_ops.
Definition source : Callgraph := graph_of 2 source_ops.

Lemma target_wf : wf target.
Proof. apply graph_of_wf. by apply (bool_decide_unpack _); vm_compute. Qed.
Lemma source_wf : wf source.
Proof. apply graph_of_wf. by apply (bool_decide_unpack _); vm_compute. Qed.

Lemma target_ok : graph_md_ok combinable target.
Proof. apply (check_graph_md_ok (MDI := builtin_md) combinable). vm_compute. reflexivity. Qed.
Lemma source_ok : good_source combinable source.
Proof. apply (check_source_ok (MDI := builtin_md) combinable); [apply source_wf|]. vm_compute. reflexivity. Qed.

Definition merge_edges_of (x : outcome (Callgraph * MergeRecorder)) : option (list (NodeId * NodeId)) :=
  match x with Ret (g, _) => Some (map_to_list (edges g)).*1 | _ => None end.

Lemma merge_computed :
  merge_edges_of (Callgraph_merge (IO := canonical_order) MergeByName target source) =
  Some [(0, 1); (1, 2)].
Proof. vm_compute. reflexivity. Qed.

Lemma merge_correct_witness :
  ∃ g' r, Callgraph_merge (IO := reversed_order) MergeByName target source ⇓ (g', r) ∧
    wf g' ∧ graph_md_ok combinable g' ∧ merged target source (getMapping r) g'.
Proof.
  apply (merge_correct (MDI := builtin_md) combinable MergeByName reversed_order target source
           target_wf target_ok source_ok).
Defined.

Lemma merge_is_union_by_name_witness :
  ∃ g' r, Callgraph_merge (IO := reversed_order) MergeByName target source ⇓ (g', r) ∧
    (∀ f, hasNode_name g' f = hasNode_name target f || hasNode_name source f) ∧
    (∀ s t, existsAnyEdge g' s t = existsAnyEdge target s t || existsAnyEdge source s t).
Proof.
  apply (merge_is_union_by_name (MDI := builtin_md) combinable MergeByName reversed_order target source
           target_wf target_ok source_ok).
Defined.

(** The source after one of its nodes was erased. *)
Definition erased_source : Callgraph := graph_of 2 (source_ops ++ [OErase 0]).

Lemma merge_erased_source_UB_witness :
  Callgraph_merge (IO := canonical_order) MergeByName target erased_source = UB.
Proof.
  apply (merge_erased_source_UB MergeByName canonical_order target erased_source target_wf).
  - by apply (bool_decide_unpack _); vm_compute.
  - intros n Hn. assert (forallb (λ o, match o with Some n => bool_decide (functionName n ≠ "")
      | None => true end) (nodes erased_source) = true) as Hall by (vm_compute; reflexivity).
    rewrite forallb_forall in Hall. apply list_elem_of_In, Hall in Hn.
    by apply bool_decide_eq_true in Hn.
Defined.

Lemma merge_edge_metadata_key_lost_witness :
  ∃ g', foldM (merge_edge_md empty_recorder (0, 2) (0, 2)) sample_graph
          [("loopDepth", LoopDepthMD 1); ("inlineInfo", GlobalLoopDepthMD 2)] ⇓ g' ∧
    edges g' !! (0, 2) = Some {[MetaData_key := GlobalLoopDepthMD 2]} ∧
    hasEdgeMetaData g' (0, 2) "loopDepth" = false ∧ hasEdgeMetaData g' (0, 2) "inlineInfo" = false.
Proof.
  apply (merge_edge_metadata_key_lost empty_recorder (0, 2) (0, 2) sample_graph "loopDepth"
           "inlineInfo" (LoopDepthMD 1) (GlobalLoopDepthMD 2) (LoopDepthMD 1) (GlobalLoopDepthMD 2)).
  - by apply (bool_decide_unpack _); vm_compute.
  - done.
  - done.
  - reflexivity.
  - reflexivity.
Defined.
End MergeExample.
