(* ===== verification/Manager.v ===== *)
(** * The graph manager

    [graph/include/metacg/MCGManager.h] and [graph/src/MCGManager.cpp].  The
    manager owns graph objects; the model keeps the objects in a heap, and a
    pointer is an address in it.  An address that is not in the heap is a
    dangling pointer. *)

From S2P Require Import Prelude Json MetaData Callgraph CallgraphWf CallgraphOps.
From S2P Require Import CallgraphSpec CallgraphProps Merge MergeProps MergeExamples BuiltinMD.

Section manager.
Context {JO : JsonOps} {MDI : MetaDataI} {IO : IterOrder}.

Abbreviation GraphPtr := nat (only parsing).

Record MCGManager := mkManager {
  heap : gmap GraphPtr Callgraph;
  managedGraphs : gmap string GraphPtr;
  activeGraph : option GraphPtr
}.

Definition set_active (m : MCGManager) (p : option GraphPtr) : MCGManager :=
  mkManager (heap m) (managedGraphs m) p.

Definition set_graph (m : MCGManager) (p : GraphPtr) (g : Callgraph) : MCGManager :=
  mkManager (<[p := g]> (heap m)) (managedGraphs m) (activeGraph m).

(** Reading the graph behind the active pointer: null and dangling pointers
    are undefined behaviour. *)
Definition active (m : MCGManager) : outcome Callgraph :=
  p ← deref (activeGraph m); deref (heap m !! p).

(** [managedGraphs.clear()] destroys the graphs. *)
Definition resetManager (m : MCGManager) : MCGManager :=
  mkManager (foldr delete (heap m) (map_to_list (managedGraphs m)).*2) ∅ None.

Definition resetActiveGraph (m : MCGManager) : outcome (MCGManager * bool) :=
  match activeGraph m with
  | Some p => g ← deref (heap m !! p); Ret (set_graph m p (clear g), true)
  | None => AssertFail
  end.

Definition mgr_size (m : MCGManager) : outcome nat := g ← active m; Ret (cg_size g).
Definition graphs_size (m : MCGManager) : nat := size (managedGraphs m).

(** The exception of [at] is caught and turned into a failed assertion. *)
Definition setActive (m : MCGManager) (callgraph : string) : outcome (MCGManager * bool) :=
  match managedGraphs m !! callgraph with
  | Some p => Ret (set_active m (Some p), true)
  | None => AssertFail
  end.

Definition assertActive (m : MCGManager) (callgraph : string) : outcome bool :=
  match managedGraphs m !! callgraph with
  | Some p => Ret (bool_decide (Some p = activeGraph m))
  | None => AssertFail
  end.

Definition getCallgraph (m : MCGManager) (name : string) (setAct : bool)
    : outcome (MCGManager * option GraphPtr) :=
  if decide (name = "") then Ret (m, activeGraph m)
  else match managedGraphs m !! name with
       | Some p =>
           if setAct then r ← setActive m name; Ret (r.1, Some p) else Ret (m, Some p)
       | None => Ret (m, None)
       end.

(** [p] is the address of the new object, should one be allocated. *)
Definition getOrCreateCallgraph (m : MCGManager) (p : GraphPtr) (name : string) (setAct : bool)
    : MCGManager * GraphPtr :=
  match managedGraphs m !! name with
  | Some q => (if setAct then set_active m (Some q) else m, q)
  | None =>
      let m' := mkManager (<[p := Callgraph_new p]> (heap m)) (<[name := p]> (managedGraphs m))
                  (activeGraph m) in
      (if setAct then set_active m' (Some p) else m', p)
  end.

(** Assigning to [managedGraphs[name]] destroys the graph it held before. *)
Definition addToManagedGraphs (m : MCGManager) (name : string)
    (callgraph : option (GraphPtr * Callgraph)) (setAct : bool) : outcome (MCGManager * bool) :=
  cpp_assert (bool_decide (is_Some (fst <$> callgraph)));;
  pg ← deref callgraph;
  let heap' := match managedGraphs m !! name with
               | Some old => delete old (heap m) | None => heap m end in
  let m' := mkManager (<[pg.1 := pg.2]> heap') (<[name := pg.1]> (managedGraphs m)) (activeGraph m) in
  Ret (if setAct then set_active m' (Some pg.1) else m', true).

Definition getAllManagedGraphNames (m : MCGManager) : gset string := dom (managedGraphs m).

Definition getActiveGraphName (m : MCGManager) : outcome string :=
  cpp_assert (bool_decide (is_Some (activeGraph m)));;
  match List.find (λ e, bool_decide (activeGraph m = Some e.2)) (iter_map (managedGraphs m)) with
  | Some e => Ret e.1
  | None => AssertFail
  end.

(** One turn of the loop of [mergeIntoActiveGraph]. *)
Definition merge_one (P : MergePolicy) (m : MCGManager) (callgraphName : string)
    : outcome MCGManager :=
  isActive ← assertActive m callgraphName;
  if isActive : bool then Ret m
  else
    r ← getCallgraph m callgraphName false;
    cpp_assert (bool_decide (is_Some r.2));;
    q ← deref r.2;
    p ← deref (activeGraph m);
    activeCallgraph ← deref (heap m !! p);
    currentCallgraph ← deref (heap m !! q);
    s ← Callgraph_merge P activeCallgraph currentCallgraph;
    Ret (set_graph m p s.1).

Definition mergeIntoActiveGraph (P : MergePolicy) (m : MCGManager) : outcome MCGManager :=
  cpp_assert (bool_decide (is_Some (activeGraph m)));;
  foldM (merge_one P) m (iter_set (getAllManagedGraphNames m)).

(** ** Invariant *)

(** Managed names point to distinct live objects, and the active graph is one
    of them. *)
Record mgr_wf (m : MCGManager) : Prop := {
  mw_heap : ∀ n p, managedGraphs m !! n = Some p → is_Some (heap m !! p);
  mw_inj : ∀ n n' p, managedGraphs m !! n = Some p → managedGraphs m !! n' = Some p → n = n';
  mw_active : ∀ p, activeGraph m = Some p → ∃ n, managedGraphs m !! n = Some p;
  mw_names : managedGraphs m !! "" = None
}.

Lemma mgr_wf_empty h : mgr_wf (mkManager h ∅ None).
Proof. by split. Qed.

Lemma getOrCreate_wf m p name setAct :
  mgr_wf m → heap m !! p = None → name ≠ "" → mgr_wf (getOrCreateCallgraph m p name setAct).1.
Proof.
  intros [Hh Hi Ha Hn] Hp Hname. unfold getOrCreateCallgraph.
  destruct (managedGraphs m !! name) as [q|] eqn:Hq; simpl.
  - destruct setAct; split; simpl; try done. intros p' [= <-]. by exists name.
  - assert (∀ n q, managedGraphs m !! n = Some q → q ≠ p) as Hne.
    { intros n q ?%Hh ->. rewrite Hp in *. by destruct H. }
    assert (∀ n q, <[name := p]> (managedGraphs m) !! n = Some q →
              is_Some (<[p := Callgraph_new p]> (heap m) !! q)) as Hh'.
    { intros n q. rewrite lookup_insert_is_Some'. intros [[_ <-]|[_ ?%Hh]]%lookup_insert_Some;
        [by left|by right]. }
    assert (∀ n n' q, <[name := p]> (managedGraphs m) !! n = Some q →
              <[name := p]> (managedGraphs m) !! n' = Some q → n = n') as Hi'.
    { intros n n' q. rewrite !lookup_insert_Some. naive_solver. }
    assert (<[name := p]> (managedGraphs m) !! "" = None) as Hn' by by rewrite lookup_insert_ne.
    destruct setAct; split; simpl; try done.
    + intros q [= <-]. exists name. apply lookup_insert_eq.
    + intros q [n Hq']%Ha. exists n. rewrite lookup_insert_ne; [done|congruence].
Qed.

Lemma addToManaged_wf m name p g setAct :
  mgr_wf m → heap m !! p = None → name ≠ "" →
  (setAct = false → ∀ q, activeGraph m = Some q → managedGraphs m !! name ≠ Some q) →
  ∃ m', addToManagedGraphs m name (Some (p, g)) setAct ⇓ (m', true) ∧ mgr_wf m' ∧
    heap m' !! p = Some g ∧ managedGraphs m' !! name = Some p.
Proof.
  intros [Hh Hi Ha Hn] Hp Hname Hact. eexists. split; [done|].
  assert (∀ n q, managedGraphs m !! n = Some q → q ≠ p) as Hne.
  { intros n q [? Hq]%Hh ->. congruence. }
  set (h' := match managedGraphs m !! name with Some old => delete old (heap m) | None => heap m end).
  assert (∀ n q, managedGraphs m !! n = Some q → n ≠ name → is_Some (h' !! q)) as Hh'.
  { intros n q Hq Hnn. unfold h'. destruct (managedGraphs m !! name) as [old|] eqn:Hold; [|eauto].
    rewrite lookup_delete_ne; [eauto|]. intros <-. by apply Hnn, (Hi _ _ old). }
  assert (mgr_wf (mkManager (<[p := g]> h') (<[name := p]> (managedGraphs m))
            (if setAct then Some p else activeGraph m))) as Hwf.
  { split; simpl.
    - intros n q. rewrite lookup_insert_is_Some'.
      intros [[_ <-]|[? ?]]%lookup_insert_Some; [by left|right; eauto].
    - intros n n' q. rewrite !lookup_insert_Some. naive_solver.
    - intros q. destruct setAct.
      + intros [= <-]. exists name. apply lookup_insert_eq.
      + intros Hq. destruct (Ha q Hq) as [n Hnq]. exists n. rewrite lookup_insert_ne; [done|].
        intros <-. by eapply Hact.
    - by rewrite lookup_insert_ne. }
  split_and!; [by destruct setAct|destruct setAct; apply lookup_insert_eq..].
Qed.

(** ** Merging all graphs *)

Section merge_all.
Context {MDL : MetaDataLaws} (good : MD → Prop) {MG : Mergeable good}.
Context (P : MergePolicy) {PL : PolicyLaws P}.

(** Some managed graph other than the one at [p] has the property. *)
Definition some_other (m : MCGManager) (p : GraphPtr) (names : list string)
    (Q : Callgraph → Prop) : Prop :=
  ∃ n q h, n ∈ names ∧ managedGraphs m !! n = Some q ∧ q ≠ p ∧ heap m !! q = Some h ∧ Q h.

Lemma some_other_app m p l l' Q :
  some_other m p (l ++ l') Q ↔ some_other m p l Q ∨ some_other m p l' Q.
Proof. unfold some_other. setoid_rewrite elem_of_app. naive_solver. Qed.

Lemma some_other_set m p g l Q :
  some_other (set_graph m p g) p l Q ↔ some_other m p l Q.
Proof.
  unfold some_other. simpl. split; intros (n & q & h & ? & ? & Hne & Hq & ?); exists n, q, h;
    (rewrite lookup_insert_ne in * by done); done.
Qed.

(** A further property that merging keeps. *)
Context (Inv : Callgraph → Prop).
Context (HInv : ∀ g h g' r, Inv g → Inv h → Callgraph_merge P g h ⇓ (g', r) → Inv g').

(** What merging needs of the active graph, and of the others. *)
Definition good_target (g : Callgraph) : Prop := wf g ∧ graph_md_ok good g ∧ Inv g.
Definition good_others (m : MCGManager) (p : GraphPtr) : Prop :=
  ∀ n q h, managedGraphs m !! n = Some q → q ≠ p → heap m !! q = Some h → good_source good h ∧ Inv h.

Lemma merge_one_ret m p g n :
  mgr_wf m → activeGraph m = Some p → heap m !! p = Some g → good_target g →
  n ∈ dom (managedGraphs m) → good_others m p →
  ∃ g', merge_one P m n ⇓ set_graph m p g' ∧ good_target g' ∧
    (∀ f, hasNode_name g' f = true ↔
       hasNode_name g f = true ∨ some_other m p [n] (λ h, hasNode_name h f = true)) ∧
    (∀ s t, existsAnyEdge g' s t = true ↔
       existsAnyEdge g s t = true ∨ some_other m p [n] (λ h, existsAnyEdge h s t = true)).
Proof using All.
  intros Hm Ha Hp (Hwf & Hok & HI) [q Hq]%elem_of_dom Hsrc. unfold merge_one, assertActive.
  rewrite Hq, bind_ret, Ha. case_bool_decide as Hqp.
  - injection Hqp as ->. exists g. split.
    { destruct m as [h mg a]. unfold set_graph. simpl in *. by rewrite insert_id. }
    unfold some_other. setoid_rewrite list_elem_of_singleton.
    split_and!; [done|naive_solver..].
  - assert (q ≠ p) as Hne by congruence. destruct (mw_heap _ Hm _ _ Hq) as [h Hh].
    assert (n ≠ "") as Hn by (intros ->; by rewrite (mw_names _ Hm) in Hq).
    unfold getCallgraph. rewrite decide_False, Hq by done. cbn -[Callgraph_merge].
    rewrite Hp, Hh. cbn -[Callgraph_merge].
    destruct (Hsrc n q h Hq Hne Hh) as [Hgh HIh].
    destruct (merge_union good P IO g h Hwf Hok Hgh) as (g' & r & Hrun & Hwf' & Hok' & Hnames & Hedges).
    rewrite Hrun. exists g'. split; [done|]. split; [split; [done|split; [done|exact (HInv _ _ _ _ HI HIh Hrun)]]|split].
    + intros f. rewrite Hnames, orb_true_iff. unfold some_other.
      setoid_rewrite list_elem_of_singleton. naive_solver.
    + intros s t. rewrite Hedges, orb_true_iff. unfold some_other.
      setoid_rewrite list_elem_of_singleton. naive_solver.
Qed.

Lemma mergeIntoActiveGraph_ret (m : MCGManager) (p : GraphPtr) (g : Callgraph) :
  mgr_wf m → activeGraph m = Some p → heap m !! p = Some g → good_target g → good_others m p →
  ∃ g', mergeIntoActiveGraph P m ⇓ set_graph m p g' ∧ good_target g' ∧
    (∀ f, hasNode_name g' f = true ↔
       ∃ n q h, managedGraphs m !! n = Some q ∧ heap m !! q = Some h ∧ hasNode_name h f = true) ∧
    (∀ s t, existsAnyEdge g' s t = true ↔
       ∃ n q h, managedGraphs m !! n = Some q ∧ heap m !! q = Some h ∧ existsAnyEdge h s t = true).
Proof using All.
  intros Hm Ha Hp Hg Hsrc.
  destruct (foldM_ind (λ dn m', ∃ g', m' = set_graph m p g' ∧ good_target g' ∧
      (∀ f, hasNode_name g' f = true ↔
         hasNode_name g f = true ∨ some_other m p dn (λ h, hasNode_name h f = true)) ∧
      (∀ s t, existsAnyEdge g' s t = true ↔
         existsAnyEdge g s t = true ∨ some_other m p dn (λ h, existsAnyEdge h s t = true)))
    (merge_one P) (iter_set (getAllManagedGraphNames m)) m)
    as (m' & Hrun & g' & -> & Hg' & Hn & He).
  - exists g. split; [destruct m; unfold set_graph; simpl in *; by rewrite insert_id|].
    unfold some_other. split_and!; [done|set_solver..].
  - intros dn n rest m' Hl (g' & -> & Hg' & Hn & He).
    assert (n ∈ dom (managedGraphs m)) as Hin.
    { apply elem_of_iter_set. unfold getAllManagedGraphNames in Hl. rewrite Hl. set_solver. }
    assert (∀ q h, q ≠ p → heap (set_graph m p g') !! q = Some h ↔ heap m !! q = Some h) as Hheap.
    { intros q h Hq. simpl. by rewrite lookup_insert_ne. }
    destruct (merge_one_ret (set_graph m p g') p g' n) as (g2 & Hrun & Hg2 & Hn2 & He2);
      [|done|apply lookup_insert_eq|done|done| |].
    { destruct Hm as [Hh Hi Hact Hne]. split; try done. intros n' q ?%Hh. simpl.
      rewrite lookup_insert_is_Some'. by right. }
    { intros n' q h Hq Hqp. rewrite Hheap by done. by eapply Hsrc. }
    exists (set_graph m p g2). split.
    { rewrite Hrun. unfold set_graph. simpl. by rewrite insert_insert_eq. }
    exists g2. split_and!; [done|done|..].
    + intros f. rewrite Hn2, Hn, some_other_app, some_other_set. tauto.
    + intros s t. rewrite He2, He, some_other_app, some_other_set. tauto.
  - exists g'. unfold mergeIntoActiveGraph. rewrite Ha, Hrun. split; [done|]. split; [done|].
    assert (∀ Q : Callgraph → Prop,
      (Q g ∨ some_other m p (iter_set (getAllManagedGraphNames m)) Q) ↔
      ∃ n q h, managedGraphs m !! n = Some q ∧ heap m !! q = Some h ∧ Q h) as Hall.
    { intros Q. destruct (mw_active _ Hm p Ha) as [np Hnp]. split.
      - intros [HQ|(n & q & h & _ & ? & _ & ? & ?)]; [by exists np, p, g|by exists n, q, h].
      - intros (n & q & h & Hq & Hh & HQ). destruct (decide (q = p)) as [->|Hne]; [left; congruence|].
        right. exists n, q, h. split_and!; try done. apply elem_of_iter_set, elem_of_dom. by eexists. }
    split; [intros f; rewrite Hn; apply (Hall (λ h, hasNode_name h f = true))|].
    intros s t. rewrite He. apply (Hall (λ h, existsAnyEdge h s t = true)).
Qed.
End merge_all.

(** C31: For a well-formed manager (names are not empty and belong to different
    objects that exist, and the active graph is one of them), whose active graph
    satisfies the invariant and has metadata that is filed under its keys,
    merges and refers to its own nodes, and whose other graphs satisfy the
    invariant, have no erased nodes, nonempty and unique names, metadata of the
    same kind, and none on edges that an earlier merge copied, and for a merge
    policy that matches nodes by name and loses no body:
    [mergeIntoActiveGraph] returns for every order in which the names are
    visited, leaves the other graphs as they are, and makes the active graph the
    union of all managed graphs by function name and by calls between names. *)
Theorem mergeIntoActiveGraph_union {MDL : MetaDataLaws} (good : MD → Prop) {MG : Mergeable good}
    (P : MergePolicy) {PL : PolicyLaws P} (m : MCGManager) (p : GraphPtr) (g : Callgraph) :
  mgr_wf m → activeGraph m = Some p → heap m !! p = Some g → wf g → graph_md_ok good g →
  (∀ n q h, managedGraphs m !! n = Some q → q ≠ p → heap m !! q = Some h → good_source good h) →
  ∃ g', mergeIntoActiveGraph P m ⇓ set_graph m p g' ∧ wf g' ∧
    (∀ f, hasNode_name g' f = true ↔
       ∃ n q h, managedGraphs m !! n = Some q ∧ heap m !! q = Some h ∧ hasNode_name h f = true) ∧
    (∀ s t, existsAnyEdge g' s t = true ↔
       ∃ n q h, managedGraphs m !! n = Some q ∧ heap m !! q = Some h ∧ existsAnyEdge h s t = true).
Proof.
  intros Hm Ha Hp Hwf Hok Hsrc.
  destruct (mergeIntoActiveGraph_ret good P (λ _, True) (λ _ _ _ _ _ _ _, I) m p g Hm Ha Hp)
    as (g' & Hrun & (Hwf' & _) & Hu); [done|by intros n q h Hq Hne Hh; split; [eapply Hsrc|]|].
  by exists g'.
Qed.

(** Replacing the active graph without making the new one active leaves
    the manager with a dangling pointer: its next use is undefined, and the
    name of the active graph cannot be found any more. *)
Theorem replaced_active_graph_dangles (m : MCGManager) (name : string) (p q : GraphPtr)
    (g : Callgraph) :
  mgr_wf m → managedGraphs m !! name = Some q → activeGraph m = Some q → heap m !! p = None →
  ∃ m', addToManagedGraphs m name (Some (p, g)) false ⇓ (m', true) ∧
    mgr_size m' = UB ∧ resetActiveGraph m' = UB ∧ getActiveGraphName m' = AssertFail.
Proof.
  intros [Hh Hi _ _] Hq Ha Hp. destruct (Hh _ _ Hq) as [old Hold].
  assert (q ≠ p) as Hne by congruence.
  eexists. split; [done|]. rewrite Hq. cbn [fst snd].
  assert ((<[p := g]> (delete q (heap m))) !! q = None) as Hgone.
  { rewrite lookup_insert_ne by done. apply lookup_delete_eq. }
  unfold mgr_size, active, resetActiveGraph, getActiveGraphName. cbn [activeGraph heap managedGraphs].
  rewrite Ha. cbn [deref mbind outcome_bind]. rewrite Hgone. split_and!; [done|done|]. cbn.
  destruct (List.find _ _) as [[n r]|] eqn:Hf; [|done]. exfalso.
  apply List.find_some in Hf as [Hin Heq]. apply bool_decide_eq_true in Heq. simpl in Heq.
  injection Heq as <-. apply list_elem_of_In, elem_of_iter_map in Hin.
  apply lookup_insert_Some in Hin as [[_ ?]|[Hnn Hq']]; [congruence|].
  by apply Hnn, (Hi _ _ q).
Qed.
End manager.

(** ** A concrete manager *)

Module ManagerExample.
Import GraphExamples MergeExample.

#[local] Opaque target source.

Definition two_graphs : MCGManager :=
  mkManager {[1 := target; 2 := source]} {["a" := 1; "b" := 2]} (Some 1).

Lemma two_graphs_lookup n q :
  managedGraphs two_graphs !! n = Some q ↔ (n = "a" ∧ q = 1) ∨ (n = "b" ∧ q = 2).
Proof.
  unfold two_graphs. cbn [managedGraphs]. rewrite lookup_insert_Some, lookup_singleton_Some.
  naive_solver.
Qed.

Lemma two_graphs_wf : mgr_wf two_graphs.
Proof.
  split.
  - intros n q [[_ ->]|[_ ->]]%two_graphs_lookup; unfold two_graphs; cbn [heap].
    + rewrite lookup_insert_eq. by eexists.
    + rewrite lookup_insert_ne, lookup_singleton_eq by done. by eexists.
  - intros n n' q Hn%two_graphs_lookup Hn'%two_graphs_lookup. naive_solver.
  - intros q [= <-]. exists "a". by apply two_graphs_lookup; left.
  - reflexivity.
Qed.

Lemma mergeIntoActiveGraph_union_witness :
  ∃ g', mergeIntoActiveGraph (IO := reversed_order) MergeByName two_graphs ⇓ set_graph two_graphs 1 g' ∧
    wf g' ∧ hasNode_name g' "base" = true.
Proof.
  destruct (mergeIntoActiveGraph_union (IO := reversed_order) (MDI := builtin_md) combinable MergeByName two_graphs 1 target)
    as (g' & Hrun & Hwf & Hnames & _).
  - apply two_graphs_wf.
  - reflexivity.
  - unfold two_graphs. cbn [heap]. apply lookup_insert_eq.
  - apply target_wf.
  - apply target_ok.
  - intros n q h [[_ ->]|[_ ->]]%two_graphs_lookup Hq; [by destruct Hq|].
    unfold two_graphs. cbn [heap]. rewrite lookup_insert_ne, lookup_singleton_eq by done.
    intros Hs. assert (h = source) as -> by congruence. apply source_ok.
  - exists g'. split_and!; [exact Hrun|exact Hwf|]. apply Hnames.
    exists "b", 2, source. split_and!.
    + apply two_graphs_lookup. right. split; reflexivity.
    + unfold two_graphs. cbn [heap]. rewrite lookup_insert_ne by discriminate.
      apply lookup_singleton_eq.
    + vm_compute. reflexivity.
Defined.

Lemma replaced_active_graph_dangles_witness :
  ∃ m', addToManagedGraphs two_graphs "a" (Some (3, source)) false ⇓ (m', true) ∧
    mgr_size m' = UB ∧ resetActiveGraph m' = UB ∧
    getActiveGraphName (IO := canonical_order) m' = AssertFail.
Proof.
  apply (replaced_active_graph_dangles (IO := canonical_order) two_graphs "a" 3 1 source two_graphs_wf).
  - by apply two_graphs_lookup; left.
  - reflexivity.
  - unfold two_graphs. cbn [heap]. by rewrite lookup_insert_ne, lookup_singleton_ne by done.
Defined.
End ManagerExample.
