(* ===== verification/Reach.v ===== *)
(** * Reachability analysis

    [graph/include/metacg/ReachabilityAnalysis.h] and
    [graph/src/ReachabilityAnalysis.cpp]: the traversal with its work queue,
    its results for every start node, and the caching of the results.  A
    pointer is [Some] identifier of a node, or [None] for null. *)

From S2P Require Import Prelude Worklist Json MetaData BuiltinMD Callgraph.
From S2P Require Import CallgraphWf.
From S2P Require Import CallgraphOps CallgraphSpec CallgraphProps.

Section reach.
Context {JO : JsonOps} {MDI : MetaDataI} {IO : IterOrder}.

Abbreviation NodePtr := (option NodeId).

Record ReachabilityAnalysis := mkReach {
  reachableNodes : gmap NodePtr (gset NodePtr);
  computedFor : gset NodePtr
}.

Definition Reach_new : ReachabilityAnalysis := mkReach ∅ ∅.

(** One turn of the loop of [runForNode]; the state is the set of visited
    nodes and the queue. *)
Definition reach_turn (cg : Callgraph) (st : gset NodePtr * list NodePtr)
    : outcome ((gset NodePtr * list NodePtr) + gset NodePtr) :=
  match st.2 with
  | [] => Ret (inr st.1)
  | node :: workQueue =>
      let visitedNodes := {[node]} ∪ st.1 in
      i ← deref node;
      callees ← getCallees cg i;
      Ret (inl (visitedNodes,
                workQueue ++ filter (λ childNode, childNode ∉ visitedNodes) (iter_set callees)))
  end.

Definition runForNode (cg : Callgraph) (fuel : nat) (ra : ReachabilityAnalysis) (n : NodePtr)
    : outcome ReachabilityAnalysis :=
  visitedNodes ← loop fuel (reach_turn cg) (∅, [n]);
  Ret (mkReach (<[n := visitedNodes]> (reachableNodes ra)) ({[n]} ∪ computedFor ra)).

(** [getMain] may fill the cache of the graph, which is returned as well. *)
Definition computeReachableFromMain (cg : Callgraph) (fuel : nat) (ra : ReachabilityAnalysis)
    : outcome (Callgraph * ReachabilityAnalysis) :=
  p ← getMain cg false;
  cpp_assert (bool_decide (is_Some p.2));;
  ra ← runForNode p.1 fuel ra p.2;
  Ret (p.1, ra).

Definition isReachableFromMain (cg : Callgraph) (fuel : nat) (ra : ReachabilityAnalysis)
    (node : NodePtr) (forceUpdate : bool) : outcome (Callgraph * ReachabilityAnalysis * bool) :=
  p ← (if forceUpdate then Ret (cg, true)
       else q ← getMain cg false; Ret (q.1, bool_decide (q.2 ∉ computedFor ra)));
  s ← (if p.2 : bool then computeReachableFromMain p.1 fuel ra else Ret (p.1, ra));
  m ← getMain s.1 false;
  reachableFromMain ← deref (reachableNodes s.2 !! m.2);
  Ret (m.1, s.2, bool_decide (node ∈ (reachableFromMain : gset NodePtr))).

Definition existsPathBetween (cg : Callgraph) (fuel : nat) (ra : ReachabilityAnalysis)
    (src dest : NodePtr) (forceUpdate : bool) : outcome (ReachabilityAnalysis * bool) :=
  (* reachableNodes[src] creates a missing entry *)
  let ra := mkReach (<[src := default ∅ (reachableNodes ra !! src)]> (reachableNodes ra))
              (computedFor ra) in
  if negb forceUpdate && bool_decide (src ∈ computedFor ra)
  then Ret (ra, bool_decide (dest ∈ default ∅ (reachableNodes ra !! src)))
  else ra' ← runForNode cg fuel ra src;
       Ret (ra', bool_decide (dest ∈ default ∅ (reachableNodes ra' !! src))).

Definition getReachableNodesFrom (cg : Callgraph) (fuel : nat) (ra : ReachabilityAnalysis)
    (node : NodePtr) (forceUpdate : bool) : outcome (ReachabilityAnalysis * gset NodePtr) :=
  ra ← (if forceUpdate || bool_decide (node ∉ computedFor ra)
        then runForNode cg fuel ra node else Ret ra);
  cpp_assert (bool_decide (is_Some (reachableNodes ra !! node)));;
  V ← deref (reachableNodes ra !! node);
  Ret (ra, V).

(** ** The traversal stops with the reachable nodes *)

(** There is a call from [i] to [j]. *)
Definition calls (cg : Callgraph) (i j : NodeId) : Prop := is_Some (edges cg !! (i, j)).

Definition reachable_set (cg : Callgraph) (i : NodeId) (V : gset NodePtr) : Prop :=
  ∀ p, p ∈ V ↔ ∃ j, p = Some j ∧ rtc (calls cg) i j.

Section traversal.
Context (cg : Callgraph) (Hwf : wf cg) (start : NodeId) (Hstart : live cg start).

Lemma rtc_calls_live i j : rtc (calls cg) i j → live cg i → live cg j.
Proof using Hwf. induction 1 as [|i k j Hik _ IH]; [done|]. intros _. by apply IH, (wf_edges _ Hwf i). Qed.

(** The call relation on pointers. *)
Definition calls_ptr (p q : NodePtr) : Prop := ∃ i j, p = Some i ∧ q = Some j ∧ calls cg i j.

Lemma rtc_calls_ptr i p : rtc calls_ptr (Some i) p ↔ ∃ j, p = Some j ∧ rtc (calls cg) i j.
Proof using Type.
  clear. split.
  - intros Hr. remember (Some i) as o eqn:Ho. revert i Ho.
    induction Hr as [o|o q p (k & j & -> & -> & Hk) _ IH]; intros i Ho; [by exists i|].
    injection Ho as <-. destruct (IH j eq_refl) as (l & -> & Hl). exists l. split; [done|]. by eapply rtc_l.
  - intros (j & -> & Hr). induction Hr as [|i k j Hk _ IH]; [done|].
    eapply rtc_l; [|exact IH]. by exists i, k.
Qed.

(** All slots of the graph. *)
Definition slots : gset NodePtr := list_to_set (Some <$> seq 0 (length (nodes cg))).

Lemma reach_turn_step st :
  wl_inv calls_ptr (Some start) st.1 st.2 →
  (∃ st', reach_turn cg st ⇓ inl st' ∧ wl_inv calls_ptr (Some start) st'.1 st'.2 ∧
     lex_lt (λ st, unvisited slots st.1) (λ st, visited_prefix st.1 st.2) st' st) ∨
  (∃ V, reach_turn cg st ⇓ inr V ∧ reachable_set cg start V).
Proof using Hwf Hstart.
  destruct st as [V [|p q]]; cbn [fst snd]; intros Hinv; [right|left].
  - exists V. split; [done|]. intros p. by rewrite (wl_done _ _ _ Hinv), rtc_calls_ptr.
  - destruct (proj1 (rtc_calls_ptr start p)) as (i & -> & Hi); [apply (wl_sound _ _ _ _ Hinv); set_solver|].
    destruct (getCallees_ret cg i Hwf) as (S & HS & HSin).
    set (new := filter (λ c, c ∉ ({[Some i]} ∪ V)) (iter_set S)).
    exists ({[Some i]} ∪ V, q ++ new). split; [unfold reach_turn; simpl; by rewrite HS|].
    apply (wl_step calls_ptr (Some start) slots V (Some i) q new); [|done|].
    + intros c (j & -> & Hj)%rtc_calls_ptr. apply elem_of_list_to_set, list_elem_of_fmap_2, elem_of_seq.
      assert (live cg j) as ?%live_lt by (by eapply rtc_calls_live). lia.
    + intros c. unfold new. rewrite list_elem_of_filter, elem_of_iter_set, HSin. unfold calls_ptr, calls.
      naive_solver.
Qed.

(** The traversal: it stops, whatever the order in which the callees are
    visited, with exactly the nodes reachable from the start. *)
Lemma reach_loop_ret :
  ∃ V N, reachable_set cg start V ∧
    ∀ fuel, N ≤ fuel → loop fuel (reach_turn cg) (∅, [Some start]) ⇓ V.
Proof using Hwf Hstart.
  apply (loop_terminates (reach_turn cg) (λ st, wl_inv calls_ptr (Some start) st.1 st.2)
           (reachable_set cg start)
           (lex_lt (λ st, unvisited slots st.1) (λ st, visited_prefix st.1 st.2))).
  - apply lex_lt_wf.
  - apply wl_inv_init.
  - intros st Hst. destruct (reach_turn_step st Hst) as [?|?]; [left|right]; naive_solver.
Qed.

Lemma reachable_set_unique i V V' : reachable_set cg i V → reachable_set cg i V' → V = V'.
Proof. intros H1 H2. apply set_eq. intros p. etrans; [apply H1|symmetry; apply H2]. Qed.
End traversal.

(** ** The operations *)

(** Every node the analysis ran for has its set of reachable nodes. *)
Definition cache_ok (cg : Callgraph) (ra : ReachabilityAnalysis) : Prop :=
  ∀ p, p ∈ computedFor ra → ∃ i V, p = Some i ∧ live cg i ∧
    reachableNodes ra !! p = Some V ∧ reachable_set cg i V.

Lemma cache_ok_new cg : cache_ok cg Reach_new.
Proof. intros p ?%elem_of_empty. done. Qed.

(** The traversal only looks at the callees, so that its result and the bound
    on its turns are the same for graphs with the same callees. *)
Definition same_callees (cg cg' : Callgraph) : Prop := ∀ k, getCallees cg' k = getCallees cg k.

Lemma same_callees_refl cg : same_callees cg cg.
Proof. by intros k. Qed.

Lemma runForNode_ret cg i :
  wf cg → live cg i →
  ∃ V N, reachable_set cg i V ∧ ∀ cg' ra, same_callees cg cg' → cache_ok cg ra →
    ∃ ra', (∀ fuel, N ≤ fuel → runForNode cg' fuel ra (Some i) ⇓ ra') ∧ cache_ok cg ra' ∧
           reachableNodes ra' !! Some i = Some V ∧ Some i ∈ computedFor ra'.
Proof.
  intros Hwf Hi. destruct (reach_loop_ret cg Hwf i Hi) as (V & N & HV & Hrun).
  exists V, N. split; [done|]. intros cg' ra Hsame Hok. eexists. split.
  { intros fuel Hf. unfold runForNode. rewrite (loop_ext (reach_turn cg') (reach_turn cg)); [by rewrite Hrun|].
    intros [W [|[k|] q]]; unfold reach_turn; cbn [fst snd deref]; [done| |done].
    by rewrite !bind_ret, Hsame. }
  cbn [reachableNodes computedFor]. split_and!; [|apply lookup_insert_eq|set_solver].
  intros p. cbn [reachableNodes computedFor]. rewrite elem_of_union, elem_of_singleton.
  destruct (decide (p = Some i)) as [->|Hne].
  - intros _. exists i, V. by rewrite lookup_insert_eq.
  - intros [?|Hp]; [done|]. rewrite lookup_insert_ne by done. by apply Hok.
Qed.

Lemma existsPathBetween_ret (cg : Callgraph) (ra : ReachabilityAnalysis) (i : NodeId)
    (dest : NodePtr) (forceUpdate : bool) :
  wf cg → live cg i → cache_ok cg ra →
  ∃ N, ∀ fuel, N ≤ fuel → ∃ ra' b,
    existsPathBetween cg fuel ra (Some i) dest forceUpdate ⇓ (ra', b) ∧ cache_ok cg ra' ∧
    (b = true ↔ ∃ j, dest = Some j ∧ rtc (calls cg) i j).
Proof.
  intros Hwf Hi Hok. set (ra1 := mkReach (<[Some i := default ∅ (reachableNodes ra !! Some i)]>
    (reachableNodes ra)) (computedFor ra)).
  assert (cache_ok cg ra1) as Hok1.
  { intros p Hp. destruct (Hok p Hp) as (j & V & -> & Hj & HV & Hr). exists j, V.
    split_and!; [done|done| |done]. simpl. destruct (decide (j = i)) as [->|Hne].
    - by rewrite lookup_insert_eq, HV.
    - rewrite lookup_insert_ne by congruence. done. }
  destruct (runForNode_ret cg i Hwf Hi) as (V & N & HV & Hrun). exists N.
  intros fuel Hf. unfold existsPathBetween. fold ra1.
  destruct (negb forceUpdate && bool_decide (Some i ∈ computedFor ra1)) eqn:Hc.
  - apply andb_true_iff in Hc as [_ Hc%bool_decide_eq_true].
    destruct (Hok1 _ Hc) as (j & V' & [= <-] & _ & HV' & Hr).
    do 2 eexists. split; [done|]. split; [done|]. rewrite HV', bool_decide_eq_true. apply Hr.
  - destruct (Hrun cg ra1 (same_callees_refl cg) Hok1) as (ra' & Hr' & Hok' & Hlk & _). rewrite Hr' by done. cbn.
    do 2 eexists. split; [done|]. split; [done|]. rewrite Hlk, bool_decide_eq_true. apply HV.
Qed.

Lemma getReachableNodesFrom_ret (cg : Callgraph) (ra : ReachabilityAnalysis) (i : NodeId)
    (forceUpdate : bool) :
  wf cg → live cg i → cache_ok cg ra →
  ∃ N, ∀ fuel, N ≤ fuel → ∃ ra' V,
    getReachableNodesFrom cg fuel ra (Some i) forceUpdate ⇓ (ra', V) ∧ cache_ok cg ra' ∧
    reachable_set cg i V.
Proof.
  intros Hwf Hi Hok. destruct (runForNode_ret cg i Hwf Hi) as (V & N & HV & Hrun).
  exists N. intros fuel Hf. unfold getReachableNodesFrom.
  destruct (forceUpdate || bool_decide (Some i ∉ computedFor ra)) eqn:Hc.
  - destruct (Hrun cg ra (same_callees_refl cg) Hok) as (ra' & Hr' & Hok' & Hlk & _). rewrite Hr' by done. exists ra', V.
    rewrite bind_ret, Hlk. by rewrite bool_decide_true by (by eexists).
  - apply orb_false_iff in Hc as [_ Hc%bool_decide_eq_false].
    destruct (Hok (Some i)) as (j & V' & [= <-] & _ & HV' & Hr); [by apply dec_stable|].
    exists ra, V'. rewrite bind_ret, HV'. by rewrite bool_decide_true by (by eexists).
Qed.

Lemma isReachableFromMain_ret (cg : Callgraph) (m : NodeId) :
  wf cg → mainNode cg = Some m →
  ∃ N, ∀ cg' ra node forceUpdate,
    same_callees cg cg' → mainNode cg' = Some m → cache_ok cg ra → ∃ ra' b,
    (∀ fuel, N ≤ fuel → isReachableFromMain cg' fuel ra node forceUpdate ⇓ (cg', ra', b)) ∧
    cache_ok cg ra' ∧
    (b = true ↔ ∃ j, node = Some j ∧ rtc (calls cg) m j).
Proof.
  intros Hwf Hm. destruct (runForNode_ret cg m Hwf (wf_main _ Hwf _ Hm)) as (V & N & HV & Hrun).
  exists N. intros cg' ra node forceUpdate Hsame Hm' Hok.
  assert (getMain cg' false ⇓ (cg', Some m)) as Hmain by (unfold getMain; by rewrite Hm').
  destruct (Hrun cg' ra Hsame Hok) as (ra' & Hra' & Hok' & Hlk & Hin).
  assert (∀ (b : bool), (b = false → Some m ∈ computedFor ra) →
    ∃ ra2 V2, (∀ fuel, N ≤ fuel →
        (if b then computeReachableFromMain cg' fuel ra else Ret (cg', ra)) ⇓ (cg', ra2)) ∧
      cache_ok cg ra2 ∧ reachableNodes ra2 !! Some m = Some V2 ∧ reachable_set cg m V2) as Hgo.
  { intros [] Hb.
    - exists ra', V. split; [|done]. intros fuel Hf. unfold computeReachableFromMain. rewrite Hmain. cbn.
      by rewrite Hra'.
    - destruct (Hok _ (Hb eq_refl)) as (j & V' & [= <-] & _ & HV' & Hr). by exists ra, V'. }
  assert (∃ b, (if forceUpdate then Ret (cg', true)
       else q ← getMain cg' false; Ret (q.1, bool_decide (q.2 ∉ computedFor ra))) ⇓ (cg', b) ∧
     (b = false → Some m ∈ computedFor ra)) as (b & Hb1 & Hb).
  { destruct forceUpdate; [by exists true|]. rewrite Hmain. cbn. eexists. split; [done|].
    intros ?%bool_decide_eq_false. by apply dec_stable. }
  destruct (Hgo b Hb) as (ra2 & V2 & Hgo2 & Hok2 & Hlk2 & Hr2).
  exists ra2, (bool_decide (node ∈ V2)). split; [|split; [done|rewrite bool_decide_eq_true; apply Hr2]].
  intros fuel Hf. unfold isReachableFromMain. rewrite Hb1, bind_ret. cbn [fst snd].
  rewrite Hgo2 by done. rewrite bind_ret. cbn [fst snd].
  rewrite Hmain, bind_ret. cbn [fst snd]. rewrite Hlk2. cbn [deref]. by rewrite bind_ret.
Qed.

(** C6: the reachability analysis answers exactly the reflexive and transitive
    closure of the call relation, with or without its cache: the traversal
    stops (for every visiting order and every large enough bound on its turns),
    and the cache stays correct. *)
Theorem existsPathBetween_correct (cg : Callgraph) (ra : ReachabilityAnalysis) (i : NodeId)
    (dest : NodePtr) (forceUpdate : bool) :
  wf cg → live cg i → cache_ok cg ra →
  ∃ N, ∀ fuel, N ≤ fuel → ∃ ra' b,
    existsPathBetween cg fuel ra (Some i) dest forceUpdate ⇓ (ra', b) ∧ cache_ok cg ra' ∧
    (b = true ↔ ∃ j, dest = Some j ∧ rtc (calls cg) i j).
Proof. apply existsPathBetween_ret. Qed.

(** The queries about the main function: with a main function in the
    graph, [isReachableFromMain] computes what is missing and answers whether
    there is a path from it. *)
Theorem isReachableFromMain_correct (cg : Callgraph) (ra : ReachabilityAnalysis) (m : NodeId)
    (node : NodePtr) (forceUpdate : bool) :
  wf cg → cache_ok cg ra → mainNode cg = Some m →
  ∃ N, ∀ fuel, N ≤ fuel → ∃ ra' b,
    isReachableFromMain cg fuel ra node forceUpdate ⇓ (cg, ra', b) ∧ cache_ok cg ra' ∧
    (b = true ↔ ∃ j, node = Some j ∧ rtc (calls cg) m j).
Proof.
  intros Hwf Hok Hm. destruct (isReachableFromMain_ret cg m Hwf Hm) as (N & HN). exists N.
  intros fuel Hf. destruct (HN cg ra node forceUpdate (same_callees_refl cg) Hm Hok) as (ra' & b & Hr & ?).
  exists ra', b. split; [by apply Hr|done].
Qed.
End reach.

(** ** Concrete runs *)

Module ReachExample.
Import GraphExamples.
#[export] Existing Instance canonical_order.

(** A chain of [n] diamonds: 3n + 1 nodes and 4n edges. *)
Definition diamond (k : nat) : list op := [
  OInsert "a" None false true; OInsert "b" None false true; OInsert "d" None false true;
  OAddEdge (3 * k) (3 * k + 1); OAddEdge (3 * k) (3 * k + 2);
  OAddEdge (3 * k + 1) (3 * k + 3); OAddEdge (3 * k + 2) (3 * k + 3)
].

Definition diamonds (n : nat) : Callgraph :=
  match run_all (OInsert "main" None false true :: concat (diamond <$> seq 0 n)) (Callgraph_new 1) with
  | Ret (g, _) => g
  | _ => Callgraph_new 1
  end.

Definition is_ret {A} (x : outcome A) : bool := match x with Ret _ => true | _ => false end.
Definition is_out_of_fuel {A} (x : outcome A) : bool :=
  match x with OutOfFuel => true | _ => false end.

(** Nodes are marked as visited when they leave the queue, not when they
    enter it, and a node that is taken out again is expanded again: on a chain
    of diamonds the number of turns doubles with every diamond.  Six of them,
    19 nodes and 24 edges, take 254 turns. *)
Theorem reachability_repeats_work :
  getNodeCount (diamonds 6) = 19 ∧ size (edges (diamonds 6)) = 24 ∧
  is_out_of_fuel (loop 253 (reach_turn (diamonds 6)) (∅, [Some 0])) = true ∧
  is_ret (loop 254 (reach_turn (diamonds 6)) (∅, [Some 0])) = true.
Proof. by vm_compute. Qed.

Lemma existsPathBetween_correct_witness :
  ∃ N, ∀ fuel, N ≤ fuel → ∃ ra' b,
    existsPathBetween sample_graph fuel Reach_new (Some 0) (Some 3) false ⇓ (ra', b) ∧
    cache_ok sample_graph ra' ∧
    (b = true ↔ ∃ j, Some 3 = Some j ∧ rtc (calls sample_graph) 0 j).
Proof.
  apply (existsPathBetween_correct sample_graph Reach_new 0 (Some 3) false sample_wf).
  - exists sample_main. apply sample_main_at.
  - apply cache_ok_new.
Defined.

Lemma isReachableFromMain_correct_witness :
  ∃ N, ∀ fuel, N ≤ fuel → ∃ ra' b,
    isReachableFromMain sample_graph fuel Reach_new (Some 2) false ⇓ (sample_graph, ra', b) ∧
    cache_ok sample_graph ra' ∧
    (b = true ↔ ∃ j, Some 2 = Some j ∧ rtc (calls sample_graph) 0 j).
Proof.
  apply (isReachableFromMain_correct sample_graph Reach_new 0 (Some 2) false sample_wf).
  - apply cache_ok_new.
  - vm_compute. reflexivity.
Defined.

Lemma reach_computed :
  match existsPathBetween sample_graph 20 Reach_new (Some 0) (Some 3) false with
  | Ret (_, b) => b | _ => false end = true ∧
  match isReachableFromMain sample_graph 20 Reach_new (Some 1) false with
  | Ret (_, b) => b | _ => true end = false.
Proof. by vm_compute. Qed.
End ReachExample.
