(* ===== verification/Util.v ===== *)
(** * Versions and strings

    [graph/include/metacg/Util.h] and [graph/include/metacg/MCGBaseInfo.h]:
    splitting strings, reading version numbers, and the information about file
    formats and generators that the readers and writers exchange. *)

From Stdlib Require Import Ascii.
From S2P Require Import Prelude.

(** ** Standard string functions *)

(** [in.find(c, pos)], [None] for [npos] *)
Definition string_find (s : string) (c : Ascii.ascii) (pos : nat) : option nat :=
  String.index pos (String c EmptyString) s.

(** [in.substr(pos, len)] throws for a position past the end. *)
Definition string_substr (s : string) (pos len : nat) : outcome string :=
  if decide (String.length s < pos) then Throw out_of_range
  else Ret (String.substring pos len s).

Definition digit_value (c : Ascii.ascii) : option Z :=
  let n := Z.of_nat (Ascii.nat_of_ascii c) in
  if decide (48 ≤ n ≤ 57)%Z then Some (n - 48)%Z else None.

(** The digits at the front of a string, most significant first. *)
Fixpoint digits_prefix (s : string) (acc : Z) : Z :=
  match s with
  | EmptyString => acc
  | String c s => match digit_value c with Some d => digits_prefix s (10 * acc + d) | None => acc end
  end.

Definition is_space (c : Ascii.ascii) : bool :=
  let n := Ascii.nat_of_ascii c in bool_decide (n = 32 ∨ 9 ≤ n ≤ 13).

(** [std::atoi]: white space, a sign, digits; overflow is undefined. *)
Fixpoint atoi (s : string) : outcome Z :=
  let check z := if decide (is_int z) then Ret z else UB in
  match s with
  | EmptyString => Ret 0%Z
  | String c s' =>
      if is_space c then atoi s'
      else if decide (c = "-"%char) then check (- digits_prefix s' 0)%Z
      else if decide (c = "+"%char) then check (digits_prefix s' 0)
      else check (digits_prefix s 0)
  end.

(** ** [metacg::util] *)

(** One turn of the first loop of [string_split], which collects where the
    parts begin. *)
Definition split_turn (s : string) (c : Ascii.ascii) (positions : list nat)
    : outcome (list nat + list nat) :=
  match string_find s c (default 0 (last positions) + 1) with
  | None | Some 0 => Ret (inr positions)
  | Some pos =>
      let positions := positions ++ [pos + 1] in
      if decide (5000 < length positions) then Throw (process_exit (-1))
      else Ret (inl positions)
  end.

(** [end - bg] is the distance of two neighbouring iterators: always 1. *)
Definition string_split (s : string) (c : Ascii.ascii) : outcome (list string) :=
  positions ← loop (S (S (String.length s))) (split_turn s c) [0];
  foldM (λ vec bg, part ← string_substr s bg 1; Ret (vec ++ [part])) [] positions.

Fixpoint count_char (c : Ascii.ascii) (s : string) : nat :=
  match s with
  | EmptyString => 0
  | String c' s => (if decide (c' = c) then 1 else 0) + count_char c s
  end.

Definition getVersionNoAtPosition (versionStr : string) (index : nat) : outcome Z :=
  if decide (count_char "."%char versionStr < 1) then Throw (process_exit (-1))
  else
    versionParts ← string_split versionStr "."%char;
    part ← at_or_throw (versionParts !! index);
    atoi part.

Definition getMajorVersionFromString (versionStr : string) : outcome Z :=
  getVersionNoAtPosition versionStr 0.
Definition getMinorVersionFromString (versionStr : string) : outcome Z :=
  getVersionNoAtPosition versionStr 1.

(** ** File format information *)

Record MCGFileFormatVersion := mkFormatVersion { versionMajor : Z; versionMinor : Z }.

Definition version_eq (v rhs : MCGFileFormatVersion) : bool :=
  bool_decide (versionMajor v = versionMajor rhs) && bool_decide (versionMinor v = versionMinor rhs).
Definition version_neq (v rhs : MCGFileFormatVersion) : bool := negb (version_eq rhs v).
Definition version_lt (v rhs : MCGFileFormatVersion) : bool :=
  bool_decide (versionMajor v < versionMajor rhs)%Z ||
  (bool_decide (versionMajor v = versionMajor rhs) &&
   bool_decide (versionMinor v < versionMinor rhs)%Z).
(** [operator>] is the negation of [operator<]. *)
Definition version_gt (v rhs : MCGFileFormatVersion) : bool := negb (version_lt v rhs).

Definition getVersionStr (major minor : Z) : string := pretty major +:+ "." +:+ pretty minor.

Record MCGGeneratorVersionInfo := mkGenerator {
  gen_name : string;
  gen_major : Z;
  gen_minor : Z;
  gen_sha : string
}.

Record MCGFileFormatInfo := mkFormatInfo {
  fi_version : MCGFileFormatVersion;
  cgFieldName : string;
  metaInfoFieldName : string
}.

Definition MCGFileFormatInfo_new (major minor : Z) : MCGFileFormatInfo :=
  mkFormatInfo (mkFormatVersion major minor) "_CG" "_MetaCG".

Record MCGFileInfo := mkFileInfo {
  formatInfo : MCGFileFormatInfo;
  generatorInfo : MCGGeneratorVersionInfo
}.

Definition getVersionTwoFileInfo (mcgGenInfo : MCGGeneratorVersionInfo) : MCGFileInfo :=
  mkFileInfo (MCGFileFormatInfo_new 2 0) mcgGenInfo.

(** ** What the functions do *)

Lemma index_bound n c s pos :
  String.index n (String c EmptyString) s = Some pos → n ≤ pos < String.length s.
Proof.
  revert n pos. induction s as [|c' s IH]; intros n pos; simpl.
  - destruct n; done.
  - destruct n as [|n].
    + destruct (ascii_dec c c').
      * simpl. destruct s; intros [= <-]; simpl; lia.
      * destruct (String.index 0 _ s) as [p|] eqn:Hp; [|done]. intros [= <-].
        apply IH in Hp. lia.
    + destruct (String.index n _ s) as [p|] eqn:Hp; [|done]. intros [= <-].
      apply IH in Hp. lia.
Qed.

(** The positions that [string_split] collects lie within the string. *)
Definition positions_ok (s : string) (l : list nat) : Prop :=
  l ≠ [] ∧ Forall (λ p, p ≤ String.length s) l.

Lemma split_turn_step s c l :
  positions_ok s l →
  (∃ l', split_turn s c l ⇓ inl l' ∧ positions_ok s l' ∧ default 0 (last l) < default 0 (last l')) ∨
  split_turn s c l ⇓ inr l ∨ split_turn s c l = Throw (process_exit (-1)).
Proof.
  intros [Hl Hall]. unfold split_turn, string_find.
  destruct (String.index _ _ s) as [[|pos]|] eqn:Hi; [by right; left| |by right; left].
  apply index_bound in Hi. case_decide; [by right; right|]. left. eexists. split; [done|].
  rewrite last_snoc. simpl. split; [|lia]. split; [by destruct l|].
  apply Forall_app. split; [done|]. apply Forall_singleton. lia.
Qed.

Lemma split_loop s c fuel l :
  positions_ok s l → String.length s - default 0 (last l) < fuel →
  (∃ l', loop fuel (split_turn s c) l ⇓ l' ∧ positions_ok s l') ∨
  loop fuel (split_turn s c) l = Throw (process_exit (-1)).
Proof.
  revert l. induction fuel as [|fuel IH]; intros l Hok Hf; [lia|]. simpl.
  destruct (split_turn_step s c l Hok) as [(l' & -> & Hok' & Hlt)|[-> | ->]]; simpl.
  - apply IH; [done|]. destruct (last l') as [q|] eqn:Hq; simpl in *; [|lia].
    destruct Hok' as [_ Hall]. rewrite Forall_forall in Hall.
    assert (q ∈ l') as ?%Hall by (by apply last_Some_elem_of). lia.
  - left. by exists l.
  - by right.
Qed.

Lemma substring_1_length s n : String.length (String.substring n 1 s) ≤ 1.
Proof.
  revert n. induction s as [|c s IH]; intros [|n]; simpl; try lia; [|apply IH].
  destruct s; simpl; lia.
Qed.

Lemma string_split_parts s c :
  (∃ l, string_split s c ⇓ l ∧ Forall (λ p, String.length p ≤ 1) l) ∨
  string_split s c = Throw (process_exit (-1)).
Proof.
  unfold string_split.
  destruct (split_loop s c (S (S (String.length s))) [0]) as [(l & -> & _ & Hall)| ->];
    [split; [done|by apply Forall_singleton; lia]|simpl; lia| |by right].
  left. rewrite bind_ret.
  apply (foldM_inv (Forall (λ p, String.length p ≤ 1))); [done|].
  intros p vec Hp Hvec. rewrite Forall_forall in Hall. specialize (Hall p Hp).
  unfold string_substr. rewrite decide_False by lia. eexists. split; [done|].
  apply Forall_app. split; [done|]. apply Forall_singleton, substring_1_length.
Qed.

Lemma digit_value_bound c d : digit_value c = Some d → (0 ≤ d ≤ 9)%Z.
Proof. unfold digit_value. case_decide; [|done]. intros [= <-]. lia. Qed.

Lemma atoi_single s v : String.length s ≤ 1 → atoi s ⇓ v → (0 ≤ v ≤ 9)%Z.
Proof.
  destruct s as [|c [|c' s]]; simpl; [intros _ [= <-]; lia| |lia].
  intros _. destruct (is_space c); [intros [= <-]; lia|].
  repeat case_decide; try (intros [= <-]; lia); try done.
  destruct (digit_value c) as [d|] eqn:Hd; intros [= <-]; [|lia].
  apply digit_value_bound in Hd. lia.
Qed.

(** [string_split] cuts every part down to its first character, because it
    computes the length of a part from the distance of two iterators: no
    version number that is read from a string is larger than 9. *)
Theorem version_numbers_single_digit (versionStr : string) (index : nat) (v : Z) :
  getVersionNoAtPosition versionStr index ⇓ v → (0 ≤ v ≤ 9)%Z.
Proof.
  unfold getVersionNoAtPosition. case_decide; [done|].
  destruct (string_split_parts versionStr "."%char) as [(l & -> & Hall)| ->]; [|done].
  rewrite bind_ret. destruct (l !! index) as [part|] eqn:Hp; simpl; [|done].
  apply atoi_single. rewrite Forall_forall in Hall. by eapply Hall, list_elem_of_lookup_2.
Qed.

Lemma version_numbers_single_digit_witness :
  getMinorVersionFromString "0.12" ⇓ 1%Z ∧ (0 ≤ 1 ≤ 9)%Z.
Proof.
  assert (getMinorVersionFromString "0.12" ⇓ 1%Z) as H by (vm_compute; reflexivity).
  split; [exact H|]. exact (version_numbers_single_digit "0.12" 1 1 H).
Defined.

(** [operator<] orders the versions strictly and totally, but [operator>]
    is only its negation: every version is greater than itself. *)
Theorem version_order (u v w : MCGFileFormatVersion) :
  version_lt v v = false ∧
  (version_lt u v = true → version_lt v w = true → version_lt u w = true) ∧
  (version_eq u v = true ∨ version_lt u v = true ∨ version_lt v u = true) ∧
  (version_eq u v = true ↔ u = v) ∧
  version_gt v v = true.
Proof.
  unfold version_eq, version_gt, version_lt. destruct u, v, w. simpl.
  rewrite !orb_true_iff, !andb_true_iff, !bool_decide_eq_true. split_and!.
  - apply orb_false_iff. rewrite andb_false_iff, !bool_decide_eq_false. lia.
  - lia.
  - lia.
  - split; [intros [-> ->]; done|by intros [= -> ->]].
  - apply negb_true_iff, orb_false_iff. rewrite andb_false_iff, !bool_decide_eq_false. lia.
Qed.
