(* ===== verification/Dominators.v ===== *)
(** * Dominator analysis

    [graph/include/DominatorAnalysis.h]: the work-list algorithm
    [computeDominators], in both directions, on call graphs.  A pointer to a
    node is [Some] identifier, or [None] for null; a pointer to an entry of the
    result map is the key of the entry. *)

From S2P Require Import Prelude Json MetaData BuiltinMD Callgraph CallgraphWf.
From S2P Require Import CallgraphOps.

Abbreviation NodePtr := (option NodeId) (only parsing).

Inductive TraverseDir := Forward | Backward.

Record DomData := mkDomData {
  dom_node : NodePtr;
  Doms : gset NodePtr;
  initialized : bool
}.

(** A value-initialised entry. *)
Definition DomData_new : DomData := mkDomData None ∅ false.

Abbreviation DomAnalysisResult := (gmap NodePtr DomData).

Section algorithm.
Context {IO : IterOrder}.

Definition unorderedIntersection (a b : gset NodePtr) : gset NodePtr :=
  foldl (λ result item, if decide (item ∈ b) then {[item]} ∪ result else result) ∅ (iter_set a).

Definition intersection (nodes : list NodePtr) (DomMap : DomAnalysisResult) : outcome (gset NodePtr) :=
  match nodes with
  | [] => Ret ∅
  | n :: nodes =>
      last_intersection ← at_or_throw (DomMap !! n);
      foldM (λ last_intersection n,
        currSet ← at_or_throw (DomMap !! n);
        Ret (unorderedIntersection last_intersection (Doms currSet))) (Doms last_intersection) nodes
  end.

(** [DomMap[p]] creates a missing entry. *)
Definition dom_entry (DomMap : DomAnalysisResult) (p : NodePtr) : DomData :=
  default DomData_new (DomMap !! p).

Definition initializedCallees (DomMap : DomAnalysisResult) (ins : list NodePtr)
    : DomAnalysisResult * list NodePtr :=
  foldl (λ st calleePtr,
    (<[calleePtr := dom_entry st.1 calleePtr]> st.1,
     if initialized (dom_entry st.1 calleePtr) then st.2 ++ [calleePtr] else st.2)) (DomMap, []) ins.

Definition addToQueue (workQueue : list NodePtr) (data : NodePtr) : list NodePtr :=
  if decide (data ∈ workQueue) then workQueue else workQueue ++ [data].

Definition add_outgoing (st : DomAnalysisResult * list NodePtr) (callerPtr : NodePtr)
    : DomAnalysisResult * list NodePtr :=
  let data := dom_entry st.1 callerPtr in
  let data := if decide (dom_node data = None)
              then mkDomData callerPtr (Doms data) (initialized data) else data in
  (<[callerPtr := data]> st.1, addToQueue st.2 callerPtr).

Section with_graph.
(** The graph is a parameter of the template. *)
Context (incoming outgoing : NodePtr → outcome (gset NodePtr)).

(** The body of the [do] loop, and its condition. *)
Definition dom_turn (st : DomAnalysisResult * list NodePtr)
    : outcome ((DomAnalysisResult * list NodePtr) + DomAnalysisResult) :=
  match st.2 with
  | [] => UB
  | k :: workQueue =>
      nodeData ← deref (st.1 !! k);
      ins ← incoming (dom_node nodeData);
      let p := initializedCallees st.1 (iter_set ins) in
      DomNew ← intersection p.2 p.1;
      let DomNew := {[dom_node nodeData]} ∪ DomNew in
      st ← (if negb (initialized nodeData) || negb (bool_decide (Doms nodeData = DomNew)) then
              let DomMap := <[k := mkDomData (dom_node nodeData) DomNew true]> p.1 in
              outs ← outgoing (dom_node nodeData);
              Ret (foldl add_outgoing (DomMap, workQueue) (iter_set outs))
            else Ret (p.1, workQueue));
      Ret (match st.2 with [] => inr st.1 | _ => inl st end)
  end.

Definition dom_start (exitNode : NodePtr) : DomAnalysisResult * list NodePtr :=
  ({[exitNode := mkDomData exitNode ∅ false]}, [exitNode]).

Definition dominators_of (fuel : nat) (exitNode : NodePtr) : outcome DomAnalysisResult :=
  loop fuel dom_turn (dom_start exitNode).
End with_graph.
End algorithm.

Section computeDominators.
Context {JO : JsonOps} {MDI : MetaDataI} {IO : IterOrder}.

Definition callers_ptr (graph : Callgraph) (n : NodePtr) : outcome (gset NodePtr) :=
  i ← deref n; node ← deref (node_at graph i); getCallers_ref graph node.
Definition callees_ptr (graph : Callgraph) (n : NodePtr) : outcome (gset NodePtr) :=
  i ← deref n; node ← deref (node_at graph i); getCallees_ref graph node.

Definition computeDominators (graph : Callgraph) (dir : TraverseDir) (fuel : nat) (exitNode : NodePtr)
    : outcome DomAnalysisResult :=
  match dir with
  | Forward => dominators_of (callers_ptr graph) (callees_ptr graph) fuel exitNode
  | Backward => dominators_of (callees_ptr graph) (callers_ptr graph) fuel exitNode
  end.
End computeDominators.

(** ** The graph the analysis runs on *)

Section theory.
Context {IO : IterOrder}.
Context (inc out : NodePtr → gset NodePtr) (incoming outgoing : NodePtr → outcome (gset NodePtr)).
Context (root : NodePtr) (V : gset NodePtr).

(** [V] is the finite set of nodes: closed, with consistent neighbours, and
    without an edge back to the start node. *)
Record dom_graph : Prop := {
  dg_root : root ∈ V;
  dg_null : None ∉ V;
  dg_closed : ∀ n m, n ∈ V → m ∈ out n → m ∈ V;
  dg_flip : ∀ n m, n ∈ V → m ∈ V → m ∈ out n ↔ n ∈ inc m;
  dg_inc : ∀ n, n ∈ V → incoming n ⇓ inc n;
  dg_out : ∀ n, n ∈ V → outgoing n ⇓ out n
}.

(** Walks from the start node; the list holds the nodes passed. *)
Inductive walk : list NodePtr → NodePtr → Prop :=
  | walk_start : walk [root] root
  | walk_step l n m : walk l n → m ∈ out n → walk (m :: l) m.

Definition walked (n : NodePtr) : Prop := ∃ l, walk l n.

(** Every walk to [n] passes [d]. *)
Definition dominates (d n : NodePtr) : Prop := ∀ l, walk l n → d ∈ l.

Lemma walk_last l n : walk l n → n ∈ l.
Proof using Type. clear. destruct 1; set_solver. Qed.

Lemma walk_root l n : walk l n → root ∈ l.
Proof using Type. clear. induction 1; set_solver. Qed.

Lemma dominates_self n : dominates n n.
Proof using Type. clear. intros l. apply walk_last. Qed.

Lemma dominates_pred d n m : dominates d m → d ≠ m → m ∈ out n → dominates d n.
Proof using Type.
  clear. intros Hd Hne Hm l Hl. specialize (Hd (m :: l) (walk_step _ _ _ Hl Hm)). set_solver.
Qed.

(** ** What the steps of a turn compute *)

Definition init (D : DomAnalysisResult) (p : NodePtr) : Prop := initialized (dom_entry D p) = true.
#[export] Instance init_dec D p : Decision (init D p).
Proof. unfold init. apply _. Defined.
Definition doms (D : DomAnalysisResult) (p : NodePtr) : gset NodePtr := Doms (dom_entry D p).

Lemma dom_entry_some D p d : D !! p = Some d → dom_entry D p = d.
Proof. unfold dom_entry. by intros ->. Qed.

Lemma dom_entry_insert D p d p' :
  dom_entry (<[p := d]> D) p' = if decide (p = p') then d else dom_entry D p'.
Proof. unfold dom_entry. rewrite lookup_insert. by case_decide. Qed.

Lemma unorderedIntersection_spec a b x : x ∈ unorderedIntersection a b ↔ x ∈ a ∧ x ∈ b.
Proof.
  unfold unorderedIntersection. rewrite <- (elem_of_iter_set a).
  enough (∀ l acc, x ∈ foldl (λ result item, if decide (item ∈ b) then {[item]} ∪ result else result)
    acc l ↔ x ∈ acc ∨ (x ∈ l ∧ x ∈ b)) as -> by set_solver.
  induction l as [|y l IH]; intros acc; simpl; [set_solver|]. rewrite IH. case_decide; set_solver.
Qed.

Lemma intersection_spec nodes D :
  (∀ p, p ∈ nodes → is_Some (D !! p)) →
  ∃ S, intersection nodes D ⇓ S ∧ ∀ x, x ∈ S ↔ nodes ≠ [] ∧ ∀ p, p ∈ nodes → x ∈ doms D p.
Proof.
  destruct nodes as [|n nodes]; intros Hn; [by exists ∅; split; [|set_solver]|]. unfold intersection.
  destruct (Hn n) as [d Hd]; [set_solver|]. rewrite Hd. cbn [at_or_throw]. rewrite bind_ret.
  destruct (foldM_ind (λ dn S, ∀ x, x ∈ S ↔ x ∈ Doms d ∧ ∀ p, p ∈ dn → x ∈ doms D p)
    (λ last_intersection n, currSet ← at_or_throw (D !! n);
       Ret (unorderedIntersection last_intersection (Doms currSet))) nodes (Doms d)) as (S & -> & HS).
  - set_solver.
  - intros dn p rest S -> HS. destruct (Hn p) as [dp Hp]; [set_solver|]. rewrite Hp. eexists.
    split; [done|]. intros x. rewrite unorderedIntersection_spec, HS.
    assert (Doms dp = doms D p) as -> by (unfold doms; by rewrite (dom_entry_some _ _ _ Hp)). set_solver.
  - exists S. split; [done|]. intros x. rewrite HS.
    assert (Doms d = doms D n) as -> by (unfold doms; by rewrite (dom_entry_some _ _ _ Hd)).
    split; [intros [? ?]; split; [done|set_solver]|set_solver].
Qed.

Lemma initializedCallees_spec D ins :
  let r := initializedCallees D ins in
  (∀ p, dom_entry r.1 p = dom_entry D p) ∧
  (∀ p, is_Some (r.1 !! p) ↔ is_Some (D !! p) ∨ p ∈ ins) ∧ r.2 = filter (init D) ins.
Proof.
  unfold initializedCallees.
  enough (∀ ins D' acc, (∀ p, dom_entry D' p = dom_entry D p) →
    let r := foldl (λ st calleePtr, (<[calleePtr := dom_entry st.1 calleePtr]> st.1,
      if initialized (dom_entry st.1 calleePtr) then st.2 ++ [calleePtr] else st.2)) (D', acc) ins in
    (∀ p, dom_entry r.1 p = dom_entry D p) ∧
    (∀ p, is_Some (r.1 !! p) ↔ is_Some (D' !! p) ∨ p ∈ ins) ∧ r.2 = acc ++ filter (init D) ins) as Hgen
    by (apply (Hgen ins D []); done).
  clear ins. induction ins as [|c ins IH]; intros D' acc HD'; simpl.
  - split_and!; [done|set_solver|by rewrite app_nil_r].
  - destruct (IH (<[c := dom_entry D' c]> D')
      (if initialized (dom_entry D' c) then acc ++ [c] else acc)) as (H1 & H2 & H3).
    { intros p. rewrite dom_entry_insert. case_decide; [subst|]; apply HD'. }
    split_and!; [done| |].
    + intros p. rewrite H2, lookup_insert_is_Some'. set_solver.
    + rewrite H3, filter_cons, HD'. destruct (decide (init D c)) as [Hi|Hi].
      * by rewrite Hi, <- app_assoc.
      * unfold init in Hi. apply not_true_is_false in Hi. by rewrite Hi.
Qed.

(** What is kept when the outgoing neighbours are queued. *)
Record queued (D : DomAnalysisResult) (q outs : list NodePtr) (D' : DomAnalysisResult) (q' : list NodePtr)
    : Prop := {
  qd_init : ∀ p, initialized (dom_entry D' p) = initialized (dom_entry D p);
  qd_doms : ∀ p, Doms (dom_entry D' p) = Doms (dom_entry D p);
  qd_node : ∀ p, dom_node (dom_entry D' p) =
    if decide (p ∈ outs ∧ dom_node (dom_entry D p) = None) then p else dom_node (dom_entry D p);
  qd_in : ∀ p, is_Some (D' !! p) ↔ is_Some (D !! p) ∨ p ∈ outs;
  qd_queue : ∀ p, p ∈ q' ↔ p ∈ q ∨ p ∈ outs
}.

Lemma add_outgoing_all D q outs :
  queued D q outs (foldl add_outgoing (D, q) outs).1 (foldl add_outgoing (D, q) outs).2.
Proof.
  revert D q. induction outs as [|c outs IH]; intros D q; simpl.
  - split; try done; intros p; set_solver.
  - set (d := dom_entry D c).
    set (d' := if decide (dom_node d = None) then mkDomData c (Doms d) (initialized d) else d).
    assert (initialized d' = initialized d ∧ Doms d' = Doms d) as [Hi Hd] by (unfold d'; by case_decide).
    destruct (IH (<[c := d']> D) (addToQueue q c)) as [H1 H2 H3 H4 H5]. split.
    + intros p. rewrite H1, dom_entry_insert. case_decide; by subst.
    + intros p. rewrite H2, dom_entry_insert. case_decide; by subst.
    + intros p. rewrite H3, dom_entry_insert. destruct (decide (c = p)) as [<-|Hne].
      * fold d. unfold d'. destruct (decide (dom_node d = None)) as [Hn|Hn]; simpl.
        -- rewrite (decide_True (P := c ∈ c :: outs ∧ _)) by set_solver. by case_decide.
        -- rewrite !decide_False by naive_solver. done.
      * apply decide_ext. set_solver.
    + intros p. etransitivity; [apply H4|]. rewrite lookup_insert_is_Some'. set_solver.
    + intros p. etransitivity; [apply H5|]. unfold addToQueue. case_decide; set_solver.
Qed.

(** ** The invariant of the loop *)

Section invariant.
Context (HG : dom_graph) (Hback : ∀ n, walked n → root ∉ out n).

Lemma walked_in n : walked n → n ∈ V.
Proof using All.
  intros [l Hl]. induction Hl; [apply (dg_root HG)|by eapply (dg_closed HG)].
Qed.

Lemma walked_step n m : walked n → m ∈ out n → walked m.
Proof. intros [l Hl] Hm. exists (m :: l). by eapply walk_step. Qed.

Lemma walked_root : walked root.
Proof. exists [root]. constructor. Qed.

(** The right-hand side of the equation for [n], over the initialised
    predecessors. *)
Definition rhs (D : DomAnalysisResult) (n x : NodePtr) : Prop :=
  x = n ∨ ((∃ p, p ∈ inc n ∧ init D p) ∧ ∀ p, p ∈ inc n → init D p → x ∈ doms D p).

Record dom_inv (st : DomAnalysisResult * list NodePtr) : Prop := {
  di_walked : ∀ n, init st.1 n ∨ n ∈ st.2 → walked n;
  di_here : ∀ n, init st.1 n ∨ n ∈ st.2 → is_Some (st.1 !! n) ∧ dom_node (dom_entry st.1 n) = n;
  di_key : ∀ n, dom_node (dom_entry st.1 n) = None ∨ dom_node (dom_entry st.1 n) = n;
  di_pred : ∀ n, init st.1 n ∨ n ∈ st.2 → n = root ∨ ∃ p, p ∈ inc n ∧ init st.1 p;
  di_root : init st.1 root ∨ root ∈ st.2;
  di_out : ∀ n m, init st.1 n → m ∈ out n → init st.1 m ∨ m ∈ st.2;
  di_sub : ∀ n, init st.1 n → doms st.1 n ⊆ V;
  di_post : ∀ n x, init st.1 n → rhs st.1 n x → x ∈ doms st.1 n;
  di_eq : ∀ n x, init st.1 n → n ∉ st.2 → x ∈ doms st.1 n → rhs st.1 n x;
  di_dom : ∀ n d, init st.1 n → dominates d n → d ∈ doms st.1 n
}.

Lemma dom_start_inv : dom_inv (dom_start root).
Proof using All.
  assert (∀ n, ¬ init (dom_start root).1 n) as Hno.
  { intros n. unfold init, dom_start, dom_entry. cbn [fst]. destruct (decide (root = n)) as [<-|Hn].
    - by rewrite lookup_singleton_eq.
    - by rewrite lookup_singleton_ne. }
  split; try (intros n m Hn; by destruct (Hno n)); try (intros n Hn; by destruct (Hno n)).
  - intros n [Hn|Hn]; [by destruct (Hno n)|]. cbn in Hn. assert (n = root) as -> by set_solver.
    apply walked_root.
  - intros n [Hn|Hn]; [by destruct (Hno n)|]. cbn in Hn. assert (n = root) as -> by set_solver.
    cbn [dom_start fst]. unfold dom_entry. rewrite lookup_singleton_eq. split; [by eexists|done].
  - intros n. cbn [dom_start fst]. unfold dom_entry. destruct (decide (root = n)) as [<-|Hn].
    + rewrite lookup_singleton_eq. by right.
    + rewrite lookup_singleton_ne by done. by left.
  - intros n [Hn|Hn]; [by destruct (Hno n)|]. cbn in Hn. left. set_solver.
  - right. cbn. set_solver.
Qed.

(** A predecessor that was reached is known to be one in both directions. *)
Lemma inc_out n p D q : dom_inv (D, q) → n ∈ V → p ∈ inc n → init D p → n ∈ out p.
Proof using All.
  intros Hinv Hn Hp Hi. apply (dg_flip HG); [|done|done].
  apply walked_in. apply (di_walked _ Hinv). by left.
Qed.

Lemma no_root_pred p D q : dom_inv (D, q) → p ∈ inc root → ¬ init D p.
Proof using All.
  intros Hinv Hp Hi. apply (Hback p); [apply (di_walked _ Hinv); by left|].
  eapply inc_out; [done|apply (dg_root HG)|done|done].
Qed.

(** The value computed for the node at the front of the queue. *)
Definition new_doms (D : DomAnalysisResult) (k : NodePtr) (DomNew : gset NodePtr) : Prop :=
  ∀ x, x ∈ DomNew ↔ rhs D k x.

Section turn.
Context (D : DomAnalysisResult) (k : NodePtr) (q : list NodePtr) (Hinv : dom_inv (D, k :: q)).

Lemma front_walked : walked k.
Proof using All. apply (di_walked _ Hinv). right. set_solver. Qed.

Lemma front_pred : k = root ∨ ∃ p, p ∈ inc k ∧ init D p.
Proof using All. apply (di_pred _ Hinv). right. set_solver. Qed.

Lemma new_doms_sub S : new_doms D k S → S ⊆ V.
Proof using All.
  intros HS x Hx. apply HS in Hx as [->|[(p & Hp & Hi) Hall]]; [apply walked_in, front_walked|].
  by apply (di_sub _ Hinv p Hi), Hall.
Qed.

Lemma new_doms_dom S d : new_doms D k S → dominates d k → d ∈ S.
Proof using All.
  intros HS Hd. apply HS. destruct (decide (d = k)) as [->|Hne]; [by left|right].
  assert (∃ p, p ∈ inc k ∧ init D p) as Hp.
  { destruct front_pred as [->|?]; [|done].
    specialize (Hd [root] walk_start). set_solver. }
  split; [done|]. intros p Hpk Hi. apply (di_dom _ Hinv p d Hi).
  apply (dominates_pred d p k Hd Hne). eapply inc_out; [exact Hinv|apply walked_in, front_walked|done|done].
Qed.

(** Updating a node makes the right-hand sides of the others smaller. *)
Lemma rhs_shrinks S D' :
  new_doms D k S →
  (∀ p, init D' p ↔ init D p ∨ p = k) →
  (∀ p x, x ∈ doms D' p ↔ if decide (p = k) then x ∈ S else x ∈ doms D p) →
  ∀ n x, n = k ∨ init D n → rhs D' n x → rhs D n x.
Proof using All.
  intros HS Hi Hd n x Hn [->|[(p & Hp & Hip) Hall]]; [by left|right].
  assert (walked n) as Hwn.
  { destruct Hn as [->|Hn]; [apply front_walked|apply (di_walked _ Hinv); by left]. }
  assert (n ≠ root) as Hnr.
  { intros ->. apply (Hback p); [|apply (dg_flip HG); [|by apply walked_in|done]].
    - apply Hi in Hip as [Hip| ->]; [apply (di_walked _ Hinv); by left|apply front_walked].
    - apply walked_in. apply Hi in Hip as [Hip| ->];
        [apply (di_walked _ Hinv); by left|apply front_walked]. }
  split.
  - destruct (di_pred _ Hinv n) as [?|?]; [|done|done]. destruct Hn as [->|Hn]; [right; set_solver|by left].
  - intros p' Hp' Hi'. pose proof (Hall p' Hp' (proj2 (Hi p') (or_introl Hi'))) as Hx.
    apply Hd in Hx. case_decide as Hk; [|done]. subst p'.
    apply HS in Hx. by apply (di_post _ Hinv k x).
Qed.

(** *** The two outcomes of a turn *)

(** The entry of [k] is set to [S] and its successors are queued. *)
Record changed (S : gset NodePtr) (D' : DomAnalysisResult) (q' : list NodePtr) : Prop := {
  ch_init : ∀ p, init D' p ↔ init D p ∨ p = k;
  ch_doms : ∀ p, doms D' p = if decide (p = k) then S else doms D p;
  ch_node : ∀ p, dom_node (dom_entry D' p) = if decide (p = k) then k else
    if decide (p ∈ out k ∧ dom_node (dom_entry D p) = None) then p else dom_node (dom_entry D p);
  ch_in : ∀ p, is_Some (D !! p) ∨ p ∈ out k → is_Some (D' !! p);
  ch_queue : ∀ p, p ∈ q' ↔ p ∈ q ∨ p ∈ out k
}.

Lemma front_here : is_Some (D !! k) ∧ dom_node (dom_entry D k) = k.
Proof using All. apply (di_here _ Hinv). right. set_solver. Qed.

Lemma changed_pred S D' q' n :
  new_doms D k S → changed S D' q' → n ∈ V → n ∉ q' → ∀ x, rhs D n x → rhs D' n x.
Proof using All.
  intros HS Hch Hn Hq x [->|[(p & Hp & Hi) Hall]]; [by left|right].
  assert (k ∉ inc n) as Hk.
  { intros Hk. apply Hq, (ch_queue _ _ _ Hch). right. apply (dg_flip HG); [|done|done].
    apply walked_in, front_walked. }
  split.
  - exists p. split; [done|]. apply (ch_init _ _ _ Hch). by left.
  - intros p' Hp' Hi'. rewrite (ch_doms _ _ _ Hch), decide_False by congruence.
    apply Hall; [done|]. apply (ch_init _ _ _ Hch) in Hi' as [?| ->]; done.
Qed.

Lemma changed_inv S D' q' : new_doms D k S → changed S D' q' → dom_inv (D', q').
Proof using All.
  intros HS Hch. pose proof front_walked as Hk. pose proof front_here as [Hkin Hknode].
  assert (∀ n, init D' n ∨ n ∈ q' → n ∈ out k ∨ init D n ∨ n ∈ k :: q) as Hold.
  { intros n. rewrite (ch_init _ _ _ Hch), (ch_queue _ _ _ Hch). set_solver. }
  split; cbn [fst snd].
  - intros n [Hn|Hn]%Hold; [by eapply walked_step|by apply (di_walked _ Hinv)].
  - intros n Hn. rewrite (ch_node _ _ _ Hch). split.
    + apply (ch_in _ _ _ Hch). destruct (Hold n Hn) as [?|Ho]; [by right|left].
      by apply (di_here _ Hinv).
    + case_decide as Hnk; [done|]. destruct (Hold n Hn) as [Ho|Ho].
      * destruct (di_key _ Hinv n) as [Hkey|Hkey]; cbn in Hkey;
          [rewrite decide_True by done; done|case_decide as Hc; [|done]; destruct Hc; congruence].
      * destruct (di_here _ Hinv n Ho) as [_ Hkey]. cbn in Hkey. by case_decide as Hc; [destruct Hc|].
  - intros n. rewrite (ch_node _ _ _ Hch). case_decide; [by right|].
    case_decide; [by right|apply (di_key _ Hinv)].
  - intros n [Hn|Hn]%Hold.
    + right. exists k. split; [|apply (ch_init _ _ _ Hch); by right].
      apply (dg_flip HG); [by apply walked_in|by eapply walked_in, walked_step|done].
    + destruct (di_pred _ Hinv n Hn) as [?|(p & ? & ?)]; [by left|right]. exists p. split; [done|].
      apply (ch_init _ _ _ Hch). by left.
  - rewrite (ch_init _ _ _ Hch), (ch_queue _ _ _ Hch). pose proof (di_root _ Hinv). set_solver.
  - intros n m Hn Hm. rewrite (ch_init _ _ _ Hch), (ch_queue _ _ _ Hch).
    apply (ch_init _ _ _ Hch) in Hn as [Hn| ->]; [|tauto].
    destruct (di_out _ Hinv n m Hn Hm) as [?|?]; set_solver.
  - intros n Hn. rewrite (ch_doms _ _ _ Hch). case_decide; [by apply new_doms_sub|].
    apply (ch_init _ _ _ Hch) in Hn as [Hn| ->]; [by apply (di_sub _ Hinv)|done].
  - intros n x Hn Hr. assert (rhs D n x) as Hr'.
    { eapply (rhs_shrinks S D' HS); [apply Hch| | |exact Hr].
      - intros p y. rewrite (ch_doms _ _ _ Hch). by case_decide.
      - apply (ch_init _ _ _ Hch) in Hn. tauto. }
    rewrite (ch_doms _ _ _ Hch). case_decide as Hnk; [subst; by apply HS|].
    apply (ch_init _ _ _ Hch) in Hn as [Hn| ->]; [by apply (di_post _ Hinv)|done].
  - intros n x Hn Hq. rewrite (ch_doms _ _ _ Hch). apply (ch_init _ _ _ Hch) in Hn.
    assert (walked n) as Hw%walked_in.
    { destruct Hn as [Hn| ->]; [apply (di_walked _ Hinv); by left|done]. }
    case_decide as Hnk; intros Hx; eapply (changed_pred S D' q'); try done.
    + subst. by apply HS.
    + destruct Hn as [Hn|?]; [|done]. apply (di_eq _ Hinv n x Hn); [|done]. cbn.
      intros [?|Hqn]%elem_of_cons; [done|]. apply Hq, (ch_queue _ _ _ Hch). by left.
  - intros n d Hn Hd. rewrite (ch_doms _ _ _ Hch). case_decide; [subst; by eapply new_doms_dom|].
    apply (ch_init _ _ _ Hch) in Hn as [Hn| ->]; [by apply (di_dom _ Hinv)|done].
Qed.

(** Nothing changes but the queue. *)
Lemma unchanged_inv D' :
  init D k → new_doms D k (doms D k) → (∀ p, dom_entry D' p = dom_entry D p) →
  (∀ p, is_Some (D !! p) → is_Some (D' !! p)) → dom_inv (D', q).
Proof using All.
  intros Hk HS He Hin.
  assert (∀ p, init D' p ↔ init D p) as Hi by (intros p; unfold init; by rewrite He).
  assert (∀ p, doms D' p = doms D p) as Hd by (intros p; unfold doms; by rewrite He).
  assert (∀ n x, rhs D' n x ↔ rhs D n x) as Hr.
  { intros n x. unfold rhs. by setoid_rewrite Hi; setoid_rewrite Hd. }
  assert (∀ n, init D' n ∨ n ∈ q → init D n ∨ n ∈ k :: q) as Hold.
  { intros n. rewrite Hi. set_solver. }
  split; cbn [fst snd].
  - intros n Hn%Hold. by apply (di_walked _ Hinv).
  - intros n Hn%Hold. rewrite He. destruct (di_here _ Hinv n Hn). split; [by apply Hin|done].
  - intros n. rewrite He. apply (di_key _ Hinv).
  - intros n Hn%Hold. setoid_rewrite Hi. by apply (di_pred _ Hinv).
  - rewrite Hi. pose proof (di_root _ Hinv) as Hr0. cbn in Hr0. set_solver.
  - intros n m Hn%Hi Hm. rewrite Hi. destruct (di_out _ Hinv n m Hn Hm) as [?|?]; set_solver.
  - intros n Hn%Hi. rewrite Hd. by apply (di_sub _ Hinv).
  - intros n x Hn%Hi Hx%Hr. rewrite Hd. by apply (di_post _ Hinv).
  - intros n x Hn%Hi Hq. rewrite Hd, Hr. intros Hx. destruct (decide (n = k)) as [->|Hnk]; [by apply HS|].
    apply (di_eq _ Hinv n x Hn); [|done]. cbn. by intros [?|?]%elem_of_cons.
  - intros n d Hn%Hi Hdm. rewrite Hd. by apply (di_dom _ Hinv).
Qed.

(** *** Running a turn *)

Definition turn_result (st : DomAnalysisResult * list NodePtr) :
    (DomAnalysisResult * list NodePtr) + DomAnalysisResult :=
  match st.2 with [] => inr st.1 | _ => inl st end.

Lemma turn_new_doms S D1 :
  (∀ p, dom_entry D1 p = dom_entry D p) →
  (∀ x, x ∈ S ↔ filter (init D) (iter_set (inc k)) ≠ [] ∧
     ∀ p, p ∈ filter (init D) (iter_set (inc k)) → x ∈ doms D1 p) →
  new_doms D k ({[k]} ∪ S).
Proof using All.
  intros He HS x. unfold rhs. rewrite elem_of_union, elem_of_singleton, HS.
  assert (∀ p, doms D1 p = doms D p) as Hd by (intros p; unfold doms; by rewrite He).
  setoid_rewrite Hd. setoid_rewrite list_elem_of_filter. setoid_rewrite elem_of_iter_set.
  assert (filter (init D) (iter_set (inc k)) ≠ [] ↔ ∃ p, p ∈ inc k ∧ init D p) as ->; [|naive_solver].
  split.
  - intros Hne. destruct (filter _ _) as [|p l] eqn:Hf; [done|]. exists p.
    assert (p ∈ filter (init D) (iter_set (inc k))) as Hp by (rewrite Hf; set_solver).
    apply list_elem_of_filter in Hp as [? ?%elem_of_iter_set]. done.
  - intros (p & Hp & Hi) Hnil. apply (not_elem_of_nil p). rewrite <- Hnil.
    apply list_elem_of_filter. split; [done|]. by apply elem_of_iter_set.
Qed.

Lemma turn_runs :
  ∃ D' q', dom_turn incoming outgoing (D, k :: q) ⇓ turn_result (D', q') ∧
    ((∃ S, new_doms D k S ∧ changed S D' q' ∧ (¬ init D k ∨ doms D k ≠ S)) ∨
     (init D k ∧ new_doms D k (doms D k) ∧ q' = q ∧ (∀ p, dom_entry D' p = dom_entry D p) ∧
      ∀ p, is_Some (D !! p) → is_Some (D' !! p))).
Proof using All.
  pose proof front_here as [[d Hd] Hnode]. pose proof (walked_in _ front_walked) as Hk.
  rewrite (dom_entry_some _ _ _ Hd) in Hnode. unfold dom_turn. cbn [fst snd]. rewrite Hd. cbn [deref].
  rewrite bind_ret, Hnode, (dg_inc HG _ Hk), bind_ret.
  destruct (initializedCallees_spec D (iter_set (inc k))) as (He & Hin & Hf).
  set (r := initializedCallees D (iter_set (inc k))) in *.
  destruct (intersection_spec r.2 r.1) as (S & HS & HSx).
  { intros p Hp. rewrite Hf in Hp. apply list_elem_of_filter in Hp as [_ Hp]. apply Hin. by right. }
  rewrite HS, bind_ret. rewrite Hf in HSx. pose proof (turn_new_doms S r.1 He HSx) as Hnew.
  assert (initialized d = bool_decide (init D k)) as Hid.
  { assert (init D k ↔ initialized d = true) as Hi by (unfold init; by rewrite (dom_entry_some _ _ _ Hd)).
    rewrite (bool_decide_ext _ _ Hi). by destruct (initialized d). }
  assert (Doms d = doms D k) as Hdd by (unfold doms; by rewrite (dom_entry_some _ _ _ Hd)).
  rewrite Hid, Hdd. destruct (decide (init D k ∧ doms D k = {[k]} ∪ S)) as [[Hi Heq]|Hne].
  - rewrite !bool_decide_true by done. cbn [negb orb]. rewrite bind_ret. exists r.1, q.
    split; [done|]. right. rewrite Heq. split_and!; [done|done|done|done|].
    intros p Hp. apply Hin. by left.
  - assert (negb (bool_decide (init D k)) || negb (bool_decide (doms D k = {[k]} ∪ S)) = true) as ->.
    { destruct (bool_decide_reflect (init D k)), (bool_decide_reflect (doms D k = {[k]} ∪ S)); naive_solver. }
    rewrite (dg_out HG _ Hk), !bind_ret.
    set (D2 := <[k := mkDomData k ({[k]} ∪ S) true]> r.1).
    destruct (add_outgoing_all D2 q (iter_set (out k))) as [H1 H2 H3 H4 H5].
    set (st := foldl add_outgoing (D2, q) (iter_set (out k))) in *. exists st.1, st.2.
    split; [by destruct st|]. left. exists ({[k]} ∪ S). split; [done|].
    assert (∀ p, dom_entry D2 p = if decide (p = k) then mkDomData k ({[k]} ∪ S) true else dom_entry D p)
      as HD2.
    { intros p. unfold D2. rewrite dom_entry_insert, He. by apply decide_ext. }
    split; [|destruct (decide (init D k)); naive_solver]. split.
    + intros p. unfold init. rewrite H1, HD2. case_decide; [subst; tauto|]. naive_solver.
    + intros p. unfold doms. rewrite H2, HD2. by case_decide.
    + intros p. rewrite H3, HD2. destruct (decide (p = k)) as [->|Hp]; cbn [dom_node].
      * apply decide_False. intros [_ ->]. by apply (dg_null HG).
      * apply decide_ext. by rewrite elem_of_iter_set.
    + intros p Hp. apply H4. unfold D2. rewrite elem_of_iter_set, lookup_insert_is_Some', Hin. tauto.
    + intros p. by rewrite H5, elem_of_iter_set.
Qed.

(** *** Termination *)

Definition weight (D : DomAnalysisResult) (n : NodePtr) : nat :=
  if decide (init D n) then size (doms D n) else S (size V).
Definition total_weight (st : DomAnalysisResult * list NodePtr) : nat :=
  sum_list (weight st.1 <$> elements V).

Lemma sum_list_lt {A} (f g : A → nat) l x :
  (∀ y, y ∈ l → f y ≤ g y) → x ∈ l → f x < g x → sum_list (f <$> l) < sum_list (g <$> l).
Proof.
  intros Hle Hx Hlt. assert (∀ l', (∀ y, y ∈ l' → f y ≤ g y) → sum_list (f <$> l') ≤ sum_list (g <$> l')) as Hsum.
  { induction l' as [|y l' IH]; intros Hl; [done|]. rewrite !fmap_cons. cbn [sum_list sum_list_with].
    apply Nat.add_le_mono; [apply Hl|apply IH]; set_solver. }
  induction l as [|y l IH]; [by apply elem_of_nil in Hx|]. rewrite !fmap_cons. cbn [sum_list sum_list_with].
  apply elem_of_cons in Hx as [<-|Hx].
  - apply Nat.add_lt_le_mono; [done|]. apply Hsum. set_solver.
  - apply Nat.add_le_lt_mono; [apply Hle; set_solver|]. apply IH; [set_solver|done].
Qed.

Lemma changed_weight S D' q' :
  new_doms D k S → changed S D' q' → ¬ init D k ∨ doms D k ≠ S →
  total_weight (D', q') < total_weight (D, k :: q).
Proof using All.
  intros HS Hch Hne. pose proof (walked_in _ front_walked) as Hk.
  unfold total_weight. cbn [fst]. apply (sum_list_lt _ _ _ k); [|by apply elem_of_elements|].
  - intros y _. unfold weight. destruct (decide (init D y)) as [Hy|Hy].
    + rewrite decide_True by (apply (ch_init _ _ _ Hch); by left). rewrite (ch_doms _ _ _ Hch).
      case_decide as Hyk; [|done]. subst y. apply subseteq_size. intros x Hx%HS. by apply (di_post _ Hinv).
    + case_decide as Hy'; [|done]. apply (ch_init _ _ _ Hch) in Hy' as [?| ->]; [done|].
      rewrite (ch_doms _ _ _ Hch), decide_True by done.
      pose proof (subseteq_size _ _ (new_doms_sub S HS)). lia.
  - unfold weight. rewrite decide_True by (apply (ch_init _ _ _ Hch); by right).
    rewrite (ch_doms _ _ _ Hch), decide_True by done. case_decide as Hi.
    + apply subset_size. split; [intros x Hx%HS; by apply (di_post _ Hinv)|]. intros Hsub.
      destruct Hne as [?|Hne]; [done|]. apply Hne, set_eq. intros x.
      split; [apply Hsub|intros Hx%HS; by apply (di_post _ Hinv)].
    + pose proof (subseteq_size _ _ (new_doms_sub S HS)). lia.
Qed.
End turn.

(** ** The result *)

(** The entries of the nodes that can be reached hold exactly their dominators. *)
Definition dominator_map (D : DomAnalysisResult) : Prop :=
  (∀ n, init D n ↔ walked n) ∧ ∀ n d, walked n → d ∈ doms D n ↔ dominates d n.

Lemma finished D : dom_inv (D, []) → dominator_map D.
Proof using All.
  intros Hinv. assert (∀ n, walked n → init D n) as Hall.
  { intros n [l Hl]. induction Hl as [|l n m _ IH Hm].
    - by destruct (di_root _ Hinv) as [?|?%not_elem_of_nil].
    - by destruct (di_out _ Hinv n m IH Hm) as [?|?%not_elem_of_nil]. }
  split; [intros n; split; [intros Hn; apply (di_walked _ Hinv); by left|apply Hall]|].
  intros n d Hn. split; [|apply (di_dom _ Hinv); by apply Hall].
  intros Hd l Hl. revert d Hd. clear Hn. induction Hl as [|l n m Hl IH Hm]; intros d Hd.
  - apply (di_eq _ Hinv) in Hd; [|apply Hall, walked_root|apply not_elem_of_nil].
    destruct Hd as [->|[(p & Hp & Hi) _]]; [set_solver|]. by destruct (no_root_pred p D [] Hinv Hp).
  - assert (walked n) as Hwn by by exists l.
    apply (di_eq _ Hinv) in Hd; [|by eapply Hall, walked_step|apply not_elem_of_nil].
    destruct Hd as [->|[_ Hd]]; [set_solver|]. apply elem_of_cons. right. apply IH, Hd; [|by apply Hall].
    apply (dg_flip HG); [by apply walked_in|by eapply walked_in, walked_step|done].
Qed.

Lemma dominators_of_correct :
  ∃ D N, dominator_map D ∧ ∀ fuel, N ≤ fuel → dominators_of incoming outgoing fuel root ⇓ D.
Proof using All.
  apply (loop_terminates _ (λ st, dom_inv st ∧ st.2 ≠ []) dominator_map
    (lex_lt total_weight (λ st, length st.2))); [apply lex_lt_wf|split; [apply dom_start_inv|done]|].
  intros [D [|k q]] [Hinv Hq]; [done|].
  destruct (turn_runs D k q Hinv) as (D' & q' & Hrun & Hcase).
  assert (dom_inv (D', q') ∧ lex_lt total_weight (λ st, length st.2) (D', q') (D, k :: q)) as [Hinv' Hlt].
  { destruct Hcase as [(S & HS & Hch & Hne)|(Hi & HS & -> & He & Hin)].
    - split; [by eapply changed_inv|]. left. by eapply changed_weight.
    - split; [by eapply unchanged_inv|]. right. split; [|simpl; lia].
      unfold total_weight. cbn [fst]. f_equal. apply list_fmap_ext. intros _ y _. unfold weight, doms.
      assert (init D' y ↔ init D y) as Hiy by (unfold init; by rewrite He).
      rewrite (decide_ext _ _ _ _ Hiy). by rewrite He. }
  unfold turn_result in Hrun. cbn [fst snd] in Hrun.
  destruct q' as [|k' q']; [right|left].
  - exists D'. split; [done|by apply finished].
  - by exists (D', k' :: q').
Qed.
End invariant.
End theory.

(** ** Dominators in call graphs *)

Section callgraph_dominators.
Context {JO : JsonOps} {MDI : MetaDataI} {IO : IterOrder}.
Context (g : Callgraph) (Hwf : wf g).

(** One step in the direction of the traversal. *)
Definition linked (dir : TraverseDir) (i j : NodeId) : Prop :=
  match dir with
  | Forward => is_Some (edges g !! (i, j))
  | Backward => is_Some (edges g !! (j, i))
  end.
#[export] Instance linked_dec dir i j : Decision (linked dir i j).
Proof. unfold linked. destruct dir; apply _. Defined.

Definition linked_ptr (dir : TraverseDir) (n p : NodePtr) : Prop :=
  match n, p with Some i, Some j => linked dir i j | _, _ => False end.
#[export] Instance linked_ptr_dec dir n p : Decision (linked_ptr dir n p).
Proof. unfold linked_ptr. destruct n, p; apply _. Defined.

Definition live_ptr (p : NodePtr) : Prop := match p with Some i => live g i | None => False end.
#[export] Instance live_ptr_dec p : Decision (live_ptr p).
Proof. unfold live_ptr. destruct p; apply _. Defined.

Definition all_ptrs : list NodePtr := Some <$> seq 0 (length (nodes g)).

(** The neighbours of the node behind a pointer, and all nodes. *)
Definition next (dir : TraverseDir) (n : NodePtr) : gset NodePtr :=
  list_to_set (filter (linked_ptr dir n) all_ptrs).
Definition live_nodes : gset NodePtr := list_to_set (filter live_ptr all_ptrs).

Definition opposite (dir : TraverseDir) : TraverseDir :=
  match dir with Forward => Backward | Backward => Forward end.

Lemma linked_live dir i j : linked dir i j → live g i ∧ live g j.
Proof using Hwf. destruct dir; intros H%(wf_edges _ Hwf); tauto. Qed.

Lemma elem_of_all_ptrs i : live g i → Some i ∈ all_ptrs.
Proof using Hwf.
  intros Hi%live_lt. apply list_elem_of_fmap. exists i. split; [done|]. apply elem_of_seq. lia.
Qed.

Lemma elem_of_next dir i p : p ∈ next dir (Some i) ↔ ∃ j, p = Some j ∧ linked dir i j.
Proof using Hwf.
  unfold next. rewrite elem_of_list_to_set, list_elem_of_filter. split.
  - destruct p as [j|]; [|by intros [[] _]]. intros [Hj _]. by exists j.
  - intros (j & -> & Hj). split; [done|]. by apply elem_of_all_ptrs, (linked_live dir i).
Qed.

Lemma elem_of_live_nodes p : p ∈ live_nodes ↔ ∃ i, p = Some i ∧ live g i.
Proof using Hwf.
  unfold live_nodes. rewrite elem_of_list_to_set, list_elem_of_filter. split.
  - destruct p as [i|]; [|simpl; tauto]. intros [Hi _]. by exists i.
  - intros (i & -> & Hi). split; [done|by apply elem_of_all_ptrs].
Qed.

Definition neighbours (dir : TraverseDir) : NodePtr → outcome (gset NodePtr) :=
  match dir with Forward => callees_ptr g | Backward => callers_ptr g end.

Lemma neighbours_ret dir i : live g i → neighbours dir (Some i) ⇓ next dir (Some i).
Proof using Hwf.
  intros [n Hn]. destruct (wf_ids _ Hwf _ _ Hn) as [Hid _].
  destruct dir; unfold neighbours, callees_ptr, callers_ptr; cbn [deref]; rewrite bind_ret, Hn;
    cbn [deref]; rewrite bind_ret; unfold getCallees_ref, getCallers_ref;
    rewrite (hasNode_ref_live _ _ _ Hwf Hn), Hid;
    [destruct (getCallees_ret g i Hwf) as (T & -> & HT)|destruct (getCallers_ret g i Hwf) as (T & -> & HT)];
    f_equal; apply set_eq; intros p; by rewrite HT, elem_of_next.
Qed.

Lemma callgraph_dom_graph dir i :
  live g i → dom_graph (next (opposite dir)) (next dir) (neighbours (opposite dir)) (neighbours dir)
    (Some i) live_nodes.
Proof using Hwf.
  intros Hi. split.
  - apply elem_of_live_nodes. by exists i.
  - intros (j & ? & _)%elem_of_live_nodes. done.
  - intros n m (j & -> & _)%elem_of_live_nodes (k & -> & Hk)%elem_of_next.
    apply elem_of_live_nodes. exists k. split; [done|]. by apply linked_live in Hk as [_ ?].
  - intros n m (j & -> & _)%elem_of_live_nodes (k & -> & _)%elem_of_live_nodes.
    rewrite !elem_of_next. destruct dir; naive_solver.
  - intros n (j & -> & Hj)%elem_of_live_nodes. by apply neighbours_ret.
  - intros n (j & -> & Hj)%elem_of_live_nodes. by apply neighbours_ret.
Qed.

(** Walks along the calls, from the start node. *)
Abbreviation dom_walk dir i := (walk (next dir) (Some i)).

Lemma computeDominators_ret dir i :
  live g i → (∀ l n, dom_walk dir i l (Some n) → ¬ linked dir n i) →
  ∃ D N, (∀ fuel, N ≤ fuel → computeDominators g dir fuel (Some i) ⇓ D) ∧
    (∀ n, initialized (dom_entry D n) = true ↔ ∃ l, dom_walk dir i l n) ∧
    ∀ n d, (∃ l, dom_walk dir i l n) → d ∈ Doms (dom_entry D n) ↔ ∀ l, dom_walk dir i l n → d ∈ l.
Proof using Hwf.
  intros Hi Hback. pose proof (callgraph_dom_graph dir i Hi) as HG.
  destruct (dominators_of_correct _ _ _ _ _ _ HG) as (D & N & [HD1 HD2] & HN).
  - intros n [l Hl] Hin. destruct n as [n|].
    + apply elem_of_next in Hin as (j & [= <-] & Hj). by eapply Hback.
    + unfold next in Hin. by apply elem_of_list_to_set, list_elem_of_filter in Hin as [[] _].
  - exists D, N. split_and!; [|exact HD1|exact HD2]. intros fuel Hf. destruct dir; by apply HN.
Qed.

(** C4: When no call leads back to the start node, [computeDominators]
    terminates and assigns to every node that can be reached from it exactly the
    nodes that lie on every path to it, in both directions; all other entries
    stay uninitialised. *)
Theorem computeDominators_correct dir i :
  live g i → (∀ l n, dom_walk dir i l (Some n) → ¬ linked dir n i) →
  ∃ D N, (∀ fuel, N ≤ fuel → computeDominators g dir fuel (Some i) ⇓ D) ∧
    (∀ n, initialized (dom_entry D n) = true ↔ ∃ l, dom_walk dir i l n) ∧
    ∀ n d, (∃ l, dom_walk dir i l n) → d ∈ Doms (dom_entry D n) ↔ ∀ l, dom_walk dir i l n → d ∈ l.
Proof using Hwf. apply computeDominators_ret. Qed.
End callgraph_dominators.
