(* ===== verification/PgisMD.v ===== *)
(** * PGIS: metadata classes and access to them

    [pgis/lib/include/MetaData/PGISMetaData.h], [CgNodeMetaData.h],
    [CgLocation.h] and [loadImbalance/LIMetaData.h]: the fields and methods of
    the metadata classes that the instrumentation selection works with, and
    [MetadataMixin]'s typed access to them ([get<T>], [has<T>],
    [getOrCreate<T>], see [graph/include/metacg/metadata/MetadataMixin.h]).

    A typed access casts the stored object to [T] without a test: [md_cast] is
    undefined for an object of another class.  The classes that can be stored
    are a parameter ([MDCast]); [PgisInstance] has the concrete sum. *)

From Stdlib Require Import Floats.SpecFloat.
From S2P Require Import Prelude Json MetaData BuiltinMD Callgraph CallgraphWf.
From S2P Require Import CallgraphOps.

(** ** Floating-point numbers: [double] is IEEE binary64 *)

Abbreviation double := spec_float.
Definition d_add (x y : double) : double := SFadd 53 1024 x y.
Definition d_sub (x y : double) : double := SFsub 53 1024 x y.
Definition d_mul (x y : double) : double := SFmul 53 1024 x y.
Definition d_div (x y : double) : double := SFdiv 53 1024 x y.
Definition d_sqrt (x : double) : double := SFsqrt 53 1024 x.
Definition d_eq (x y : double) : bool := SFeqb x y.
Definition d_lt (x y : double) : bool := SFltb x y.
Definition d_le (x y : double) : bool := SFleb x y.
(** [std::max(a, b)] is [a < b ? b : a]. *)
Definition d_max (x y : double) : double := if d_lt x y then y else x.
Definition d_zero : double := S754_zero false.
(** The conversion of an integer rounds to nearest. *)
Definition d_of_Z (z : Z) : double := binary_normalize 53 1024 z 0 false.

Definition d_is_nan (x : double) : bool := match x with S754_nan => true | _ => false end.

(** ** [pgis::InstrumentationMetaData] *)

Inductive InstrumentationState := NotInstrumented | Instrumented | InstrumentedPath.
#[export] Instance InstrumentationState_eq_dec : EqDecision InstrumentationState.
Proof. solve_decision. Defined.

Record InstrumentationMetaData := mkInstrumentation { state : InstrumentationState }.

Definition reset (_ : InstrumentationMetaData) := mkInstrumentation NotInstrumented.
Definition setInstrumented (_ : InstrumentationMetaData) := mkInstrumentation Instrumented.
Definition setInstrumentedPath (_ : InstrumentationMetaData) := mkInstrumentation InstrumentedPath.
Definition md_isInstrumented (m : InstrumentationMetaData) : bool :=
  bool_decide (state m = Instrumented).
Definition md_isInstrumentedPath (m : InstrumentationMetaData) : bool :=
  bool_decide (state m = InstrumentedPath).

(** ** [pira::BaseProfileData] *)

Record CgLocation := mkCgLocation {
  loc_time : double;
  loc_inclusiveTime : double;
  loc_threadId : Z;
  loc_procId : Z;
  loc_numCalls : Z
}.

(** [callFrom] is keyed by pointers to nodes. *)
Record BaseProfileData := mkBaseProfileData {
  bpd_numCalls : Z;
  timeInSeconds : double;
  inclTimeInSeconds : double;
  bpd_threadId : Z;
  bpd_processId : Z;
  callFrom : gmap (option NodeId) Z;
  cgLoc : list CgLocation
}.

(** [unsigned long long] wraps around. *)
Definition to_ullong (z : Z) : Z := z `mod` 2 ^ 64.

Definition setCallData (parentNode : option NodeId) (calls : Z) (time inclusiveTime : double)
    (threadId procId : Z) (b : BaseProfileData) : BaseProfileData :=
  mkBaseProfileData (bpd_numCalls b) (d_add (timeInSeconds b) time)
    (d_add (inclTimeInSeconds b) inclusiveTime) threadId procId
    (<[parentNode := to_ullong (default 0%Z (callFrom b !! parentNode) + calls)]> (callFrom b))
    (cgLoc b ++ [mkCgLocation time inclusiveTime threadId procId calls]).
Definition setNumberOfCalls (nrCall : Z) (b : BaseProfileData) : BaseProfileData :=
  mkBaseProfileData nrCall (timeInSeconds b) (inclTimeInSeconds b) (bpd_threadId b)
    (bpd_processId b) (callFrom b) (cgLoc b).
Definition addCalls (nrCall : Z) (b : BaseProfileData) : BaseProfileData :=
  setNumberOfCalls (to_ullong (bpd_numCalls b + nrCall)) b.
Definition setRuntimeInSeconds (newRuntimeInSeconds : double) (b : BaseProfileData)
    : BaseProfileData :=
  mkBaseProfileData (bpd_numCalls b) newRuntimeInSeconds (inclTimeInSeconds b) (bpd_threadId b)
    (bpd_processId b) (callFrom b) (cgLoc b).
Definition addRuntime (runtime : double) (b : BaseProfileData) : outcome BaseProfileData :=
  cpp_assert (d_le d_zero runtime);;
  Ret (setRuntimeInSeconds (d_add (timeInSeconds b) runtime) b).
Definition put_inclusive (t : double) (b : BaseProfileData) : BaseProfileData :=
  mkBaseProfileData (bpd_numCalls b) (timeInSeconds b) t (bpd_threadId b)
    (bpd_processId b) (callFrom b) (cgLoc b).
Definition setInclusiveRuntimeInSeconds (newInclusiveTimeInSeconds : double) (b : BaseProfileData)
    : outcome BaseProfileData :=
  cpp_assert (d_eq (inclTimeInSeconds b) d_zero);; Ret (put_inclusive newInclusiveTimeInSeconds b).
Definition addInclusiveRuntimeInSeconds (newInclusiveTimeInSeconds : double) (b : BaseProfileData)
    : outcome BaseProfileData :=
  cpp_assert (d_le d_zero newInclusiveTimeInSeconds);;
  Ret (put_inclusive (d_add (inclTimeInSeconds b) newInclusiveTimeInSeconds) b).
Definition addNumberOfCallsFrom (parentNode : option NodeId) (calls : Z) (b : BaseProfileData)
    : BaseProfileData :=
  mkBaseProfileData (bpd_numCalls b) (timeInSeconds b) (inclTimeInSeconds b) (bpd_threadId b)
    (bpd_processId b)
    (<[parentNode := to_ullong (default 0%Z (callFrom b !! parentNode) + calls)]> (callFrom b))
    (cgLoc b).
Definition pushCgLocation (toPush : CgLocation) (b : BaseProfileData) : BaseProfileData :=
  mkBaseProfileData (bpd_numCalls b) (timeInSeconds b) (inclTimeInSeconds b) (bpd_threadId b)
    (bpd_processId b) (callFrom b) (cgLoc b ++ [toPush]).
Definition getNumberOfCallsWithCurrentEdges (b : BaseProfileData) : Z :=
  map_fold (λ _ calls v, to_ullong (v + calls)) 0%Z (callFrom b).

(** ** [pira::PiraOneData] *)

Record PiraOneData := mkPiraOneData {
  wasInPreviousProfile : bool;
  dominantRuntime : bool;
  pod_hasBody : bool;
  numStmts : Z
}.

(** [setNumberOfStatements(int)] is called with wider values too. *)
Definition setNumberOfStatements (n : Z) (p : PiraOneData) : PiraOneData :=
  mkPiraOneData (wasInPreviousProfile p) (dominantRuntime p) (pod_hasBody p) (to_int n).
Definition pod_setHasBody (b : bool) (p : PiraOneData) : PiraOneData :=
  mkPiraOneData (wasInPreviousProfile p) (dominantRuntime p) b (numStmts p).
Definition setDominantRuntime (b : bool) (p : PiraOneData) : PiraOneData :=
  mkPiraOneData (wasInPreviousProfile p) b (pod_hasBody p) (numStmts p).
Definition setComesFromCube (b : bool) (p : PiraOneData) : PiraOneData :=
  mkPiraOneData b (dominantRuntime p) (pod_hasBody p) (numStmts p).
Definition comesFromCube (p : PiraOneData) : bool := wasInPreviousProfile p.

(** [PiraOneData::merge], after its test of the keys. *)
Definition PiraOneData_merge (this other : PiraOneData) : outcome PiraOneData :=
  n ← (if decide (numStmts this ≠ numStmts other) then int_add (numStmts this) (numStmts other)
       else Ret (numStmts this));
  Ret (mkPiraOneData (wasInPreviousProfile this || wasInPreviousProfile other)
         (dominantRuntime this || dominantRuntime other) (pod_hasBody this || pod_hasBody other) n).

(** [BaseProfileData::merge]; the second [std::max] has its arguments swapped. *)
Definition BaseProfileData_merge (this other : BaseProfileData) : BaseProfileData :=
  mkBaseProfileData (Z.max (bpd_numCalls this) (bpd_numCalls other))
    (d_max (timeInSeconds this) (timeInSeconds other))
    (d_max (inclTimeInSeconds other) (inclTimeInSeconds this))
    (bpd_threadId this) (bpd_processId this) (callFrom this) (cgLoc this).

(** The private copy constructor behind [clone] leaves [callFrom] empty. *)
Definition BaseProfileData_copy (other : BaseProfileData) : BaseProfileData :=
  mkBaseProfileData (bpd_numCalls other) (timeInSeconds other) (inclTimeInSeconds other)
    (bpd_threadId other) (bpd_processId other) ∅ (cgLoc other).

(** ** [LoadImbalance::LIMetaData] *)

Inductive FlagType := Irrelevant | Visited | Imbalanced.
#[export] Instance FlagType_eq_dec : EqDecision FlagType.
Proof. solve_decision. Defined.
#[export] Instance FlagType_countable : Countable FlagType.
Proof.
  refine (inj_countable' (λ f, match f with Irrelevant => 0 | Visited => 1 | Imbalanced => 2 end)
    (λ n, match n with 0 => Irrelevant | 1 => Visited | _ => Imbalanced end) _). by intros [].
Defined.

Record LIMetaData := mkLIMetaData {
  inclusiveStatements : Z;
  isVirtualFunction : bool;
  flags : gmap FlagType bool;
  assessment : option double
}.

Definition setNumberOfInclusiveStatements (n : Z) (l : LIMetaData) : LIMetaData :=
  mkLIMetaData n (isVirtualFunction l) (flags l) (assessment l).
Definition LI_setVirtual (b : bool) (l : LIMetaData) : LIMetaData :=
  mkLIMetaData (inclusiveStatements l) b (flags l) (assessment l).
Definition flag (type : FlagType) (l : LIMetaData) : LIMetaData :=
  mkLIMetaData (inclusiveStatements l) (isVirtualFunction l) (<[type := true]> (flags l))
    (assessment l).
Definition isFlagged (type : FlagType) (l : LIMetaData) : outcome bool :=
  at_or_throw (flags l !! type).
Definition setAssessment (a : double) (l : LIMetaData) : LIMetaData :=
  mkLIMetaData (inclusiveStatements l) (isVirtualFunction l) (flags l) (Some a).

(** ** [pira::InstrumentationResultMetaData] *)

Record InstrumentationResultMetaData := mkInstrumentationResult {
  callCount : Z;
  callsFromParents : gmap string Z;
  runtime : double;
  timePerCall : double;
  inclusiveRunTimeCube : double;
  inclusiveTimePerCallCube : double;
  inclusiveRunTimeSum : double;
  inclusiveTimePerCallSum : double;
  isExclusiveRuntime : bool;
  shouldBeInstrumented : bool
}.

Definition set_shouldBeInstrumented (b : bool) (m : InstrumentationResultMetaData)
    : InstrumentationResultMetaData :=
  mkInstrumentationResult (callCount m) (callsFromParents m) (runtime m) (timePerCall m)
    (inclusiveRunTimeCube m) (inclusiveTimePerCallCube m) (inclusiveRunTimeSum m)
    (inclusiveTimePerCallSum m) (isExclusiveRuntime m) b.

(** ** Metadata of the library that the phases read *)

Record NumConditionalBranches := mkNumConditionalBranches { numConditionalBranches : Z }.
Record LoopDepth := mkLoopDepth { loopDepth : Z }.
Record GlobalLoopDepth := mkGlobalLoopDepth { globalLoopDepth : Z }.
Record CodeStatistics := mkCodeStatistics { numVars : Z }.

(** ** Typed access *)

(** The constant [T::key] and the value a default-constructed [T] has. *)
Class HasKey (T : Type) := { T_key : string; T_new : T }.
Arguments T_key T {_}.
Arguments T_new T {_}.

#[export] Instance InstrumentationMetaData_key : HasKey InstrumentationMetaData :=
  {| T_key := "InstrumentationMetaData"; T_new := mkInstrumentation NotInstrumented |}.
#[export] Instance BaseProfileData_key : HasKey BaseProfileData :=
  {| T_key := "BaseProfileData"; T_new := mkBaseProfileData 0 d_zero d_zero 0 0 ∅ [] |}.
#[export] Instance PiraOneData_key : HasKey PiraOneData :=
  {| T_key := "numStatements"; T_new := mkPiraOneData false false false 0 |}.
#[export] Instance LIMetaData_key : HasKey LIMetaData :=
  {| T_key := "LIData";
     T_new := mkLIMetaData 0 false
       {[Visited := false; Irrelevant := false; Imbalanced := false]} None |}.
#[export] Instance InstrumentationResult_key : HasKey InstrumentationResultMetaData :=
  {| T_key := "instrumentationResult";
     T_new := mkInstrumentationResult 0 ∅ d_zero d_zero d_zero d_zero d_zero d_zero false false |}.
#[export] Instance NumConditionalBranches_key : HasKey NumConditionalBranches :=
  {| T_key := "numConditionalBranches"; T_new := mkNumConditionalBranches 0 |}.
#[export] Instance NumOperations_key : HasKey NumOperations :=
  {| T_key := "numOperations"; T_new := mkNumOperations 0 0 0 0 |}.
#[export] Instance LoopDepth_key : HasKey LoopDepth :=
  {| T_key := "loopDepth"; T_new := mkLoopDepth 0 |}.
#[export] Instance GlobalLoopDepth_key : HasKey GlobalLoopDepth :=
  {| T_key := "globalLoopDepth"; T_new := mkGlobalLoopDepth 0 |}.
#[export] Instance CodeStatistics_key : HasKey CodeStatistics :=
  {| T_key := "codeStatistics"; T_new := mkCodeStatistics 0 |}.

(** The conversions between [T] and the base class. *)
Class MDCast {JO : JsonOps} {MDI : MetaDataI} (T : Type) := {
  md_up : T → MD;
  md_cast : MD → outcome T;
  md_cast_up t : md_cast (md_up t) ⇓ t
}.

Abbreviation NodePtr := (option NodeId).

Section typed.
Context {JO : JsonOps} {MDI : MetaDataI} (T : Type) `{!HasKey T} `{!MDCast T}.

Definition node_has (n : CgNode) : bool := md_has (node_md n) (T_key T).

Definition node_get (n : CgNode) : outcome (option T) :=
  match md_get (node_md n) (T_key T) with
  | None => Ret None
  | Some md => t ← md_cast md; Ret (Some t)
  end.

Definition node_getOrCreate (n : CgNode) : outcome (CgNode * T) :=
  let r := md_getOrCreate (node_md n) (T_key T) (md_up (T_new T)) in
  t ← md_cast r.2; Ret (set_node_md n r.1, t).

(** Assigning through the reference. *)
Definition node_put (t : T) (n : CgNode) : CgNode :=
  set_node_md n (<[T_key T := md_up t]> (node_md n)).

(** *** Through a pointer into the graph *)

Definition ptr_node (g : Callgraph) (p : NodePtr) : outcome CgNode :=
  i ← deref p; deref (node_at g i).

Definition ptr_has (g : Callgraph) (p : NodePtr) : outcome bool :=
  n ← ptr_node g p; Ret (node_has n).

Definition ptr_get (g : Callgraph) (p : NodePtr) : outcome (option T) :=
  n ← ptr_node g p; node_get n.

Definition ptr_getOrCreate (g : Callgraph) (p : NodePtr) : outcome (Callgraph * T) :=
  i ← deref p;
  n ← deref (node_at g i);
  r ← node_getOrCreate n;
  Ret (update_node g i (λ _, r.1), r.2).

(** [auto& m = node->getOrCreate<T>(); m = f(m)] *)
Definition ptr_modify (f : T → T) (g : Callgraph) (p : NodePtr) : outcome Callgraph :=
  i ← deref p;
  n ← deref (node_at g i);
  r ← node_getOrCreate n;
  Ret (update_node g i (λ _, node_put (f r.2) r.1)).
End typed.
Arguments node_put {JO MDI T _ _} _ _.

(** The classes of the PGIS library and those it reads. *)
Class PgisClasses {JO : JsonOps} {MDI : MetaDataI} := {
  pc_instrumentation :: MDCast InstrumentationMetaData;
  pc_profile :: MDCast BaseProfileData;
  pc_pira_one :: MDCast PiraOneData;
  pc_load_imbalance :: MDCast LIMetaData;
  pc_result :: MDCast InstrumentationResultMetaData;
  pc_branches :: MDCast NumConditionalBranches;
  pc_operations :: MDCast NumOperations;
  pc_loop_depth :: MDCast LoopDepth;
  pc_global_loop_depth :: MDCast GlobalLoopDepth;
  pc_code_statistics :: MDCast CodeStatistics
}.
