(* ===== verification/PgisAccess.v ===== *)
(** * PGIS: reading and marking nodes of a graph

    The functions of [pgis/lib/include/MetaData/PGISMetaData.h] that mark nodes
    for instrumentation, and the two relations all theorems about the phases
    are stated with: [md_view], the value of a metadata class at a node (the
    default value where the node has none, as [getOrCreate] sees it), and
    [frame], which says that two graphs differ in the node metadata stored
    under some keys only. *)

From S2P Require Import Prelude Json MetaData BuiltinMD Callgraph CallgraphWf.
From S2P Require Import CallgraphOps CallgraphSpec CallgraphProps Worklist Reach.
From S2P Require Import Dominators PgisMD.

Section instrumentation.
Context {JO : JsonOps} {MDI : MetaDataI} `{!MDCast InstrumentationMetaData}.

(** ** [PGISMetaData.h] *)

Definition resetInstrumentation (g : Callgraph) (node : NodePtr) : outcome Callgraph :=
  ptr_modify InstrumentationMetaData reset g node.
Definition instrumentNode (g : Callgraph) (node : NodePtr) : outcome Callgraph :=
  ptr_modify InstrumentationMetaData setInstrumented g node.
Definition instrumentPathNode (g : Callgraph) (node : NodePtr) : outcome Callgraph :=
  ptr_modify InstrumentationMetaData setInstrumentedPath g node.

(** The queries create the metadata where it is missing. *)
Definition isInstrumented (g : Callgraph) (node : NodePtr) : outcome (Callgraph * bool) :=
  r ← ptr_getOrCreate InstrumentationMetaData g node; Ret (r.1, md_isInstrumented r.2).
Definition isInstrumentedPath (g : Callgraph) (node : NodePtr) : outcome (Callgraph * bool) :=
  r ← ptr_getOrCreate InstrumentationMetaData g node; Ret (r.1, md_isInstrumentedPath r.2).
Definition isAnyInstrumented (g : Callgraph) (node : NodePtr) : outcome (Callgraph * bool) :=
  r ← ptr_getOrCreate InstrumentationMetaData g node;
  Ret (r.1, md_isInstrumented r.2 || md_isInstrumentedPath r.2).
End instrumentation.

(** ** Loops over [getNodes()] and over neighbours *)

Section access.
Context {JO : JsonOps} {MDI : MetaDataI}.

(** [elem.get()] for every element of the node container. *)
Definition node_ptrs (g : Callgraph) : list NodePtr := option_map node_id <$> nodes g.

(** No node was erased: [getNodes()] has no null pointer. *)
Definition full (g : Callgraph) : Prop := ∀ i, i < length (nodes g) → live g i.

(** ** Frames *)

Definition node_frame (K : gset string) (o o' : option CgNode) : Prop :=
  match o, o' with
  | None, None => True
  | Some n, Some n' =>
      n' = set_node_md n (node_md n') ∧ ∀ k, k ∉ K → node_md n' !! k = node_md n !! k
  | _, _ => False
  end.

Definition set_nodes (g : Callgraph) (ns : list (option CgNode)) : Callgraph :=
  mkCallgraph (uid g) ns (nameIdMap g) (edges g) (callerList g) (calleeList g) (mainNode g)
    (hasDuplicates g) (numErased g) (cg_md g).

Record frame (K : gset string) (g g' : Callgraph) : Prop := {
  frame_rest : g' = set_nodes g (nodes g');
  frame_nodes : Forall2 (node_frame K) (nodes g) (nodes g')
}.

Lemma set_node_md_same n : set_node_md n (node_md n) = n.
Proof. by destruct n. Qed.

Lemma frame_refl K g : frame K g g.
Proof.
  split; [by destruct g|]. apply Forall_Forall2_diag, Forall_forall. intros [n|] _; [|done].
  simpl. by rewrite set_node_md_same.
Qed.

Lemma frame_trans K g1 g2 g3 : frame K g1 g2 → frame K g2 g3 → frame K g1 g3.
Proof.
  intros [H1 Hn1] [H2 Hn2]. split; [by rewrite H2, H1|].
  apply Forall2_same_length_lookup. split; [by rewrite (Forall2_length _ _ _ Hn1), (Forall2_length _ _ _ Hn2)|].
  intros i o1 o3 Ho1 Ho3. destruct (Forall2_lookup_l _ _ _ _ _ Hn1 Ho1) as (o2 & Ho2 & HR1).
  pose proof (Forall2_lookup_lr _ _ _ _ _ _ Hn2 Ho2 Ho3) as HR2.
  destruct o1 as [n1|], o2 as [n2|], o3 as [n3|]; simpl in *; try done.
  destruct HR1 as [E1 K1], HR2 as [E2 K2]. split; [by rewrite E2, E1|]. intros k Hk. by rewrite K2, K1.
Qed.

Lemma frame_mono K K' g g' : K ⊆ K' → frame K g g' → frame K' g g'.
Proof.
  intros HK [H1 Hn]. split; [done|]. eapply Forall2_impl; [exact Hn|].
  intros [n|] [n'|]; simpl; try done. intros [E HE]. split; [done|]. intros k Hk. apply HE. set_solver.
Qed.

Section frame_facts.
Context {K : gset string} {g g' : Callgraph} (Hf : frame K g g').

Lemma frame_edges : edges g' = edges g.
Proof using Hf. by rewrite (frame_rest _ _ _ Hf). Qed.
Lemma frame_main : mainNode g' = mainNode g.
Proof using Hf. by rewrite (frame_rest _ _ _ Hf). Qed.
Lemma frame_cg_md : cg_md g' = cg_md g.
Proof using Hf. by rewrite (frame_rest _ _ _ Hf). Qed.
Lemma frame_length : length (nodes g') = length (nodes g).
Proof using Hf. symmetry. eapply Forall2_length, Hf. Qed.

(** Every node is where it was, with its name and its body. *)
Lemma frame_node_at i : node_frame K (node_at g i) (node_at g' i).
Proof using Hf.
  unfold node_at. pose proof (proj1 (Forall2_lookup _ _ _) (frame_nodes _ _ _ Hf) i) as H.
  by inversion H as [o o' Ho E1 E2|E1 E2].
Qed.

Lemma frame_node i n : node_at g i = Some n →
  ∃ n', node_at g' i = Some n' ∧ node_id n' = node_id n ∧ functionName n' = functionName n ∧
    hasBody n' = hasBody n ∧ origin n' = origin n ∧ node_addr n' = node_addr n ∧
    ∀ k, k ∉ K → node_md n' !! k = node_md n !! k.
Proof using Hf.
  intros Hn. pose proof (frame_node_at i) as H. rewrite Hn in H.
  destruct (node_at g' i) as [n'|]; simpl in H; [|done]. destruct H as [E HE].
  exists n'. split; [done|]. rewrite E. by repeat split.
Qed.

Lemma frame_live i : live g' i ↔ live g i.
Proof using Hf.
  unfold live. pose proof (frame_node_at i) as H.
  destruct (node_at g i), (node_at g' i); simpl in H; [|done..].
  split; by eexists.
Qed.

Lemma frame_full : full g → full g'.
Proof using Hf. intros Hfull i Hi. apply frame_live, Hfull. by rewrite <- frame_length. Qed.

Lemma frame_wf : wf g → wf g'.
Proof using Hf.
  intros Hwf. destruct Hf as [Hr Hn]. rewrite Hr. apply (wf_same_nodes g); try done; try apply Hwf.
  - eapply Forall2_impl; [exact Hn|]. intros [n|] [n'|]; simpl; try done. intros [E _].
    rewrite E. by repeat split.
  - intros [i j]. apply (wf_edges _ Hwf).
Qed.

Lemma frame_node_ptrs : node_ptrs g' = node_ptrs g.
Proof using Hf.
  unfold node_ptrs. pose proof (frame_nodes _ _ _ Hf) as H.
  induction H as [|o o' l l' Ho _ IH]; [done|]. simpl. f_equal; [|exact IH].
  destruct o, o'; simpl in *; try done. destruct Ho as [-> _]. done.
Qed.
End frame_facts.

Lemma frame_calls {K g g'} (Hf : frame K g g') i j : calls g' i j ↔ calls g i j.
Proof. unfold calls. by rewrite (frame_edges Hf). Qed.

Lemma frame_rtc_calls {K g g'} (Hf : frame K g g') i j : rtc (calls g') i j ↔ rtc (calls g) i j.
Proof. split; apply rtc_subrel; intros x y; apply (frame_calls Hf). Qed.

Lemma frame_same_callees {K g g'} (Hf : frame K g g') : same_callees g g'.
Proof.
  intros i. unfold getCallees. rewrite (frame_rest _ _ _ Hf). cbn [calleeList set_nodes].
  destruct (calleeList g !! i) as [l|]; [|done]. apply foldM_ext. intros X j. cbn [nodes set_nodes].
  pose proof (proj1 (Forall2_lookup _ _ _) (frame_nodes _ _ _ Hf) j) as H.
  inversion H as [o o' Ho E1 E2|E1 E2]; [|done]. cbn [at_or_throw]. rewrite !bind_ret.
  destruct o as [n|], o' as [n'|]; simpl in Ho; try done. destruct Ho as [-> _]. done.
Qed.

(** ** Neighbours *)

Lemma ptr_node_ret g i n : node_at g i = Some n → ptr_node g (Some i) ⇓ n.
Proof. intros Hn. unfold ptr_node. simpl. by rewrite Hn. Qed.

Lemma callees_ptr_ret g i : wf g → live g i → callees_ptr g (Some i) ⇓ next g Forward (Some i).
Proof. intros Hwf. apply (neighbours_ret g Hwf Forward). Qed.

Lemma callers_ptr_ret g i : wf g → live g i → callers_ptr g (Some i) ⇓ next g Backward (Some i).
Proof. intros Hwf. apply (neighbours_ret g Hwf Backward). Qed.

Lemma elem_of_callees g i p : wf g → p ∈ next g Forward (Some i) ↔ ∃ j, p = Some j ∧ calls g i j.
Proof. intros Hwf. apply (elem_of_next g Hwf Forward). Qed.

Lemma elem_of_callers g i p : wf g → p ∈ next g Backward (Some i) ↔ ∃ j, p = Some j ∧ calls g j i.
Proof. intros Hwf. apply (elem_of_next g Hwf Backward). Qed.

Lemma frame_next {K g g'} (Hf : frame K g g') dir i : next g' dir (Some i) = next g dir (Some i).
Proof.
  unfold next, all_ptrs. f_equal. rewrite (frame_length Hf). apply filter_iff_in.
  intros [j|] _; [|done]. unfold linked_ptr, linked. by rewrite (frame_edges Hf).
Qed.

Lemma node_ptrs_full g : wf g → full g → node_ptrs g = Some <$> seq 0 (length (nodes g)).
Proof.
  intros Hwf Hfull. apply list_eq. intros i. unfold node_ptrs. rewrite !list_lookup_fmap.
  destruct (decide (i < length (nodes g))) as [Hi|Hi].
  - destruct (Hfull i Hi) as [n Hn]. pose proof (proj1 (node_at_Some _ _ _) Hn) as ->. simpl.
    rewrite lookup_seq_lt by done. simpl. by destruct (wf_ids _ Hwf i n Hn) as [-> _].
  - rewrite (lookup_ge_None_2 (nodes g)) by lia. by rewrite lookup_seq_ge by lia.
Qed.

Lemma elem_of_node_ptrs g p : wf g → full g → p ∈ node_ptrs g → ∃ i, p = Some i ∧ live g i.
Proof.
  intros Hwf Hfull. rewrite node_ptrs_full by done.
  intros (i & -> & Hi%elem_of_seq)%list_elem_of_fmap. exists i. split; [done|]. apply Hfull. lia.
Qed.

Lemma node_ptrs_live g i : wf g → full g → live g i → Some i ∈ node_ptrs g.
Proof.
  intros Hwf Hfull Hi%live_lt. rewrite node_ptrs_full by done.
  apply list_elem_of_fmap_2, elem_of_seq. lia.
Qed.

Lemma node_ptrs_NoDup g : wf g → full g → NoDup (node_ptrs g).
Proof.
  intros. rewrite node_ptrs_full by done. apply (NoDup_fmap_2 Some), NoDup_seq.
Qed.
End access.

(** ** Values of a metadata class *)

Section view.
Context {JO : JsonOps} {MDI : MetaDataI} (T : Type) `{!HasKey T} `{!MDCast T}.

(** What [getOrCreate<T>] yields at a node; [None] for an object of another
    class under the key of [T]. *)
Definition md_value (n : CgNode) : option T :=
  match node_md n !! T_key T with
  | Some md => match md_cast md with Ret t => Some t | _ => None end
  | None => Some (T_new T)
  end.

Definition md_view (g : Callgraph) (i : NodeId) : option T := node_at g i ≫= md_value.

Lemma md_view_live g i t : md_view g i = Some t → live g i.
Proof. unfold md_view. destruct (node_at g i); [by eexists|done]. Qed.

Lemma frame_update K g i n n' :
  node_at g i = Some n → n' = set_node_md n (node_md n') →
  (∀ k, k ∉ K → node_md n' !! k = node_md n !! k) → frame K g (update_node g i (λ _, n')).
Proof.
  intros Hn E HE. split; [by destruct g|]. apply Forall2_same_length_lookup. simpl.
  rewrite length_alter. split; [done|]. intros j o o' Ho Ho'. apply node_at_Some in Hn.
  destruct (decide (j = i)) as [->|Hne].
  - rewrite list_lookup_alter_eq, Ho in Ho'. injection Ho' as <-. rewrite Ho in Hn. by injection Hn as ->.
  - rewrite list_lookup_alter_ne, Ho in Ho' by done. injection Ho' as <-.
    destruct o as [m|]; [|done]. simpl. by rewrite set_node_md_same.
Qed.

Lemma md_view_update g i n' j :
  live g i → md_view (update_node g i (λ _, n')) j = if decide (j = i) then md_value n' else md_view g j.
Proof.
  intros [n Hn]. unfold md_view. rewrite update_node_at. destruct (decide (j = i)) as [->|Hne].
  - by rewrite decide_True, Hn.
  - by rewrite decide_False.
Qed.

Lemma md_view_frame K g g' i : frame K g g' → T_key T ∉ K → md_view g' i = md_view g i.
Proof.
  intros Hf HK. pose proof (frame_node_at Hf i) as H. unfold md_view.
  destruct (node_at g i) as [n|], (node_at g' i) as [n'|]; simpl in *; try done.
  unfold md_value. by rewrite (proj2 H).
Qed.

(** The outcome of [getOrCreate] on a node: the same value is seen after it. *)
Lemma node_getOrCreate_ret n t : md_value n = Some t →
  ∃ n', node_getOrCreate T n ⇓ (n', t) ∧ n' = set_node_md n (node_md n') ∧
    (∀ k, k ∉ ({[T_key T]} : gset string) → node_md n' !! k = node_md n !! k) ∧ md_value n' = Some t.
Proof.
  unfold md_value, node_getOrCreate, md_getOrCreate.
  destruct (node_md n !! T_key T) as [md|] eqn:Hmd.
  - cbn [fst snd]. destruct (md_cast md) as [t'| | | |] eqn:Hc; [|done..]. intros [= <-].
    eexists. split; [done|]. cbn [set_node_md node_md]. split_and!; [by destruct n|done|]. by rewrite Hmd, Hc.
  - cbn [fst snd]. rewrite md_cast_up. intros [= <-]. eexists. split; [done|].
    cbn [set_node_md node_md]. split_and!; [done| |].
    + intros k Hk%not_elem_of_singleton. by rewrite lookup_insert_ne.
    + by rewrite lookup_insert_eq, md_cast_up.
Qed.

Lemma ptr_getOrCreate_ret g i t : md_view g i = Some t →
  ∃ g', ptr_getOrCreate T g (Some i) ⇓ (g', t) ∧ frame {[T_key T]} g g' ∧
    ∀ j, md_view g' j = md_view g j.
Proof.
  intros Hv. pose proof (md_view_live g i t Hv) as Hl. destruct Hl as [n Hn] eqn:El. clear El.
  assert (md_value n = Some t) as Hv1 by (unfold md_view in Hv; by rewrite Hn in Hv).
  destruct (node_getOrCreate_ret n t Hv1) as (n' & Hr & E & HE & Hv').
  exists (update_node g i (λ _, n')). unfold ptr_getOrCreate. cbn [deref]. rewrite bind_ret, Hn.
  cbn [deref]. rewrite bind_ret, Hr, bind_ret. cbn [fst snd]. split_and!; [done|by eapply frame_update|].
  intros j. rewrite md_view_update by eauto. case_decide; [|done]. subst. by rewrite Hv.
Qed.

Lemma ptr_modify_ret f g i t : md_view g i = Some t →
  ∃ g', ptr_modify T f g (Some i) ⇓ g' ∧ frame {[T_key T]} g g' ∧
    ∀ j, md_view g' j = if decide (j = i) then Some (f t) else md_view g j.
Proof.
  intros Hv. pose proof (md_view_live g i t Hv) as Hl. destruct Hl as [n Hn] eqn:El. clear El.
  assert (md_value n = Some t) as Hv1 by (unfold md_view in Hv; by rewrite Hn in Hv).
  destruct (node_getOrCreate_ret n t Hv1) as (n' & Hr & E & HE & Hv').
  exists (update_node g i (λ _, node_put (f t) n')). unfold ptr_modify. cbn [deref].
  rewrite bind_ret, Hn. cbn [deref]. rewrite bind_ret, Hr, bind_ret. cbn [fst snd]. split_and!; [done| |].
  - eapply frame_update; [done| |].
    + rewrite E. done.
    + intros k Hk. cbn [node_put set_node_md node_md]. rewrite lookup_insert_ne; [by apply HE|].
      by apply not_elem_of_singleton in Hk.
  - intros j. rewrite md_view_update by eauto. case_decide; [|done].
    unfold md_value. cbn [node_put set_node_md node_md]. by rewrite lookup_insert_eq, md_cast_up.
Qed.

(** [get<T>] yields the stored object. *)
Lemma ptr_get_ret g i t n : md_view g i = Some t → node_at g i = Some n →
  ptr_get T g (Some i) ⇓ (if node_has T n then Some t else None).
Proof.
  unfold md_view, ptr_get. intros Hv Hn. rewrite (ptr_node_ret _ _ _ Hn), bind_ret. rewrite Hn in Hv.
  cbn in Hv. unfold node_get, node_has, md_get, md_has, md_value in *.
  destruct (node_md n !! T_key T) as [md|]; [|done].
  destruct (md_cast md) as [t'| | | |]; [|done..]. injection Hv as <-. done.
Qed.
End view.

(** ** Marking *)

Section marking.
Context {JO : JsonOps} {MDI : MetaDataI} `{!MDCast InstrumentationMetaData}.

Definition IMD_key : string := T_key InstrumentationMetaData.

(** How a node is marked; a node without the metadata is not marked. *)
Definition mark (g : Callgraph) (i : NodeId) : option InstrumentationState :=
  state <$> md_view InstrumentationMetaData g i.

Lemma mark_frame K g g' i : frame K g g' → IMD_key ∉ K → mark g' i = mark g i.
Proof. intros. unfold mark. by erewrite md_view_frame. Qed.

Lemma mark_view g i s : mark g i = Some s →
  md_view InstrumentationMetaData g i = Some (mkInstrumentation s).
Proof. unfold mark. intros ([s'] & -> & ->)%fmap_Some. done. Qed.

Lemma mark_live g i s : mark g i = Some s → live g i.
Proof. intros H%mark_view. by eapply md_view_live. Qed.

Lemma set_mark f s' g i s : (∀ m, state (f m) = s') → mark g i = Some s →
  ∃ g', ptr_modify InstrumentationMetaData f g (Some i) ⇓ g' ∧ frame {[IMD_key]} g g' ∧
    ∀ j, mark g' j = if decide (j = i) then Some s' else mark g j.
Proof.
  intros Hf H%mark_view. destruct (ptr_modify_ret _ f g i _ H) as (g' & Hr & Hfr & Hv).
  exists g'. split_and!; [done..|]. intros j. unfold mark. rewrite Hv. case_decide; [|done].
  simpl. by rewrite Hf.
Qed.

Lemma instrumentNode_ret g i s : mark g i = Some s →
  ∃ g', instrumentNode g (Some i) ⇓ g' ∧ frame {[IMD_key]} g g' ∧
    ∀ j, mark g' j = if decide (j = i) then Some Instrumented else mark g j.
Proof. by apply set_mark. Qed.

Lemma instrumentPathNode_ret g i s : mark g i = Some s →
  ∃ g', instrumentPathNode g (Some i) ⇓ g' ∧ frame {[IMD_key]} g g' ∧
    ∀ j, mark g' j = if decide (j = i) then Some InstrumentedPath else mark g j.
Proof. by apply set_mark. Qed.

Lemma resetInstrumentation_ret g i s : mark g i = Some s →
  ∃ g', resetInstrumentation g (Some i) ⇓ g' ∧ frame {[IMD_key]} g g' ∧
    ∀ j, mark g' j = if decide (j = i) then Some NotInstrumented else mark g j.
Proof. by apply set_mark. Qed.

Lemma read_mark g i s : mark g i = Some s →
  ∃ g', ptr_getOrCreate InstrumentationMetaData g (Some i) ⇓ (g', mkInstrumentation s) ∧
    frame {[IMD_key]} g g' ∧ ∀ j, mark g' j = mark g j.
Proof.
  intros H%mark_view. destruct (ptr_getOrCreate_ret _ g i _ H) as (g' & Hr & Hf & Hv).
  exists g'. split_and!; [done..|]. intros j. unfold mark. by rewrite Hv.
Qed.

Lemma isInstrumented_ret g i s : mark g i = Some s →
  ∃ g', isInstrumented g (Some i) ⇓ (g', bool_decide (s = Instrumented)) ∧
    frame {[IMD_key]} g g' ∧ ∀ j, mark g' j = mark g j.
Proof.
  intros H. destruct (read_mark g i s H) as (g' & Hr & Hf & Hm). exists g'. split_and!; [|done..].
  unfold isInstrumented. by rewrite Hr, bind_ret.
Qed.

Lemma isInstrumentedPath_ret g i s : mark g i = Some s →
  ∃ g', isInstrumentedPath g (Some i) ⇓ (g', bool_decide (s = InstrumentedPath)) ∧
    frame {[IMD_key]} g g' ∧ ∀ j, mark g' j = mark g j.
Proof.
  intros H. destruct (read_mark g i s H) as (g' & Hr & Hf & Hm). exists g'. split_and!; [|done..].
  unfold isInstrumentedPath. by rewrite Hr, bind_ret.
Qed.

Lemma isAnyInstrumented_ret g i s : mark g i = Some s →
  ∃ g', isAnyInstrumented g (Some i) ⇓ (g', bool_decide (s ≠ NotInstrumented)) ∧
    frame {[IMD_key]} g g' ∧ ∀ j, mark g' j = mark g j.
Proof.
  intros H. destruct (read_mark g i s H) as (g' & Hr & Hf & Hm). exists g'. split_and!; [|done..].
  unfold isAnyInstrumented. rewrite Hr, bind_ret. by destruct s.
Qed.
End marking.
