(* ===== verification/PgisWalk.v ===== *)
(** * PGIS: walking the call graph

    The loop of [Worklist] over the callees or the callers of the nodes of a
    graph: the nodes it marks, and the bound on its turns. *)

From S2P Require Import Prelude Json MetaData BuiltinMD Callgraph CallgraphWf.
From S2P Require Import CallgraphOps CallgraphSpec CallgraphProps Worklist Reach.
From S2P Require Import Dominators PgisMD PgisAccess.

(** ** Counting *)

(** The classes of a list under [h] are disjoint. *)
Lemma sum_classes {A B} `{EqDecision B} (h : A → B) (ps : list B) (l : list A) :
  NoDup ps → sum_list ((λ p, length (filter (λ a, h a = p) l)) <$> ps) ≤ length l.
Proof.
  revert l. induction ps as [|p ps IH]; intros l; [simpl; lia|]. intros [Hp Hnd]%NoDup_cons.
  rewrite fmap_cons. cbn [sum_list sum_list_with].
  assert (length l = length (filter (λ a, h a = p) l) + length (filter (λ a, h a ≠ p) l)) as Hlen.
  { clear. induction l as [|a l IH]; [done|]. rewrite !filter_cons.
    destruct (decide (h a = p)); [rewrite decide_False by tauto|rewrite decide_True by done]; simpl; lia. }
  specialize (IH (filter (λ a, h a ≠ p) l) Hnd).
  replace ((λ p0, length (filter (λ a, h a = p0) (filter (λ a, h a ≠ p) l))) <$> ps)
    with ((λ p0, length (filter (λ a, h a = p0) l)) <$> ps) in IH.
  { unfold id in *. lia. }
  apply list_fmap_ext. intros i q Hq. f_equal. rewrite list_filter_filter. apply filter_iff_in.
  intros a _. apply list_elem_of_lookup_2 in Hq. split; [|tauto]. intros ->. split; [done|]. by intros ->.
Qed.

Section walk.
Context {JO : JsonOps} {MDI : MetaDataI} {IO : IterOrder}.

Lemma size_slots g : size (slots g) = length (nodes g).
Proof.
  unfold slots. rewrite size_list_to_set by apply (NoDup_fmap_2 Some), NoDup_seq.
  by rewrite length_fmap, length_seq.
Qed.

Lemma live_slot g i : live g i → Some i ∈ slots g.
Proof.
  intros Hi%live_lt. apply elem_of_list_to_set, list_elem_of_fmap_2, elem_of_seq. lia.
Qed.

(** ** The edges that leave a node *)

Definition edge_list (g : Callgraph) : list (NodeId * NodeId) := (map_to_list (edges g)).*1.

Lemma length_edge_list g : length (edge_list g) = size (edges g).
Proof. unfold edge_list. rewrite length_fmap. apply length_map_to_list. Qed.

Lemma elem_of_edge_list g i j : (i, j) ∈ edge_list g ↔ calls g i j.
Proof.
  unfold edge_list, calls. rewrite list_elem_of_fmap. split.
  - intros ([? m] & -> & Hm%elem_of_map_to_list). by exists m.
  - intros [m Hm]. exists ((i, j), m). split; [done|]. by apply elem_of_map_to_list.
Qed.

Definition source_of (dir : TraverseDir) (e : NodeId * NodeId) : NodePtr :=
  match dir with Forward => Some e.1 | Backward => Some e.2 end.
Definition target_of (dir : TraverseDir) (e : NodeId * NodeId) : NodePtr :=
  match dir with Forward => Some e.2 | Backward => Some e.1 end.

Definition degree (g : Callgraph) (dir : TraverseDir) (p : NodePtr) : nat :=
  length (filter (λ e, source_of dir e = p) (edge_list g)).

Lemma degree_next (g : Callgraph) (dir : TraverseDir) (i : NodeId) (X : gset NodePtr) : wf g → X ⊆ next g dir (Some i) →
  length (iter_set X) ≤ degree g dir (Some i).
Proof.
  intros Hwf HX. unfold degree.
  rewrite <- (length_fmap (target_of dir)).
  apply submseteq_length, NoDup_submseteq; [apply iter_set_NoDup|].
  intros p Hp. apply elem_of_iter_set, HX in Hp. apply (elem_of_next g Hwf) in Hp as (j & -> & Hl).
  apply list_elem_of_fmap. destruct dir; unfold linked in Hl; simpl;
    [exists (i, j)|exists (j, i)]; (split; [done|]); apply list_elem_of_filter;
    (split; [done|]); by apply elem_of_edge_list.
Qed.

Lemma total_degree (g : Callgraph) (dir : TraverseDir) (U : gset NodePtr) : rest_degree U (degree g dir) ∅ ≤ size (edges g).
Proof.
  unfold rest_degree, degree. rewrite <- length_edge_list.
  apply (sum_classes (source_of dir) (elements (U ∖ ∅)) (edge_list g)), NoDup_elements.
Qed.

(** ** The loop *)

Section loop.
Context (g : Callgraph) (Hwf : wf g) (dir : TraverseDir).
(** The edges that are followed. *)
Context (follow : NodeId → NodeId → Prop) (Hfollow : ∀ i j, follow i j → linked g dir i j).
Context (starts : list NodeId) (Hstarts : ∀ i, i ∈ starts → live g i).

Definition walked_to (j : NodeId) : Prop := ∃ i, i ∈ starts ∧ rtc follow i j.

Definition follow_ptr (p q : NodePtr) : Prop := ∃ i j, p = Some i ∧ q = Some j ∧ follow i j.

Lemma rtc_follow_ptr i p : rtc follow_ptr (Some i) p ↔ ∃ j, p = Some j ∧ rtc follow i j.
Proof using Type.
  clear. split.
  - intros Hr. remember (Some i) as o eqn:Ho. revert i Ho.
    induction Hr as [o|o q p (k & j & -> & -> & Hk) _ IH]; intros i Ho; [by exists i|].
    injection Ho as <-. destruct (IH j eq_refl) as (l & -> & Hl). exists l. split; [done|]. by eapply rtc_l.
  - intros (j & -> & Hr). induction Hr as [|i k j Hk _ IH]; [done|].
    eapply rtc_l; [|exact IH]. by exists i, k.
Qed.

Lemma from_starts_ptr p :
  from_starts follow_ptr (Some <$> starts) p ↔ ∃ j, p = Some j ∧ walked_to j.
Proof using Type.
  clear. unfold from_starts, walked_to. split.
  - intros (s & (i & -> & Hi)%list_elem_of_fmap & (j & -> & Hr)%rtc_follow_ptr). naive_solver.
  - intros (j & -> & i & Hi & Hr). exists (Some i). split; [by apply list_elem_of_fmap_2|].
    apply rtc_follow_ptr. naive_solver.
Qed.

Lemma walked_to_live j : walked_to j → live g j.
Proof using Hwf Hfollow Hstarts.
  intros (i & Hi & Hr). pose proof (Hstarts i Hi) as Hl. clear Hi. induction Hr as [|i k j Hk _ IH]; [done|].
  apply IH. by apply (linked_live g Hwf dir i k), Hfollow.
Qed.

(** The loop stops within as many turns as there are edges, start nodes, and
    one more; it marks what can be reached and keeps the invariant [P]. *)
Lemma walk_loop {St} (visit : nat → St → NodePtr → outcome (St * list NodePtr)) (N : nat)
    (P : gset NodePtr → St → Prop) s0 :
  P ∅ s0 →
  (∀ V s i, P V s → Some i ∉ V → walked_to i → live g i → ∃ s' X,
     (∀ k, N ≤ k → visit k s (Some i) ⇓ (s', iter_set X)) ∧ (∀ p, p ∈ X ↔ ∃ j, p = Some j ∧ follow i j) ∧
     P ({[Some i]} ∪ V) s') →
  ∃ s V, P V s ∧ (∀ p, p ∈ V ↔ ∃ j, p = Some j ∧ walked_to j) ∧
    ∀ k fuel, N ≤ k → length starts + size (edges g) < fuel →
      loop fuel (visit_turn (visit k)) (s0, ∅, Some <$> starts) ⇓ (s, V).
Proof using Hwf Hfollow Hstarts.
  intros HP Hvisit.
  destruct (visit_loop visit follow_ptr (Some <$> starts) (slots g) (degree g dir) P N s0)
    as (s & V & HPs & HV & Hrun); [|exact HP| |].
  - intros p (j & -> & Hj)%from_starts_ptr. apply elem_of_list_to_set, list_elem_of_fmap_2, elem_of_seq.
    apply walked_to_live, live_lt in Hj. lia.
  - intros V s p HPs HV Hp. apply from_starts_ptr in Hp as (i & -> & Hi).
    destruct (Hvisit V s i HPs HV Hi (walked_to_live i Hi)) as (s' & X & Hr & HX & HP').
    exists s', (iter_set X). split_and!; [done| | |done].
    + intros p. rewrite elem_of_iter_set, HX. unfold follow_ptr. naive_solver.
    + apply degree_next; [done|]. intros p (j & -> & Hj)%HX. apply (elem_of_next g Hwf).
      exists j. split; [done|]. by apply Hfollow.
  - exists s, V. split_and!; [done| |].
    + intros p. by rewrite HV, from_starts_ptr.
    + intros k fuel Hk Hf. apply Hrun; [done|]. rewrite length_fmap. pose proof (total_degree g dir (slots g)). lia.
Qed.
End loop.
End walk.
