(* ===== verification/CgHelper.v ===== *)
(** * PGIS: graph helpers

    [pgis/lib/src/CgHelper.cpp] and [pgis/lib/include/CgHelper.h]: the
    traversals that the instrumentation phases share.  The functions take a
    pointer to a constant graph, but change the metadata of its nodes, so that
    they return the graph. *)

From Stdlib Require Import Floats.SpecFloat.
From S2P Require Import Prelude Json MetaData BuiltinMD Callgraph CallgraphWf.
From S2P Require Import CallgraphOps CallgraphSpec CallgraphProps Worklist Reach.
From S2P Require Import Dominators PgisMD PgisAccess PgisWalk.

Section cghelper.
Context {JO : JsonOps} {MDI : MetaDataI} {IO : IterOrder}.
Context `{!MDCast InstrumentationMetaData} `{!MDCast PiraOneData} `{!MDCast LIMetaData}.
Context `{!MDCast BaseProfileData}.

Definition isConjunction (graph : Callgraph) (node : NodePtr) : outcome bool :=
  callers ← callers_ptr graph node; Ret (bool_decide (1 < size callers)).

(** ** [getInstrumentationPath] *)

Definition path_visit (graph : Callgraph) (node : NodePtr) : outcome (Callgraph * list NodePtr) :=
  r1 ← isInstrumented graph node;
  if r1.2 : bool then Ret (r1.1, [])
  else
    r2 ← isInstrumentedPath r1.1 node;
    if r2.2 : bool then Ret (r2.1, [])
    else
      callers ← callers_ptr r2.1 node;
      if decide (callers = ∅) then Ret (r2.1, []) else Ret (r2.1, iter_set callers).

Definition getInstrumentationPath (graph : Callgraph) (fuel : nat) (start : NodePtr)
    : outcome (Callgraph * gset NodePtr) :=
  loop fuel (visit_turn path_visit) (graph, ∅, [start]).

(** ** [calculateInclusiveStatementCounts] *)

(** The condition is evaluated for every child; [Statements] is
    [unsigned long long].  The state of the recursion is the graph and the set
    of visited nodes. *)
Fixpoint visitNodeForInclusiveStatements (fuel : nat) (graph : Callgraph)
    (visitedNodes : gset NodePtr) (node : NodePtr) : outcome (Callgraph * gset NodePtr * Z) :=
  match fuel with
  | 0 => OutOfFuel
  | S fuel =>
      if decide (node ∈ visitedNodes) then
        r ← ptr_getOrCreate LIMetaData graph node;
        Ret (r.1, visitedNodes, inclusiveStatements r.2)
      else
        r ← ptr_getOrCreate PiraOneData graph node;
        callees ← callees_ptr r.1 node;
        st ← foldM (λ (st : Callgraph * gset NodePtr * Z) childNode,
               li ← ptr_getOrCreate LIMetaData st.1.1 node;
               b ← (if isVirtualFunction li.2
                    then pod ← ptr_getOrCreate PiraOneData li.1 node;
                         Ret (pod.1, bool_decide (numStmts pod.2 = 0%Z))
                    else Ret (li.1, false));
               c ← visitNodeForInclusiveStatements fuel b.1 st.1.2 childNode;
               Ret (c.1, if b.2 : bool then Z.max st.2 c.2 else to_ullong (st.2 + c.2)))
             (r.1, {[node]} ∪ visitedNodes, to_ullong (numStmts r.2)) (iter_set callees);
        g ← ptr_modify LIMetaData (setNumberOfInclusiveStatements st.2) st.1.1 node;
        Ret (g, st.1.2, st.2)
  end.

Definition calculateInclusiveStatementCounts (graph : Callgraph) (fuel : nat) (mainNode : NodePtr)
    : outcome Callgraph :=
  r ← visitNodeForInclusiveStatements fuel graph ∅ mainNode; Ret r.1.1.

(** ** [allNodesToMain] *)

Definition toMain_visit (fuel : nat) (st : Callgraph * ReachabilityAnalysis * gset NodePtr)
    (node : NodePtr) : outcome (Callgraph * ReachabilityAnalysis * gset NodePtr * list NodePtr) :=
  r ← isReachableFromMain st.1.1 fuel st.1.2 node false;
  if r.2 : bool then
    pns ← callers_ptr r.1.1 node;
    Ret (r.1, {[node]} ∪ st.2, iter_set pns)
  else Ret (r.1, st.2, []).

Definition allNodesToMain (graph : Callgraph) (fuel : nat) (startNode mainNode : NodePtr)
    (init : gmap NodePtr (gset NodePtr)) (ra : ReachabilityAnalysis)
    : outcome (Callgraph * ReachabilityAnalysis * gset NodePtr) :=
  match init !! startNode with
  | Some nodes => Ret (graph, ra, nodes)
  | None =>
      r ← loop fuel (visit_turn (toMain_visit fuel)) (graph, ra, {[mainNode]}, ∅, [startNode]);
      Ret r.1
  end.

(** ** [getDescendants] and [getAncestors] *)

Definition getDescendants (graph : Callgraph) (fuel : nat) (startingNode : NodePtr)
    : outcome (gset NodePtr) :=
  r ← loop fuel (visit_turn (λ (_ : unit) node,
        callees ← callees_ptr graph node; Ret (tt, iter_set callees))) (tt, ∅, [startingNode]);
  Ret r.2.

Definition getAncestors (graph : Callgraph) (fuel : nat) (startingNode : NodePtr)
    : outcome (gset NodePtr) :=
  r ← loop fuel (visit_turn (λ (_ : unit) node,
        callers ← callers_ptr graph node; Ret (tt, iter_set callers))) (tt, ∅, [startingNode]);
  Ret r.2.

(** ** [calcRuntimeThreshold] *)

Definition d_order (x y : double) : Prop := d_le x y = true.
#[export] Instance d_order_dec x y : Decision (d_order x y).
Proof. unfold d_order. apply _. Defined.

(** The inclusive runtimes that are not zero, in the order of the nodes. *)
Definition collect_runtimes (cg : Callgraph) : outcome (list double) :=
  foldM (λ rt n,
    bpd ← ptr_get BaseProfileData cg n;
    match bpd with
    | Some b => Ret (if negb (d_eq (inclTimeInSeconds b) d_zero)
                     then rt ++ [inclTimeInSeconds b] else rt)
    | None => Ret rt
    end) [] (node_ptrs cg).

Definition no_runtime_data : cpp_exn := runtime_error
  "There was no function with runtime data found in profile, so we are unable to compute a runtime threshold.".

Definition calcRuntimeThreshold (cg : Callgraph) (useLongAsRef : bool) : outcome double :=
  rt ← collect_runtimes cg;
  match rt with
  | [] => Throw no_runtime_data
  | _ =>
      (* [std::sort] needs a strict weak order, which NaNs break *)
      _ ← (if existsb d_is_nan rt then UB else Ret tt);
      let rt := merge_sort d_order rt in
      if useLongAsRef
      then r ← deref (rt !! (length rt - 1)); Ret (d_mul r (SFdiv 53 1024 (d_of_Z 1) (d_of_Z 2)))
      else deref (rt !! (length rt / 2))
  end.
End cghelper.

(** [attachMetaDataToGraph<MD>] *)
Definition attachMetaDataToGraph {JO : JsonOps} {MDI : MetaDataI} (T : Type) `{!HasKey T}
    `{!MDCast T} (cg : Callgraph) : outcome Callgraph :=
  foldM (λ g n, r ← ptr_getOrCreate T g n; Ret r.1) cg (node_ptrs cg).

(** * PGIS: what the graph helpers compute

    Descendants and ancestors, the nodes between
    the main function and a node, instrumentation paths, and the inclusive
    statement counts. *)

Section props.
Context {JO : JsonOps} {MDI : MetaDataI} {IO : IterOrder}.

Lemma rtc_linked_forward g i j : rtc (linked g Forward) i j ↔ rtc (calls g) i j.
Proof. done. Qed.

Lemma rtc_linked_backward g i j : rtc (linked g Backward) i j ↔ rtc (calls g) j i.
Proof. split; intros Hr; induction Hr as [|x y z Hxy _ IH]; [done|by eapply rtc_r|done|by eapply rtc_r]. Qed.

(** ** Descendants and ancestors *)

Lemma getDescendants_ret g i fuel :
  wf g → live g i → S (size (edges g)) < fuel →
  ∃ D, getDescendants g fuel (Some i) ⇓ D ∧ reachable_set g i D.
Proof.
  intros Hwf Hi Hf.
  destruct (walk_loop g Hwf Forward (calls g) (λ _ _ H, H) [i] ltac:(set_solver)
    (λ _ (_ : unit) node, callees ← callees_ptr g node; Ret (tt, iter_set callees)) 0 (λ _ _, True) tt)
    as (s & V & _ & HV & Hrun); [done| |].
  - intros V [] k _ _ _ Hk. eexists tt, _. split; [intros n _; by rewrite callees_ptr_ret by done|].
    split; [|done]. intros p. by apply elem_of_callees.
  - exists V. split; [unfold getDescendants; cbn in Hrun; by rewrite (Hrun 0) by lia|].
    intros p. rewrite HV. unfold walked_to. set_solver.
Qed.

Lemma getAncestors_ret g j fuel :
  wf g → live g j → S (size (edges g)) < fuel →
  ∃ A, getAncestors g fuel (Some j) ⇓ A ∧ ∀ p, p ∈ A ↔ ∃ i, p = Some i ∧ rtc (calls g) i j.
Proof.
  intros Hwf Hj Hf.
  destruct (walk_loop g Hwf Backward (linked g Backward) (λ _ _ H, H) [j] ltac:(set_solver)
    (λ _ (_ : unit) node, callers ← callers_ptr g node; Ret (tt, iter_set callers)) 0 (λ _ _, True) tt)
    as (s & V & _ & HV & Hrun); [done| |].
  - intros V [] k _ _ _ Hk. eexists tt, _. split; [intros n _; by rewrite callers_ptr_ret by done|].
    split; [|done]. intros p. by apply elem_of_callers.
  - exists V. split; [unfold getAncestors; cbn in Hrun; by rewrite (Hrun 0) by lia|].
    intros p. rewrite HV. unfold walked_to. setoid_rewrite <- rtc_linked_backward. set_solver.
Qed.

(** ** The nodes between the main function and a node *)

(** [p] is on a call path from [m] to [i]. *)
Definition on_path (g : Callgraph) (m i : NodeId) (p : NodePtr) : Prop :=
  ∃ k, p = Some k ∧ rtc (calls g) m k ∧ rtc (calls g) k i.

Section toMain.
Context (g : Callgraph) (Hwf : wf g) (m : NodeId) (Hm : mainNode g = Some m).

(** The edges [allNodesToMain] follows: from nodes reachable from main to
    their callers. *)
Definition to_main (j k : NodeId) : Prop := linked g Backward j k ∧ rtc (calls g) m j.

Lemma rtc_to_main i j : rtc to_main i j → rtc (calls g) j i.
Proof using Type. clear Hwf Hm. induction 1 as [|x y z [Hxy _] _ IH]; [done|]. by eapply rtc_r. Qed.

Lemma to_main_path k i : rtc (calls g) m k → rtc (calls g) k i → rtc to_main i k.
Proof using Type.
  clear Hwf Hm. intros Hmk Hki. revert Hmk. induction Hki as [|x y z Hxy Hyz IH]; intros Hmx; [done|].
  eapply rtc_r; [apply IH; by eapply rtc_r|]. split; [done|by eapply rtc_r].
Qed.

Lemma allNodesToMain_ret :
  ∃ N, ∀ i K g' ra init, live g i → frame K g g' → cache_ok g ra → init !! Some i = None →
  ∃ ra' X, (∀ fuel, N ≤ fuel → allNodesToMain g' fuel (Some i) (Some m) init ra ⇓ (g', ra', X)) ∧
    cache_ok g ra' ∧
    ∀ p, p ∈ X ↔ p = Some m ∨ on_path g m i p.
Proof using Hwf Hm.
  destruct (isReachableFromMain_ret g m Hwf Hm) as (N0 & HN0).
  exists (N0 + S (S (size (edges g)))). intros i K g' ra init Hi Hfr Hok Hinit.
  destruct (walk_loop g Hwf Backward to_main (λ _ _ H, proj1 H) [i] ltac:(set_solver) toMain_visit N0
    (λ V st, st.1.1 = g' ∧ cache_ok g st.1.2 ∧
       ∀ p, p ∈ st.2 ↔ p = Some m ∨ p ∈ V ∧ ∃ k, p = Some k ∧ rtc (calls g) m k)
    (g', ra, {[Some m]})) as ([[g1 ra'] X] & V & (Hg1 & Hok' & HX) & HV & Hrun).
  - cbn [fst snd]. split_and!; [done..|]. set_solver.
  - intros V [[g1 ra1] X1] k (Hg1 & Hok1 & HX1) _ Hk Hlive. cbn [fst snd] in Hg1, Hok1, HX1 |- *. subst g1.
    destruct (HN0 g' ra1 (Some k) false (frame_same_callees Hfr)
      ltac:(by rewrite (frame_main Hfr)) Hok1) as (ra2 & b & Hb & Hok2 & Hbk). destruct b.
    + destruct (proj1 Hbk eq_refl) as (k' & [= <-] & Hmk).
      exists (g', ra2, {[Some k]} ∪ X1), (next g Backward (Some k)). split; [|cbn [fst snd]; split].
      * intros n Hn. unfold toMain_visit. cbn [fst snd]. rewrite Hb, bind_ret by done. cbn [fst snd].
        rewrite callers_ptr_ret by first [by apply (frame_wf Hfr)|by apply (frame_live Hfr)].
        by rewrite (frame_next Hfr).
      * intros p. rewrite (elem_of_callers g k p Hwf). unfold to_main, linked. naive_solver.
      * split_and!; [done..|]. intros p. rewrite !elem_of_union, HX1, elem_of_singleton. naive_solver.
    + assert (¬ rtc (calls g) m k) as Hnk by (intros ?; assert (false = true) by (apply Hbk; eauto); done).
      exists (g', ra2, X1), ∅. split.
      { intros n Hn. unfold toMain_visit. cbn [fst snd]. by rewrite Hb, iter_set_empty. }
      split; [unfold to_main; set_solver|]. cbn [fst snd]. split_and!; [done..|].
      intros p. rewrite HX1. set_solver.
  - cbn [fst snd] in Hg1, Hok', HX. subst g1. exists ra', X. split_and!; [|done|].
    { intros fuel Hf. unfold allNodesToMain. rewrite Hinit. cbn in Hrun. by rewrite Hrun by lia. }
    intros p. rewrite HX, HV.
    unfold walked_to, on_path. split; [intros [?|[(k & -> & i' & Hi' & Hr) (k' & [= <-] & Hmk)]]|
      intros [?|(k & -> & Hmk & Hki)]]; [by left| |by left|].
    + right. exists k. split_and!; [done..|]. apply list_elem_of_singleton in Hi' as ->. by apply rtc_to_main.
    + right. split; [|by exists k]. exists k. split; [done|]. exists i. split; [set_solver|]. by apply to_main_path.
Qed.
End toMain.

(** ** Instrumentation paths *)

Section path.
Context `{!MDCast InstrumentationMetaData}.
Context (g : Callgraph) (Hwf : wf g).

(** The edges [getInstrumentationPath] follows: from nodes that are not
    marked to their callers. *)
Definition unmarked_up (j k : NodeId) : Prop := calls g k j ∧ mark g j = Some NotInstrumented.

(** All nodes have well-typed instrumentation metadata, or none. *)
Definition marks_ok : Prop := ∀ i, live g i → is_Some (mark g i).

Lemma path_visit_ret g1 i s : frame {[IMD_key]} g g1 → (∀ j, mark g1 j = mark g j) → mark g i = Some s →
  ∃ g2 X, path_visit g1 (Some i) ⇓ (g2, iter_set X) ∧ frame {[IMD_key]} g g2 ∧
    (∀ j, mark g2 j = mark g j) ∧ ∀ p, p ∈ X ↔ ∃ j, p = Some j ∧ unmarked_up i j.
Proof using Hwf.
  intros Hf Hm Hs. assert (mark g1 i = Some s) as Hs1 by by rewrite Hm.
  assert (live g i) as Hi by by eapply mark_live.
  destruct (isInstrumented_ret g1 i s Hs1) as (g2 & Hr2 & Hf2 & Hm2).
  destruct (isInstrumentedPath_ret g2 i s ltac:(by rewrite Hm2)) as (g3 & Hr3 & Hf3 & Hm3).
  pose proof (frame_trans _ _ _ _ Hf Hf2) as Hf12. pose proof (frame_trans _ _ _ _ Hf12 Hf3) as Hf13.
  unfold path_visit. rewrite Hr2, bind_ret. cbn [fst snd].
  destruct (decide (s = Instrumented)) as [->|Hne1].
  { exists g2, ∅. rewrite bool_decide_true by done. rewrite iter_set_empty. split_and!; [done|done|by intros; rewrite Hm2|].
    unfold unmarked_up. set_solver. }
  rewrite bool_decide_false by done. rewrite Hr3, bind_ret. cbn [fst snd].
  destruct (decide (s = InstrumentedPath)) as [->|Hne2].
  { exists g3, ∅. rewrite bool_decide_true by done. rewrite iter_set_empty. split_and!; [done|done|by intros; rewrite Hm3, Hm2|].
    unfold unmarked_up. set_solver. }
  rewrite bool_decide_false by done.
  rewrite callers_ptr_ret by first [by apply (frame_wf Hf13)|by apply (frame_live Hf13)].
  rewrite bind_ret, (frame_next Hf13). exists g3, (next g Backward (Some i)).
  split_and!; [|done|by intros; rewrite Hm3, Hm2|].
  - destruct (decide (next g Backward (Some i) = ∅)) as [He|]; [|reflexivity]. by rewrite He, iter_set_empty.
  - intros p. rewrite (elem_of_callers g i p Hwf). unfold unmarked_up. destruct s; naive_solver.
Qed.

(** C25: In a graph that satisfies the invariant and in which no node has
    instrumentation metadata of a wrong type, [getInstrumentationPath] from a
    node of the graph returns exactly the nodes that are connected to it
    upwards by a chain of calls on which every callee is unmarked: the start
    node, its callers if it is not marked, and so on up to the nearest marked
    nodes.  It returns as soon as the fuel is larger than the number of edges
    plus one; marks stay as they are, and it may only add unset instrumentation
    metadata to nodes. *)
Theorem getInstrumentationPath_correct i fuel :
  marks_ok → live g i → S (size (edges g)) < fuel →
  ∃ g' X, getInstrumentationPath g fuel (Some i) ⇓ (g', X) ∧ frame {[IMD_key]} g g' ∧
    (∀ j, mark g' j = mark g j) ∧
    ∀ p, p ∈ X ↔ ∃ j, p = Some j ∧ rtc unmarked_up i j.
Proof using Hwf.
  intros Hok Hi Hf.
  destruct (walk_loop g Hwf Backward unmarked_up (λ _ _ H, proj1 H) [i] ltac:(set_solver) (λ _, path_visit) 0
    (λ _ g1, frame {[IMD_key]} g g1 ∧ ∀ j, mark g1 j = mark g j) g)
    as (g' & X & [Hf' Hm'] & HX & Hrun); [by split; [apply frame_refl|]| |].
  - intros V g1 k [Hf1 Hm1] _ _ Hk. destruct (Hok k Hk) as [s Hs].
    destruct (path_visit_ret g1 k s Hf1 Hm1 Hs) as (g2 & Y & Hr & Hf2 & Hm2 & HY). exists g2, Y. split_and!; [by intros|done..].
  - exists g', X. split_and!; [apply (Hrun 0); [lia|cbn [length]; lia]|done..|]. intros p. rewrite HX. unfold walked_to.
    set_solver.
Qed.
End path.
End props.
