(* ===== verification/InclusiveCounts.v ===== *)
(** * PGIS: inclusive statement counts

    What the recursion of [calculateInclusiveStatementCounts]
    ([pgis/lib/src/CgHelper.cpp]) computes on a graph without cycles: every
    function reachable from the start gets its own statements plus the counts
    of its callees, or, for a virtual function without statements, the largest
    count among its callees. *)

From S2P Require Import Prelude Json MetaData BuiltinMD Callgraph CallgraphWf.
From S2P Require Import CallgraphOps CallgraphSpec CallgraphProps Worklist Reach.
From S2P Require Import Dominators PgisMD PgisAccess PgisWalk CgHelper.

Lemma to_ullong_add a b : to_ullong (to_ullong a + b) = to_ullong (a + b).
Proof. unfold to_ullong. by rewrite Zplus_mod_idemp_l. Qed.

Section counts.
Context {JO : JsonOps} {MDI : MetaDataI} {IO : IterOrder}.
Context `{!MDCast PiraOneData} `{!MDCast LIMetaData}.
Context (g : Callgraph) (Hwf : wf g).
(** The statements of the functions, and which of them are virtual. *)
Context (stm : NodeId → Z) (vir : NodeId → bool).

Definition count_keys : gset string := {[T_key PiraOneData; T_key LIMetaData]}.

(** The graph differs from [g] in the metadata of the two classes only, and
    has the given statements. *)
Record counting (g1 : Callgraph) : Prop := {
  cn_frame : frame count_keys g g1;
  cn_stm : ∀ i, live g i → ∃ pod, md_view PiraOneData g1 i = Some pod ∧ numStmts pod = stm i;
  cn_vir : ∀ i, live g i → ∃ li, md_view LIMetaData g1 i = Some li ∧ isVirtualFunction li = vir i
}.

(** The stored inclusive count. *)
Definition incl (g1 : Callgraph) (i : NodeId) : Z :=
  match md_view LIMetaData g1 i with Some li => inclusiveStatements li | None => 0 end.

Definition approximated (i : NodeId) : bool := vir i && bool_decide (stm i = 0%Z).

(** The count of [i] from the counts of its callees. *)
Definition add_child (i : NodeId) (acc z : Z) : Z :=
  if approximated i then Z.max acc z else to_ullong (acc + z).

Definition child_count (f : NodeId → Z) (p : NodePtr) : Z :=
  match p with Some j => f j | None => 0 end.

Definition total (i : NodeId) (f : NodeId → Z) : Z :=
  foldl (add_child i) (to_ullong (stm i)) (child_count f <$> elements (next g Forward (Some i))).

Definition node_eq (g1 : Callgraph) (i : NodeId) : Prop := incl g1 i = total i (incl g1).

Lemma add_child_comm i acc z1 z2 : add_child i (add_child i acc z1) z2 = add_child i (add_child i acc z2) z1.
Proof.
  unfold add_child. destruct (approximated i); [lia|]. rewrite !to_ullong_add. f_equal. lia.
Qed.

Lemma foldl_add_child_perm i acc l l' : l ≡ₚ l' → foldl (add_child i) acc l = foldl (add_child i) acc l'.
Proof.
  intros Hp. revert acc. induction Hp as [|z l l' _ IH|z1 z2 l|l1 l2 l3 _ IH1 _ IH2]; intros acc; simpl.
  - done.
  - apply IH.
  - by rewrite add_child_comm.
  - by rewrite IH1.
Qed.

Lemma total_iter i f :
  total i f = foldl (add_child i) (to_ullong (stm i)) (child_count f <$> iter_set (next g Forward (Some i))).
Proof. unfold total. apply foldl_add_child_perm, fmap_Permutation. by rewrite iter_set_perm. Qed.

(** The total only depends on the counts of the callees. *)
Lemma total_ext i f f' : (∀ j, calls g i j → f j = f' j) → total i f = total i f'.
Proof using Hwf.
  intros Hff. unfold total. f_equal. apply list_fmap_ext. intros k p Hp.
  apply list_elem_of_lookup_2, elem_of_elements, (elem_of_callees g i p Hwf) in Hp as (j & -> & Hj).
  by apply Hff.
Qed.

Lemma node_eq_ext g1 g2 i : incl g2 i = incl g1 i → (∀ j, calls g i j → incl g2 j = incl g1 j) →
  node_eq g1 i → node_eq g2 i.
Proof using Hwf. unfold node_eq. intros -> Hc ->. apply total_ext. intros j Hj. symmetry. by apply Hc. Qed.

(** ** Steps on the metadata *)

Lemma counting_refl :
  (∀ i, live g i → ∃ pod, md_view PiraOneData g i = Some pod ∧ numStmts pod = stm i) →
  (∀ i, live g i → ∃ li, md_view LIMetaData g i = Some li ∧ isVirtualFunction li = vir i) →
  counting g.
Proof using Type. clear Hwf. intros. split; [apply frame_refl|done..]. Qed.

(** What reading and writing one of the two classes leaves alone. *)
Lemma counting_read_pod g1 i : counting g1 → live g i →
  ∃ g2 pod, ptr_getOrCreate PiraOneData g1 (Some i) ⇓ (g2, pod) ∧ numStmts pod = stm i ∧
    counting g2 ∧ ∀ j, incl g2 j = incl g1 j.
Proof using Type.
  clear Hwf.
  intros [Hf Hs Hv] Hi. destruct (Hs i Hi) as (pod & Hpod & Hn).
  destruct (ptr_getOrCreate_ret _ g1 i pod Hpod) as (g2 & Hr & Hf2 & Hv2). exists g2, pod.
  assert (∀ j, md_view LIMetaData g2 j = md_view LIMetaData g1 j) as Hli
    by (intros j; by eapply md_view_frame; [exact Hf2|]; apply not_elem_of_singleton).
  split_and!; [done|done| |by intros j; unfold incl; rewrite Hli].
  split; [|by setoid_rewrite Hv2|by setoid_rewrite Hli].
  eapply frame_trans; [exact Hf|]. eapply frame_mono; [|exact Hf2]. unfold count_keys. set_solver.
Qed.

Lemma counting_read_li g1 i : counting g1 → live g i →
  ∃ g2 li, ptr_getOrCreate LIMetaData g1 (Some i) ⇓ (g2, li) ∧ isVirtualFunction li = vir i ∧
    inclusiveStatements li = incl g1 i ∧ counting g2 ∧ ∀ j, incl g2 j = incl g1 j.
Proof using Type.
  clear Hwf.
  intros [Hf Hs Hv] Hi. destruct (Hv i Hi) as (li & Hli & Hb).
  destruct (ptr_getOrCreate_ret _ g1 i li Hli) as (g2 & Hr & Hf2 & Hv2). exists g2, li.
  assert (∀ j, md_view PiraOneData g2 j = md_view PiraOneData g1 j) as Hpod
    by (intros j; by eapply md_view_frame; [exact Hf2|]; apply not_elem_of_singleton).
  split_and!; [done|done|by unfold incl; rewrite Hli| |by intros j; unfold incl; rewrite Hv2].
  split; [|by setoid_rewrite Hpod|by setoid_rewrite Hv2].
  eapply frame_trans; [exact Hf|]. eapply frame_mono; [|exact Hf2]. unfold count_keys. set_solver.
Qed.

Lemma counting_write_li g1 i z : counting g1 → live g i →
  ∃ g2, ptr_modify LIMetaData (setNumberOfInclusiveStatements z) g1 (Some i) ⇓ g2 ∧
    counting g2 ∧ incl g2 i = z ∧ ∀ j, j ≠ i → incl g2 j = incl g1 j.
Proof using Type.
  clear Hwf.
  intros [Hf Hs Hv] Hi. destruct (Hv i Hi) as (li & Hli & Hb).
  destruct (ptr_modify_ret _ (setNumberOfInclusiveStatements z) g1 i li Hli) as (g2 & Hr & Hf2 & Hv2).
  exists g2.
  assert (∀ j, md_view PiraOneData g2 j = md_view PiraOneData g1 j) as Hpod
    by (intros j; by eapply md_view_frame; [exact Hf2|]; apply not_elem_of_singleton).
  split_and!; [done| | |].
  - split; [|by setoid_rewrite Hpod|].
    + eapply frame_trans; [exact Hf|]. eapply frame_mono; [|exact Hf2]. unfold count_keys. set_solver.
    + intros j Hj. rewrite Hv2. case_decide as E; [|by apply Hv]. subst j. by eexists.
  - unfold incl. by rewrite Hv2, decide_True.
  - intros j Hj. unfold incl. by rewrite Hv2, decide_False.
Qed.

(** ** The recursion *)

(** The visited nodes reachable from [i] are finished. *)
Definition finished (g1 : Callgraph) (V : gset NodePtr) (i : NodeId) : Prop :=
  ∀ x, Some x ∈ V → rtc (calls g) i x → node_eq g1 x ∧ ∀ y, calls g x y → Some y ∈ V.

Lemma finished_closed g1 V i : finished g1 V i → Some i ∈ V →
  ∀ x, rtc (calls g) i x → Some x ∈ V ∧ node_eq g1 x.
Proof using Type.
  clear Hwf. intros Hfin Hi. assert (∀ x, rtc (calls g) i x → Some x ∈ V) as HV.
  { apply (rtc_ind_r (λ x, Some x ∈ V) i); [done|]. intros y z Hy Hyz Hin.
    by apply (proj2 (Hfin y Hin Hy)). }
  intros x Hx. split; [by apply HV|]. apply Hfin; [by apply HV|done].
Qed.

(** What a visit of [i] from [(g1, V)] leaves behind. *)
Record visited_from (g1 : Callgraph) (V : gset NodePtr) (i : NodeId) (g2 : Callgraph)
    (V2 : gset NodePtr) (z : Z) : Prop := {
  vf_counting : counting g2;
  vf_grows : V ⊆ V2;
  vf_only : ∀ p, p ∈ V2 → p ∈ V ∨ ∃ x, p = Some x ∧ rtc (calls g) i x;
  vf_keeps : ∀ x, Some x ∈ V → incl g2 x = incl g1 x;
  vf_result : incl g2 i = z;
  vf_done : ∀ x, rtc (calls g) i x → Some x ∈ V2 ∧ node_eq g2 x
}.

(** The loop over the callees of [i], after those in [dn]. *)
Record children_done (g1 : Callgraph) (V : gset NodePtr) (i : NodeId) (dn : list NodePtr)
    (st : Callgraph * gset NodePtr * Z) : Prop := {
  cd_counting : counting st.1.1;
  cd_grows : {[Some i]} ∪ V ⊆ st.1.2;
  cd_only : ∀ p, p ∈ st.1.2 → p ∈ {[Some i]} ∪ V ∨
    ∃ c x, Some c ∈ dn ∧ p = Some x ∧ rtc (calls g) c x;
  cd_keeps : ∀ x, Some x ∈ {[Some i]} ∪ V → incl st.1.1 x = incl g1 x;
  cd_done : ∀ c x, Some c ∈ dn → rtc (calls g) c x → Some x ∈ st.1.2 ∧ node_eq st.1.1 x;
  cd_sum : st.2 = foldl (add_child i) (to_ullong (stm i)) (child_count (incl st.1.1) <$> dn)
}.

Context (Hacyclic : ∀ i j, calls g i j → ¬ rtc (calls g) j i).

(** Before a callee [c] is visited, what is visited of it is finished. *)
Lemma children_finished g1 V i dn st c :
  finished g1 V i → children_done g1 V i dn st → calls g i c → finished st.1.1 st.1.2 c.
Proof using Hwf Hacyclic.
  intros Hfin [Hc Hgr Hon Hk Hdn _] Hic x Hx Hcx.
  assert (rtc (calls g) i x) as Hix by by eapply rtc_l.
  destruct (Hon _ Hx) as [HV|(c' & x' & Hc' & [= <-] & Hr)].
  - assert (Some x ∈ V) as HxV.
    { apply elem_of_union in HV as [[= ->]%elem_of_singleton|?]; [|done]. by destruct (Hacyclic i c Hic). }
    destruct (Hfin x HxV Hix) as [Heq Hcl]. split; [|intros y Hy; apply Hgr; set_solver].
    apply (node_eq_ext g1); [by apply Hk|intros y Hy; apply Hk; set_solver|done].
  - split; [by apply (Hdn c')|]. intros y Hy. apply (Hdn c'); [done|]. by eapply rtc_r.
Qed.

(** A visit of the next callee. *)
Lemma children_step g1 V i dn st c g2 V2 z :
  children_done g1 V i dn st → calls g i c → visited_from st.1.1 st.1.2 c g2 V2 z →
  children_done g1 V i (dn ++ [Some c]) (g2, V2, add_child i st.2 z).
Proof using Hwf Hacyclic.
  intros [Hc Hgr Hon Hk Hdn Hsum] Hic [Hc2 Hgr2 Hon2 Hk2 Hz Hdn2].
  assert (∀ c' x, Some c' ∈ dn → rtc (calls g) c' x → incl g2 x = incl st.1.1 x) as Hsame.
  { intros c' x Hc' Hx. apply Hk2. by apply (Hdn c'). }
  split; cbn [fst snd].
  - done.
  - set_solver.
  - intros p Hp. destruct (Hon2 p Hp) as [HV|(x & -> & Hx)].
    + destruct (Hon p HV) as [?|(c' & x & Hc' & -> & Hx)]; [by left|right].
      exists c', x. split_and!; [|done..]. apply elem_of_app. by left.
    + right. exists c, x. split_and!; [|done..]. set_solver.
  - intros x Hx. rewrite Hk2; [by apply Hk|]. set_solver.
  - intros c' x [Hc'|[= ->]%list_elem_of_singleton]%elem_of_app Hx; [|by apply Hdn2].
    destruct (Hdn c' x Hc' Hx) as [HV Heq]. split; [set_solver|].
    apply (node_eq_ext st.1.1); [by eapply Hsame| |done]. intros y Hy. eapply Hsame; [done|]. by eapply rtc_r.
  - rewrite fmap_app, foldl_app. cbn [foldl fmap list_fmap child_count]. rewrite Hz. f_equal.
    rewrite Hsum. f_equal. apply list_fmap_ext. intros k [c'|] Hc'%list_elem_of_lookup_2; [|done].
    simpl. symmetry. by eapply Hsame.
Qed.

(** After the last callee the count of [i] is stored. *)
Lemma children_finish g1 V i st g2 :
  live g i → Some i ∉ V →
  children_done g1 V i (iter_set (next g Forward (Some i))) st →
  counting g2 → incl g2 i = st.2 → (∀ j, j ≠ i → incl g2 j = incl st.1.1 j) →
  visited_from g1 V i g2 st.1.2 st.2.
Proof using Hwf Hacyclic.
  intros Hi HV [Hc Hgr Hon Hk Hdn Hsum] Hc2 Hii Hother.
  assert (∀ c, calls g i c ↔ Some c ∈ iter_set (next g Forward (Some i))) as Hcs.
  { intros c. rewrite elem_of_iter_set, (elem_of_callees g i _ Hwf). naive_solver. }
  assert (∀ c x, calls g i c → rtc (calls g) c x → x ≠ i) as Hne by (intros c x Hic Hr ->; by eapply Hacyclic).
  assert (∀ c x, calls g i c → rtc (calls g) c x → Some x ∈ st.1.2 ∧ node_eq g2 x) as Hdone.
  { intros c x Hic Hr. destruct (Hdn c x) as [HVx Heq]; [by apply Hcs|done|]. split; [done|].
    apply (node_eq_ext st.1.1); [by apply Hother, (Hne c)| |done]. intros y Hy. apply Hother, (Hne c); [done|].
    by eapply rtc_r. }
  split.
  - done.
  - set_solver.
  - intros p Hp. destruct (Hon p Hp) as [[->%elem_of_singleton|?]%elem_of_union|(c & x & Hcd & -> & Hr)].
    + right. by exists i.
    + by left.
    + right. exists x. split; [done|]. eapply rtc_l; [by apply Hcs|done].
  - intros x Hx. rewrite Hother by congruence. apply Hk. set_solver.
  - done.
  - intros x Hx. inversion Hx as [|? c ? Hic Hr]; subst; [|by eapply Hdone]. split; [set_solver|].
    unfold node_eq. rewrite Hii, Hsum, total_iter. f_equal. apply list_fmap_ext.
    intros k [c|] Hcd%list_elem_of_lookup_2; [|done]. simpl. symmetry. apply Hother, (Hne c); [by apply Hcs|done].
Qed.

Lemma finished_ext g1 g2 V i : (∀ j, incl g2 j = incl g1 j) → finished g1 V i → finished g2 V i.
Proof using Hwf.
  intros He Hfin x Hx Hr. destruct (Hfin x Hx Hr) as [Heq Hcl]. split; [|done].
  by apply (node_eq_ext g1).
Qed.

Lemma visited_from_ext g1 g1' V i g2 V2 z :
  (∀ j, incl g1' j = incl g1 j) → visited_from g1 V i g2 V2 z → visited_from g1' V i g2 V2 z.
Proof using Type. clear Hwf Hacyclic. intros He [? ? ? Hk ? ?]. split; try done. intros x Hx. by rewrite He, Hk. Qed.

(** The condition the code evaluates for every callee. *)
Lemma test_approximated g1 i : counting g1 → live g i →
  ∃ g2, (li ← ptr_getOrCreate LIMetaData g1 (Some i);
         if isVirtualFunction li.2
         then pod ← ptr_getOrCreate PiraOneData li.1 (Some i);
              Ret (pod.1, bool_decide (numStmts pod.2 = 0%Z))
         else Ret (li.1, false)) ⇓ (g2, approximated i) ∧ counting g2 ∧ ∀ j, incl g2 j = incl g1 j.
Proof using Type.
  clear Hwf Hacyclic. intros Hc Hi.
  destruct (counting_read_li g1 i Hc Hi) as (g2 & li & -> & Hv & _ & Hc2 & He2). rewrite bind_ret. cbn [fst snd].
  unfold approximated. rewrite Hv. destruct (vir i); [|by exists g2].
  destruct (counting_read_pod g2 i Hc2 Hi) as (g3 & pod & -> & Hs & Hc3 & He3). rewrite bind_ret. cbn [fst snd].
  exists g3. rewrite Hs. split_and!; [done..|]. intros j. by rewrite He3.
Qed.

Lemma calls_live i j : calls g i j → live g i ∧ live g j.
Proof using Hwf. apply (wf_edges _ Hwf). Qed.

Lemma reached_live i j : rtc (calls g) i j → live g i → live g j.
Proof using Hwf. intros Hr Hi. by eapply (rtc_calls_live g Hwf). Qed.

Lemma visit_ret fuel : ∀ g1 V i,
  live g i → counting g1 → finished g1 V i → size (slots g ∖ V) < fuel →
  ∃ g2 V2 z, visitNodeForInclusiveStatements fuel g1 V (Some i) ⇓ (g2, V2, z) ∧
    visited_from g1 V i g2 V2 z.
Proof using Hwf Hacyclic.
  induction fuel as [|fuel IH]; intros g1 V i Hi Hc Hfin Hfuel; [lia|].
  simpl. destruct (decide (Some i ∈ V)) as [HV|HV].
  - destruct (counting_read_li g1 i Hc Hi) as (g2 & li & -> & _ & Hz & Hc2 & He2). rewrite bind_ret.
    cbn [fst snd]. do 3 eexists. split; [done|]. split; [done|done|by left|done|by rewrite Hz, He2|].
    intros x Hx. by apply (finished_closed g2 V i (finished_ext g1 g2 V i He2 Hfin)).
  - destruct (counting_read_pod g1 i Hc Hi) as (g2 & pod & -> & Hs & Hc2 & He2). rewrite bind_ret.
    cbn [fst snd]. rewrite callees_ptr_ret by first [by eapply frame_wf; [apply Hc2|]|by eapply frame_live; [apply Hc2|]].
    rewrite bind_ret, (frame_next (cn_frame _ Hc2)). rewrite Hs.
    match goal with |- context [foldM ?f ?b ?l] => destruct (foldM_ind (children_done g1 V i) f l b)
      as (st & -> & Hst) end.
    + split; cbn [fst snd]; [done|done|by left|by intros; apply He2|by intros ?? ?%elem_of_nil|done].
    + intros dn p rest st Hl Hst.
      assert (p ∈ next g Forward (Some i)) as Hp by (apply elem_of_iter_set; rewrite Hl; set_solver).
      apply (elem_of_callees g i p Hwf) in Hp as (c & -> & Hic).
      destruct (test_approximated st.1.1 i (cd_counting _ _ _ _ _ Hst) Hi) as (g3 & Htest & Hc3 & He3).
      destruct (IH g3 st.1.2 c) as (g4 & V4 & z & Hrun & Hvis); [by apply (calls_live i c)|done| | |].
      * apply (finished_ext st.1.1); [done|]. by eapply children_finished.
      * assert (Some i ∈ slots g) as His.
        { apply elem_of_list_to_set, list_elem_of_fmap_2, elem_of_seq. apply live_lt in Hi. lia. }
        enough (size (slots g ∖ st.1.2) < size (slots g ∖ V)) by lia.
        apply subset_size. pose proof (cd_grows _ _ _ _ _ Hst). set_solver.
      * exists (g4, V4, add_child i st.2 z). split.
        -- destruct (ptr_getOrCreate LIMetaData st.1.1 (Some i)) as [li| | | |] eqn:Eli; try done.
           cbn in Htest |- *. rewrite Htest, bind_ret. cbn [fst snd]. by rewrite Hrun, bind_ret.
        -- eapply children_step; [done|done|]. by eapply visited_from_ext; [intros j; symmetry; apply He3|].
    + rewrite bind_ret. destruct (counting_write_li st.1.1 i st.2 (cd_counting _ _ _ _ _ Hst) Hi)
        as (g5 & -> & Hc5 & Hz5 & Ho5). rewrite bind_ret. do 3 eexists. split; [done|].
      by apply children_finish.
Qed.

(** C24: on a graph without cycles the recursion returns, never deeper than
    there are nodes, and afterwards the inclusive count of every function
    reachable from the start is determined by the counts of its callees: their
    sum with its own statements (modulo 2^64), or their maximum for a virtual
    function without statements.  A function called on several paths counts
    once per call edge. *)
Theorem inclusive_counts_correct (i : NodeId) (fuel : nat) :
  (∀ j, live g j → ∃ pod, md_view PiraOneData g j = Some pod ∧ numStmts pod = stm j) →
  (∀ j, live g j → ∃ li, md_view LIMetaData g j = Some li ∧ isVirtualFunction li = vir j) →
  live g i → length (nodes g) < fuel →
  ∃ g', calculateInclusiveStatementCounts g fuel (Some i) ⇓ g' ∧ frame count_keys g g' ∧
    ∀ x, rtc (calls g) i x → incl g' x = total x (incl g').
Proof using Hwf Hacyclic.
  intros Hs Hv Hi Hf. destruct (visit_ret fuel g ∅ i Hi) as (g' & V & z & Hrun & Hvis).
  - by apply counting_refl.
  - intros x ?%elem_of_empty. done.
  - replace (slots g ∖ ∅) with (slots g) by set_solver. rewrite size_slots. lia.
  - exists g'. unfold calculateInclusiveStatementCounts. rewrite Hrun, bind_ret. split_and!; [done| |].
    + apply (vf_counting _ _ _ _ _ _ Hvis).
    + intros x Hx. by apply (vf_done _ _ _ _ _ _ Hvis).
Qed.
End counts.
