(* ===== verification/PgisConfig.v ===== *)
(** * PGIS: options

    [pgis/lib/include/config/GlobalConfig.h]: the selections that can be made
    on the command line, how they are read from text, and the store of option
    values, which every phase asks when it runs. *)

From Stdlib Require Import Ascii.
From S2P Require Import Prelude Util.

(** ** Selections *)

Inductive HeuristicSelection :=
  | STATEMENTS | CONDITIONALBRANCHES | CONDITIONALBRANCHES_REVERSE | FP_MEM_OPS | LOOPDEPTH
  | GlOBAL_LOOPDEPTH.
Inductive CuttoffSelection := MAX | MEDIAN | UNIQUE_MEDIAN.
Inductive OverheadSelection := OverheadNone | Random | TimePerCall | TimePerCallKeepSmall.
Inductive DotExportSelection := DotNone | BEGIN | END | ALL.

#[export] Instance HeuristicSelection_eq_dec : EqDecision HeuristicSelection.
Proof. solve_decision. Defined.
#[export] Instance CuttoffSelection_eq_dec : EqDecision CuttoffSelection.
Proof. solve_decision. Defined.
#[export] Instance OverheadSelection_eq_dec : EqDecision OverheadSelection.
Proof. solve_decision. Defined.
#[export] Instance DotExportSelection_eq_dec : EqDecision DotExportSelection.
Proof. solve_decision. Defined.

(** [::tolower] on every character. *)
Definition tolower (c : ascii) : ascii :=
  let n := nat_of_ascii c in
  if decide (65 ≤ n ∧ n ≤ 90) then ascii_of_nat (n + 32) else c.
Fixpoint lower (s : string) : string :=
  match s with EmptyString => EmptyString | String c s => String (tolower c) (lower s) end.

(** [is >> name]: the first word of the stream, empty if there is none. *)
Fixpoint take_word (s : string) : string :=
  match s with
  | EmptyString => EmptyString
  | String c s => if is_space c then EmptyString else String c (take_word s)
  end.
Fixpoint read_word (s : string) : string :=
  match s with
  | EmptyString => EmptyString
  | String c s' => if is_space c then read_word s' else take_word s
  end.

(** The [operator>>] of the selections; [out] is the value before.  An unknown
    name ends the program. *)
Definition read_heuristic (input : string) (out : HeuristicSelection) : outcome HeuristicSelection :=
  let name := read_word input in
  if decide (name = "") then Ret out
  else
    let name := lower name in
    if decide (name = "statements") then Ret STATEMENTS
    else if decide (name = "conditionalbranches") then Ret CONDITIONALBRANCHES
    else if decide (name = "conditionalbranches_reverse") then Ret CONDITIONALBRANCHES_REVERSE
    else if decide (name = "fp_and_mem_ops") then Ret FP_MEM_OPS
    else if decide (name = "loopdepth") then Ret LOOPDEPTH
    else if decide (name = "global_loopdepth") then Ret GlOBAL_LOOPDEPTH
    else Throw (process_exit (-1)).

Definition read_cuttoff (input : string) (out : CuttoffSelection) : outcome CuttoffSelection :=
  let name := read_word input in
  if decide (name = "") then Ret out
  else
    let name := lower name in
    if decide (name = "max") then Ret MAX
    else if decide (name = "median") then Ret MEDIAN
    else if decide (name = "unique_median") then Ret UNIQUE_MEDIAN
    else Throw (process_exit (-1)).

Definition read_overhead (input : string) (out : OverheadSelection) : outcome OverheadSelection :=
  let name := read_word input in
  if decide (name = "") then Ret out
  else
    let name := lower name in
    if decide (name = "none") then Ret OverheadNone
    else if decide (name = "random") then Ret Random
    else if decide (name = "time_per_call") then Ret TimePerCall
    else if decide (name = "time_per_call_keep_small") then Ret TimePerCallKeepSmall
    else Throw (process_exit (-1)).

(** Unknown values and "none" leave the mode as it is. *)
Definition read_dot_export (input : string) (out : DotExportSelection) : DotExportSelection :=
  let inVal := lower (read_word input) in
  if decide (inVal = "begin") then BEGIN
  else if decide (inVal = "end") then END
  else if decide (inVal = "all") then ALL
  else out.

(** ** [GlobalConfig] *)

(** A [std::any] that holds an option. *)
Inductive OptionValue :=
  | AnyBool (b : bool)
  | AnyInt (z : Z)
  | AnyString (s : string)
  | AnyHeuristic (h : HeuristicSelection)
  | AnyCuttoff (c : CuttoffSelection)
  | AnyOverhead (o : OverheadSelection)
  | AnyDotExport (d : DotExportSelection).

(** [std::any_cast<ReTy>], which throws for a value of another type, and
    [ReTy()]. *)
Class OptionType (T : Type) := {
  any_cast : OptionValue → option T;
  opt_new : T
}.
#[export] Instance bool_option : OptionType bool :=
  {| any_cast v := match v with AnyBool b => Some b | _ => None end; opt_new := false |}.
#[export] Instance int_option : OptionType Z :=
  {| any_cast v := match v with AnyInt z => Some z | _ => None end; opt_new := 0%Z |}.
#[export] Instance string_option : OptionType string :=
  {| any_cast v := match v with AnyString s => Some s | _ => None end; opt_new := "" |}.
#[export] Instance heuristic_option : OptionType HeuristicSelection :=
  {| any_cast v := match v with AnyHeuristic h => Some h | _ => None end; opt_new := STATEMENTS |}.
#[export] Instance cuttoff_option : OptionType CuttoffSelection :=
  {| any_cast v := match v with AnyCuttoff c => Some c | _ => None end; opt_new := UNIQUE_MEDIAN |}.
#[export] Instance overhead_option : OptionType OverheadSelection :=
  {| any_cast v := match v with AnyOverhead o => Some o | _ => None end; opt_new := OverheadNone |}.

Abbreviation GlobalConfig := (gmap string OptionValue).

Definition bad_any_cast : cpp_exn := runtime_error "bad any_cast".

Definition getOption (configOptions : GlobalConfig) (optionName : string) : option OptionValue :=
  configOptions !! optionName.

Definition getAs (T : Type) `{!OptionType T} (configOptions : GlobalConfig) (optionName : string)
    : outcome T :=
  match getOption configOptions optionName with
  | Some v => match any_cast v with Some t => Ret t | None => Throw bad_any_cast end
  | None => Ret opt_new
  end.

(** A stored option is never replaced. *)
Definition putOption (configOptions : GlobalConfig) (optionName : string) (value : OptionValue)
    : GlobalConfig * bool :=
  match configOptions !! optionName with
  | Some _ => (configOptions, false)
  | None => (<[optionName := value]> configOptions, true)
  end.

(** The names of the options the phases read. *)
Definition useCallSiteInstrumentation : string := "use-cs-instrumentation".
Definition onlyInstrumentEligibleNodes : string := "only-instrument-eligible-nodes".
Definition heuristicSelection : string := "heuristic-selection".
Definition cuttoffSelection : string := "cuttoff-selection".
Definition overheadSelection : string := "overhead-selection".
Definition scorepOut : string := "scorep-out".

Definition getSelectedHeuristic (cfg : GlobalConfig) : outcome HeuristicSelection :=
  getAs HeuristicSelection cfg heuristicSelection.
Definition getSelectedOverheadAlgorithm (cfg : GlobalConfig) : outcome OverheadSelection :=
  getAs OverheadSelection cfg overheadSelection.

(** ** The store *)

(** An option that was stored once keeps its value: storing another value
    is refused, and every later query of the right type sees the first one. *)
Theorem first_option_wins (T : Type) `{!OptionType T} (cfg : GlobalConfig) (name : string)
    (v v' : OptionValue) (t : T) :
  cfg !! name = None → any_cast v = Some t →
  let r := putOption cfg name v in
  let r' := putOption r.1 name v' in
  r.2 = true ∧ r'.2 = false ∧ getAs T r'.1 name ⇓ t.
Proof.
  intros Hn Hv. cbv zeta. unfold putOption. rewrite Hn. cbn [fst snd].
  rewrite lookup_insert_eq. cbn [fst snd].
  unfold getAs, getOption. by rewrite lookup_insert_eq, Hv.
Qed.
