(* ===== verification/PgisPhases.v ===== *)
(** * PGIS: estimator phases

    [pgis/lib/src/EstimatorPhase.cpp], [LegacyEstimatorPhases.cpp],
    [loadImbalance/OnlyMainEstimatorPhase.cpp], and from
    [IPCGEstimatorPhase.cpp] the phases that mark nodes without counting:
    [FirstNLevelsEstimatorPhase], [WLCallpathDifferentiationEstimatorPhase],
    [FillInstrumentationGapsPhase] and [StoreInstrumentationDecisionsPhase].

    A phase works on the graph its field [graph] points to.  The phases that
    pass [nullptr] to the base class have that pointer as a field here; for the
    others it is the graph argument. *)

From S2P Require Import Prelude Json MetaData BuiltinMD Callgraph CallgraphWf.
From S2P Require Import Reach Dominators PgisMD PgisAccess CgHelper PgisConfig.

(** ** [Utility.h] *)

(** [s.rfind("MPI_") == 0]: the last occurrence is at the beginning. *)
Definition MPI_prefix : string := "MPI_".

Fixpoint occurs (pat s : string) : bool :=
  String.prefix pat s ||
  match s with EmptyString => false | String _ s => occurs pat s end.

Definition rfind_at_0 (pat s : string) : bool :=
  String.prefix pat s && match s with EmptyString => true | String _ s => negb (occurs pat s) end.

Definition isMPIFunction {JO : JsonOps} {MDI : MetaDataI} (n : CgNode) : bool :=
  rfind_at_0 MPI_prefix (functionName n).

Section phases.
Context {JO : JsonOps} {MDI : MetaDataI} {IO : IterOrder} `{!PgisClasses}.

(** [std::any_of], [std::all_of] and [std::none_of] over nodes; the test may
    change the metadata of the graph, and stops at the first hit. *)
Fixpoint any_of (test : Callgraph → NodePtr → outcome (Callgraph * bool)) (g : Callgraph)
    (l : list NodePtr) : outcome (Callgraph * bool) :=
  match l with
  | [] => Ret (g, false)
  | p :: l => r ← test g p; if r.2 : bool then Ret (r.1, true) else any_of test r.1 l
  end.

Definition has_body (g : Callgraph) (p : NodePtr) : outcome (Callgraph * bool) :=
  n ← ptr_node g p; Ret (g, hasBody n).

Definition isEligibleForPathInstrumentation (graph : Callgraph) (node : NodePtr)
    (parents : list NodePtr) : outcome bool :=
  match parents with
  | [] => callers ← callers_ptr graph node;
          r ← any_of has_body graph (iter_set callers); Ret r.2
  | _ => r ← any_of (λ g p, r ← has_body g p; Ret (r.1, negb r.2)) graph parents; Ret (negb r.2)
  end.

Definition isLeafInstrumentationNode (graph : Callgraph) (node : NodePtr)
    : outcome (Callgraph * bool) :=
  callees ← callees_ptr graph node;
  r ← isAnyInstrumented graph node;
  if r.2 : bool then
    s ← any_of (λ g p, if decide (node ≠ p) then isAnyInstrumented g p else Ret (g, false))
          r.1 (iter_set callees);
    Ret (s.1, negb s.2)
  else Ret (r.1, false).

(** ** The configuration a phase produces *)

Record InstrumentationConfiguration := mkIC {
  phaseName : string;
  instrumentedNames : gset string;
  instrumentedNodes : gset NodePtr;
  instrumentedPaths : gmap string NodePtr;
  instrumentedEdges : gmap NodePtr NodePtr
}.

Definition IC_new : InstrumentationConfiguration := mkIC "" ∅ ∅ ∅ ∅.

Definition IC_add_node (name : string) (node : NodePtr) (ic : InstrumentationConfiguration) :=
  mkIC (phaseName ic) ({[name]} ∪ instrumentedNames ic) ({[node]} ∪ instrumentedNodes ic)
    (instrumentedPaths ic) (instrumentedEdges ic).

(** [insert] keeps the entry that is there. *)
Definition IC_add_path (name : string) (node : NodePtr) (ic : InstrumentationConfiguration) :=
  mkIC (phaseName ic) (instrumentedNames ic) (instrumentedNodes ic)
    (match instrumentedPaths ic !! name with
     | Some _ => instrumentedPaths ic
     | None => <[name := node]> (instrumentedPaths ic)
     end) (instrumentedEdges ic).

Definition generateIC_node (st : Callgraph * InstrumentationConfiguration) (node : NodePtr)
    : outcome (Callgraph * InstrumentationConfiguration) :=
  r ← isInstrumented st.1 node;
  if r.2 : bool then
    n ← ptr_node r.1 node; Ret (r.1, IC_add_node (functionName n) node st.2)
  else
    r ← isInstrumentedPath r.1 node;
    if r.2 : bool then
      n ← ptr_node r.1 node; Ret (r.1, IC_add_path (functionName n) node st.2)
    else Ret (r.1, st.2).

Definition generateIC (graph : Callgraph) (IC : InstrumentationConfiguration)
    : outcome (Callgraph * InstrumentationConfiguration) :=
  foldM generateIC_node (graph, IC) (node_ptrs graph).

(** ** [OnlyMainEstimatorPhase] *)

Definition OnlyMain_modifyGraph (graph : Callgraph) (mainMethod : NodePtr) : outcome Callgraph :=
  instrumentNode graph mainMethod.

(** ** [FirstNLevelsEstimatorPhase] *)

(** [graph] may be null; the nodes belong to the graph [g] all the same. *)
Record FirstNLevelsEstimatorPhase := mkFirstNLevels { fn_graph : option unit; levels : Z }.

Definition FirstNLevels_new (levels : Z) : FirstNLevelsEstimatorPhase :=
  mkFirstNLevels None levels.

(** [levelsLeft] counts down to 0 and is not tested for being negative. *)
Fixpoint instrumentLevel (fuel : nat) (graph : option unit) (g : Callgraph) (parentNode : NodePtr)
    (levelsLeft : Z) : outcome Callgraph :=
  match fuel with
  | 0 => OutOfFuel
  | S fuel =>
      if decide (levelsLeft = 0%Z) then Ret g
      else
        g ← instrumentNode g parentNode;
        _ ← deref graph;
        callees ← callees_ptr g parentNode;
        foldM (λ g childNode,
          l ← int_add levelsLeft (-1); instrumentLevel fuel graph g childNode l) g (iter_set callees)
  end.

Definition FirstNLevels_modifyGraph (ph : FirstNLevelsEstimatorPhase) (fuel : nat) (g : Callgraph)
    (mainMethod : NodePtr) : outcome Callgraph :=
  instrumentLevel fuel (fn_graph ph) g mainMethod (levels ph).

(** ** [WLInstrEstimatorPhase] *)

(** The hash function of the standard library is a parameter.  [init], the
    only function that fills the white list, is private and never called. *)
Record WLInstrEstimatorPhase := mkWLInstr { wi_graph : option unit; whiteList : gset Z }.

Definition WLInstr_new : WLInstrEstimatorPhase := mkWLInstr None ∅.

Definition WLInstr_init (hash : string → Z) (lines : option (list string))
    (isInitialized : bool) (ph : WLInstrEstimatorPhase) : outcome WLInstrEstimatorPhase :=
  if isInitialized then Ret ph
  else match lines with
       | None => Throw (process_exit 7)
       | Some l => Ret (mkWLInstr (wi_graph ph) (whiteList ph ∪ list_to_set (hash <$> l)))
       end.

(** The identifiers of nodes are looked up among the hashes of names. *)
Definition WLInstr_modifyGraph (ph : WLInstrEstimatorPhase) (g : Callgraph) : outcome Callgraph :=
  _ ← deref (wi_graph ph);
  foldM (λ g node,
    n ← ptr_node g node;
    if decide (Z.of_nat (node_id n) ∈ whiteList ph) then instrumentNode g node else Ret g)
    g (node_ptrs g).

(** ** [WLCallpathDifferentiationEstimatorPhase] *)

Fixpoint addNodeAndParentsToWhitelist (fuel : nat) (g : Callgraph) (whitelist : gset NodePtr)
    (node : NodePtr) : outcome (gset NodePtr) :=
  match fuel with
  | 0 => OutOfFuel
  | S fuel =>
      if decide (node ∈ whitelist) then Ret whitelist
      else
        parents ← callers_ptr g node;
        foldM (addNodeAndParentsToWhitelist fuel g) ({[node]} ∪ whitelist) (iter_set parents)
  end.

(** [lines] are the lines of the white list file, if it can be opened;
    [graph] is the pointer, null as the constructor leaves it. *)
Definition WLCallpath_modifyGraph (graph : option unit) (lines : option (list string)) (fuel : nat)
    (g : Callgraph) : outcome Callgraph :=
  match lines with
  | None => Throw (process_exit 1)
  | Some lines =>
      whitelist ← foldM (λ whitelist line,
        if decide (line = "") then Ret whitelist
        else
          _ ← deref graph;
          node ← getSingleNode g line;
          addNodeAndParentsToWhitelist fuel g whitelist (Some (node_id node))) ∅ lines;
      _ ← deref graph;
      foldM (λ g node,
        b ← isConjunction g node;
        if b && bool_decide (node ∈ (whitelist : gset NodePtr)) then
          parents ← callers_ptr g node; foldM instrumentNode g (iter_set parents)
        else Ret g) g (node_ptrs g)
  end.

(** ** [FillInstrumentationGapsPhase] *)

(** [nodesToFill] is a [std::set] ordered by the names of the nodes. *)
Record FillInstrumentationGapsPhase := mkFill {
  nodesToFill : gmap string NodePtr;
  useCSInstrumentation : bool;
  onlyEligibleNodes : bool
}.

Definition Fill_new (cfg : GlobalConfig) : outcome FillInstrumentationGapsPhase :=
  useCS ← getAs bool cfg useCallSiteInstrumentation;
  onlyEligible ← getAs bool cfg onlyInstrumentEligibleNodes;
  Ret (mkFill ∅ useCS onlyEligible).

(** [nodesToFill.insert(ntm)] keeps a node of the same name. *)
Definition insert_by_name (g : Callgraph) (s : gmap string NodePtr) (p : NodePtr)
    : outcome (gmap string NodePtr) :=
  n ← ptr_node g p;
  Ret (match s !! functionName n with Some _ => s | None => <[functionName n := p]> s end).

Definition fill_candidate (st : Callgraph * gmap string NodePtr) (ntm : NodePtr)
    : outcome (Callgraph * gmap string NodePtr) :=
  r ← isAnyInstrumented st.1 ntm;
  if r.2 : bool then Ret (r.1, st.2)
  else s ← insert_by_name r.1 st.2 ntm; Ret (r.1, s).

(** The first loop: the nodes on the paths to main. *)
Definition find_gaps_node (fuel : nat) (mainMethod : NodePtr)
    (st : Callgraph * ReachabilityAnalysis * gmap NodePtr (gset NodePtr) * gmap string NodePtr)
    (node : NodePtr)
    : outcome (Callgraph * ReachabilityAnalysis * gmap NodePtr (gset NodePtr) * gmap string NodePtr) :=
  let '(g, ra, pathsToMain, fill) := st in
  parents ← callers_ptr g node;
  r ← isAnyInstrumented g node;
  t ← (if r.2 : bool
       then any_of (λ g p, r ← isAnyInstrumented g p; Ret (r.1, negb r.2)) r.1 (iter_set parents)
       else Ret (r.1, false));
  if t.2 : bool then
    a ← allNodesToMain t.1 fuel node mainMethod pathsToMain ra;
    f ← foldM fill_candidate (a.1.1, fill) (iter_set a.2);
    Ret (f.1, a.1.2, <[node := a.2]> pathsToMain, f.2)
  else Ret (t.1, ra, pathsToMain, fill).

(** The second loop, over one node. *)
Definition fill_node (ph : FillInstrumentationGapsPhase) (g : Callgraph) (ntf : NodePtr)
    : outcome Callgraph :=
  mtd ← ptr_get InstrumentationResultMetaData g ntf;
  let never_called :=
    match mtd with
    | Some m => bool_decide (callCount m = 0%Z) && isExclusiveRuntime m
    | None => false
    end in
  if never_called then Ret g
  else
    n ← ptr_node g ntf;
    if hasBody n || isMPIFunction n || (negb (onlyEligibleNodes ph) && negb (useCSInstrumentation ph))
    then instrumentNode g ntf
    else if useCSInstrumentation ph then
      if onlyEligibleNodes ph then
        b ← isEligibleForPathInstrumentation g ntf [];
        if b : bool then instrumentPathNode g ntf else Ret g
      else instrumentPathNode g ntf
    else Ret g.

Definition Fill_modifyGraph (ph : FillInstrumentationGapsPhase) (fuel : nat) (graph : Callgraph)
    (mainMethod : NodePtr) : outcome (FillInstrumentationGapsPhase * Callgraph) :=
  st ← foldM (find_gaps_node fuel mainMethod) (graph, Reach_new, ∅, nodesToFill ph) (node_ptrs graph);
  g ← foldM (fill_node ph) st.1.1.1 (ordered_iter st.2).*2;
  Ret (mkFill st.2 (useCSInstrumentation ph) (onlyEligibleNodes ph), g).

(** ** [StoreInstrumentationDecisionsPhase] *)

Definition store_decision (g : Callgraph) (node : NodePtr) : outcome Callgraph :=
  r ← isAnyInstrumented g node;
  if r.2 : bool
  then ptr_modify InstrumentationResultMetaData (set_shouldBeInstrumented true) r.1 node
  else
    md ← ptr_get InstrumentationResultMetaData r.1 node;
    match md with
    | Some _ => ptr_modify InstrumentationResultMetaData (set_shouldBeInstrumented false) r.1 node
    | None => Ret r.1
    end.

Definition Store_modifyGraph (graph : Callgraph) : outcome Callgraph :=
  foldM store_decision graph (node_ptrs graph).
End phases.
