(* ===== verification/PgisGaps.v ===== *)
(** * PGIS: filling gaps in the instrumentation

    What [FillInstrumentationGapsPhase] ([pgis/lib/src/IPCGEstimatorPhase.cpp])
    does to the marks of the nodes: the phase finds the marked functions that
    are called by one that is not marked, and marks everything between them and
    the main function. *)

From S2P Require Import Prelude Json MetaData BuiltinMD Callgraph CallgraphWf.
From S2P Require Import CallgraphOps CallgraphSpec CallgraphProps Worklist Reach.
From S2P Require Import Dominators PgisMD PgisAccess PgisWalk CgHelper.
From S2P Require Import PgisConfig PgisPhases.

Section gaps.
Context {JO : JsonOps} {MDI : MetaDataI} {IO : IterOrder} `{!PgisClasses}.

(** ** Looking at marks *)

(** [g1] is [g], except that some nodes got the metadata of a node that is not
    marked. *)
Definition same_marks (g g1 : Callgraph) : Prop :=
  frame {[IMD_key]} g g1 ∧ ∀ j, mark g1 j = mark g j.

Lemma same_marks_refl g : same_marks g g.
Proof. split; [apply frame_refl|done]. Qed.

Lemma same_marks_trans g g1 g2 :
  same_marks g g1 → frame {[IMD_key]} g1 g2 → (∀ j, mark g2 j = mark g1 j) → same_marks g g2.
Proof. intros [Hf Hm] Hf2 Hm2. split; [by eapply frame_trans|]. intros j. by rewrite Hm2. Qed.

Lemma any_of_ret (I : Callgraph → Prop) test (Q : NodePtr → bool) l g :
  (∀ g p, I g → p ∈ l → ∃ g', test g p ⇓ (g', Q p) ∧ I g') → I g →
  ∃ g', any_of test g l ⇓ (g', existsb Q l) ∧ I g'.
Proof.
  revert g. induction l as [|p l IH]; intros g Ht HI; simpl; [by exists g|].
  destruct (Ht g p HI) as (g1 & -> & HI1); [by left|]. rewrite bind_ret. cbn [fst snd].
  destruct (Q p); [by exists g1|]. apply IH; [|done]. intros g2 q Hg2 Hq. apply Ht; [done|by right].
Qed.

Definition unmarked (g : Callgraph) (p : NodePtr) : bool :=
  match p with Some i => bool_decide (mark g i = Some NotInstrumented) | None => false end.

Lemma isAny_same_marks g g1 i s : same_marks g g1 → mark g i = Some s →
  ∃ g2, isAnyInstrumented g1 (Some i) ⇓ (g2, bool_decide (s ≠ NotInstrumented)) ∧ same_marks g g2.
Proof.
  intros [Hf Hm] Hs. destruct (isAnyInstrumented_ret g1 i s ltac:(by rewrite Hm)) as (g2 & Hr & Hf2 & Hm2).
  exists g2. split; [done|]. by eapply same_marks_trans; [split|..].
Qed.

Section phase.
Context (g : Callgraph) (Hwf : wf g) (Hfull : full g) (m : NodeId) (Hm : mainNode g = Some m).
Context (Hmarks : marks_ok g) (Hdup : hasDuplicates g = false).

Definition marked (i : NodeId) : Prop := is_Some (mark g i) ∧ mark g i ≠ Some NotInstrumented.

(** A marked function with a caller that is not marked. *)
Definition below_gap (i : NodeId) : Prop :=
  marked i ∧ ∃ p, calls g p i ∧ mark g p = Some NotInstrumented.

(** The functions that the phase decides to fill in because of [i]. *)
Definition gap_of (i k : NodeId) : Prop :=
  below_gap i ∧ mark g k = Some NotInstrumented ∧ (k = m ∨ on_path g m i (Some k)).

Definition gap (k : NodeId) : Prop := ∃ i, gap_of i k.

(** ** The test for a gap *)

Lemma test_gap g1 i : same_marks g g1 → live g i →
  ∃ g2 b, (parents ← callers_ptr g1 (Some i);
         r ← isAnyInstrumented g1 (Some i);
         if r.2 : bool
         then any_of (λ g p, r ← isAnyInstrumented g p; Ret (r.1, negb r.2)) r.1 (iter_set parents)
         else Ret (r.1, false)) ⇓ (g2, b) ∧ same_marks g g2 ∧ (b = true ↔ below_gap i).
Proof using Hwf Hmarks.
  intros Hsm Hi. pose proof (proj1 Hsm) as Hf.
  rewrite callers_ptr_ret by first [by apply (frame_wf Hf)|by apply (frame_live Hf)].
  rewrite bind_ret, (frame_next Hf). destruct (Hmarks i Hi) as [s Hs].
  destruct (isAny_same_marks g g1 i s Hsm Hs) as (g2 & -> & Hsm2). rewrite bind_ret. cbn [fst snd].
  destruct (decide (s = NotInstrumented)) as [->|Hne].
  { rewrite bool_decide_false by tauto. exists g2, false. split_and!; [done..|]. split; [done|].
    intros [[_ Hmk] _]. done. }
  rewrite bool_decide_true by done.
  destruct (any_of_ret (same_marks g) (λ g p, r ← isAnyInstrumented g p; Ret (r.1, negb r.2))
    (unmarked g) (iter_set (next g Backward (Some i))) g2) as (g3 & Hr & Hsm3); [|done|].
  - intros g3 p Hsm3 Hp. apply elem_of_iter_set, (elem_of_callers g i p Hwf) in Hp as (j & -> & Hj).
    assert (live g j) as Hlj by (by apply (wf_edges _ Hwf) in Hj as [? ?]).
    destruct (Hmarks j Hlj) as [t Ht]. destruct (isAny_same_marks g g3 j t Hsm3 Ht) as (g4 & -> & Hsm4).
    exists g4. rewrite bind_ret. cbn [fst snd]. split; [|done]. unfold unmarked. rewrite Ht. by destruct t.
  - exists g3, (existsb (unmarked g) (iter_set (next g Backward (Some i)))). split_and!; [done|done|].
    rewrite existsb_exists. unfold below_gap, marked. rewrite Hs. split.
    + intros (p & Hp%list_elem_of_In & Hu).
      apply elem_of_iter_set, (elem_of_callers g i p Hwf) in Hp as (j & -> & Hj).
      split; [by split; [eexists|congruence]|]. exists j. split; [done|]. by apply bool_decide_eq_true in Hu.
    + intros (_ & p & Hp & Hu). exists (Some p). split; [|by apply bool_decide_eq_true].
      apply list_elem_of_In, elem_of_iter_set, (elem_of_callers g i _ Hwf). by exists p.
Qed.
(** ** Collecting the nodes *)

(** The set ordered by names holds exactly the nodes with [F]. *)
Definition fill_is (F : NodeId → Prop) (fill : gmap string NodePtr) : Prop :=
  ∀ name p, fill !! name = Some p ↔
    ∃ k n, p = Some k ∧ node_at g k = Some n ∧ functionName n = name ∧ F k.

Lemma fill_is_ext F F' fill : (∀ k, F k ↔ F' k) → fill_is F fill → fill_is F' fill.
Proof using Type.
  clear Hwf Hfull Hm Hmarks Hdup. intros HF Hfill name p. rewrite (Hfill name p). by setoid_rewrite HF.
Qed.

(** Without duplicates a name determines its node. *)
Lemma names_unique i j n n' :
  node_at g i = Some n → node_at g j = Some n' → functionName n = functionName n' → i = j.
Proof using Hwf Hdup.
  clear Hfull Hm Hmarks m H. intros Hi Hj Hnn. pose proof (wf_dup _ Hwf Hdup (functionName n)) as Hle.
  assert (i ∈ ids_named (nodes g) (functionName n)) as Hin.
  { apply elem_of_ids_named. exists n. split; [by apply node_at_Some|done]. }
  assert (j ∈ ids_named (nodes g) (functionName n)) as Hjn.
  { apply elem_of_ids_named. exists n'. split; [by apply node_at_Some|done]. }
  destruct (ids_named (nodes g) (functionName n)) as [|a [|b l]]; simpl in Hle; [set_solver| |lia].
  set_solver.
Qed.

Lemma insert_by_name_ret g1 F fill k : same_marks g g1 → fill_is F fill → live g k →
  ∃ fill', insert_by_name g1 fill (Some k) ⇓ fill' ∧ fill_is (λ j, F j ∨ j = k) fill'.
Proof using Hwf Hdup.
  intros [Hf _] Hfill [n Hn]. destruct (frame_node Hf k n Hn) as (n1 & Hn1 & _ & Hname & _).
  unfold insert_by_name. rewrite (ptr_node_ret _ _ _ Hn1), bind_ret, Hname.
  destruct (fill !! functionName n) as [q|] eqn:Hq.
  - exists fill. split; [done|]. apply (fill_is_ext F); [|done].
    apply Hfill in Hq as (k' & n' & -> & Hn' & Hnn & HF).
    assert (k' = k) as -> by (by eapply names_unique). intros j. split; [by left|]. by intros [?| ->].
  - eexists. split; [done|]. intros name p. rewrite lookup_insert_Some, (Hfill name p). split.
    + intros [[<- <-]|(_ & k' & n' & -> & Hn' & Hnn & HF)]; [|naive_solver].
      exists k, n. naive_solver.
    + intros (k' & n' & -> & Hn' & Hnn & [HF| ->]); [right|left].
      * split; [|naive_solver]. intros <-.
        assert (fill !! functionName n = Some (Some k')) as Hq2 by (apply Hfill; naive_solver). congruence.
      * naive_solver.
Qed.

Lemma fill_candidates_ret g1 F fill l :
  same_marks g g1 → fill_is F fill → (∀ p, p ∈ l → ∃ k, p = Some k ∧ live g k) →
  ∃ g2 fill2, foldM fill_candidate (g1, fill) l ⇓ (g2, fill2) ∧ same_marks g g2 ∧
    fill_is (λ k, F k ∨ Some k ∈ l ∧ mark g k = Some NotInstrumented) fill2.
Proof using Hwf Hfull Hm Hmarks Hdup.
  intros Hsm Hfill Hl.
  destruct (foldM_ind (λ dn st, same_marks g st.1 ∧
      fill_is (λ k, F k ∨ Some k ∈ dn ∧ mark g k = Some NotInstrumented) st.2)
    fill_candidate l (g1, fill)) as ([g2 fill2] & Hr & Hsm2 & Hfill2).
  - split; [done|]. apply (fill_is_ext F); [|done]. set_solver.
  - intros dn p rest [g3 fill3] Hlp [Hsm3 Hfill3]. cbn [fst snd] in *.
    destruct (Hl p) as (k & -> & Hk); [rewrite Hlp; set_solver|]. destruct (Hmarks k Hk) as [s Hs].
    destruct (isAny_same_marks g g3 k s Hsm3 Hs) as (g4 & Hr4 & Hsm4).
    unfold fill_candidate. cbn [fst snd]. rewrite Hr4, bind_ret. cbn [fst snd].
    destruct (decide (s = NotInstrumented)) as [->|Hne].
    + rewrite bool_decide_false by tauto.
      destruct (insert_by_name_ret g4 _ fill3 k Hsm4 Hfill3 Hk) as (fill4 & -> & Hfill4).
      rewrite bind_ret. eexists. split; [done|]. split; [done|]. eapply fill_is_ext; [|exact Hfill4].
      intros j. cbn beta. rewrite elem_of_app, list_elem_of_singleton. naive_solver.
    + rewrite bool_decide_true by done. eexists. split; [done|]. split; [done|].
      eapply fill_is_ext; [|exact Hfill3]. intros j. cbn beta.
      rewrite elem_of_app, list_elem_of_singleton. naive_solver.
  - by exists g2, fill2.
Qed.

(** ** The first loop *)

Definition gaps_found (dn : list NodePtr)
    (st : Callgraph * ReachabilityAnalysis * gmap NodePtr (gset NodePtr) * gmap string NodePtr) : Prop :=
  same_marks g st.1.1.1 ∧ cache_ok g st.1.1.2 ∧ (∀ p, is_Some (st.1.2 !! p) → p ∈ dn) ∧
  fill_is (λ k, ∃ i, Some i ∈ dn ∧ gap_of i k) st.2.

(** The test inside the code that follows it. *)
Lemma run_test {A} g1 i r (f : Callgraph * bool → outcome A) :
  (parents ← callers_ptr g1 (Some i);
   r ← isAnyInstrumented g1 (Some i);
   if r.2 : bool
   then any_of (λ g p, r ← isAnyInstrumented g p; Ret (r.1, negb r.2)) r.1 (iter_set parents)
   else Ret (r.1, false)) ⇓ r →
  (parents ← callers_ptr g1 (Some i);
   r ← isAnyInstrumented g1 (Some i);
   t ← (if r.2 : bool
        then any_of (λ g p, r ← isAnyInstrumented g p; Ret (r.1, negb r.2)) r.1 (iter_set parents)
        else Ret (r.1, false)); f t) = f r.
Proof using Type.
  clear Hwf Hfull Hm Hmarks Hdup.
  intros (X & -> & (r1 & -> & Hr)%bind_ret_inv)%bind_ret_inv. rewrite !bind_ret. cbv beta in Hr |- *.
  by rewrite Hr, bind_ret.
Qed.

Lemma found_snoc dn i k :
  (∃ j, Some j ∈ dn ++ [Some i] ∧ gap_of j k) ↔ (∃ j, Some j ∈ dn ∧ gap_of j k) ∨ gap_of i k.
Proof using Type.
  clear Hwf Hfull Hm Hmarks Hdup. setoid_rewrite elem_of_app. split.
  - intros (j & [?|[= ->]%list_elem_of_singleton] & ?); [left; by exists j|by right].
  - intros [(j & ? & ?)|?]; [exists j|exists i]; (split; [|done]); [by left|right; by left].
Qed.

Lemma find_gaps_ret :
  ∃ N st, gaps_found (node_ptrs g) st ∧ ∀ fuel, N ≤ fuel →
    foldM (find_gaps_node fuel (Some m)) (g, Reach_new, ∅, ∅) (node_ptrs g) ⇓ st.
Proof using Hwf Hfull Hm Hmarks Hdup.
  destruct (allNodesToMain_ret g Hwf m Hm) as (N & HN). exists N.
  apply (foldM_fuel gaps_found (λ fuel, find_gaps_node fuel (Some m)) N).
  { split_and!; [apply same_marks_refl|apply cache_ok_new| |].
    - intros p. cbn [fst snd]. by rewrite lookup_empty, is_Some_alt.
    - intros name p. cbn [fst snd]. rewrite lookup_empty. split; [done|].
      by intros (k & n & _ & _ & _ & i & Hi%elem_of_nil & _). }
  intros dn p rest [[[g1 ra] paths] fill] Hlp (Hsm & Hok & Hpaths & Hfill). cbn [fst snd] in *.
  destruct (elem_of_node_ptrs g p Hwf Hfull) as (i & -> & Hi); [rewrite Hlp; set_solver|].
  assert (Some i ∉ dn) as Hfresh.
  { pose proof (node_ptrs_NoDup g Hwf Hfull) as Hnd. rewrite Hlp in Hnd.
    apply NoDup_app in Hnd as (_ & Hd & _). intros Hin. apply (Hd _ Hin). by left. }
  destruct (test_gap g1 i Hsm Hi) as (g2 & b & Htest & Hsm2 & Hb).
  destruct b.
  - assert (paths !! Some i = None) as Hnone.
    { apply eq_None_not_Some. intros ?%Hpaths. done. }
    destruct (HN i {[IMD_key]} g2 ra paths Hi (proj1 Hsm2) Hok Hnone) as (ra2 & X & Hr2 & Hok2 & HX).
    destruct (fill_candidates_ret g2 (λ k, ∃ i, Some i ∈ dn ∧ gap_of i k) fill (iter_set X) Hsm2 Hfill)
      as (g3 & fill3 & Hr3 & Hsm3 & Hfill3).
    { intros q Hq%elem_of_iter_set. apply HX in Hq as [->|(k & -> & Hmk & _)].
      - exists m. split; [done|]. by apply (wf_main _ Hwf).
      - exists k. split; [done|]. by eapply (rtc_calls_live g Hwf), (wf_main _ Hwf). }
    exists (g3, ra2, <[Some i := X]> paths, fill3). split.
    + split_and!; [done|done| |]; cbn [fst snd].
      * intros q. rewrite lookup_insert_is_Some'. intros [<-|Hq]; [set_solver|]. apply Hpaths in Hq. set_solver.
      * eapply fill_is_ext; [|exact Hfill3]. intros k. cbn beta. rewrite elem_of_iter_set, HX.
        rewrite found_snoc. pose proof (proj1 Hb eq_refl) as Hbelow. unfold gap_of at 3.
        assert (Some k = Some m ↔ k = m) as -> by (split; congruence). tauto.
    + intros fuel Hf. unfold find_gaps_node. rewrite (run_test _ _ _ _ Htest). cbn [fst snd].
      rewrite Hr2 by done. rewrite bind_ret. cbn [fst snd]. by rewrite Hr3, bind_ret.
  - exists (g2, ra, paths, fill). split; [split_and!; [done|done| |]|]; cbn [fst snd].
    + intros q Hq. apply Hpaths in Hq. set_solver.
    + eapply fill_is_ext; [|exact Hfill]. intros k. cbn beta.
      rewrite found_snoc. assert (¬ gap_of i k) by (intros [?%Hb _]; done). tauto.
    + intros fuel Hf. unfold find_gaps_node. by rewrite (run_test _ _ _ _ Htest).
Qed.
(** ** The second loop *)

Section fill.
Context (ph : FillInstrumentationGapsPhase).
(** Measurements are well-typed where a node has them. *)
Context (Hresults : ∀ i, live g i → is_Some (md_view InstrumentationResultMetaData g i)).

Definition ptr_has_body (p : NodePtr) : bool :=
  match p with Some j => match node_at g j with Some n => hasBody n | None => false end | None => false end.

(** A measurement says that the function is never called. *)
Definition never_called (n : CgNode) : bool :=
  match node_get InstrumentationResultMetaData n with
  | Ret (Some r) => bool_decide (callCount r = 0%Z) && isExclusiveRuntime r
  | _ => false
  end.

(** How a node in a gap is marked; [None] when it stays as it is. *)
Definition verdict (k : NodeId) : option InstrumentationState :=
  n ← node_at g k;
  if never_called n then None
  else if hasBody n || isMPIFunction n
          || (negb (onlyEligibleNodes ph) && negb (useCSInstrumentation ph))
  then Some Instrumented
  else if useCSInstrumentation ph
       then if onlyEligibleNodes ph
            then if existsb ptr_has_body (iter_set (next g Backward (Some k)))
                 then Some InstrumentedPath else None
            else Some InstrumentedPath
       else None.

Definition after_verdict (k : NodeId) (old : option InstrumentationState) :=
  match verdict k with Some s => Some s | None => old end.

Lemma eligible_ret g1 k : frame {[IMD_key]} g g1 → live g k →
  isEligibleForPathInstrumentation g1 (Some k) [] ⇓
    existsb ptr_has_body (iter_set (next g Backward (Some k))).
Proof using Hwf.
  intros Hf Hk. unfold isEligibleForPathInstrumentation.
  rewrite callers_ptr_ret by first [by apply (frame_wf Hf)|by apply (frame_live Hf)].
  rewrite bind_ret, (frame_next Hf).
  destruct (any_of_ret (λ g2, g2 = g1) has_body ptr_has_body (iter_set (next g Backward (Some k))) g1)
    as (g2 & -> & _); [|done|done].
  intros g2 p -> Hp%elem_of_iter_set. apply (elem_of_callers g k p Hwf) in Hp as (j & -> & Hj).
  assert (live g j) as [n Hn] by (by apply (wf_edges _ Hwf) in Hj as [? ?]).
  destruct (frame_node Hf j n Hn) as (n1 & Hn1 & _ & _ & Hb & _). exists g1. split; [|done].
  unfold has_body. rewrite (ptr_node_ret _ _ _ Hn1), bind_ret. unfold ptr_has_body. by rewrite Hn, Hb.
Qed.

Lemma fill_node_ret g1 k s : frame {[IMD_key]} g g1 → mark g1 k = Some s → live g k →
  ∃ g2, fill_node ph g1 (Some k) ⇓ g2 ∧ frame {[IMD_key]} g g2 ∧
    ∀ j, mark g2 j = if decide (j = k) then after_verdict k (mark g1 k) else mark g1 j.
Proof using Hwf Hresults.
  intros Hf Hs Hk. destruct Hk as [n Hn] eqn:El. clear El.
  destruct (frame_node Hf k n Hn) as (n1 & Hn1 & _ & Hname & Hbody & _ & _ & Hmd).
  assert (node_get InstrumentationResultMetaData n1 = node_get InstrumentationResultMetaData n) as Hget.
  { unfold node_get, md_get. rewrite Hmd; [done|]. by apply not_elem_of_singleton. }
  assert (∃ o, node_get InstrumentationResultMetaData n ⇓ o) as [o Ho].
  { destruct (Hresults k) as [t Ht]; [by eexists|]. eexists.
    rewrite <- (bind_ret (node_get InstrumentationResultMetaData) n), <- (ptr_node_ret g k n Hn).
    by apply (ptr_get_ret InstrumentationResultMetaData g k t n). }
  assert (∀ g2, frame {[IMD_key]} g1 g2 → frame {[IMD_key]} g g2) as Htr by (intros; by eapply frame_trans).
  assert (∃ g2, Ret g1 ⇓ g2 ∧ frame {[IMD_key]} g g2 ∧
    ∀ j, mark g2 j = if decide (j = k) then mark g1 k else mark g1 j) as Hstay.
  { exists g1. split_and!; [done..|]. intros j. case_decide as E; [by rewrite E|done]. }
  destruct (instrumentNode_ret g1 k s Hs) as (g2 & Hr2 & Hf2 & Hm2).
  destruct (instrumentPathNode_ret g1 k s Hs) as (g3 & Hr3 & Hf3 & Hm3).
  unfold fill_node, ptr_get. rewrite (ptr_node_ret _ _ _ Hn1), !bind_ret, Hget, Ho, bind_ret, Hbody.
  assert (isMPIFunction n1 = isMPIFunction n) as -> by (unfold isMPIFunction; by rewrite Hname).
  rewrite (eligible_ret g1 k Hf) by (by eexists). rewrite bind_ret. cbv zeta.
  unfold after_verdict, verdict. rewrite Hn. cbn [mbind option_bind]. unfold never_called. rewrite Ho.
  destruct (match o with Some r => _ | None => _ end); [exact Hstay|].
  destruct (hasBody n || isMPIFunction n || _); [by exists g2; auto|].
  destruct (useCSInstrumentation ph); [|exact Hstay].
  destruct (onlyEligibleNodes ph); [|by exists g3; auto].
  destruct (existsb _ _); [by exists g3; auto|exact Hstay].
Qed.

Lemma fill_nodes_ret g1 l : same_marks g g1 → (∀ p, p ∈ l → ∃ k, p = Some k ∧ live g k) →
  ∃ g2, foldM (fill_node ph) g1 l ⇓ g2 ∧ frame {[IMD_key]} g g2 ∧
    ∀ k, mark g2 k = if decide (Some k ∈ l) then after_verdict k (mark g k) else mark g k.
Proof using Hwf Hfull Hm Hmarks Hdup Hresults.
  intros [Hf Hsm] Hl.
  destruct (foldM_ind (λ dn g2, frame {[IMD_key]} g g2 ∧
    ∀ k, mark g2 k = if decide (Some k ∈ dn) then after_verdict k (mark g k) else mark g k)
    (fill_node ph) l g1) as (g2 & Hr & HP); [| |by exists g2].
  - split; [done|]. intros k. rewrite decide_False by (apply not_elem_of_nil). by rewrite Hsm.
  - intros dn p rest g2 Hlp [Hf2 Hm2]. destruct (Hl p) as (k & -> & Hk); [rewrite Hlp; set_solver|].
    destruct (Hmarks k Hk) as [s Hs].
    assert (∃ s2, mark g2 k = Some s2) as [s2 Hs2].
    { rewrite Hm2, Hs. unfold after_verdict. destruct (verdict k); case_decide; eauto. }
    destruct (fill_node_ret g2 k s2 Hf2 Hs2 Hk) as (g3 & Hr3 & Hf3 & Hm3). exists g3. split_and!; [done..|].
    intros j. rewrite Hm3. destruct (decide (j = k)) as [->|Hne].
    + rewrite decide_True by set_solver. rewrite Hm2. unfold after_verdict.
      destruct (verdict k); [done|]. by case_decide.
    + rewrite Hm2. apply decide_ext. set_solver.
Qed.
(** The whole phase: exactly the nodes in a gap are given a verdict. *)
Lemma Fill_modifyGraph_ret :
  nodesToFill ph = ∅ →
  ∃ N ph' g', (∀ fuel, N ≤ fuel → Fill_modifyGraph ph fuel g (Some m) ⇓ (ph', g')) ∧
    frame {[IMD_key]} g g' ∧
    ∀ k, gap k ∧ mark g' k = after_verdict k (mark g k) ∨ ¬ gap k ∧ mark g' k = mark g k.
Proof using Hwf Hfull Hm Hmarks Hdup Hresults.
  intros Hempty. destruct find_gaps_ret as (N & [[[g1 ra] paths] fill] & (Hsm & _ & _ & Hfill) & Hrun).
  cbn [fst snd] in *.
  assert (∀ p, p ∈ (ordered_iter fill).*2 ↔ ∃ k, p = Some k ∧ gap k) as Hin.
  { intros p. rewrite list_elem_of_fmap. split.
    - intros ([name q] & -> & Hq%elem_of_ordered_iter). apply Hfill in Hq as (k & n & -> & Hn & _ & i & _ & Hgap).
      exists k. split; [done|]. by exists i.
    - intros (k & -> & i & Hgap). pose proof Hgap as (Hb & Hk & _).
      destruct (mark_live _ _ _ Hk) as [n Hn]. exists (functionName n, Some k). split; [done|].
      apply elem_of_ordered_iter, Hfill. exists k, n. split_and!; [done..|]. exists i. split; [|done].
      apply node_ptrs_live; [done..|]. destruct Hb as [[[s Hs] _] _]. by eapply mark_live. }
  destruct (fill_nodes_ret g1 (ordered_iter fill).*2 Hsm) as (g2 & Hr2 & Hf2 & Hm2).
  { intros p (k & -> & i & _ & Hk & _)%Hin. exists k. split; [done|]. by eapply mark_live. }
  exists N, (mkFill fill (useCSInstrumentation ph) (onlyEligibleNodes ph)), g2. split_and!; [|done|].
  - intros fuel Hf. unfold Fill_modifyGraph. rewrite Hempty, Hrun by done. rewrite bind_ret. cbn [fst snd].
    by rewrite Hr2, bind_ret.
  - intros k. rewrite Hm2. destruct (decide (Some k ∈ (ordered_iter fill).*2)) as [Hk|Hk]; [left|right].
    + apply Hin in Hk as (k' & [= <-] & ?). done.
    + split; [|done]. intros ?. apply Hk, Hin. by exists k.
Qed.
End fill.

(** ** Gaps are closed *)

(** Where a path enters the marked functions. *)
Lemma entry_of_marked k i : rtc (calls g) k i → mark g k = Some NotInstrumented → marked i →
  ∃ p q, rtc (calls g) k p ∧ calls g p q ∧ rtc (calls g) q i ∧
    mark g p = Some NotInstrumented ∧ marked q.
Proof using Hwf Hmarks.
  intros Hr. induction Hr as [k|k q i Hkq Hqi IH]; intros Hk Hi; [by destruct Hi as [_ ?]|].
  assert (live g q) as Hq by (by apply (wf_edges _ Hwf) in Hkq as [? ?]).
  destruct (Hmarks q Hq) as [s Hs]. destruct (decide (s = NotInstrumented)) as [->|Hne].
  - destruct (IH Hs Hi) as (p & q' & Hp & Hpq & Hq' & ? & ?). exists p, q'. split_and!; [|done..].
    by eapply rtc_l.
  - exists k, q. split_and!; [done..|]. split; [by eexists|congruence].
Qed.

Lemma gap_on_path k i : marked i → on_path g m i (Some k) → mark g k = Some NotInstrumented → gap k.
Proof using Hwf Hmarks.
  intros Hi (k' & [= <-] & Hmk & Hki) Hk.
  destruct (entry_of_marked k i Hki Hk Hi) as (p & q & Hkp & Hpq & _ & Hp & Hq).
  exists q. split; [split; [done|by exists p]|]. split; [done|]. right. exists k. split_and!; [done..|].
  by eapply rtc_r.
Qed.
End phase.

(** C19: In a graph that satisfies the invariant, without erased nodes, without
    two functions of the same name, with [main] cached as the main node, in
    which every function has result metadata, instrumentation metadata has the
    right type and no measurement says that a function is never called, and for
    a phase with its default options and nothing left to fill: filling the gaps
    terminates, instruments every function on every call path from the main
    function to a function that was marked, and otherwise at most the main
    function; what was marked stays as it was. *)
Theorem fill_closes_gaps (g : Callgraph) (m : NodeId) (ph : FillInstrumentationGapsPhase) :
  wf g → full g → mainNode g = Some m → hasDuplicates g = false →
  marks_ok g → (∀ i, live g i → is_Some (md_view InstrumentationResultMetaData g i)) →
  nodesToFill ph = ∅ → useCSInstrumentation ph = false → onlyEligibleNodes ph = false →
  (∀ i n, node_at g i = Some n → never_called n = false) →
  ∃ N ph' g', (∀ fuel, N ≤ fuel → Fill_modifyGraph ph fuel g (Some m) ⇓ (ph', g')) ∧
    frame {[IMD_key]} g g' ∧
    (∀ i k, marked g i → on_path g m i (Some k) → marked g' k) ∧
    (∀ k, mark g' k ≠ mark g k → mark g k = Some NotInstrumented ∧ mark g' k = Some Instrumented ∧
       (k = m ∨ ∃ i, marked g i ∧ on_path g m i (Some k))).
Proof.
  intros Hwf Hfull Hm Hdup Hmarks Hres Hempty Hcs Hel Hcalled.
  destruct (Fill_modifyGraph_ret g Hwf Hfull m Hm Hmarks Hdup ph Hres Hempty) as (N & ph' & g' & Hrun & Hf & Hcase).
  assert (∀ k, gap g m k → mark g k = Some NotInstrumented ∧ mark g' k = Some Instrumented) as Hfilled.
  { intros k Hk. destruct (Hcase k) as [[_ ->]|[? _]]; [|done]. destruct Hk as (i & _ & Hk & _). split; [done|].
    destruct (mark_live _ _ _ Hk) as [n Hn]. unfold after_verdict, verdict. rewrite Hn, Hcs, Hel.
    cbn [mbind option_bind]. by rewrite (Hcalled k n Hn), orb_true_r. }
  exists N, ph', g'. split_and!; [done..| |].
  - intros i k Hi Hk. assert (live g k) as Hl.
    { destruct Hk as (k' & [= <-] & Hmk & _). by eapply (rtc_calls_live g Hwf), (wf_main _ Hwf). }
    destruct (Hcase k) as [[Hg _]|[Hno Heq]]; [apply Hfilled in Hg as [_ Hg]|]; unfold marked.
    + rewrite Hg. by split; [eexists|].
    + rewrite Heq. split; [by apply Hmarks|]. intros Hk2. apply Hno. by eapply gap_on_path.
  - intros k Hne. destruct (Hcase k) as [[Hg _]|[_ ?]]; [|done]. destruct (Hfilled k Hg) as [Hk Hk'].
    split_and!; [done..|]. destruct Hg as (i & [Hi _] & _ & [?|?]); [by left|right; by exists i].
Qed.
End gaps.
