(* ===== verification/PgisCounts.v ===== *)
(** * PGIS: counting phases

    From [pgis/lib/src/IPCGEstimatorPhase.cpp] and its header: the statistics
    phase with its histograms and cutoff values, the statement count phase, and
    the summing count phases ([SummingCountPhaseBase] and its subclasses). *)

From S2P Require Import Prelude Json MetaData BuiltinMD Callgraph CallgraphWf.
From S2P Require Import Reach Dominators Worklist PgisMD PgisAccess PgisConfig.
From S2P Require Import PgisPhases.

(** ** Histograms *)

(** [std::map<long int, long int>]: how often a value was counted. *)
Abbreviation MapT := (gmap Z Z).

(** [histElem = hist[k]; histElem++] *)
Definition hist_incr (hist : MapT) (k : Z) : outcome MapT :=
  v ← long_add (default 0%Z (hist !! k)) 1; Ret (<[k := v]> hist).

(** The keys, once each, and as often as they were counted. *)
Definition hist_keys (hist : MapT) : list Z := (map_to_list hist).*1.
Definition hist_expanded (hist : MapT) : list Z :=
  flat_map (λ '(k, v), replicate (Z.to_nat v) k) (map_to_list hist).

(** [std::nth_element(v, v + n, end); v[n]]: the element that is at this place
    when [v] is sorted. *)
Definition nth_element (v : list Z) (n : nat) : outcome Z :=
  deref (merge_sort Z.le v !! n).

Definition getUniqueMedianFromHist (hist : MapT) : outcome Z :=
  let inclStmts := hist_keys hist in nth_element inclStmts (length inclStmts / 2).

Definition getMedianFromHist (hist : MapT) : outcome Z :=
  let inclStmts := hist_expanded hist in nth_element inclStmts (length inclStmts / 2).

(** [*std::max_element(v)] *)
Definition max_element (v : list Z) : outcome Z :=
  match v with [] => UB | x :: v => Ret (foldl Z.max x v) end.

Definition getHalfMaxFromHist (hist : MapT) : outcome Z :=
  x ← max_element (hist_expanded hist); Ret (Z.shiftr x 1).

Definition getCuttoffValue (cfg : GlobalConfig) (hist : MapT) : outcome Z :=
  if decide (hist = ∅) then Ret 0%Z
  else
    cuttoffMode ← getAs CuttoffSelection cfg cuttoffSelection;
    match cuttoffMode with
    | MAX => getHalfMaxFromHist hist
    | MEDIAN => getMedianFromHist hist
    | UNIQUE_MEDIAN => getUniqueMedianFromHist hist
    end.

(** ** The statistics phase: its state and what it is asked for *)

Record StatisticsEstimatorPhase := mkStatistics {
  shouldPrintReport : bool;
  numFunctions : Z;
  numReachableFunctions : Z;
  totalStmts : Z;
  stmtHist : MapT;
  stmtInclHist : MapT;
  stmtsCoveredWithInstr : Z;
  stmtsActuallyCovered : Z;
  totalVarDecls : Z;
  conditionalBranchesInclHist : MapT;
  reverseConditionalBranchesInclHist : MapT;
  rooflineInclHist : MapT;
  loopDepthInclHist : MapT;
  globalLoopDepthInclHist : MapT
}.

Definition Statistics_new (shouldPrintReport : bool) : StatisticsEstimatorPhase :=
  mkStatistics shouldPrintReport 0 0 0 ∅ ∅ 0 0 0 ∅ ∅ ∅ ∅ ∅.

Definition getCuttoffNumInclStmts (cfg : GlobalConfig) (s : StatisticsEstimatorPhase) : outcome Z :=
  getCuttoffValue cfg (stmtInclHist s).
Definition getCuttoffConditionalBranches (cfg : GlobalConfig) (s : StatisticsEstimatorPhase) : outcome Z :=
  getCuttoffValue cfg (conditionalBranchesInclHist s).
Definition getCuttoffReversesConditionalBranches (cfg : GlobalConfig) (s : StatisticsEstimatorPhase)
    : outcome Z :=
  getCuttoffValue cfg (reverseConditionalBranchesInclHist s).
Definition getCuttoffRoofline (cfg : GlobalConfig) (s : StatisticsEstimatorPhase) : outcome Z :=
  getCuttoffValue cfg (rooflineInclHist s).
Definition getCuttoffLoopDepth (cfg : GlobalConfig) (s : StatisticsEstimatorPhase) : outcome Z :=
  getCuttoffValue cfg (loopDepthInclHist s).
Definition getCuttoffGlobalLoopDepth (cfg : GlobalConfig) (s : StatisticsEstimatorPhase) : outcome Z :=
  getCuttoffValue cfg (globalLoopDepthInclHist s).

Section counts.
Context {JO : JsonOps} {MDI : MetaDataI} {IO : IterOrder} `{!PgisClasses}.

(** The callees that are reachable from main, in the order they are pushed. *)
Definition push_reachable (fuel : nat) (st : Callgraph * ReachabilityAnalysis)
    (children : list NodePtr) : outcome (Callgraph * ReachabilityAnalysis * list NodePtr) :=
  foldM (λ (st : Callgraph * ReachabilityAnalysis * list NodePtr) childNode,
    r ← isReachableFromMain st.1.1 fuel st.1.2 childNode false;
    Ret (r.1, if r.2 : bool then st.2 ++ [childNode] else st.2)) (st, []) children.

(** [startNode] has no body and took no time, so that its call sites are
    instrumented instead. *)
Definition mark_call_sites (g : Callgraph) (startNode : NodePtr) : outcome Callgraph :=
  n ← ptr_node g startNode;
  if negb (hasBody n) then
    bpd ← ptr_get BaseProfileData g startNode;
    b ← deref bpd;
    if d_eq (timeInSeconds b) d_zero then instrumentPathNode g startNode else Ret g
  else Ret g.

(** ** [StatementCountEstimatorPhase] *)

(** [pSEP] is the number of the statistics phase, if there is one. *)
Record StatementCountEstimatorPhase := mkStatementCount {
  numberOfStatementsThreshold : Z;
  inclusiveMetric : bool;
  inclStmtCounts : gmap NodePtr Z;
  sc_pSEP : option nat
}.

Definition StatementCount_new (threshold : Z) (inclusive : bool) (prevStatEP : option nat)
    : StatementCountEstimatorPhase := mkStatementCount threshold inclusive ∅ prevStatEP.

(** [getNumStatements] creates a missing entry; the result is an [int]. *)
Definition getNumStatements (ph : StatementCountEstimatorPhase) (node : NodePtr)
    : StatementCountEstimatorPhase * Z :=
  let v := default 0%Z (inclStmtCounts ph !! node) in
  (mkStatementCount (numberOfStatementsThreshold ph) (inclusiveMetric ph)
     (<[node := v]> (inclStmtCounts ph)) (sc_pSEP ph), to_int v).

(** The body of the loop for a node that was not visited; the metadata that
    the code fetches before it tests this exists for visited nodes. *)
Definition statement_visit (fuel : nat) (st : Callgraph * ReachabilityAnalysis * Z) (node : NodePtr)
    : outcome (Callgraph * ReachabilityAnalysis * Z * list NodePtr) :=
  nodePOD ← ptr_getOrCreate PiraOneData st.1.1 node;
  inclStmtCount ← int_add st.2 (numStmts nodePOD.2);
  callees ← callees_ptr nodePOD.1 node;
  r ← push_reachable fuel (nodePOD.1, st.1.2) (iter_set callees);
  Ret (r.1, inclStmtCount, r.2).

Definition estimateStatementCount (cfg : GlobalConfig) (fuel : nat)
    (st : StatementCountEstimatorPhase * Callgraph * ReachabilityAnalysis) (startNode : NodePtr)
    : outcome (StatementCountEstimatorPhase * Callgraph * ReachabilityAnalysis) :=
  let '(ph, g, ra) := st in
  s ← (if inclusiveMetric ph then
         r ← loop fuel (visit_turn (statement_visit fuel)) (g, ra, 0%Z, ∅, [startNode]);
         Ret (mkStatementCount (numberOfStatementsThreshold ph) (inclusiveMetric ph)
                (<[startNode := r.1.2]> (inclStmtCounts ph)) (sc_pSEP ph), r.1)
       else
         snPOD ← ptr_getOrCreate PiraOneData g startNode;
         Ret (ph, (snPOD.1, ra, numStmts snPOD.2)));
  let '(ph, (g, ra, inclStmtCount)) := s in
  g ← (if decide (inclStmtCount >= numberOfStatementsThreshold ph)%Z
       then instrumentNode g startNode else Ret g);
  useCSInstr ← getAs bool cfg useCallSiteInstrumentation;
  g ← (if useCSInstr : bool then mark_call_sites g startNode else Ret g);
  Ret (ph, g, ra).

(** The loop over the nodes that the phases share: unreachable ones are skipped. *)
Definition for_reachable {A} (fuel : nat)
    (body : A * Callgraph * ReachabilityAnalysis → NodePtr → outcome (A * Callgraph * ReachabilityAnalysis))
    (st : A * Callgraph * ReachabilityAnalysis) (node : NodePtr)
    : outcome (A * Callgraph * ReachabilityAnalysis) :=
  _ ← ptr_node st.1.2 node;
  r ← isReachableFromMain st.1.2 fuel st.2 node false;
  if r.2 : bool then body (st.1.1, r.1.1, r.1.2) node else Ret (st.1.1, r.1.1, r.1.2).

(** [prev] is the statistics phase that [pSEP] points to. *)
Definition StatementCount_modifyGraph (cfg : GlobalConfig) (fuel : nat)
    (prev : option StatisticsEstimatorPhase) (ph : StatementCountEstimatorPhase) (graph : Callgraph)
    : outcome (StatementCountEstimatorPhase * Callgraph) :=
  threshold ← match prev with
              | Some s => c ← getCuttoffNumInclStmts cfg s; Ret (to_int c)
              | None => Ret (numberOfStatementsThreshold ph)
              end;
  let ph := mkStatementCount threshold (inclusiveMetric ph) (inclStmtCounts ph) (sc_pSEP ph) in
  st ← foldM (for_reachable fuel (estimateStatementCount cfg fuel)) (ph, graph, Reach_new) (node_ptrs graph);
  Ret st.1.

(** ** [SummingCountPhaseBase] and its subclasses *)

Inductive CountKind :=
  | ConditionalBranchesEstimatorPhase
  | ConditionalBranchesReverseEstimatorPhase
  | FPAndMemOpsEstimatorPhase
  | LoopDepthEstimatorPhase
  | GlobalLoopDepthEstimatorPhase.

Record SummingCountPhase := mkSummingCount {
  sum_kind : CountKind;
  threshold : Z;
  counts : gmap NodePtr Z;
  sum_pSEP : option nat;
  inclusive : bool;
  maxBranches : Z
}.

Definition limitThreshold : Z := LONG_MAX.

(** The loop depths are not added up along the calls. *)
Definition kind_inclusive (k : CountKind) : bool :=
  match k with LoopDepthEstimatorPhase | GlobalLoopDepthEstimatorPhase => false | _ => true end.

Definition SummingCount_new (k : CountKind) (threshold : Z) (prevStatEP : option nat)
    : SummingCountPhase := mkSummingCount k threshold ∅ prevStatEP (kind_inclusive k) 0.

Definition getPreviousThreshold (cfg : GlobalConfig) (k : CountKind) (s : StatisticsEstimatorPhase)
    : outcome Z :=
  match k with
  | ConditionalBranchesEstimatorPhase => getCuttoffConditionalBranches cfg s
  | ConditionalBranchesReverseEstimatorPhase => getCuttoffReversesConditionalBranches cfg s
  | FPAndMemOpsEstimatorPhase => getCuttoffRoofline cfg s
  | LoopDepthEstimatorPhase => getCuttoffLoopDepth cfg s
  | GlobalLoopDepthEstimatorPhase => getCuttoffGlobalLoopDepth cfg s
  end.

Definition getTargetCount (ph : SummingCountPhase) (g : Callgraph) (node : NodePtr) : outcome Z :=
  match sum_kind ph with
  | ConditionalBranchesEstimatorPhase =>
      md ← ptr_get NumConditionalBranches g node;
      Ret match md with Some m => numConditionalBranches m | None => 0%Z end
  | ConditionalBranchesReverseEstimatorPhase =>
      md ← ptr_get NumConditionalBranches g node;
      match md with
      | Some m => long_add (maxBranches ph) (- numConditionalBranches m)
      | None => Ret (maxBranches ph)
      end
  | FPAndMemOpsEstimatorPhase =>
      md ← ptr_get NumOperations g node;
      match md with
      | Some m => int_add (numberOfFloatOps m) (numberOfMemoryAccesses m)
      | None => Ret 0%Z
      end
  | LoopDepthEstimatorPhase =>
      md ← ptr_get LoopDepth g node;
      Ret match md with Some m => loopDepth m | None => 0%Z end
  | GlobalLoopDepthEstimatorPhase =>
      md ← ptr_get GlobalLoopDepth g node;
      Ret match md with Some m => globalLoopDepth m | None => 0%Z end
  end.

(** Only the reverse phase has something to initialise. *)
Definition runInitialization (ph : SummingCountPhase) (g : Callgraph) : outcome SummingCountPhase :=
  match sum_kind ph with
  | ConditionalBranchesReverseEstimatorPhase =>
      m ← foldM (λ maxBranches node,
            md ← ptr_get NumConditionalBranches g node;
            Ret match md with
                | Some m => Z.max maxBranches (numConditionalBranches m)
                | None => maxBranches
                end) 0%Z (node_ptrs g);
      Ret (mkSummingCount (sum_kind ph) (threshold ph) (counts ph) (sum_pSEP ph) (inclusive ph) m)
  | _ => Ret ph
  end.

Definition count_visit (fuel : nat) (ph : SummingCountPhase)
    (st : Callgraph * ReachabilityAnalysis * Z) (node : NodePtr)
    : outcome (Callgraph * ReachabilityAnalysis * Z * list NodePtr) :=
  c ← getTargetCount ph st.1.1 node;
  count ← long_add st.2 c;
  callees ← callees_ptr st.1.1 node;
  r ← push_reachable fuel st.1 (iter_set callees);
  Ret (r.1, count, r.2).

Definition estimateCount (fuel : nat) (st : SummingCountPhase * Callgraph * ReachabilityAnalysis)
    (startNode : NodePtr) : outcome (SummingCountPhase * Callgraph * ReachabilityAnalysis) :=
  let '(ph, g, ra) := st in
  s ← (if inclusive ph then
         r ← loop fuel (visit_turn (count_visit fuel ph)) (g, ra, 0%Z, ∅, [startNode]); Ret r.1
       else
         c ← getTargetCount ph g startNode; count ← long_add 0 c; Ret (g, ra, count));
  let '(g, ra, count) := s in
  let ph := mkSummingCount (sum_kind ph) (threshold ph) (<[startNode := count]> (counts ph))
              (sum_pSEP ph) (inclusive ph) (maxBranches ph) in
  g ← (if decide (count >= threshold ph)%Z then instrumentNode g startNode else Ret g);
  g ← mark_call_sites g startNode;
  Ret (ph, g, ra).

Definition SummingCount_modifyGraph (cfg : GlobalConfig) (fuel : nat)
    (prev : option StatisticsEstimatorPhase) (ph : SummingCountPhase) (graph : Callgraph)
    : outcome (SummingCountPhase * Callgraph) :=
  t ← match prev with
      | Some s => getPreviousThreshold cfg (sum_kind ph) s
      | None => Ret (threshold ph)
      end;
  ph ← runInitialization
         (mkSummingCount (sum_kind ph) t (counts ph) (sum_pSEP ph) (inclusive ph) (maxBranches ph)) graph;
  st ← foldM (for_reachable fuel (estimateCount fuel)) (ph, graph, Reach_new) (node_ptrs graph);
  Ret st.1.

(** ** [StatisticsEstimatorPhase::modifyGraph] *)

(** The phase that the selected heuristic runs for its side effects. *)
Definition heuristic_kind (h : HeuristicSelection) : option CountKind :=
  match h with
  | STATEMENTS => None
  | CONDITIONALBRANCHES => Some ConditionalBranchesEstimatorPhase
  | CONDITIONALBRANCHES_REVERSE => Some ConditionalBranchesReverseEstimatorPhase
  | FP_MEM_OPS => Some FPAndMemOpsEstimatorPhase
  | LOOPDEPTH => Some LoopDepthEstimatorPhase
  | GlOBAL_LOOPDEPTH => Some GlobalLoopDepthEstimatorPhase
  end.

(** The body of the last loop, for a reachable node. *)
Definition collect_statistics
    (st : StatisticsEstimatorPhase * StatementCountEstimatorPhase * Callgraph * ReachabilityAnalysis)
    (node : NodePtr)
    : outcome (StatisticsEstimatorPhase * StatementCountEstimatorPhase * Callgraph * ReachabilityAnalysis) :=
  let '(s, sce, g, ra) := st in
  reachable ← long_add (numReachableFunctions s) 1;
  pod ← ptr_getOrCreate PiraOneData g node;
  let n := numStmts pod.2 in
  i ← isInstrumented pod.1 node;
  covered ← (if i.2 : bool then long_add (stmtsCoveredWithInstr s) n else Ret (stmtsCoveredWithInstr s));
  actually ← (if comesFromCube pod.2 then long_add (stmtsActuallyCovered s) n
              else Ret (stmtsActuallyCovered s));
  hist ← hist_incr (stmtHist s) n;
  total ← long_add (totalStmts s) n;
  let q := getNumStatements sce node in
  inclHist ← hist_incr (stmtInclHist s) q.2;
  cs ← ptr_get CodeStatistics i.1 node;
  vars ← match cs with
         | Some csMD => long_add (totalVarDecls s) (numVars csMD)
         | None => Ret (totalVarDecls s)
         end;
  Ret (mkStatistics (shouldPrintReport s) (numFunctions s) reachable total hist inclHist covered
         actually vars (conditionalBranchesInclHist s) (reverseConditionalBranchesInclHist s)
         (rooflineInclHist s) (loopDepthInclHist s) (globalLoopDepthInclHist s), q.1, i.1, ra).

Definition set_numFunctions (n : Z) (s : StatisticsEstimatorPhase) : StatisticsEstimatorPhase :=
  mkStatistics (shouldPrintReport s) n (numReachableFunctions s) (totalStmts s) (stmtHist s)
    (stmtInclHist s) (stmtsCoveredWithInstr s) (stmtsActuallyCovered s) (totalVarDecls s)
    (conditionalBranchesInclHist s) (reverseConditionalBranchesInclHist s) (rooflineInclHist s)
    (loopDepthInclHist s) (globalLoopDepthInclHist s).

Definition Statistics_modifyGraph (cfg : GlobalConfig) (fuel : nat) (s : StatisticsEstimatorPhase)
    (graph : Callgraph) : outcome (StatisticsEstimatorPhase * Callgraph) :=
  let s := set_numFunctions (Z.of_nat (length (nodes graph))) s in
  sce ← StatementCount_modifyGraph cfg fuel None (StatementCount_new 999999999 true None) graph;
  heuristicMode ← getSelectedHeuristic cfg;
  g ← match heuristic_kind heuristicMode with
      | None => Ret sce.2
      | Some k =>
          r ← SummingCount_modifyGraph cfg fuel None (SummingCount_new k limitThreshold None) sce.2;
          Ret r.2
      end;
  st ← foldM (for_reachable fuel collect_statistics) (s, sce.1, g, Reach_new) (node_ptrs g);
  Ret (st.1.1.1, st.1.2).

(** The values the report starts from; it is undefined on empty histograms. *)
Definition Statistics_report (s : StatisticsEstimatorPhase) : outcome (option (Z * Z * Z * Z * Z * Z)) :=
  if shouldPrintReport s then
    medianNumSingleStmts ← getUniqueMedianFromHist (stmtHist s);
    medianNumStmts ← getUniqueMedianFromHist (stmtInclHist s);
    maxNumSingleStmts ← max_element (hist_keys (stmtHist s));
    minNumSingleStmts ← match hist_keys (stmtHist s) with
                        | [] => UB | x :: l => Ret (foldl Z.min x l) end;
    maxNumStmts ← max_element (hist_keys (stmtInclHist s));
    minNumStmts ← match hist_keys (stmtInclHist s) with
                  | [] => UB | x :: l => Ret (foldl Z.min x l) end;
    Ret (Some (maxNumStmts, medianNumStmts, minNumStmts, maxNumSingleStmts, medianNumSingleStmts,
               minNumSingleStmts))
  else Ret None.
End counts.
