(* ===== verification/PgisReach.v ===== *)
(** * PGIS: loops over the reachable functions

    What the counting phases share: sums over sets of nodes, the walk that adds
    up a value of every function reachable from a node
    ([push_reachable] in a [visit_turn]), the pass over all nodes that skips
    the unreachable ones ([for_reachable]), and the instrumentation of call
    sites ([mark_call_sites]). *)

From S2P Require Import Prelude Json MetaData BuiltinMD Callgraph CallgraphWf.
From S2P Require Import CallgraphOps CallgraphSpec CallgraphProps Worklist Reach.
From S2P Require Import Dominators PgisMD PgisAccess PgisWalk CgHelper.
From S2P Require Import PgisConfig PgisPhases PgisCounts.

(** ** Sums over sets *)

Definition list_sum (f : NodePtr → Z) (l : list NodePtr) : Z := foldr (λ p z, f p + z)%Z 0%Z l.
Definition set_sum (f : NodePtr → Z) (X : gset NodePtr) : Z := list_sum f (elements X).

#[export] Instance list_sum_perm f : Proper ((≡ₚ) ==> (=)) (list_sum f).
Proof. intros l l' Hl. unfold list_sum. induction Hl; simpl in *; lia. Qed.

Lemma list_sum_app f l l' : list_sum f (l ++ l') = (list_sum f l + list_sum f l')%Z.
Proof. unfold list_sum. induction l as [|x k IH]; simpl in *; lia. Qed.

Lemma list_sum_snoc f l p : list_sum f (l ++ [p]) = (list_sum f l + f p)%Z.
Proof. rewrite list_sum_app. cbn. lia. Qed.

Lemma list_sum_nonneg f l : (∀ p, p ∈ l → 0 ≤ f p)%Z → (0 ≤ list_sum f l)%Z.
Proof.
  intros Hf. unfold list_sum. induction l as [|p l IH]; simpl; [done|].
  pose proof (Hf p ltac:(by left)). assert (∀ q, q ∈ l → 0 ≤ f q)%Z as H2 by (intros; apply Hf; by right).
  specialize (IH H2). lia.
Qed.

Lemma set_sum_empty f : set_sum f ∅ = 0%Z.
Proof. unfold set_sum. by rewrite elements_empty. Qed.

Lemma set_sum_insert f p X : p ∉ X → set_sum f ({[p]} ∪ X) = (set_sum f X + f p)%Z.
Proof.
  intros Hp. unfold set_sum. rewrite elements_union_singleton by done. unfold list_sum. simpl. lia.
Qed.

Lemma set_sum_le f X Y : X ⊆ Y → (∀ p, p ∈ Y → 0 ≤ f p)%Z → (set_sum f X ≤ set_sum f Y)%Z.
Proof.
  intros HXY Hf. unfold set_sum.
  destruct (submseteq_Permutation _ _ (elements_submseteq X Y HXY)) as [k Hk]. rewrite Hk, list_sum_app.
  assert (0 ≤ list_sum f k)%Z; [|lia]. apply list_sum_nonneg. intros p Hp. apply Hf, elem_of_elements.
  rewrite Hk, elem_of_app. by right.
Qed.

Lemma set_sum_nonneg f X : (∀ p, p ∈ X → 0 ≤ f p)%Z → (0 ≤ set_sum f X)%Z.
Proof. intros Hf. apply list_sum_nonneg. intros p Hp%elem_of_elements. by apply Hf. Qed.

Section reach.
Context {JO : JsonOps} {MDI : MetaDataI} {IO : IterOrder} `{!PgisClasses}.
Context (g : Callgraph) (Hwf : wf g) (Hfull : full g) (m : NodeId) (Hm : mainNode g = Some m).

Definition from_main (i : NodeId) : Prop := rtc (calls g) m i.

Lemma reachable_from_main i R p : from_main i → reachable_set g i R → p ∈ R → ∃ j, p = Some j ∧ from_main j.
Proof using Type. clear Hwf Hfull Hm. intros Hi HR (j & -> & Hj)%HR. exists j. split; [done|]. unfold from_main in *. by etrans. Qed.

Lemma reachable_in_slots i R : live g i → reachable_set g i R → R ⊆ slots g.
Proof using Hwf.
  intros Hi HR p (j & -> & Hj)%HR. apply elem_of_list_to_set, list_elem_of_fmap_2, elem_of_seq.
  apply (rtc_calls_live g Hwf) in Hj; [|done]. apply live_lt in Hj. lia.
Qed.

Lemma push_reachable_ret : ∃ N, ∀ K g1 ra l, frame K g g1 → cache_ok g ra →
  (∀ p, p ∈ l → ∃ j, p = Some j ∧ from_main j) →
  ∃ ra', (∀ fuel, N ≤ fuel → push_reachable fuel (g1, ra) l ⇓ (g1, ra', l)) ∧ cache_ok g ra'.
Proof using Hwf Hfull Hm.
  destruct (isReachableFromMain_ret g m Hwf Hm) as (N & HN). exists N. intros K g1 ra l Hfr Hok Hl.
  destruct (foldM_fuel (λ dn st, st.1.1 = g1 ∧ cache_ok g st.1.2 ∧ st.2 = dn)
    (λ fuel (st : Callgraph * ReachabilityAnalysis * list NodePtr) childNode,
      r ← isReachableFromMain st.1.1 fuel st.1.2 childNode false;
      Ret (r.1, if r.2 : bool then st.2 ++ [childNode] else st.2)) N l (g1, ra, []))
    as ([[g2 ra2] l2] & (Hg & Hok2 & Hl2) & Hrun).
  - done.
  - intros dn p rest [[g2 ra2] l2] Hlp (Hg & Hok2 & Hl2). cbn [fst snd] in *. subst g2 l2.
    destruct (HN g1 ra2 p false (frame_same_callees Hfr) ltac:(by rewrite (frame_main Hfr)) Hok2)
      as (ra3 & b & Hb & Hok3 & Hbj).
    assert (b = true) as -> by (apply Hbj, Hl; rewrite Hlp; set_solver).
    exists (g1, ra3, dn ++ [p]). split; [done|]. intros fuel Hfu. by rewrite Hb.
  - cbn [fst snd] in *. subst g2 l2. by exists ra2.
Qed.

(** ** Counting along the calls *)

Section count.
Context (f : NodePtr → Z) (lim : Z).
(** Nothing is negative, and all functions together stay below the limit. *)
Context (Hf : ∀ i, live g i → (0 ≤ f (Some i))%Z) (Hlim : (set_sum f (slots g) ≤ lim)%Z).

Lemma slots_live p : p ∈ slots g → ∃ i, p = Some i ∧ live g i.
Proof using Hfull.
  intros (i & -> & Hi%elem_of_seq)%elem_of_list_to_set%list_elem_of_fmap. exists i. split; [done|]. apply Hfull. lia.
Qed.

Lemma f_nonneg p : p ∈ slots g → (0 ≤ f p)%Z.
Proof using Hfull Hf. intros (i & -> & Hi)%slots_live. by apply Hf. Qed.

Lemma sum_le_lim X : X ⊆ slots g → (0 ≤ set_sum f X ≤ lim)%Z.
Proof using Hwf Hfull Hm Hf Hlim.
  intros HX. split; [apply set_sum_nonneg; intros p Hp; apply f_nonneg; set_solver|].
  etrans; [apply (set_sum_le _ _ _ HX), f_nonneg|done].
Qed.

Lemma member_le_lim i : live g i → (0 ≤ f (Some i) ≤ lim)%Z.
Proof using Hwf Hfull Hm Hf Hlim.
  intros Hi. split; [by apply Hf|]. assert ({[Some i]} ∪ ∅ ⊆ slots g) as Hs.
  { apply union_subseteq. split; [|set_solver]. intros p ->%elem_of_singleton.
    apply elem_of_list_to_set, list_elem_of_fmap_2, elem_of_seq. apply live_lt in Hi. lia. }
  pose proof (sum_le_lim _ Hs) as Hle. rewrite set_sum_insert, set_sum_empty in Hle by set_solver. lia.
Qed.

(** The walk of a phase whose visit adds [f] of a node to the count. *)
Lemma count_walk (I : Callgraph → Prop) (K : gset string) N
    (visit : nat → Callgraph * ReachabilityAnalysis * Z → NodePtr →
             outcome (Callgraph * ReachabilityAnalysis * Z * list NodePtr)) gs ra i :
  (∀ g1, I g1 → frame K g g1) →
  (∀ g1 ra1 c j, I g1 → cache_ok g ra1 → live g j → from_main j → (0 ≤ c)%Z → (c + f (Some j) ≤ lim)%Z →
     ∃ g2 ra2, (∀ k, N ≤ k → visit k (g1, ra1, c) (Some j)
                  ⇓ (g2, ra2, c + f (Some j), iter_set (next g Forward (Some j)))%Z) ∧
       I g2 ∧ cache_ok g ra2) →
  I gs → cache_ok g ra → from_main i →
  ∃ g2 ra2 R, reachable_set g i R ∧ I g2 ∧ cache_ok g ra2 ∧
    ∀ fuel, N + S (S (size (edges g))) ≤ fuel →
      loop fuel (visit_turn (visit fuel)) (gs, ra, 0%Z, ∅, [Some i]) ⇓ (g2, ra2, set_sum f R, R).
Proof using Hwf Hfull Hm Hf Hlim.
  intros HI Hvisit HIs Hok Hi. assert (live g i) as Hli by (eapply (rtc_calls_live g Hwf), (wf_main _ Hwf), Hm; done).
  destruct (walk_loop g Hwf Forward (calls g) (λ _ _ H, H) [i] ltac:(set_solver) visit N
    (λ V st, I st.1.1 ∧ cache_ok g st.1.2 ∧ V ⊆ slots g ∧ st.2 = set_sum f V) (gs, ra, 0%Z))
    as ([[g2 ra2] c] & R & (HI2 & Hok2 & HVs & Hc) & HR & Hrun).
  - cbn [fst snd]. split_and!; [done|done|set_solver|by rewrite set_sum_empty].
  - intros V [[g1 ra1] c] j (HI1 & Hok1 & HVs & Hc) Hj (i' & ->%list_elem_of_singleton & Hij) Hlj.
    cbn [fst snd] in *. subst c.
    assert ({[Some j]} ∪ V ⊆ slots g) as HVs2.
    { apply union_subseteq. split; [|done]. intros p ->%elem_of_singleton. apply elem_of_list_to_set, list_elem_of_fmap_2, elem_of_seq.
      apply live_lt in Hlj. lia. }
    destruct (Hvisit g1 ra1 (set_sum f V) j HI1 Hok1 Hlj) as (g2 & ra2 & Hr & HI2 & Hok2).
    + unfold from_main in *. by etrans.
    + apply sum_le_lim, HVs.
    + rewrite <- set_sum_insert by done. apply sum_le_lim, HVs2.
    + exists (g2, ra2, set_sum f V + f (Some j))%Z, (next g Forward (Some j)). cbn [fst snd].
      split_and!; [done| |done..|by rewrite set_sum_insert].
      intros p. by apply elem_of_callees.
  - cbn [fst snd] in *. subst c. exists g2, ra2, R. split_and!; [|done|done|].
    + intros p. rewrite HR. unfold walked_to. set_solver.
    + intros fuel Hfu. cbn in Hrun. rewrite Hrun; [done|lia|lia].
Qed.
End count.
(** ** The pass over all nodes *)

Lemma for_reachable_ret {A} (K : gset string) (P : list NodePtr → A → Callgraph → Prop) N
    (body : nat → A * Callgraph * ReachabilityAnalysis → NodePtr → outcome (A * Callgraph * ReachabilityAnalysis)) a0 g0 :
  frame K g g0 → P [] a0 g0 →
  (∀ dn i a g1 ra, frame K g g1 → cache_ok g ra → P dn a g1 → live g i → Some i ∉ dn →
     (from_main i → ∃ a' g2 ra', (∀ fuel, N ≤ fuel → body fuel (a, g1, ra) (Some i) ⇓ (a', g2, ra')) ∧
        frame K g g2 ∧ cache_ok g ra' ∧ P (dn ++ [Some i]) a' g2) ∧
     (¬ from_main i → P (dn ++ [Some i]) a g1)) →
  ∃ N' a g2 ra, frame K g g2 ∧ P (node_ptrs g) a g2 ∧
    ∀ fuel, N' ≤ fuel → foldM (for_reachable fuel (body fuel)) (a0, g0, Reach_new) (node_ptrs g) ⇓ (a, g2, ra).
Proof using Hwf Hfull Hm.
  intros Hf0 HP0 Hbody. destruct (isReachableFromMain_ret g m Hwf Hm) as (N0 & HN).
  destruct (foldM_fuel (λ dn st, frame K g st.1.2 ∧ cache_ok g st.2 ∧ P dn st.1.1 st.1.2)
    (λ fuel, for_reachable fuel (body fuel)) (N0 + N) (node_ptrs g) (a0, g0, Reach_new))
    as ([[a g2] ra] & (Hf2 & Hok2 & HP2) & Hrun).
  - split_and!; [done|apply cache_ok_new|done].
  - intros dn p rest [[a g1] ra] Hlp (Hf1 & Hok1 & HP1). cbn [fst snd] in *.
    destruct (elem_of_node_ptrs g p Hwf Hfull) as (i & -> & Hi); [rewrite Hlp; set_solver|].
    assert (Some i ∉ dn) as Hfresh.
    { pose proof (node_ptrs_NoDup g Hwf Hfull) as Hnd. rewrite Hlp in Hnd.
      apply NoDup_app in Hnd as (_ & Hd & _). intros Hin. apply (Hd _ Hin). by left. }
    destruct (HN g1 ra (Some i) false (frame_same_callees Hf1) ltac:(by rewrite (frame_main Hf1)) Hok1)
      as (ra1 & b & Hb & Hokb & Hbi).
    assert (b = true ↔ from_main i) as Hbi' by (rewrite Hbi; unfold from_main; naive_solver).
    assert (live g1 i) as [n Hn] by (by apply (frame_live Hf1)).
    assert (∀ fuel, N0 + N ≤ fuel → for_reachable fuel (body fuel) (a, g1, ra) (Some i) =
      if b then body fuel (a, g1, ra1) (Some i) else Ret (a, g1, ra1)) as Hfor.
    { intros fuel Hfu. unfold for_reachable. cbn [fst snd]. rewrite (ptr_node_ret _ _ _ Hn), bind_ret, Hb by lia. done. }
    destruct (Hbody dn i a g1 ra1 Hf1 Hokb HP1 Hi Hfresh) as [Hyes Hno]. destruct b.
    + destruct Hyes as (a' & g3 & ra3 & Hr & Hf3 & Hok3 & HP3); [by apply Hbi'|].
      exists (a', g3, ra3). split; [done|]. intros fuel Hfu. rewrite Hfor by done. apply Hr. lia.
    + exists (a, g1, ra1). split; [|intros fuel Hfu; by rewrite Hfor by done]. split_and!; [done..|].
      apply Hno. intros ?%Hbi'. done.
  - exists (N0 + N), a, g2, ra. done.
Qed.

(** ** Instrumenting call sites *)

(** A function without a body that took no time. *)
Definition untimed (i : NodeId) : bool :=
  match node_at g i with
  | Some n => negb (hasBody n) &&
      match node_get BaseProfileData n with Ret (Some b) => d_eq (timeInSeconds b) d_zero | _ => false end
  | None => false
  end.

(** Every function without a body has a profile. *)
Definition profiled : Prop := ∀ i n, node_at g i = Some n → hasBody n = false →
  ∃ b, node_get BaseProfileData n ⇓ Some b.

Lemma frame_node_get (T : Type) `{!HasKey T} `{!MDCast T} K g1 i n n1 :
  frame K g g1 → T_key T ∉ K → node_at g i = Some n → node_at g1 i = Some n1 →
  node_get T n1 = node_get T n.
Proof using Type.
  clear Hwf Hfull Hm m. intros Hfr HK Hn Hn1. destruct (frame_node Hfr i n Hn) as (n' & Hn' & _ & _ & _ & _ & _ & E).
  rewrite Hn1 in Hn'. injection Hn' as <-. unfold node_get, md_get. by rewrite E.
Qed.

Lemma mark_call_sites_ret K g1 i s : frame K g g1 → T_key BaseProfileData ∉ K → profiled → live g i →
  mark g1 i = Some s →
  ∃ g2, mark_call_sites g1 (Some i) ⇓ g2 ∧ frame ({[IMD_key]} ∪ K) g g2 ∧ frame {[IMD_key]} g1 g2 ∧
    ∀ j, mark g2 j = if decide (j = i ∧ untimed i = true) then Some InstrumentedPath else mark g1 j.
Proof using Type.
  clear Hwf Hfull Hm m. intros Hfr HK Hprof [n Hn] Hs. destruct (frame_node Hfr i n Hn) as (n1 & Hn1 & _ & _ & Hbody & _).
  pose proof (frame_node_get BaseProfileData K g1 i n n1 Hfr HK Hn Hn1) as Hget.
  assert (∃ b, (if negb (hasBody n1) then b ← ptr_get BaseProfileData g1 (Some i); b ← deref b; Ret (d_eq (timeInSeconds b) d_zero)
                else Ret false) ⇓ b ∧ b = untimed i) as (b & Hb & Hbu).
  { unfold untimed. rewrite Hn, Hbody. destruct (hasBody n) eqn:Hhb; [by exists false|].
    destruct (Hprof i n Hn Hhb) as (b & Hgb). unfold ptr_get. rewrite (ptr_node_ret _ _ _ Hn1), bind_ret, Hget, Hgb.
    cbn. by eexists. }
  assert (mark_call_sites g1 (Some i) = if b then instrumentPathNode g1 (Some i) else Ret g1) as Hmc.
  { unfold mark_call_sites. rewrite (ptr_node_ret _ _ _ Hn1), bind_ret.
    destruct (negb (hasBody n1)); [|by injection Hb as <-].
    apply bind_ret_inv in Hb as (bpd & Hp & Hb). apply bind_ret_inv in Hb as (b0 & Hd & Hb).
    rewrite Hp, bind_ret, Hd, bind_ret. by injection Hb as ->. }
  rewrite Hmc, <- Hbu. destruct b.
  - destruct (instrumentPathNode_ret g1 i s Hs) as (g2 & Hr & Hf2 & Hm2). exists g2. split_and!; [done| |done|].
    + eapply frame_trans; [eapply frame_mono, Hfr; set_solver|eapply frame_mono, Hf2; set_solver].
    + intros j. rewrite Hm2. destruct (decide (j = i)); [by rewrite decide_True|by rewrite decide_False by tauto].
  - exists g1. split_and!; [done|eapply frame_mono, Hfr; set_solver|apply frame_refl|].
    intros j. rewrite decide_False; [done|]. by intros [_ ?].
Qed.
End reach.
