(* ===== verification/PgisCountsProps.v ===== *)
(** * PGIS: what the counting phases select

    The statement count and the summing count phases of
    [pgis/lib/src/IPCGEstimatorPhase.cpp] stop, count every reachable function
    over the functions it can reach, and mark the functions at or above the
    threshold; the functions that main does not reach keep their marks. *)

From S2P Require Import Prelude Json MetaData BuiltinMD Callgraph CallgraphWf.
From S2P Require Import CallgraphOps CallgraphSpec CallgraphProps Worklist Reach.
From S2P Require Import Dominators PgisMD PgisAccess PgisWalk CgHelper.
From S2P Require Import PgisConfig PgisPhases PgisCounts PgisReach.

Section counts.
Context {JO : JsonOps} {MDI : MetaDataI} {IO : IterOrder} `{!PgisClasses}.
Context (g : Callgraph) (Hwf : wf g) (Hfull : full g) (m : NodeId) (Hm : mainNode g = Some m).
Context (Hmarks : marks_ok g).

(** ** The mark of a function after its turn *)

Definition verdict_of (use_call_sites selected : bool) (i : NodeId) (old : option InstrumentationState)
    : option InstrumentationState :=
  if use_call_sites && untimed g i then Some InstrumentedPath
  else if selected then Some Instrumented else old.

Lemma select_ret K g1 i s sel use :
  frame K g g1 → T_key BaseProfileData ∉ K → IMD_key ∈ K → (use = true → profiled g) → live g i →
  mark g1 i = Some s →
  ∃ g2 g3, (if sel : bool then instrumentNode g1 (Some i) else Ret g1) ⇓ g2 ∧
    (if use : bool then mark_call_sites g2 (Some i) else Ret g2) ⇓ g3 ∧
    frame K g g3 ∧ frame {[IMD_key]} g1 g3 ∧
    ∀ j, mark g3 j = if decide (j = i) then verdict_of use sel i (mark g1 i) else mark g1 j.
Proof using Hwf Hfull Hm Hmarks.
  intros Hf HK HI Hp Hi Hs. assert ({[IMD_key]} ⊆ K) as HIK by set_solver.
  assert (∃ g2, (if sel then instrumentNode g1 (Some i) else Ret g1) ⇓ g2 ∧ frame {[IMD_key]} g1 g2 ∧
    ∀ j, mark g2 j = if decide (j = i ∧ sel = true) then Some Instrumented else mark g1 j) as (g2 & Hr2 & Hf2 & Hm2).
  { destruct sel; [|exists g1; split_and!; [done|apply frame_refl|intros j; by rewrite decide_False by by intros []]].
    destruct (instrumentNode_ret g1 i s Hs) as (g2 & Hr & Hf2 & Hm2). exists g2. split_and!; [done..|].
    intros j. rewrite Hm2. destruct (decide (j = i)); [by rewrite decide_True|by rewrite decide_False by tauto]. }
  exists g2. pose proof (frame_trans _ _ _ _ Hf (frame_mono _ _ _ _ HIK Hf2)) as Hfg2.
  assert (∃ s2, mark g2 i = Some s2) as [s2 Hs2] by (rewrite Hm2, Hs; destruct (decide _); by eexists).
  assert (mark g2 i = if sel then Some Instrumented else mark g1 i) as Hsel.
  { rewrite Hm2. destruct sel; [by rewrite decide_True|by rewrite decide_False by by intros []]. }
  destruct use.
  - destruct (mark_call_sites_ret g K g2 i s2 Hfg2 HK (Hp eq_refl) Hi Hs2) as (g3 & Hr3 & Hf3 & Hf23 & Hm3).
    exists g3. split_and!; [done..|eapply frame_mono, Hf3; set_solver|by eapply frame_trans|].
    intros j. rewrite Hm3. unfold verdict_of. cbn [andb]. destruct (decide (j = i)) as [->|Hne].
    + destruct (untimed g i); [by rewrite decide_True|]. rewrite decide_False by by intros []. apply Hsel.
    + rewrite decide_False by tauto. rewrite Hm2. by rewrite decide_False by tauto.
  - exists g2. split_and!; [done..|]. intros j. destruct (decide (j = i)) as [->|Hne].
    + unfold verdict_of. cbn [andb]. apply Hsel.
    + rewrite Hm2. by rewrite decide_False by tauto.
Qed.

(** ** The pass of a counting phase *)

Section pass.
Context (f : NodePtr → Z) (lim : Z) (t : Z) (use inc : bool).

(** The count of a function that reaches the nodes [R]. *)
Definition total (i : NodeId) (R : gset NodePtr) : Z := if inc then set_sum f R else f (Some i).
Definition selected (i : NodeId) (R : gset NodePtr) : bool := bool_decide (t ≤ total i R)%Z.

(** What a phase leaves behind: the marks, and the counts it recorded. *)
Definition pass_result (rec : bool) (cnt0 cnt : gmap NodePtr Z) (dn : list NodePtr) (g2 : Callgraph) : Prop :=
  ∀ i R, live g i → reachable_set g i R →
  (Some i ∈ dn → from_main g m i →
     mark g2 i = verdict_of use (selected i R) i (mark g i) ∧
     (rec = true → cnt !! Some i = Some (total i R))) ∧
  (Some i ∉ dn ∨ ¬ from_main g m i → mark g2 i = mark g i ∧ cnt !! Some i = cnt0 !! Some i).

Lemma pass_ret {A} (K : gset string) (cnt : A → gmap NodePtr Z) (rec : bool) (Inv : A → Callgraph → Prop) N
    (body : nat → A * Callgraph * ReachabilityAnalysis → NodePtr → outcome (A * Callgraph * ReachabilityAnalysis)) a0 :
  Inv a0 g →
  (∀ i a g1 ra s, frame K g g1 → cache_ok g ra → Inv a g1 → live g i → from_main g m i → mark g1 i = Some s →
     ∃ R a' g2 ra', (∀ fuel, N ≤ fuel → body fuel (a, g1, ra) (Some i) ⇓ (a', g2, ra')) ∧
       frame K g g2 ∧ cache_ok g ra' ∧ Inv a' g2 ∧ reachable_set g i R ∧
       cnt a' = (if rec then <[Some i := total i R]> (cnt a) else cnt a) ∧
       ∀ j, mark g2 j = if decide (j = i) then verdict_of use (selected i R) i (mark g1 i) else mark g1 j) →
  ∃ N' a g2 ra, frame K g g2 ∧ Inv a g2 ∧ pass_result rec (cnt a0) (cnt a) (node_ptrs g) g2 ∧
    ∀ fuel, N' ≤ fuel → foldM (for_reachable fuel (body fuel)) (a0, g, Reach_new) (node_ptrs g) ⇓ (a, g2, ra).
Proof using Hwf Hfull Hm Hmarks.
  intros HI0 Hbody.
  destruct (for_reachable_ret g Hwf Hfull m Hm K
    (λ dn a g2, Inv a g2 ∧ pass_result rec (cnt a0) (cnt a) dn g2) N body a0 g)
    as (N' & a & g2 & ra & Hf & (HI & HP) & Hrun); [apply frame_refl|split; [done|]| |by exists N', a, g2, ra].
  { intros i R Hi HR. split; [by intros ?%elem_of_nil|done]. }
  intros dn i a g1 ra Hf1 Hok1 [HI1 HP1] Hi Hfresh. split.
  - intros Hfm. destruct (reach_loop_ret g Hwf i Hi) as (R0 & _ & HR0 & _).
    pose proof (proj1 (proj2 (HP1 i R0 Hi HR0) (or_introl Hfresh))) as Hmi. destruct (Hmarks i Hi) as [s Hs].
    destruct (Hbody i a g1 ra s Hf1 Hok1 HI1 Hi Hfm ltac:(by rewrite Hmi)) as
      (R & a' & g2 & ra' & Hr & Hf2 & Hok2 & HI2 & HR & Hcnt & Hm2).
    exists a', g2, ra'. split_and!; [done..|]. intros j Rj Hj HRj. rewrite Hm2, Hcnt.
    destruct (decide (j = i)) as [->|Hne].
    + assert (Rj = R) as -> by (by apply (reachable_set_unique g i)).
      split; [|intros [Hn|?]; [destruct Hn; set_solver|done]]. intros _ _. rewrite Hmi. split; [done|].
      intros ->. by rewrite lookup_insert_eq.
    + assert ((if rec then <[Some i:=total i R]> (cnt a) else cnt a) !! Some j = cnt a !! Some j) as ->.
      { destruct rec; [|done]. by rewrite lookup_insert_ne by congruence. }
      rewrite elem_of_app, list_elem_of_singleton. assert (Some j = Some i ↔ False) as Hji by (split; [congruence|done]).
      destruct (HP1 j Rj Hj HRj) as [HP2 HP3]. split; [intros [?|?%Hji]; [by apply HP2|done]|].
      intros Hor. apply HP3. destruct Hor as [Hor|Hor]; [left|by right]. intros Hin. apply Hor. by left.
  - intros Hnf. split; [done|]. intros j Rj Hj HRj. destruct (HP1 j Rj Hj HRj) as [HP2 HP3]. split.
    + intros Hin Hfj. apply HP2; [|done]. apply elem_of_app in Hin as [?|Hin]; [done|].
      apply list_elem_of_singleton in Hin as [= ->]. done.
    + intros Hor. apply HP3. destruct Hor as [Hor|Hor]; [left|by right]. intros Hin. apply Hor, elem_of_app. by left.
Qed.
Context (Huse : use = true → profiled g).
Context (Hpos : ∀ i, live g i → (0 ≤ f (Some i))%Z) (Hlim : (set_sum f (slots g) ≤ lim)%Z).

(** ** [StatementCountEstimatorPhase] *)

Section statements.
(** [f] gives the statements of a function, and an [int] holds all of them. *)
Context (Hstmts : ∀ i, live g i → ∃ p, md_view PiraOneData g i = Some p ∧ numStmts p = f (Some i)).
Context (Hint : lim = INT_MAX) (cfg : GlobalConfig) (Hcfg : getAs bool cfg useCallSiteInstrumentation ⇓ use).

Definition stmt_keys : gset string := {[IMD_key; T_key PiraOneData]}.

Definition same_pods (g1 : Callgraph) : Prop :=
  ∀ j, md_view PiraOneData g1 j = md_view PiraOneData g j.

Lemma read_pod g1 i : frame stmt_keys g g1 → same_pods g1 → live g i →
  ∃ g2 p, ptr_getOrCreate PiraOneData g1 (Some i) ⇓ (g2, p) ∧ numStmts p = f (Some i) ∧
    frame stmt_keys g g2 ∧ same_pods g2 ∧ ∀ j, mark g2 j = mark g1 j.
Proof using All.
  intros Hf Hsame Hi. destruct (Hstmts i Hi) as (p & Hp & Hn). rewrite <- Hsame in Hp.
  destruct (ptr_getOrCreate_ret _ g1 i p Hp) as (g2 & Hr & Hf2 & Hv). exists g2, p. split_and!; [done|done| | |].
  - eapply frame_trans; [exact Hf|]. eapply frame_mono; [|exact Hf2]. unfold stmt_keys. set_solver.
  - intros j. by rewrite Hv, Hsame.
  - intros j. apply (mark_frame _ _ _ _ Hf2). by apply not_elem_of_singleton.
Qed.

Lemma statement_walk : ∃ N, ∀ gs ra i, frame stmt_keys g gs → same_pods gs → cache_ok g ra → from_main g m i →
  ∃ g2 ra2 R, reachable_set g i R ∧ frame stmt_keys g g2 ∧ same_pods g2 ∧ (∀ j, mark g2 j = mark gs j) ∧
    cache_ok g ra2 ∧ ∀ fuel, N ≤ fuel →
      loop fuel (visit_turn (statement_visit fuel)) (gs, ra, 0%Z, ∅, [Some i]) ⇓ (g2, ra2, set_sum f R, R).
Proof using All.
  destruct (push_reachable_ret g Hwf Hfull m Hm) as (N & HN).
  exists (N + S (S (size (edges g)))). intros gs ra i Hf Hs Hok Hi.
  destruct (count_walk g Hwf Hfull m Hm f lim Hpos Hlim
    (λ g1, frame stmt_keys g g1 ∧ same_pods g1 ∧ ∀ j, mark g1 j = mark gs j) stmt_keys N statement_visit gs ra i)
    as (g2 & ra2 & R & HR & (Hf2 & Hs2 & Hm2) & Hok2 & Hrun); [by intros ? []| |done..|naive_solver].
  intros g1 ra1 c j (Hf1 & Hs1 & Hm1) Hok1 Hj Hfj Hc Hc2.
  destruct (read_pod g1 j Hf1 Hs1 Hj) as (g2 & p & Hr & Hp & Hf2 & Hs2 & Hm2).
  destruct (HN stmt_keys g2 ra1 (iter_set (next g Forward (Some j))) Hf2 Hok1) as (ra2 & Hpush & Hok2).
  { intros q Hq%elem_of_iter_set. apply (elem_of_callees g j q Hwf) in Hq as (k & -> & Hk). exists k.
    split; [done|]. by eapply rtc_r. }
  exists g2, ra2. split_and!; [|done|done|intros k; by rewrite Hm2|done].
  intros k Hk. unfold statement_visit. cbn [fst snd]. rewrite Hr, bind_ret. cbn [fst snd].
  rewrite Hp, int_add_ret, bind_ret by (rewrite Hint in Hc2; unfold is_int, INT_MIN, INT_MAX in *; pose proof (Hpos j Hj); lia).
  rewrite callees_ptr_ret by first [by apply (frame_wf Hf2)|by apply (frame_live Hf2)].
  rewrite bind_ret, (frame_next Hf2), Hpush, bind_ret by done. done.
Qed.

Definition stmt_inv (ph : StatementCountEstimatorPhase) (g1 : Callgraph) : Prop :=
  numberOfStatementsThreshold ph = t ∧ inclusiveMetric ph = inc ∧ same_pods g1.

Lemma estimateStatementCount_ret : ∃ N, ∀ i ph g1 ra s,
  frame stmt_keys g g1 → cache_ok g ra → stmt_inv ph g1 → live g i → from_main g m i → mark g1 i = Some s →
  ∃ R ph' g2 ra', (∀ fuel, N ≤ fuel → estimateStatementCount cfg fuel (ph, g1, ra) (Some i) ⇓ (ph', g2, ra')) ∧
    frame stmt_keys g g2 ∧ cache_ok g ra' ∧ stmt_inv ph' g2 ∧ reachable_set g i R ∧
    inclStmtCounts ph' = (if inc then <[Some i := total i R]> (inclStmtCounts ph) else inclStmtCounts ph) ∧
    ∀ j, mark g2 j = if decide (j = i) then verdict_of use (selected i R) i (mark g1 i) else mark g1 j.
Proof using All.
  destruct statement_walk as (N & HN). exists N. intros i ph g1 ra s Hf Hok (Ht & Hi & Hs) Hli Hfm Hms.
  assert (∃ ph1 g2 ra2 R, reachable_set g i R ∧ frame stmt_keys g g2 ∧ same_pods g2 ∧
    (∀ j, mark g2 j = mark g1 j) ∧ cache_ok g ra2 ∧ numberOfStatementsThreshold ph1 = t ∧ inclusiveMetric ph1 = inc ∧
    inclStmtCounts ph1 = (if inc then <[Some i := total i R]> (inclStmtCounts ph) else inclStmtCounts ph) ∧
    ∀ fuel, N ≤ fuel → (if inclusiveMetric ph then
         r ← loop fuel (visit_turn (statement_visit fuel)) (g1, ra, 0%Z, ∅, [Some i]);
         Ret (mkStatementCount (numberOfStatementsThreshold ph) (inclusiveMetric ph)
                (<[Some i := r.1.2]> (inclStmtCounts ph)) (sc_pSEP ph), r.1)
       else
         snPOD ← ptr_getOrCreate PiraOneData g1 (Some i);
         Ret (ph, (snPOD.1, ra, numStmts snPOD.2))) ⇓ (ph1, (g2, ra2, total i R)))
    as (ph1 & g2 & ra2 & R & HR & Hf2 & Hs2 & Hm2 & Hok2 & Ht2 & Hi2 & Hc2 & Hrun).
  { rewrite Hi, Ht. unfold total. destruct inc.
    - destruct (HN g1 ra i Hf Hs Hok Hfm) as (g2 & ra2 & R & HR & Hf2 & Hs2 & Hm2 & Hok2 & Hrun).
      exists (mkStatementCount t true (<[Some i := set_sum f R]> (inclStmtCounts ph)) (sc_pSEP ph)), g2, ra2, R.
      split_and!; [done..|]. intros fuel Hfu. by rewrite Hrun, bind_ret by done.
    - destruct (read_pod g1 i Hf Hs Hli) as (g2 & p & Hr & Hp & Hf2 & Hs2 & Hm2).
      destruct (reach_loop_ret g Hwf i Hli) as (R & _ & HR & _).
      exists ph, g2, ra, R. split_and!; [done..|]. intros fuel _. by rewrite Hr, bind_ret, <- Hp. }
  destruct (select_ret stmt_keys g2 i s (selected i R) use Hf2) as (g3 & g4 & Hr3 & Hr4 & Hf4 & Hf24 & Hm4);
    [by vm_compute|unfold stmt_keys; set_solver|done|done|by rewrite Hm2|].
  exists R, ph1, g4, ra2. split_and!; [|done|done| |done|done|].
  - intros fuel Hfu. unfold estimateStatementCount. rewrite Hrun, bind_ret by done. cbn [fst snd]. rewrite Ht2.
    assert ((if decide (total i R >= t)%Z then instrumentNode g2 (Some i) else Ret g2) ⇓ g3) as ->.
    { rewrite <- Hr3. unfold selected. case_bool_decide; [rewrite decide_True by lia|rewrite decide_False by lia]; done. }
    rewrite bind_ret, Hcfg, bind_ret, Hr4. done.
  - split_and!; [done..|]. intros j. rewrite <- Hs2. apply (md_view_frame _ _ _ _ _ Hf24). by apply not_elem_of_singleton.
  - intros j. rewrite Hm4, !Hm2. done.
Qed.

Lemma StatementCount_pass ph :
  numberOfStatementsThreshold ph = t → inclusiveMetric ph = inc →
  ∃ N ph' g', frame stmt_keys g g' ∧ stmt_inv ph' g' ∧
    pass_result inc (inclStmtCounts ph) (inclStmtCounts ph') (node_ptrs g) g' ∧
    ∀ fuel, N ≤ fuel → ∃ ra,
      foldM (for_reachable fuel (estimateStatementCount cfg fuel)) (ph, g, Reach_new) (node_ptrs g) ⇓ (ph', g', ra).
Proof using All.
  intros Ht Hi. destruct estimateStatementCount_ret as (N & HN).
  destruct (pass_ret stmt_keys inclStmtCounts inc stmt_inv N (λ fuel, estimateStatementCount cfg fuel) ph)
    as (N' & ph' & g' & ra & Hf & HI & HP & Hrun); [done|exact HN|].
  exists N', ph', g'. split_and!; [done..|]. intros fuel Hfu. exists ra. by apply Hrun.
Qed.
End statements.

(** ** [SummingCountPhaseBase] *)

Section summing.
Context (k : CountKind) (mb : Z) (Hlong : (lim ≤ LONG_MAX)%Z) (Hcs : use = true).
(** [f] is what [getTargetCount] yields. *)
Context (Htarget : ∀ ph i, sum_kind ph = k → maxBranches ph = mb → live g i →
  getTargetCount ph g (Some i) ⇓ f (Some i)).

Lemma ptr_get_frame (T : Type) `{!HasKey T} `{!MDCast T} K g1 i :
  frame K g g1 → T_key T ∉ K → live g i → ptr_get T g1 (Some i) = ptr_get T g (Some i).
Proof using Type.
  clear. intros Hf HK [n Hn]. destruct (frame_node Hf i n Hn) as (n1 & Hn1 & _).
  unfold ptr_get. rewrite (ptr_node_ret _ _ _ Hn), (ptr_node_ret _ _ _ Hn1), !bind_ret.
  by apply (frame_node_get g T K g1 i).
Qed.

Lemma getTargetCount_frame ph g1 i : frame {[IMD_key]} g g1 → live g i →
  getTargetCount ph g1 (Some i) = getTargetCount ph g (Some i).
Proof using Type.
  clear. intros Hf Hi. unfold getTargetCount.
  destruct (sum_kind ph); rewrite (ptr_get_frame _ _ g1 i Hf);
    first [done|by apply not_elem_of_singleton].
Qed.

Definition sum_inv (ph : SummingCountPhase) (g1 : Callgraph) : Prop :=
  sum_kind ph = k ∧ maxBranches ph = mb ∧ threshold ph = t ∧ inclusive ph = inc.

Lemma count_reachable : ∃ N, ∀ ph gs ra i, sum_inv ph gs → frame {[IMD_key]} g gs → cache_ok g ra → from_main g m i →
  ∃ ra2 R, reachable_set g i R ∧ cache_ok g ra2 ∧ ∀ fuel, N ≤ fuel →
      loop fuel (visit_turn (count_visit fuel ph)) (gs, ra, 0%Z, ∅, [Some i]) ⇓ (gs, ra2, set_sum f R, R).
Proof using All.
  destruct (push_reachable_ret g Hwf Hfull m Hm) as (N & HN).
  exists (N + S (S (size (edges g)))). intros ph gs ra i (Hk & Hmb & _) Hf Hok Hi.
  destruct (count_walk g Hwf Hfull m Hm f lim Hpos Hlim
    (λ g1, frame {[IMD_key]} g g1 ∧ g1 = gs) {[IMD_key]} N (λ k, count_visit k ph) gs ra i)
    as (g2 & ra2 & R & HR & (Hf2 & ->) & Hok2 & Hrun); [by intros ? []| |done..|by exists ra2, R].
  intros g1 ra1 c j (Hf1 & ->) Hok1 Hj Hfj Hc Hc2.
  destruct (HN {[IMD_key]} gs ra1 (iter_set (next g Forward (Some j))) Hf1 Hok1) as (ra2 & Hpush & Hok2).
  { intros q Hq%elem_of_iter_set. apply (elem_of_callees g j q Hwf) in Hq as (j2 & -> & Hj2). exists j2.
    split; [done|]. by eapply rtc_r. }
  exists gs, ra2. split_and!; [|done..].
  intros n Hn. unfold count_visit. cbn [fst snd]. rewrite getTargetCount_frame, (Htarget ph j), bind_ret by done.
  rewrite long_add_ret, bind_ret by (unfold is_longlong, LONG_MAX in *; pose proof (Hpos j Hj); lia).
  rewrite callees_ptr_ret by first [by apply (frame_wf Hf1)|by apply (frame_live Hf1)].
  rewrite bind_ret, (frame_next Hf1), Hpush, bind_ret by done. done.
Qed.

Lemma f_longlong i : live g i → is_longlong (f (Some i)).
Proof using All.
  intros Hi. pose proof (member_le_lim g Hwf Hfull m Hm f lim Hpos Hlim i Hi). unfold is_longlong, LONG_MAX in *. lia.
Qed.

Lemma estimateCount_ret : ∃ N, ∀ i ph g1 ra s,
  frame {[IMD_key]} g g1 → cache_ok g ra → sum_inv ph g1 → live g i → from_main g m i → mark g1 i = Some s →
  ∃ R ph' g2 ra', (∀ fuel, N ≤ fuel → estimateCount fuel (ph, g1, ra) (Some i) ⇓ (ph', g2, ra')) ∧
    frame {[IMD_key]} g g2 ∧ cache_ok g ra' ∧ sum_inv ph' g2 ∧ reachable_set g i R ∧
    counts ph' = <[Some i := total i R]> (counts ph) ∧
    ∀ j, mark g2 j = if decide (j = i) then verdict_of use (selected i R) i (mark g1 i) else mark g1 j.
Proof using All.
  destruct count_reachable as (N & HN). exists N. intros i ph g1 ra s Hf Hok (Hk & Hmb & Ht & Hi) Hli Hfm Hms.
  assert (∃ ra2 R, reachable_set g i R ∧ cache_ok g ra2 ∧
    ∀ fuel, N ≤ fuel → (if inclusive ph then
         r ← loop fuel (visit_turn (count_visit fuel ph)) (g1, ra, 0%Z, ∅, [Some i]); Ret r.1
       else
         c ← getTargetCount ph g1 (Some i); count ← long_add 0 c; Ret (g1, ra, count)) ⇓ (g1, ra2, total i R))
    as (ra2 & R & HR & Hok2 & Hrun).
  { destruct (HN ph g1 ra i ltac:(done) Hf Hok Hfm) as (ra2 & R & HR & Hok2 & Hrun). rewrite Hi. unfold total. destruct inc.
    - exists ra2, R. split_and!; [done..|]. intros fuel Hfu. by rewrite Hrun, bind_ret by done.
    - exists ra, R. split_and!; [done..|]. intros fuel _.
      by rewrite getTargetCount_frame, (Htarget ph i), bind_ret, long_add_ret by first [done|by apply f_longlong]. }
  destruct (select_ret {[IMD_key]} g1 i s (selected i R) use Hf) as (g3 & g4 & Hr3 & Hr4 & Hf4 & Hf24 & Hm4);
    [by apply not_elem_of_singleton|set_solver|done|done|done|].
  exists R, (mkSummingCount k t (<[Some i := total i R]> (counts ph)) (sum_pSEP ph) inc mb), g4, ra2.
  split_and!; [|done|done|done|done|done|done].
  intros fuel Hfu. unfold estimateCount. rewrite Hrun, bind_ret by done. cbn [threshold]. rewrite Ht.
  assert ((if decide (total i R >= t)%Z then instrumentNode g1 (Some i) else Ret g1) ⇓ g3) as ->.
    { rewrite <- Hr3. unfold selected. case_bool_decide; [rewrite decide_True by lia|rewrite decide_False by lia]; done. }
    rewrite bind_ret. rewrite Hcs in Hr4. by rewrite Hr4, bind_ret, Hk, Hi, Hmb.
Qed.

Lemma SummingCount_pass ph :
  sum_inv ph g →
  ∃ N ph' g', frame {[IMD_key]} g g' ∧ sum_inv ph' g' ∧
    pass_result true (counts ph) (counts ph') (node_ptrs g) g' ∧
    ∀ fuel, N ≤ fuel → ∃ ra,
      foldM (for_reachable fuel (estimateCount fuel)) (ph, g, Reach_new) (node_ptrs g) ⇓ (ph', g', ra).
Proof using All.
  intros HI. destruct estimateCount_ret as (N & HN).
  destruct (pass_ret {[IMD_key]} counts true sum_inv N estimateCount ph)
    as (N' & ph' & g' & ra & Hf & HI' & HP & Hrun); [done|exact HN|].
  exists N', ph', g'. split_and!; [done..|]. intros fuel Hfu. exists ra. by apply Hrun.
Qed.
End summing.
End pass.
End counts.
