(* ===== verification/PgisSelect.v ===== *)
(** * PGIS: the selection by counts and thresholds

    The theorems about whole phases: what [StatementCountEstimatorPhase], the
    subclasses of [SummingCountPhaseBase] and [StatisticsEstimatorPhase] of
    [pgis/lib/src/IPCGEstimatorPhase.cpp] compute, and the cutoff values. *)

From S2P Require Import Prelude Json MetaData BuiltinMD Callgraph CallgraphWf.
From S2P Require Import CallgraphOps CallgraphSpec CallgraphProps Worklist Reach.
From S2P Require Import Dominators PgisMD PgisAccess PgisWalk CgHelper.
From S2P Require Import PgisConfig PgisPhases PgisCounts PgisReach PgisCountsProps.

Section select.
Context {JO : JsonOps} {MDI : MetaDataI} {IO : IterOrder} `{!PgisClasses}.

(** ** What is counted *)

Definition md_or (T : Type) `{!HasKey T} `{!MDCast T} (f : T → Z) (g : Callgraph) (p : NodePtr) : Z :=
  from_option f 0%Z (p ≫= md_view T g).

Definition statements_of : Callgraph → NodePtr → Z := md_or PiraOneData numStmts.
Definition branches_of : Callgraph → NodePtr → Z := md_or NumConditionalBranches numConditionalBranches.

(** The most branches of a function, at least 0. *)
Definition max_branches (g : Callgraph) : Z := foldl (λ a p, Z.max a (branches_of g p)) 0%Z (node_ptrs g).

(** The count a phase adds up. *)
Definition target_of (k : CountKind) (g : Callgraph) (p : NodePtr) : Z :=
  match k with
  | ConditionalBranchesEstimatorPhase => branches_of g p
  | ConditionalBranchesReverseEstimatorPhase => max_branches g - branches_of g p
  | FPAndMemOpsEstimatorPhase =>
      md_or NumOperations (λ o, numberOfFloatOps o + numberOfMemoryAccesses o) g p
  | LoopDepthEstimatorPhase => md_or LoopDepth loopDepth g p
  | GlobalLoopDepthEstimatorPhase => md_or GlobalLoopDepth globalLoopDepth g p
  end%Z.

(** The metadata a phase reads is well-typed where a node has it; the two
    operation counts are added as [int]. *)
Definition target_typed (k : CountKind) (g : Callgraph) (i : NodeId) : Prop :=
  match k with
  | ConditionalBranchesEstimatorPhase | ConditionalBranchesReverseEstimatorPhase =>
      is_Some (md_view NumConditionalBranches g i)
  | FPAndMemOpsEstimatorPhase =>
      ∃ o, md_view NumOperations g i = Some o ∧ is_int (numberOfFloatOps o + numberOfMemoryAccesses o)
  | LoopDepthEstimatorPhase => is_Some (md_view LoopDepth g i)
  | GlobalLoopDepthEstimatorPhase => is_Some (md_view GlobalLoopDepth g i)
  end.

Lemma ptr_get_or (T : Type) `{!HasKey T} `{!MDCast T} (f : T → Z) g i t :
  md_view T g i = Some t → f (T_new T) = 0%Z →
  ∃ o, ptr_get T g (Some i) ⇓ o ∧ match o with Some t => f t | None => 0%Z end = md_or T f g (Some i) ∧
    (o = None ∨ o = Some t).
Proof.
  intros Hv Hnew. destruct (md_view_live _ g i t Hv) as [n Hn].
  pose proof (ptr_get_ret _ g i t n Hv Hn) as Hr. unfold md_or. cbn. rewrite Hv. cbn.
  destruct (node_has T n) eqn:Hh; eexists; (split; [exact Hr|]); [by auto|]. split; [|by left].
  unfold md_view in Hv. rewrite Hn in Hv. cbn in Hv. unfold md_value in Hv. unfold node_has, md_has in Hh.
  destruct (node_md n !! T_key T); [done|]. by injection Hv as <-.
Qed.

Lemma max_branches_ge g p : p ∈ node_ptrs g → (branches_of g p ≤ max_branches g)%Z.
Proof.
  unfold max_branches. intros Hp.
  assert (∀ l a, (a ≤ foldl (λ a p, Z.max a (branches_of g p)) a l)%Z) as Hge.
  { induction l as [|q l IH]; intros a; simpl; [done|]. etrans; [|apply IH]. lia. }
  assert (∀ l a, p ∈ l → (branches_of g p ≤ foldl (λ a p, Z.max a (branches_of g p)) a l)%Z) as Hle; [|by apply Hle].
  induction l as [|q l IH]; intros a; [by intros ?%elem_of_nil|].
  intros [->|Hin]%elem_of_cons; simpl; [etrans; [|apply Hge]; lia|by apply IH].
Qed.

Section graph.
Context (g : Callgraph) (Hwf : wf g) (Hfull : full g) (m : NodeId) (Hm : mainNode g = Some m).
Context (Hmarks : marks_ok g).

Lemma max_loop l a : (0 ≤ a)%Z → (∀ p, p ∈ l → ∃ i, p = Some i ∧ live g i) →
  (∀ i, live g i → is_Some (md_view NumConditionalBranches g i)) →
  foldM (λ maxBranches node,
            md ← ptr_get NumConditionalBranches g node;
            Ret match md with
                | Some m => Z.max maxBranches (numConditionalBranches m)
                | None => maxBranches
                end) a l ⇓ foldl (λ a p, Z.max a (branches_of g p)) a l.
Proof using Type.
  intros Ha Hl Ht. revert a Ha Hl. induction l as [|p l IH]; intros a Ha Hl; [done|]. simpl.
  destruct (Hl p ltac:(by left)) as (i & -> & Hi). destruct (Ht i Hi) as [t Hv].
  destruct (ptr_get_or NumConditionalBranches numConditionalBranches g i t Hv eq_refl) as (o & -> & Ho & _). rewrite bind_ret, bind_ret.
  unfold branches_of. rewrite <- Ho.
  replace (match o with Some m0 => Z.max a (numConditionalBranches m0) | None => a end)
    with (Z.max a match o with Some t0 => numConditionalBranches t0 | None => 0%Z end); [|destruct o; lia].
  apply IH; [lia|]. intros q Hq. apply Hl. by right.
Qed.

Lemma runInitialization_ret ph :
  (∀ i, live g i → target_typed (sum_kind ph) g i) →
  ∃ ph', runInitialization ph g ⇓ ph' ∧ sum_kind ph' = sum_kind ph ∧ threshold ph' = threshold ph ∧
    counts ph' = counts ph ∧ inclusive ph' = inclusive ph ∧
    (sum_kind ph = ConditionalBranchesReverseEstimatorPhase → maxBranches ph' = max_branches g).
Proof using Hwf Hfull.
  intros Ht. unfold runInitialization. destruct (sum_kind ph) eqn:Hk; try by exists ph.
  rewrite max_loop; [|done|intros p; by apply (elem_of_node_ptrs g p)|].
  - rewrite bind_ret. eexists. split_and!; [done..|]. intros _. done.
  - exact Ht.
Qed.

Lemma getTargetCount_ret ph i : live g i → target_typed (sum_kind ph) g i →
  (sum_kind ph = ConditionalBranchesReverseEstimatorPhase → maxBranches ph = max_branches g) →
  is_longlong (target_of (sum_kind ph) g (Some i)) →
  getTargetCount ph g (Some i) ⇓ target_of (sum_kind ph) g (Some i).
Proof using Type.
  intros Hi Ht Hmb Hr. unfold getTargetCount, target_of in *. destruct (sum_kind ph); cbn in Ht.
  - destruct Ht as [t Hv]. destruct (ptr_get_or NumConditionalBranches numConditionalBranches g i t Hv eq_refl) as (o & -> & Ho & _).
    by rewrite bind_ret, Ho.
  - destruct Ht as [t Hv]. destruct (ptr_get_or NumConditionalBranches numConditionalBranches g i t Hv eq_refl) as (o & -> & Ho & _).
    rewrite bind_ret, (Hmb eq_refl). unfold branches_of in *. rewrite <- Ho in *.
    destruct o; [by rewrite long_add_ret|]. f_equal. lia.
  - destruct Ht as (t & Hv & Hint).
    destruct (ptr_get_or NumOperations (λ o, numberOfFloatOps o + numberOfMemoryAccesses o)%Z g i t Hv eq_refl) as (o & -> & Ho & Hot).
    rewrite bind_ret, <- Ho. destruct o as [o|]; [|done]. destruct Hot as [|[= ->]]; [done|]. by rewrite int_add_ret.
  - destruct Ht as [t Hv]. destruct (ptr_get_or LoopDepth loopDepth g i t Hv eq_refl) as (o & -> & Ho & _).
    by rewrite bind_ret, Ho.
  - destruct Ht as [t Hv]. destruct (ptr_get_or GlobalLoopDepth globalLoopDepth g i t Hv eq_refl) as (o & -> & Ho & _).
    by rewrite bind_ret, Ho.
Qed.

(** ** The selection *)

(** Marks and recorded counts after a phase with threshold [t]: a function that
    main reaches counts [f] of itself, or of all functions it can reach. *)
Definition selects (f : NodePtr → Z) (t : Z) (use inc : bool) (g' : Callgraph) (cnt : gmap NodePtr Z) : Prop :=
  ∀ i R, live g i → reachable_set g i R →
  (from_main g m i → mark g' i = verdict_of g use (selected f t inc i R) i (mark g i) ∧
                     cnt !! Some i = Some (total f inc i R)) ∧
  (¬ from_main g m i → mark g' i = mark g i).

Lemma pass_selects f t use inc rec cnt0 cnt g' :
  pass_result g m f t use inc rec cnt0 cnt (node_ptrs g) g' → rec = true → selects f t use inc g' cnt.
Proof using Hwf Hfull.
  intros HP Hrec i R Hi HR. destruct (HP i R Hi HR) as [HP1 HP2]. split; intros Hfm.
  - destruct (HP1 (node_ptrs_live g i Hwf Hfull Hi) Hfm) as [? Hc]. split; [done|by apply Hc].
  - apply HP2. by right.
Qed.

(** The threshold of a phase that asks the statistics phase for it. *)
Definition threshold_from (cut : StatisticsEstimatorPhase → outcome Z) (conv : Z → Z)
    (prev : option StatisticsEstimatorPhase) (own t : Z) : Prop :=
  match prev with Some s => ∃ c, cut s ⇓ c ∧ t = conv c | None => t = own end.

Lemma StatementCount_ret cfg prev ph use t :
  (∀ i, live g i → ∃ p, md_view PiraOneData g i = Some p ∧ (0 ≤ numStmts p)%Z) →
  (set_sum (statements_of g) (slots g) ≤ INT_MAX)%Z →
  getAs bool cfg useCallSiteInstrumentation ⇓ use → (use = true → profiled g) →
  threshold_from (getCuttoffNumInclStmts cfg) to_int prev (numberOfStatementsThreshold ph) t →
  ∃ N ph' g', (∀ fuel, N ≤ fuel → StatementCount_modifyGraph cfg fuel prev ph g ⇓ (ph', g')) ∧
    frame stmt_keys g g' ∧ same_pods g g' ∧
    pass_result g m (statements_of g) t use (inclusiveMetric ph) (inclusiveMetric ph)
      (inclStmtCounts ph) (inclStmtCounts ph') (node_ptrs g) g'.
Proof using Hwf Hfull Hm Hmarks.
  intros Hpods Hsum Hcfg Huse Hthr.
  set (ph1 := mkStatementCount t (inclusiveMetric ph) (inclStmtCounts ph) (sc_pSEP ph)).
  destruct (StatementCount_pass g Hwf Hfull m Hm Hmarks (statements_of g) INT_MAX t use (inclusiveMetric ph)
    Huse) with (cfg := cfg) (ph := ph1) as (N & ph' & g' & Hf & (_ & _ & HI) & HP & Hrun); [|done| |done..|].
  - intros i Hi. destruct (Hpods i Hi) as (p & Hp & Hn). unfold statements_of, md_or. cbn. by rewrite Hp.
  - intros i Hi. destruct (Hpods i Hi) as (p & Hp & Hn). exists p. unfold statements_of, md_or. cbn. by rewrite Hp.
  - exists N, ph', g'. split_and!; [|done..]. intros fuel Hfu. unfold StatementCount_modifyGraph.
    destruct (Hrun fuel Hfu) as (ra & Hr). unfold threshold_from in Hthr. destruct prev as [s|].
    + destruct Hthr as (c & Hc & Ht). rewrite Hc, !bind_ret, <- Ht. fold ph1. by rewrite Hr, bind_ret.
    + rewrite bind_ret, <- Hthr. fold ph1. by rewrite Hr, bind_ret.
Qed.

(** C17: the statement count phase stops, and marks exactly the functions that
    main reaches and that have, with everything they can reach counted once, at
    least as many statements as the threshold (which comes from the statistics
    phase if there is one); functions without a body and without run time are
    marked for call-site instrumentation instead when this is asked for.  All
    other marks stay, and the counts of the reachable functions are recorded. *)
Theorem StatementCount_correct cfg prev ph use t :
  (∀ i, live g i → ∃ p, md_view PiraOneData g i = Some p ∧ (0 ≤ numStmts p)%Z) →
  (set_sum (statements_of g) (slots g) ≤ INT_MAX)%Z →
  getAs bool cfg useCallSiteInstrumentation ⇓ use → (use = true → profiled g) →
  threshold_from (getCuttoffNumInclStmts cfg) to_int prev (numberOfStatementsThreshold ph) t →
  inclusiveMetric ph = true →
  ∃ N ph' g', (∀ fuel, N ≤ fuel → StatementCount_modifyGraph cfg fuel prev ph g ⇓ (ph', g')) ∧
    frame stmt_keys g g' ∧ selects (statements_of g) t use true g' (inclStmtCounts ph').
Proof using Hwf Hfull Hm Hmarks.
  intros Hpods Hsum Hcfg Huse Hthr Hinc.
  destruct (StatementCount_ret cfg prev ph use t Hpods Hsum Hcfg Huse Hthr) as (N & ph' & g' & Hrun & Hf & _ & HP).
  exists N, ph', g'. split_and!; [done..|]. rewrite Hinc in HP. by eapply pass_selects.
Qed.

Lemma SummingCount_ret cfg prev ph t :
  (∀ i, live g i → target_typed (sum_kind ph) g i ∧ (0 ≤ target_of (sum_kind ph) g (Some i))%Z) →
  (set_sum (target_of (sum_kind ph) g) (slots g) ≤ LONG_MAX)%Z → profiled g →
  threshold_from (getPreviousThreshold cfg (sum_kind ph)) id prev (threshold ph) t →
  ∃ N ph' g', (∀ fuel, N ≤ fuel → SummingCount_modifyGraph cfg fuel prev ph g ⇓ (ph', g')) ∧
    frame {[IMD_key]} g g' ∧ selects (target_of (sum_kind ph) g) t true (inclusive ph) g' (counts ph').
Proof using Hwf Hfull Hm Hmarks.
  intros Htgt Hsum Hprof Hthr.
  set (ph1 := mkSummingCount (sum_kind ph) t (counts ph) (sum_pSEP ph) (inclusive ph) (maxBranches ph)).
  destruct (runInitialization_ret ph1) as (ph2 & Hr2 & Hk2 & Ht2 & Hc2 & Hi2 & Hmb2); [by intros i Hi; apply Htgt|].
  cbn [ph1 sum_kind threshold counts inclusive] in Hk2, Ht2, Hc2, Hi2, Hmb2.
  destruct (SummingCount_pass g Hwf Hfull m Hm Hmarks (target_of (sum_kind ph) g) LONG_MAX t true (inclusive ph)
    (λ _, Hprof)) with (k := sum_kind ph) (mb := maxBranches ph2) (ph := ph2) as (N & ph' & g' & Hf & _ & HP & Hrun);
    [intros i Hi; by apply Htgt|done|done|done| |done|].
  - intros ph3 i Hk3 Hm3 Hi. rewrite <- Hk3. apply getTargetCount_ret; [done|rewrite Hk3; by apply Htgt| |].
    + intros Hrev. rewrite Hm3. apply Hmb2. by rewrite <- Hk3.
    + rewrite Hk3. pose proof (member_le_lim g Hwf Hfull m Hm (target_of (sum_kind ph) g) LONG_MAX
        ltac:(intros; by apply Htgt) Hsum i Hi). unfold is_longlong, LONG_MAX in *. lia.
  - exists N, ph', g'. rewrite Hc2 in HP. split_and!; [|done|by eapply pass_selects].
    intros fuel Hfu. unfold SummingCount_modifyGraph. destruct (Hrun fuel Hfu) as (ra & Hr).
    unfold threshold_from in Hthr. destruct prev as [s|].
    + destruct Hthr as (c & Hc & Ht). unfold id in Ht. rewrite Hc, bind_ret, <- Ht. fold ph1.
      by rewrite Hr2, bind_ret, Hr, bind_ret.
    + rewrite bind_ret, <- Hthr. fold ph1. by rewrite Hr2, bind_ret, Hr, bind_ret.
Qed.

(** Every summing count phase (conditional branches, their reverse,
    floating-point and memory operations, loop depths) stops, and marks exactly
    the functions that main reaches and whose count is at least the threshold;
    the count is added up over all functions that can be reached, each once,
    or is that of the function alone for the loop depths.  Functions without a
    body and without run time are marked for call-site instrumentation
    instead, whatever the options say. *)
Theorem SummingCount_correct cfg prev ph t :
  (∀ i, live g i → target_typed (sum_kind ph) g i ∧ (0 ≤ target_of (sum_kind ph) g (Some i))%Z) →
  (set_sum (target_of (sum_kind ph) g) (slots g) ≤ LONG_MAX)%Z → profiled g →
  threshold_from (getPreviousThreshold cfg (sum_kind ph)) id prev (threshold ph) t →
  ∃ N ph' g', (∀ fuel, N ≤ fuel → SummingCount_modifyGraph cfg fuel prev ph g ⇓ (ph', g')) ∧
    frame {[IMD_key]} g g' ∧ selects (target_of (sum_kind ph) g) t true (inclusive ph) g' (counts ph').
Proof using Hwf Hfull Hm Hmarks. apply SummingCount_ret. Qed.
End graph.
End select.
