(* ===== verification/PgisStatistics.v ===== *)
(** * PGIS: histograms and cutoff values

    [StatisticsEstimatorPhase] of [pgis/lib/src/IPCGEstimatorPhase.cpp]: its
    histograms list the counts of the reachable functions, and the cutoff
    values are the median, the median of the different values, or half of the
    largest value of such a list. *)

From S2P Require Import Prelude Json MetaData BuiltinMD Callgraph CallgraphWf.
From S2P Require Import CallgraphOps CallgraphSpec CallgraphProps Worklist Reach.
From S2P Require Import Dominators PgisMD PgisAccess PgisWalk CgHelper.
From S2P Require Import PgisConfig PgisPhases PgisCounts PgisReach PgisCountsProps.
From S2P Require Import PgisSelect.

(** ** Order statistics *)

(** [c] is at place [n] when the list is sorted. *)
Definition is_rank (vals : list Z) (n : nat) (c : Z) : Prop :=
  c ∈ vals ∧ length (filter (λ y, y < c)%Z vals) ≤ n < length (filter (λ y, y ≤ c)%Z vals).

Lemma filter_all {A} (P : A → Prop) `{∀ x, Decision (P x)} (l : list A) : (∀ x, x ∈ l → P x) → filter P l = l.
Proof.
  induction l as [|x l IH]; intros Hl; [done|]. rewrite filter_cons_True by (apply Hl; by left).
  f_equal. apply IH. intros y Hy. apply Hl. by right.
Qed.

Lemma filter_none {A} (P : A → Prop) `{∀ x, Decision (P x)} (l : list A) : (∀ x, x ∈ l → ¬ P x) → filter P l = [].
Proof.
  induction l as [|x l IH]; intros Hl; [done|]. rewrite filter_cons_False by (apply Hl; by left).
  apply IH. intros y Hy. apply Hl. by right.
Qed.

Lemma is_rank_perm vals vals' n c : vals ≡ₚ vals' → is_rank vals n c → is_rank vals' n c.
Proof. unfold is_rank. intros Hp. by rewrite Hp. Qed.

Lemma nth_element_rank v n : n < length v → ∃ c, nth_element v n ⇓ c ∧ is_rank v n c.
Proof.
  intros Hn. unfold nth_element. set (l := merge_sort Z.le v).
  pose proof (merge_sort_Permutation Z.le v) as Hp. fold l in Hp.
  assert (StronglySorted Z.le l) as Hs by (apply StronglySorted_merge_sort; apply _).
  destruct (lookup_lt_is_Some_2 l n) as [c Hc]; [by rewrite Hp|]. rewrite Hc. exists c. split; [done|].
  apply (is_rank_perm l); [done|]. split; [by eapply list_elem_of_lookup_2|].
  rewrite <- (take_drop_middle l n c Hc) in Hs |- *.
  apply StronglySorted_app in Hs as (Hle & _ & Hgt%StronglySorted_inv). destruct Hgt as [_ Hgt].
  rewrite Forall_forall in Hgt.
  rewrite !filter_app, !length_app, !filter_cons.
  rewrite (decide_False (P := (c < c)%Z)), decide_True by lia.
  rewrite (filter_none (λ y, y < c)%Z (drop (S n) l)) by (intros y Hy%Hgt; lia).
  rewrite (filter_all (λ y, y ≤ c)%Z (take n l)) by (intros y Hy; apply Hle; [done|by left]).
  assert (n < length l) by (by rewrite Hp). pose proof (length_filter (λ y, y < c)%Z (take n l)) as Hlt.
  rewrite length_take in Hlt |- *. simpl. lia.
Qed.

(** ** Histograms *)

(** [hist] counts the values of the list. *)
Definition hist_of (vals : list Z) (hist : MapT) : Prop :=
  hist_expanded hist ≡ₚ vals ∧ map_Forall (λ _ v, 0 < v)%Z hist.

Lemma hist_of_empty : hist_of [] ∅.
Proof. split; [done|apply map_Forall_empty]. Qed.

#[export] Instance expand_perm :
  Proper ((≡ₚ) ==> (≡ₚ)) (flat_map (λ '(k, v), replicate (Z.to_nat v) k) : list (Z * Z) → list Z).
Proof.
  intros l l' Hl. induction Hl as [|[k v] l l' _ IH|[k v] [k' v'] l|l1 l2 l3 _ IH1 _ IH2]; cbn; [done|by rewrite IH| |by etrans].
  by rewrite !(assoc_L (++)), (Permutation_app_comm (replicate _ k)).
Qed.

Lemma expanded_insert hist k v : hist !! k = None →
  hist_expanded (<[k := v]> hist) ≡ₚ replicate (Z.to_nat v) k ++ hist_expanded hist.
Proof. intros Hk. unfold hist_expanded. by rewrite (map_to_list_insert hist k v Hk). Qed.

Lemma expanded_delete hist k v : hist !! k = Some v →
  hist_expanded hist ≡ₚ replicate (Z.to_nat v) k ++ hist_expanded (delete k hist).
Proof. intros Hk. rewrite <- (insert_delete_id hist k v Hk) at 1. rewrite expanded_insert; [done|apply lookup_delete_eq]. Qed.

Lemma hist_incr_ret vals hist k :
  hist_of vals hist → (Z.of_nat (length vals) < LONG_MAX)%Z →
  ∃ hist', hist_incr hist k ⇓ hist' ∧ hist_of (k :: vals) hist'.
Proof.
  intros [Hp Hpos] Hlen. unfold hist_incr.
  assert (∃ v, default 0%Z (hist !! k) = v ∧ (0 ≤ v ≤ Z.of_nat (length vals))%Z ∧
    hist_expanded hist ≡ₚ replicate (Z.to_nat v) k ++ hist_expanded (delete k hist)) as (v & -> & Hv & Hd).
  { destruct (hist !! k) as [v|] eqn:Hk; cbn.
    - exists v. pose proof (expanded_delete _ _ _ Hk) as Hd. pose proof (Hpos k v Hk) as Hv; cbn in Hv.
      split_and!; [done|lia| |done].
      rewrite <- Hp, Hd, length_app, length_replicate. lia.
    - exists 0%Z. split_and!; [done|lia|lia|]. by rewrite delete_id. }
  rewrite long_add_ret, bind_ret by (unfold is_longlong, LONG_MAX in *; lia).
  eexists. split; [done|]. split.
  - rewrite <- insert_delete_eq, expanded_insert by apply lookup_delete_eq.
    rewrite <- Hp, Hd. replace (Z.to_nat (v + 1)) with (S (Z.to_nat v)) by lia. done.
  - apply map_Forall_insert_2; [lia|done].
Qed.

Lemma elem_of_expanded hist k : k ∈ hist_expanded hist ↔ ∃ v, hist !! k = Some v ∧ Z.to_nat v ≠ 0.
Proof.
  unfold hist_expanded. rewrite list_elem_of_In, in_flat_map. split.
  - intros ([k' v] & Hin%list_elem_of_In%elem_of_map_to_list & Hk%list_elem_of_In).
    apply elem_of_replicate in Hk as [-> ?]. by exists v.
  - intros (v & Hk & Hv). exists (k, v). split; apply list_elem_of_In; [by apply elem_of_map_to_list|].
    by apply elem_of_replicate.
Qed.

Lemma hist_of_keys vals hist : hist_of vals hist → hist_keys hist ≡ₚ remove_dups vals.
Proof.
  intros [Hp Hpos]. apply NoDup_Permutation; [apply NoDup_fst_map_to_list|apply NoDup_remove_dups|].
  intros k. rewrite elem_of_remove_dups, <- Hp, elem_of_expanded. unfold hist_keys. rewrite list_elem_of_fmap. split.
  - intros ([? v] & -> & Hin%elem_of_map_to_list). exists v. split; [done|]. specialize (Hpos _ _ Hin). cbn in Hpos. lia.
  - intros (v & Hk & _). exists (k, v). split; [done|]. by apply elem_of_map_to_list.
Qed.

Lemma hist_of_nonempty vals hist : hist_of vals hist → vals ≠ [] → hist ≠ ∅.
Proof.
  intros [Hp _] Hv ->. unfold hist_expanded in Hp. rewrite map_to_list_empty in Hp. by apply Hv, Permutation_nil.
Qed.

(** ** Cutoff values *)

Definition cutoff_of (mode : CuttoffSelection) (vals : list Z) (c : Z) : Prop :=
  match mode with
  | MAX => ∃ x, x ∈ vals ∧ (∀ y, y ∈ vals → y ≤ x)%Z ∧ c = (x / 2)%Z
  | MEDIAN => is_rank vals (length vals / 2) c
  | UNIQUE_MEDIAN => is_rank (remove_dups vals) (length (remove_dups vals) / 2) c
  end.

Lemma max_element_ret v : v ≠ [] → ∃ x, max_element v ⇓ x ∧ x ∈ v ∧ ∀ y, y ∈ v → (y ≤ x)%Z.
Proof.
  destruct v as [|a v]; [done|]. intros _. cbn. eexists. split; [done|]. revert a.
  induction v as [|b v IH]; intros a; cbn.
  - split; [by left|]. by intros y ->%list_elem_of_singleton.
  - destruct (IH (Z.max a b)) as [H1 H2]. split.
    + apply elem_of_cons in H1 as [H1|H1]; [|right; by right].
      destruct (Z.max_spec a b) as [[_ E]|[_ E]]; rewrite E in H1 at 2; rewrite H1; [right; by left|by left].
    + assert (Z.max a b ≤ foldl Z.max (Z.max a b) v)%Z by (apply H2; by left).
      intros y [->|[->|Hy]%elem_of_cons]%elem_of_cons; [lia|lia|]. apply H2. by right.
Qed.

Lemma half_lt n : 0 < n → n / 2 < n.
Proof. intros. by apply Nat.div_lt; lia. Qed.

Lemma cutoff_ret cfg mode vals hist :
  hist_of vals hist → vals ≠ [] → getAs CuttoffSelection cfg cuttoffSelection ⇓ mode →
  ∃ c, getCuttoffValue cfg hist ⇓ c ∧ cutoff_of mode vals c.
Proof.
  intros Hh Hv Hm. unfold getCuttoffValue. rewrite decide_False by by eapply hist_of_nonempty.
  rewrite Hm, bind_ret. assert (0 < length vals) as Hl by (by destruct vals; [|simpl; lia]).
  pose proof (proj1 Hh) as Hp. destruct mode; cbn.
  - unfold getHalfMaxFromHist. destruct (max_element_ret (hist_expanded hist)) as (x & -> & Hx & Hmax).
    { intros E. rewrite E in Hp. by apply Hv, Permutation_nil. }
    rewrite bind_ret. eexists. split; [done|]. exists x. rewrite Hp in Hx. split_and!; [done| |].
    + intros y Hy. apply Hmax. by rewrite Hp.
    + by rewrite Z.shiftr_div_pow2.
  - unfold getMedianFromHist. destruct (nth_element_rank (hist_expanded hist) (length (hist_expanded hist) / 2))
      as (c & Hc & Hr); [apply half_lt; by rewrite Hp|]. exists c. split; [done|].
    rewrite Hp in Hr at 2. by apply (is_rank_perm _ _ _ _ Hp).
  - pose proof (hist_of_keys _ _ Hh) as Hk. unfold getUniqueMedianFromHist.
    destruct (nth_element_rank (hist_keys hist) (length (hist_keys hist) / 2)) as (c & Hc & Hr).
    { apply half_lt. rewrite Hk. destruct (remove_dups vals) eqn:E; [|simpl; lia].
      destruct vals as [|x vals]; [done|]. assert (x ∈ remove_dups (x :: vals)) as Hx by (apply elem_of_remove_dups; by left).
      rewrite E in Hx. by apply elem_of_nil in Hx. }
    exists c. split; [done|]. rewrite Hk in Hr at 2. by apply (is_rank_perm _ _ _ _ Hk).
Qed.

(** The cutoff value taken from a histogram is, in the selected mode, half
    of the largest counted value, the median of the counted values (the upper
    one for an even number of them), or the median of the different values
    that were counted. *)
Theorem cutoff_correct cfg mode vals hist :
  hist_of vals hist → vals ≠ [] → getAs CuttoffSelection cfg cuttoffSelection ⇓ mode →
  ∃ c, getCuttoffValue cfg hist ⇓ c ∧ cutoff_of mode vals c.
Proof. apply cutoff_ret. Qed.

Lemma hist_of_perm vals vals' hist : vals ≡ₚ vals' → hist_of vals hist → hist_of vals' hist.
Proof. intros Hv [Hp Hpos]. split; [by rewrite Hp|done]. Qed.

Lemma hist_incr_list (f : NodePtr → Z) L p hist :
  hist_of (f <$> L) hist → (Z.of_nat (length L) < LONG_MAX)%Z →
  ∃ hist', hist_incr hist (f p) ⇓ hist' ∧ hist_of (f <$> (L ++ [p])) hist'.
Proof.
  intros Hh Hl. destruct (hist_incr_ret _ _ (f p) Hh) as (hist' & Hr & Hh'); [by rewrite length_fmap|].
  exists hist'. split; [done|]. eapply hist_of_perm; [|done]. rewrite fmap_app. apply Permutation_cons_append.
Qed.

(** ** The phase *)

Section statistics.
Context {JO : JsonOps} {MDI : MetaDataI} {IO : IterOrder} `{!PgisClasses}.
Context (g : Callgraph) (Hwf : wf g) (Hfull : full g) (m : NodeId) (Hm : mainNode g = Some m).
Context (Hmarks : marks_ok g).

Definition variables_of : Callgraph → NodePtr → Z := md_or CodeStatistics numVars.

(** Sizes that an [int] or a [long] holds. *)
Record countable_program : Prop := {
  cp_pods i : live g i → ∃ p, md_view PiraOneData g i = Some p ∧ (0 ≤ numStmts p)%Z;
  cp_stmts : (set_sum (statements_of g) (slots g) ≤ INT_MAX)%Z;
  cp_vars i : live g i → ∃ c, md_view CodeStatistics g i = Some c ∧ (0 ≤ numVars c)%Z;
  cp_var_sum : (set_sum (variables_of g) (slots g) ≤ LONG_MAX)%Z;
  cp_nodes : (Z.of_nat (length (nodes g)) < LONG_MAX)%Z
}.
Context (Hcp : countable_program).

Lemma list_sum_le f L : NoDup L → (∀ p, p ∈ L → p ∈ slots g) → (∀ i, live g i → (0 ≤ f (Some i))%Z) →
  (0 ≤ list_sum f L ≤ set_sum f (slots g))%Z.
Proof using Hwf Hfull Hm.
  intros Hnd HL Hf. assert (list_sum f L = set_sum f (list_to_set L)) as ->.
  { unfold set_sum. by rewrite elements_list_to_set. }
  apply (sum_le_lim g Hwf Hfull m Hm f _ Hf (Z.le_refl _)). intros p Hp%elem_of_list_to_set. by apply HL.
Qed.

(** [incl] gives the inclusive counts, [L] are the functions seen so far. *)
Definition stats_inv (incl : NodePtr → Z) (L : list NodePtr) (s : StatisticsEstimatorPhase) : Prop :=
  numReachableFunctions s = Z.of_nat (length L) ∧
  totalStmts s = list_sum (statements_of g) L ∧ totalVarDecls s = list_sum (variables_of g) L ∧
  (0 ≤ stmtsCoveredWithInstr s ≤ list_sum (statements_of g) L)%Z ∧
  (0 ≤ stmtsActuallyCovered s ≤ list_sum (statements_of g) L)%Z ∧
  hist_of (statements_of g <$> L) (stmtHist s) ∧ hist_of (incl <$> L) (stmtInclHist s).

Definition incl_of (sce : StatementCountEstimatorPhase) (p : NodePtr) : Z :=
  to_int (default 0%Z (inclStmtCounts sce !! p)).

Lemma statements_of_nonneg i : live g i → (0 ≤ statements_of g (Some i))%Z.
Proof using Hcp.
  intros Hi. destruct (cp_pods Hcp i Hi) as (p & Hp & Hn). unfold statements_of, md_or. cbn. by rewrite Hp.
Qed.

Lemma variables_of_nonneg i : live g i → (0 ≤ variables_of g (Some i))%Z.
Proof using Hcp.
  intros Hi. destruct (cp_vars Hcp i Hi) as (p & Hp & Hn). unfold variables_of, md_or. cbn. by rewrite Hp.
Qed.

Lemma collect_ret incl L s sce g1 ra i :
  frame stmt_keys g g1 → same_pods g g1 → is_Some (mark g1 i) → live g i →
  NoDup (L ++ [Some i]) → (∀ p, p ∈ L ++ [Some i] → p ∈ slots g) →
  stats_inv incl L s → (∀ p, incl_of sce p = incl p) →
  ∃ s' sce' g2, collect_statistics (s, sce, g1, ra) (Some i) ⇓ (s', sce', g2, ra) ∧
    frame stmt_keys g g2 ∧ same_pods g g2 ∧ (∀ j, mark g2 j = mark g1 j) ∧
    stats_inv incl (L ++ [Some i]) s' ∧ ∀ p, incl_of sce' p = incl p.
Proof using Hwf Hfull Hm Hmarks Hcp.
  intros Hf Hs [x Hx] Hi Hnd HL (Hn & Ht & Hv & Hc & Ha & Hh & Hih) Hincl.
  destruct (cp_pods Hcp i Hi) as (pod & Hpod & Hpos). rewrite <- Hs in Hpod.
  destruct (ptr_getOrCreate_ret _ g1 i pod Hpod) as (g2 & Hr2 & Hf2 & Hv2).
  assert (numStmts pod = statements_of g (Some i)) as Hst.
  { unfold statements_of, md_or. cbn. by rewrite <- Hs, Hpod. }
  assert (∀ j, mark g2 j = mark g1 j) as Hm2
    by (intros j; apply (mark_frame _ _ _ _ Hf2); by apply not_elem_of_singleton).
  destruct (isInstrumented_ret g2 i x ltac:(by rewrite Hm2)) as (g3 & Hr3 & Hf3 & Hm3).
  assert (frame stmt_keys g g3) as Hfg3.
  { eapply frame_trans; [exact Hf|]. eapply frame_trans; eapply frame_mono; [|exact Hf2| |exact Hf3];
      unfold stmt_keys; set_solver. }
  assert (same_pods g g3) as Hs3.
  { intros j. rewrite (md_view_frame _ _ _ _ _ Hf3) by by apply not_elem_of_singleton. by rewrite Hv2. }
  destruct (cp_vars Hcp i Hi) as (cs & Hcs & Hvpos).
  assert (md_view CodeStatistics g3 i = Some cs) as Hcs3.
  { rewrite (md_view_frame _ _ _ _ _ Hfg3); [done|]. by vm_compute. }
  destruct (ptr_get_or CodeStatistics numVars g3 i cs Hcs3 eq_refl) as (o & Ho & Hov & _).
  assert (list_sum (statements_of g) (L ++ [Some i]) = list_sum (statements_of g) L + numStmts pod)%Z as Hsum
    by by rewrite list_sum_snoc, Hst.
  assert (variables_of g (Some i) = match o with Some t => numVars t | None => 0%Z end) as Hvar.
  { rewrite Hov. unfold variables_of, md_or. cbn. by rewrite Hcs, Hcs3. }
  assert (list_sum (variables_of g) (L ++ [Some i]) =
    list_sum (variables_of g) L + match o with Some t => numVars t | None => 0 end)%Z as Hvsum
    by by rewrite list_sum_snoc, Hvar.
  pose proof (list_sum_le _ (L ++ [Some i]) Hnd HL statements_of_nonneg) as Hle. rewrite Hsum in Hle.
  pose proof (cp_stmts Hcp) as Hmax.
  assert (∀ z, (z ≤ list_sum (statements_of g) L)%Z → (0 ≤ z)%Z → long_add z (numStmts pod) ⇓ (z + numStmts pod)%Z) as Hadd.
  { intros z Hz Hz0. apply long_add_ret. unfold is_longlong, INT_MAX in *. lia. }
  pose proof (list_sum_le _ (L ++ [Some i]) Hnd HL variables_of_nonneg) as Hvle. rewrite Hvsum in Hvle.
  pose proof (cp_var_sum Hcp) as Hvmax.
  assert (Z.of_nat (length L) < LONG_MAX)%Z as Hlen.
  { assert (length (L ++ [Some i]) ≤ size (slots g)) as Hsz.
    { rewrite <- (size_list_to_set (C := gset NodePtr)) by done. apply subseteq_size. intros p Hp%elem_of_list_to_set. by apply HL. }
    rewrite length_app in Hsz. pose proof (cp_nodes Hcp). pose proof (size_slots g). lia. }
  destruct (hist_incr_list (statements_of g) L (Some i) _ Hh Hlen) as (h1 & Hr1 & Hh1). rewrite <- Hst in Hr1.
  destruct (hist_incr_list incl L (Some i) _ Hih Hlen) as (h2 & Hr4 & Hh2).
  assert (∃ c, (if bool_decide (x = Instrumented) then long_add (stmtsCoveredWithInstr s) (numStmts pod)
      else Ret (stmtsCoveredWithInstr s)) ⇓ c ∧ (0 ≤ c ≤ list_sum (statements_of g) (L ++ [Some i]))%Z) as (c & Hrc & Hc').
  { rewrite Hsum. case_bool_decide; eexists; (split; [first [done|apply Hadd; lia]|lia]). }
  assert (∃ c, (if comesFromCube pod then long_add (stmtsActuallyCovered s) (numStmts pod)
      else Ret (stmtsActuallyCovered s)) ⇓ c ∧ (0 ≤ c ≤ list_sum (statements_of g) (L ++ [Some i]))%Z) as (a & Hra & Ha').
  { rewrite Hsum. destruct (comesFromCube pod); eexists; (split; [first [done|apply Hadd; lia]|lia]). }
  eexists _, (getNumStatements sce (Some i)).1, g3. split.
  { unfold collect_statistics. rewrite Hn, long_add_ret, bind_ret by (unfold is_longlong, LONG_MAX in *; lia).
    rewrite Hr2, bind_ret. cbn [fst snd]. rewrite Hr3, bind_ret. cbn [fst snd].
    rewrite Hrc, bind_ret, Hra, bind_ret, Hr1, bind_ret, (Hadd (totalStmts s)), bind_ret by lia.
    assert ((getNumStatements sce (Some i)).2 = incl (Some i)) as -> by by rewrite <- Hincl.
    rewrite Hr4, bind_ret, Ho, bind_ret.
    assert (match o with Some csMD => long_add (totalVarDecls s) (numVars csMD) | None => Ret (totalVarDecls s) end
      ⇓ list_sum (variables_of g) (L ++ [Some i])) as ->.
    { rewrite Hv, Hvsum. destruct o; [|f_equal; lia]. apply long_add_ret. unfold is_longlong, LONG_MAX in *. lia. }
    rewrite bind_ret. reflexivity. }
  split_and!; [done|done|intros j; by rewrite Hm3| |].
  - unfold stats_inv. cbn. rewrite length_app. cbn. split_and!; try done; try lia.
    all: try (apply Hc' || apply Ha').
  - intros p. unfold incl_of, getNumStatements. cbn [fst inclStmtCounts]. rewrite <- Hincl. unfold incl_of.
    destruct (decide (p = Some i)) as [->|Hne]; [by rewrite lookup_insert_eq|by rewrite lookup_insert_ne].
Qed.

(** The functions main reaches, in the order of the nodes. *)
Lemma reached_functions R : reachable_set g m R →
  filter (λ p, p ∈ R) (node_ptrs g) ≡ₚ elements R.
Proof using Hwf Hfull Hm.
  intros HR. apply NoDup_Permutation; [by apply NoDup_filter, (node_ptrs_NoDup g)|apply NoDup_elements|].
  intros p. rewrite list_elem_of_filter, elem_of_elements. split; [by intros []|]. intros Hp. split; [done|].
  apply HR in Hp as (j & -> & Hj). apply (node_ptrs_live g); [done..|].
  eapply (rtc_calls_live g Hwf), (wf_main _ Hwf _ Hm). done.
Qed.

(** The last loop, on a graph that only differs in the metadata it looks at. *)
Lemma collect_pass R incl s sce g1 :
  reachable_set g m R → frame stmt_keys g g1 → same_pods g g1 → (∀ i, live g i → is_Some (mark g1 i)) →
  stats_inv incl [] s → (∀ p, incl_of sce p = incl p) →
  ∃ N s' g', frame stmt_keys g g' ∧ same_pods g g' ∧ (∀ j, mark g' j = mark g1 j) ∧
    stats_inv incl (filter (λ p, p ∈ R) (node_ptrs g)) s' ∧
    ∀ fuel, N ≤ fuel → ∃ sce' ra,
      foldM (for_reachable fuel collect_statistics) (s, sce, g1, Reach_new) (node_ptrs g1) ⇓ (s', sce', g', ra).
Proof using Hwf Hfull Hm Hmarks Hcp.
  intros HR Hf Hs Hmk Hst Hincl. rewrite (frame_node_ptrs Hf).
  destruct (for_reachable_ret g Hwf Hfull m Hm stmt_keys
    (λ dn st g2, same_pods g g2 ∧ (∀ j, mark g2 j = mark g1 j) ∧ NoDup dn ∧
       (∀ p, p ∈ dn → p ∈ slots g) ∧
       stats_inv incl (filter (λ p, p ∈ R) dn) st.1 ∧ ∀ p, incl_of st.2 p = incl p) 0
    (λ _, collect_statistics) (s, sce) g1) as (N & [s' sce'] & g' & ra & Hf' & (Hs' & Hm' & _ & _ & Hst' & _) & Hrun);
    [done|split_and!; try done; [apply NoDup_nil_2|by intros ? ?%elem_of_nil]| |].
  - intros dn i [s1 sce1] g2 ra Hf2 Hok (Hs2 & Hmk2 & Hnd & Hsl & Hst2 & Hi2) Hi Hfresh.
    assert (NoDup (dn ++ [Some i])) as Hnd2.
    { apply NoDup_app. split_and!; [done| |apply NoDup_singleton]. intros p Hp ->%list_elem_of_singleton. done. }
    assert (∀ p, p ∈ dn ++ [Some i] → p ∈ slots g) as Hsl2.
    { intros p [Hp| ->%list_elem_of_singleton]%elem_of_app; [by apply Hsl|].
      apply elem_of_list_to_set, list_elem_of_fmap_2, elem_of_seq. apply live_lt in Hi. lia. }
    assert (Some i ∈ R ↔ from_main g m i) as HiR by (rewrite (HR (Some i)); unfold from_main; naive_solver).
    split; intros Hfm.
    + assert (filter (λ p, p ∈ R) (dn ++ [Some i]) = filter (λ p, p ∈ R) dn ++ [Some i]) as Hfl.
      { rewrite filter_app, filter_cons_True by by apply HiR. done. }
      destruct (collect_ret incl (filter (λ p, p ∈ R) dn) s1 sce1 g2 ra i Hf2 Hs2 ltac:(rewrite Hmk2; by apply Hmk) Hi)
        as (s2 & sce2 & g3 & Hr & Hf3 & Hs3 & Hm3 & Hst3 & Hi3); [| |done|done|].
      * rewrite <- Hfl. by apply NoDup_filter.
      * intros p. rewrite <- Hfl. intros [_ Hp]%list_elem_of_filter. by apply Hsl2.
      * exists (s2, sce2), g3, ra. split_and!; [by intros|done|done|done|intros j; by rewrite Hm3, Hmk2|done|done| |done].
        cbn. by rewrite Hfl.
    + split_and!; [done..| |done]. cbn. rewrite filter_app, filter_cons_False by by rewrite HiR. by rewrite filter_nil, app_nil_r.
  - exists N, s', g'. split_and!; [done..|]. intros fuel Hfu. exists sce', ra. by apply Hrun.
Qed.

(** Inclusive counts: the statements of everything that can be reached. *)
Definition inclusive_counts (incl : NodePtr → Z) : Prop :=
  ∀ i R, from_main g m i → reachable_set g i R → incl (Some i) = set_sum (statements_of g) R.

Lemma Statistics_ret cfg use mode report :
  getSelectedHeuristic cfg ⇓ STATEMENTS → getAs bool cfg useCallSiteInstrumentation ⇓ use →
  (use = true → profiled g) → getAs CuttoffSelection cfg cuttoffSelection ⇓ mode →
  ∃ N s' g' R incl c, (∀ fuel, N ≤ fuel → Statistics_modifyGraph cfg fuel (Statistics_new report) g ⇓ (s', g')) ∧
    frame stmt_keys g g' ∧ reachable_set g m R ∧ inclusive_counts incl ∧
    (numReachableFunctions s' = Z.of_nat (size R) ∧ totalStmts s' = set_sum (statements_of g) R ∧
     getCuttoffNumInclStmts cfg s' ⇓ c ∧ cutoff_of mode (incl <$> elements R) c) ∧ same_pods g g' ∧
    hist_of (statements_of g <$> elements R) (stmtHist s') ∧ hist_of (incl <$> elements R) (stmtInclHist s') ∧
    ∃ cnt, pass_result g m (statements_of g) 999999999 use true true ∅ cnt (node_ptrs g) g'.
Proof using Hwf Hfull Hm Hmarks Hcp.
  intros Hheur Hcfg Huse Hmode.
  destruct (StatementCount_ret g Hwf Hfull m Hm Hmarks cfg None (StatementCount_new 999999999 true None) use 999999999
    (cp_pods Hcp) (cp_stmts Hcp) Hcfg Huse eq_refl) as (N1 & sce & g1 & Hr1 & Hf1 & Hs1 & HP).
  destruct (reach_loop_ret g Hwf m (wf_main _ Hwf _ Hm)) as (R & _ & HR & _).
  assert (inclusive_counts (incl_of sce)) as Hincl.
  { intros i Ri Hi HRi. assert (live g i) as Hli by (eapply (rtc_calls_live g Hwf), (wf_main _ Hwf _ Hm); exact Hi).
    destruct (HP i Ri Hli HRi) as [HP1 _].
    destruct (HP1 (node_ptrs_live g i Hwf Hfull Hli) Hi) as [_ Hc]. unfold incl_of. rewrite (Hc eq_refl). cbn.
    apply to_int_id. pose proof (sum_le_lim g Hwf Hfull m Hm (statements_of g) _ statements_of_nonneg (cp_stmts Hcp) Ri
      (reachable_in_slots g Hwf i Ri Hli HRi)). unfold is_int, INT_MIN, INT_MAX in *. lia. }
  assert (∀ i, live g i → is_Some (mark g1 i)) as Hmk1.
  { intros i Hi. destruct (reach_loop_ret g Hwf i Hi) as (Ri & _ & HRi & _). destruct (HP i Ri Hi HRi) as [HP1 HP2].
    destruct (decide (Some i ∈ R)) as [HiR|HiR].
    - apply HR in HiR as (? & [= <-] & Hfm). destruct (HP1 (node_ptrs_live g i Hwf Hfull Hi) Hfm) as [-> _].
      unfold verdict_of. destruct (_ && _); [by eexists|]. destruct (selected _ _ _ _ _); [by eexists|by apply Hmarks].
    - destruct HP2 as [-> _]; [right|by apply Hmarks]. intros Hfm. apply HiR, HR. by exists i. }
  destruct (collect_pass R (incl_of sce) (set_numFunctions (Z.of_nat (length (nodes g))) (Statistics_new report)) sce g1
    HR Hf1 Hs1 Hmk1) as (N2 & s' & g' & Hf' & Hs' & Hm' & Hst & Hrun); [|done|].
  { unfold stats_inv. cbn. split_and!; try done; apply hist_of_empty. }
  destruct Hst as (Hn & Ht & _ & _ & _ & Hsh & Hih). pose proof (reached_functions R HR) as Hperm.
  rewrite Hperm in Hn, Ht.
  destruct (cutoff_ret cfg mode (incl_of sce <$> elements R) (stmtInclHist s')) as (c & Hc & Hcut); [| |done|].
  { eapply hist_of_perm; [|exact Hih]. by rewrite Hperm. }
  { intros E%fmap_nil_inv. assert (Some m ∈ elements R) as Hin; [|rewrite E in Hin; by apply elem_of_nil in Hin].
    apply elem_of_elements, HR. by exists m. }
  exists (N1 + N2), s', g', R, (incl_of sce), c. split_and!; [|done|done|done| |done|done|done|done| | |].
  - intros fuel Hfu. unfold Statistics_modifyGraph. rewrite Hr1, bind_ret by lia. cbn [fst snd].
    rewrite Hheur, bind_ret. cbn [heuristic_kind]. rewrite bind_ret.
    destruct (Hrun fuel) as (sce' & ra & Hr); [lia|]. by rewrite Hr, bind_ret.
  - rewrite Hn. unfold size, set_size. done.
  - eapply hist_of_perm; [|exact Hsh]. by rewrite Hperm.
  - eapply hist_of_perm; [|exact Hih]. by rewrite Hperm.
  - exists (inclStmtCounts sce). intros i Ri Hi HRi. rewrite Hm'. by apply HP.
Qed.

(** C18: With the statement heuristic selected, on a graph without erased nodes with
    a main function and countable statements (and with profiles, if call sites
    are instrumented), the statistics phase stops; it counts the functions that
    main reaches and their statements, and the cutoff value it then answers is
    the selected one (half of the maximum, median, or median of the different
    values) of the inclusive statement counts of these functions. *)
Theorem Statistics_correct cfg use mode report :
  getSelectedHeuristic cfg ⇓ STATEMENTS → getAs bool cfg useCallSiteInstrumentation ⇓ use →
  (use = true → profiled g) → getAs CuttoffSelection cfg cuttoffSelection ⇓ mode →
  ∃ N s' g' R incl c, (∀ fuel, N ≤ fuel → Statistics_modifyGraph cfg fuel (Statistics_new report) g ⇓ (s', g')) ∧
    frame stmt_keys g g' ∧ reachable_set g m R ∧ inclusive_counts incl ∧
    numReachableFunctions s' = Z.of_nat (size R) ∧ totalStmts s' = set_sum (statements_of g) R ∧
    getCuttoffNumInclStmts cfg s' ⇓ c ∧ cutoff_of mode (incl <$> elements R) c.
Proof using Hwf Hfull Hm Hmarks Hcp.
  intros Hheur Hcfg Huse Hmode.
  destruct (Statistics_ret cfg use mode report Hheur Hcfg Huse Hmode)
    as (N & s' & g' & R & incl & c & Hr & Hf & HR & Hi & (Hn & Ht & Hc & Hcut) & _).
  by exists N, s', g', R, incl, c.
Qed.
End statistics.

(** ** The other heuristics *)

Section others.
Context {JO : JsonOps} {MDI : MetaDataI} {IO : IterOrder} `{!PgisClasses}.

(** The histograms that nothing is ever added to. *)
Definition only_statements (s : StatisticsEstimatorPhase) : Prop :=
  conditionalBranchesInclHist s = ∅ ∧ reverseConditionalBranchesInclHist s = ∅ ∧ rooflineInclHist s = ∅ ∧
  loopDepthInclHist s = ∅ ∧ globalLoopDepthInclHist s = ∅.

Lemma collect_only_statements st st' node :
  collect_statistics st node ⇓ st' → only_statements st.1.1.1 → only_statements st'.1.1.1.
Proof.
  destruct st as [[[s sce] g] ra]. intros Hr Ho. unfold collect_statistics in Hr.
  repeat (apply bind_ret_inv in Hr as (? & _ & Hr); cbv beta in Hr). injection Hr as <-. exact Ho.
Qed.

(** The statistics phase never fills the histograms of the heuristics other
    than the statement count, so that the threshold such a phase takes from it
    is 0, whatever the graph and the options: the phase then selects every
    reachable function whose count is not negative. *)
Theorem other_cutoffs_are_zero cfg fuel report g s' g' k :
  Statistics_modifyGraph cfg fuel (Statistics_new report) g ⇓ (s', g') →
  getPreviousThreshold cfg k s' ⇓ 0%Z.
Proof.
  intros Hr. unfold Statistics_modifyGraph in Hr.
  apply bind_ret_inv in Hr as (sce & _ & Hr). apply bind_ret_inv in Hr as (h & _ & Hr).
  apply bind_ret_inv in Hr as (g1 & _ & Hr). apply bind_ret_inv in Hr as (st & Hr & [= <- <-]).
  assert (only_statements st.1.1.1) as (H1 & H2 & H3 & H4 & H5).
  { apply (foldM_keeps (λ st, only_statements st.1.1.1) _ _ _ _) with (3 := Hr); [|done].
    intros node st1 st2 _ Ho Hn. unfold for_reachable in Hn. apply bind_ret_inv in Hn as (? & _ & Hn).
    apply bind_ret_inv in Hn as (r & _ & Hn). destruct r.2; [by eapply collect_only_statements|by injection Hn as <-]. }
  destruct k; unfold getPreviousThreshold, getCuttoffConditionalBranches, getCuttoffReversesConditionalBranches,
    getCuttoffRoofline, getCuttoffLoopDepth, getCuttoffGlobalLoopDepth, getCuttoffValue; by rewrite decide_True.
Qed.
End others.
