(* ===== verification/LIPhase.v ===== *)
(** * PGIS: load imbalance detection

    [pgis/lib/src/loadImbalance/LIEstimatorPhase.cpp], its configuration
    [LIConfig.h], and the metrics ([loadImbalance/metric/]).  The debug strings
    are left out; nothing depends on them. *)

From Stdlib Require Import Floats.SpecFloat.
From S2P Require Import Prelude Json MetaData BuiltinMD Callgraph CallgraphWf.
From S2P Require Import CallgraphOps Worklist Reach Dominators PgisMD.
From S2P Require Import PgisAccess CgHelper PgisPhases.

(** ** [LIConfig] *)

Inductive MetricType := Efficiency | VariationCoeff | ImbalancePercentage.
(** [ContextStrategy::None] is [NoContext] here. *)
Inductive ContextStrategy :=
  | AllPathsToMain | MajorPathsToMain | MajorParentSteps | NoContext | FindSynchronizationPoints.
Inductive ChildRelevanceStrategy := ConstantThreshold | RelativeToMain | RelativeToParent | All.

#[export] Instance ContextStrategy_eq_dec : EqDecision ContextStrategy.
Proof. solve_decision. Defined.

Record LIConfig := mkLIConfig {
  metricType : MetricType;
  imbalanceThreshold : double;
  relevanceThreshold : double;
  contextStrategy : ContextStrategy;
  contextStepCount : Z;
  childRelevanceStrategy : ChildRelevanceStrategy;
  childConstantThreshold : Z;
  childFraction : double
}.

(** ** Conversion of a [double] to [unsigned long long] *)

(** Towards zero; undefined when the result is out of range. *)
Definition d_trunc (x : double) : option Z :=
  match x with
  | S754_zero _ => Some 0%Z
  | S754_finite s m e =>
      let v := if decide (0 ≤ e)%Z then (Zpos m * 2 ^ e)%Z else (Zpos m / 2 ^ (- e))%Z in
      Some (if s then (- v)%Z else v)
  | _ => None
  end.

Definition d_to_Statements (x : double) : outcome Z :=
  match d_trunc x with
  | Some v => if decide (0 ≤ v < 2 ^ 64)%Z then Ret v else UB
  | None => UB
  end.

(** ** [AbstractMetric] *)

Record AbstractMetric := mkMetric {
  mt_max : double;
  mt_min : double;
  mt_mean : double;
  mt_stdev : double;
  mt_count : Z
}.

(** [std::map<std::pair<int, int>, double>] is iterated in the order of its keys. *)
Definition unit_le (p q : (Z * Z) * double) : Prop :=
  (p.1.1 < q.1.1)%Z ∨ p.1.1 = q.1.1 ∧ (p.1.2 ≤ q.1.2)%Z.
#[export] Instance unit_le_dec p q : Decision (unit_le p q).
Proof. unfold unit_le. apply _. Defined.

Definition unit_times (timesTable : gmap (Z * Z) double) : list double :=
  (merge_sort unit_le (map_to_list timesTable)).*2.

(** Empty locations are skipped. *)
Definition add_location (timesTable : gmap (Z * Z) double) (loc : CgLocation) : gmap (Z * Z) double :=
  let localTime := loc_inclusiveTime loc in
  if d_lt d_zero localTime then
    let procUnit := (loc_procId loc, loc_threadId loc) in
    match timesTable !! procUnit with
    | Some t => <[procUnit := d_add t localTime]> timesTable
    | None => <[procUnit := localTime]> timesTable
    end
  else timesTable.

Definition calcStddev (v : list double) : outcome double :=
  cpp_assert (negb (bool_decide (v = [])));;
  let n := d_of_Z (Z.of_nat (length v)) in
  let mean := d_div (foldl d_add d_zero v) n in
  let diff := (λ x, d_sub x mean) <$> v in
  let sqSum := foldl (λ a x, d_add a (d_mul x x)) d_zero diff in
  Ret (d_sqrt (d_div sqSum n)).

(** [std::max_element] and [std::min_element] on a vector that is not empty. *)
Definition d_max_element (x : double) (l : list double) : double := foldl d_max x l.
Definition d_min_element (x : double) (l : list double) : double :=
  foldl (λ a b, if d_lt b a then b else a) x l.

Definition calcIndicators (locations : list CgLocation) : outcome AbstractMetric :=
  let times := unit_times (foldl add_location ∅ locations) in
  match times with
  | [] => Ret (mkMetric d_zero (S754_infinity false) d_zero d_zero 0)
  | x :: l =>
      let count := Z.of_nat (length times) in
      let mean := d_div (foldl d_add d_zero times) (d_of_Z count) in
      stdev ← (if decide (count > 1)%Z then calcStddev times else Ret d_zero);
      Ret (mkMetric (d_max_element x l) (d_min_element x l) mean stdev count)
  end.

(** The [calc] of the three metrics. *)
Definition metric_calc (t : MetricType) (mt : AbstractMetric) : double :=
  match t with
  | Efficiency => if d_eq (mt_mean mt) d_zero then d_zero else d_div (mt_max mt) (mt_mean mt)
  | VariationCoeff => if d_eq (mt_mean mt) d_zero then d_zero else d_div (mt_stdev mt) (mt_mean mt)
  | ImbalancePercentage =>
      if decide (mt_count mt > 1)%Z then
        d_div (d_mul (d_div (d_sub (mt_max mt) (mt_mean mt)) (mt_max mt)) (d_of_Z (mt_count mt)))
          (d_of_Z (mt_count mt - 1))
      else d_zero
  end.

(** ** [LIEstimatorPhase] *)

Section phase.
Context {JO : JsonOps} {MDI : MetaDataI} {IO : IterOrder} `{!PgisClasses}.

(** [isFlagged] on the node's metadata. *)
Definition li_flagged (type : FlagType) (g : Callgraph) (node : NodePtr) : outcome (Callgraph * bool) :=
  li ← ptr_getOrCreate LIMetaData g node;
  b ← isFlagged type li.2; Ret (li.1, b).

(** The body of the loop of [instrumentRelevantChildren] for a node that was
    not processed. *)
Definition relevant_visit (statementThreshold : Z) (g : Callgraph) (child : NodePtr)
    : outcome (Callgraph * list NodePtr) :=
  li ← ptr_getOrCreate LIMetaData g child;
  next ← (if isVirtualFunction li.2
          then gcs ← callees_ptr li.1 child; Ret (iter_set gcs) else Ret []);
  if decide (inclusiveStatements li.2 >= statementThreshold)%Z then
    f ← li_flagged Irrelevant li.1 child;
    g ← (if f.2 : bool then Ret f.1 else instrumentNode f.1 child);
    Ret (g, next)
  else Ret (li.1, next).

Definition instrumentRelevantChildren (fuel : nat) (g : Callgraph) (node : NodePtr)
    (statementThreshold : Z) : outcome Callgraph :=
  callees ← callees_ptr g node;
  r ← loop fuel (visit_turn (relevant_visit statementThreshold)) (g, ∅, iter_set callees); Ret r.1.

(** A [Task] is a node and the remaining steps. *)
Definition steps_turn (g : Callgraph) (end_ : NodePtr) (st : gset NodePtr * list (NodePtr * Z))
    : outcome ((gset NodePtr * list (NodePtr * Z)) + bool) :=
  match st with
  | (_, []) => Ret (inr false)
  | (visitedSet, (node, remainingSteps) :: taskQueue) =>
      if decide (node ∈ visitedSet) then Ret (inl (visitedSet, taskQueue))
      else
        let visitedSet := {[node]} ∪ visitedSet in
        if decide (node = end_) then Ret (inr true)
        else if decide (remainingSteps > 0)%Z then
          callees ← callees_ptr g node;
          Ret (inl (visitedSet, taskQueue ++ ((λ child, (child, remainingSteps - 1)%Z) <$> iter_set callees)))
        else Ret (inl (visitedSet, taskQueue))
  end.

Definition reachableInNSteps (fuel : nat) (g : Callgraph) (start end_ : NodePtr) (steps : Z)
    : outcome bool :=
  loop fuel (steps_turn g end_) (∅, [(start, steps)]).

(** [instrumentByPattern] visits the descendants, but what it did with the
    calls it finds is commented out: only the debug string is left. *)
Definition instrumentByPattern (fuel : nat) (g : Callgraph) (startNode : NodePtr) : outcome Callgraph :=
  _ ← loop fuel (visit_turn (λ (_ : unit) node,
        callees ← callees_ptr g node;
        _ ← foldM (λ _ child, _ ← ptr_node g child; Ret tt) tt (iter_set callees);
        Ret (tt, iter_set callees))) (tt, ∅, [startNode]);
  Ret g.

Definition findSyncPoints (fuel : nat) (g : Callgraph) (node : NodePtr) : outcome Callgraph :=
  parents ← callers_ptr g node;
  foldM (λ g parent,
    i ← li_flagged Imbalanced g parent;
    if i.2 : bool then Ret i.1
    else
      v ← li_flagged Visited i.1 parent;
      if v.2 : bool then instrumentByPattern fuel v.1 parent else Ret v.1) g (iter_set parents).

Definition contextHandling (c : LIConfig) (fuel : nat) (st : Callgraph * ReachabilityAnalysis)
    (n mainNode : NodePtr) : outcome (Callgraph * ReachabilityAnalysis) :=
  match contextStrategy c with
  | NoContext => Ret st
  | FindSynchronizationPoints => g ← findSyncPoints fuel st.1 n; Ret (g, st.2)
  | _ =>
      a ← allNodesToMain st.1 fuel n mainNode ∅ st.2;
      let nodesOnPathToMain := a.2 in
      r ← (if bool_decide (contextStrategy c = MajorPathsToMain) || bool_decide (contextStrategy c = MajorParentSteps)
           then foldM (λ (st : Callgraph * gset NodePtr) x,
                  v ← li_flagged Visited st.1 x;
                  Ret (v.1, if v.2 : bool then st.2 else st.2 ∖ {[x]}))
                  (a.1.1, nodesOnPathToMain) (iter_set nodesOnPathToMain)
           else Ret (a.1.1, nodesOnPathToMain));
      let relevantPaths := r.2 in
      toInstrument ← (if decide (contextStrategy c = MajorParentSteps)
           then foldM (λ toInstrument x,
                  b ← reachableInNSteps fuel r.1 x n (to_int (contextStepCount c));
                  Ret (if b : bool then toInstrument else toInstrument ∖ {[x]}))
                  relevantPaths (iter_set relevantPaths)
           else Ret relevantPaths);
      g ← foldM instrumentNode r.1 (iter_set toInstrument);
      Ret (g, a.1.2)
  end.

(** The threshold for the children of [n]. *)
Definition statementThreshold (c : LIConfig) (g : Callgraph) (n mainMethod : NodePtr)
    : outcome (Callgraph * Z) :=
  let relative p :=
    li ← ptr_getOrCreate LIMetaData g p;
    t ← d_to_Statements (d_mul (d_of_Z (inclusiveStatements li.2)) (childFraction c));
    Ret (li.1, Z.max t (childConstantThreshold c)) in
  match childRelevanceStrategy c with
  | All => Ret (g, 0%Z)
  | ConstantThreshold => Ret (g, childConstantThreshold c)
  | RelativeToParent => relative n
  | RelativeToMain => relative mainMethod
  end.

(** The indicators of a node; [get] yields null without a profile. *)
Definition setNode (g : Callgraph) (node : NodePtr) : outcome AbstractMetric :=
  bpd ← ptr_get BaseProfileData g node; b ← deref bpd; calcIndicators (cgLoc b).

Definition flag_node (type : FlagType) (g : Callgraph) (n : NodePtr) : outcome Callgraph :=
  ptr_modify LIMetaData (flag type) g n.

(** The body of the loop for a node that is measured and not irrelevant. *)
Definition assess_node (c : LIConfig) (fuel : nat) (totalRuntime : double) (mainMethod : NodePtr)
    (g : Callgraph) (n : NodePtr) : outcome Callgraph :=
  g ← flag_node Visited g n;
  bpd ← ptr_getOrCreate BaseProfileData g n;
  let runtime := inclTimeInSeconds bpd.2 in
  if d_le (relevanceThreshold c) (d_div runtime totalRuntime) then
    t ← statementThreshold c bpd.1 n mainMethod;
    g ← instrumentRelevantChildren fuel t.1 n t.2;
    mt ← setNode g n;
    let m := metric_calc (metricType c) mt in
    if d_le (imbalanceThreshold c) m then
      g ← ptr_modify LIMetaData (setAssessment m) g n;
      g ← flag_node Imbalanced g n;
      instrumentNode g n
    else flag_node Irrelevant g n
  else flag_node Irrelevant bpd.1 n.

Definition LI_visit (c : LIConfig) (fuel : nat) (totalRuntime : double) (mainMethod : NodePtr)
    (g : Callgraph) (n : NodePtr) : outcome Callgraph :=
  pod ← ptr_getOrCreate PiraOneData g n;
  if comesFromCube pod.2 then
    f ← li_flagged Irrelevant pod.1 n;
    if f.2 : bool then Ret f.1 else assess_node c fuel totalRuntime mainMethod f.1 n
  else Ret pod.1.

Definition LI_modifyGraph (c : LIConfig) (fuel : nat) (graph : Callgraph) (mainMethod : NodePtr)
    : outcome Callgraph :=
  bpd ← ptr_getOrCreate BaseProfileData graph mainMethod;
  let totalRuntime := inclTimeInSeconds bpd.2 in
  g ← foldM resetInstrumentation bpd.1 (node_ptrs graph);
  g ← instrumentNode g mainMethod;
  g ← foldM (LI_visit c fuel totalRuntime mainMethod) g (node_ptrs graph);
  r ← foldM (λ (st : Callgraph * ReachabilityAnalysis) n,
        i ← li_flagged Imbalanced st.1 n;
        if i.2 : bool then contextHandling c fuel (i.1, st.2) n mainMethod else Ret (i.1, st.2))
        (g, Reach_new) (node_ptrs graph);
  Ret r.1.

Definition LI_doPrerequisites (fuel : nat) (graph : Callgraph) : outcome Callgraph :=
  mn ← getMain graph false;
  calculateInclusiveStatementCounts mn.1 fuel mn.2.
End phase.
