(* ===== verification/LIProps.v ===== *)
(** * PGIS: load imbalance detection, properties

    Theorems about [LIEstimatorPhase] ([pgis/lib/src/loadImbalance]): the
    bounded search [reachableInNSteps] and the selection of children. *)

From S2P Require Import Prelude Json MetaData BuiltinMD Callgraph CallgraphWf.
From S2P Require Import CallgraphOps CallgraphSpec CallgraphProps Worklist Reach.
From S2P Require Import Dominators PgisMD PgisAccess PgisWalk CgHelper.
From S2P Require Import PgisPhases LIPhase.

(** ** Reachability within a number of steps *)

Section steps.
Context {JO : JsonOps} {MDI : MetaDataI} {IO : IterOrder}.
Context (g : Callgraph) (Hwf : wf g) (start : NodeId) (Hstart : live g start) (end_ : NodeId) (steps : Z).

(** The queue holds tasks of at most two levels, the upper one first. *)
Definition levels_ok (h : Z) (q : list (NodePtr * Z)) : Prop :=
  StronglySorted (λ t u, u.2 ≤ t.2)%Z q ∧ ∀ t, t ∈ q → (h - 1 ≤ t.2 ≤ h)%Z.

(** [rho] gives the remaining steps at which a node was visited first. *)
Record steps_inv (st : gset NodePtr * list (NodePtr * Z)) : Prop := {
  si_sound p r : (p, r) ∈ st.2 → ∃ j k, p = Some j ∧ nsteps (calls g) k start j ∧ r = (steps - Z.of_nat k)%Z ∧
    (k = 0 ∨ (0 ≤ r)%Z);
  si_visited p : p ∈ st.1 → ∃ j, p = Some j ∧ live g j ∧ j ≠ end_;
  si_bfs : ∃ (h : Z) (rho : gmap NodePtr Z), levels_ok h st.2 ∧ (∀ p, is_Some (rho !! p) ↔ p ∈ st.1) ∧
    (∀ p r, rho !! p = Some r → (h ≤ r)%Z) ∧
    (∀ i j r, rho !! Some i = Some r → (0 < r)%Z → calls g i j →
       (∃ r', rho !! Some j = Some r' ∧ (r - 1 ≤ r')%Z) ∨ (∃ r', (Some j, r') ∈ st.2 ∧ (r - 1 ≤ r')%Z)) ∧
    ((∃ r', rho !! Some start = Some r' ∧ (steps ≤ r')%Z) ∨ (Some start, steps) ∈ st.2)
}.

Lemma steps_inv_init : steps_inv (∅, [(Some start, steps)]).
Proof using Type.
  clear. split; cbn [fst snd].
  - intros p r [= -> ->]%list_elem_of_singleton. exists start, 0. split_and!; [done|by apply nsteps_O|lia|by left].
  - intros p Hp. by apply elem_of_empty in Hp.
  - exists steps, ∅. split_and!.
    + split; [by repeat constructor|]. intros t ->%list_elem_of_singleton. simpl. lia.
    + intros p. rewrite lookup_empty. split; [by intros []|by intros ?%elem_of_empty].
    + intros p r. by rewrite lookup_empty.
    + intros i j r. by rewrite lookup_empty.
    + right. by left.
Qed.

Lemma nsteps_live k j : nsteps (calls g) k start j → live g j.
Proof using Hwf Hstart. intros Hk%rtc_nsteps_2. by eapply (rtc_calls_live g Hwf). Qed.

(** A task of a node that was visited is dropped. *)
Lemma steps_drop V q p r : p ∈ V → steps_inv (V, (p, r) :: q) → steps_inv (V, q).
Proof using Type.
  clear. intros Hp [Hs Hv (h & rho & [Hsort Hlev] & Hdom & Hge & Hedge & Hst)]; cbn [fst snd] in *.
  apply StronglySorted_inv in Hsort as [Hsort _].
  assert (∃ r', rho !! p = Some r' ∧ (r ≤ r')%Z) as (r1 & Hr1 & Hr).
  { destruct (proj2 (Hdom p) Hp) as [r1 Hr1]. exists r1. split; [done|]. pose proof (Hge _ _ Hr1).
    pose proof (Hlev (p, r) ltac:(by left)) as Hl. simpl in Hl. lia. }
  split; cbn [fst snd]; [intros p' r' Hin; apply Hs; by right|done|].
  exists h, rho. split_and!; [split; [done|]; intros t Ht; apply Hlev; by right|done|done| |].
  - intros i j r2 Hi Hpos Hij. destruct (Hedge i j r2 Hi Hpos Hij) as [?|(r3 & Hin & Hle)]; [by left|].
    apply elem_of_cons in Hin as [[= <- <-]|Hin]; [left; exists r1; split; [done|lia]|right; by exists r3].
  - destruct Hst as [?|[[= <- <-]|?]%elem_of_cons]; [by left|left; by exists r1|by right].
Qed.

(** A node that was not visited is, with new tasks for its callees. *)
Lemma steps_visit V q i r new : Some i ∉ V → i ≠ end_ → steps_inv (V, (Some i, r) :: q) →
  ((0 < r)%Z → ∀ t, t ∈ new ↔ ∃ j, t = (Some j, r - 1)%Z ∧ calls g i j) → (¬ (0 < r)%Z → new = []) →
  steps_inv ({[Some i]} ∪ V, q ++ new).
Proof using Hwf Hstart.
  intros Hi Hend [Hs Hv (h & rho & [Hsort Hlev] & Hdom & Hge & Hedge & Hst)] Hnew Hnil; cbn [fst snd] in *.
  apply StronglySorted_inv in Hsort as [Hsort Hhd]. rewrite Forall_forall in Hhd.
  pose proof (Hlev (Some i, r) ltac:(by left)) as Hr. simpl in Hr.
  assert (∀ t, t ∈ new → t.2 = r - 1 ∧ 0 < r)%Z as Hnew2.
  { intros t Ht. destruct (decide (0 < r)%Z) as [H0|H0].
    - apply (Hnew H0) in Ht as (j & -> & _). done.
    - rewrite (Hnil H0) in Ht. by apply elem_of_nil in Ht. }
  destruct (Hs (Some i) r ltac:(by left)) as (i' & k & [= <-] & Hk & Hrk & Hk0).
  assert (rho !! Some i = None) as Hni by (apply eq_None_not_Some; by rewrite Hdom).
  split; cbn [fst snd].
  - intros p r' [Hin|Hin]%elem_of_app; [apply Hs; by right|]. destruct (Hnew2 _ Hin) as [Hr' H0].
    apply (Hnew H0) in Hin as (j & [= -> ->] & Hij). exists j, (S k).
    split_and!; [done|by eapply nsteps_r|lia|right; lia].
  - intros p [->%elem_of_singleton|Hp]%elem_of_union; [exists i; split_and!; [done|by eapply nsteps_live|done]|by apply Hv].
  - exists r, (<[Some i := r]> rho). split_and!.
    + split.
      * apply StronglySorted_app. split_and!; [|done|].
        -- intros t u Ht Hu. destruct (Hnew2 _ Hu) as [Hu2 _]. pose proof (Hlev t ltac:(by right)). lia.
        -- clear -Hnew2. induction new as [|t l IH]; constructor; [apply IH; intros; apply Hnew2; by right|].
           apply Forall_forall. intros u Hu. pose proof (Hnew2 t ltac:(by left)). pose proof (Hnew2 u ltac:(by right)). lia.
      * intros t [Ht|Ht]%elem_of_app; [|destruct (Hnew2 _ Ht); lia].
        pose proof (Hlev t ltac:(by right)). pose proof (Hhd t Ht) as Ht2. cbn in Ht2. lia.
    + intros p. rewrite lookup_insert_is_Some', Hdom. set_solver.
    + intros p r' [[<- <-]|[_ Hp]]%lookup_insert_Some; [lia|]. apply Hge in Hp. lia.
    + intros i1 j r1 [[[= <-] <-]|[Hne Hi1]]%lookup_insert_Some Hpos Hij.
      * right. exists (r - 1)%Z. split; [|lia]. apply elem_of_app. right. apply (Hnew Hpos). by exists j.
      * destruct (Hedge i1 j r1 Hi1 Hpos Hij) as [(r2 & Hj & Hle)|(r2 & [[= <- <-]|Hin]%elem_of_cons & Hle)].
        -- left. exists r2. rewrite lookup_insert_ne by congruence. done.
        -- left. exists r2. by rewrite lookup_insert_eq.
        -- right. exists r2. split; [|done]. apply elem_of_app. by left.
    + destruct Hst as [(r1 & Hst & Hle)|[[= -> ->]|Hst]%elem_of_cons].
      * left. exists r1. by rewrite lookup_insert_ne by congruence.
      * left. exists r. by rewrite lookup_insert_eq.
      * right. apply elem_of_app. by left.
Qed.

Definition in_steps : Prop := ∃ k, nsteps (calls g) k start end_ ∧ (k = 0 ∨ (Z.of_nat k ≤ steps)%Z).

(** With an empty queue every node in reach was visited. *)
Lemma steps_done V : steps_inv (V, []) → ¬ in_steps.
Proof using Type.
  clear. intros [_ Hv (h & rho & _ & Hdom & _ & Hedge & Hst)] (k & Hk & Hle); cbn [fst snd] in *.
  assert (∀ k j, nsteps (calls g) k start j → k = 0 ∨ (Z.of_nat k ≤ steps)%Z →
    ∃ r, rho !! Some j = Some r ∧ (steps - Z.of_nat k ≤ r)%Z) as Hgo.
  { clear k Hk Hle. induction k as [|k IH]; intros j Hk Hle.
    - inversion Hk; subst. destruct Hst as [(r & ? & ?)|Hin]; [exists r; split; [done|lia]|by apply elem_of_nil in Hin].
    - apply nsteps_inv_r in Hk as (i & Hk & Hij). destruct (IH i Hk) as (r & Hr & Hr2); [right; lia|].
      destruct (Hedge i j r Hr) as [(r2 & ? & ?)|(r2 & Hin & _)]; [lia|done|exists r2; split; [done|lia]|by apply elem_of_nil in Hin]. }
  destruct (Hgo k end_ Hk Hle) as (r & Hr & _). destruct (Hv (Some end_)) as (j & [= <-] & _ & Hne); [apply Hdom; by eexists|done].
Qed.

Lemma steps_turn_ret st : steps_inv st →
  (∃ st', steps_turn g (Some end_) st ⇓ inl st' ∧ steps_inv st' ∧
     lex_lt (λ st, unvisited (slots g) st.1) (λ st, length st.2) st' st) ∨
  (∃ b, steps_turn g (Some end_) st ⇓ inr b ∧ (b = true ↔ in_steps)).
Proof using Hwf Hstart.
  destruct st as [V [|[p r] q]]; intros Hinv; cbn [steps_turn].
  { right. exists false. split; [done|]. split; [done|]. by intros ?%(steps_done V). }
  destruct (si_sound _ Hinv p r ltac:(by left)) as (i & k & -> & Hk & Hrk & Hk0).
  case_decide as Hi.
  { left. eexists. split; [done|]. split; [by eapply steps_drop|]. right. cbn. split; [done|lia]. }
  case_decide as He.
  { right. exists true. split; [done|]. split; [|done]. injection He as ->. intros _. exists k. split; [done|lia]. }
  assert (live g i) as Hl by by eapply nsteps_live.
  assert (unvisited (slots g) ({[Some i]} ∪ V) < unvisited (slots g) V) as Hlt.
  { apply subset_size. assert (Some i ∈ slots g); [|set_solver].
    apply elem_of_list_to_set, list_elem_of_fmap_2, elem_of_seq. apply live_lt in Hl. lia. }
  left. destruct (decide (r > 0)%Z) as [H0|H0].
  - rewrite callees_ptr_ret, bind_ret by done. eexists. split; [done|]. split; [|by left].
    apply (steps_visit V q i r); [done|congruence|done| |lia]. intros _ t. rewrite list_elem_of_fmap. split.
    + intros (q' & -> & Hq%elem_of_iter_set). apply (elem_of_callees g i q' Hwf) in Hq as (j & -> & Hij). by exists j.
    + intros (j & -> & Hij). exists (Some j). split; [done|]. apply elem_of_iter_set, (elem_of_callees g i _ Hwf). by exists j.
  - eexists. split; [done|]. split; [|by left]. rewrite <- (app_nil_r q).
    apply (steps_visit V q i r); [done|congruence|done|lia|done].
Qed.

Lemma reachableInNSteps_ret : ∃ N b, (b = true ↔ in_steps) ∧
  ∀ fuel, N ≤ fuel → reachableInNSteps fuel g (Some start) (Some end_) steps ⇓ b.
Proof using Hwf Hstart.
  destruct (loop_terminates (steps_turn g (Some end_)) steps_inv (λ b, b = true ↔ in_steps)
    (lex_lt (λ st, unvisited (slots g) st.1) (λ st, length st.2)) (∅, [(Some start, steps)])) as (b & N & Hb & HN);
    [apply lex_lt_wf|apply steps_inv_init|apply steps_turn_ret|]. by exists N, b.
Qed.
End steps.

(** C26: [reachableInNSteps] stops and answers whether the second node can be
    reached from the first by at most the given number of calls (a node reaches
    itself, whatever the number): although every node is expanded only once,
    the order of the queue makes the first visit the one with the most steps
    left. *)
Theorem reachableInNSteps_correct {JO : JsonOps} {MDI : MetaDataI} {IO : IterOrder} (g : Callgraph)
    (i j : NodeId) (steps : Z) :
  wf g → live g i →
  ∃ N b, (∀ fuel, N ≤ fuel → reachableInNSteps fuel g (Some i) (Some j) steps ⇓ b) ∧
    (b = true ↔ ∃ k, nsteps (calls g) k i j ∧ (k = 0 ∨ (Z.of_nat k ≤ steps)%Z)).
Proof.
  intros Hwf Hi. destruct (reachableInNSteps_ret g Hwf i Hi j steps) as (N & b & Hb & HN). by exists N, b.
Qed.

(** ** The children that are instrumented *)

Section children.
Context {JO : JsonOps} {MDI : MetaDataI} {IO : IterOrder} `{!PgisClasses}.
Context (g : Callgraph) (Hwf : wf g) (Hmarks : marks_ok g) (threshold : Z).
(** The metadata of the detection is well-typed and has the flag. *)
Context (Hli : ∀ i, live g i → ∃ l b, md_view LIMetaData g i = Some l ∧ flags l !! Irrelevant = Some b).

Definition virtual (i : NodeId) : Prop := ∃ l, md_view LIMetaData g i = Some l ∧ isVirtualFunction l = true.

(** A callee of a virtual function may be one of its implementations. *)
Definition implements (i j : NodeId) : Prop := calls g i j ∧ virtual i.
Definition child_of (i j : NodeId) : Prop := ∃ c, calls g i c ∧ rtc implements c j.

Definition is_relevant (i : NodeId) : bool :=
  match md_view LIMetaData g i with
  | Some l => bool_decide (threshold ≤ inclusiveStatements l)%Z && bool_decide (flags l !! Irrelevant = Some false)
  | None => false
  end.

Definition li_keys : gset string := {[IMD_key; T_key LIMetaData]}.

Definition same_li (g1 : Callgraph) : Prop :=
  frame li_keys g g1 ∧ ∀ j, md_view LIMetaData g1 j = md_view LIMetaData g j.

Lemma read_li g1 i l : same_li g1 → md_view LIMetaData g i = Some l →
  ∃ g2, ptr_getOrCreate LIMetaData g1 (Some i) ⇓ (g2, l) ∧ same_li g2 ∧ ∀ j, mark g2 j = mark g1 j.
Proof using Type.
  clear Hwf Hmarks Hli. intros [Hf Hs] Hl. rewrite <- Hs in Hl.
  destruct (ptr_getOrCreate_ret _ g1 i l Hl) as (g2 & Hr & Hf2 & Hv). exists g2. split_and!; [done| |].
  - split; [|intros j; by rewrite Hv, Hs]. eapply frame_trans; [exact Hf|]. eapply frame_mono; [|exact Hf2].
    unfold li_keys. set_solver.
  - intros j. apply (mark_frame _ _ _ _ Hf2). by apply not_elem_of_singleton.
Qed.

Lemma relevant_visit_ret g1 i s : same_li g1 → live g i → mark g1 i = Some s →
  ∃ g2 X, relevant_visit threshold g1 (Some i) ⇓ (g2, iter_set X) ∧ same_li g2 ∧
    (∀ p, p ∈ X ↔ ∃ j, p = Some j ∧ implements i j) ∧
    ∀ j, mark g2 j = if decide (j = i ∧ is_relevant i = true) then Some Instrumented else mark g1 j.
Proof using Hwf Hmarks Hli.
  intros Hs Hi Hms. destruct (Hli i Hi) as (l & b & Hl & Hb).
  destruct (read_li g1 i l Hs Hl) as (g2 & Hr2 & Hs2 & Hm2). pose proof (proj1 Hs2) as Hf2.
  unfold relevant_visit. rewrite Hr2, bind_ret. cbn [fst snd].
  assert (∃ X, (if isVirtualFunction l then gcs ← callees_ptr g2 (Some i); Ret (iter_set gcs) else Ret []) ⇓ iter_set X ∧
    ∀ p, p ∈ X ↔ ∃ j, p = Some j ∧ implements i j) as (X & -> & HX).
  { destruct (isVirtualFunction l) eqn:Hv.
    - exists (next g Forward (Some i)).
      rewrite callees_ptr_ret by first [by apply (frame_wf Hf2)|by apply (frame_live Hf2)].
      rewrite bind_ret, (frame_next Hf2). split; [done|]. intros p. rewrite (elem_of_callees g i p Hwf).
      assert (virtual i) by (by exists l). unfold implements. naive_solver.
    - exists ∅. rewrite iter_set_empty. split; [done|]. intros p. split; [by intros ?%elem_of_empty|].
      intros (j & _ & _ & l' & Hl' & Hv'). congruence. }
  rewrite bind_ret. unfold is_relevant. rewrite Hl, Hb. destruct (decide (inclusiveStatements l >= threshold)%Z) as [Hge|Hlt].
  - rewrite (bool_decide_true (threshold ≤ _)%Z) by lia. cbn [andb].
    destruct (read_li g2 i l Hs2 Hl) as (g3 & Hr3 & Hs3 & Hm3).
    unfold li_flagged, isFlagged. rewrite Hr3, bind_ret. cbn [fst snd]. rewrite Hb. cbn [at_or_throw]. rewrite !bind_ret.
    cbn [fst snd]. destruct b.
    + exists g3, X. rewrite bool_decide_false by congruence. rewrite bind_ret. split_and!; [done|done|done|].
      intros j. rewrite decide_False by by intros []. by rewrite Hm3, Hm2.
    + destruct (instrumentNode_ret g3 i s ltac:(by rewrite Hm3, Hm2)) as (g4 & Hr4 & Hf4 & Hm4).
      exists g4, X. rewrite bool_decide_true by done. rewrite Hr4, bind_ret. split_and!; [done| |done|].
      * destruct Hs3 as [Hf3 Hv3]. split.
        -- eapply frame_trans; [exact Hf3|]. eapply frame_mono; [|exact Hf4]. unfold li_keys. set_solver.
        -- intros j. rewrite (md_view_frame _ _ _ _ _ Hf4); [done|]. by apply not_elem_of_singleton.
      * intros j. rewrite Hm4. destruct (decide (j = i)); [by rewrite decide_True|].
        rewrite decide_False by tauto. by rewrite Hm3, Hm2.
  - rewrite (bool_decide_false (threshold ≤ _)%Z) by lia. exists g2, X. split_and!; [done..|].
    intros j. rewrite decide_False by by intros []. by rewrite Hm2.
Qed.

(** C27: the children of a function that the load imbalance detection
    instruments are its callees and, through virtual functions, the possible
    implementations, as far as they have at least the threshold of inclusive
    statements and were not found irrelevant; no other mark changes. *)
Theorem instrumentRelevantChildren_correct i fuel :
  live g i → length (nodes g) + size (edges g) < fuel →
  ∃ g', instrumentRelevantChildren fuel g (Some i) threshold ⇓ g' ∧ frame li_keys g g' ∧
    ∀ j, live g j →
      (child_of i j → is_relevant j = true → mark g' j = Some Instrumented) ∧
      (¬ (child_of i j ∧ is_relevant j = true) → mark g' j = mark g j).
Proof using Hwf Hmarks Hli.
  intros Hi Hfuel. unfold instrumentRelevantChildren. rewrite callees_ptr_ret, bind_ret by done.
  set (C := next g Forward (Some i)).
  assert (∃ cs, iter_set C = Some <$> cs ∧ ∀ c, c ∈ cs → calls g i c) as (cs & Hcs & Hcalls).
  { assert (∀ p, p ∈ iter_set C → ∃ c, p = Some c ∧ calls g i c) as Hall
      by (intros p Hp%elem_of_iter_set; by apply (elem_of_callees g i p Hwf)).
    induction (iter_set C) as [|p l IH]; [exists []; split; [done|]; by intros ? ?%elem_of_nil|].
    destruct (Hall p ltac:(by left)) as (c & -> & Hc). destruct IH as (cs & -> & Hcs); [intros; apply Hall; by right|].
    exists (c :: cs). split; [done|]. intros c' [->|?]%elem_of_cons; [done|by apply Hcs]. }
  assert (∀ c, calls g i c → c ∈ cs) as Hin.
  { intros c Hc. assert (Some c ∈ iter_set C) as H1 by (apply elem_of_iter_set, (elem_of_callees g i _ Hwf); by exists c).
    rewrite Hcs in H1. by apply list_elem_of_fmap in H1 as (? & [= <-] & ?). }
  rewrite Hcs.
  destruct (walk_loop g Hwf Forward implements (λ _ _ H, proj1 H) cs) with
    (visit := λ _ : nat, relevant_visit threshold) (N := 0) (s0 := g)
    (P := λ (V : gset NodePtr) (g1 : Callgraph), same_li g1 ∧ ∀ j, mark g1 j =
       if decide (Some j ∈ V ∧ is_relevant j = true) then Some Instrumented else mark g j)
    as (g' & V & (Hs' & Hm') & HV & Hrun).
  - intros c Hc%Hcalls. by apply (wf_edges _ Hwf) in Hc as [_ ?].
  - split; [split; [apply frame_refl|done]|]. intros j. rewrite decide_False; [done|]. by intros [?%elem_of_empty _].
  - intros V g1 k [Hs1 Hm1] HkV Hk Hlk.
    assert (∃ s, mark g1 k = Some s) as [s Hsk].
    { rewrite Hm1. rewrite decide_False by tauto. by apply Hmarks. }
    destruct (relevant_visit_ret g1 k s Hs1 Hlk Hsk) as (g2 & X & Hr & Hs2 & HX & Hm2). exists g2, X.
    split_and!; [by intros|done|done|]. intros j. rewrite Hm2, Hm1. destruct (decide (j = k)) as [->|Hne].
    + destruct (is_relevant k); [rewrite !decide_True by set_solver; done|]. by rewrite !decide_False by by intros [].
    + rewrite decide_False by tauto. assert (Some j ∈ {[Some k]} ∪ V ↔ Some j ∈ V) as E.
      { rewrite elem_of_union, elem_of_singleton. split; [intros [[= ->]|?]; [done|done]|by right]. }
      destruct (decide (Some j ∈ V ∧ is_relevant j = true)) as [Hd|Hd].
      * rewrite decide_True; [done|]. by rewrite E.
      * rewrite decide_False; [done|]. by rewrite E.
  - exists g'. rewrite (Hrun 0 fuel); [|lia|].
    { rewrite bind_ret. split_and!; [done|apply Hs'|]. intros j Hj. rewrite Hm'.
      assert (Some j ∈ V ↔ child_of i j) as HVj.
      { rewrite HV. unfold walked_to, child_of. split.
        - intros (? & [= <-] & c & Hc & Hr). exists c. split; [by apply Hcalls|done].
        - intros (c & Hc & Hr). exists j. split; [done|]. exists c. split; [by apply Hin|done]. }
      split; [intros Hc Hrel; rewrite decide_True; [done|by rewrite HVj]|].
      intros Hno. rewrite decide_False; [done|by rewrite HVj]. }
    assert (length (iter_set C) ≤ length (nodes g)) as Hle.
    { rewrite length_iter_set, <- (size_slots g). apply subseteq_size. intros p Hp.
      apply (elem_of_callees g i p Hwf) in Hp as (c & -> & Hc). apply live_slot. by apply (wf_edges _ Hwf) in Hc as [_ ?]. }
    rewrite Hcs, length_fmap in Hle. lia.
Qed.
End children.
