(* ===== verification/DominatorExamples.v ===== *)
(** * Dominator analysis: limits and examples *)

From S2P Require Import Prelude Json MetaData BuiltinMD Callgraph CallgraphWf.
From S2P Require Import CallgraphOps CallgraphSpec CallgraphProps Merge MergeProps MergeExamples.
From S2P Require Import Dominators.

(** ** The order of traversal

    A turn of the loop depends on the order of the containers only through the
    order in which the outgoing nodes are queued. *)

Section order.
Context (IO1 IO2 : IterOrder).

(** The facts about single steps do not depend on the graph. *)
Abbreviation nowhere := (λ _ : NodePtr, ∅ : gset NodePtr).
Abbreviation no_nodes := (λ _ : NodePtr, UB : outcome (gset NodePtr)).

Lemma initializedCallees_order D ins1 ins2 : ins1 ≡ₚ ins2 →
  (initializedCallees D ins1).1 = (initializedCallees D ins2).1 ∧
  (initializedCallees D ins1).2 ≡ₚ (initializedCallees D ins2).2.
Proof.
  intros Hp. pose proof (initializedCallees_spec nowhere nowhere no_nodes no_nodes D ins1) as (He1 & Hd1 & ->).
  pose proof (initializedCallees_spec nowhere nowhere no_nodes no_nodes D ins2) as (He2 & Hd2 & ->).
  split; [|by rewrite Hp]. apply map_eq. intros p. specialize (He1 p). specialize (He2 p).
  specialize (Hd1 p). specialize (Hd2 p).
  assert (p ∈ ins1 ↔ p ∈ ins2) as Hin by (by rewrite Hp). rewrite Hin, <- Hd2 in Hd1. clear Hd2 Hin.
  unfold dom_entry in *.
  destruct ((initializedCallees D ins1).1 !! p) as [d1|], ((initializedCallees D ins2).1 !! p) as [d2|];
    cbn in *; try congruence; exfalso.
  - by destruct (proj1 Hd1 (ex_intro _ d1 eq_refl)).
  - by destruct (proj2 Hd1 (ex_intro _ d2 eq_refl)).
Qed.

Lemma intersection_order (l1 l2 : list NodePtr) (D : DomAnalysisResult) :
  l1 ≡ₚ l2 → (∀ p, p ∈ l1 → is_Some (D !! p)) →
  intersection (IO := IO1) l1 D = intersection (IO := IO2) l2 D.
Proof.
  intros Hp Hl.
  destruct (intersection_spec (IO := IO1) nowhere nowhere no_nodes no_nodes l1 D Hl) as (S1 & -> & H1).
  destruct (intersection_spec (IO := IO2) nowhere nowhere no_nodes no_nodes l2 D) as (S2 & -> & H2);
    [intros p; rewrite <- Hp; apply Hl|].
  f_equal. apply set_eq. intros x. rewrite H1, H2.
  assert (∀ p, p ∈ l1 ↔ p ∈ l2) as Hin by (intros p; by rewrite Hp).
  assert (l1 = [] ↔ l2 = []) as Hnil; [|naive_solver].
  split; intros ->; [by apply Permutation_nil_l in Hp|by apply Permutation_nil_r in Hp].
Qed.

Lemma dom_turn_order (incoming outgoing : NodePtr → outcome (gset NodePtr)) st :
  (∀ n outs, outgoing n ⇓ outs → iter_set (IterOrder := IO1) outs = iter_set (IterOrder := IO2) outs) →
  dom_turn (IO := IO1) incoming outgoing st = dom_turn (IO := IO2) incoming outgoing st.
Proof.
  intros Ho. unfold dom_turn. destruct st.2 as [|k workQueue]; [done|].
  destruct (st.1 !! k) as [nodeData|]; [|done]. cbn [deref]. rewrite !bind_ret.
  destruct (incoming (dom_node nodeData)) as [ins| | | |]; [|done..]. rewrite !bind_ret. cbv zeta.
  destruct (initializedCallees_order st.1 (iter_set (IterOrder := IO1) ins)
    (iter_set (IterOrder := IO2) ins)) as [H1 H2]; [by rewrite !iter_set_perm|].
  rewrite <- H1, (intersection_order _ _ _ H2); cycle 1.
  { intros p. pose proof (initializedCallees_spec nowhere nowhere no_nodes no_nodes st.1 (iter_set (IterOrder := IO1) ins)) as (_ & Hd & ->).
    rewrite list_elem_of_filter, Hd. naive_solver. }
  destruct (intersection _ _) as [S| | | |]; [|done..]. rewrite !bind_ret.
  destruct (_ || _); [|done].
  destruct (outgoing (dom_node nodeData)) as [outs| | | |] eqn:Houts; [|done..].
  rewrite !bind_ret. by rewrite (Ho _ _ Houts).
Qed.
End order.

Module DominatorExample.
Import GraphExamples MergeExample.

#[local] Existing Instance canonical_order.

(** [main] branches to [a] and [b], which join in [c]. *)
Definition diamond : Callgraph := graph_of 1 [
  OInsert "main" None false true; OInsert "a" None false true; OInsert "b" None false true;
  OInsert "c" None false true; OAddEdge 0 1; OAddEdge 0 2; OAddEdge 1 3; OAddEdge 2 3; OAddEdge 3 3].

Lemma diamond_wf : wf diamond.
Proof. apply graph_of_wf. by apply (bool_decide_unpack _); vm_compute. Qed.

Lemma diamond_no_way_back n : ¬ linked diamond Forward n 0.
Proof.
  intros [md Hn]. assert (forallb (λ e, negb (bool_decide (e.1.2 = 0))) (map_to_list (edges diamond)) = true)
    as Hall by (vm_compute; reflexivity).
  rewrite forallb_forall in Hall. specialize (Hall ((n, 0), md)).
  rewrite <- list_elem_of_In, elem_of_map_to_list in Hall. by specialize (Hall Hn).
Qed.

Lemma computeDominators_correct_witness :
  ∃ D N, (∀ fuel, N ≤ fuel → computeDominators diamond Forward fuel (Some 0) ⇓ D) ∧
    Some 0 ∈ Doms (dom_entry D (Some 3)).
Proof.
  destruct (computeDominators_correct diamond diamond_wf Forward 0) as (D & N & HN & _ & HD).
  - by apply (bool_decide_unpack _); vm_compute.
  - intros l n _. apply diamond_no_way_back.
  - exists D, N. split; [exact HN|]. apply HD; [|intros l; apply walk_root].
    exists [Some 3; Some 1; Some 0].
    apply (walk_step _ _ [Some 1; Some 0] (Some 1)).
    + apply (walk_step _ _ [Some 0] (Some 0)); [apply walk_start|].
      by apply (bool_decide_unpack _); vm_compute.
    + by apply (bool_decide_unpack _); vm_compute.
Defined.

(** Two cycles through [main], with two and with four calls. *)
Definition two_cycles : Callgraph := graph_of 1 [
  OInsert "main" None false true; OInsert "a" None false true; OInsert "b" None false true;
  OInsert "c" None false true; OInsert "d" None false true; OAddEdge 0 1; OAddEdge 1 0;
  OAddEdge 0 2; OAddEdge 2 3; OAddEdge 3 4; OAddEdge 4 0].

Lemma Permutation_pair {A} (l : list A) a b : l ≡ₚ [a; b] → l = [a; b] ∨ l = [b; a].
Proof.
  intros Hl. pose proof (Permutation_length Hl) as Hlen. destruct l as [|x [|y [|? ?]]]; try done.
  assert (x = a ∨ x = b) as [-> | ->] by (assert (x ∈ [a; b]) by (rewrite <- Hl; by left); set_solver).
  - left. apply Permutation_cons_inv, Permutation_singleton_r in Hl. by injection Hl as ->.
  - right. rewrite (Permutation_swap b a []) in Hl.
    apply Permutation_cons_inv, Permutation_singleton_r in Hl. by injection Hl as ->.
Qed.

(** In this graph only the callees of [main] can be visited in two orders. *)
Lemma two_cycles_orders (IO : IterOrder) :
  (∀ n outs, callees_ptr two_cycles n ⇓ outs →
     iter_set outs = iter_set (IterOrder := canonical_order) outs) ∨
  (∀ n outs, callees_ptr two_cycles n ⇓ outs →
     iter_set outs = iter_set (IterOrder := reversed_order) outs).
Proof.
  assert (∀ n outs, callees_ptr two_cycles n ⇓ outs →
    outs = {[Some 1; Some 2]} ∨ ∃ p, outs = {[p]}) as Hall.
  { assert (callees_ptr two_cycles (Some 0) ⇓ {[Some 1; Some 2]}) as C0 by by vm_compute.
    assert (callees_ptr two_cycles (Some 1) ⇓ {[Some 0]}) as C1 by by vm_compute.
    assert (callees_ptr two_cycles (Some 2) ⇓ {[Some 3]}) as C2 by by vm_compute.
    assert (callees_ptr two_cycles (Some 3) ⇓ {[Some 4]}) as C3 by by vm_compute.
    assert (callees_ptr two_cycles (Some 4) ⇓ {[Some 0]}) as C4 by by vm_compute.
    intros [[|[|[|[|[|i]]]]]|] outs Ho.
    - rewrite C0 in Ho. injection Ho as <-. by left.
    - rewrite C1 in Ho. injection Ho as <-. right. by exists (Some 0).
    - rewrite C2 in Ho. injection Ho as <-. right. by exists (Some 3).
    - rewrite C3 in Ho. injection Ho as <-. right. by exists (Some 4).
    - rewrite C4 in Ho. injection Ho as <-. right. by exists (Some 0).
    - vm_compute in Ho. discriminate Ho.
    - discriminate Ho. }
  assert (∀ (IO : IterOrder) (p : NodePtr), iter_set {[p]} = [p]) as H1.
  { intros ? p. apply Permutation_singleton_r. by rewrite iter_set_perm, elements_singleton. }
  assert (iter_set ({[Some 1; Some 2]} : gset NodePtr) ≡ₚ [Some 1; Some 2]) as H2 by by rewrite iter_set_perm.
  destruct (Permutation_pair (iter_set ({[Some 1; Some 2]} : gset NodePtr)) (Some 1) (Some 2) H2) as [H12|H12];
    [left|right]; intros n outs [->|[p ->]]%Hall.
  - by rewrite H12.
  - by rewrite !H1.
  - by rewrite H12.
  - by rewrite !H1.
Qed.

(** The state of the loop repeats. *)
Lemma two_cycles_loop (IO : IterOrder) n m fuel :
  let step := dom_turn (callers_ptr two_cycles) (callees_ptr two_cycles) in
  match turns n step (dom_start (Some 0)) with
  | Some st => turns (S m) step st = Some st
  | None => False
  end → loop fuel step (dom_start (Some 0)) = OutOfFuel.
Proof.
  intros step. destruct (turns n step (dom_start (Some 0))) as [st|] eqn:Hn; [|done].
  intros Hm. by apply (loop_diverges step n m _ st).
Qed.

(** C37: Cycles of different lengths through the start node can keep the
    analysis from terminating: in a graph in which [main] lies on a cycle of
    two and on one of four calls, the work list of [computeDominators] from
    [main] never becomes empty, in whatever order the unordered containers are
    visited, so that the analysis does not terminate. *)
Theorem computeDominators_diverges (IO : IterOrder) fuel :
  reachable 1 two_cycles ∧ computeDominators two_cycles Forward fuel (Some 0) = OutOfFuel.
Proof.
  split; [apply graph_of_reachable; by apply (bool_decide_unpack _); vm_compute|].
  unfold computeDominators, dominators_of.
  destruct (two_cycles_orders IO) as [Ho|Ho];
    rewrite (loop_ext _ _ fuel _ (λ st, dom_turn_order _ _ _ _ st Ho)).
  - by apply (two_cycles_loop canonical_order 8 9); vm_compute.
  - by apply (two_cycles_loop reversed_order 6 9); vm_compute.
Qed.

(** The same without a second cycle: the result is wrong, [a] becomes a
    dominator of the start node. *)
Definition one_cycle : Callgraph := graph_of 1
  [OInsert "main" None false true; OInsert "a" None false true; OAddEdge 0 1; OAddEdge 1 0].

(** With a single recursive cycle through the start node the analysis stops,
    but lists the callee as a dominator of the start node. *)
Theorem computeDominators_recursive_main :
  ∃ D, computeDominators one_cycle Forward 10 (Some 0) ⇓ D ∧ Some 1 ∈ Doms (dom_entry D (Some 0)) ∧
    ∃ l, walk (next one_cycle Forward) (Some 0) l (Some 0) ∧ Some 1 ∉ l.
Proof.
  assert (match computeDominators one_cycle Forward 10 (Some 0) with
    | Ret D => bool_decide (Some 1 ∈ Doms (dom_entry D (Some 0))) | _ => false end = true) as H
    by (vm_compute; reflexivity).
  destruct (computeDominators one_cycle Forward 10 (Some 0)) as [D| | | |]; [|discriminate H..].
  exists D. split; [done|]. split.
  - by apply bool_decide_eq_true in H.
  - exists [Some 0]. split; [apply walk_start|set_solver].
Qed.
End DominatorExample.
