(* ===== verification/Format4.v ===== *)
(** * File format 4

    [graph/src/io/VersionFourMCGWriter.cpp] and
    [graph/src/io/VersionFourMCGReader.cpp] with the parts of
    [graph/include/metacg/io/MCGWriter.h] and [MCGReader.h] they use.  The
    reader returns, besides the graph, the invocations of the callback for
    metadata that could not be read. *)

From S2P Require Import Prelude Json MetaData Util Callgraph.

Section format4.
Context {JO : JsonOps} {MDI : MetaDataI} {IO : IterOrder}.

(** ** Writing *)

(** [MCGWriter::attachMCGFormatHeader] *)
Definition attachMCGFormatHeader (fi : MCGFileInfo) : json :=
  let f := formatInfo fi in
  let g := generatorInfo fi in
  jobj (<[metaInfoFieldName f :=
           jfields [("version", jstr (getVersionStr (versionMajor (fi_version f)) (versionMinor (fi_version f))));
                    ("generator", jfields [("name", jstr (gen_name g));
                                           ("version", jstr (getVersionStr (gen_major g) (gen_minor g)));
                                           ("sha", jstr (gen_sha g))])]]>
        (list_to_map [(metaInfoFieldName f, jnull); (cgFieldName f, jnull)])).

(** The position of the first occurrence, the length if there is none. *)
Fixpoint find_index (i : NodeId) (l : list NodeId) : nat :=
  match l with [] => 0 | j :: l => if decide (j = i) then 0 else S (find_index i l) end.

(** [V4WriterMapping::convertToStr] *)
Definition convertToStr (cg : Callgraph) (useNameAsId : bool) (node : CgNode) : string :=
  if useNameAsId then
    let allNodesWithName := getNodes_name cg (functionName node) in
    if decide (1 < length allNodesWithName)
    then functionName node +:+ "#" +:+ pretty (find_index (node_id node) allNodesWithName)
    else functionName node
  else pretty (node_id node).

(** [V4WriterMapping::getStrFromNode]: the cache only saves work. *)
Definition getStrFromNode (cg : Callgraph) (useNameAsId : bool) : NodeToStrMapping := λ i,
  n ← getNode cg i;
  cpp_assert (bool_decide (is_Some n));;
  n ← deref n;
  Ret (convertToStr cg useNameAsId n).

(** Metadata whose JSON is empty or null is left out. *)
Definition write_metadata (nodeToStr : NodeToStrMapping) (mds : NamedMetadata) : outcome json :=
  foldM (λ jMeta '(key, md),
    jMetaEntry ← md_toJson md nodeToStr;
    if negb (jempty jMetaEntry) && negb (jis_null jMetaEntry)
    then jset jMeta key jMetaEntry else Ret jMeta) (jobj ∅) (iter_map mds).

Definition origin_json (o : option string) : json :=
  match o with Some s => jstr s | None => jnull end.

Definition write_node (cg : Callgraph) (useNames : bool) (jNodes : json) (node : option CgNode)
    : outcome json :=
  match node with
  | None => Ret jNodes
  | Some n =>
      let nodeToStr := getStrFromNode cg useNames in
      jMeta ← write_metadata nodeToStr (node_md n);
      let jNode := jfields [("functionName", jstr (functionName n));
                            ("origin", origin_json (origin n));
                            ("hasBody", jbool (hasBody n));
                            ("callees", jobj ∅);
                            ("meta", jMeta)] in
      idStr ← nodeToStr (node_id n);
      jset jNodes idStr jNode
  end.

(** All metadata of an edge is written, empty or not. *)
Definition write_edge (cg : Callgraph) (useNames : bool) (jNodes : json)
    (edge : (NodeId * NodeId) * NamedMetadata) : outcome json :=
  let nodeToStr := getStrFromNode cg useNames in
  caller ← getNode cg edge.1.1;
  callee ← getNode cg edge.1.2;
  cpp_assert (bool_decide (is_Some caller) && bool_decide (is_Some callee));;
  caller ← deref caller;
  callee ← deref callee;
  callerStr ← nodeToStr (node_id caller);
  calleeStr ← nodeToStr (node_id callee);
  mdMap ← getAllEdgeMetaData cg (node_id caller, node_id callee);
  jEdgeMD ← foldM (λ jEdgeMD '(key, val), jv ← md_toJson val nodeToStr; jset jEdgeMD key jv)
              (jobj ∅) (iter_map mdMap);
  jupdate jNodes callerStr (λ jNode, jupdate jNode "callees" (λ jCallees,
    jset jCallees calleeStr jEdgeMD)).

(** [VersionFourMCGWriter::sortCallgraph] sorts the arrays directly below the
    graph. *)
Definition sort_below (j : json) : json :=
  match jview j with
  | VObj m => jobj ((λ e, match jview e with VArr l => jarr (jsort l) | _ => e end) <$> m)
  | VArr l => jarr ((λ e, match jview e with VArr l => jarr (jsort l) | _ => e end) <$> l)
  | _ => j
  end.

Definition sortCallgraph (j : json) : outcome json :=
  if jcontains j "_CG" then jupdate j "_CG" (λ c, Ret (sort_below c)) else Ret (sort_below j).

(** [VersionFourMCGWriter::write] *)
Definition write4 (fi : MCGFileInfo) (useNamesAsIds exportSorted : bool) (cg : Callgraph)
    : outcome json :=
  let j := attachMCGFormatHeader fi in
  jNodes ← foldM (write_node cg useNamesAsIds) (jobj ∅) (nodes cg);
  jNodes ← foldM (write_edge cg useNamesAsIds) jNodes (iter_map (edges cg));
  j ← jset j "_CG" (jobj ∅);
  j ← jupdate j "_CG" (λ c, jset c "nodes" jNodes);
  jMeta ← write_metadata (getStrFromNode cg useNamesAsIds) (cg_md cg);
  j ← jupdate j "_CG" (λ c, jset c "meta" jMeta);
  if exportSorted then sortCallgraph j else Ret j.

(** ** Reading *)

(** [ReaderSource::getFormatVersion] *)
Definition getFormatVersion (j : json) : outcome string :=
  if negb (jcontains j "_MetaCG") then Ret "unknown"
  else
    m ← jat j "_MetaCG";
    if negb (jcontains m "version") then Ret "unknown"
    else v ← jat m "version"; jget_string v.

(** [V4StrToNodeMapping]: identifiers of the file and the nodes made for them. *)
Abbreviation StrMap := (gmap string NodeId).

Definition getNodeFromStr (strToNode : StrMap) : StrToNodeMapping := λ s, strToNode !! s.

Definition registerNode (strToNode : StrMap) (nodeStr : string) (i : NodeId) : StrMap * bool :=
  match strToNode !! nodeStr with
  | Some _ => (strToNode, false)
  | None => (<[nodeStr := i]> strToNode, true)
  end.

(** The value of the field [origin]; strings are never [empty()]. *)
Definition read_origin (j : json) : outcome (option string) :=
  o ← jat j "origin";
  if jis_null o then Ret None
  else if negb (jempty o) then s ← jget_string o; Ret (Some s) else Ret None.

(** [createNodeFromJson], [None] for the null pointer. *)
Definition createNodeFromJson (cg : Callgraph) (nodeStr : string) (j : json) (strToNode : StrMap)
    : outcome (Callgraph * StrMap * option NodeId) :=
  if jis_null j then Ret (cg, strToNode, None)
  else if negb (jcontains j "origin") then Ret (cg, strToNode, None)
  else
    orig ← read_origin j;
    if negb (jcontains j "functionName") then Ret (cg, strToNode, None)
    else
      name ← jat j "functionName";
      name ← jget_string name;
      p ← insert_node cg name orig false false;
      if negb (jcontains j "hasBody") then Ret (p.1, strToNode, None)
      else
        b ← jat j "hasBody";
        b ← jget_bool b;
        let cg := update_node p.1 p.2 (setHasBody b) in
        if negb (jcontains j "meta") then Ret (cg, strToNode, None)
        else
          m ← jat j "meta";
          if negb (jis_null m) && negb (jis_object m) then Ret (cg, strToNode, None)
          else
            let r := registerNode strToNode nodeStr p.2 in
            if negb r.2 then Ret (cg, r.1, None) else Ret (cg, r.1, Some p.2).

(** [TempNodeData] *)
Record TempNodeData := mkTempNodeData { td_nodeId : NodeId; td_jEdges : json; td_jMeta : json }.

(** An invocation of the callback for metadata that could not be read. *)
Record FailedMetadata := mkFailed { fm_node : option NodeId; fm_key : string; fm_json : json }.

Definition read_node (st : Callgraph * StrMap * list TempNodeData) (e : string * json)
    : outcome (Callgraph * StrMap * list TempNodeData) :=
  r ← createNodeFromJson st.1.1 e.1 e.2 st.1.2;
  match r.2 with
  | None => Throw (runtime_error "Error while reading nodes")
  | Some i =>
      jEdges ← jindex e.2 "callees";
      jMeta ← jindex e.2 "meta";
      Ret (r.1.1, r.1.2, st.2 ++ [mkTempNodeData i jEdges jMeta])
  end.

(** Metadata of an edge; the pointer has the type of the base class. *)
Definition read_edge_md (strToNode : StrMap) (ids : NodeId * NodeId)
    (st : Callgraph * list FailedMetadata) (e : string * json)
    : outcome (Callgraph * list FailedMetadata) :=
  md ← MetaDataFactory_create e.1 e.2 (getNodeFromStr strToNode);
  match md with
  | Some md => Ret ((addEdgeMetaData st.1 ids MetaData_key md).1, st.2)
  | None => Ret (st.1, st.2 ++ [mkFailed (Some ids.1) e.1 e.2])
  end.

Definition read_edge (strToNode : StrMap) (i : NodeId) (st : Callgraph * list FailedMetadata)
    (e : string * json) : outcome (Callgraph * list FailedMetadata) :=
  match getNodeFromStr strToNode e.1 with
  | None => Throw (runtime_error "Error while reading edges")
  | Some calleeNode =>
      p ← addEdge st.1 i calleeNode;
      if negb (jis_null e.2)
      then foldM (read_edge_md strToNode (i, calleeNode)) (p.1, st.2) (jitems e.2)
      else Ret (p.1, st.2)
  end.

Definition read_node_md (strToNode : StrMap) (i : NodeId) (st : Callgraph * list FailedMetadata)
    (e : string * json) : outcome (Callgraph * list FailedMetadata) :=
  md ← MetaDataFactory_create e.1 e.2 (getNodeFromStr strToNode);
  match md with
  | Some md => Ret (update_node st.1 i (CgNode_addMetaData md), st.2)
  | None => Ret (st.1, st.2 ++ [mkFailed (Some i) e.1 e.2])
  end.

Definition read_node_data (strToNode : StrMap) (st : Callgraph * list FailedMetadata)
    (nodeData : TempNodeData) : outcome (Callgraph * list FailedMetadata) :=
  node ← getNode st.1 (td_nodeId nodeData);
  cpp_assert (bool_decide (is_Some node));;
  es ← jiter_keys (td_jEdges nodeData);
  st ← foldM (read_edge strToNode (td_nodeId nodeData)) st es;
  ms ← jiter_keys (td_jMeta nodeData);
  foldM (read_node_md strToNode (td_nodeId nodeData)) st ms.

Definition read_global_md (strToNode : StrMap) (st : Callgraph * list FailedMetadata)
    (e : string * json) : outcome (Callgraph * list FailedMetadata) :=
  md ← MetaDataFactory_create e.1 e.2 (getNodeFromStr strToNode);
  match md with
  | Some md => Ret (set_cg_md st.1 (addMetaData (cg_md st.1) md), st.2)
  | None => Ret (st.1, st.2 ++ [mkFailed None e.1 e.2])
  end.

(** The header: what is checked before the graph is read. *)
Definition read_header4 (j : json) : outcome unit :=
  mcgInfo ← jindex j "_MetaCG";
  if jis_null mcgInfo then Throw (runtime_error "Could not read version info from metacg file")
  else
    mcgVersion ← jindex mcgInfo "version";
    mcgVersion ← jget_string mcgVersion;
    generator ← jindex mcgInfo "generator";
    generatorName ← jindex generator "name";
    _ ← jget_string generatorName;
    generatorVersion ← jindex generator "version";
    generatorVersion ← jget_string generatorVersion;
    _ ← getMajorVersionFromString generatorVersion;
    _ ← getMinorVersionFromString generatorVersion;
    match mcgVersion with
    | EmptyString => Throw out_of_range
    | String c _ =>
        if decide (String c EmptyString = "4") then Ret tt
        else Throw (runtime_error "Trying to read incompatible file with V4 MCGReader")
    end.

(** The part of [VersionFourMCGReader::read] that works on the graph. *)
Definition read_graph4 (u : nat) (jsonCG : json) : outcome (Callgraph * list FailedMetadata) :=
  jNodes ← jindex jsonCG "nodes";
  if jis_null jNodes then Throw (runtime_error "Nodes entry in MetaCG file was null.")
  else
    es ← jiter_keys jNodes;
    st ← foldM read_node (Callgraph_new u, ∅, []) es;
    r ← foldM (read_node_data st.1.2) (st.1.1, []) st.2;
    jGlobalMeta ← jindex jsonCG "meta";
    foldM (read_global_md st.1.2) r (jitems jGlobalMeta).

(** [VersionFourMCGReader::read]; [u] is the identity of the new graph. *)
Definition read4 (u : nat) (j : json) : outcome (Callgraph * list FailedMetadata) :=
  read_header4 j;;
  jsonCG ← jindex j "_CG";
  if jis_null jsonCG then Throw (runtime_error "CG in MetaCG file was null.")
  else read_graph4 u jsonCG.
End format4.
