(* ===== verification/Roundtrip4.v ===== *)
(** * File format 4: what is written can be read back

    Writing a graph and reading the result gives the same graph up to the
    numbering of the nodes: the reader numbers them in the order of their
    identifiers in the file. *)

From S2P Require Import Prelude Json MetaData BuiltinMD Util Callgraph.
From S2P Require Import CallgraphWf CallgraphOps Merge MergeProps Format4.

(** A class of metadata objects that survive being written and read. *)
Class RoundTrip {JO : JsonOps} {MDI : MetaDataI} (rt : MD → Prop) :=
  md_roundtrip md (nodeToStr : NodeToStrMapping) (strToNode : StrToNodeMapping) (π : GraphMapping) :
    rt md →
    (∀ i, i ∈ md_refs md → ∃ s k, nodeToStr i ⇓ s ∧ strToNode s = Some k ∧ π !! i = Some k) →
    strToNode "" = None →
    ∃ j md', md_toJson md nodeToStr ⇓ j ∧ jempty j = false ∧ jis_null j = false ∧
      MetaDataFactory_create (md_getKey md) j strToNode ⇓ Some md' ∧ md_applyMapping md π ⇓ md'.

(** ** The writer *)

Section writer.
Context {JO : JsonOps} {JL : JsonLaws} {MDI : MetaDataI} {IO : IterOrder}.

Lemma write_metadata_ret (nts : NodeToStrMapping) mds :
  (∀ k md, mds !! k = Some md → ∃ j, md_toJson md nts ⇓ j ∧ jempty j = false ∧ jis_null j = false) →
  ∃ M, write_metadata nts mds ⇓ jobj M ∧
    ∀ k v, M !! k = Some v ↔ ∃ md, mds !! k = Some md ∧ md_toJson md nts ⇓ v.
Proof.
  intros Hmds. unfold write_metadata.
  destruct (foldM_ind (λ dn j, ∃ M, j = jobj M ∧
      ∀ k v, M !! k = Some v ↔ ∃ md, (k, md) ∈ dn ∧ md_toJson md nts ⇓ v)
    (λ jMeta '(key, md),
      jMetaEntry ← md_toJson md nts;
      if negb (jempty jMetaEntry) && negb (jis_null jMetaEntry)
      then jset jMeta key jMetaEntry else Ret jMeta) (iter_map mds) (jobj ∅))
    as (j & Hrun & M & -> & HM).
  - exists ∅. split; [done|]. intros k v. rewrite lookup_empty. set_solver.
  - intros dn [k md] rest j Hl (M & -> & HM).
    destruct (Hmds k md) as (v & Hv & He & Hn).
    { apply elem_of_iter_map. rewrite Hl. set_solver. }
    rewrite Hv, bind_ret, He, Hn. cbn [negb andb]. rewrite jset_obj. eexists. split; [done|].
    eexists. split; [done|]. intros k' v'.
    assert (k ∉ dn.*1) as Hk.
    { pose proof (iter_map_NoDup_fst mds) as Hnd. rewrite Hl, fmap_app in Hnd.
      apply NoDup_app in Hnd as (_ & Hnd & _). intros ?. apply (Hnd k); [done|set_solver]. }
    rewrite lookup_insert_Some, HM. setoid_rewrite elem_of_app.
    setoid_rewrite list_elem_of_singleton. split.
    + intros [[<- <-]|(Hne & md' & ? & ?)]; [exists md; tauto|exists md'; tauto].
    + intros (md' & [Hin|[= -> ->]] & Hj); [right|left; split; congruence].
      split; [|by exists md']. intros ->. apply Hk.
      by apply (list_elem_of_fmap_2 fst _ (k', md')).
  - exists M. split; [done|]. intros k v. rewrite HM. by setoid_rewrite elem_of_iter_map.
Qed.

(** The JSON value of a node, for given values of [callees] and [meta]. *)
Definition jnode (n : CgNode) (c jm : json) : json :=
  jfields [("functionName", jstr (functionName n)); ("origin", origin_json (origin n));
           ("hasBody", jbool (hasBody n)); ("callees", c); ("meta", jm)].

Lemma jnode_callees n c c' jm f :
  f c ⇓ c' → jupdate (jnode n c jm) "callees" f ⇓ jnode n c' jm.
Proof.
  intros Hf. unfold jnode, jfields. erewrite jupdate_obj; [|reflexivity|exact Hf]. f_equal.
Qed.

Context (g : Callgraph) (b : bool) (Hwf : wf g).

Abbreviation nts := (getStrFromNode g b).
Abbreviation ids := (convertToStr g b).

(** Nodes are distinguished by their identifiers in the file. *)
Definition distinct_ids : Prop := ∀ i j n m,
  node_at g i = Some n → node_at g j = Some m → ids n = ids m → i = j.

Context (Hids : distinct_ids).

Lemma nts_live i n : node_at g i = Some n → nts i ⇓ ids n.
Proof. intros Hn. unfold getStrFromNode. by rewrite (getNode_live _ _ _ Hn). Qed.

(** The value of [meta] written for a node. *)
Definition jm (n : CgNode) : json :=
  match write_metadata nts (node_md n) with Ret j => j | _ => jnull end.

Definition node_live (n : CgNode) : Prop := node_at g (node_id n) = Some n.

Lemma node_live_iff n : node_live n ↔ Some n ∈ nodes g.
Proof using Hwf.
  unfold node_live. rewrite node_at_Some, list_elem_of_lookup. split; [by eexists|].
  intros (i & Hi). assert (node_at g i = Some n) as Hn by by apply node_at_Some.
  by destruct (wf_ids _ Hwf _ _ Hn) as [-> _].
Qed.

Lemma ids_inj n m : node_live n → node_live m → ids n = ids m → n = m.
Proof using Hwf Hids. intros Hn Hm Heq. pose proof (Hids _ _ _ _ Hn Hm Heq) as Hid. unfold node_live in *. congruence. Qed.

Context (Hmeta : ∀ n, node_live n → write_metadata nts (node_md n) ⇓ jm n).

Lemma write_nodes_ret :
  ∃ M, foldM (write_node g b) (jobj ∅) (nodes g) ⇓ jobj M ∧
    ∀ s v, M !! s = Some v ↔ ∃ n, node_live n ∧ ids n = s ∧ v = jnode n (jobj ∅) (jm n).
Proof using All.
  destruct (foldM_ind (λ dn j, ∃ M, j = jobj M ∧
      ∀ s v, M !! s = Some v ↔ ∃ n, Some n ∈ dn ∧ ids n = s ∧ v = jnode n (jobj ∅) (jm n))
    (write_node g b) (nodes g) (jobj ∅)) as (j & Hrun & M & -> & HM).
  - exists ∅. split; [done|]. intros s v. rewrite lookup_empty. set_solver.
  - intros dn o rest j Hl (M & -> & HM). destruct o as [n|]; simpl.
    + assert (node_live n) as Hn by (apply node_live_iff; rewrite Hl; set_solver).
      rewrite Hmeta, bind_ret, (nts_live _ _ Hn), bind_ret, jset_obj by done.
      eexists. split; [done|]. eexists. split; [done|]. intros s v.
      rewrite lookup_insert_Some, HM. setoid_rewrite elem_of_app.
      setoid_rewrite list_elem_of_singleton. split.
      * intros [[<- <-]|(_ & n' & ? & ? & ?)]; [exists n; tauto|exists n'; tauto].
      * intros (n' & [Hin|[= ->]] & <- & ->); [right|by left].
        split; [|by exists n']. intros Heq.
        assert (node_live n') as Hn' by (apply node_live_iff; rewrite Hl; set_solver).
        pose proof (ids_inj _ _ Hn Hn' Heq) as ->.
        apply list_elem_of_lookup in Hin as (i & Hi). pose proof (lookup_lt_Some _ _ _ Hi) as Hlt.
        assert (node_at g i = Some n') as Hni.
        { apply node_at_Some. rewrite Hl. by apply lookup_app_l_Some. }
        assert (node_at g (length dn) = Some n') as Hnl.
        { apply node_at_Some. rewrite Hl. by apply list_lookup_middle. }
        destruct (wf_ids _ Hwf _ _ Hni), (wf_ids _ Hwf _ _ Hnl). lia.
    + eexists. split; [done|]. exists M. split; [done|]. intros s v. rewrite HM.
      setoid_rewrite elem_of_app. setoid_rewrite list_elem_of_singleton. naive_solver.
  - exists M. split; [done|]. intros s v. rewrite HM. by setoid_rewrite node_live_iff.
Qed.

(** The value of [callees] of node [i] after the edges [es] were written. *)
Definition callees_of (es : list (NodeId * NodeId)) (i : NodeId) (C : gmap string json) : Prop :=
  ∀ t w, C !! t = Some w ↔ ∃ k m, (i, k) ∈ es ∧ node_at g k = Some m ∧ ids m = t ∧ w = jobj ∅.

Lemma write_edges_ret M :
  (∀ p m, edges g !! p = Some m → m = ∅) →
  (∀ s v, M !! s = Some v ↔ ∃ n, node_live n ∧ ids n = s ∧ v = jnode n (jobj ∅) (jm n)) →
  ∃ M' C, foldM (write_edge g b) (jobj M) (iter_map (edges g)) ⇓ jobj M' ∧
    (∀ i, callees_of (iter_map (edges g)).*1 i (C i)) ∧
    ∀ s v, M' !! s = Some v ↔ ∃ n, node_live n ∧ ids n = s ∧ v = jnode n (jobj (C (node_id n))) (jm n).
Proof using All.
  intros Hmds HM.
  destruct (foldM_ind (λ dn j, ∃ M' C, j = jobj M' ∧ (∀ i, callees_of dn.*1 i (C i)) ∧
      ∀ s v, M' !! s = Some v ↔
        ∃ n, node_live n ∧ ids n = s ∧ v = jnode n (jobj (C (node_id n))) (jm n))
    (write_edge g b) (iter_map (edges g)) (jobj M)) as (j & Hrun & M' & C & -> & HC & HM').
  - exists M, (λ _, ∅). split; [done|]. split; [|done]. intros i t w. rewrite lookup_empty. set_solver.
  - intros dn [[i k] mds] rest j Hl (M' & C & -> & HC & HM').
    assert (edges g !! (i, k) = Some mds) as He.
    { apply elem_of_iter_map. rewrite Hl. set_solver. }
    destruct (wf_edges _ Hwf i k) as [[n Hn] [m Hm]]; [by eexists|].
    destruct (wf_ids _ Hwf _ _ Hn) as [Hni _], (wf_ids _ Hwf _ _ Hm) as [Hmi _].
    assert (node_live n) as Hnl by (unfold node_live; congruence).
    unfold write_edge. cbn [fst snd].
    rewrite (getNode_live _ _ _ Hn), bind_ret, (getNode_live _ _ _ Hm), bind_ret.
    cbn [deref]. rewrite !(bool_decide_true (is_Some (Some _))) by (by eexists).
    cbn [cpp_assert andb]. rewrite !bind_ret, Hni, Hmi, (nts_live _ _ Hn), (nts_live _ _ Hm), !bind_ret.
    unfold getAllEdgeMetaData. rewrite He. rewrite (bool_decide_true (is_Some (Some _))) by (by eexists).
    cbn [cpp_assert at_or_throw]. rewrite !bind_ret, (Hmds _ _ He).
    assert (iter_map (∅ : NamedMetadata) = []) as Hnil.
    { apply Permutation_nil_r. by rewrite iter_map_perm. }
    rewrite Hnil. cbn [foldM]. rewrite bind_ret.
    assert (M' !! ids n = Some (jnode n (jobj (C i)) (jm n))) as Hlk.
    { apply HM'. exists n. by rewrite Hni. }
    set (C' := λ i', if decide (i' = i) then <[ids m := jobj ∅]> (C i) else C i').
    exists (jobj (<[ids n := jnode n (jobj (C' i)) (jm n)]> M')). split.
    { erewrite jupdate_obj; [reflexivity|exact Hlk|]. cbn beta. apply jnode_callees.
      unfold C'. rewrite decide_True by done. apply jset_obj. }
    exists (<[ids n := jnode n (jobj (C' i)) (jm n)]> M'), C'. split; [done|]. split.
    + intros i' t w. unfold callees_of in HC. unfold C'. setoid_rewrite fmap_app. setoid_rewrite elem_of_app. cbn.
      setoid_rewrite list_elem_of_singleton. case_decide as Hi; [subst i'|].
      * rewrite lookup_insert_Some, HC. split.
        -- intros [[<- <-]|(_ & k' & m' & ? & ? & ? & ?)]; [by exists k, m; eauto|by exists k', m'; eauto].
        -- intros (k' & m' & [Hin|[= ->]] & Hk' & <- & ->).
           ++ destruct (decide (ids m = ids m')) as [Heq|Hne]; [by left|right].
              split; [done|]. by exists k', m'.
           ++ left. by assert (m' = m) as -> by congruence.
      * rewrite HC. split; [intros (k' & m' & ? & ? & ? & ?); by exists k', m'; eauto|].
        intros (k' & m' & [?|[= ]] & ? & ? & ?); [by exists k', m'|congruence].
    + intros s v. rewrite lookup_insert_Some, HM'. unfold C'. split.
      * intros [[<- <-]|(Hne & n' & Hn' & <- & ->)].
        -- exists n. rewrite Hni. by rewrite !decide_True by done.
        -- exists n'. rewrite decide_False; [done|]. intros Heq. apply Hne.
           unfold node_live in Hn'. congruence.
      * intros (n' & Hn' & <- & ->). destruct (decide (node_id n' = i)) as [Heq|Hne].
        -- left. unfold node_live in Hn'. assert (n' = n) as -> by congruence.
           rewrite decide_True by done. done.
        -- right. split; [|by exists n']. intros Heq. apply Hne.
           by rewrite <- (ids_inj _ _ Hnl Hn' Heq).
  - exists M', C. by split_and!.
Qed.
End writer.

(** ** The reader *)

Section reader.
Context {JO : JsonOps} {JL : JsonLaws} {MDI : MetaDataI} {MDL : MetaDataLaws}.

Lemma jnode_is_null n c m : jis_null (jnode n c m) = false.
Proof. unfold jnode, jfields. by rewrite jis_null_jmk. Qed.

Lemma jnode_contains n c m k :
  k ∈ ["functionName"; "origin"; "hasBody"; "callees"; "meta"] → jcontains (jnode n c m) k = true.
Proof.
  intros Hk. unfold jnode, jfields. rewrite jcontains_obj. apply bool_decide_eq_true.
  repeat (apply elem_of_cons in Hk as [->|Hk]; [by eexists|]). by apply elem_of_nil in Hk.
Qed.

Lemma jnode_at n c m :
  jat (jnode n c m) "functionName" ⇓ jstr (functionName n) ∧
  jat (jnode n c m) "origin" ⇓ origin_json (origin n) ∧
  jat (jnode n c m) "hasBody" ⇓ jbool (hasBody n) ∧
  jat (jnode n c m) "meta" ⇓ m ∧
  jindex (jnode n c m) "callees" ⇓ c ∧ jindex (jnode n c m) "meta" ⇓ m.
Proof. unfold jnode, jfields. split_and!; (apply jat_obj || apply jindex_obj); reflexivity. Qed.

Lemma read_origin_jnode n c m : read_origin (jnode n c m) ⇓ origin n.
Proof.
  unfold read_origin. rewrite (proj1 (proj2 (jnode_at n c m))), bind_ret. unfold origin_json.
  destruct (origin n) as [s|]; rewrite jis_null_jmk; [|done].
  assert (jempty (jstr s) = false) as -> by by rewrite jempty_spec, jview_jmk.
  cbn [negb]. by rewrite jget_string_str.
Qed.

Context (u : nat).

(** The node the reader makes out of [n] as the [k]-th one. *)
Definition read_as (k : NodeId) (n : CgNode) : CgNode :=
  mkCgNode k (u, k) (functionName n) (origin n) (hasBody n) ∅.

Lemma read_node_step cg str tds s n c mm :
  wf cg → uid cg = u → str !! s = None → functionName n ≠ "" →
  ∃ cg', read_node (cg, str, tds) (s, jnode n c (jobj mm)) ⇓
      (cg', <[s := length (nodes cg)]> str, tds ++ [mkTempNodeData (length (nodes cg)) c (jobj mm)]) ∧
    wf cg' ∧ uid cg' = u ∧ length (nodes cg') = S (length (nodes cg)) ∧
    edges cg' = edges cg ∧ cg_md cg' = cg_md cg ∧
    ∀ k, node_at cg' k = if decide (k = length (nodes cg)) then Some (read_as k n) else node_at cg k.
Proof using All.
  intros Hwf Hu Hs Hname. unfold read_node, createNodeFromJson. cbn [fst snd].
  destruct (jnode_at n c (jobj mm)) as (H1 & _ & H3 & H4 & H5 & H6).
  rewrite jnode_is_null, !jnode_contains by set_solver. cbn [negb].
  rewrite read_origin_jnode, bind_ret, H1, bind_ret, jget_string_str, bind_ret.
  destruct (insert_node_ret cg (functionName n) (origin n) false false Hwf Hname)
    as (cg1 & -> & Hwf1 & Hlen & Hat & He & _ & Hmd & Hu1 & _).
  rewrite bind_ret, H3, bind_ret, jget_bool_bool, bind_ret, H4, bind_ret.
  rewrite jis_null_jmk, jis_object_jmk. cbn [negb andb fst snd].
  unfold registerNode. rewrite Hs. cbn [negb fst snd]. rewrite bind_ret. cbn [fst snd].
  rewrite H5, bind_ret, H6, bind_ret. eexists. split; [done|].
  split; [by apply update_node_wf; [|apply setHasBody_identity]|].
  split_and!; [simpl; congruence|simpl; by rewrite length_alter|done|done|].
  intros k. rewrite update_node_at, Hat. destruct (decide (k = length (nodes cg))) as [->|Hne].
  - rewrite decide_True by done. unfold read_as. simpl. by rewrite Hu.
  - by rewrite decide_False.
Qed.

(** The nodes in the order of their identifiers, with their [callees] and
    [meta] objects. *)
Context (idn : CgNode → string) (C MM : CgNode → gmap string json).

Definition file_entry (n : CgNode) : string * json :=
  (idn n, jnode n (jobj (C n)) (jobj (MM n))).
Definition temp_entry (k : nat) (n : CgNode) : TempNodeData :=
  mkTempNodeData k (jobj (C n)) (jobj (MM n)).

Definition read_nodes_spec (l : list CgNode) (cg : Callgraph) (str : gmap string NodeId) : Prop :=
  wf cg ∧ uid cg = u ∧ length (nodes cg) = length l ∧ edges cg = ∅ ∧ cg_md cg = ∅ ∧
  (∀ k, node_at cg k = read_as k <$> l !! k) ∧
  ∀ s k, str !! s = Some k ↔ ∃ n, l !! k = Some n ∧ idn n = s.

Lemma read_nodes_ret ord :
  NoDup (idn <$> ord) → (∀ n, n ∈ ord → functionName n ≠ "") →
  ∃ cg str, foldM read_node (Callgraph_new u, ∅, []) (file_entry <$> ord) ⇓
      (cg, str, imap temp_entry ord) ∧ read_nodes_spec ord cg str.
Proof using All.
  induction ord as [|n l IH] using rev_ind; intros Hnd Hnames.
  - exists (Callgraph_new u), ∅. split; [done|]. split_and!; try done; [apply wf_new|].
    intros s k. rewrite lookup_empty, lookup_nil. naive_solver.
  - rewrite fmap_app in Hnd. apply NoDup_app in Hnd as (Hnd' & Hfresh & _).
    destruct IH as (cg & str & Hrun & Hwf & Hu & Hlen & He & Hmd & Hat & Hstr);
      [done|intros; apply Hnames; set_solver|].
    assert (str !! idn n = None) as Hno.
    { apply eq_None_not_Some. intros [k Hk]. apply Hstr in Hk as (m & Hm & Heq).
      apply (Hfresh (idn n)); [|set_solver]. rewrite <- Heq.
      by eapply list_elem_of_fmap_2, list_elem_of_lookup_2. }
    rewrite fmap_app, foldM_app, Hrun, bind_ret. cbn [fmap list_fmap foldM].
    destruct (read_node_step cg str (imap temp_entry l) (idn n) n (jobj (C n)) (MM n) Hwf Hu Hno)
      as (cg' & Hrun' & Hwf' & Hu' & Hlen' & He' & Hmd' & Hat'); [apply Hnames; set_solver|].
    unfold file_entry at 1. rewrite Hrun', bind_ret.
    exists cg', (<[idn n := length (nodes cg)]> str). split.
    { rewrite imap_app. cbn. by rewrite Hlen, Nat.add_0_r. }
    split_and!; [done|done|rewrite length_app; simpl; lia|congruence|congruence|..].
    + intros k. rewrite Hat', Hlen. case_decide as Hk.
      * subst. by rewrite list_lookup_middle.
      * rewrite Hat. f_equal. destruct (decide (k < length l)); [by rewrite lookup_app_l|].
        rewrite !lookup_ge_None_2; [done|rewrite length_app; simpl|]; lia.
    + intros s k. rewrite lookup_insert_Some, Hstr, Hlen. split.
      * intros [[<- <-]|(_ & m & Hm & <-)]; [exists n; by rewrite list_lookup_middle|].
        exists m. by rewrite lookup_app_l_Some with (1 := Hm).
      * intros (m & Hm & <-). apply lookup_app_Some in Hm as [Hm|[Hge Hm]].
        -- right. split; [|by exists m]. intros Heq.
           apply (Hfresh (idn n)); [|set_solver]. rewrite Heq.
           by eapply list_elem_of_fmap_2, list_elem_of_lookup_2.
        -- apply list_lookup_singleton_Some in Hm as [? <-]. left. split; [done|lia].
Qed.

(** *** Edges and metadata of a node *)

Lemma read_edges_ret cg str k es (fl : list FailedMetadata) :
  wf cg → live cg k → NoDup es.*1 →
  (∀ t w, (t, w) ∈ es → w = jobj ∅ ∧ ∃ l, str !! t = Some l ∧ live cg l) →
  ∃ cg', foldM (read_edge str k) (cg, fl) es ⇓ (cg', fl) ∧ wf cg' ∧ nodes cg' = nodes cg ∧
    cg_md cg' = cg_md cg ∧ (edge_md_free cg → edge_md_free cg') ∧
    ∀ p, is_Some (edges cg' !! p) ↔ is_Some (edges cg !! p) ∨
      p.1 = k ∧ ∃ t, t ∈ es.*1 ∧ str !! t = Some p.2.
Proof.
  intros Hwf Hk Hnd Hes.
  destruct (foldM_ind (λ dn st, st.2 = fl ∧ wf st.1 ∧ nodes st.1 = nodes cg ∧ cg_md st.1 = cg_md cg ∧
      (edge_md_free cg → edge_md_free st.1) ∧
      ∀ p, is_Some (edges st.1 !! p) ↔ is_Some (edges cg !! p) ∨
        p.1 = k ∧ ∃ t, t ∈ dn.*1 ∧ str !! t = Some p.2) (read_edge str k) es (cg, fl))
    as ([cg' fl'] & Hrun & Hfl & H); [| |simpl in *; subst; by exists cg'].
  - split_and!; try done. intros p. set_solver.
  - intros dn [t w] rest [cg' fl'] -> (Hfl & Hwf' & Hn & Hmd & Hfr & He). cbn [fst snd] in *. subst fl'.
    destruct (Hes t w) as (-> & l & Hl & Hlive); [set_solver|].
    assert (∀ i, live cg i → live cg' i) as Hlv by (intros i; unfold node_at; by rewrite Hn).
    destruct (addEdge_ret cg' k l Hwf') as (cg2 & Hrun & Hwf2 & Hn2 & _ & Hmd2 & _ & _ & He2).
    { apply Hlv, live_lt in Hk. lia. } { apply Hlv, live_lt in Hlive. lia. }
    exists (cg2, fl). split.
    { unfold read_edge, getNodeFromStr. cbn [fst snd]. rewrite Hl, Hrun, bind_ret. cbn [fst snd].
      rewrite jis_null_jmk. cbn [negb]. rewrite jitems_jobj. done. }
    cbn [fst snd]. split_and!; [done|done|congruence|congruence|intros ?; by eapply (addEdge_md_free _ _ _ _ Hrun), Hfr|].
    intros p. rewrite !hasNode_id_spec, !bool_decide_true in He2 by auto. cbn [andb] in He2.
    assert (is_Some (edges cg2 !! p) ↔ is_Some (edges cg' !! p) ∨ p = (k, l)) as ->.
    { rewrite He2. unfold existsEdge. case_bool_decide as Hex; simpl.
      - split; [by left|]. by intros [?| ->].
      - rewrite lookup_insert_is_Some'. naive_solver. }
    rewrite He, fmap_app. setoid_rewrite elem_of_app. cbn. setoid_rewrite list_elem_of_singleton.
    split.
    + intros [[?|(? & t' & ? & ?)]| ->]; [by left|right; eauto|right]. split; [done|]. exists t; eauto.
    + intros [?|(Hp & t' & [?| ->] & Ht)]; [tauto|left; right; eauto|right].
      destruct p; simpl in *. congruence.
Qed.

(** The metadata object that the reader makes out of an entry. *)
Definition created (str : gmap string NodeId) (k : string) (v : json) (md : MD) : Prop :=
  MetaDataFactory_create k v (getNodeFromStr str) ⇓ Some md.

Lemma created_key str k v md : created str k v md → md_getKey md = k.
Proof.
  unfold created, MetaDataFactory_create. destruct (md_registry k) as [f|] eqn:Hf; [|done].
  intros (md' & Hmd & [= <-])%bind_ret_inv. by eapply md_registry_key.
Qed.

(** A container after the entries [ms] were read into it. *)
Definition read_md_spec (str : gmap string NodeId) (ms : list (string * json)) (m : NamedMetadata)
    : Prop := ∀ k md, m !! k = Some md ↔ ∃ v, (k, v) ∈ ms ∧ created str k v md.

Lemma read_md_spec_step str dn k v rest m md :
  NoDup (dn ++ (k, v) :: rest).*1 → read_md_spec str dn m → created str k v md →
  read_md_spec str (dn ++ [(k, v)]) (addMetaData m md).
Proof.
  unfold read_md_spec. intros Hnd Hm Hmd k' md'. unfold addMetaData. rewrite (created_key _ _ _ _ Hmd).
  rewrite lookup_insert_Some, Hm. setoid_rewrite elem_of_app. setoid_rewrite list_elem_of_singleton.
  rewrite fmap_app, NoDup_app in Hnd. destruct Hnd as (_ & Hfresh & _). split.
  - intros [[<- <-]|(_ & v' & ? & ?)]; [exists v; eauto|exists v'; eauto].
  - intros (v' & [Hin|[= -> ->]] & Hc); [right|left].
    + split; [|by exists v']. intros ->. apply (Hfresh k'); [|set_solver].
      by apply (list_elem_of_fmap_2 fst _ (k', v')).
    + unfold created in *. split; congruence.
Qed.

Lemma read_mds_ret cg str k n0 ms (fl : list FailedMetadata) :
  wf cg → node_at cg k = Some n0 → node_md n0 = ∅ → NoDup ms.*1 →
  (∀ key v, (key, v) ∈ ms → ∃ md, created str key v md) →
  ∃ cg' m, foldM (read_node_md str k) (cg, fl) ms ⇓ (cg', fl) ∧ wf cg' ∧
    edges cg' = edges cg ∧ cg_md cg' = cg_md cg ∧ length (nodes cg') = length (nodes cg) ∧
    (∀ j, node_at cg' j = if decide (j = k) then Some (set_node_md n0 m) else node_at cg j) ∧
    read_md_spec str ms m.
Proof.
  intros Hwf Hn0 Hemp Hnd Hms.
  destruct (foldM_ind (λ dn st, st.2 = fl ∧ wf st.1 ∧ edges st.1 = edges cg ∧ cg_md st.1 = cg_md cg ∧
      length (nodes st.1) = length (nodes cg) ∧
      ∃ m, (∀ j, node_at st.1 j = if decide (j = k) then Some (set_node_md n0 m) else node_at cg j) ∧
           read_md_spec str dn m) (read_node_md str k) ms (cg, fl))
    as ([cg' fl'] & Hrun & Hfl & Hwf' & He & Hmd & Hlen & m & Hat & Hspec);
    [| |simpl in *; subst; by exists cg', m].
  - split_and!; try done. exists ∅. split.
    + intros j. cbn [fst]. case_decide; [subst|done]. rewrite Hn0. destruct n0; simpl in *. by subst.
    + intros key md. rewrite lookup_empty. set_solver.
  - intros dn [key v] rest [cg' fl'] -> (Hfl & Hwf' & He & Hmd & Hlen & m & Hat & Hspec).
    cbn [fst snd] in *. subst fl'. destruct (Hms key v) as [md Hc]; [set_solver|].
    exists (update_node cg' k (CgNode_addMetaData md), fl). split.
    { unfold read_node_md. cbn [fst snd]. unfold created in Hc. by rewrite Hc. }
    cbn [fst snd]. split_and!; [done|by apply update_node_wf; [|apply addMetaData_identity]|done|done| |].
    + simpl. by rewrite length_alter.
    + exists (addMetaData m md). split; [|by eapply read_md_spec_step].
      intros j. rewrite update_node_at, !Hat. destruct (decide (j = k)) as [->|Hne].
      * by rewrite !decide_True by done.
      * by rewrite !decide_False by congruence.
Qed.

Lemma read_global_ret cg str ms (fl : list FailedMetadata) :
  wf cg → cg_md cg = ∅ → NoDup ms.*1 →
  (∀ key v, (key, v) ∈ ms → ∃ md, created str key v md) →
  ∃ m, foldM (read_global_md str) (cg, fl) ms ⇓ (set_cg_md cg m, fl) ∧ read_md_spec str ms m.
Proof.
  intros Hwf Hemp Hnd Hms.
  destruct (foldM_ind (λ dn st, ∃ m, st = (set_cg_md cg m, fl) ∧ read_md_spec str dn m)
    (read_global_md str) ms (cg, fl)) as (st & Hrun & m & -> & Hspec); [| |by exists m].
  - exists ∅. split; [destruct cg; simpl in *; by subst|]. intros key md. rewrite lookup_empty. set_solver.
  - intros dn [key v] rest st -> (m & -> & Hspec). destruct (Hms key v) as [md Hc]; [set_solver|].
    exists (set_cg_md cg (addMetaData m md), fl). split.
    { unfold read_global_md. cbn [fst snd]. unfold created in Hc. by rewrite Hc. }
    exists (addMetaData m md). split; [done|]. by eapply read_md_spec_step.
Qed.

(** *** All nodes *)

Section all_nodes.
Context (ord : list CgNode) (str : gmap string NodeId).
Context (Hstr : ∀ s k, str !! s = Some k ↔ ∃ n, ord !! k = Some n ∧ idn n = s).
Context (HC : ∀ n t w, n ∈ ord → C n !! t = Some w → w = jobj ∅ ∧ ∃ m, m ∈ ord ∧ idn m = t).
Context (HMM : ∀ n key v, n ∈ ord → MM n !! key = Some v → ∃ md, created str key v md).

(** The graph after the entries of the first [d] nodes were processed. *)
Definition data_read (d : nat) (cg : Callgraph) : Prop :=
  wf cg ∧ length (nodes cg) = length ord ∧ cg_md cg = ∅ ∧
  (∀ k n, ord !! k = Some n → ∃ m, node_at cg k = Some (set_node_md (read_as k n) m) ∧
     if decide (k < d) then read_md_spec str (ordered_iter (MM n)) m else m = ∅) ∧
  edge_md_free cg ∧
  ∀ p, is_Some (edges cg !! p) ↔ p.1 < d ∧
    ∃ n t, ord !! p.1 = Some n ∧ is_Some (C n !! t) ∧ str !! t = Some p.2.

Lemma read_node_data_step d n cg fl :
  ord !! d = Some n → data_read d cg →
  ∃ cg', read_node_data str (cg, fl) (temp_entry d n) ⇓ (cg', fl) ∧ data_read (S d) cg'.
Proof using All.
  intros Hn (Hwf & Hlen & Hmd & Hnodes & Hfree & Hes).
  destruct (Hnodes d n Hn) as (m0 & Hat & Hm0). rewrite decide_False in Hm0 by lia. subst m0.
  pose proof (list_elem_of_lookup_2 _ _ _ Hn) as Hin.
  unfold read_node_data, temp_entry. cbn [fst snd td_nodeId td_jEdges td_jMeta].
  rewrite (getNode_live _ _ _ Hat), bind_ret. cbn [cpp_assert].
  rewrite bool_decide_true by (by eexists). rewrite !jiter_keys_obj, !bind_ret.
  destruct (read_edges_ret cg str d (ordered_iter (C n)) fl Hwf) as (cg1 & -> & Hwf1 & Hn1 & Hmd1 & Hf1 & He1).
  { by eexists. } { apply ordered_iter_NoDup_fst. }
  { intros t w Ht%elem_of_ordered_iter. destruct (HC n t w Hin Ht) as (-> & m & Hm & Hid).
    split; [done|]. apply list_elem_of_lookup in Hm as [l Hl]. exists l. split.
    - apply Hstr. by exists m.
    - destruct (Hnodes l m Hl) as (m' & Hm' & _). by eexists. }
  rewrite bind_ret, ?jiter_keys_obj, ?bind_ret.
  assert (∀ j, node_at cg1 j = node_at cg j) as Hat1 by (intros j; unfold node_at; by rewrite Hn1).
  destruct (read_mds_ret cg1 str d (set_node_md (read_as d n) ∅) (ordered_iter (MM n)) fl Hwf1)
    as (cg2 & m & -> & Hwf2 & He2 & Hmd2 & Hlen2 & Hat2 & Hspec).
  { by rewrite Hat1. } { done. } { apply ordered_iter_NoDup_fst. }
  { intros key v Hv%elem_of_ordered_iter. by eapply HMM. }
  exists cg2. split; [done|]. split_and!; [done|congruence|congruence| |by eapply edge_md_free_eq; [exact He2|apply Hf1]|].
  - intros k n' Hk. rewrite Hat2. destruct (decide (k = d)) as [->|Hne].
    + assert (n' = n) as -> by congruence. exists m. split; [done|]. by rewrite decide_True by lia.
    + destruct (Hnodes k n' Hk) as (m' & Hm' & Hspec'). exists m'. rewrite Hat1. split; [done|].
      repeat case_decide; done || lia.
  - intros p. rewrite He2, He1, Hes. split.
    + intros [[? ?]|(Hp & t & Ht & Hs)]; [split; [lia|done]|]. split; [lia|]. exists n, t.
      rewrite Hp. split_and!; [done| |done].
      apply list_elem_of_fmap in Ht as ([t' w] & -> & Hw%elem_of_ordered_iter). by eexists.
    + intros (Hlt & n' & t & Hk & [w Hw] & Hs). destruct (decide (p.1 = d)) as [Heq|Hne].
      * right. split; [done|]. exists t. split; [|done]. rewrite Heq in Hk.
        assert (n' = n) as -> by congruence.
        apply list_elem_of_fmap. exists (t, w). split; [done|]. by apply elem_of_ordered_iter.
      * left. split; [lia|]. exists n', t. split_and!; [done|by eexists|done].
Qed.

Lemma read_data_ret cg fl :
  data_read 0 cg →
  ∃ cg', foldM (read_node_data str) (cg, fl) (imap temp_entry ord) ⇓ (cg', fl) ∧
         data_read (length ord) cg'.
Proof using All.
  intros H0. destruct (foldM_ind (λ dn st, st.2 = fl ∧ data_read (length dn) st.1)
    (read_node_data str) (imap temp_entry ord) (cg, fl)) as ([cg' fl'] & Hrun & Hfl & H); [done| |].
  - intros dn x rest [cg' fl'] Hl [Hfl Hd]. cbn [fst snd] in *. subst fl'.
    assert (imap temp_entry ord !! length dn = Some x) as Hx by (rewrite Hl; by apply list_lookup_middle).
    rewrite list_lookup_imap in Hx. destruct (ord !! length dn) as [n|] eqn:Hn; [|done].
    injection Hx as <-. destruct (read_node_data_step _ n cg' fl Hn Hd) as (cg2 & Hrun & Hd2).
    exists (cg2, fl). split; [done|]. split; [done|]. rewrite length_app. simpl.
    by rewrite Nat.add_1_r.
  - exists cg'. rewrite length_imap in H. by destruct Hfl.
Qed.
End all_nodes.
End reader.

(** ** Writing and reading *)

Lemma pretty_N_go_nonempty x s : s ≠ "" → pretty_N_go x s ≠ "".
Proof.
  revert s. induction (N.lt_wf_0 x) as [x _ IH]. intros s Hs.
  destruct (decide (0 < x)%N) as [Hx|Hx].
  - rewrite pretty_N_go_step by done. apply IH; [by apply N.div_lt|done].
  - by assert (x = 0%N) as -> by lia.
Qed.

Lemma pretty_nat_nonempty (n : nat) : pretty n ≠ "".
Proof.
  unfold pretty, pretty_nat, pretty, pretty_N. case_decide; [done|].
  rewrite pretty_N_go_step by lia. by apply pretty_N_go_nonempty.
Qed.

(** Lists that are images of lists of good elements. *)
Lemma list_preimage {A B} (F : A → B) (Q : A → Prop) (l : list B) :
  (∀ y, y ∈ l → ∃ x, Q x ∧ y = F x) → ∃ xs, l = F <$> xs ∧ ∀ x, x ∈ xs → Q x.
Proof.
  induction l as [|y l IH]; intros Hl.
  - exists []. split; [done|]. by intros ? ?%elem_of_nil.
  - destruct (Hl y) as (x & Hx & ->); [set_solver|]. destruct IH as (xs & -> & Hxs); [set_solver|].
    exists (x :: xs). split; [done|]. intros x' [->|?]%elem_of_cons; auto.
Qed.

Section roundtrip.
Context {JO : JsonOps} {JL : JsonLaws} {MDI : MetaDataI} {MDL : MetaDataLaws} {IO : IterOrder}.
Context (rt : MD → Prop) {RT : RoundTrip rt}.

(** Graphs the format can represent: distinct identifiers, named nodes, and
    metadata that can be read back; metadata of edges is excluded, because the
    reader does not file it under its key. *)
Record exportable (g : Callgraph) (b : bool) : Prop := {
  ex_wf : wf g;
  ex_ids : distinct_ids g b;
  ex_names : ∀ i n, node_at g i = Some n → functionName n ≠ "";
  ex_nodes : ∀ i n, node_at g i = Some n → named_md_ok rt (λ j, live g j) (node_md n);
  ex_edges : edge_md_free g;
  ex_global : named_md_ok rt (λ j, live g j) (cg_md g)
}.

(** A graph as the reader leaves it: consistent, without erased nodes, and
    without metadata of edges as long as the file has none. *)
Record as_read (g : Callgraph) : Prop := {
  ar_wf : wf g;
  ar_edges : edge_md_free g;
  ar_full : ∀ o, o ∈ nodes g → is_Some o
}.

(** [g'] is [g] with its nodes renumbered by [π]. *)
Definition md_related (π : GraphMapping) (m m' : NamedMetadata) : Prop :=
  ∀ k md', m' !! k = Some md' ↔ ∃ md, m !! k = Some md ∧ md_applyMapping md π ⇓ md'.

Record renumbered (π : GraphMapping) (g g' : Callgraph) : Prop := {
  rn_dom : ∀ i, is_Some (π !! i) ↔ live g i;
  rn_inj : ∀ i j k, π !! i = Some k → π !! j = Some k → i = j;
  rn_ran : ∀ k, live g' k ↔ ∃ i, π !! i = Some k;
  rn_node : ∀ i k n, π !! i = Some k → node_at g i = Some n → ∃ n', node_at g' k = Some n' ∧
    functionName n' = functionName n ∧ origin n' = origin n ∧ hasBody n' = hasBody n ∧
    md_related π (node_md n) (node_md n');
  rn_edges : ∀ i j k l, π !! i = Some k → π !! j = Some l →
    is_Some (edges g !! (i, j)) ↔ is_Some (edges g' !! (k, l));
  rn_md : md_related π (cg_md g) (cg_md g')
}.

Section one_graph.
Context (g : Callgraph) (b : bool) (Hex : exportable g b).

Abbreviation ids := (convertToStr g b).
Abbreviation nts := (getStrFromNode g b).

Lemma ids_nonempty n : node_live g n → ids n ≠ "".
Proof using Hex.
  intros Hn. pose proof (ex_names _ _ Hex _ _ Hn) as Hname. unfold convertToStr.
  destruct b; [case_decide; [|done]|apply pretty_nat_nonempty].
  intros Heq. apply Hname. by destruct (functionName n).
Qed.

(** What is known about the order of the nodes in the file. *)
Context (ord : list CgNode) (str : gmap string NodeId).
Context (Hnd : NoDup (ids <$> ord)) (Hord : ∀ n, n ∈ ord ↔ node_live g n).
Context (Hstr : ∀ s k, str !! s = Some k ↔ ∃ n, ord !! k = Some n ∧ ids n = s).

Definition order_map : GraphMapping := list_to_map (imap (λ k n, (node_id n, k)) ord).

Lemma node_ids_NoDup : NoDup (node_id <$> ord).
Proof using All.
  apply NoDup_fmap_1 in Hnd. apply NoDup_alt. intros i j x Hi Hj.
  rewrite list_lookup_fmap in Hi, Hj.
  destruct (ord !! i) as [n|] eqn:Hn, (ord !! j) as [m|] eqn:Hm; simplify_eq/=.
  pose proof (proj1 (Hord n) (list_elem_of_lookup_2 _ _ _ Hn)) as Hln.
  pose proof (proj1 (Hord m) (list_elem_of_lookup_2 _ _ _ Hm)) as Hlm.
  unfold node_live in *. eapply NoDup_lookup; [done|done|]. congruence.
Qed.

Lemma order_map_lookup i k :
  order_map !! i = Some k ↔ ∃ n, ord !! k = Some n ∧ node_id n = i.
Proof using All.
  unfold order_map. rewrite <- elem_of_list_to_map.
  - rewrite elem_of_lookup_imap. split; [|naive_solver].
    intros (k' & n & [= -> ->] & Hn). by exists n.
  - rewrite fmap_imap. replace (imap _ ord) with (node_id <$> ord); [apply node_ids_NoDup|].
    rewrite <- imap_const. by apply imap_ext.
Qed.

Lemma order_map_node n : node_live g n → ∃ k, order_map !! node_id n = Some k ∧ str !! ids n = Some k.
Proof using All.
  intros (k & Hk)%Hord%list_elem_of_lookup. exists k. split; [apply order_map_lookup|apply Hstr]; eauto.
Qed.

Lemma md_roundtrip_ok md :
  md_ok rt (λ j, live g j) md →
  ∃ j md', md_toJson md nts ⇓ j ∧ jempty j = false ∧ jis_null j = false ∧
    created str (md_getKey md) j md' ∧ md_applyMapping md order_map ⇓ md'.
Proof using All.
  intros [Hrt Hrefs]. apply (md_roundtrip md nts (getNodeFromStr str) order_map Hrt).
  - intros i Hi. destruct (Hrefs i Hi) as [n Hn].
    assert (node_id n = i) as Hid by by destruct (wf_ids _ (ex_wf _ _ Hex) _ _ Hn).
    assert (node_live g n) as Hl by (unfold node_live; congruence).
    destruct (order_map_node n Hl) as (k & Hk & Hs). exists (ids n), k.
    rewrite Hid in Hk. split_and!; [apply (nts_live g b _ _ Hn)|done|done].
  - apply eq_None_not_Some. intros [k Hk]. apply Hstr in Hk as (n & Hn & Hid).
    by apply (ids_nonempty n); [apply Hord, list_elem_of_lookup_2 with k|].
Qed.

(** A container that is written and read comes back renumbered. *)
Lemma container_roundtrip mds MM m :
  named_md_ok rt (λ j, live g j) mds →
  (∀ k v, MM !! k = Some v ↔ ∃ md, mds !! k = Some md ∧ md_toJson md nts ⇓ v) →
  (∀ k v, MM !! k = Some v → ∃ md, created str k v md) ∧
  (read_md_spec str (ordered_iter MM) m → md_related order_map mds m).
Proof using All.
  intros [Hkey Hall] HMM.
  assert (∀ k md, mds !! k = Some md → ∃ v md', MM !! k = Some v ∧ md_toJson md nts ⇓ v ∧
    created str k v md' ∧ md_applyMapping md order_map ⇓ md') as Hrt.
  { intros k md Hmd. destruct (md_roundtrip_ok md) as (v & md' & Hv & _ & _ & Hc & Ha); [by eapply Hall|].
    rewrite (Hkey k md Hmd) in Hc. exists v, md'. split_and!; [|done..]. apply HMM. by exists md. }
  split.
  - intros k v (md & Hmd & Hv)%HMM. destruct (Hrt k md Hmd) as (v' & md' & _ & Hv' & Hc & _).
    exists md'. congruence.
  - intros Hm k md'. rewrite (Hm k md'). split.
    + intros (v & Hv%elem_of_ordered_iter & Hc). apply HMM in Hv as (md & Hmd & Hv).
      exists md. split; [done|]. destruct (Hrt k md Hmd) as (v' & md2 & _ & Hv' & Hc' & Ha).
      unfold created in *. congruence.
    + intros (md & Hmd & Ha). destruct (Hrt k md Hmd) as (v & md2 & HM & _ & Hc & Ha').
      exists v. split; [by apply elem_of_ordered_iter|]. congruence.
Qed.
End one_graph.

(** Some order of the nodes, to know that their metadata can be written. *)
Lemma live_nodes_NoDup (l : list (option CgNode)) (F : CgNode → nat) (d : nat) :
  (∀ i n, l !! i = Some (Some n) → F n = d + i) →
  NoDup (F <$> omap (λ o, o) l) ∧ ∀ n, n ∈ omap (λ o, o) l → d ≤ F n.
Proof.
  revert d. induction l as [|o l IH]; intros d Hl; [split; [constructor|set_solver]|].
  destruct (IH (S d)) as [Hnd Hge]; [intros i n Hi; rewrite (Hl (S i) n Hi); lia|].
  destruct o as [n|]; simpl; [|split; [done|intros n Hn; specialize (Hge n Hn); lia]].
  pose proof (Hl 0 n eq_refl) as Hn. split.
  - constructor; [|done]. intros (m & Heq & Hm)%list_elem_of_fmap. specialize (Hge m Hm). lia.
  - intros m [->|Hm]%elem_of_cons; [lia|]. specialize (Hge m Hm). lia.
Qed.

Lemma some_order g b :
  exportable g b → ∃ ord (str : gmap string NodeId), NoDup (convertToStr g b <$> ord) ∧
    (∀ n, n ∈ ord ↔ node_live g n) ∧
    (∀ s k, str !! s = Some k ↔ ∃ n, ord !! k = Some n ∧ convertToStr g b n = s).
Proof.
  intros Hex. pose proof (ex_wf _ _ Hex) as Hwf. set (ord := omap (λ o, o) (nodes g)).
  assert (∀ n, n ∈ ord ↔ node_live g n) as Hord.
  { intros n. unfold ord. rewrite list_elem_of_omap, (node_live_iff g Hwf).
    split; [intros (? & ? & ->); done|by exists (Some n)]. }
  destruct (live_nodes_NoDup (nodes g) node_id 0) as [Hnd _].
  { intros i n Hi. apply node_at_Some in Hi. by destruct (wf_ids _ Hwf _ _ Hi). }
  assert (NoDup (convertToStr g b <$> ord)) as Hids.
  { apply NoDup_fmap_2_strong; [|by apply NoDup_fmap_1 in Hnd].
    intros n m Hn%Hord Hm%Hord. by apply (ids_inj g b Hwf (ex_ids _ _ Hex)). }
  exists ord, (list_to_map (imap (λ k n, (convertToStr g b n, k)) ord)).
  split_and!; [done|done|]. intros s k. rewrite <- elem_of_list_to_map.
  - rewrite elem_of_lookup_imap. split; [|naive_solver].
    intros (k' & n & [= -> ->] & Hn). by exists n.
  - rewrite fmap_imap. replace (imap _ ord) with (convertToStr g b <$> ord); [done|].
    rewrite <- imap_const. by apply imap_ext.
Qed.

(** The metadata of an exportable graph can be written. *)
Lemma metadata_written g b mds :
  exportable g b → named_md_ok rt (λ j, live g j) mds →
  ∃ M, write_metadata (getStrFromNode g b) mds ⇓ jobj M ∧
    ∀ k v, M !! k = Some v ↔ ∃ md, mds !! k = Some md ∧ md_toJson md (getStrFromNode g b) ⇓ v.
Proof.
  intros Hex [_ Hall]. destruct (some_order g b Hex) as (ord & str & Hnd & Hord & Hstr).
  apply write_metadata_ret. intros k md Hmd.
  destruct (md_roundtrip_ok g b Hex ord str Hnd Hord Hstr md) as (j & _ & ? & ? & ? & _);
    [by eapply Hall|by exists j].
Qed.

(** The fields of the metadata object of a node. *)
Definition jm_fields (g : Callgraph) (b : bool) (n : CgNode) : gmap string json :=
  match jview (jm g b n) with VObj M => M | _ => ∅ end.

Lemma jm_fields_ok g b n :
  exportable g b → node_live g n →
  jm g b n = jobj (jm_fields g b n) ∧ write_metadata (getStrFromNode g b) (node_md n) ⇓ jm g b n ∧
  ∀ k v, jm_fields g b n !! k = Some v ↔
    ∃ md, node_md n !! k = Some md ∧ md_toJson md (getStrFromNode g b) ⇓ v.
Proof.
  intros Hex Hn. destruct (metadata_written g b (node_md n) Hex) as (M & HM & Hspec).
  { eapply ex_nodes; [done|apply Hn]. }
  unfold jm_fields, jm. rewrite HM, jview_jmk. by split_and!.
Qed.

(** *** The object that [write4] returns *)

Definition file4 (fi : MCGFileInfo) (M Mg : gmap string json) : json :=
  let f := formatInfo fi in
  match jview (attachMCGFormatHeader fi) with
  | VObj H => jobj (<["_CG" := jobj (<["meta" := jobj Mg]> {["nodes" := jobj M]})]> H)
  | _ => jnull
  end.

Lemma write4_tail fi M Mg :
  (j ← jset (attachMCGFormatHeader fi) "_CG" (jobj ∅);
   j ← jupdate j "_CG" (λ c, jset c "nodes" (jobj M));
   jupdate j "_CG" (λ c, jset c "meta" (jobj Mg))) ⇓ file4 fi M Mg.
Proof.
  unfold file4. unfold attachMCGFormatHeader at 1 2. rewrite jview_jmk, jset_obj, bind_ret.
  erewrite jupdate_obj; [|apply lookup_insert_eq|apply jset_obj]. rewrite bind_ret.
  erewrite jupdate_obj; [|apply lookup_insert_eq|apply jset_obj].
  by rewrite !insert_insert_eq.
Qed.

Lemma sort_below_file M Mg :
  let c := jobj (<["meta" := jobj Mg]> {["nodes" := jobj M]}) in sort_below c = c.
Proof.
  unfold sort_below. rewrite jview_jmk. f_equal. f_equal.
  rewrite fmap_insert, map_fmap_singleton. by rewrite !jview_jmk.
Qed.

Lemma sort_file4 fi M Mg : sortCallgraph (file4 fi M Mg) ⇓ file4 fi M Mg.
Proof.
  unfold sortCallgraph, file4, attachMCGFormatHeader. rewrite jview_jmk, jcontains_obj.
  rewrite lookup_insert_eq, bool_decide_true by (by eexists).
  erewrite jupdate_obj; [|apply lookup_insert_eq|reflexivity].
  rewrite insert_insert_eq. by rewrite (sort_below_file M Mg).
Qed.

Lemma write_metadata_obj nts mds j : write_metadata nts mds ⇓ j → ∃ M, j = jobj M.
Proof.
  unfold write_metadata. generalize (∅ : gmap string json). induction (iter_map mds) as [|[k md] l IH];
    intros M Hr; simpl in Hr; [injection Hr as <-; by eexists|].
  apply bind_ret_inv in Hr as (j1 & Hr1 & Hr). apply bind_ret_inv in Hr1 as (e & He & Hr1).
  destruct (_ && _); [rewrite jset_obj in Hr1|]; injection Hr1 as <-; by apply IH in Hr.
Qed.

Lemma foldM_obj {A} (f : json → A → outcome json) l M j :
  (∀ M x j, f (jobj M) x ⇓ j → ∃ M', j = jobj M') →
  foldM f (jobj M) l ⇓ j → ∃ M', j = jobj M'.
Proof.
  intros Hf. revert M. induction l as [|x l IH]; intros M Hr; simpl in Hr; [injection Hr as <-; by eexists|].
  apply bind_ret_inv in Hr as (j1 & Hr1 & Hr). apply Hf in Hr1 as [M1 ->]. by apply IH in Hr.
Qed.

Lemma write_node_obj g b M o j : write_node g b (jobj M) o ⇓ j → ∃ M', j = jobj M'.
Proof.
  destruct o as [n|]; simpl; [|intros [= <-]; by eexists]. intros Hr. invert_outcome.
  rewrite jset_obj in Hr. injection Hr as <-. by eexists.
Qed.

Lemma write_edge_obj g b M e j : write_edge g b (jobj M) e ⇓ j → ∃ M', j = jobj M'.
Proof.
  unfold write_edge, jupdate. intros Hr. invert_outcome.
  rewrite jset_obj in Hr. injection Hr as <-. by eexists.
Qed.

(** Whatever is written has the shape of a file. *)
Lemma write4_shape fi b g j : write4 fi b false g ⇓ j → ∃ M Mg, j = file4 fi M Mg.
Proof.
  unfold write4. intros (j1 & H1 & Hr)%bind_ret_inv. apply bind_ret_inv in Hr as (j2 & H2 & Hr).
  apply (foldM_obj _ _ _ _ (write_node_obj g b)) in H1 as [M1 ->].
  apply (foldM_obj _ _ _ _ (write_edge_obj g b)) in H2 as [M2 ->].
  apply bind_ret_inv in Hr as (ja & Ha & Hr). apply bind_ret_inv in Hr as (jb & Hb & Hr).
  apply bind_ret_inv in Hr as (jMeta & H3 & Hr). apply write_metadata_obj in H3 as [Mg ->].
  exists M2, Mg. pose proof (write4_tail fi M2 Mg) as Ht. rewrite Ha, bind_ret, Hb, bind_ret in Ht.
  rewrite Ht, bind_ret in Hr. congruence.
Qed.

Lemma write_sorted_same fi b g : write4 fi b true g = write4 fi b false g.
Proof.
  assert (write4 fi b true g = (j ← write4 fi b false g; sortCallgraph j)) as ->.
  { unfold write4. repeat match goal with |- (?o ≫= _) = _ => destruct o; cbn; [|done..] end. done. }
  destruct (write4 fi b false g) as [j| | | |] eqn:Hw; [|done..].
  apply write4_shape in Hw as (M & Mg & ->). apply sort_file4.
Qed.

(** *** Reading the object *)

(** The version of the generator can be read from its string. *)
Definition version_readable (gen : MCGGeneratorVersionInfo) : Prop :=
  let s := getVersionStr (gen_major gen) (gen_minor gen) in
  (∃ v, getMajorVersionFromString s ⇓ v) ∧ ∃ v, getMinorVersionFromString s ⇓ v.

Lemma read_header4_ok gen M Mg :
  version_readable gen →
  let j := file4 (mkFileInfo (MCGFileFormatInfo_new 4 0) gen) M Mg in
  read_header4 j ⇓ tt ∧ jindex j "_CG" ⇓ jobj (<["meta" := jobj Mg]> {["nodes" := jobj M]}).
Proof.
  intros [[v1 Hv1] [v2 Hv2]] j. unfold j, file4, attachMCGFormatHeader. rewrite jview_jmk. split.
  - unfold read_header4, jfields.
    set (G := jobj (list_to_map [("name", jstr (gen_name gen));
       ("version", jstr (getVersionStr (gen_major gen) (gen_minor gen))); ("sha", jstr (gen_sha gen))])).
    set (H := jobj (list_to_map [("version", jstr (getVersionStr 4 0)); ("generator", G)])).
    rewrite (jindex_obj _ "_MetaCG" H), bind_ret
      by (rewrite lookup_insert_ne by done; apply lookup_insert_eq).
    unfold H. rewrite jis_null_jmk.
    rewrite (jindex_obj _ "version" (jstr (getVersionStr 4 0))), bind_ret, jget_string_str by done.
    rewrite bind_ret, (jindex_obj _ "generator" G), bind_ret by done. unfold G.
    rewrite (jindex_obj _ "name" (jstr (gen_name gen))), bind_ret, jget_string_str, bind_ret by done.
    rewrite (jindex_obj _ "version" (jstr (getVersionStr (gen_major gen) (gen_minor gen)))) by done.
    rewrite bind_ret, jget_string_str, bind_ret.
    by rewrite Hv1, bind_ret, Hv2.
  - apply jindex_obj, lookup_insert_eq.
Qed.

(** The order in which the reader meets the nodes of the file. *)
Lemma file_order g b (C : NodeId → gmap string json) M :
  exportable g b →
  (∀ s v, M !! s = Some v ↔ ∃ n, node_live g n ∧ convertToStr g b n = s ∧
     v = jnode n (jobj (C (node_id n))) (jm g b n)) →
  ∃ ord, ordered_iter M =
      file_entry (convertToStr g b) (λ n, C (node_id n)) (jm_fields g b) <$> ord ∧
    NoDup (convertToStr g b <$> ord) ∧ ∀ n, n ∈ ord ↔ node_live g n.
Proof.
  intros Hex HM. set (F := file_entry _ _ _).
  destruct (list_preimage F (node_live g) (ordered_iter M)) as (ord & Hord & Hlive).
  { intros [s v] Hsv%elem_of_ordered_iter. apply HM in Hsv as (n & Hn & <- & ->).
    exists n. split; [done|]. unfold F, file_entry.
    by rewrite <- (proj1 (jm_fields_ok g b n Hex Hn)). }
  exists ord. split; [done|]. split.
  - pose proof (ordered_iter_NoDup_fst M) as Hnd. rewrite Hord, <- list_fmap_compose in Hnd. exact Hnd.
  - intros n. split; [apply Hlive|]. intros Hn.
    assert ((convertToStr g b n, jnode n (jobj (C (node_id n))) (jm g b n)) ∈ ordered_iter M) as Hin.
    { apply elem_of_ordered_iter, HM. by exists n. }
    rewrite Hord in Hin. apply list_elem_of_fmap in Hin as (m & [= Heq _] & Hm).
    by rewrite (ids_inj g b (ex_wf _ _ Hex) (ex_ids _ _ Hex) n m Hn (Hlive m Hm) Heq).
Qed.

(** What the graph looks like after everything was read is the renumbering. *)
Lemma read_renumbered g b u (C : NodeId → gmap string json) ord str Mg cg m :
  exportable g b → NoDup (convertToStr g b <$> ord) → (∀ n, n ∈ ord ↔ node_live g n) →
  (∀ s k, str !! s = Some k ↔ ∃ n, ord !! k = Some n ∧ convertToStr g b n = s) →
  (∀ i, callees_of g b (iter_map (edges g)).*1 i (C i)) →
  (∀ k v, Mg !! k = Some v ↔ ∃ md, cg_md g !! k = Some md ∧ md_toJson md (getStrFromNode g b) ⇓ v) →
  data_read u (λ n, C (node_id n)) (jm_fields g b) ord str (length ord) cg →
  read_md_spec str (ordered_iter Mg) m →
  renumbered (order_map ord) g (set_cg_md cg m).
Proof.
  intros Hex Hnd Hord Hstr HC HMg (Hwf & Hlen & _ & Hnodes & _ & Hes) Hm.
  pose proof (order_map_lookup g b Hex ord str Hnd Hord Hstr) as Hmap.
  assert (∀ n, node_live g n → node_at g (node_id n) = Some n) as Hself by done.
  split.
  - intros i. split.
    + intros (k & (n & Hn%list_elem_of_lookup_2%Hord & <-)%Hmap). by exists n.
    + intros [n Hn]. destruct (wf_ids _ (ex_wf _ _ Hex) _ _ Hn) as [Hid _].
      assert (node_live g n) as (k & Hk)%Hord%list_elem_of_lookup by (unfold node_live; congruence).
      exists k. apply Hmap. by exists n.
  - intros i j k (n & Hn & <-)%Hmap (n' & Hn' & <-)%Hmap. congruence.
  - intros k. setoid_rewrite Hmap. split.
    + intros Hk%live_lt. cbn [set_cg_md nodes] in Hk. rewrite Hlen in Hk.
      destruct (lookup_lt_is_Some_2 ord k Hk) as [n Hn]. by exists (node_id n), n.
    + intros (i & n & Hn & _). destruct (Hnodes k n Hn) as (md & Hat & _). by eexists.
  - intros i k n (n' & Hk & Hi)%Hmap Hn.
    assert (n' = n) as ->.
    { pose proof (proj1 (Hord n') (list_elem_of_lookup_2 _ _ _ Hk)) as Hl.
      unfold node_live in Hl. congruence. }
    destruct (Hnodes k n Hk) as (md & Hat & Hspec).
    rewrite decide_True in Hspec by (by eapply lookup_lt_Some).
    eexists. split; [exact Hat|]. split_and!; [done..|]. cbn.
    assert (node_live g n) as Hl by (apply Hord; by eapply list_elem_of_lookup_2).
    destruct (jm_fields_ok g b n Hex Hl) as (_ & _ & HMM).
    apply (container_roundtrip g b Hex ord str Hnd Hord Hstr (node_md n) (jm_fields g b n) md);
      [by eapply ex_nodes|done|done].
  - intros i j k l (n & Hk & <-)%Hmap (n' & Hl & <-)%Hmap. cbn [set_cg_md edges].
    rewrite (Hes (k, l)). cbn [fst snd].
    assert (node_live g n) as Hn by (apply Hord; by eapply list_elem_of_lookup_2).
    assert (node_live g n') as Hn' by (apply Hord; by eapply list_elem_of_lookup_2).
    assert (∀ p, is_Some (edges g !! p) ↔ p ∈ (iter_map (edges g)).*1) as Hdom.
    { intros p. rewrite list_elem_of_fmap. split.
      - intros [md Hp]. exists (p, md). split; [done|]. by apply elem_of_iter_map.
      - intros ([p' md] & -> & Hp%elem_of_iter_map). by exists md. }
    rewrite Hdom. split.
    + intros He. split; [by eapply lookup_lt_Some|]. exists n, (convertToStr g b n').
      split_and!; [done| |apply Hstr; by exists n'].
      exists (jobj ∅). apply HC. exists (node_id n'), n'. by split_and!.
    + intros (_ & n0 & t & Hk0 & [w Hw] & Ht). assert (n0 = n) as -> by congruence.
      apply HC in Hw as (k' & m' & Hin & Hm' & Hid & _). apply Hstr in Ht as (n1 & Hl1 & Hid1).
      assert (n1 = n') as -> by congruence.
      assert (m' = n') as ->.
      { apply (ids_inj g b (ex_wf _ _ Hex) (ex_ids _ _ Hex)); [|done|congruence].
        unfold node_live. destruct (wf_ids _ (ex_wf _ _ Hex) _ _ Hm'). congruence. }
      by destruct (wf_ids _ (ex_wf _ _ Hex) _ _ Hm') as [-> _].
  - apply (container_roundtrip g b Hex ord str Hnd Hord Hstr (cg_md g) Mg m); [by eapply ex_global|done|done].
Qed.

Lemma data_read_start g b u C ord str cg :
  read_nodes_spec u (convertToStr g b) ord cg str → data_read u C (jm_fields g b) ord str 0 cg.
Proof.
  intros (Hwf & _ & Hlen & He & Hmd & Hat & _). split_and!; [done..| | |].
  - intros k n Hk. exists ∅. rewrite Hat, Hk. by rewrite decide_False by lia.
  - intros p m. by rewrite He, lookup_empty.
  - intros p. rewrite He, lookup_empty. split; [by intros [? ?]|lia].
Qed.

Lemma read_graph4_ok g b u (C : NodeId → gmap string json) M Mg :
  exportable g b →
  (∀ i, callees_of g b (iter_map (edges g)).*1 i (C i)) →
  (∀ s v, M !! s = Some v ↔ ∃ n, node_live g n ∧ convertToStr g b n = s ∧
     v = jnode n (jobj (C (node_id n))) (jm g b n)) →
  (∀ k v, Mg !! k = Some v ↔ ∃ md, cg_md g !! k = Some md ∧ md_toJson md (getStrFromNode g b) ⇓ v) →
  ∃ g' π, read_graph4 u (jobj (<["meta" := jobj Mg]> {["nodes" := jobj M]})) ⇓ (g', []) ∧
    as_read g' ∧ renumbered π g g'.
Proof.
  intros Hex HC HM HMg. destruct (file_order g b C M Hex HM) as (ord & Hiter & Hnd & Hord).
  destruct (read_nodes_ret u (convertToStr g b) (λ n, C (node_id n)) (jm_fields g b) ord Hnd)
    as (cg & str & Hrun & Hspec).
  { intros n Hn%Hord. by apply (ex_names _ _ Hex _ _ Hn). }
  pose proof Hspec as (_ & _ & _ & _ & _ & _ & Hstr).
  destruct (read_data_ret u (convertToStr g b) (λ n, C (node_id n)) (jm_fields g b) ord str Hstr)
    with (cg := cg) (fl := @nil FailedMetadata) as (cg' & Hrun' & Hdata).
  { intros n t w Hn Ht. apply HC in Ht as (k & m & _ & Hm & Hid & ->). split; [done|].
    exists m. split; [|done]. apply Hord. unfold node_live.
    by destruct (wf_ids _ (ex_wf _ _ Hex) _ _ Hm) as [-> _]. }
  { intros n key v Hn%Hord Hv. destruct (jm_fields_ok g b n Hex Hn) as (_ & _ & HMM).
    apply (container_roundtrip g b Hex ord str Hnd Hord Hstr (node_md n) (jm_fields g b n) ∅)
      with (k := key) (v := v); [by eapply ex_nodes|done|done]. }
  { by apply data_read_start. }
  destruct (read_global_ret cg' str (ordered_iter Mg) []) as (m & Hglob & Hm).
  { apply Hdata. } { apply Hdata. } { apply ordered_iter_NoDup_fst. }
  { intros key v Hv%elem_of_ordered_iter.
    apply (container_roundtrip g b Hex ord str Hnd Hord Hstr (cg_md g) Mg ∅)
      with (k := key) (v := v); [by apply ex_global in Hex|done|done]. }
  exists (set_cg_md cg' m), (order_map ord). split_and!.
  - unfold read_graph4. rewrite (jindex_obj _ "nodes" (jobj M)), bind_ret, jis_null_jmk by done.
    rewrite jiter_keys_obj, bind_ret, Hiter, Hrun, bind_ret. cbn [fst snd].
    rewrite Hrun', bind_ret, (jindex_obj _ "meta" (jobj Mg)), bind_ret by done.
    by rewrite jitems_jobj.
  - destruct Hdata as (Hwf & Hlen & _ & Hnodes & Hfree & _). split; [by apply wf_set_cg_md|done|].
    intros o (k & Hk)%list_elem_of_lookup. cbn [set_cg_md nodes] in Hk.
    destruct (lookup_lt_is_Some_2 ord k) as [n Hn]; [rewrite <- Hlen; by eapply lookup_lt_Some|].
    destruct (Hnodes k n Hn) as (m' & Hat%node_at_Some & _). rewrite Hk in Hat.
    injection Hat as ->. by eexists.
  - by eapply (read_renumbered g b u C ord str Mg cg' m).
Qed.

Lemma write4_ok gen g b sorted :
  exportable g b → ∃ C M Mg,
    write4 (mkFileInfo (MCGFileFormatInfo_new 4 0) gen) b sorted g
      ⇓ file4 (mkFileInfo (MCGFileFormatInfo_new 4 0) gen) M Mg ∧
    (∀ i, callees_of g b (iter_map (edges g)).*1 i (C i)) ∧
    (∀ s v, M !! s = Some v ↔ ∃ n, node_live g n ∧ convertToStr g b n = s ∧
       v = jnode n (jobj (C (node_id n))) (jm g b n)) ∧
    ∀ k v, Mg !! k = Some v ↔ ∃ md, cg_md g !! k = Some md ∧ md_toJson md (getStrFromNode g b) ⇓ v.
Proof.
  intros Hex. pose proof (ex_wf _ _ Hex) as Hwf. pose proof (ex_ids _ _ Hex) as Hids.
  assert (∀ n, node_live g n → write_metadata (getStrFromNode g b) (node_md n) ⇓ jm g b n) as Hjm.
  { intros n Hn. by destruct (jm_fields_ok g b n Hex Hn) as (_ & ? & _). }
  destruct (write_nodes_ret g b Hwf Hids Hjm) as (M0 & Hrun0 & HM0).
  destruct (write_edges_ret g b Hwf Hids Hjm M0 (ex_edges _ _ Hex) HM0) as (M & C & Hrun & HC & HM).
  destruct (metadata_written g b (cg_md g) Hex (ex_global _ _ Hex)) as (Mg & HMg & Hspec).
  exists C, M, Mg. split_and!; [|done..].
  assert (∀ fi, write4 fi b false g ⇓ file4 fi M Mg) as Hw.
  { intros fi. unfold write4. rewrite Hrun0, bind_ret, Hrun, bind_ret, HMg, <- (write4_tail fi M Mg).
    destruct (jset _ _ _) as [ja| | | |]; cbn; [|done..].
    destruct (jupdate ja _ _) as [jb| | | |]; cbn; [|done..]. by destruct (jupdate jb _ _). }
  destruct sorted; [rewrite write_sorted_same|]; apply Hw.
Qed.

Lemma format4_read_back gen g b sorted u :
  exportable g b → version_readable gen →
  ∃ j g' π, write4 (mkFileInfo (MCGFileFormatInfo_new 4 0) gen) b sorted g ⇓ j ∧
    read4 u j ⇓ (g', []) ∧ as_read g' ∧ renumbered π g g'.
Proof.
  intros Hex Hgen. destruct (write4_ok gen g b sorted Hex) as (C & M & Mg & Hw & HC & HM & HMg).
  destruct (read_graph4_ok g b u C M Mg Hex HC HM HMg) as (g' & π & Hr & Hwf & Hrn).
  destruct (read_header4_ok gen M Mg Hgen) as [Hh Hcg].
  eexists _, g', π. split; [exact Hw|]. split_and!; [|done..].
  unfold read4. by rewrite Hh, bind_ret, Hcg, bind_ret, jis_null_jmk.
Qed.

Lemma format4_roundtrip_ret gen g b sorted u :
  exportable g b → version_readable gen →
  ∃ j g' π, write4 (mkFileInfo (MCGFileFormatInfo_new 4 0) gen) b sorted g ⇓ j ∧
    read4 u j ⇓ (g', []) ∧ wf g' ∧ renumbered π g g'.
Proof.
  intros Hex Hgen. destruct (format4_read_back gen g b sorted u Hex Hgen)
    as (j & g' & π & ? & ? & [? _ _] & ?). by exists j, g', π.
Qed.

(** C3: For a graph that satisfies the invariant, whose nodes have nonempty names
    and pairwise distinct identifiers in the file (which names are not when the
    writer uses them and a name looks like the numbered identifier of another),
    whose edges carry no metadata, and whose node and graph metadata is filed
    under its keys, refers to nodes of the graph and survives its own JSON
    value, and for a generator version that can be parsed: the format-4 writer
    produces a file, reading that file succeeds without unreadable metadata, and
    the graph that was read satisfies the invariant and is the written graph up
    to an injective renumbering of its nodes, with the same names, origins, body
    flags and node metadata, the same edges and the same graph metadata. *)
Theorem format4_roundtrip gen g b sorted u :
  exportable g b → version_readable gen →
  ∃ j g' π, write4 (mkFileInfo (MCGFileFormatInfo_new 4 0) gen) b sorted g ⇓ j ∧
    read4 u j ⇓ (g', []) ∧ wf g' ∧ renumbered π g g'.
Proof. apply format4_roundtrip_ret. Qed.

(** The option [exportSorted] has no effect: [sortCallgraph] sorts arrays
    directly below the graph, and there are none. *)
Theorem exportSorted_no_effect fi b g : write4 fi b true g = write4 fi b false g.
Proof. apply write_sorted_same. Qed.
End roundtrip.
