(* ===== verification/Format4Examples.v ===== *)
(** * File format 4: instances and limits

    When the identifiers of a file are distinct, the built-in metadata that
    survives a round trip, a concrete round trip, and what gets lost. *)

From S2P Require Import Prelude Json MetaData BuiltinMD Util Callgraph.
From S2P Require Import CallgraphWf CallgraphOps CallgraphSpec CallgraphProps Merge MergeProps.
From S2P Require Import MergeExamples Format4 Roundtrip4.

(** ** Identifiers *)

Section identifiers.
Context {JO : JsonOps} {MDI : MetaDataI}.

(** Numbers identify nodes. *)
Lemma distinct_ids_numbers g : wf g → distinct_ids g false.
Proof.
  intros Hwf i j n m Hn Hm Heq. unfold convertToStr in Heq. apply (inj pretty) in Heq.
  destruct (wf_ids _ Hwf _ _ Hn), (wf_ids _ Hwf _ _ Hm). congruence.
Qed.

(** Names do as long as the flag for duplicates is off. *)
Lemma distinct_ids_names g : wf g → hasDuplicates g = false → distinct_ids g true.
Proof.
  intros Hwf Hdup i j n m Hn Hm. unfold convertToStr.
  pose proof (λ f, wf_dup _ Hwf Hdup f) as Hone.
  assert (∀ f, length (getNodes_name g f) ≤ 1) as Hlen.
  { intros f. by rewrite getNodes_name_entry, (wf_names _ Hwf). }
  rewrite !decide_False by (rewrite Nat.nlt_ge; apply Hlen). intros Heq.
  assert (i ∈ getNodes_name g (functionName n)) as Hi by (apply elem_of_getNodes_name; [done|by exists n]).
  assert (j ∈ getNodes_name g (functionName n)) as Hj by (apply elem_of_getNodes_name; [done|by exists m]).
  specialize (Hlen (functionName n)).
  destruct (getNodes_name g (functionName n)) as [|x [|y l]]; simpl in Hlen; [|set_solver|lia].
  by apply elem_of_nil in Hi.
Qed.

(** Names are no safe identifiers: the first of several nodes called [f]
    is written under the identifier of a node called [f#0]. *)
Theorem name_ids_collide g i j k l n m :
  wf g → node_at g i = Some n → node_at g j = Some m →
  getNodes_name g (functionName n) = i :: k :: l →
  functionName m = functionName n +:+ "#0" → getNodes_name g (functionName m) = [j] →
  i ≠ j ∧ getStrFromNode g true i = getStrFromNode g true j.
Proof.
  intros Hwf Hn Hm Hl Hname Hj. destruct (wf_ids _ Hwf _ _ Hn) as [Hid _]. split.
  - intros ->. assert (m = n) as -> by congruence. rewrite Hl in Hj. discriminate.
  - rewrite (nts_live g true _ _ Hn), (nts_live g true _ _ Hm). unfold convertToStr.
    rewrite Hl, Hj, Hid. rewrite decide_True by (simpl; lia). rewrite (decide_False (P := 1 < _)) by (simpl; lia).
    simpl. rewrite decide_True by done. by rewrite Hname.
Qed.

(** The reader files the metadata of an edge under the key of the abstract
    class: it is not found under its own key, and a second kind of metadata
    replaces the first. *)
Theorem read_edge_metadata_key_lost str ids g fl m k v md :
  edges g !! ids = Some m → m !! k = None → k ≠ MetaData_key →
  MetaDataFactory_create k v (getNodeFromStr str) ⇓ Some md →
  ∃ g', read_edge_md str ids (g, fl) (k, v) ⇓ (g', fl) ∧
    edges g' !! ids = Some (<[MetaData_key := md]> m) ∧ hasEdgeMetaData g' ids k = false.
Proof.
  intros He Hk Hne Hmd. exists (set_edge_md g ids MetaData_key md).
  assert (edges (set_edge_md g ids MetaData_key md) !! ids = Some (<[MetaData_key := md]> m)) as Hget.
  { simpl. by rewrite lookup_alter_eq, He. }
  split_and!; [|done|].
  - unfold read_edge_md. cbn [fst snd]. rewrite Hmd, bind_ret. cbn [fst snd].
    do 2 f_equal. apply addEdgeMetaData_set. by eexists.
  - unfold hasEdgeMetaData. rewrite Hget. apply bool_decide_eq_false.
    rewrite lookup_insert_ne, Hk by done. by intros [? ?].
Qed.
End identifiers.

(** ** Built-in metadata *)

Definition storable (m : BuiltinMD) : Prop := valid m ∧ writes_value m.

#[export] Instance storable_dec m : Decision (storable m).
Proof. unfold storable. destruct m; simpl; apply _. Defined.

#[export] Instance builtin_RoundTrip {JO : JsonOps} {JL : JsonLaws} : RoundTrip storable.
Proof.
  intros m nodeToStr strToNode π [Hv Hw] Hid He.
  destruct (write_read_builtin m nodeToStr strToNode π Hv Hid He) as (j & m' & Hj & Hk & Hc & Ha).
  destruct (Hk Hw). by exists j, m'.
Qed.

(** ** Checking that a graph is exportable *)

Section checker.
Context {JO : JsonOps} {MDI : MetaDataI} (rt : MD → Prop) `{∀ m, Decision (rt m)}.

Definition check_export (g : Callgraph) : bool :=
  forallb (λ o, match o with Some n => bool_decide (functionName n ≠ "") | None => true end)
    (nodes g) &&
  forallb (λ e, bool_decide (size e.2 = 0)) (map_to_list (edges g)) && check_graph_md rt g.

Lemma check_export_ok g b : wf g → distinct_ids g b → check_export g = true → exportable rt g b.
Proof.
  unfold check_export. rewrite !andb_true_iff, !forallb_forall. intros Hwf Hids [[Hn He] Hmd].
  unfold check_graph_md in Hmd. rewrite !andb_true_iff, !forallb_forall, bool_decide_eq_true in Hmd.
  destruct Hmd as [[Hnm _] Hg]. split; [done|done|..|done].
  - intros i n Hi%node_at_Some%list_elem_of_lookup_2%list_elem_of_In.
    by apply Hn, bool_decide_eq_true in Hi.
  - intros i n Hi%node_at_Some%list_elem_of_lookup_2%list_elem_of_In.
    by apply Hnm, bool_decide_eq_true in Hi.
  - intros p m Hp%elem_of_map_to_list%list_elem_of_In. by apply He, bool_decide_eq_true, map_size_empty_iff in Hp.
Qed.
End checker.

(** ** Concrete files *)

Module Format4Example.
Import GraphExamples MergeExample.

#[local] Existing Instance canonical_order.

Definition generator : MCGGeneratorVersionInfo := mkGenerator "MetaCG" 0 9 "sha".
Definition file_info : MCGFileInfo := mkFileInfo (MCGFileFormatInfo_new 4 0) generator.

(** [main] calls [helper], which overrides an erased-and-reinserted [base]. *)
Definition export_ops : list op := [
  OInsert "main" (Some "main.cpp") false true; OInsert "gone" None false false;
  OInsert "helper" (Some "") false true; OInsert "base" None true false;
  OAddEdge 0 2; OAddEdge 2 2; OAddEdge 2 3; OErase 1;
  OAddMetaData (EntryFunctionMD (Some 0));
  OUpdateNode 2 (AddMetaData (OverrideMD (mkOverrideInfo [3] [])));
  OUpdateNode 0 (AddMetaData (LoopCallDepthMD {["helper" := 2%Z]}))
].

Definition export : Callgraph := graph_of 1 export_ops.

Lemma export_wf : wf export.
Proof. apply graph_of_wf. by apply (bool_decide_unpack _); vm_compute. Qed.

Lemma export_exportable (b : bool) : exportable storable export b.
Proof.
  apply check_export_ok with (H := storable_dec); [apply export_wf| |vm_compute; reflexivity].
  destruct b; [apply distinct_ids_names|apply distinct_ids_numbers]; try apply export_wf.
  vm_compute. reflexivity.
Qed.

Lemma format4_roundtrip_witness :
  ∃ j g' π, write4 file_info true false export ⇓ j ∧ read4 7 j ⇓ (g', []) ∧
    wf g' ∧ renumbered π export g'.
Proof.
  apply (format4_roundtrip (JL := JsonTree.laws) (MDI := builtin_md) (RT := builtin_RoundTrip (JL := JsonTree.laws)) storable generator export true
           false 7 (export_exportable true)).
  split; eexists; vm_compute; reflexivity.
Defined.

Lemma exportSorted_no_effect_witness :
  write4 file_info true true export = write4 file_info true false export.
Proof.
  apply (exportSorted_no_effect (JL := JsonTree.laws) (MDI := builtin_md) file_info true export).
Defined.

(** Three nodes, two of them under one identifier. *)
Definition collide_ops : list op :=
  [OInsert "f" None false true; OInsert "f" None false true; OInsert "f#0" None false true].

Definition collide : Callgraph := graph_of 1 collide_ops.

Lemma collide_wf : wf collide.
Proof. apply graph_of_wf. by apply (bool_decide_unpack _); vm_compute. Qed.

Lemma name_ids_collide_witness :
  0 ≠ 2 ∧ getStrFromNode collide true 0 = getStrFromNode collide true 2.
Proof.
  apply (name_ids_collide (MDI := builtin_md) collide 0 2 1 []
           (CgNode_new 0 (1, 0) "f" None false true) (CgNode_new 2 (1, 2) "f#0" None false true) collide_wf);
    by apply (bool_decide_unpack _); vm_compute.
Defined.

(** The number of nodes after writing and reading. *)
Definition nodes_back (g : Callgraph) (b : bool) : option nat :=
  match (j ← write4 file_info b false g; read4 7 j) with
  | Ret (g', _) => Some (getNodeCount g')
  | _ => None
  end.

Lemma collide_loses_node :
  getNodeCount collide = 3 ∧ nodes_back collide true = Some 2 ∧ nodes_back collide false = Some 3.
Proof. vm_compute. done. Qed.

Lemma read_edge_metadata_key_lost_witness :
  ∃ g', read_edge_md ∅ (0, 2) (export, []) ("loopDepth", JsonTree.TInt 3) ⇓ (g', []) ∧
    edges g' !! (0, 2) = Some {[MetaData_key := LoopDepthMD 3]} ∧
    hasEdgeMetaData g' (0, 2) "loopDepth" = false.
Proof.
  apply (read_edge_metadata_key_lost (MDI := builtin_md) ∅ (0, 2) export [] ∅ "loopDepth"
           (JsonTree.TInt 3) (LoopDepthMD 3)); [|reflexivity|done|reflexivity].
  by apply (bool_decide_unpack _); vm_compute.
Defined.
End Format4Example.
