(* ===== verification/Exchange.v ===== *)
(** * Graphs that come out of a file

    What the reader makes of a written graph can be written and merged again:
    the properties that the tools need when they chain the reader, the merge
    and the writer, and the composition of two renumberings. *)

From S2P Require Import Prelude Json MetaData BuiltinMD Util Callgraph.
From S2P Require Import CallgraphWf CallgraphOps CallgraphSpec CallgraphProps Merge MergeProps.
From S2P Require Import MergeExamples Format4 Roundtrip4 Format4Examples.

(** Metadata keeps the property when its node IDs are re-mapped. *)
Class Transferable {JO : JsonOps} {MDI : MetaDataI} (rt : MD → Prop) :=
  transfer_apply m map m' : rt m → md_applyMapping m map ⇓ m' → rt m'.

(** Re-mapping twice is re-mapping along the composed mapping. *)
Class MappingComposes {JO : JsonOps} {MDI : MetaDataI} :=
  md_applyMapping_compose m π ρ m' m'' :
    md_applyMapping m π ⇓ m' → md_applyMapping m' ρ ⇓ m'' → md_applyMapping m (ρ ∘ₘ π) ⇓ m''.

#[export] Instance mergeable_transferable {JO : JsonOps} {MDI : MetaDataI} (good : MD → Prop)
    {MG : Mergeable good} : Transferable good.
Proof. intros m map m'. apply good_apply. Qed.

(** Function names identify the nodes. *)
Definition unique_names {JO : JsonOps} {MDI : MetaDataI} (g : Callgraph) : Prop :=
  ∀ i j n m, node_at g i = Some n → node_at g j = Some m → functionName n = functionName m → i = j.

Section renumbering.
Context {JO : JsonOps} {MDI : MetaDataI} {MDL : MetaDataLaws} {IO : IterOrder}.
Context (π : GraphMapping) (g g' : Callgraph).
Context (Hwf : wf g) (Hwf' : wf g') (Hr : renumbered π g g').

Lemma renumbered_back k n' : node_at g' k = Some n' →
  ∃ i n, π !! i = Some k ∧ node_at g i = Some n ∧ functionName n' = functionName n ∧
    origin n' = origin n ∧ hasBody n' = hasBody n ∧ md_related π (node_md n) (node_md n').
Proof using Hr.
  intros Hk. destruct (proj1 (rn_ran _ _ _ Hr k)) as [i Hi]; [by exists n'|].
  destruct (proj1 (rn_dom _ _ _ Hr i)) as [n Hn]; [by exists k|]. exists i, n.
  destruct (rn_node _ _ _ Hr i k n Hi Hn) as (m & Hm & Hrel). rewrite Hk in Hm. by injection Hm as <-.
Qed.

Lemma renumbered_forth i n : node_at g i = Some n →
  ∃ k n', π !! i = Some k ∧ node_at g' k = Some n' ∧ functionName n' = functionName n ∧
    origin n' = origin n ∧ hasBody n' = hasBody n ∧ md_related π (node_md n) (node_md n').
Proof using Hr.
  intros Hn. destruct (proj2 (rn_dom _ _ _ Hr i)) as [k Hk]; [by exists n|].
  destruct (rn_node _ _ _ Hr i k n Hk Hn) as (n' & Hn' & Hrel). by exists k, n'.
Qed.

Lemma renumbered_hasNode f : hasNode_name g' f = hasNode_name g f.
Proof using Hr Hwf Hwf'.
  apply eq_true_iff_eq. rewrite !hasNode_name_true by done. split.
  - intros (k & n' & (i & n & _ & Hn & Hf & _)%renumbered_back & <-). by exists i, n.
  - intros (i & n & (k & n' & _ & Hn & Hf & _)%renumbered_forth & <-). by exists k, n'.
Qed.

Lemma renumbered_existsAnyEdge s t : existsAnyEdge g' s t = existsAnyEdge g s t.
Proof using Hr Hwf Hwf'.
  apply eq_true_iff_eq. rewrite !existsAnyEdge_true by done. split.
  - intros (k & l & n' & m' & (i & n & Hi & Hn & Hf & _)%renumbered_back & <- &
      (j & m & Hj & Hm & Hf' & _)%renumbered_back & <- & He).
    exists i, j, n, m. split_and!; [done..|]. by apply (rn_edges _ _ _ Hr i j k l).
  - intros (i & j & n & m & (k & n' & Hi & Hn & Hf & _)%renumbered_forth & <- &
      (l & m' & Hj & Hm & Hf' & _)%renumbered_forth & <- & He).
    exists k, l, n', m'. split_and!; [done..|]. by apply (rn_edges _ _ _ Hr i j k l).
Qed.

Lemma renumbered_unique : unique_names g → unique_names g'.
Proof using Hr.
  intros Hu k l n' m' (i & n & Hi & Hn & Hf & _)%renumbered_back
    (j & m & Hj & Hm & Hf' & _)%renumbered_back Heq.
  rewrite Hf, Hf' in Heq. pose proof (Hu i j n m Hn Hm Heq). congruence.
Qed.

Context (rt : MD → Prop) {TR : Transferable rt}.

Lemma renumbered_md_ok m m' :
  named_md_ok rt (λ i, live g i) m → md_related π m m' → named_md_ok rt (λ i, live g' i) m'.
Proof using Hr MDL TR.
  intros [Hk Hall] Hm. split.
  - intros k md' (md & Hmd & Ha)%Hm. rewrite (md_applyMapping_key _ _ _ Ha). by apply Hk.
  - intros k md' (md & Hmd & Ha)%Hm. destruct (Hall k md Hmd) as [Hgood Hrefs]. split.
    + by eapply transfer_apply.
    + intros i Hi. destruct (md_applyMapping_refs _ _ _ Ha i Hi) as (j & _ & Hj).
      apply (rn_ran _ _ _ Hr). by exists j.
Qed.

Lemma renumbered_exportable b : exportable rt g b → as_read g' → exportable rt g' false.
Proof using Hr MDL TR.
  intros Hex [Hw He _]. split; [done|by apply distinct_ids_numbers| | |done|].
  - intros k n' (i & n & _ & Hn & -> & _)%renumbered_back. by eapply ex_names.
  - intros k n' (i & n & _ & Hn & _ & _ & _ & Hm)%renumbered_back.
    eapply renumbered_md_ok; [by eapply ex_nodes|done].
  - eapply renumbered_md_ok; [by eapply ex_global|apply (rn_md _ _ _ Hr)].
Qed.
End renumbering.


(** ** Chaining renumberings *)

Section chain.
Context {JO : JsonOps} {MDI : MetaDataI} {MDL : MetaDataLaws} {MC : MappingComposes}.
Context (rt : MD → Prop).

Lemma md_related_trans (π ρ : GraphMapping) (L L' : NodeId → Prop) m1 m2 m3 :
  named_md_ok rt L m1 → (∀ i, L i ↔ is_Some (π !! i)) → (∀ i k, π !! i = Some k → L' k) →
  (∀ k, L' k ↔ is_Some (ρ !! k)) →
  md_related π m1 m2 → md_related ρ m2 m3 → md_related (ρ ∘ₘ π) m1 m3.
Proof using MC MDL.
  intros [_ Hok] Hdom Hran Hdom' H12 H23 k md3. split.
  - intros (md2 & (md1 & H1 & Ha)%H12 & Ha')%H23. exists md1. split; [done|].
    by eapply md_applyMapping_compose.
  - intros (md1 & H1 & Ha). destruct (Hok k md1 H1) as [_ Hrefs].
    destruct (md_applyMapping_total md1 π) as [md2 Hmd2].
    { intros i Hi. by apply elem_of_dom, Hdom, Hrefs. }
    destruct (md_applyMapping_total md2 ρ) as [md3' Hmd3].
    { intros i Hi. apply elem_of_dom, Hdom'.
      destruct (md_applyMapping_refs _ _ _ Hmd2 i Hi) as (j & _ & Hj). by eapply Hran. }
    pose proof (md_applyMapping_compose _ _ _ _ _ Hmd2 Hmd3) as Hmd.
    assert (md3' = md3) as -> by congruence. apply H23. exists md2. split; [|done].
    apply H12. by exists md1.
Qed.

Lemma renumbered_trans π ρ g1 g2 g3 b :
  exportable rt g1 b → renumbered π g1 g2 → renumbered ρ g2 g3 → renumbered (ρ ∘ₘ π) g1 g3.
Proof using MC MDL.
  intros Hex H12 H23.
  assert (∀ i k, π !! i = Some k → live g2 k) as Hran.
  { intros i k Hi. apply (rn_ran _ _ _ H12). by exists i. }
  assert (∀ i, live g1 i ↔ is_Some (π !! i)) as Hdom by (intros i; symmetry; apply (rn_dom _ _ _ H12)).
  assert (∀ k, live g2 k ↔ is_Some (ρ !! k)) as Hdom' by (intros k; symmetry; apply (rn_dom _ _ _ H23)).
  assert (∀ m1 m2 m3, named_md_ok rt (λ i, live g1 i) m1 → md_related π m1 m2 → md_related ρ m2 m3 →
    md_related (ρ ∘ₘ π) m1 m3) as Hmd.
  { intros m1 m2 m3 Hm. by apply (md_related_trans π ρ (λ i, live g1 i) (λ i, live g2 i)). }
  split.
  - intros i. rewrite Hdom. split.
    + intros [l (k & Hk & _)%map_lookup_compose_Some]. by exists k.
    + intros [k Hk]. destruct (proj1 (Hdom' k) (Hran i k Hk)) as [l Hl].
      exists l. apply map_lookup_compose_Some. by exists k.
  - intros i j l (k & Hk & Hl)%map_lookup_compose_Some (k' & Hk' & Hl')%map_lookup_compose_Some.
    rewrite (rn_inj _ _ _ H23 k k' l Hl Hl') in Hk. by eapply (rn_inj _ _ _ H12).
  - intros l. rewrite (rn_ran _ _ _ H23). setoid_rewrite map_lookup_compose_Some. split.
    + intros [k Hk]. destruct (proj1 (rn_ran _ _ _ H12 k)) as [i Hi]; [apply Hdom'; by exists l|].
      by exists i, k.
    + intros (i & k & _ & Hk). by exists k.
  - intros i l n (k & Hk & Hl)%map_lookup_compose_Some Hn.
    destruct (rn_node _ _ _ H12 i k n Hk Hn) as (n2 & Hn2 & Hf & Ho & Hb & Hm).
    destruct (rn_node _ _ _ H23 k l n2 Hl Hn2) as (n3 & Hn3 & Hf' & Ho' & Hb' & Hm').
    exists n3. split_and!; [done|congruence..|]. eapply Hmd; [by eapply ex_nodes|done|done].
  - intros i j l l' (k & Hk & Hl)%map_lookup_compose_Some (k' & Hk' & Hl')%map_lookup_compose_Some.
    rewrite (rn_edges _ _ _ H12 i j k k') by done. by apply (rn_edges _ _ _ H23).
  - eapply Hmd; [by eapply ex_global|apply (rn_md _ _ _ H12)|apply (rn_md _ _ _ H23)].
Qed.
End chain.

(** ** Merging what was read *)

Section sources.
Context {JO : JsonOps} {MDI : MetaDataI} {MDL : MetaDataLaws}.
Context (good : MD → Prop).

Lemma exportable_md_ok g b : exportable good g b → graph_md_ok good g.
Proof.
  intros Hex. split; [by eapply ex_nodes| |by eapply ex_global].
  intros p m ->%(ex_edges _ _ _ Hex). split; [|apply map_Forall_empty].
  intros k md Hk. by rewrite lookup_empty in Hk.
Qed.

(** A graph that was read is a source for a merge. *)
Lemma read_source g b : exportable good g b → unique_names g → as_read g → good_source good g.
Proof.
  intros Hex Hu [Hwf He Hfull]. split; [by split| |done|by eapply exportable_md_ok|].
  - intros n [i Hi]%list_elem_of_lookup. by eapply (ex_names _ _ _ Hex i n), node_at_Some.
  - intros p m k ->%He [md Hk]. by rewrite lookup_empty in Hk.
Qed.

(** A consistent graph with good metadata can be written with numbers as
    identifiers. *)
Lemma merged_exportable g :
  wf g → graph_md_ok good g → edge_md_free g → hasNode_name g "" = false → exportable good g false.
Proof.
  intros Hwf [Hn _ Hg] He Hname. split; [done|by apply distinct_ids_numbers| |done|done|done].
  intros i n Hi Hf. apply not_true_iff_false in Hname. apply Hname, hasNode_name_true; [done|].
  by exists i, n.
Qed.
End sources.

(** ** Built-in metadata *)

Lemma applyMapping_ids_compose ids (π ρ : GraphMapping) ids' ids'' :
  applyMapping_ids ids π ⇓ ids' → applyMapping_ids ids' ρ ⇓ ids'' →
  applyMapping_ids ids (ρ ∘ₘ π) ⇓ ids''.
Proof.
  revert ids' ids''. induction ids as [|i ids IH]; intros ids' ids'' H1 H2; simpl in H1.
  - injection H1 as <-. done.
  - destruct (π !! i) as [k|] eqn:Hi; simpl in H1; [|done]. fold (applyMapping_ids ids π) in H1.
    apply bind_ret_inv in H1 as (l & Hl & [= <-]). simpl in H2.
    destruct (ρ !! k) as [j|] eqn:Hk; simpl in H2; [|done]. fold (applyMapping_ids l ρ) in H2.
    apply bind_ret_inv in H2 as (l' & Hl' & [= <-]). simpl.
    rewrite map_lookup_compose, Hi. simpl. rewrite Hk. simpl.
    fold (applyMapping_ids ids (ρ ∘ₘ π)). by rewrite (IH l l' Hl Hl').
Qed.

#[export] Instance builtin_composes {JO : JsonOps} : MappingComposes.
Proof.
  intros m π ρ m' m''. simpl. destruct m as [|[i|]| | | | | | | | | |[o b]|]; simpl;
    try (intros [= <-] [= <-]; done).
  - intros H1 H2. apply bind_ret_inv in H1 as (e & He & [= <-]). simpl in He.
    destruct (π !! i) as [k|] eqn:Hi; [|done]. injection He as <-. simpl in H2.
    rewrite map_lookup_compose, Hi. simpl. by destruct (ρ !! k).
  - unfold OverrideMD_applyMapping. intros H1 H2.
    apply bind_ret_inv in H1 as (i1 & H1 & [= <-]). apply bind_ret_inv in H1 as (o1 & Ho1 & H1).
    apply bind_ret_inv in H1 as (b1 & Hb1 & [= <-]).
    apply bind_ret_inv in H2 as (i2 & H2 & [= <-]). apply bind_ret_inv in H2 as (o2 & Ho2 & H2).
    apply bind_ret_inv in H2 as (b2 & Hb2 & [= <-]). cbn [overrides overriddenBy] in *.
    by rewrite (applyMapping_ids_compose _ _ _ _ _ Ho1 Ho2), bind_ret,
      (applyMapping_ids_compose _ _ _ _ _ Hb1 Hb2).
Qed.

(** The built-in metadata that can be merged and survives a file. *)
Definition portable (m : BuiltinMD) : Prop := combinable m ∧ writes_value m.

#[export] Instance portable_dec m : Decision (portable m).
Proof. unfold portable. destruct m; simpl; apply _. Defined.

Lemma portable_storable m : portable m → storable m.
Proof. intros [[Hv _] Hw]. by split. Qed.

#[export] Instance storable_transferable {JO : JsonOps} : Transferable storable.
Proof.
  intros m map m' [Hv Hw]. destruct m; simpl; intros H; invert_outcome; by split.
Qed.

#[export] Instance portable_RoundTrip {JO : JsonOps} {JL : JsonLaws} : RoundTrip portable.
Proof. intros m nts stn π Hm%portable_storable. by apply builtin_RoundTrip. Qed.

Lemma LoopCallDepthMD_merge_nonempty (this other : gmap string Z) :
  this ≠ ∅ → LoopCallDepthMD_merge this other ≠ ∅.
Proof.
  rewrite LoopCallDepthMD_merge_max. intros Hne Hemp. apply Hne, map_eq. intros k.
  assert (union_with (λ a b, Some (Z.max a b)) this other !! k = None) as Hnone by by rewrite Hemp.
  rewrite lookup_union_with in Hnone. rewrite lookup_empty. by destruct (this !! k), (other !! k).
Qed.

#[export] Instance portable_mergeable {JO : JsonOps} : Mergeable portable.
Proof.
  split.
  - intros a b act map [Ha Hwa] [Hb Hwb] Hk Hd.
    destruct (good_merge a b act map Ha Hb Hk Hd) as (c & Hc & Hgood).
    exists c. split; [done|]. split; [done|]. simpl in Hc, Hk.
    destruct a, b; simpl in Hc, Hk; try done; invert_outcome; simpl in *; try done.
    by apply LoopCallDepthMD_merge_nonempty.
  - intros m map m' [Hm Hw] Ha. split; [by apply (@good_apply JO builtin_md combinable _ m map)|].
    simpl in Ha. destruct m; simpl in Ha; invert_outcome; done.
Qed.
