(* ===== verification/Format2.v ===== *)
(** * File format 2

    [graph/src/io/VersionTwoMCGReader.cpp] and
    [graph/src/io/VersionTwoMCGWriter.cpp], which convert between format 2 and
    format 4 on the level of JSON, and the factories [createReader] and
    [createWriter] of [graph/src/io/MCGReader.cpp] and [MCGWriter.cpp]. *)

From S2P Require Import Prelude Json MetaData Util Callgraph Format4.

Section format2.
Context {JO : JsonOps} {MDI : MetaDataI} {IO : IterOrder}.

(** ** Reading: lifting a node to format 4 *)

(** [jNewCallees[jCallee] = {}] for every callee; a callee that is not a string
    makes the conversion of the key throw. *)
Definition upgrade_callees (jCallees : json) : outcome json :=
  foldM (λ jNewCallees jCallee, s ← jget_string jCallee; jset jNewCallees s jnull)
    (jobj ∅) (jelems jCallees).

Definition upgrade_origin (jNode : json) : outcome json :=
  jMeta ← jat jNode "meta";
  has ← (if jcontains jMeta "fileProperties" then
           fp ← jat jMeta "fileProperties"; o ← jat fp "origin"; s ← jget_string o;
           Ret (bool_decide (s ≠ ""))
         else Ret false);
  if (has : bool) then
    fp ← jat jMeta "fileProperties"; o ← jat fp "origin";
    jNode ← jset jNode "origin" o;
    jupdate_at jNode "meta" (λ jMeta,
      jupdate_at jMeta "fileProperties" (λ fp, jerase fp "origin"))
  else jset jNode "origin" jnull.

Definition upgrade_overrides (jNode : json) : outcome json :=
  o ← jat jNode "overrides";
  definesOverrideData ← (if negb (jempty o) then Ret true
                         else b ← jat jNode "overriddenBy"; Ret (negb (jempty b)));
  v ← jat jNode "isVirtual";
  v ← jget_bool v;
  if v || definesOverrideData then
    o ← jat jNode "overrides";
    b ← jat jNode "overriddenBy";
    jupdate_at jNode "meta" (λ jMeta,
      jset jMeta "overrideMD" (jfields [("overrides", jarr (jelems o));
                                        ("overriddenBy", jarr (jelems b))]))
  else Ret jNode.

(** The body of the loop over the nodes. *)
Definition upgrade_node (key : string) (jNode : json) : outcome json :=
  jNode ← jset jNode "functionName" (jstr key);
  jCallees ← jindex jNode "callees";
  jNewCallees ← upgrade_callees jCallees;
  jNode ← jerase jNode "callees";
  jNode ← jerase jNode "callers";
  jNode ← jset jNode "callees" jNewCallees;
  jNode ← upgrade_origin jNode;
  jNode ← upgrade_overrides jNode;
  jNode ← jerase jNode "isVirtual";
  jNode ← jerase jNode "doesOverride";
  jNode ← jerase jNode "overrides";
  jerase jNode "overriddenBy".

(** What is left of a container after its elements were moved out of it. *)
Definition moved_out (j : json) : json :=
  match jview j with
  | VObj m => jobj ((λ _, jnull) <$> m)
  | VArr l => jarr ((λ _, jnull) <$> l)
  | _ => j
  end.

(** [upgradeV2FormatToV4Format]: the nodes move below [nodes]; what they leave
    behind stays in the object, next to [nodes] and [meta]. *)
Definition upgradeV2FormatToV4Format (j : json) : outcome json :=
  jNodes ← foldM (λ jNodes '(key, jNode), jNode ← upgrade_node key jNode; jset jNodes key jNode)
             (jobj ∅) (jitems j);
  j ← jset (moved_out j) "nodes" jNodes;
  jset j "meta" (jobj ∅).

(** [mcgVersion.compare(0, 1, "2") == 0] *)
Definition starts_with_2 (s : string) : bool := bool_decide (String.substring 0 1 s = "2").

(** [VersionTwoMCGReader::read]: [at] on the field of the graph throws before
    the test that the field is there. *)
Definition read2 (u : nat) (j : json) : outcome (Callgraph * list FailedMetadata) :=
  if jis_null j then Throw (runtime_error "JSON source did not contain any data.")
  else
    noInfo ← (if negb (jcontains j "_MetaCG") then Ret true
              else m ← jat j "_MetaCG"; Ret (jis_null m));
    if (noInfo : bool) then Throw (runtime_error "Could not read version info from metacg file.")
    else
      mcgInfo ← jat j "_MetaCG";
      mcgVersion ← jat mcgInfo "version";
      mcgVersion ← jget_string mcgVersion;
      if negb (starts_with_2 mcgVersion)
      then Throw (runtime_error
             ("File is of version " +:+ mcgVersion +:+ ", this reader handles version 2.x"))
      else
        generator ← jat mcgInfo "generator";
        name ← jat generator "name";
        _ ← jget_string name;
        generatorVersion ← jat generator "version";
        generatorVersion ← jget_string generatorVersion;
        _ ← getMajorVersionFromString generatorVersion;
        _ ← getMinorVersionFromString generatorVersion;
        cg ← jat j "_CG";
        j ← (if jis_null cg then jset j "_CG" (jobj ∅) else Ret j);
        if negb (jcontains j "_CG")
        then Throw (runtime_error "The call graph in the metacg file was not found or null.")
        else
          j ← jupdate j "_CG" upgradeV2FormatToV4Format;
          j ← jupdate_at j "_MetaCG" (λ mcgInfo, jset mcgInfo "version" (jstr "4.0"));
          read4 u j.

(** ** Writing: lowering a node to format 2 *)

Definition downgrade_origin (jNode : json) : outcome json :=
  jMeta ← jindex jNode "meta";
  o ← jindex jNode "origin";
  if jcontains jMeta "fileProperties" then
    jupdate jNode "meta" (λ jMeta, jupdate jMeta "fileProperties" (λ fp,
      jset fp "origin" (if jis_null o then jstr "" else o)))
  else if negb (jis_null o) then
    jupdate jNode "meta" (λ jMeta, jset jMeta "fileProperties" (jfields [("origin", o)]))
  else Ret jNode.

Definition downgrade_overrides (jNode : json) : outcome json :=
  jNode ← jset jNode "isVirtual" (jbool false);
  jNode ← jset jNode "doesOverride" (jbool false);
  jNode ← jset jNode "overrides" (jarr []);
  jNode ← jset jNode "overriddenBy" (jarr []);
  jMeta ← jindex jNode "meta";
  if jcontains jMeta "overrideMD" then
    jNode ← jset jNode "isVirtual" (jbool true);
    jOverrideMD ← jindex jMeta "overrideMD";
    o ← jindex jOverrideMD "overrides";
    b ← jindex jOverrideMD "overriddenBy";
    jNode ← (if negb (jempty o)
             then jNode ← jset jNode "doesOverride" (jbool true); jset jNode "overrides" o
             else Ret jNode);
    jNode ← jset jNode "overriddenBy" b;
    jupdate jNode "meta" (λ jMeta, jerase jMeta "overrideMD")
  else Ret jNode.

(** The body of the first loop over the nodes. *)
Definition downgrade_node (jNode : json) : outcome json :=
  jNode ← jerase jNode "functionName";
  jCallees ← jindex jNode "callees";
  let jCalleesV2 := jarr ((λ e, jstr e.1) <$> jitems jCallees) in
  jNode ← jerase jNode "callees";
  jNode ← jset jNode "callers" (jarr []);
  jNode ← jset jNode "callees" jCalleesV2;
  jNode ← downgrade_origin jNode;
  jNode ← jerase jNode "origin";
  jNode ← downgrade_overrides jNode;
  jupdate jNode "meta" (λ jMeta, Ret (if jempty jMeta then jnull else jMeta)).

(** [jNodes[callee]["callers"].push_back(it.key())]; every callee of a file is
    one of its nodes, so that no key is added while the nodes are traversed. *)
Definition add_caller (key : string) (jNodes callee : json) : outcome json :=
  c ← jget_string callee;
  jupdate jNodes c (λ jNode, jupdate jNode "callers" (λ jCallers, jpush_back jCallers (jstr key))).

Definition add_callers (jNodes : json) (e : string * json) : outcome json :=
  jNode ← jindex jNodes e.1;
  jCallees ← jindex jNode "callees";
  foldM (add_caller e.1) jNodes (jelems jCallees).

Definition sort_callers (jNodes : json) (e : string * json) : outcome json :=
  jupdate jNodes e.1 (λ jNode, jupdate jNode "callers" (λ jCallers,
    match jview jCallers with VArr l => Ret (jarr (jsort l)) | _ => Ret jCallers end)).

(** [downgradeV4FormatToV2Format] *)
Definition downgradeV4FormatToV2Format (j : json) (sortCallers : bool) : outcome json :=
  j ← jerase j "meta";
  jNodes ← jindex j "nodes";
  jNodes ← foldM (λ jNodes e, jupdate jNodes e.1 downgrade_node) jNodes (jitems jNodes);
  jNodes ← foldM add_callers jNodes (jitems jNodes);
  if sortCallers then foldM sort_callers jNodes (jitems jNodes) else Ret jNodes.

(** [VersionTwoMCGWriter::write]; [fi4] is the file information of the writer
    for format 4 that it uses. *)
Definition write2 (fi fi4 : MCGFileInfo) (exportSorted : bool) (cg : Callgraph) : outcome json :=
  let j := attachMCGFormatHeader fi in
  v4Json ← write4 fi4 true exportSorted cg;
  jsonCG ← jindex v4Json (cgFieldName (formatInfo fi));
  jsonCG ← downgradeV4FormatToV2Format jsonCG exportSorted;
  jupdate_at j (cgFieldName (formatInfo fi)) (λ _, Ret jsonCG).

(** ** The factories *)

Inductive MCGReader := VersionTwoMCGReader | VersionFourMCGReader.
Inductive MCGWriter := VersionTwoMCGWriter | VersionFourMCGWriter.

(** [createReader], [None] for the null pointer. *)
Definition createReader (src : json) : outcome (option MCGReader) :=
  versionStr ← getFormatVersion src;
  if decide (versionStr = "2" ∨ versionStr = "2.0") then Ret (Some VersionTwoMCGReader)
  else if decide (versionStr = "3" ∨ versionStr = "3.0") then Ret None
  else if decide (versionStr = "4" ∨ versionStr = "4.0") then Ret (Some VersionFourMCGReader)
  else Ret None.

Definition read (r : MCGReader) (u : nat) (src : json) : outcome (Callgraph * list FailedMetadata) :=
  match r with VersionTwoMCGReader => read2 u src | VersionFourMCGReader => read4 u src end.

(** [createWriter] *)
Definition createWriter (version : Z) : option MCGWriter :=
  if decide (version = 2%Z) then Some VersionTwoMCGWriter
  else if decide (version = 4%Z) then Some VersionFourMCGWriter
  else None.

(** A writer made by the factory, with the default file information of its
    class for the generators [gen2] and [gen4], and its options. *)
Definition write (w : MCGWriter) (gen2 gen4 : MCGGeneratorVersionInfo)
    (useNamesAsIds exportSorted : bool) (cg : Callgraph) : outcome json :=
  let fi4 := mkFileInfo (MCGFileFormatInfo_new 4 0) gen4 in
  match w with
  | VersionTwoMCGWriter => write2 (getVersionTwoFileInfo gen2) fi4 exportSorted cg
  | VersionFourMCGWriter => write4 fi4 useNamesAsIds exportSorted cg
  end.

(** [writeActiveGraph] and [writeNamedGraph]: the graph the manager returned,
    null for an unknown one; the sink keeps its value then. *)
Definition write_graph (w : MCGWriter) (gen2 gen4 : MCGGeneratorVersionInfo)
    (useNamesAsIds exportSorted : bool) (cg : option Callgraph) (sink : json) : outcome json :=
  match cg with
  | None => Ret sink
  | Some cg => write w gen2 gen4 useNamesAsIds exportSorted cg
  end.
End format2.
