(* ===== verification/Format2Props.v ===== *)
(** * File format 2: what survives *)

From S2P Require Import Prelude Json MetaData BuiltinMD Util Callgraph.
From S2P Require Import CallgraphWf CallgraphOps CallgraphSpec CallgraphProps Merge MergeProps.
From S2P Require Import MergeExamples Format4 Roundtrip4 Format4Examples Format2.

Section node_roundtrip.
Context {JO : JsonOps} {JL : JsonLaws} {MDI : MetaDataI}.
Implicit Types (MM : gmap string json) (n : CgNode).

(** The object under [fileProperties], empty when there is none. *)
Definition fp_fields MM : gmap string json :=
  match MM !! "fileProperties" with
  | Some F => match jview F with VObj m => m | _ => ∅ end
  | None => ∅
  end.

(** Metadata after the origin was moved into it. *)
Definition with_origin MM (o : option string) : gmap string json :=
  match MM !! "fileProperties", o with
  | None, None => MM
  | _, _ => <["fileProperties" := jobj (<["origin" := jstr (default "" o)]> (fp_fields MM))]> MM
  end.

Definition meta_or_null MM : json := if decide (MM = ∅) then jnull else jobj MM.

(** What the two formats assume of the metadata of a node. *)
Record meta_shape MM : Prop := {
  ms_fp : ∀ F, MM !! "fileProperties" = Some F → F = jobj (fp_fields MM);
  ms_origin : fp_fields MM !! "origin" = None;
  ms_override : ∀ O, MM !! "overrideMD" = Some O →
    ∃ o b, O = jfields [("overrides", jarr o); ("overriddenBy", jarr b)]
}.

(** A node of a file of format 2. *)
Definition jnode2 (hb virt over : bool) (callees callers o b meta : json) : json :=
  jfields [("hasBody", jbool hb); ("isVirtual", jbool virt); ("doesOverride", jbool over);
           ("callees", callees); ("callers", callers); ("overrides", o); ("overriddenBy", b);
           ("meta", meta)].

Lemma jupdate_at_obj m k v f v' :
  m !! k = Some v → f v ⇓ v' → jupdate_at (jobj m) k f ⇓ jobj (<[k:=v']> m).
Proof.
  intros Hk Hf. unfold jupdate_at. rewrite (jat_obj _ _ _ Hk), bind_ret, Hf, bind_ret.
  apply jset_obj.
Qed.

Lemma jupdate_new m k f v' :
  m !! k = None → f jnull ⇓ v' → jupdate (jobj m) k f ⇓ jobj (<[k:=v']> m).
Proof.
  intros Hk Hf. unfold jupdate. rewrite (jindex_obj_none _ _ Hk), bind_ret, Hf, bind_ret.
  apply jset_obj.
Qed.

(** Moving the origin, for a node with the given metadata. *)
Lemma downgrade_origin_ok m n MM :
  meta_shape MM → m !! "meta" = Some (jobj MM) → m !! "origin" = Some (origin_json (origin n)) →
  downgrade_origin (jobj m) ⇓ jobj (<["meta" := jobj (with_origin MM (origin n))]> m).
Proof.
  intros Hms Hm Ho. unfold downgrade_origin.
  rewrite (jindex_obj _ _ _ Hm), bind_ret, (jindex_obj _ _ _ Ho), bind_ret, jcontains_obj.
  assert (jis_null (origin_json (origin n)) = bool_decide (origin n = None)) as ->.
  { unfold origin_json. destruct (origin n); by rewrite jis_null_jmk. }
  unfold with_origin. case_bool_decide as Hfp.
  - destruct Hfp as [F HF]. rewrite HF.
    erewrite jupdate_obj; [|exact Hm|].
    2: { eapply jupdate_obj; [exact HF|]. rewrite (ms_fp _ Hms _ HF) at 1. apply jset_obj. }
    unfold origin_json. destruct (origin n); by rewrite ?bool_decide_true, ?bool_decide_false by done.
  - apply eq_None_not_Some in Hfp. rewrite Hfp. destruct (origin n) as [s|]; cbn [negb].
    + rewrite bool_decide_false by done. cbn [negb].
      erewrite jupdate_obj; [|exact Hm|apply jset_obj]. unfold fp_fields. by rewrite Hfp.
    + rewrite bool_decide_true by done. cbn [negb]. by rewrite insert_id.
Qed.

Lemma with_origin_override MM o : with_origin MM o !! "overrideMD" = MM !! "overrideMD".
Proof. unfold with_origin. destruct (MM !! "fileProperties"), o; by rewrite ?lookup_insert_ne. Qed.

(** Objects built by setting the same fields in different orders. *)
Ltac jobj_eq :=
  apply (f_equal Ret), (f_equal jmk), (f_equal VObj), map_eq; intros ?;
  cbn [list_to_map foldr fst snd]; rewrite ?lookup_empty;
  repeat (rewrite lookup_insert || rewrite lookup_delete);
  repeat (case_decide; subst); done || congruence.

(** The override lists of a node, in format 2. *)
Definition ov_lists MM (o b : list json) : Prop :=
  MM !! "overrideMD" = Some (jfields [("overrides", jarr o); ("overriddenBy", jarr b)]) ∨
  (MM !! "overrideMD" = None ∧ o = [] ∧ b = []).

Lemma ov_lists_exist MM : meta_shape MM → ∃ o b, ov_lists MM o b.
Proof.
  intros Hms. destruct (MM !! "overrideMD") as [O|] eqn:HO.
  - destruct (ms_override _ Hms O HO) as (o & b & ->). exists o, b. by left.
  - exists [], []. right. by split_and!.
Qed.

Lemma ov_lists_origin MM og o b : ov_lists MM o b → ov_lists (with_origin MM og) o b.
Proof. unfold ov_lists. by rewrite with_origin_override. Qed.

Definition is_override MM : bool := bool_decide (is_Some (MM !! "overrideMD")).

Lemma jarr_empty l : jempty (jarr l) = bool_decide (l = []).
Proof. by rewrite jempty_spec, jview_jmk. Qed.

Lemma downgrade_overrides_ok m MM o b :
  ov_lists MM o b → m !! "meta" = Some (jobj MM) →
  downgrade_overrides (jobj m) ⇓ jobj (<["meta" := jobj (delete "overrideMD" MM)]>
    (<["overriddenBy" := jarr b]> (<["overrides" := jarr o]>
      (<["doesOverride" := jbool (negb (bool_decide (o = [])))]>
        (<["isVirtual" := jbool (is_override MM)]> m))))).
Proof.
  intros Hov Hm. unfold downgrade_overrides, is_override. do 4 rewrite jset_obj, bind_ret.
  erewrite jindex_obj by (rewrite !lookup_insert_ne by done; exact Hm).
  rewrite bind_ret, jcontains_obj. destruct Hov as [HO|(HO & -> & ->)]; rewrite HO.
  - rewrite bool_decide_true by (by eexists). rewrite jset_obj, bind_ret.
    rewrite (jindex_obj _ _ _ HO), bind_ret. unfold jfields.
    rewrite (jindex_obj _ "overrides" (jarr o)), bind_ret by done.
    rewrite (jindex_obj _ "overriddenBy" (jarr b)), bind_ret by done.
    rewrite jarr_empty. case_bool_decide as Ho; cbn [negb];
      rewrite ?jset_obj, ?bind_ret, ?jset_obj, ?bind_ret, ?jset_obj, ?bind_ret.
    + subst o. erewrite jupdate_obj;
        [|rewrite !lookup_insert_ne by done; exact Hm|apply jerase_obj].
      jobj_eq.
    + erewrite jupdate_obj; [|rewrite !lookup_insert_ne by done; exact Hm|apply jerase_obj].
      jobj_eq.
  - rewrite bool_decide_false by apply is_Some_None. rewrite delete_id by done.
    jobj_eq.
Qed.

(** The node that the writer makes for format 2. *)
Definition lowered n (C MM : gmap string json) (o b : list json) : json :=
  jnode2 (hasBody n) (is_override MM) (negb (bool_decide (o = [])))
    (jarr ((λ e, jstr e.1) <$> ordered_iter C)) (jarr []) (jarr o) (jarr b)
    (meta_or_null (delete "overrideMD" (with_origin MM (origin n)))).

Lemma downgrade_node_ok n C MM o b :
  meta_shape MM → ov_lists MM o b →
  downgrade_node (jnode n (jobj C) (jobj MM)) ⇓ lowered n C MM o b.
Proof.
  intros Hms Hov. unfold downgrade_node, jnode, jfields.
  rewrite jerase_obj, bind_ret, (jindex_obj _ "callees" (jobj C)), bind_ret by done.
  rewrite jitems_jobj, jerase_obj, bind_ret. do 2 rewrite jset_obj, bind_ret.
  rewrite (downgrade_origin_ok _ n MM Hms) by done. rewrite bind_ret, jerase_obj, bind_ret.
  erewrite downgrade_overrides_ok; [|exact (ov_lists_origin _ (origin n) _ _ Hov)|reflexivity].
  rewrite bind_ret. erewrite jupdate_obj; [|apply lookup_insert_eq|reflexivity].
  unfold lowered, jnode2, jfields, meta_or_null, is_override. rewrite jempty_obj, with_origin_override.
  rewrite (bool_decide_decide (delete "overrideMD" (with_origin MM (origin n)) = ∅)).
  destruct (decide (delete _ _ = ∅)); jobj_eq.
Qed.

(** *** Lifting the node again *)

Lemma upgrade_callees_ok C :
  upgrade_callees (jarr ((λ e : string * json, jstr e.1) <$> ordered_iter C)) ⇓ jobj ((λ _, jnull) <$> C).
Proof.
  unfold upgrade_callees. erewrite jelems_arr by apply jview_jmk.
  destruct (foldM_ind (λ dn j, ∃ M, j = jobj M ∧ ∀ k v, M !! k = Some v ↔ v = jnull ∧ jstr k ∈ dn)
    (λ jNewCallees jCallee, s ← jget_string jCallee; jset jNewCallees s jnull)
    ((λ e : string * json, jstr e.1) <$> ordered_iter C) (jobj ∅)) as (j & -> & M & -> & HM).
  - exists ∅. split; [done|]. intros k v. rewrite lookup_empty. set_solver.
  - intros dn x rest j Hl (M & -> & HM).
    assert (x ∈ (λ e : string * json, jstr e.1) <$> ordered_iter C) as Hx by (rewrite Hl; set_solver).
    apply list_elem_of_fmap in Hx as ([k w] & -> & _). rewrite jget_string_str, bind_ret, jset_obj.
    eexists. split; [done|]. eexists. split; [done|]. intros k' v.
    rewrite lookup_insert_Some, HM, elem_of_app, list_elem_of_singleton. cbn [fst].
    split; [intros [[<- <-]|(Hne & -> & ?)]; tauto|]. intros [-> [Hin|Heq]].
    + destruct (decide (k = k')); [by left|right]. by split_and!.
    + left. apply jmk_inj in Heq. split; congruence.
  - do 3 f_equal. apply map_eq. intros k. apply option_eq. intros v. rewrite HM, lookup_fmap.
    rewrite list_elem_of_fmap. split.
    + intros [-> ([k' w] & Heq & Hin%elem_of_ordered_iter)]. apply jmk_inj in Heq.
      injection Heq as ->. by rewrite Hin.
    + intros (w & Hw & <-)%fmap_Some. split; [done|]. exists (k, w).
      split; [done|by apply elem_of_ordered_iter].
Qed.

Lemma meta_or_null_fp N F : N !! "fileProperties" = Some F → meta_or_null N = jobj N.
Proof. intros HF. unfold meta_or_null. rewrite decide_False; [done|]. intros ->. done. Qed.

Lemma meta_or_null_contains N k : jcontains (meta_or_null N) k = bool_decide (is_Some (N !! k)).
Proof.
  unfold meta_or_null. case_decide; [|apply jcontains_obj]. subst.
  by rewrite jcontains_spec, jview_jmk, lookup_empty.
Qed.

Lemma upgrade_origin_none m N :
  m !! "meta" = Some (meta_or_null N) →
  (∀ F, N !! "fileProperties" = Some F → ∃ f, F = jobj f ∧ f !! "origin" = Some (jstr "")) →
  upgrade_origin (jobj m) ⇓ jobj (<["origin" := jnull]> m).
Proof.
  intros Hm Hfp. unfold upgrade_origin. rewrite (jat_obj _ _ _ Hm), bind_ret, meta_or_null_contains.
  destruct (N !! "fileProperties") as [F|] eqn:HF.
  - rewrite bool_decide_true by (by eexists). destruct (Hfp F eq_refl) as (f & -> & Hf).
    rewrite (meta_or_null_fp _ _ HF), (jat_obj _ _ _ HF), !bind_ret, (jat_obj _ _ _ Hf), !bind_ret.
    rewrite jget_string_str, !bind_ret. apply jset_obj.
  - rewrite bool_decide_false by apply is_Some_None. rewrite bind_ret. apply jset_obj.
Qed.

Lemma upgrade_origin_some m N f s :
  m !! "meta" = Some (meta_or_null N) → N !! "fileProperties" = Some (jobj f) →
  f !! "origin" = Some (jstr s) → s ≠ "" →
  upgrade_origin (jobj m) ⇓
    jobj (<["meta" := jobj (<["fileProperties" := jobj (delete "origin" f)]> N)]>
      (<["origin" := jstr s]> m)).
Proof.
  intros Hm HF Hf Hs. unfold upgrade_origin. rewrite (jat_obj _ _ _ Hm), bind_ret, meta_or_null_contains.
  rewrite HF, bool_decide_true by (by eexists).
  rewrite (meta_or_null_fp _ _ HF), (jat_obj _ _ _ HF), !bind_ret, (jat_obj _ _ _ Hf), !bind_ret.
  rewrite jget_string_str, !bind_ret, bool_decide_true, jset_obj, bind_ret by done.
  rewrite (meta_or_null_fp _ _ HF) in Hm. eapply jupdate_at_obj; [by rewrite lookup_insert_ne|].
  eapply jupdate_at_obj; [done|]. apply jerase_obj.
Qed.

Lemma upgrade_overrides_ok m meta N virt o b :
  m !! "meta" = Some meta → meta = meta_or_null N ∨ meta = jobj N →
  m !! "overrides" = Some (jarr o) → m !! "overriddenBy" = Some (jarr b) →
  m !! "isVirtual" = Some (jbool virt) → (virt = false → o = [] ∧ b = []) →
  upgrade_overrides (jobj m) ⇓
    jobj (if virt then <["meta" := jobj (<["overrideMD" := jfields [("overrides", jarr o);
                        ("overriddenBy", jarr b)]]> N)]> m else m).
Proof.
  intros Hm Hmeta Ho Hb Hv Hvo. unfold upgrade_overrides.
  rewrite (jat_obj _ _ _ Ho), bind_ret, (jat_obj _ _ _ Hb), bind_ret, (jat_obj _ _ _ Hv).
  rewrite !jarr_empty. destruct virt.
  - destruct (negb (bool_decide (o = []))); rewrite !bind_ret, jget_bool_bool, bind_ret; cbn [orb];
      rewrite ?bind_ret; erewrite !jelems_arr by apply jview_jmk; (eapply jupdate_at_obj; [done|]);
      (destruct Hmeta as [->| ->]; [|apply jset_obj]); unfold meta_or_null; case_decide;
      try apply jset_obj; subst N; by rewrite jset_spec, jview_jmk.
  - destruct (Hvo eq_refl) as [-> ->]. rewrite !bool_decide_true by done.
    cbn [negb]. rewrite !bind_ret, jget_bool_bool. by rewrite bind_ret, jarr_empty.
Qed.

(** The metadata of a node after it went through format 2. *)
Definition v2_meta (og : option string) MM : gmap string json :=
  if decide (og = None ∨ og = Some "") then with_origin MM og
  else <["fileProperties" := jobj (fp_fields MM)]> MM.

Definition v2_origin (og : option string) : option string :=
  if decide (og = Some "") then None else og.

Lemma with_origin_fp MM og F :
  with_origin MM og !! "fileProperties" = Some F →
  F = jobj (<["origin" := jstr (default "" og)]> (fp_fields MM)).
Proof.
  unfold with_origin. destruct (MM !! "fileProperties") as [G|] eqn:HG, og;
    rewrite ?lookup_insert_eq; congruence.
Qed.

Lemma delete_override_meta MM og o b :
  ov_lists MM o b →
  (if is_override MM
   then jobj (<["overrideMD" := jfields [("overrides", jarr o); ("overriddenBy", jarr b)]]>
          (delete "overrideMD" (with_origin MM og)))
   else meta_or_null (delete "overrideMD" (with_origin MM og))) = meta_or_null (with_origin MM og).
Proof.
  intros Hov. pose proof (ov_lists_origin MM og o b Hov) as Hov'. unfold is_override.
  destruct Hov as [HO|(HO & _ & _)]; rewrite HO.
  - rewrite bool_decide_true by (by eexists). destruct Hov' as [HO'|(HO' & _ & _)];
      [|rewrite with_origin_override in HO'; congruence].
    rewrite insert_delete_id by done. unfold meta_or_null. rewrite decide_False; [done|].
    intros He. by rewrite He in HO'.
  - rewrite bool_decide_false by apply is_Some_None. rewrite delete_id; [done|].
    by rewrite with_origin_override.
Qed.

(** The override lists are put back into metadata [N] that lost them. *)
Lemma override_back MM N o b :
  ov_lists MM o b →
  (∀ k, k ≠ "overrideMD" → N !! k = <["fileProperties" := jobj (fp_fields MM)]> MM !! k) →
  N !! "overrideMD" = None →
  (if is_override MM
   then <["overrideMD" := jfields [("overrides", jarr o); ("overriddenBy", jarr b)]]> N else N) =
  <["fileProperties" := jobj (fp_fields MM)]> MM.
Proof.
  intros Hov HN Hno. apply map_eq. intros k. unfold is_override.
  destruct (decide (k = "overrideMD")) as [->|Hk].
  - rewrite (lookup_insert_ne MM) by done. destruct Hov as [HO|(HO & _ & _)]; rewrite HO.
    + by rewrite bool_decide_true, lookup_insert_eq by (by eexists).
    + by rewrite bool_decide_false by apply is_Some_None.
  - rewrite <- HN by done. case_bool_decide; [|done]. by rewrite lookup_insert_ne.
Qed.

Lemma lift_lowered_none n (C MM : gmap string json) o b callers :
  meta_shape MM → ov_lists MM o b → origin n = None ∨ origin n = Some "" →
  (j ← jset (lowered n C MM o b) "callers" callers; upgrade_node (functionName n) j) ⇓
  jnode (setOrigin None n) (jobj ((λ _, jnull) <$> C)) (meta_or_null (with_origin MM (origin n))).
Proof.
  intros Hms Hov Hog. unfold lowered, jnode2, jfields. rewrite jset_obj, bind_ret.
  unfold upgrade_node. rewrite jset_obj, bind_ret. 
  rewrite (jindex_obj _ "callees" (jarr ((λ e : string * json, jstr e.1) <$> ordered_iter C))) by done.
  rewrite bind_ret, upgrade_callees_ok, bind_ret. do 2 rewrite jerase_obj, bind_ret.
  rewrite jset_obj, bind_ret.
  erewrite upgrade_origin_none; [|reflexivity|].
  2: { intros F [_ HF]%lookup_delete_Some. apply with_origin_fp in HF as ->. eexists. split; [done|].
       rewrite lookup_insert_eq. by destruct Hog as [-> | ->]. }
  rewrite bind_ret. erewrite (upgrade_overrides_ok _ _ _ (is_override MM) o b);
    [|reflexivity|left; reflexivity|reflexivity..|].
  2: { unfold is_override. intros Hf%bool_decide_eq_false. destruct Hov as [HO|(_ & ? & ?)]; [|done].
       destruct Hf. by eexists. }
  rewrite bind_ret. do 4 rewrite jerase_obj, ?bind_ret.
  rewrite <- (delete_override_meta MM (origin n) o b Hov). unfold jnode, jfields.
  destruct (is_override MM); jobj_eq.
Qed.

Lemma lift_lowered_some n (C MM : gmap string json) o b callers s :
  meta_shape MM → ov_lists MM o b → origin n = Some s → s ≠ "" →
  (j ← jset (lowered n C MM o b) "callers" callers; upgrade_node (functionName n) j) ⇓
  jnode n (jobj ((λ _, jnull) <$> C)) (jobj (<["fileProperties" := jobj (fp_fields MM)]> MM)).
Proof.
  intros Hms Hov Hog Hs. unfold lowered, jnode2, jfields. rewrite jset_obj, bind_ret.
  unfold upgrade_node. rewrite jset_obj, bind_ret. 
  rewrite (jindex_obj _ "callees" (jarr ((λ e : string * json, jstr e.1) <$> ordered_iter C))) by done.
  rewrite bind_ret, upgrade_callees_ok, bind_ret. do 2 rewrite jerase_obj, bind_ret.
  rewrite jset_obj, bind_ret. set (N := delete "overrideMD" (with_origin MM (origin n))).
  assert (N !! "fileProperties" = Some (jobj (<["origin" := jstr s]> (fp_fields MM)))) as HN.
  { unfold N. rewrite lookup_delete_ne by done. rewrite Hog. unfold with_origin.
    destruct (MM !! "fileProperties"); by rewrite lookup_insert_eq. }
  erewrite (upgrade_origin_some _ N _ s); [|reflexivity|exact HN|apply lookup_insert_eq|done].
  rewrite bind_ret. erewrite (upgrade_overrides_ok _ _ _ (is_override MM) o b);
    [|reflexivity|right; reflexivity|reflexivity..|].
  2: { unfold is_override. intros Hf%bool_decide_eq_false. destruct Hov as [HO|(_ & ? & ?)]; [|done].
       destruct Hf. by eexists. }
  rewrite bind_ret. do 4 rewrite jerase_obj, ?bind_ret. unfold jnode, jfields.
  rewrite delete_insert_id by apply Hms.
  rewrite <- (override_back MM (<["fileProperties" := jobj (fp_fields MM)]> N) o b Hov).
  - destruct (is_override MM); rewrite ?Hog; jobj_eq.
  - intros k Hk. unfold N. rewrite Hog. unfold with_origin.
    destruct (MM !! "fileProperties"); rewrite !lookup_insert, lookup_delete_ne, ?lookup_insert by done;
      by repeat case_decide.
  - unfold N. by rewrite lookup_insert_ne, lookup_delete_eq.
Qed.

Lemma lift_lowered n (C MM : gmap string json) o b callers :
  meta_shape MM → ov_lists MM o b →
  (j ← jset (lowered n C MM o b) "callers" callers; upgrade_node (functionName n) j) ⇓
  jnode (setOrigin (v2_origin (origin n)) n) (jobj ((λ _, jnull) <$> C))
    (meta_or_null (v2_meta (origin n) MM)).
Proof.
  intros Hms Hov. unfold v2_origin, v2_meta.
  destruct (origin n) as [s|] eqn:Hog; [destruct (decide (s = "")) as [->|Hs]|].
  - rewrite !decide_True by auto. rewrite (lift_lowered_none n C MM o b) by auto. by rewrite Hog.
  - rewrite !decide_False by naive_solver. rewrite (lift_lowered_some n C MM o b callers s) by done.
    unfold meta_or_null. rewrite decide_False by apply insert_non_empty.
    destruct n; simpl in *; by subst.
  - rewrite decide_False, decide_True by auto. rewrite (lift_lowered_none n C MM o b) by auto.
    by rewrite Hog.
Qed.

(** A node that is lowered to format 2 and lifted again keeps its name, its
    body flag, its callees and its metadata; an empty origin becomes a missing
    one, and a present origin leaves an object under [fileProperties] behind. *)
Theorem v2_node_roundtrip n (C MM : gmap string json) :
  meta_shape MM → ∃ j, downgrade_node (jnode n (jobj C) (jobj MM)) ⇓ j ∧
    ∀ callers, (j ← jset j "callers" callers; upgrade_node (functionName n) j) ⇓
      jnode (setOrigin (v2_origin (origin n)) n) (jobj ((λ _, jnull) <$> C))
        (meta_or_null (v2_meta (origin n) MM)).
Proof.
  intros Hms. destruct (ov_lists_exist MM Hms) as (o & b & Hov). eexists.
  split; [by apply (downgrade_node_ok n C MM o b)|]. intros callers. by apply lift_lowered.
Qed.

(** ** Callers *)

(** Objects that list [callees]. *)
Definition lists_callees (f : gmap string json) (cs : list string) : Prop :=
  f !! "callees" = Some (jarr ((λ c, jstr c) <$> cs)).

Definition with_callers (f : gmap string json) (l : list string) : json :=
  jobj (<["callers" := jarr ((λ c, jstr c) <$> l)]> f).

Section callers.
Context (F : gmap string (gmap string json)) (CS : string → list string).
Context (Hcs : ∀ a f, F !! a = Some f → lists_callees f (CS a)).
Context (Hclosed : ∀ a f c, F !! a = Some f → c ∈ CS a → is_Some (F !! c)).
Context (Hnd : ∀ a, NoDup (CS a)).

(** The file in which node [k] has the callers [L k]. *)
Definition file_with (L : string → list string) : gmap string json :=
  map_imap (λ k f, Some (with_callers f (L k))) F.

Lemma file_with_lookup L k : file_with L !! k = (λ f, with_callers f (L k)) <$> F !! k.
Proof. unfold file_with. rewrite map_lookup_imap. by destruct (F !! k). Qed.

Lemma file_with_ext L L' : (∀ k, L k = L' k) → jobj (file_with L) = jobj (file_with L').
Proof.
  intros HL. apply (f_equal jmk), (f_equal VObj), map_imap_ext. intros k.
  destruct (F !! k); simpl; [|done]. by rewrite HL.
Qed.

Lemma add_caller_ok L a c :
  is_Some (F !! c) → add_caller a (jobj (file_with L)) (jstr c) ⇓
    jobj (file_with (λ k, if decide (k = c) then L k ++ [a] else L k)).
Proof using All.
  intros [f Hf]. unfold add_caller. rewrite jget_string_str, bind_ret.
  erewrite jupdate_obj;
    [|by rewrite file_with_lookup, Hf|eapply jupdate_obj; [apply lookup_insert_eq|apply jpush_back_arr]].
  apply (f_equal Ret), (f_equal jmk), (f_equal VObj), map_eq. intros k.
  rewrite lookup_insert, !file_with_lookup. case_decide as Hk; [|by rewrite decide_False by congruence].
  subst k. rewrite Hf. cbn. unfold with_callers. rewrite insert_insert_eq, decide_True by done.
  by rewrite fmap_app.
Qed.

Lemma add_caller_all L a cs :
  NoDup cs → (∀ c, c ∈ cs → is_Some (F !! c)) →
  foldM (add_caller a) (jobj (file_with L)) ((λ c, jstr c) <$> cs) ⇓
    jobj (file_with (λ k, if decide (k ∈ cs) then L k ++ [a] else L k)).
Proof using All.
  revert L. induction cs as [|c cs IH]; intros L Hn Hin; cbn [fmap list_fmap foldM].
  - reflexivity.
  - apply NoDup_cons in Hn as [Hc Hn]. rewrite add_caller_ok by (apply Hin; set_solver).
    rewrite bind_ret, IH by (done || set_solver). apply (f_equal Ret), file_with_ext. intros k.
    destruct (decide (k = c)) as [->|Hk].
    + by rewrite decide_False, decide_True by set_solver.
    + destruct (decide (k ∈ cs)); [rewrite decide_True by set_solver|rewrite decide_False by set_solver]; done.
Qed.

(** The names among [l] that call [k]. *)
Definition callers_among (l : list string) (k : string) : list string := filter (λ a, k ∈ CS a) l.

Lemma add_callers_all l :
  (∀ e, e ∈ l → is_Some (F !! e.1)) →
  foldM add_callers (jobj (file_with (λ _, []))) l ⇓ jobj (file_with (callers_among l.*1)).
Proof using All.
  intros Hl. destruct (foldM_ind (λ dn j, j = jobj (file_with (callers_among dn.*1)))
    add_callers l (jobj (file_with (λ _, [])))) as (j & Hj & ->); [done| |done].
  intros dn [a v] rest j -> ->. destruct (Hl (a, v)) as [f Hf]; [set_solver|].
  unfold add_callers. cbn [fst] in *. eexists. split.
  { erewrite jindex_obj by (by rewrite file_with_lookup, Hf). rewrite bind_ret. unfold with_callers.
    erewrite jindex_obj by (rewrite lookup_insert_ne by done; by apply (Hcs _ _ Hf)).
    rewrite bind_ret. erewrite jelems_arr by apply jview_jmk. apply add_caller_all; [done|].
    intros c Hc. by eapply Hclosed. }
  apply file_with_ext. intros k. unfold callers_among. rewrite fmap_app, filter_app. cbn.
  case_decide; [done|by rewrite app_nil_r].
Qed.
End callers.

(** ** Whole files *)

(** Every entry of an object replaced by a value that depends on its key. *)
Definition rekey (g : string → json) (M : gmap string json) : gmap string json :=
  map_imap (λ k _, Some (g k)) M.

Lemma rekey_lookup g M k : rekey g M !! k = (λ _, g k) <$> M !! k.
Proof. unfold rekey. rewrite map_lookup_imap. by destruct (M !! k). Qed.

Lemma rekey_Some g M k v : rekey g M !! k = Some v → v = g k ∧ is_Some (M !! k).
Proof. rewrite rekey_lookup. intros (w & Hw & Hv)%fmap_Some. split; [done|by exists w]. Qed.

Lemma foldM_jupdate (f : json → outcome json) (g : string → json) M :
  (∀ k v, M !! k = Some v → f v ⇓ g k) →
  foldM (λ j e, jupdate j e.1 f) (jobj M) (ordered_iter M) ⇓ jobj (rekey g M).
Proof.
  intros Hf. destruct (foldM_ind (λ dn j, ∃ M', j = jobj M' ∧
      ∀ k, M' !! k = if decide (k ∈ dn.*1) then (λ _, g k) <$> M !! k else M !! k)
    (λ j e, jupdate j e.1 f) (ordered_iter M) (jobj M)) as (j & -> & M' & -> & HM').
  - exists M. split; [done|]. intros k. by rewrite decide_False by apply not_elem_of_nil.
  - intros dn [k v] rest j Hl (M' & -> & HM').
    assert (M !! k = Some v) as Hk by (apply elem_of_ordered_iter; rewrite Hl; set_solver).
    assert (k ∉ dn.*1) as Hno.
    { pose proof (ordered_iter_NoDup_fst M) as Hnd. rewrite Hl, fmap_app in Hnd.
      apply NoDup_app in Hnd as (_ & Hnd & _). intros ?. apply (Hnd k); [done|set_solver]. }
    cbn [fst]. erewrite jupdate_obj; [|rewrite HM'; by rewrite decide_False by done|by apply Hf].
    eexists. split; [done|]. eexists. split; [done|]. intros k'. rewrite lookup_insert, HM', fmap_app.
    case_decide as Heq; [subst k'; rewrite decide_True by set_solver; by rewrite Hk|].
    destruct (decide (k' ∈ dn.*1)); [rewrite decide_True by set_solver; done|].
    rewrite decide_False; [done|]. cbn. set_solver.
  - apply (f_equal Ret), (f_equal jmk), (f_equal VObj), map_eq. intros k. rewrite HM', rekey_lookup.
    case_decide as Hin; [done|]. destruct (M !! k) as [v|] eqn:Hk; [|done]. destruct Hin.
    apply list_elem_of_fmap. exists (k, v). split; [done|]. by apply elem_of_ordered_iter.
Qed.

Lemma foldM_jbuild (f : string → json → outcome json) (g : string → json) M :
  (∀ k v, M !! k = Some v → f k v ⇓ g k) →
  foldM (λ j '(k, v), w ← f k v; jset j k w) (jobj ∅) (ordered_iter M) ⇓ jobj (rekey g M).
Proof.
  intros Hf. destruct (foldM_ind (λ dn j, ∃ M', j = jobj M' ∧
      ∀ k w, M' !! k = Some w ↔ w = g k ∧ k ∈ dn.*1)
    (λ j '(k, v), w ← f k v; jset j k w) (ordered_iter M) (jobj ∅)) as (j & -> & M' & -> & HM').
  - exists ∅. split; [done|]. intros k w. rewrite lookup_empty. set_solver.
  - intros dn [k v] rest j Hl (M' & -> & HM').
    assert (M !! k = Some v) as Hk by (apply elem_of_ordered_iter; rewrite Hl; set_solver).
    rewrite (Hf _ _ Hk), bind_ret, jset_obj. eexists. split; [done|]. eexists. split; [done|].
    intros k' w. rewrite lookup_insert_Some, HM', fmap_app, elem_of_app. cbn.
    rewrite list_elem_of_singleton. destruct (decide (k = k')) as [->|]; naive_solver.
  - apply (f_equal Ret), (f_equal jmk), (f_equal VObj), map_eq. intros k. apply option_eq. intros w.
    rewrite HM', rekey_lookup, list_elem_of_fmap. split.
    + intros [-> ([k' v] & -> & Hv%elem_of_ordered_iter)]. simpl. by rewrite Hv.
    + intros (v & Hv & <-)%fmap_Some. split; [done|]. exists (k, v).
      split; [done|by apply elem_of_ordered_iter].
Qed.

(** The override lists, as the conversion finds them. *)
Definition list_field (m : gmap string json) (k : string) : list json :=
  match m !! k with Some a => match jview a with VArr l => l | _ => [] end | None => [] end.

Lemma list_field_arr m k l : m !! k = Some (jarr l) → list_field m k = l.
Proof. intros Hk. unfold list_field. by rewrite Hk, jview_jmk. Qed.

Definition ov_of MM : list json * list json :=
  match MM !! "overrideMD" with
  | Some Ov => match jview Ov with
              | VObj m => (list_field m "overrides", list_field m "overriddenBy")
              | _ => ([], [])
              end
  | None => ([], [])
  end.

Lemma ov_of_lists MM : meta_shape MM → ov_lists MM (ov_of MM).1 (ov_of MM).2.
Proof.
  intros Hms. unfold ov_of, ov_lists. destruct (MM !! "overrideMD") as [O|] eqn:HO; [left|by right].
  destruct (ms_override _ Hms O HO) as (o & b & ->). unfold jfields at 3 4. rewrite !jview_jmk.
  cbn [fst snd]. rewrite (list_field_arr _ "overrides" o), (list_field_arr _ "overriddenBy" b) by done.
  done.
Qed.

Section files.
Context (M : gmap string json) (N : string → CgNode) (C MM : string → gmap string json).

(** The nodes of a file of format 4, under their names. *)
Definition v4_file : Prop := ∀ s v, M !! s = Some v →
  v = jnode (N s) (jobj (C s)) (jobj (MM s)) ∧ functionName (N s) = s ∧ meta_shape (MM s) ∧
  ∀ t, is_Some (C s !! t) → is_Some (M !! t).

Context (HM : v4_file).

Definition lowered_at (s : string) : json :=
  lowered (N s) (C s) (MM s) (ov_of (MM s)).1 (ov_of (MM s)).2.

Definition lowered_fields (s : string) : gmap string json :=
  match jview (lowered_at s) with VObj f => f | _ => ∅ end.

Definition callee_names (s : string) : list string := (ordered_iter (C s)).*1.

Lemma lowered_fields_ok s :
  lowered_at s = jobj (lowered_fields s) ∧ lists_callees (lowered_fields s) (callee_names s) ∧
  with_callers (lowered_fields s) [] = lowered_at s.
Proof.
  unfold lowered_fields, lowered_at, lowered, jnode2, jfields, lists_callees, with_callers.
  rewrite jview_jmk. split_and!; [done| |].
  - unfold callee_names. by rewrite <- list_fmap_compose.
  - by rewrite insert_id.
Qed.

Definition lowered_file : gmap string (gmap string json) :=
  map_imap (λ s _, Some (lowered_fields s)) M.

Lemma lowered_file_lookup s : lowered_file !! s = (λ _, lowered_fields s) <$> M !! s.
Proof. unfold lowered_file. rewrite map_lookup_imap. by destruct (M !! s). Qed.

(** The names of the functions that call [t], in the order of the file. *)
Definition callers_of (t : string) : list string :=
  filter (λ s, is_Some (C s !! t)) (ordered_iter M).*1.

Lemma callers_of_among (l : list string) t :
  filter (λ s, t ∈ callee_names s) l = filter (λ s, is_Some (C s !! t)) l.
Proof.
  apply filter_iff_in. intros s _. unfold callee_names. rewrite list_elem_of_fmap. split.
  - intros ([t' w] & -> & Hw%elem_of_ordered_iter). by exists w.
  - intros [w Hw]. exists (t, w). split; [done|]. by apply elem_of_ordered_iter.
Qed.

Lemma first_passes :
  (jNodes ← foldM (λ jNodes e, jupdate jNodes e.1 downgrade_node) (jobj M) (ordered_iter M);
   foldM add_callers jNodes (jitems jNodes)) ⇓
  jobj (rekey (λ s, with_callers (lowered_fields s) (callers_of s)) M).
Proof using All.
  erewrite (foldM_jupdate _ lowered_at).
  2: { intros s v Hv. destruct (HM s v Hv) as (-> & _ & Hms & _).
       unfold lowered_at. rewrite (downgrade_node_ok (N s) (C s) (MM s) _ _ Hms (ov_of_lists _ Hms)).
       reflexivity. }
  rewrite bind_ret, jitems_jobj.
  assert (rekey lowered_at M = file_with lowered_file (λ _, [])) as Heq.
  { apply map_eq. intros s. rewrite rekey_lookup, file_with_lookup, lowered_file_lookup.
    destruct (M !! s); [|done]. cbn. by rewrite (proj2 (proj2 (lowered_fields_ok s))). }
  assert ((ordered_iter (rekey lowered_at M)).*1 = (ordered_iter M).*1) as Hkeys.
  { apply ordered_keys_dom. intros s. rewrite rekey_lookup. apply fmap_is_Some. }
  rewrite Heq in Hkeys |- *. rewrite (add_callers_all lowered_file callee_names).
  - rewrite Hkeys. apply (f_equal Ret), (f_equal jmk), (f_equal VObj), map_eq. intros s.
    rewrite file_with_lookup, lowered_file_lookup, rekey_lookup. destruct (M !! s); [|done].
    cbn. unfold callers_among, callers_of. by rewrite callers_of_among.
  - intros a f. rewrite lowered_file_lookup. intros (v & _ & Hf)%fmap_Some. cbn in Hf. subst f.
    exact (proj1 (proj2 (lowered_fields_ok a))).
  - intros a f c. rewrite !lowered_file_lookup, fmap_is_Some. intros (v & Hv & _)%fmap_Some Hc.
    destruct (HM a v Hv) as (_ & _ & _ & Hcl). apply Hcl. unfold callee_names in Hc.
    apply list_elem_of_fmap in Hc as ([t w] & -> & Hw%elem_of_ordered_iter). by exists w.
  - intros a. apply ordered_iter_NoDup_fst.
  - intros [s w] Hs%elem_of_ordered_iter. rewrite file_with_lookup in Hs. cbn [fst].
    by destruct (lowered_file !! s).
Qed.

(** The value of [callers] in the file. *)
Definition callers_json (sorted : bool) (s : string) : list json :=
  let l := (λ c, jstr c) <$> callers_of s in if sorted then jsort l else l.

Definition file2_node (sorted : bool) (s : string) : json :=
  jobj (<["callers" := jarr (callers_json sorted s)]> (lowered_fields s)).

Lemma downgrade_file g sorted :
  downgradeV4FormatToV2Format (jobj (<["meta" := g]> {["nodes" := jobj M]})) sorted ⇓
    jobj (rekey (file2_node sorted) M).
Proof using All.
  unfold downgradeV4FormatToV2Format. rewrite jerase_obj, bind_ret.
  rewrite (jindex_obj _ "nodes" (jobj M)), bind_ret, jitems_jobj by done.
  pose proof first_passes as Hfp. apply bind_ret_inv in Hfp as (j1 & H1 & H2).
  rewrite H1, bind_ret, H2, bind_ret. destruct sorted; [|done]. rewrite jitems_jobj.
  unfold sort_callers. erewrite (foldM_jupdate _ (file2_node true)).
  - apply (f_equal Ret), (f_equal jmk), (f_equal VObj), map_eq. intros s.
    rewrite !rekey_lookup. by destruct (M !! s).
  - intros s v. intros [-> _]%rekey_Some. unfold with_callers.
    erewrite jupdate_obj; [|apply lookup_insert_eq|by rewrite jview_jmk].
    by rewrite insert_insert_eq.
Qed.

(** What the nodes of the file are after they were lowered and lifted. *)
Definition lifted_node (s : string) : json :=
  jnode (setOrigin (v2_origin (origin (N s))) (N s)) (jobj ((λ _, jnull) <$> C s))
    (meta_or_null (v2_meta (origin (N s)) (MM s))).

Lemma upgrade_file sorted :
  upgradeV2FormatToV4Format (jobj (rekey (file2_node sorted) M)) ⇓
    jobj (<["meta" := jobj ∅]> (<["nodes" := jobj (rekey lifted_node M)]>
      ((λ _, jnull) <$> rekey (file2_node sorted) M))).
Proof using All.
  unfold upgradeV2FormatToV4Format. rewrite jitems_jobj.
  rewrite (foldM_jbuild upgrade_node lifted_node).
  - rewrite bind_ret. unfold moved_out. rewrite jview_jmk, jset_obj, bind_ret, jset_obj.
    apply (f_equal Ret), (f_equal jmk), (f_equal VObj). f_equal. f_equal. f_equal. f_equal.
    apply map_eq. intros s. rewrite !rekey_lookup. by destruct (M !! s).
  - intros s v [-> [w Hw]]%rekey_Some. destruct (HM s w Hw) as (_ & Hname & Hms & _).
    destruct (lowered_fields_ok s) as (Heq & _ & _). unfold file2_node, lifted_node.
    pose proof (ov_of_lists (MM s) Hms) as Hov.
    pose proof (lift_lowered (N s) (C s) (MM s) _ _ (jarr (callers_json sorted s)) Hms Hov) as Hup.
    rewrite Hname in Hup. fold (lowered_at s) in Hup. by rewrite Heq, jset_obj, bind_ret in Hup.
Qed.
End files.

(** In a file lowered to format 2, [callees] and [callers] mirror each
    other: every node lists exactly the callees it had, and [callers] of a node
    are, each once, the nodes that have it as a callee. *)
Theorem downgrade_mirrors_callers (M : gmap string json) N C (MM : string → gmap string json) g sorted :
  v4_file M N C MM →
  ∃ F, downgradeV4FormatToV2Format (jobj (<["meta" := g]> {["nodes" := jobj M]})) sorted ⇓ jobj F ∧
    (∀ s, is_Some (F !! s) ↔ is_Some (M !! s)) ∧
    ∀ s v, F !! s = Some v → ∃ callers,
      jat v "callees" ⇓ jarr ((λ e : string * json, jstr e.1) <$> ordered_iter (C s)) ∧
      jat v "callers" ⇓ jarr callers ∧ NoDup callers ∧
      ∀ c, c ∈ callers ↔ ∃ a, c = jstr a ∧ is_Some (M !! a) ∧ is_Some (C a !! s).
Proof.
  intros HM. eexists. split; [by apply (downgrade_file M N C MM HM)|]. split.
  - intros s. rewrite rekey_lookup. apply fmap_is_Some.
  - intros s v [-> _]%rekey_Some. exists (callers_json M C sorted s). unfold file2_node.
    destruct (lowered_fields_ok N C MM s) as (_ & Hc & _). unfold lists_callees, callee_names in Hc.
    rewrite <- list_fmap_compose in Hc.
    assert (callers_json M C sorted s ≡ₚ (λ c, jstr c) <$> callers_of M C s) as Hperm.
    { unfold callers_json. destruct sorted; [apply jsort_perm|done]. }
    split_and!.
    + apply jat_obj. by rewrite lookup_insert_ne.
    + apply jat_obj, lookup_insert_eq.
    + rewrite Hperm. apply NoDup_fmap_2_strong.
      * intros x y _ _ Heq%jmk_inj. by injection Heq.
      * apply NoDup_filter, ordered_iter_NoDup_fst.
    + intros c. rewrite Hperm, list_elem_of_fmap. unfold callers_of.
      setoid_rewrite list_elem_of_filter. setoid_rewrite list_elem_of_fmap. split.
      * intros (a & -> & Ha & [a' v] & -> & Hv%elem_of_ordered_iter). exists a'. eauto.
      * intros (a & -> & [v Hv] & Ha). exists a. split_and!; [done|done|]. exists (a, v).
        split; [done|by apply elem_of_ordered_iter].
Qed.

(** C30: For the content of a file of format 4 in which every node is stored under
    its function name and its callees are keys of the file, and in which the
    metadata of a node is an object whose [fileProperties] is an object without
    a field [origin] and whose [overrideMD] has its two lists: lowering it to
    format 2 and lifting the result again succeeds and gives a file with the
    same nodes.  Every node keeps its name, its body flag, its callees and its
    metadata, with these exceptions: an empty origin becomes a missing one; a
    node with any other origin has an object [fileProperties] afterwards; in a
    node without an origin, or with an empty one, the origin is left as an empty
    string in [fileProperties] (which for a missing origin only happens if the
    node had [fileProperties]).  The metadata of edges and of the graph is
    lost. *)
Theorem v2_file_roundtrip (M : gmap string json) N C (MM : string → gmap string json) g sorted :
  v4_file M N C MM →
  ∃ j2 j4 M4, downgradeV4FormatToV2Format (jobj (<["meta" := g]> {["nodes" := jobj M]})) sorted ⇓ j2 ∧
    upgradeV2FormatToV4Format j2 ⇓ j4 ∧ jat j4 "nodes" ⇓ jobj M4 ∧ jat j4 "meta" ⇓ jobj ∅ ∧
    (∀ s, is_Some (M4 !! s) ↔ is_Some (M !! s)) ∧
    ∀ s v, M4 !! s = Some v →
      v = jnode (setOrigin (v2_origin (origin (N s))) (N s)) (jobj ((λ _, jnull) <$> C s))
            (meta_or_null (v2_meta (origin (N s)) (MM s))).
Proof.
  intros HM. eexists _, _, (rekey (lifted_node N C MM) M).
  split; [by apply (downgrade_file M N C MM HM)|].
  split; [by apply (upgrade_file M N C MM HM)|]. split_and!.
  - apply jat_obj. rewrite lookup_insert_ne by done. apply lookup_insert_eq.
  - apply jat_obj, lookup_insert_eq.
  - intros s. rewrite rekey_lookup. apply fmap_is_Some.
  - by intros s v [-> _]%rekey_Some.
Qed.
End node_roundtrip.
