(* ===== verification/Format2Examples.v ===== *)
(** * File format 2: choosing a reader, examples *)

From S2P Require Import Prelude Json MetaData BuiltinMD Util Callgraph.
From S2P Require Import CallgraphWf CallgraphOps CallgraphSpec CallgraphProps Merge MergeProps.
From S2P Require Import MergeExamples Format4 Roundtrip4 Format4Examples Format2 Format2Props.

Section factories.
Context {JO : JsonOps} {JL : JsonLaws} {MDI : MetaDataI} {IO : IterOrder}.

Definition reader_of (w : MCGWriter) : MCGReader :=
  match w with
  | VersionTwoMCGWriter => VersionTwoMCGReader
  | VersionFourMCGWriter => VersionFourMCGReader
  end.

(** The version in the header of a file. *)
Lemma format_version_of (H : gmap string json) v gen :
  H !! "_MetaCG" = Some (jfields [("version", jstr v); ("generator", gen)]) →
  getFormatVersion (jobj H) ⇓ v.
Proof.
  intros HH. unfold getFormatVersion. rewrite jcontains_obj, HH, bool_decide_true by (by eexists).
  cbn [negb]. rewrite (jat_obj _ _ _ HH), bind_ret. unfold jfields.
  rewrite jcontains_obj, bool_decide_true by (by eexists). cbn [negb].
  rewrite (jat_obj _ "version" (jstr v)), bind_ret by done. apply jget_string_str.
Qed.

Lemma header_version fi b g j :
  formatInfo fi = MCGFileFormatInfo_new 4 0 → write4 fi b false g ⇓ j → getFormatVersion j ⇓ "4.0".
Proof.
  intros Hfi (M & Mg & ->)%write4_shape. unfold file4, attachMCGFormatHeader. rewrite jview_jmk, Hfi.
  eapply (format_version_of _ "4.0"). rewrite lookup_insert_ne by done. cbn [metaInfoFieldName MCGFileFormatInfo_new].
  by rewrite lookup_insert_eq.
Qed.

Lemma header_version_2 gen fi4 sorted g j :
  write2 (getVersionTwoFileInfo gen) fi4 sorted g ⇓ j → getFormatVersion j ⇓ "2.0".
Proof.
  unfold write2, jupdate_at. intros Hr. apply bind_ret_inv in Hr as (v4 & _ & Hr).
  apply bind_ret_inv in Hr as (c & _ & Hr). apply bind_ret_inv in Hr as (c2 & _ & Hr).
  unfold attachMCGFormatHeader in Hr. cbn [formatInfo getVersionTwoFileInfo cgFieldName MCGFileFormatInfo_new] in Hr.
  apply bind_ret_inv in Hr as (c3 & _ & Hr). rewrite bind_ret, jset_obj in Hr. injection Hr as <-.
  eapply (format_version_of _ "2.0"). rewrite lookup_insert_ne by done. by rewrite lookup_insert_eq.
Qed.

Lemma createReader_written w gen2 gen4 names sorted g j :
  write w gen2 gen4 names sorted g ⇓ j → createReader j ⇓ Some (reader_of w).
Proof.
  intros Hw. unfold createReader. destruct w; cbn [write] in Hw.
  - by rewrite (header_version_2 _ _ _ _ _ Hw).
  - destruct sorted; [rewrite write_sorted_same in Hw|]; 
    by rewrite (header_version (mkFileInfo (MCGFileFormatInfo_new 4 0) gen4) names g j eq_refl Hw).
Qed.

(** The factory picks, for every file that one of the writers produced, the
    reader of the same format. *)
Theorem createReader_of_written w gen2 gen4 names sorted g j :
  write w gen2 gen4 names sorted g ⇓ j → createReader j ⇓ Some (reader_of w).
Proof. apply createReader_written. Qed.
End factories.

(** ** Concrete files *)

Module Format2Example.
Import GraphExamples MergeExample Format4Example.

#[local] Existing Instance canonical_order.

Definition returns {A} (o : outcome A) : bool := match o with Ret _ => true | _ => false end.

Lemma returns_ret {A} (o : outcome A) : returns o = true → ∃ a, o ⇓ a.
Proof. destruct o; try done. by eexists. Qed.

Definition is_UB {A} (o : outcome A) : bool := match o with UB => true | _ => false end.

Lemma is_UB_eq {A} (o : outcome A) : is_UB o = true → o = UB.
Proof. by destruct o. Qed.

Definition roundtrip2 (g : Callgraph) : outcome Callgraph :=
  j ← write VersionTwoMCGWriter generator generator true true g;
  r ← read VersionTwoMCGReader 7 j; Ret r.1.

(** A graph whose node has an origin but no [fileProperties] metadata is
    written to format 2 without complaint; reading the file back runs into
    undefined behaviour, because the object left under [fileProperties] lacks
    the field that is read from it. *)
Theorem v2_origin_roundtrip_UB :
  ∃ g, reachable 1 g ∧
    (∃ j, write VersionTwoMCGWriter generator generator true true g ⇓ j) ∧
    roundtrip2 g = UB.
Proof.
  exists (graph_of 1 [OInsert "main" (Some "main.cpp") false true]). split_and!.
  - apply graph_of_reachable. by apply (bool_decide_unpack _); vm_compute.
  - apply returns_ret. vm_compute. reflexivity.
  - apply is_UB_eq. vm_compute. reflexivity.
Qed.

(** The same node with the metadata comes back. *)
Lemma v2_roundtrip_ok :
  match roundtrip2 (graph_of 1 [OInsert "main" (Some "main.cpp") false true; OInsert "f" None true false;
    OAddEdge 0 1; OUpdateNode 0 (AddMetaData (FilePropertiesMD (Some true)))]) with
  | Ret g => bool_decide (getNodeCount g = 2 ∧ is_Some (edges g !! (1, 0)))
  | _ => false
  end = true.
Proof. vm_compute. reflexivity. Qed.

Lemma createReader_of_written_witness :
  ∃ j, write VersionTwoMCGWriter generator generator true false export ⇓ j ∧
       createReader j ⇓ Some VersionTwoMCGReader.
Proof.
  destruct (returns_ret (write VersionTwoMCGWriter generator generator true false export)) as [j Hj];
    [vm_compute; reflexivity|]. exists j. split; [exact Hj|].
  exact (createReader_of_written (JL := JsonTree.laws) (MDI := builtin_md) VersionTwoMCGWriter generator
    generator true false export j Hj).
Defined.

(** A file of two nodes that call each other. *)
Definition two_nodes (s : string) : CgNode :=
  CgNode_new 0 (0, 0) s (if decide (s = "a") then Some "a.cpp" else None) false true.
Definition two_callees (s : string) : gmap string json :=
  if decide (s = "a") then {["a" := jobj ∅; "b" := jobj ∅]} else {["a" := jobj ∅]}.
Definition two_meta (s : string) : gmap string json :=
  {["overrideMD" := jfields [("overrides", jarr []); ("overriddenBy", jarr [jstr s])]]}.
Definition two_file : gmap string json :=
  list_to_map ((λ s, (s, jnode (two_nodes s) (jobj (two_callees s)) (jobj (two_meta s)))) <$> ["a"; "b"]).

Lemma two_file_ok : v4_file two_file two_nodes two_callees two_meta.
Proof.
  intros s v Hs. apply elem_of_list_to_map_2, list_elem_of_fmap in Hs as (s' & [= -> ->] & Hin).
  split_and!; [done|done| |].
  - split; [done|done|]. unfold two_meta. intros Ov HO.
    rewrite lookup_singleton_eq in HO. injection HO as <-. by eexists _, _.
  - assert (s' = "a" ∨ s' = "b") as [-> | ->] by set_solver; intros t Ht.
    + assert (t = "a" ∨ t = "b") as [-> | ->]; [|by eexists..].
      change (is_Some (({["a" := jobj ∅; "b" := jobj ∅]} : gmap string json) !! t)) in Ht.
      rewrite lookup_insert_is_Some', lookup_singleton_is_Some in Ht. naive_solver.
    + assert (t = "a") as ->; [|by eexists].
      change (is_Some (({["a" := jobj ∅]} : gmap string json) !! t)) in Ht.
      by rewrite lookup_singleton_is_Some in Ht.
Qed.

Lemma v2_node_roundtrip_witness :
  ∃ j, downgrade_node (jnode (two_nodes "a") (jobj (two_callees "a")) (jobj (two_meta "a"))) ⇓ j ∧
    ∀ callers, (j ← jset j "callers" callers; upgrade_node "a" j) ⇓
      jnode (setOrigin (Some "a.cpp") (two_nodes "a")) (jobj ((λ _, jnull) <$> two_callees "a"))
        (meta_or_null (v2_meta (Some "a.cpp") (two_meta "a"))).
Proof.
  apply (v2_node_roundtrip (JL := JsonTree.laws) (two_nodes "a") (two_callees "a") (two_meta "a")).
  destruct (two_file_ok "a" (jnode (two_nodes "a") (jobj (two_callees "a")) (jobj (two_meta "a"))))
    as (_ & _ & Hms & _); [reflexivity|exact Hms].
Defined.

Lemma downgrade_mirrors_callers_witness :
  ∃ F, downgradeV4FormatToV2Format (jobj (<["meta" := jobj ∅]> {["nodes" := jobj two_file]})) true
       ⇓ jobj F ∧ (∀ s, is_Some (F !! s) ↔ is_Some (two_file !! s)).
Proof.
  destruct (downgrade_mirrors_callers (JL := JsonTree.laws) two_file two_nodes two_callees two_meta
    (jobj ∅) true two_file_ok) as (F & HF & Hd & _). exists F. exact (conj HF Hd).
Defined.

Lemma v2_file_roundtrip_witness :
  ∃ j2 j4 M4, downgradeV4FormatToV2Format (jobj (<["meta" := jnull]> {["nodes" := jobj two_file]})) false
    ⇓ j2 ∧ upgradeV2FormatToV4Format j2 ⇓ j4 ∧ jat j4 "nodes" ⇓ jobj M4.
Proof.
  destruct (v2_file_roundtrip (JL := JsonTree.laws) two_file two_nodes two_callees two_meta
    jnull false two_file_ok) as (j2 & j4 & M4 & H1 & H2 & H3 & _). exists j2, j4, M4. exact (conj H1 (conj H2 H3)).
Defined.
End Format2Example.
