(* ===== verification/Dot.v ===== *)
(** * DOT files

    [graph/include/metacg/DotIO.h] and [graph/src/DotIO.cpp]: the tokenizer,
    the parser and the reader of simple DOT graphs, and the generator that
    [CGToDot] uses.  Streams are strings; what [std::getline] leaves of a text
    is its list of lines. *)

From Stdlib Require Import Ascii.
From S2P Require Import Prelude Json MetaData Util Callgraph.
From S2P Require Import CallgraphWf CallgraphOps Manager.

(** ** Characters: [<cctype>] in the C locale *)

Definition is_digit (c : ascii) : bool := bool_decide (48 ≤ nat_of_ascii c ≤ 57).
Definition is_alpha (c : ascii) : bool :=
  bool_decide (65 ≤ nat_of_ascii c ≤ 90 ∨ 97 ≤ nat_of_ascii c ≤ 122).
Definition is_alnum (c : ascii) : bool := is_alpha c || is_digit c.

Abbreviation chars := String.list_ascii_of_string.
Abbreviation unchars := String.string_of_list_ascii.

(** ** The tokenizer *)

Inductive TokenType := IGNORE | ENTITY | CONNECTOR.
#[export] Instance TokenType_eq_dec : EqDecision TokenType.
Proof. solve_decision. Defined.

Record ParsedToken := mkToken { token_type : TokenType; spelling : string }.
#[export] Instance ParsedToken_eq_dec : EqDecision ParsedToken.
Proof. solve_decision. Defined.

Definition stripWhitespaceAndInsert (line : string) (curPos startPos : nat)
    (tokenStrs : list string) : outcome (list string) :=
  strCp ← string_substr line startPos (curPos - startPos);
  let strippedStr := unchars (filter (λ c, is_space c = false) (chars strCp)) in
  if decide (strippedStr = "") then Ret tokenStrs else Ret (tokenStrs ++ [strippedStr]).

Inductive LastSeen := DIGIT | CHAR | CNTRL.
#[export] Instance LastSeen_eq_dec : EqDecision LastSeen.
Proof. solve_decision. Defined.

(** White space, [=], braces, brackets and the quotation mark. *)
Definition is_cntrl (c : ascii) : bool :=
  is_space c || bool_decide (c ∈ ["="; "{"; "}"; "["; "]"; "034"]%char).

(** One turn of the loop over the characters of a line; the state is
    [startPos], [curPos], [ls] and [tokenStrs]. *)
Definition split_char (line : string) (st : nat * nat * LastSeen * list string) (c : ascii)
    : outcome (nat * nat * LastSeen * list string) :=
  let '(startPos, curPos, ls, tokenStrs) := st in
  if is_cntrl c then
    toks ← stripWhitespaceAndInsert line curPos startPos tokenStrs;
    Ret (curPos, S curPos, CNTRL, toks)
  else if is_digit c then Ret (startPos, S curPos, DIGIT, tokenStrs)
  else if is_alpha c then
    if decide (ls = DIGIT ∨ ls = CNTRL) then
      toks ← stripWhitespaceAndInsert line curPos startPos tokenStrs;
      Ret (curPos, S curPos, CHAR, toks)
    else Ret (startPos, S curPos, CHAR, tokenStrs)
  else Ret (startPos, S curPos, ls, tokenStrs).

(** [ls] is not initialised: [ls0] is the value it happens to have.  What
    follows the last committed token is never inserted. *)
Definition splitToTokenStrings (ls0 : LastSeen) (line : string) : outcome (list string) :=
  st ← foldM (split_char line) (0, 0, ls0, []) (chars line);
  Ret st.2.

(** The token of one string, if it makes one. *)
Definition tokenOf (str : string) : list ParsedToken :=
  match chars str with
  | [] => []
  | c :: _ =>
      if is_alnum c then [mkToken ENTITY str]
      else if decide (str = "->") then [mkToken CONNECTOR str]
      else if decide (str = "--") then []
      else [mkToken IGNORE str]
  end.

Definition tokenize (ls0 : LastSeen) (line : string) : outcome (list ParsedToken) :=
  strings ← splitToTokenStrings ls0 line;
  Ret (strings ≫= tokenOf).

(** ** The parser *)

Inductive ParseState := INIT | NAME | GRAPH.
#[export] Instance ParseState_eq_dec : EqDecision ParseState.
Proof. solve_decision. Defined.

Section parser.
Context {JO : JsonOps} {MDI : MetaDataI}.

(** [seenTokens] is listed from the top. *)
Record DotParser := mkParser {
  state : ParseState;
  callgraph : Callgraph;
  seenTokens : list ParsedToken
}.

Definition set_stack (p : DotParser) (s : list ParsedToken) : DotParser :=
  mkParser (state p) (callgraph p) s.

Definition DotParser_new (g : Callgraph) : DotParser := mkParser INIT g [].

(** [callgraph->addEdge(getOrInsertNode(src), getOrInsertNode(target))].  C++
    leaves the order of the two arguments open; [target_first] is the choice of
    the compiler.  [addEdge] takes the nodes by reference. *)
Definition connect (target_first : bool) (g : Callgraph) (src target : string)
    : outcome Callgraph :=
  let (first, second) := if target_first then (target, src) else (src, target) in
  r1 ← getOrInsertNode g first None false false;
  r2 ← getOrInsertNode r1.1 second None false false;
  let (s, t) := if target_first then (r2.2, r1.2) else (r1.2, r2.2) in
  ns ← getNode r2.1 s; n ← deref ns;
  mt ← getNode r2.1 t; m ← deref mt;
  r3 ← addEdge_ref r2.1 n m;
  Ret r3.1.

(** One turn of the loop of [reduceStack], which stops when the stack is empty. *)
Definition reduce_turn (target_first : bool) (p : DotParser) : outcome (DotParser + DotParser) :=
  match seenTokens p with
  | [] => Ret (inr p)
  | targetElement :: st1 =>
      cpp_assert (bool_decide (token_type targetElement = ENTITY));;
      cpp_assert (bool_decide (1 < length st1));;
      connector ← deref (head st1);
      cpp_assert (bool_decide (token_type connector = CONNECTOR));;
      match tail st1 with
      | [] => Ret (inr (set_stack p []))
      | srcElement :: st2 =>
          cpp_assert (bool_decide (token_type srcElement = ENTITY));;
          g ← connect target_first (callgraph p) (spelling srcElement) (spelling targetElement);
          Ret (inl (mkParser (state p) g st2))
      end
  end.

Definition reduceStack (target_first : bool) (p : DotParser) : outcome DotParser :=
  if decide (length (seenTokens p) < 3) then Ret p
  else loop (S (length (seenTokens p))) (reduce_turn target_first) p.

Definition handleEntity (target_first : bool) (p : DotParser) (token : ParsedToken)
    : outcome DotParser :=
  if decide (state p = INIT ∧ spelling token = "digraph")
  then Ret (mkParser NAME (callgraph p) (seenTokens p))
  else if decide (state p = NAME ∧ spelling token ≠ "")
  then Ret (mkParser GRAPH (callgraph p) (seenTokens p))
  else if decide (state p = GRAPH) then
    let p := if decide (seenTokens p = []) then set_stack p [token] else p in
    top ← deref (head (seenTokens p));
    if decide (token_type top = CONNECTOR) then
      p' ← reduceStack target_first (set_stack p (token :: seenTokens p));
      Ret (set_stack p' (token :: seenTokens p'))
    else
      r ← getOrInsertNode (callgraph p) (spelling token) None false false;
      Ret (mkParser (state p) r.1 (token :: tail (seenTokens p)))
  else Ret p.

Definition handleConnector (p : DotParser) (token : ParsedToken) : DotParser :=
  set_stack p (token :: seenTokens p).

(** One token of the loop of [DotParser::parse]. *)
Definition parse_token (target_first : bool) (p : DotParser) (token : ParsedToken)
    : outcome DotParser :=
  match token_type token with
  | IGNORE => reduceStack target_first p
  | ENTITY => handleEntity target_first p token
  | CONNECTOR => Ret (handleConnector p token)
  end.

Definition parse (ls0 : LastSeen) (target_first : bool) (p : DotParser) (line : string)
    : outcome DotParser :=
  toks ← tokenize ls0 line;
  foldM (parse_token target_first) p toks.

(** The loop of [readAndManage].  Every call of [splitToTokenStrings] finds its
    own value in the uninitialised variable. *)
Definition read_lines (ls0 : nat → LastSeen) (target_first : bool) (u : nat)
    (lines : list string) : outcome Callgraph :=
  p ← foldM (λ p '(k, line), parse (ls0 k) target_first p line)
        (DotParser_new (Callgraph_new u)) (imap pair lines);
  Ret (callgraph p).

(** The new graph is allocated at [ptr]. *)
Definition readAndManage (ls0 : nat → LastSeen) (target_first : bool) (m : MCGManager)
    (ptr : nat) (lines : list string) (cgName : string) (setActive : bool)
    : outcome (MCGManager * bool) :=
  graph ← read_lines ls0 target_first ptr lines;
  addToManagedGraphs m cgName (Some (ptr, graph)) setActive.
End parser.

(** ** The generator *)

Section generator.
Context {JO : JsonOps} {MDI : MetaDataI} {IO : IterOrder}.

(** The names of the two nodes of an edge. *)
Definition edge_names (cg : Callgraph) (e : NodeId * NodeId) : outcome (string * string) :=
  ns ← getNode cg e.1; n ← deref ns;
  ms ← getNode cg e.2; m ← deref ms;
  Ret (functionName n, functionName m).

(** [CGDotEdgeComparator] compares the concatenated names. *)
Definition edge_less (cg : Callgraph) (l r : NodeId * NodeId) : outcome bool :=
  lName ← edge_names cg l;
  rName ← edge_names cg r;
  Ret (String.ltb (lName.1 +:+ lName.2) (rName.1 +:+ rName.2)).

(** [EdgeContainerTy], [std::set] with the comparator or [std::unordered_set]:
    [emplace] and the elements in the order of iteration. *)
Class EdgeContainer := {
  edge_set : Type;
  no_edges : edge_set;
  edge_emplace : Callgraph → edge_set → NodeId * NodeId → outcome edge_set;
  edge_list : edge_set → list (NodeId * NodeId)
}.

(** A new element goes before the first larger one; an equivalent one keeps it out. *)
Fixpoint sorted_emplace (cg : Callgraph) (l : list (NodeId * NodeId)) (e : NodeId * NodeId)
    : outcome (list (NodeId * NodeId)) :=
  match l with
  | [] => Ret [e]
  | x :: r =>
      before ← edge_less cg e x;
      if before : bool then Ret (e :: l)
      else
        after ← edge_less cg x e;
        if after : bool then r' ← sorted_emplace cg r e; Ret (x :: r') else Ret l
  end.

Definition sorted_edges : EdgeContainer := {|
  edge_set := list (NodeId * NodeId); no_edges := [];
  edge_emplace := sorted_emplace; edge_list l := l |}.

Definition unordered_edges : EdgeContainer := {|
  edge_set := gset (NodeId * NodeId); no_edges := ∅;
  edge_emplace _ X e := Ret ({[e]} ∪ X); edge_list := iter_set |}.

(** One node of the loop of [fillNodesAndEdges]; the container of the nodes
    holds null for an erased one. *)
Definition fill_node {EC : EdgeContainer} (cg : Callgraph) (st : gset string * edge_set)
    (node : option CgNode) : outcome (gset string * edge_set) :=
  n ← deref node;
  childNodes ← getCallees_ref cg n;
  parentNodes ← getCallers_ref cg n;
  es ← foldM (λ es c, c ← deref c; edge_emplace cg es (node_id n, c)) st.2 (iter_set childNodes);
  es ← foldM (λ es p, p ← deref p; edge_emplace cg es (p, node_id n)) es (iter_set parentNodes);
  Ret ({[functionName n]} ∪ st.1, es).

Definition fillNodesAndEdges {EC : EdgeContainer} (cg : Callgraph)
    : outcome (gset string * edge_set) :=
  foldM (fill_node cg) (∅, no_edges) (nodes cg).

Definition newline : string := String "010" "".
Definition quote : string := String "034" "".

(** [std::set<std::string>] and [std::unordered_set<std::string>] *)
Definition node_order (outputSorted : bool) (nodes : gset string) : list string :=
  if outputSorted then (ordered_iter (gset_to_gmap () nodes)).*1 else iter_set nodes.

Definition node_line (nodeName : string) : string :=
  "  " +:+ quote +:+ nodeName +:+ quote +:+ newline.

Definition getNodesStringStream (names : list string) : string := String.concat "" (node_line <$> names).

Definition edge_line (names : string * string) : string :=
  "  " +:+ names.1 +:+ " -> " +:+ names.2 +:+ newline.

(** Both functions [generateDotString]: the nodes, an empty line if there are
    edges, the edges. *)
Definition generateDotString {EC : EdgeContainer} (outputSorted : bool) (cg : Callgraph)
    : outcome string :=
  filled ← fillNodesAndEdges cg;
  let es := edge_list filled.2 in
  edgeStrs ← foldM (λ acc e, names ← edge_names cg e; Ret (acc +:+ edge_line names)) "" es;
  Ret (getNodesStringStream (node_order outputSorted filled.1) +:+
       (if decide (es = []) then "" else newline) +:+ edgeStrs).

Definition generate (outputSorted : bool) (cg : Callgraph) : outcome string :=
  body ← (if outputSorted then generateDotString (EC := sorted_edges) true cg
          else generateDotString (EC := unordered_edges) false cg);
  Ret ("digraph callgraph {" +:+ newline +:+ body +:+ "}" +:+ newline).
End generator.
