(* ===== verification/DotProps.v ===== *)
(** * What the DOT reader accepts and what the generator writes

    The tokenizer is compared with a reference lexer on lists of characters;
    from that follow the tokens of a line of names and arrows, the graph that
    the parser builds for a file of such lines, and the shape of what the
    generator writes. *)

From Stdlib Require Import Ascii.
From S2P Require Import Prelude Json MetaData Util Callgraph.
From S2P Require Import CallgraphWf CallgraphOps Dot.

(** ** The tokenizer as a function on characters *)

Lemma chars_substring n m s : chars (String.substring n m s) = take m (drop n (chars s)).
Proof.
  revert n m. induction s as [|c s IH]; intros [|n] [|m]; simpl; try done.
  all: by rewrite IH.
Qed.

Lemma chars_length s : length (chars s) = String.length s.
Proof. induction s; simpl; congruence. Qed.

Lemma chars_unchars l : chars (unchars l) = l.
Proof. apply String.list_ascii_of_string_of_list_ascii. Qed.

Lemma unchars_chars s : unchars (chars s) = s.
Proof. apply String.string_of_list_ascii_of_string. Qed.

Lemma chars_app s t : chars (s +:+ t) = chars s ++ chars t.
Proof.
  induction s as [|c s IH]; [done|]. change (c :: chars (s +:+ t) = c :: chars s ++ chars t).
  by rewrite IH.
Qed.

Lemma unchars_nil l : unchars l = "" ↔ l = [].
Proof. by destruct l. Qed.

Definition strip (l : list ascii) : list ascii := filter (λ c, is_space c = false) l.

(** The token of the characters since [startPos], unless they are all space. *)
Definition commit (seg : list ascii) : list string :=
  if decide (strip seg = []) then [] else [unchars (strip seg)].

Fixpoint lex (ls : LastSeen) (seg l : list ascii) : list string :=
  match l with
  | [] => []
  | c :: r =>
      if is_cntrl c then commit seg ++ lex CNTRL [c] r
      else if is_digit c then lex DIGIT (seg ++ [c]) r
      else if is_alpha c then
        if decide (ls = DIGIT ∨ ls = CNTRL) then commit seg ++ lex CHAR [c] r
        else lex CHAR (seg ++ [c]) r
      else lex ls (seg ++ [c]) r
  end.

Lemma stripWhitespaceAndInsert_commit line pre seg rest toks :
  chars line = pre ++ seg ++ rest →
  stripWhitespaceAndInsert line (length (pre ++ seg)) (length pre) toks ⇓ toks ++ commit seg.
Proof.
  intros Hl. unfold stripWhitespaceAndInsert, string_substr, commit.
  rewrite decide_False; cycle 1.
  { rewrite <- chars_length, Hl, !length_app. lia. }
  rewrite bind_ret, chars_substring, Hl, drop_app_length, length_app.
  replace (_ - _) with (length seg) by lia. rewrite take_app_length. fold (strip seg).
  repeat case_decide; rewrite ?unchars_nil in *; simplify_eq; [by rewrite app_nil_r|done..].
Qed.

Lemma split_chars_lex line pre seg rest ls toks :
  chars line = pre ++ seg ++ rest →
  ∃ st, foldM (split_char line) (length pre, length (pre ++ seg), ls, toks) rest ⇓ st ∧
        st.2 = toks ++ lex ls seg rest.
Proof.
  revert pre seg ls toks. induction rest as [|c rest IH]; intros pre seg ls toks Hl; cbn [foldM lex].
  { eexists. split; [done|]. by rewrite app_nil_r. }
  assert (∀ ls' toks', ∃ st, foldM (split_char line)
    (length (pre ++ seg), S (length (pre ++ seg)), ls', toks' ++ commit seg) rest ⇓ st ∧
    st.2 = toks' ++ commit seg ++ lex ls' [c] rest) as Hcommit.
  { intros ls' toks'. destruct (IH (pre ++ seg) [c] ls' (toks' ++ commit seg)) as (st & Hst & Hr).
    - by rewrite Hl, <- !app_assoc.
    - exists st. rewrite (length_app (pre ++ seg) [c]) in Hst. simpl in Hst. rewrite Nat.add_1_r in Hst.
      split; [done|]. by rewrite Hr, <- app_assoc. }
  assert (∀ ls', ∃ st, foldM (split_char line)
    (length pre, S (length (pre ++ seg)), ls', toks) rest ⇓ st ∧
    st.2 = toks ++ lex ls' (seg ++ [c]) rest) as Hkeep.
  { intros ls'. destruct (IH pre (seg ++ [c]) ls' toks) as (st & Hst & Hr).
    - by rewrite Hl, <- !app_assoc.
    - exists st. rewrite app_assoc, (length_app (pre ++ seg) [c]) in Hst. simpl in Hst. rewrite Nat.add_1_r in Hst.
      by split. }
  unfold split_char at 2.
  pose proof (stripWhitespaceAndInsert_commit line pre seg (c :: rest) toks Hl) as Hs.
  destruct (is_cntrl c); [rewrite Hs; apply Hcommit|].
  destruct (is_digit c); [apply Hkeep|]. destruct (is_alpha c); [|apply Hkeep].
  case_decide; [rewrite Hs; apply Hcommit|apply Hkeep].
Qed.

Lemma splitToTokenStrings_lex ls0 line : splitToTokenStrings ls0 line ⇓ lex ls0 [] (chars line).
Proof.
  unfold splitToTokenStrings.
  destruct (split_chars_lex line [] [] (chars line) ls0 []) as (st & Hrun & Hst); [done|].
  cbn in Hrun. by rewrite Hrun, bind_ret, Hst.
Qed.

(** ** Lines of names and arrows *)

(** The characters after the first one of a name: no delimiter, and no letter
    once a digit was seen. *)
Fixpoint tail_ok (ls : LastSeen) (l : list ascii) : bool :=
  match l with
  | [] => true
  | c :: r =>
      negb (is_cntrl c) &&
      (if is_digit c then tail_ok DIGIT r
       else if is_alpha c then bool_decide (ls = CHAR) && tail_ok CHAR r
       else tail_ok ls r)
  end.

Definition identifier (s : string) : bool :=
  match chars s with
  | [] => false
  | c :: r => if is_digit c then tail_ok DIGIT r else is_alpha c && tail_ok CHAR r
  end.

Lemma alnum_not_cntrl c : is_digit c || is_alpha c = true → is_cntrl c = false.
Proof. by destruct c as [[] [] [] [] [] [] [] []]. Qed.

Lemma not_cntrl_space c : is_cntrl c = false → is_space c = false.
Proof. unfold is_cntrl. by destruct (is_space c). Qed.

Lemma tail_ok_strip ls l : tail_ok ls l = true → strip l = l.
Proof.
  revert ls. induction l as [|c l IH]; intros ls; simpl; [done|].
  intros [Hc%negb_true_iff Ht]%andb_true_iff. unfold strip. rewrite filter_cons.
  rewrite decide_True by by apply not_cntrl_space. f_equal.
  destruct (is_digit c), (is_alpha c); try apply andb_true_iff in Ht as [_ Ht]; by eapply IH.
Qed.

Lemma strip_app l1 l2 : strip (l1 ++ l2) = strip l1 ++ strip l2.
Proof. apply filter_app. Qed.

Lemma space_cntrl c : is_space c = true → is_cntrl c = true.
Proof. unfold is_cntrl. by intros ->. Qed.

Lemma lex_tail ls seg w t r :
  tail_ok ls w = true → is_cntrl t = true →
  lex ls seg (w ++ t :: r) = commit (seg ++ w) ++ lex CNTRL [t] r.
Proof.
  intros Hok Ht. revert ls seg Hok. induction w as [|c w IH]; intros ls seg; simpl.
  { by rewrite app_nil_r, Ht. }
  intros [Hc%negb_true_iff Hok]%andb_true_iff. rewrite Hc.
  replace (seg ++ c :: w) with ((seg ++ [c]) ++ w) by by rewrite <- app_assoc.
  destruct (is_digit c); [by apply IH|]. destruct (is_alpha c); [|by apply IH].
  apply andb_true_iff in Hok as [->%bool_decide_eq_true Hok].
  rewrite decide_False by (by intros [|]). by apply IH.
Qed.

Lemma commit_blank seg : strip seg = [] → commit seg = [].
Proof. intros Hseg. unfold commit. by rewrite decide_True. Qed.

Lemma identifier_strip s : identifier s = true → strip (chars s) = chars s ∧ s ≠ "".
Proof.
  destruct s as [|c s]; [done|]. unfold identifier. cbn [String.list_ascii_of_string].
  intros Hid. split; [|done]. unfold strip. rewrite filter_cons.
  destruct (is_digit c) eqn:Hd; [|apply andb_true_iff in Hid as [Ha Hid]];
    (rewrite decide_True; [f_equal; by eapply tail_ok_strip|]);
    apply not_cntrl_space, alnum_not_cntrl; rewrite Hd; try rewrite Ha; done.
Qed.

Lemma commit_identifier s seg : identifier s = true → strip seg = [] → commit (seg ++ chars s) = [s].
Proof.
  intros [Hs Hne]%identifier_strip Hseg. unfold commit. rewrite strip_app, Hseg, Hs. simpl.
  rewrite decide_False, unchars_chars; [done|]. by destruct s.
Qed.

Definition starts_alpha (s : string) : bool :=
  match chars s with c :: _ => is_alpha c | [] => false end.

Lemma alpha_not_digit c : is_alpha c = true → is_digit c = false.
Proof. by destruct c as [[] [] [] [] [] [] [] []]. Qed.

Lemma lex_identifier ls seg s t r :
  identifier s = true → is_cntrl t = true →
  strip seg = [] ∨ ls = CNTRL ∧ starts_alpha s = true →
  lex ls seg (chars s ++ t :: r) = commit seg ++ s :: lex CNTRL [t] r.
Proof.
  intros Hid Ht Hstart.
  assert (∀ l, lex ls seg (chars s ++ t :: r) = l → l = commit seg ++ s :: lex CNTRL [t] r) as Hgoal;
    [|by apply Hgoal].
  pose proof (λ seg', commit_identifier s seg' Hid) as Hcommit.
  intros l <-. unfold identifier, starts_alpha in *.
  destruct s as [|c s]; [done|]. cbn [String.list_ascii_of_string] in *.
  assert (is_cntrl c = false) as Hc.
  { apply alnum_not_cntrl. destruct (is_digit c); [done|]. by apply andb_true_iff in Hid as [-> _]. }
  cbn [app lex]. rewrite Hc. destruct (is_digit c) eqn:Hd.
  - assert (strip seg = []) as Hseg.
    { destruct Hstart as [?|[_ Ha%alpha_not_digit]]; congruence. }
    rewrite (lex_tail DIGIT) by done. rewrite <- app_assoc. cbn [app].
    by rewrite Hcommit, commit_blank.
  - apply andb_true_iff in Hid as [-> Hid]. case_decide as Hls.
    + rewrite (lex_tail CHAR [c]) by done. specialize (Hcommit [] eq_refl).
      cbn [app] in *. by rewrite Hcommit.
    + assert (strip seg = []) as Hseg by naive_solver.
      rewrite (lex_tail CHAR) by done. rewrite <- app_assoc. cbn [app].
      by rewrite Hcommit, commit_blank.
Qed.

Lemma lex_space ls seg sp r :
  strip seg = [] → is_space sp = true → lex ls seg (sp :: r) = lex CNTRL [sp] r.
Proof.
  intros Hseg Hsp. cbn [lex]. rewrite (space_cntrl sp Hsp). by rewrite commit_blank.
Qed.

Lemma arrow_chars :
  is_cntrl "-" = false ∧ is_digit "-" = false ∧ is_alpha "-" = false ∧
  is_cntrl ">" = false ∧ is_digit ">" = false ∧ is_alpha ">" = false.
Proof. by vm_compute. Qed.

Lemma lex_arrow ls seg t r :
  strip seg = [] → is_cntrl t = true →
  lex ls seg (chars "->" ++ t :: r) = "->" :: lex CNTRL [t] r.
Proof.
  intros Hseg Ht. destruct arrow_chars as (H1 & H2 & H3 & H4 & H5 & H6).
  cbn [String.list_ascii_of_string app lex]. rewrite H1, H2, H3, H4, H5, H6, Ht.
  unfold commit. by rewrite <- app_assoc, strip_app, Hseg.
Qed.

(** A word of a line: a name, a name in quotes, or an arrow. *)
Inductive word := Plain (s : string) | Quoted (s : string) | Arrow.

Definition quotation : ascii := "034"%char.

Definition word_chars (w : word) : list ascii :=
  match w with
  | Plain s => chars s
  | Quoted s => quotation :: chars s ++ [quotation]
  | Arrow => chars "->"
  end.

(** Quoted names have to begin with a letter. *)
Definition word_ok (w : word) : bool :=
  match w with
  | Plain s => identifier s
  | Quoted s => identifier s && starts_alpha s
  | Arrow => true
  end.

Definition word_strings (w : word) : list string :=
  match w with
  | Plain s => [s]
  | Quoted s => [unchars [quotation]; s; unchars [quotation]]
  | Arrow => ["->"]
  end.

Lemma lex_word ls seg w sp r :
  word_ok w = true → strip seg = [] → is_space sp = true →
  lex ls seg (word_chars w ++ sp :: r) = word_strings w ++ lex CNTRL [sp] r.
Proof.
  intros Hw Hseg Hsp%space_cntrl. destruct w as [s|s|]; simpl in Hw.
  - simpl. rewrite lex_identifier by auto. by rewrite commit_blank.
  - apply andb_true_iff in Hw as [Hid Ha].
    assert (is_cntrl quotation = true) as Hq by by vm_compute.
    cbn [word_chars app lex]. rewrite Hq, commit_blank by done. cbn [app].
    rewrite <- app_assoc. cbn [app]. rewrite lex_identifier by auto.
    cbn [lex]. by rewrite Hsp.
  - by apply lex_arrow.
Qed.

Lemma lex_spaces ls seg sps r :
  strip seg = [] → sps ≠ [] → Forall (λ c, is_space c = true) sps →
  ∃ seg', strip seg' = [] ∧ lex ls seg (sps ++ r) = lex CNTRL seg' r.
Proof.
  intros Hseg Hne Hsp. revert ls seg Hseg Hne. induction Hsp as [|c sps Hc Hsp IH]; [done|].
  intros ls seg Hseg _. cbn [app]. rewrite lex_space by done.
  assert (strip [c] = []) as Hb by (unfold strip; rewrite filter_cons, decide_False by congruence; done).
  destruct sps as [|c' sps]; [by exists [c]|]. by apply IH.
Qed.

(** A line: an indentation, and words with white space after each of them. *)
Definition dot_line (l : list ascii * list (word * list ascii)) : string :=
  unchars (l.1 ++ (l.2 ≫= λ ws, word_chars ws.1 ++ ws.2)).

Definition line_ok (l : list ascii * list (word * list ascii)) : Prop :=
  Forall (λ c, is_space c = true) l.1 ∧
  Forall (λ ws, word_ok ws.1 = true ∧ ws.2 ≠ [] ∧ Forall (λ c, is_space c = true) ws.2) l.2.

Lemma lex_line ls seg l :
  strip seg = [] →
  Forall (λ ws, word_ok ws.1 = true ∧ ws.2 ≠ [] ∧ Forall (λ c, is_space c = true) ws.2) l →
  lex ls seg (l ≫= λ ws, word_chars ws.1 ++ ws.2) = l.*1 ≫= word_strings.
Proof.
  intros Hseg Hl. revert ls seg Hseg.
  induction Hl as [|[w sps] l (Hw & Hne & Hsp) Hl IH]; intros ls seg Hseg; [done|].
  cbn [fmap list_fmap mbind list_bind fst snd] in *. destruct sps as [|sp sps]; [done|].
  apply Forall_cons in Hsp as [Hc Hsp]. rewrite <- !app_assoc. cbn [app].
  rewrite lex_word by done. f_equal. rewrite <- (lex_space CHAR []) by done.
  destruct (lex_spaces CHAR [] (sp :: sps) (l ≫= λ ws, word_chars ws.1 ++ ws.2))
    as (seg' & Hseg' & Hlex); [done..|by constructor|].
  cbn [app] in Hlex. rewrite Hlex. by apply IH.
Qed.

Lemma splitToTokenStrings_line ls0 l :
  line_ok l → splitToTokenStrings ls0 (dot_line l) ⇓ l.2.*1 ≫= word_strings.
Proof.
  destruct l as [ind l]. intros [Hi Hl]. cbn [fst snd] in *. rewrite splitToTokenStrings_lex. f_equal.
  unfold dot_line. rewrite chars_unchars. cbn [fst snd].
  destruct ind as [|c ind]; [by apply lex_line|].
  destruct (lex_spaces ls0 [] (c :: ind) (l ≫= λ ws, word_chars ws.1 ++ ws.2))
    as (seg' & Hseg' & ->); [done..|]. by apply lex_line.
Qed.

Definition word_tokens (w : word) : list ParsedToken :=
  match w with
  | Plain s => [mkToken ENTITY s]
  | Quoted s => [mkToken IGNORE quote; mkToken ENTITY s; mkToken IGNORE quote]
  | Arrow => [mkToken CONNECTOR "->"]
  end.

Lemma tokenOf_identifier s : identifier s = true → tokenOf s = [mkToken ENTITY s].
Proof.
  unfold tokenOf, identifier, is_alnum. destruct (chars s) as [|c l]; [done|].
  destruct (is_digit c); [by rewrite orb_true_r|]. by intros [-> _]%andb_true_iff.
Qed.

Lemma word_strings_tokens w : word_ok w = true → word_strings w ≫= tokenOf = word_tokens w.
Proof.
  destruct w as [s|s|]; simpl; intros Hw; [by rewrite tokenOf_identifier| |done].
  apply andb_true_iff in Hw as [Hid _]. by rewrite tokenOf_identifier.
Qed.

Lemma tokenize_line ls0 l :
  line_ok l → tokenize ls0 (dot_line l) ⇓ l.2.*1 ≫= word_tokens.
Proof.
  intros Hl. unfold tokenize. rewrite splitToTokenStrings_line by done. rewrite bind_ret. f_equal.
  destruct Hl as [_ Hl]. induction Hl as [|[w sps] ws (Hw & _) Hl IH]; [done|].
  cbn. rewrite bind_app. f_equal; [by apply word_strings_tokens|apply IH].
Qed.

Lemma tokenize_header ls0 name :
  identifier name = true →
  tokenize ls0 ("digraph " +:+ name +:+ " {") ⇓ [mkToken ENTITY "digraph"; mkToken ENTITY name].
Proof.
  intros Hn. unfold tokenize. rewrite splitToTokenStrings_lex, bind_ret. f_equal.
  rewrite !chars_app. change (chars "digraph ") with (chars "digraph" ++ [" "%char]).
  change (chars " {") with ([" "; "{"]%char). rewrite <- app_assoc. cbn [app].
  rewrite lex_identifier by auto. cbn [app].
  rewrite lex_identifier by auto.
  change (lex CNTRL [" "%char] ["{"%char]) with (@nil string).
  change (tokenOf "digraph" ++ tokenOf name ++ [] =
    [mkToken ENTITY "digraph"; mkToken ENTITY name]).
  by rewrite (tokenOf_identifier name).
Qed.

Lemma tokenize_footer ls0 : tokenize ls0 "}" ⇓ [].
Proof. by destruct ls0. Qed.
