(* ===== verification/DotReader.v ===== *)
(** * The graph a DOT file describes

    The parser of [Dot] run over the tokens of a file that consists of chains
    [a -> b -> c] of names, and the graph it builds. *)

From Stdlib Require Import Ascii.
From S2P Require Import Prelude Json MetaData Util Callgraph.
From S2P Require Import CallgraphWf CallgraphOps Dot DotProps.

Section dot_graph.
Context {JO : JsonOps} {MDI : MetaDataI}.
Implicit Types (g : Callgraph) (N : gset string) (E : gset (string * string)).

(** ** Graphs with unique names

    The graph has exactly one node for every name of [N], and exactly the
    calls of [E] between them. *)
Record dot_graph N E g : Prop := {
  dg_wf : wf g;
  dg_unique : ∀ i j n m, node_at g i = Some n → node_at g j = Some m →
    functionName n = functionName m → i = j;
  dg_names : ∀ f, f ∈ N ↔ ∃ i n, node_at g i = Some n ∧ functionName n = f;
  dg_edges : ∀ i j n m, node_at g i = Some n → node_at g j = Some m →
    is_Some (edges g !! (i, j)) ↔ (functionName n, functionName m) ∈ E;
  dg_closed : ∀ s t, (s, t) ∈ E → s ∈ N ∧ t ∈ N
}.

Lemma dot_graph_new u : dot_graph ∅ ∅ (Callgraph_new u).
Proof.
  split; [apply wf_new|..].
  - by intros i j n m ?%node_at_Some.
  - intros f. split; [set_solver|]. by intros (i & n & ?%node_at_Some & _).
  - by intros i j n m ?%node_at_Some.
  - set_solver.
Qed.

(** The nodes of a graph are still there, unchanged. *)
Definition keeps_nodes g g' : Prop := ∀ i n, node_at g i = Some n → node_at g' i = Some n.

#[export] Instance keeps_nodes_preorder : PreOrder keeps_nodes.
Proof. split; [by intros g i n|]. intros g1 g2 g3 H1 H2 i n Hn. by apply H2, H1. Qed.

Lemma getOrInsertNode_ret N E g f :
  dot_graph N E g → f ≠ "" →
  ∃ g' i n, getOrInsertNode g f None false false ⇓ (g', i) ∧ dot_graph ({[f]} ∪ N) E g' ∧
    keeps_nodes g g' ∧ node_at g' i = Some n ∧ functionName n = f.
Proof.
  intros Hg Hf. pose proof (dg_wf _ _ _ Hg) as Hwf. unfold getOrInsertNode.
  rewrite getFirstNode_ret by done. destruct (ids_named (nodes g) f) as [|i l] eqn:Hl.
  - destruct (insert_node_ret g f None false false Hwf Hf)
      as (g' & Hrun & Hwf' & Hlen & Hat & Hes & _). cbn.
    exists g', (length (nodes g)),
      (CgNode_new (length (nodes g)) (uid g, length (nodes g)) f None false false).
    split; [done|].
    pose proof (CgNode_new_fields (length (nodes g)) (uid g, length (nodes g)) f None false false)
      as (_ & _ & Hname & _).
    set (n := CgNode_new _ _ _ _ _ _) in *. clearbody n.
    assert (∀ j m, node_at g' j = Some m →
      (j = length (nodes g) ∧ m = n) ∨ node_at g j = Some m) as Hcases.
    { intros j m. rewrite Hat. case_decide; [naive_solver|by right]. }
    assert (keeps_nodes g g') as Hkeep.
    { intros j m Hm. rewrite Hat, decide_False; [done|]. apply node_at_lt in Hm. lia. }
    assert (∀ j m, node_at g j = Some m → functionName m ≠ f) as Hnew.
    { intros j m Hm Hmf. assert (j ∈ ids_named (nodes g) f) as Hj.
      { apply elem_of_ids_named. exists m. by rewrite <- node_at_Some. }
      rewrite Hl in Hj. set_solver. }
    assert (∀ j, ¬ is_Some (edges g !! (length (nodes g), j)) ∧
                 ¬ is_Some (edges g !! (j, length (nodes g)))) as Hnone.
    { intros j. split; intros [H1 H2]%(wf_edges _ Hwf); [apply live_lt in H1|apply live_lt in H2]; lia. }
    assert (f ∉ N) as HfN.
    { intros (j & m & Hm & Hmf)%(dg_names _ _ _ Hg). by eapply Hnew. }
    split_and!; [|done|by rewrite Hat, decide_True|done]. split; [done|..].
    + intros j k m m' [[-> ->]|Hm]%Hcases [[-> ->]|Hm']%Hcases Hmm; [done|..].
      * rewrite Hname in Hmm. by destruct (Hnew k m').
      * rewrite Hname in Hmm. by destruct (Hnew j m).
      * by eapply (dg_unique _ _ _ Hg).
    + intros f'. rewrite elem_of_union, elem_of_singleton, (dg_names _ _ _ Hg). split.
      * intros [->|(j & m & Hm & ?)]; [|exists j, m; split; [by apply Hkeep|done]].
        exists (length (nodes g)), n. split; [by rewrite Hat, decide_True|done].
      * intros (j & m & [[-> ->]|Hm]%Hcases & Hmf); [left; congruence|right; by exists j, m].
    + intros j k m m' [[-> ->]|Hm]%Hcases [[-> ->]|Hm']%Hcases; rewrite Hes;
        try (rewrite Hname; split; [intros H; exfalso; revert H; apply Hnone|];
             intros [? ?]%(dg_closed _ _ _ Hg); done).
      by apply (dg_edges _ _ _ Hg).
    + intros s t [? ?]%(dg_closed _ _ _ Hg). set_solver.
  - cbn. destruct (ids_named_live g f i) as [n Hn]; [rewrite Hl; set_solver|]. rewrite Hn.
    destruct (wf_ids _ Hwf _ _ Hn) as [Hid _].
    assert (functionName n = f) as Hnf.
    { assert (i ∈ ids_named (nodes g) f) as (m & Hm & ?)%elem_of_ids_named by (rewrite Hl; set_solver).
      apply node_at_Some in Hm. congruence. }
    exists g, i, n. split; [by rewrite Hid|]. split_and!; [|done..].
    replace ({[f]} ∪ N) with N; [done|]. apply leibniz_equiv.
    assert (f ∈ N) by (apply (dg_names _ _ _ Hg); eauto). set_solver.
Qed.

Lemma addEdge_ref_ret N E g i j n m :
  dot_graph N E g → node_at g i = Some n → node_at g j = Some m →
  ∃ g' b, addEdge_ref g n m ⇓ (g', b) ∧ dot_graph N ({[(functionName n, functionName m)]} ∪ E) g' ∧
    nodes g' = nodes g.
Proof.
  intros Hg Hn Hm. pose proof (dg_wf _ _ _ Hg) as Hwf. unfold addEdge_ref.
  destruct (wf_ids _ Hwf _ _ Hn) as [Hi _], (wf_ids _ Hwf _ _ Hm) as [Hj _].
  rewrite (hasNode_ref_live g i), (hasNode_ref_live g j), Hi, Hj by done. cbn [negb orb].
  destruct (addEdge_ret g i j Hwf) as (g' & Hrun & Hwf' & Hns & _ & _ & _ & _ & Hes).
  { apply node_at_lt in Hn. lia. } { intros _. apply node_at_lt in Hm. lia. }
  unfold addEdge in Hrun. rewrite (getNode_live _ _ _ Hn), bind_ret, (getNode_live _ _ _ Hm), bind_ret in Hrun.
  rewrite Hrun. do 2 eexists. split; [done|]. split; [|done].
  assert (∀ k, node_at g' k = node_at g k) as Hat by (intros k; unfold node_at; by rewrite Hns).
  rewrite !hasNode_id_spec, !bool_decide_true in Hes by eauto. cbn [andb] in Hes.
  assert (∀ p, is_Some (edges g' !! p) ↔ p = (i, j) ∨ is_Some (edges g !! p)) as Hes'.
  { intros p. rewrite Hes. unfold existsEdge. case_bool_decide as He; cbn [negb].
    - split; [by right|]. by intros [->|?].
    - rewrite lookup_insert_is_Some. destruct (decide ((i, j) = p)); naive_solver. }
  split; [done|..].
  - intros k l a b. rewrite !Hat. apply (dg_unique _ _ _ Hg).
  - intros f. setoid_rewrite Hat. apply (dg_names _ _ _ Hg).
  - intros k l a b. rewrite !Hat. intros Ha Hb.
    rewrite Hes', elem_of_union, elem_of_singleton, (dg_edges _ _ _ Hg k l a b) by done.
    assert ((k, l) = (i, j) ↔ (functionName a, functionName b) = (functionName n, functionName m)) as ->;
      [|done]. split; [naive_solver|]. intros [= H1 H2].
    f_equal; by eapply (dg_unique _ _ _ Hg).
  - intros s t. rewrite elem_of_union, elem_of_singleton. intros [[= -> ->]|?]; [|by apply (dg_closed _ _ _ Hg)].
    split; apply (dg_names _ _ _ Hg); eauto.
Qed.

Lemma connect_ret target_first N E g s t :
  dot_graph N E g → s ≠ "" → t ≠ "" →
  ∃ g', connect target_first g s t ⇓ g' ∧ dot_graph ({[s; t]} ∪ N) ({[(s, t)]} ∪ E) g'.
Proof.
  intros Hg Hs Ht. unfold connect.
  assert (∀ a b, a ≠ "" → b ≠ "" → ∃ g' i j n m,
    getOrInsertNode g a None false false ≫= (λ r1,
      getOrInsertNode r1.1 b None false false ≫= (λ r2, Ret (r1.2, r2))) ⇓ (i, (g', j)) ∧
    dot_graph ({[a; b]} ∪ N) E g' ∧ node_at g' i = Some n ∧ functionName n = a ∧
    node_at g' j = Some m ∧ functionName m = b) as Hboth.
  { intros a b Ha Hb.
    destruct (getOrInsertNode_ret N E g a Hg Ha) as (g1 & i & n & -> & Hg1 & _ & Hn & Hna).
    destruct (getOrInsertNode_ret _ E g1 b Hg1 Hb) as (g2 & j & m & Hrun & Hg2 & Hk & Hm & Hmb).
    exists g2, i, j, n, m. cbn [mbind outcome_bind fst snd]. rewrite Hrun. split_and!; try done; [|by apply Hk].
    replace ({[a; b]} ∪ N) with ({[b]} ∪ ({[a]} ∪ N)) by (apply leibniz_equiv; set_solver). done. }
  destruct target_first.
  - destruct (Hboth t s) as (g' & i & j & n & m & Hrun & Hg' & Hn & Hnt & Hm & Hms); [done..|].
    apply bind_ret_inv in Hrun as ([g1 i1] & -> & (r2 & Hrun2 & [= -> ->])%bind_ret_inv).
    cbn [mbind outcome_bind fst snd] in *. rewrite Hrun2. cbn [mbind outcome_bind fst snd].
    rewrite (getNode_live _ _ _ Hm), (getNode_live _ _ _ Hn). cbn.
    destruct (addEdge_ref_ret _ _ _ _ _ _ _ Hg' Hm Hn) as (g3 & b & -> & Hg3 & _).
    exists g3. split; [done|]. rewrite Hms, Hnt in Hg3.
    replace ({[s; t]} ∪ N) with ({[t; s]} ∪ N) by (apply leibniz_equiv; set_solver). done.
  - destruct (Hboth s t) as (g' & i & j & n & m & Hrun & Hg' & Hn & Hnt & Hm & Hms); [done..|].
    apply bind_ret_inv in Hrun as ([g1 i1] & -> & (r2 & Hrun2 & [= -> ->])%bind_ret_inv).
    cbn [mbind outcome_bind fst snd] in *. rewrite Hrun2. cbn [mbind outcome_bind fst snd].
    rewrite (getNode_live _ _ _ Hn), (getNode_live _ _ _ Hm). cbn.
    destruct (addEdge_ref_ret _ _ _ _ _ _ _ Hg' Hn Hm) as (g3 & b & -> & Hg3 & _).
    exists g3. split; [done|]. by rewrite Hms, Hnt in Hg3.
Qed.

(** ** Chains of names *)

(** A name as it is written, in quotes or not. *)
Definition name_word (y : string * bool) : word := if y.2 then Quoted y.1 else Plain y.1.

(** [x -> y1 -> ... -> yn] *)
Definition chain : Type := (string * bool) * list (string * bool).

Definition chain_words (ch : chain) : list word :=
  name_word ch.1 :: (ch.2 ≫= λ y, [Arrow; name_word y]).

Definition chain_names (ch : chain) : gset string := list_to_set (ch.1.1 :: ch.2.*1).

(** The calls of a chain: from every name to the next one. *)
Fixpoint calls_from (x : string) (ys : list string) : gset (string * string) :=
  match ys with [] => ∅ | y :: ys => {[(x, y)]} ∪ calls_from y ys end.

Definition chain_calls (ch : chain) : gset (string * string) := calls_from ch.1.1 ch.2.*1.

Definition names_of (chs : list chain) : gset string := ⋃ (chain_names <$> chs).
Definition calls_of (chs : list chain) : gset (string * string) := ⋃ (chain_calls <$> chs).

(** ** The parser between two names *)

(** The graph so far, and on the stack at most the last name. *)
Definition between N E (p : DotParser) : Prop :=
  state p = GRAPH ∧ (seenTokens p = [] ∨ ∃ s, seenTokens p = [mkToken ENTITY s]) ∧
  dot_graph N E (callgraph p).

Definition after_name N E (s : string) (p : DotParser) : Prop :=
  state p = GRAPH ∧ seenTokens p = [mkToken ENTITY s] ∧ dot_graph N E (callgraph p).

Definition after_arrow N E (s : string) (p : DotParser) : Prop :=
  state p = GRAPH ∧ seenTokens p = [mkToken CONNECTOR "->"; mkToken ENTITY s] ∧
  dot_graph N E (callgraph p).

Lemma after_name_between N E s p : after_name N E s p → between N E p.
Proof. intros (? & ? & ?). split_and!; eauto. Qed.

(** Quotation marks reduce the stack, which is too short for that. *)
Lemma parse_quote tf p : length (seenTokens p) < 3 → parse_token tf p (mkToken IGNORE quote) ⇓ p.
Proof. intros Hl. cbn. unfold reduceStack. by rewrite decide_True. Qed.

Lemma parse_first tf N E p s :
  between N E p → s ≠ "" →
  ∃ p', parse_token tf p (mkToken ENTITY s) ⇓ p' ∧ after_name ({[s]} ∪ N) E s p'.
Proof.
  intros (Hst & Hstack & Hg) Hs. cbn. unfold handleEntity.
  rewrite Hst, !decide_False by naive_solver. rewrite decide_True by done.
  destruct (getOrInsertNode_ret N E (callgraph p) s Hg Hs) as (g' & i & n & Hrun & Hg' & _).
  destruct Hstack as [Hstack|[t Hstack]]; rewrite Hstack.
  - rewrite decide_True by done. cbn [deref head seenTokens set_stack mbind outcome_bind].
    rewrite decide_False by done. cbn [callgraph set_stack spelling]. rewrite Hrun. eexists. split; [done|].
    split_and!; done.
  - rewrite decide_False by done. rewrite Hstack. cbn [deref head mbind outcome_bind].
    rewrite decide_False by done. cbn [spelling]. rewrite Hrun. eexists. split; [done|].
    split_and!; done.
Qed.

Lemma parse_next tf N E p s t :
  after_arrow N E s p → s ≠ "" → t ≠ "" →
  ∃ p', parse_token tf p (mkToken ENTITY t) ⇓ p' ∧
        after_name ({[s; t]} ∪ N) ({[(s, t)]} ∪ E) t p'.
Proof.
  intros (Hst & Hstack & Hg) Hs Ht. cbn. unfold handleEntity.
  rewrite Hst, !decide_False by naive_solver. rewrite decide_True by done.
  rewrite Hstack, decide_False by done. rewrite Hstack. cbn [deref head mbind outcome_bind].
  rewrite decide_True by done. unfold reduceStack. cbn [set_stack seenTokens length].
  rewrite decide_False by lia.
  destruct (connect_ret tf N E (callgraph p) s t Hg Hs Ht) as (g' & Hrun & Hg').
  cbn. rewrite Hrun. cbn. eexists. split; [done|]. split_and!; done.
Qed.

Lemma parse_name_tokens tf (I : DotParser → Prop) (Q : DotParser → Prop) p (x : string * bool) :
  I p → (∀ q, I q ∨ Q q → length (seenTokens q) < 3) →
  (∀ q, I q → ∃ q', parse_token tf q (mkToken ENTITY x.1) ⇓ q' ∧ Q q') →
  ∃ p', foldM (parse_token tf) p (word_tokens (name_word x)) ⇓ p' ∧ Q p'.
Proof.
  intros Hp Hlen Hstep. destruct (Hstep p Hp) as (p' & Hrun & Hp'). exists p'. split; [|done].
  destruct x as [s []]; cbn [name_word snd fst word_tokens foldM] in *.
  - rewrite parse_quote, bind_ret, Hrun, bind_ret, parse_quote by auto. done.
  - by rewrite Hrun.
Qed.

Lemma parse_chain_tail tf N E p s (ys : list (string * bool)) :
  after_name N E s p → s ∈ N → s ≠ "" → Forall (λ y, y.1 ≠ "") ys →
  ∃ p' t, foldM (parse_token tf) p ((ys ≫= λ y, [Arrow; name_word y]) ≫= word_tokens) ⇓ p' ∧
    after_name (list_to_set ys.*1 ∪ N) (calls_from s ys.*1 ∪ E) t p'.
Proof.
  intros Hp HsN Hs Hys. revert N E p s Hp HsN Hs.
  induction Hys as [|y ys Hy Hys IH]; intros N E p s Hp HsN Hs.
  { exists p, s. split; [done|]. cbn. by rewrite !(left_id_L ∅ (∪)). }
  change ((y :: ys) ≫= (λ y, [Arrow; name_word y])) with
    (Arrow :: name_word y :: (ys ≫= λ y, [Arrow; name_word y])).
  rewrite !bind_cons, !foldM_app. destruct Hp as (Hst & Hstack & Hg).
  set (p1 := handleConnector p (mkToken CONNECTOR "->")).
  assert (after_arrow N E s p1) as Hp1.
  { split_and!; [done| |done]. cbn. by rewrite Hstack. }
  destruct (parse_name_tokens tf (after_arrow N E s)
    (after_name ({[s; y.1]} ∪ N) ({[(s, y.1)]} ∪ E) y.1) p1 y Hp1) as (p2 & Hrun & Hp2).
  { intros q [(_ & -> & _)|(_ & -> & _)]; cbn; lia. }
  { intros q Hq. by apply parse_next. }
  assert (foldM (parse_token tf) p (word_tokens Arrow) ⇓ p1) as -> by done.
  rewrite bind_ret, foldM_app, Hrun, bind_ret.
  destruct (IH _ _ _ _ Hp2) as (p3 & t & -> & Hp3); [set_solver|done|].
  exists p3, t. split; [done|]. cbn.
  replace ({[y.1]} ∪ list_to_set ys.*1 ∪ N) with (list_to_set ys.*1 ∪ ({[s; y.1]} ∪ N))
    by (apply leibniz_equiv; set_solver).
  replace ({[(s, y.1)]} ∪ calls_from y.1 ys.*1 ∪ E) with (calls_from y.1 ys.*1 ∪ ({[(s, y.1)]} ∪ E))
    by (apply leibniz_equiv; set_solver). done.
Qed.

Definition chain_ok (ch : chain) : Prop :=
  Forall (λ y, word_ok (name_word y) = true) (ch.1 :: ch.2).

Lemma word_ok_name y : word_ok (name_word y) = true → y.1 ≠ "".
Proof.
  destruct y as [s []]; cbn; [intros [Hid _]%andb_true_iff|intros Hid]; by apply identifier_strip in Hid as [_ ?].
Qed.

Lemma parse_chain tf N E p ch :
  between N E p → chain_ok ch →
  ∃ p', foldM (parse_token tf) p (chain_words ch ≫= word_tokens) ⇓ p' ∧
    between (chain_names ch ∪ N) (chain_calls ch ∪ E) p'.
Proof.
  intros Hp [Hx Hys]%Forall_cons. destruct ch as [x ys]. cbn [fst snd] in *.
  apply word_ok_name in Hx. eapply Forall_impl in Hys; [|apply word_ok_name].
  unfold chain_words. cbn [fst snd]. rewrite bind_cons, foldM_app.
  destruct (parse_name_tokens tf (between N E) (after_name ({[x.1]} ∪ N) E x.1) p x Hp)
    as (p1 & Hrun & Hp1).
  { intros q [(_ & [->|[? ->]] & _)|(_ & -> & _)]; cbn; lia. }
  { intros q Hq. by apply parse_first. }
  rewrite Hrun, bind_ret.
  destruct (parse_chain_tail tf _ _ _ _ ys Hp1) as (p2 & t & -> & Hp2); [set_solver|done|done|].
  exists p2. split; [done|]. apply after_name_between in Hp2.
  unfold chain_names, chain_calls. cbn [fst snd list_to_set].
  replace ({[x.1]} ∪ list_to_set ys.*1 ∪ N) with (list_to_set ys.*1 ∪ ({[x.1]} ∪ N))
    by (apply leibniz_equiv; set_solver). done.
Qed.

Lemma parse_chains tf N E p chs :
  between N E p → Forall chain_ok chs →
  ∃ p', foldM (parse_token tf) p ((chs ≫= chain_words) ≫= word_tokens) ⇓ p' ∧
    between (names_of chs ∪ N) (calls_of chs ∪ E) p'.
Proof.
  intros Hp Hok. revert N E p Hp. induction Hok as [|ch chs Hch Hok IH]; intros N E p Hp.
  { exists p. split; [done|]. unfold names_of, calls_of. cbn. by rewrite !(left_id_L ∅ (∪)). }
  rewrite bind_cons, bind_app, foldM_app.
  destruct (parse_chain tf N E p ch Hp Hch) as (p1 & -> & Hp1).
  destruct (IH _ _ _ Hp1) as (p2 & Hrun & Hp2). cbn [mbind outcome_bind]. rewrite Hrun.
  exists p2. split; [done|].
  assert (names_of (ch :: chs) = chain_names ch ∪ names_of chs) as -> by done.
  assert (calls_of (ch :: chs) = chain_calls ch ∪ calls_of chs) as -> by done.
  rewrite (comm_L (∪) (chain_names ch)), (comm_L (∪) (chain_calls ch)).
  by rewrite <- !(assoc_L (∪)).
Qed.

(** ** Whole files *)

Lemma parse_all_lines (ls0 : nat → LastSeen) tf p (lines : list string) (tss : list (list ParsedToken))
    (h : nat → nat) :
  Forall2 (λ line ts, ∀ ls, tokenize ls line ⇓ ts) lines tss →
  foldM (λ p '(k, line), parse (ls0 k) tf p line) p (imap (λ k line, (h k, line)) lines) =
  foldM (parse_token tf) p (mjoin tss).
Proof.
  intros Hl. revert p h. induction Hl as [|line ts lines tss Ht Hl IH]; intros p h; [done|].
  rewrite imap_cons. cbn [foldM mjoin list_join]. rewrite foldM_app.
  assert (∀ ls, parse ls tf p line = foldM (parse_token tf) p ts) as Hp.
  { intros ls. unfold parse. by rewrite Ht. }
  rewrite Hp. destruct (foldM (parse_token tf) p ts) as [p'| | | |]; [|done..].
  cbn [mbind outcome_bind]. apply (IH p' (h ∘ S)).
Qed.

Lemma mjoin_bind {A B} (f : A → list B) (l : list A) : mjoin (f <$> l) = l ≫= f.
Proof. induction l as [|x l IH]; [done|]. cbn. by rewrite <- IH. Qed.

Lemma bind_assoc_list {A B C} (f : A → list B) (k : B → list C) (l : list A) :
  (l ≫= f) ≫= k = l ≫= λ x, f x ≫= k.
Proof. induction l as [|x l IH]; [done|]. rewrite !bind_cons, bind_app. by rewrite IH. Qed.

(** C23: Reading a file [digraph name { ... }] whose body consists of chains
    [a -> b -> c] of names with white space after every word and any
    distribution over lines returns a graph with exactly one node for every
    name and exactly the calls between neighbours.  Every name has to be one
    that the tokenizer keeps in one piece: it starts with a letter or a digit,
    contains no delimiter, and after a digit no letter any more (which most
    mangled names such as [_Z3foov] violate); a name in quotes starts with a
    letter.  Neither what the uninitialised variable of the tokenizer holds
    nor the order in which the compiler evaluates arguments matters. *)
Theorem dot_read_correct (ls0 : nat → LastSeen) (target_first : bool) (u : nat) (name : string)
    (body : list (list ascii * list (word * list ascii))) (chs : list chain) :
  identifier name = true → Forall line_ok body → Forall chain_ok chs →
  (body ≫= λ l, l.2.*1) = chs ≫= chain_words →
  ∃ g, read_lines ls0 target_first u
         (("digraph " +:+ name +:+ " {") :: (dot_line <$> body) ++ ["}"]) ⇓ g ∧
       dot_graph (names_of chs) (calls_of chs) g.
Proof.
  intros Hname Hbody Hchs Hwords. unfold read_lines.
  set (tss := [mkToken ENTITY "digraph"; mkToken ENTITY name] ::
    ((λ l, l.2.*1 ≫= word_tokens) <$> body) ++ [[]]).
  rewrite (parse_all_lines ls0 target_first _ _ tss (λ k, k)); cycle 1.
  { constructor; [intros; by apply tokenize_header|]. apply Forall2_app.
    - apply Forall2_fmap, Forall_Forall2_diag. eapply Forall_impl; [done|].
      intros l Hl ls. by apply tokenize_line.
    - constructor; [|done]. intros. apply tokenize_footer. }
  unfold tss. cbn [mjoin list_join]. rewrite foldM_app, join_app, mjoin_bind.
  cbn [mjoin list_join app]. rewrite app_nil_r.
  assert (name ≠ "") as Hne by by apply identifier_strip in Hname as [_ ?].
  rewrite <- (bind_assoc_list (λ l : list ascii * list (word * list ascii), l.2.*1) word_tokens), Hwords.
  cbn [foldM parse_token token_type handleEntity mbind outcome_bind]. unfold handleEntity.
  rewrite decide_True by done. cbn [mbind outcome_bind state callgraph seenTokens spelling].
  rewrite decide_False by naive_solver. rewrite decide_True by done. cbn [mbind outcome_bind].
  destruct (parse_chains target_first ∅ ∅ (mkParser GRAPH (Callgraph_new u) []) chs) as (p' & Hrun & Hp');
    [split_and!; [done|by left|apply dot_graph_new]|done|].
  cbn [DotParser_new callgraph seenTokens] in *. rewrite Hrun. eexists. split; [done|].
  destruct Hp' as (_ & _ & Hg). by rewrite !(right_id_L ∅ (∪)) in Hg.
Qed.
End dot_graph.
