(* ===== verification/DotGenerator.v ===== *)
(** * What the DOT generator writes

    The generator is run with two containers for the edges.  Its properties are
    proved against the interface [EdgeContainerLaws], which both of them
    implement; they differ in what they take to be the same edge. *)

From S2P Require Import Prelude Json MetaData Callgraph.
From S2P Require Import CallgraphWf CallgraphOps Dot.

(** ** Strings *)

Lemma string_app_nil_r s : s +:+ "" = s.
Proof. induction s as [|c s IH]; [done|]. change (String c (s +:+ "") = String c s). by rewrite IH. Qed.

Lemma string_concat_cons s ss : String.concat "" (s :: ss) = s +:+ String.concat "" ss.
Proof. destruct ss as [|s' ss]; [|done]. symmetry. apply string_app_nil_r. Qed.

Section generator.
Context {JO : JsonOps} {MDI : MetaDataI} {IO : IterOrder}.
Implicit Types (g : Callgraph) (e x : NodeId * NodeId).

(** ** The containers *)

Definition live_edge g e : Prop := is_Some (node_at g e.1) ∧ is_Some (node_at g e.2).

Definition name_at g (i : NodeId) : string := from_option functionName "" (node_at g i).
Definition key g e : string := name_at g e.1 +:+ name_at g e.2.

Lemma edge_names_ret g e : live_edge g e → edge_names g e ⇓ (name_at g e.1, name_at g e.2).
Proof.
  intros [[n Hn] [m Hm]]. unfold edge_names, name_at.
  by rewrite (getNode_live _ _ _ Hn), bind_ret, (getNode_live _ _ _ Hm), Hn, Hm.
Qed.

Lemma edge_less_ret g e x :
  live_edge g e → live_edge g x → edge_less g e x ⇓ String.ltb (key g e) (key g x).
Proof. intros He Hx. unfold edge_less. by rewrite !edge_names_ret. Qed.

(** [emplace] keeps what is there and adds at most the new element; if it does
    not, there is one that counts as the same. *)
Class EdgeContainerLaws (EC : EdgeContainer) g (same : NodeId * NodeId → NodeId * NodeId → Prop)
    (inv : list (NodeId * NodeId) → Prop) : Prop := {
  ec_empty : edge_list no_edges = [] ∧ inv [];
  ec_emplace s e : live_edge g e → Forall (live_edge g) (edge_list s) → inv (edge_list s) →
    ∃ s', edge_emplace g s e ⇓ s' ∧ inv (edge_list s') ∧
      (∀ x, x ∈ edge_list s → x ∈ edge_list s') ∧
      (∀ x, x ∈ edge_list s' → x = e ∨ x ∈ edge_list s) ∧
      (∃ x, x ∈ edge_list s' ∧ same e x)
}.

#[export] Instance unordered_edges_laws g : EdgeContainerLaws unordered_edges g (=) NoDup.
Proof.
  split.
  - split; [|constructor]. cbn. apply Permutation_nil_r. by rewrite iter_set_perm, elements_empty.
  - intros X e _ _ _. exists ({[e]} ∪ X). split; [done|]. cbn.
    split_and!; [apply iter_set_NoDup|..].
    + intros x. rewrite !elem_of_iter_set. set_solver.
    + intros x. rewrite !elem_of_iter_set. set_solver.
    + exists e. rewrite elem_of_iter_set. set_solver.
Qed.

Abbreviation before g := (λ e x, String.ltb (key g e) (key g x) = true).

Lemma sorted_emplace_ret g (l : list (NodeId * NodeId)) e :
  live_edge g e → Forall (live_edge g) l → StronglySorted (before g) l →
  ∃ l', sorted_emplace g l e ⇓ l' ∧ StronglySorted (before g) l' ∧
    (∀ x, x ∈ l → x ∈ l') ∧ (∀ x, x ∈ l' → x = e ∨ x ∈ l) ∧
    (∃ x, x ∈ l' ∧ key g e = key g x).
Proof.
  intros He Hl. induction Hl as [|x l Hx Hl IH]; intros Hs; cbn [sorted_emplace].
  { exists [e]. split_and!; [done|by repeat constructor|set_solver|set_solver|].
    exists e. split; [set_solver|done]. }
  apply StronglySorted_cons in Hs as [Hxl Hs].
  rewrite (edge_less_ret g e x), bind_ret by done. destruct (String.ltb (key g e) (key g x)) eqn:Hb.
  - exists (e :: x :: l). split_and!; [done| |set_solver|set_solver|exists e; split; [set_solver|done]].
    constructor; [by constructor|]. constructor; [done|]. eapply Forall_impl; [apply Hxl|].
    intros y Hy. by eapply string_ltb_trans.
  - rewrite (edge_less_ret g x e), bind_ret by done. destruct (String.ltb (key g x) (key g e)) eqn:Ha.
    + destruct (IH Hs) as (l' & -> & Hs' & Hin & Hout & y & Hy & Hey). cbn.
      exists (x :: l'). split_and!; [done| |set_solver|set_solver|exists y; split; [set_solver|done]].
      constructor; [done|]. apply Forall_forall. intros z [->|Hz]%Hout; [done|].
      rewrite Forall_forall in Hxl. by apply Hxl.
    + exists (x :: l). split_and!; [done|by constructor|done|by right|].
      exists x. split; [set_solver|by apply string_ltb_total].
Qed.

#[export] Instance sorted_edges_laws g :
  EdgeContainerLaws sorted_edges g (λ e x, key g e = key g x) (StronglySorted (before g)).
Proof. split; [by split; [|constructor]|]. intros s e. apply sorted_emplace_ret. Qed.

(** ** Collecting nodes and edges *)

Section fill.
Context {EC : EdgeContainer} g same inv `{!EdgeContainerLaws EC g same inv}.

(** The edges [E] are collected, up to [same], and no other edges of the graph. *)
Definition collected (E : NodeId * NodeId → Prop) (s : edge_set) : Prop :=
  inv (edge_list s) ∧ (∀ x, x ∈ edge_list s → is_Some (edges g !! x)) ∧
  (∀ e, E e → ∃ x, x ∈ edge_list s ∧ same e x).

Lemma edge_live e : wf g → is_Some (edges g !! e) → live_edge g e.
Proof. destruct e as [i j]. intros Hwf He. by apply (wf_edges _ Hwf). Qed.

Lemma collect_one (E : NodeId * NodeId → Prop) (s : edge_set) e :
  wf g → is_Some (edges g !! e) → collected E s →
  ∃ s', edge_emplace g s e ⇓ s' ∧ collected (λ x, x = e ∨ E x) s'.
Proof.
  intros Hwf He (Hinv & Hs & HE).
  destruct (ec_emplace s e) as (s' & Hrun & Hinv' & Hin & Hout & y & Hy & Hey);
    [by apply edge_live| |done|].
  { apply Forall_forall. intros x Hx. by apply edge_live, Hs. }
  exists s'. split; [done|]. split_and!; [done|..].
  - by intros x [->|Hx%Hs]%Hout.
  - intros x [->|(z & Hz & ?)%HE]; [by exists y|exists z; auto].
Qed.

(** One of the two inner loops: the pointers [S] give the edges [mk p]. *)
Lemma collect_loop (E : NodeId * NodeId → Prop) (s : edge_set) (mk : NodeId → NodeId * NodeId)
    (S : gset (option NodeId)) :
  wf g → collected E s → (∀ p, p ∈ S → ∃ j, p = Some j ∧ is_Some (edges g !! mk j)) →
  ∃ s', foldM (λ (s : edge_set) p, p ← deref p; edge_emplace g s (mk p)) s (iter_set S) ⇓ s' ∧
    collected (λ x, (∃ j, Some j ∈ S ∧ x = mk j) ∨ E x) s'.
Proof.
  intros Hwf Hs HS.
  destruct (foldM_ind (λ dn s, collected (λ x, (∃ j, Some j ∈ dn ∧ x = mk j) ∨ E x) s)
    (λ (s : edge_set) p, p ← deref p; edge_emplace g s (mk p)) (iter_set S) s) as (s' & Hrun & Hs').
  - destruct Hs as (? & ? & HE). split_and!; [done..|].
    intros e [(j & Hj & _)|He]; [by apply not_elem_of_nil in Hj|by apply HE].
  - intros dn p rest s1 Hl Hs1. destruct (HS p) as (j & -> & Hj).
    { apply elem_of_iter_set. rewrite Hl. set_solver. }
    destruct (collect_one _ _ _ Hwf Hj Hs1) as (s2 & Hrun & Hinv2 & Hs2 & HE2).
    exists s2. split; [done|]. split_and!; [done..|].
    intros e [(k & Hk & ->)|He]; apply HE2; [|by right; right].
    apply elem_of_app in Hk as [Hk|Hk%list_elem_of_singleton]; [by right; left; exists k|].
    left. congruence.
  - exists s'. split; [done|]. destruct Hs' as (? & ? & HE'). split_and!; [done..|].
    intros e [(j & Hj & ->)|He]; apply HE'; [|by right].
    left. exists j. by rewrite elem_of_iter_set.
Qed.

Lemma fillNodesAndEdges_ret :
  wf g → (∀ o, o ∈ nodes g → is_Some o) →
  ∃ names s, fillNodesAndEdges g ⇓ (names, s) ∧
    (∀ f, f ∈ names ↔ ∃ i n, node_at g i = Some n ∧ functionName n = f) ∧
    collected (λ e, is_Some (edges g !! e)) s.
Proof.
  intros Hwf Hnone. unfold fillNodesAndEdges.
  destruct (foldM_ind (λ dn st,
    (∀ f, f ∈ st.1 ↔ ∃ n, Some n ∈ dn ∧ functionName n = f) ∧
    collected (λ e, is_Some (edges g !! e) ∧ ∃ n, Some n ∈ dn ∧ node_id n = e.1) st.2)
    (fill_node g) (nodes g) (∅, no_edges)) as ([names s] & Hrun & Hnames & Hs).
  - split; [set_solver|]. destruct (ec_empty (EC := EC) (g := g)) as [He Hinv].
    unfold collected. cbn [snd]. rewrite He. split_and!; [done|set_solver|].
    intros e (_ & n & Hn & _). by apply not_elem_of_nil in Hn.
  - intros dn o rest [names s] Hl [Hnames Hs]. cbn [fst snd] in *.
    destruct (Hnone o) as [n ->]; [rewrite Hl; set_solver|].
    assert (node_at g (length dn) = Some n) as Hn.
    { apply node_at_Some. rewrite Hl. by apply list_lookup_middle. }
    destruct (wf_ids _ Hwf _ _ Hn) as [Hid _].
    destruct (getCallees_ret g (length dn) Hwf) as (C & HC & HinC).
    destruct (getCallers_ret g (length dn) Hwf) as (P & HP & HinP).
    assert (getCallees_ref g n ⇓ C) as HC'.
    { unfold getCallees_ref. by rewrite (hasNode_ref_live _ _ _ Hwf Hn), Hid. }
    assert (getCallers_ref g n ⇓ P) as HP'.
    { unfold getCallers_ref. by rewrite (hasNode_ref_live _ _ _ Hwf Hn), Hid. }
    unfold fill_node. cbn [deref fst snd].
    rewrite bind_ret, HC', bind_ret, HP', bind_ret, Hid.
    destruct (collect_loop _ s (pair (length dn)) C Hwf Hs) as (s1 & Hrun1 & Hs1).
    { intros p (j & -> & Hj)%HinC. eauto. }
    rewrite Hrun1, bind_ret.
    destruct (collect_loop _ s1 (λ p, (p, length dn)) P Hwf Hs1) as (s2 & Hrun2 & Hinv2 & Hs2 & HE2).
    { intros p (j & -> & Hj)%HinP. eauto. }
    rewrite Hrun2, bind_ret. eexists. split; [done|]. cbn. split.
    + intros f. rewrite elem_of_union, elem_of_singleton, Hnames. setoid_rewrite elem_of_app.
      setoid_rewrite list_elem_of_singleton. naive_solver.
    + split_and!; [done..|]. intros [i j] (He & m & Hm & Hmi). cbn in Hmi. apply HE2. right.
      apply elem_of_app in Hm as [Hm|[= ->]%list_elem_of_singleton]; [right; by eauto|left].
      exists j. rewrite <- Hmi, Hid in He. split; [apply HinC; eauto|congruence].
  - exists names, s. split; [done|]. split.
    + intros f. cbn in Hnames. rewrite Hnames. split.
      * intros (n & [i Hi]%list_elem_of_lookup & ?). exists i, n. by rewrite node_at_Some.
      * intros (i & n & Hn%node_at_Some & ?). exists n. by apply list_elem_of_lookup_2 in Hn.
    + destruct Hs as (? & ? & HE). split_and!; [done..|]. intros [i j] He. apply HE. split; [done|].
      destruct (wf_edges _ Hwf _ _ He) as [[n Hn] _]. exists n.
      destruct (wf_ids _ Hwf _ _ Hn) as [Hid _]. apply node_at_Some in Hn.
      by apply list_elem_of_lookup_2 in Hn.
Qed.

(** ** The text *)

Definition edge_text e : string := edge_line (name_at g e.1, name_at g e.2).

Lemma edge_strings_ret (es : list (NodeId * NodeId)) acc :
  Forall (live_edge g) es →
  foldM (λ acc e, names ← edge_names g e; Ret (acc +:+ edge_line names)) acc es ⇓
  acc +:+ String.concat "" (edge_text <$> es).
Proof.
  intros Hes. revert acc. induction Hes as [|e es He Hes IH]; intros acc; cbn [foldM].
  { by rewrite string_app_nil_r. }
  rewrite edge_names_ret by done. rewrite !bind_ret, IH, fmap_cons, string_concat_cons.
  by rewrite string_app_assoc.
Qed.

Lemma generateDotString_ret (outputSorted : bool) :
  wf g → (∀ o, o ∈ nodes g → is_Some o) →
  ∃ names es, generateDotString outputSorted g ⇓
      getNodesStringStream (node_order outputSorted names) +:+
      (if decide (es = []) then "" else newline) +:+ String.concat "" (edge_text <$> es) ∧
    (∀ f, f ∈ names ↔ ∃ i n, node_at g i = Some n ∧ functionName n = f) ∧
    inv es ∧ (∀ x, x ∈ es → is_Some (edges g !! x)) ∧
    (∀ e, is_Some (edges g !! e) → ∃ x, x ∈ es ∧ same e x).
Proof.
  intros Hwf Hnone. unfold generateDotString.
  destruct (fillNodesAndEdges_ret Hwf Hnone) as (names & s & -> & Hnames & Hinv & Hin & Hall).
  exists names, (edge_list s). cbn [mbind outcome_bind snd fst]. rewrite edge_strings_ret.
  - split_and!; done.
  - apply Forall_forall. intros x Hx. by apply edge_live, Hin.
Qed.
End fill.

(** When two edges count as the same: in the sorted output, when the
    concatenated names are equal. *)
Definition same_edge (outputSorted : bool) g e x : Prop :=
  if outputSorted then key g e = key g x else e = x.

(** For a graph without erased nodes the generator writes a header, one
    line for every function name, and one line for every edge; sorted output
    lists the edges in strictly increasing order of their concatenated names,
    and of several edges with the same concatenation only one. *)
Theorem generate_lists_graph (outputSorted : bool) g :
  wf g → (∀ o, o ∈ nodes g → is_Some o) →
  ∃ names es, generate outputSorted g ⇓
      "digraph callgraph {" +:+ newline +:+
      (getNodesStringStream (node_order outputSorted names) +:+
       (if decide (es = []) then "" else newline) +:+ String.concat "" (edge_text g <$> es)) +:+
      "}" +:+ newline ∧
    (∀ f, f ∈ names ↔ ∃ i n, node_at g i = Some n ∧ functionName n = f) ∧
    (if outputSorted then StronglySorted (before g) es else NoDup es) ∧
    (∀ x, x ∈ es → is_Some (edges g !! x)) ∧
    (∀ e, is_Some (edges g !! e) → ∃ x, x ∈ es ∧ same_edge outputSorted g e x).
Proof.
  intros Hwf Hnone. unfold generate. destruct outputSorted.
  - destruct (generateDotString_ret (EC := sorted_edges) g _ _ true Hwf Hnone)
      as (names & es & -> & ?). by exists names, es.
  - destruct (generateDotString_ret (EC := unordered_edges) g _ _ false Hwf Hnone)
      as (names & es & -> & ?). by exists names, es.
Qed.
End generator.
