(* ===== verification/DotExamples.v ===== *)
(** * DOT files: examples

    The expectations of [graph/test/unit/DotIOTest.cpp] hold in the model; then
    witnesses for the theorems about reader and generator, and what goes wrong
    between the two. *)

From Stdlib Require Import Ascii.
From S2P Require Import Prelude Json MetaData BuiltinMD Util Callgraph.
From S2P Require Import CallgraphWf CallgraphOps CallgraphSpec CallgraphProps MergeExamples.
From S2P Require Import Dot DotProps DotReader DotGenerator.

Lemma ret_string_eq (o : outcome string) t :
  match o with Ret s => String.eqb s t | _ => false end = true → o ⇓ t.
Proof. destruct o; [|done..]. by intros ->%String.eqb_eq. Qed.

Lemma all_some {A} (l : list (option A)) :
  forallb (λ o, match o with Some _ => true | None => false end) l = true →
  ∀ o, o ∈ l → is_Some o.
Proof. rewrite forallb_forall. intros Hl [x|] Ho%list_elem_of_In%Hl; [by exists x|done]. Qed.

Module DotExample.
Import MergeExample.
#[local] Existing Instance JsonTree.ops.
#[local] Existing Instance canonical_order.

(** ** The tokenizer tests *)

Definition nl : string := newline.
Definition q : string := quote.

Example InitialTestTwo ls :
  splitToTokenStrings ls ("digraph callgraph {" +:+ nl +:+ "n" +:+ nl +:+ "1" +:+ nl +:+ "1n" +:+ nl +:+
    "n1" +:+ nl +:+ "}" +:+ nl) ⇓
  ["digraph"; "callgraph"; "{"; "n"; "1"; "1"; "n"; "n1"; "}"].
Proof. by destruct ls; vm_compute. Qed.

Example InitialTestFour ls :
  splitToTokenStrings ls ("digraph callgraph {n [attribute=" +:+ q +:+ "asdf" +:+ q +:+ "]" +:+ nl +:+
    "}" +:+ nl) ⇓
  ["digraph"; "callgraph"; "{"; "n"; "["; "attribute"; "="; q; "asdf"; q; "]"; "}"].
Proof. by destruct ls; vm_compute. Qed.

Example TokenStreamTest ls :
  tokenize ls ("digraph callgraph {a -> b -> c}" +:+ nl) ⇓
  [mkToken ENTITY "digraph"; mkToken ENTITY "callgraph"; mkToken IGNORE "{"; mkToken ENTITY "a";
   mkToken CONNECTOR "->"; mkToken ENTITY "b"; mkToken CONNECTOR "->"; mkToken ENTITY "c";
   mkToken IGNORE "}"].
Proof. by destruct ls; vm_compute. Qed.

(** ** Reading *)

Definition sp : list ascii := [" "%char].

(** Two lines, [a -> b2 -> "c" ] and [1 a ]. *)
Definition body : list (list ascii * list (word * list ascii)) := [
  (sp ++ sp, [(Plain "a", sp); (Arrow, sp); (Plain "b2", sp); (Arrow, sp); (Quoted "c", sp)]);
  ([], [(Plain "1", sp); (Plain "a", sp)])].

Definition chains : list chain := [(("a", false), [("b2", false); ("c", true)]); (("1", false), []); (("a", false), [])].

Lemma dot_read_correct_witness :
  ∃ g, read_lines (λ _, DIGIT) true 1
    (("digraph " +:+ "g" +:+ " {") :: (dot_line <$> body) ++ ["}"]) ⇓ g ∧
    dot_graph (names_of chains) (calls_of chains) g.
Proof.
  apply (dot_read_correct (MDI := builtin_md) (λ _, DIGIT) true 1 "g" body chains).
  - by vm_compute.
  - repeat constructor; by vm_compute.
  - repeat constructor; by vm_compute.
  - by vm_compute.
Defined.

(** ** Writing *)

(** [a] calls [b] and [d], and [c] calls [d]. *)
Definition fork : Callgraph := graph_of 1 [
  OInsert "a" None false true; OInsert "b" None false true;
  OInsert "c" None false true; OInsert "d" None false true;
  OAddEdge 0 1; OAddEdge 2 3; OAddEdge 0 3].

Lemma fork_wf : wf fork.
Proof. apply graph_of_wf. by apply (bool_decide_unpack _); vm_compute. Qed.

Definition text_of (lines : list string) : string := String.concat "" ((λ l, l +:+ newline) <$> lines).

Definition fork_lines : list string :=
  ["digraph callgraph {"; "  " +:+ q +:+ "a" +:+ q; "  " +:+ q +:+ "b" +:+ q; "  " +:+ q +:+ "c" +:+ q;
   "  " +:+ q +:+ "d" +:+ q; ""; "  a -> b"; "  a -> d"; "  c -> d"; "}"].

(** The answers of a graph that was read to questions about calls. *)
Definition read_calls (ls : LastSeen) (target_first : bool) (lines : list string)
    (questions : list (string * string)) : option (list bool) :=
  match read_lines (λ _, ls) target_first 1 lines with
  | Ret g => Some ((λ st, existsAnyEdge g st.1 st.2) <$> questions)
  | _ => None
  end.

(** The reader does not understand what the generator writes.  It never
    inserts the last word of a line, so the callees disappear, and the arrow
    left on the stack connects the caller with the next one: from [a -> b],
    [a -> d], [c -> d] come [a -> a] and [a -> c]. *)
Theorem dot_written_not_read_back (ls : LastSeen) (target_first : bool) :
  generate true fork ⇓ text_of fork_lines ∧
  read_calls ls target_first fork_lines
    [("a", "b"); ("a", "d"); ("c", "d"); ("a", "a"); ("a", "c")] =
  Some [false; false; false; true; true].
Proof.
  split; [|by destruct ls, target_first; vm_compute].
  apply ret_string_eq. by vm_compute.
Qed.

Lemma generate_lists_graph_witness :
  ∃ names es, generate true fork ⇓
      "digraph callgraph {" +:+ newline +:+
      (getNodesStringStream (node_order true names) +:+
       (if decide (es = []) then "" else newline) +:+ String.concat "" (edge_text fork <$> es)) +:+
      "}" +:+ newline ∧
    (∀ f, f ∈ names ↔ ∃ i n, node_at fork i = Some n ∧ functionName n = f) ∧
    StronglySorted (λ e x, String.ltb (key fork e) (key fork x) = true) es ∧
    (∀ x, x ∈ es → is_Some (edges fork !! x)) ∧
    (∀ e, is_Some (edges fork !! e) → ∃ x, x ∈ es ∧ same_edge true fork e x).
Proof.
  apply (generate_lists_graph (MDI := builtin_md) (IO := canonical_order) true fork fork_wf).
  apply all_some. by vm_compute.
Defined.

(** A mangled name is torn into its parts. *)
Example mangled_name_torn ls :
  tokenize ls "  _Z3foov -> main " ⇓
  [mkToken IGNORE "_"; mkToken ENTITY "Z3"; mkToken ENTITY "foov"; mkToken CONNECTOR "->";
   mkToken ENTITY "main"].
Proof. by destruct ls; vm_compute. Qed.

(** Two different edges, [a -> bc] and [ab -> c], have the same concatenation. *)
Definition lookalike : Callgraph := graph_of 1 [
  OInsert "a" None false true; OInsert "bc" None false true;
  OInsert "ab" None false true; OInsert "c" None false true; OAddEdge 0 1; OAddEdge 2 3].

Definition lookalike_lines (last : string) : list string :=
  ["digraph callgraph {"; "  " +:+ q +:+ "a" +:+ q; "  " +:+ q +:+ "ab" +:+ q;
   "  " +:+ q +:+ "bc" +:+ q; "  " +:+ q +:+ "c" +:+ q; ""; last; "}"].

Example sorted_output_loses_edge :
  match generate true lookalike with
  | Ret s => bool_decide (s = text_of (lookalike_lines "  a -> bc"))
  | _ => false
  end = true.
Proof. by vm_compute. Qed.
End DotExample.
