(* ===== verification/PgisProcessor.v ===== *)
(** * PGIS: the processor

    [pgis/lib/src/PiraMCGProcessor.cpp]: the queue of phases, running them on
    the graph, and the file with the selected functions; and
    [registerEstimatorPhases] of [pgis/tool/PGISMain.cpp].

    The phases are objects on a heap, so that a phase can ask an earlier one
    (the statistics phase) for its results.  The files that are written are a
    map from their names to their contents. *)

From S2P Require Import Prelude Json MetaData BuiltinMD Callgraph CallgraphWf.
From S2P Require Import CallgraphOps Reach Dominators Dot PgisMD PgisAccess.
From S2P Require Import CgHelper PgisConfig PgisPhases PgisCounts LIPhase.

(** ** Phases *)

Inductive PhaseKind :=
  | NopEstimatorPhase (didRun : bool)
  | PhaseOnlyMain
  | PhaseFirstNLevels (ph : FirstNLevelsEstimatorPhase)
  | PhaseWLInstr (ph : WLInstrEstimatorPhase)
  | PhaseStatistics (ph : StatisticsEstimatorPhase)
  | PhaseStatementCount (ph : StatementCountEstimatorPhase)
  | PhaseSummingCount (ph : SummingCountPhase)
  | PhaseFill (ph : FillInstrumentationGapsPhase)
  | PhaseStore
  | PhaseLI (c : LIConfig).

(** The number of a phase is its place on the heap; [noReportRequired] is set
    and never read. *)
Record EstimatorPhase := mkPhase {
  phase_name : string;
  phase_IC : InstrumentationConfiguration;
  noReportRequired : bool;
  phase_kind : PhaseKind
}.

Definition EstimatorPhase_new (name : string) (k : PhaseKind) : EstimatorPhase :=
  mkPhase name IC_new false k.

Definition Inclusive_prefix (inclusive : bool) : string := if inclusive then "Incl-" else "Excl-".

Definition new_StatementCount (nStmt : Z) (inclusive : bool) (prev : option nat) : EstimatorPhase :=
  EstimatorPhase_new (Inclusive_prefix inclusive +:+ "StatementCount-" +:+ pretty nStmt)
    (PhaseStatementCount (StatementCount_new nStmt inclusive prev)).

Definition count_name (k : CountKind) : string :=
  match k with
  | ConditionalBranchesEstimatorPhase => "ConditionalBranches"
  | ConditionalBranchesReverseEstimatorPhase => "ConditionalBranchesReverse"
  | FPAndMemOpsEstimatorPhase => "IntMemoryAccesses"
  | LoopDepthEstimatorPhase => "LoopDepth"
  | GlobalLoopDepthEstimatorPhase => "GlobalLoopDepth"
  end.
Definition new_SummingCount (k : CountKind) (threshold : Z) (prev : option nat) : EstimatorPhase :=
  EstimatorPhase_new (Inclusive_prefix (kind_inclusive k) +:+ count_name k +:+ "-" +:+ pretty threshold)
    (PhaseSummingCount (SummingCount_new k threshold prev)).

Definition new_Statistics (shouldPrint : bool) : EstimatorPhase :=
  EstimatorPhase_new "StatisticsEstimatorPhase" (PhaseStatistics (Statistics_new shouldPrint)).
Definition new_Fill (cfg : GlobalConfig) : outcome EstimatorPhase :=
  ph ← Fill_new cfg; Ret (EstimatorPhase_new "FillInstrumentationGapsPhase" (PhaseFill ph)).
Definition new_Store : EstimatorPhase :=
  EstimatorPhase_new "StoreInstrumentationDecisionsPhase" PhaseStore.

(** ** The processor *)

Abbreviation FileMap := (gmap string string).

Section processor.
Context {JO : JsonOps} {MDI : MetaDataI} {IO : IterOrder} `{!PgisClasses}.

Record PiraMCGProcessor := mkProcessor {
  pr_graph : Callgraph;
  outputFile : string;
  appName : string;
  noOutputRequired : bool;
  outputDotBetweenPhases : bool;
  pr_phases : list nat;
  pr_heap : list EstimatorPhase;
  pr_files : FileMap
}.

Definition pr_set_graph (g : Callgraph) (p : PiraMCGProcessor) : PiraMCGProcessor :=
  mkProcessor g (outputFile p) (appName p) (noOutputRequired p) (outputDotBetweenPhases p)
    (pr_phases p) (pr_heap p) (pr_files p).
Definition pr_set_files (fs : FileMap) (p : PiraMCGProcessor) : PiraMCGProcessor :=
  mkProcessor (pr_graph p) (outputFile p) (appName p) (noOutputRequired p) (outputDotBetweenPhases p)
    (pr_phases p) (pr_heap p) fs.
Definition pr_set_phases (l : list nat) (p : PiraMCGProcessor) : PiraMCGProcessor :=
  mkProcessor (pr_graph p) (outputFile p) (appName p) (noOutputRequired p) (outputDotBetweenPhases p)
    l (pr_heap p) (pr_files p).
Definition pr_set_phase (i : nat) (ph : EstimatorPhase) (p : PiraMCGProcessor) : PiraMCGProcessor :=
  mkProcessor (pr_graph p) (outputFile p) (appName p) (noOutputRequired p) (outputDotBetweenPhases p)
    (pr_phases p) (<[i := ph]> (pr_heap p)) (pr_files p).

(** [new] and [registerEstimatorPhase]: the pointer is the next free place. *)
Definition registerEstimatorPhase (phase : EstimatorPhase) (noReport : bool) (p : PiraMCGProcessor)
    : PiraMCGProcessor * nat :=
  let i := length (pr_heap p) in
  (mkProcessor (pr_graph p) (outputFile p) (appName p) (noOutputRequired p) (outputDotBetweenPhases p)
     (pr_phases p ++ [i])
     (pr_heap p ++ [if noReport then mkPhase (phase_name phase) (phase_IC phase) true (phase_kind phase)
                    else phase]) (pr_files p), i).

Definition removeAllEstimatorPhases (p : PiraMCGProcessor) : PiraMCGProcessor := pr_set_phases [] p.
Definition hasPassesRegistered (p : PiraMCGProcessor) : bool := bool_decide (pr_phases p ≠ []).

(** The exit codes are [NoGraphConstructed] and [NoMainFunctionFound]. *)
Definition finalizeGraph (p : PiraMCGProcessor) : outcome PiraMCGProcessor :=
  if isEmpty (pr_graph p) then Throw (process_exit 1)
  else if decide (0 < cg_size (pr_graph p)) then
    r ← getMain (pr_graph p) false;
    match r.2 with None => Throw (process_exit 2) | Some _ => Ret (pr_set_graph r.1 p) end
  else Ret p.

(** *** The phases behind the virtual functions *)

(** The statistics phase that a pointer refers to. *)
Definition get_statistics (heap : list EstimatorPhase) (i : nat) : outcome StatisticsEstimatorPhase :=
  ph ← deref (heap !! i);
  match phase_kind ph with PhaseStatistics s => Ret s | _ => UB end.

Definition get_previous (heap : list EstimatorPhase) (pSEP : option nat)
    : outcome (option StatisticsEstimatorPhase) :=
  match pSEP with None => Ret None | Some i => s ← get_statistics heap i; Ret (Some s) end.

Definition doPrerequisites (fuel : nat) (k : PhaseKind) (g : Callgraph) : outcome Callgraph :=
  match k with PhaseLI _ => LI_doPrerequisites fuel g | _ => Ret g end.

Definition modifyGraph (cfg : GlobalConfig) (fuel : nat) (heap : list EstimatorPhase) (k : PhaseKind)
    (g : Callgraph) (mainMethod : NodePtr) : outcome (PhaseKind * Callgraph) :=
  match k with
  | NopEstimatorPhase _ => Ret (NopEstimatorPhase true, g)
  | PhaseOnlyMain => g ← OnlyMain_modifyGraph g mainMethod; Ret (k, g)
  | PhaseFirstNLevels ph => g ← FirstNLevels_modifyGraph ph fuel g mainMethod; Ret (k, g)
  | PhaseWLInstr ph => g ← WLInstr_modifyGraph ph g; Ret (k, g)
  | PhaseStatistics s => r ← Statistics_modifyGraph cfg fuel s g; Ret (PhaseStatistics r.1, r.2)
  | PhaseStatementCount ph =>
      prev ← get_previous heap (sc_pSEP ph);
      r ← StatementCount_modifyGraph cfg fuel prev ph g; Ret (PhaseStatementCount r.1, r.2)
  | PhaseSummingCount ph =>
      prev ← get_previous heap (sum_pSEP ph);
      r ← SummingCount_modifyGraph cfg fuel prev ph g; Ret (PhaseSummingCount r.1, r.2)
  | PhaseFill ph => r ← Fill_modifyGraph ph fuel g mainMethod; Ret (PhaseFill r.1, r.2)
  | PhaseStore => g ← Store_modifyGraph g; Ret (k, g)
  | PhaseLI c => g ← LI_modifyGraph c fuel g mainMethod; Ret (k, g)
  end.

(** Only the report of the statistics phase can fail. *)
Definition printReport (k : PhaseKind) : outcome unit :=
  match k with PhaseStatistics s => _ ← Statistics_report s; Ret tt | _ => Ret tt end.

(** *** The output *)

Definition instrumentation_file (p : PiraMCGProcessor) : string :=
  outputFile p +:+ "/instrumented-" +:+ appName p +:+ ".txt".

Definition text (lines : list string) : string := String.concat "" ((λ l, l +:+ newline) <$> lines).

Definition plain_lines (IC : InstrumentationConfiguration) : list string :=
  if decide (instrumentedNodes IC = ∅) then ["aFunctionThatDoesNotExist"]
  else iter_set (instrumentedNames IC).

Definition path_lines (g : Callgraph) (np : string * NodePtr) : outcome (list string) :=
  parents ← callers_ptr g np.2;
  foldM (λ acc parent, n ← ptr_node g parent;
           Ret (acc ++ ["INCLUDE " +:+ functionName n +:+ " -> " +:+ np.1])) [] (iter_set parents).

Definition scorep_lines (g : Callgraph) (IC : InstrumentationConfiguration) : outcome (list string) :=
  paths ← foldM (λ acc np, l ← path_lines g np; Ret (acc ++ l)) [] (iter_map (instrumentedPaths IC));
  Ret (["SCOREP_REGION_NAMES_BEGIN"] ++ ((λ name, "INCLUDE " +:+ name) <$> iter_set (instrumentedNames IC))
       ++ paths ++ ["SCOREP_REGION_NAMES_END"]).

(** The file is written anew for every phase. *)
Definition dumpInstrumentedNames (cfg : GlobalConfig) (IC : InstrumentationConfiguration)
    (p : PiraMCGProcessor) : outcome PiraMCGProcessor :=
  if noOutputRequired p then Ret p
  else
    scorepOutput ← getAs bool cfg scorepOut;
    lines ← (if scorepOutput : bool then scorep_lines (pr_graph p) IC else Ret (plain_lines IC));
    Ret (pr_set_files (<[instrumentation_file p := text lines]> (pr_files p)) p).

(** [DotGenerator::output] for one phase. *)
Definition dot_between_phases (name : string) (p : PiraMCGProcessor) : outcome PiraMCGProcessor :=
  if outputDotBetweenPhases p then
    s ← generate true (pr_graph p);
    Ret (pr_set_files (<["./DotOutput/" +:+ name +:+ "-PGIS-Dot.dot" := s +:+ newline]> (pr_files p)) p)
  else Ret p.

(** *** Running the phases *)

Definition run_phase (cfg : GlobalConfig) (fuel : nat) (mainFunction : NodePtr) (i : nat)
    (p : PiraMCGProcessor) : outcome PiraMCGProcessor :=
  phase ← deref (pr_heap p !! i);
  g ← doPrerequisites fuel (phase_kind phase) (pr_graph p);
  r ← modifyGraph cfg fuel (pr_heap p) (phase_kind phase) g mainFunction;
  ic ← generateIC r.2 (phase_IC phase);
  _ ← printReport r.1;
  let p := pr_set_graph ic.1
             (pr_set_phase i (mkPhase (phase_name phase) ic.2 (noReportRequired phase) r.1) p) in
  p ← dumpInstrumentedNames cfg ic.2 p;
  dot_between_phases (phase_name phase) p.

(** The queue is emptied from the front; no phase registers another. *)
Fixpoint run_queue (cfg : GlobalConfig) (fuel : nat) (mainFunction : NodePtr) (queue : list nat)
    (p : PiraMCGProcessor) : outcome PiraMCGProcessor :=
  match queue with
  | [] => Ret (pr_set_phases [] p)
  | i :: queue => p ← run_phase cfg fuel mainFunction i p; run_queue cfg fuel mainFunction queue p
  end.

Definition applyRegisteredPhases (cfg : GlobalConfig) (fuel : nat) (p : PiraMCGProcessor)
    : outcome PiraMCGProcessor :=
  p ← finalizeGraph p;
  m ← getMain (pr_graph p) false;
  match m.2 with
  | None => Throw (process_exit 2)
  | Some _ => run_queue cfg fuel m.2 (pr_phases p) (pr_set_graph m.1 p)
  end.

(** *** [registerEstimatorPhases] of [PGISMain.cpp], for the static selection *)

Definition heuristic_phase (h : HeuristicSelection) (statEstimator : nat) : EstimatorPhase :=
  match heuristic_kind h with
  | None => new_StatementCount 2000 true (Some statEstimator)
  | Some k => new_SummingCount k 0 (Some statEstimator)
  end.

Definition registerEstimatorPhases (cfg : GlobalConfig) (fillInstrumentationGaps : bool)
    (p : PiraMCGProcessor) : outcome PiraMCGProcessor :=
  let st := registerEstimatorPhase (new_Statistics false) false p in
  heuristicMode ← getSelectedHeuristic cfg;
  let p := (registerEstimatorPhase (heuristic_phase heuristicMode st.2) false st.1).1 in
  p ← (if fillInstrumentationGaps
       then f ← new_Fill cfg; Ret (registerEstimatorPhase f false p).1 else Ret p);
  let p := (registerEstimatorPhase (new_Statistics true) false p).1 in
  Ret (registerEstimatorPhase new_Store false p).1.

(** *** Other functions *)

Definition isNodeListed (whiteNodes : list string) (node : string) : bool :=
  existsb (λ wNode, bool_decide (node = wNode)) whiteNodes.

(** The lines of the file, if it can be opened; empty lines are left out. *)
Definition readWhitelist (lines : option (list string)) (whiteNodes : list string)
    : list string * bool :=
  match lines with
  | None => (whiteNodes, false)
  | Some l => (whiteNodes ++ filter (λ s, s ≠ "") l, true)
  end.

(** [get<BaseProfileData>()] is null for nodes without a profile; the loop is
    left after the first node that has locations of other processes. *)
Definition count_procs (st : Z * Z) (loc : CgLocation) : Z * Z :=
  if decide (loc_procId loc ≠ st.2) then ((st.1 + 1)%Z, loc_procId loc) else st.

Fixpoint num_procs (g : Callgraph) (l : list NodePtr) (st : Z * Z) : outcome Z :=
  match l with
  | [] => Ret st.1
  | p :: l =>
      bpd ← ptr_get BaseProfileData g p;
      b ← deref bpd;
      let st := foldl count_procs st (cgLoc b) in
      if decide (st.1 > 1)%Z then Ret st.1 else num_procs g l st
  end.
Definition getNumProcs (g : Callgraph) : outcome Z := num_procs g (node_ptrs g) (1, 0)%Z.
End processor.
