(* ===== verification/PgisStatic.v ===== *)
(** * PGIS: the static selection from the queue to the file

    Theorems about [generateIC] ([pgis/lib/src/EstimatorPhase.cpp]), the phase
    that stores the decisions, and the whole static selection: the phases that
    [registerEstimatorPhases] ([pgis/tool/PGISMain.cpp]) puts into the queue,
    run by [applyRegisteredPhases] ([pgis/lib/src/PiraMCGProcessor.cpp]). *)

From S2P Require Import Prelude Json MetaData BuiltinMD Callgraph CallgraphWf.
From S2P Require Import CallgraphOps CallgraphSpec CallgraphProps Worklist Reach.
From S2P Require Import Dominators Dot PgisMD PgisAccess PgisWalk CgHelper.
From S2P Require Import PgisConfig PgisPhases PgisGaps PgisCounts PgisReach PgisCountsProps.
From S2P Require Import PgisSelect PgisStatistics LIPhase PgisProcessor.

Section graph.
Context {JO : JsonOps} {MDI : MetaDataI} {IO : IterOrder} `{!PgisClasses}.
Context (g : Callgraph) (Hwf : wf g) (Hfull : full g) (Hmarks : marks_ok g).

(** ** The configuration *)

Definition marked_as (s : InstrumentationState) (i : NodeId) (name : string) : Prop :=
  ∃ n, node_at g i = Some n ∧ functionName n = name ∧ mark g i = Some s.

Definition IC_lists (ic0 ic : InstrumentationConfiguration) (dn : list NodePtr) : Prop :=
  (∀ name, name ∈ instrumentedNames ic ↔
     name ∈ instrumentedNames ic0 ∨ ∃ i, Some i ∈ dn ∧ marked_as Instrumented i name) ∧
  (∀ p, p ∈ instrumentedNodes ic ↔
     p ∈ instrumentedNodes ic0 ∨ ∃ i, p = Some i ∧ Some i ∈ dn ∧ mark g i = Some Instrumented) ∧
  (∀ name, is_Some (instrumentedPaths ic !! name) ↔
     is_Some (instrumentedPaths ic0 !! name) ∨ ∃ i, Some i ∈ dn ∧ marked_as InstrumentedPath i name).

Lemma IC_snoc (P : NodeId → Prop) dn i : (∃ j, Some j ∈ dn ++ [Some i] ∧ P j) ↔ (∃ j, Some j ∈ dn ∧ P j) ∨ P i.
Proof using Type.
  clear. setoid_rewrite elem_of_app. split.
  - intros (j & [?|[= ->]%list_elem_of_singleton] & ?); [left; by exists j|by right].
  - intros [(j & ? & ?)|?]; [exists j|exists i]; (split; [|done]); [by left|right; by left].
Qed.

(** One node: what it adds follows from its mark. *)
Lemma IC_step ic0 ic ic' dn i n s :
  node_at g i = Some n → mark g i = Some s → IC_lists ic0 ic dn →
  ic' = match s with
        | Instrumented => IC_add_node (functionName n) (Some i) ic
        | InstrumentedPath => IC_add_path (functionName n) (Some i) ic
        | NotInstrumented => ic
        end → IC_lists ic0 ic' (dn ++ [Some i]).
Proof using Type.
  clear Hwf Hfull Hmarks. intros Hn Hs (H1 & H2 & H3) ->.
  assert (∀ t name, marked_as t i name ↔ t = s ∧ name = functionName n) as Hmk.
  { intros t name. unfold marked_as. rewrite Hn, Hs. split; [intros (? & [= <-] & <- & [= <-]); done|].
    intros [-> ->]. by exists n. }
  split_and!.
  - intros name. rewrite (IC_snoc (λ j, marked_as Instrumented j name)), Hmk.
    destruct s; cbn [IC_add_node IC_add_path instrumentedNames]; rewrite ?elem_of_union, ?elem_of_singleton, H1; naive_solver.
  - intros p. assert ((∃ j, p = Some j ∧ Some j ∈ dn ++ [Some i] ∧ mark g j = Some Instrumented) ↔
      (∃ j, p = Some j ∧ Some j ∈ dn ∧ mark g j = Some Instrumented) ∨ (p = Some i ∧ s = Instrumented)) as ->.
    { setoid_rewrite elem_of_app. setoid_rewrite list_elem_of_singleton. split; [|naive_solver].
      intros (j & -> & [?|[= ->]] & Hj); [left; by exists j|right]. split; [done|]. congruence. }
    destruct s; cbn [IC_add_node IC_add_path instrumentedNodes]; rewrite ?elem_of_union, ?elem_of_singleton, H2; naive_solver.
  - intros name. rewrite (IC_snoc (λ j, marked_as InstrumentedPath j name)), Hmk.
    destruct s; cbn [IC_add_node IC_add_path instrumentedPaths]; [rewrite H3; naive_solver..|].
    assert (is_Some (match instrumentedPaths ic !! functionName n with
        | Some _ => instrumentedPaths ic
        | None => <[functionName n := Some i]> (instrumentedPaths ic) end !! name) ↔
      is_Some (instrumentedPaths ic !! name) ∨ name = functionName n) as ->; [|rewrite H3; naive_solver].
    destruct (instrumentedPaths ic !! functionName n) eqn:E.
    + split; [by left|]. intros [?| ->]; [done|by eexists].
    + rewrite lookup_insert_is_Some'. naive_solver.
Qed.

Lemma generateIC_ret ic0 :
  ∃ g' ic, generateIC g ic0 ⇓ (g', ic) ∧ same_marks g g' ∧ IC_lists ic0 ic (node_ptrs g).
Proof using Hwf Hfull Hmarks.
  unfold generateIC.
  destruct (foldM_ind (λ dn st, same_marks g st.1 ∧ IC_lists ic0 st.2 dn) generateIC_node (node_ptrs g) (g, ic0))
    as ([g' ic] & Hr & Hsm & Hic).
  - split; [apply same_marks_refl|]. cbn [snd]. split_and!; intros x; split; try (by left);
      (intros [?|Hx]; [done|]); [destruct Hx as (? & ?%elem_of_nil & _)|destruct Hx as (? & _ & ?%elem_of_nil & _)|
                                 destruct Hx as (? & ?%elem_of_nil & _)]; done.
  - intros dn p rest [g1 ic1] Hlp [Hsm Hic]. cbn [fst snd] in *.
    destruct (elem_of_node_ptrs g p Hwf Hfull) as (i & -> & Hi); [rewrite Hlp; set_solver|].
    destruct (Hmarks i Hi) as [s Hs]. destruct Hi as [n Hn].
    destruct (isInstrumented_ret g1 i s ltac:(by rewrite (proj2 Hsm))) as (g2 & Hr2 & Hf2 & Hm2).
    pose proof (same_marks_trans _ _ _ Hsm Hf2 Hm2) as Hsm2.
    destruct (frame_node (proj1 Hsm2) i n Hn) as (n2 & Hn2 & _ & Hname & _).
    unfold generateIC_node. cbn [fst snd]. rewrite Hr2, bind_ret. cbn [fst snd].
    case_bool_decide as H1.
    { rewrite (ptr_node_ret _ _ _ Hn2), bind_ret, Hname. eexists. split; [done|]. split; [done|].
      eapply (IC_step _ _ _ _ _ _ _ Hn Hs Hic). by subst s. }
    destruct (isInstrumentedPath_ret g2 i s ltac:(by rewrite (proj2 Hsm2))) as (g3 & Hr3 & Hf3 & Hm3).
    pose proof (same_marks_trans _ _ _ Hsm2 Hf3 Hm3) as Hsm3.
    destruct (frame_node (proj1 Hsm3) i n Hn) as (n3 & Hn3 & _ & Hname3 & _).
    rewrite Hr3, bind_ret. cbn [fst snd]. case_bool_decide as H2.
    + rewrite (ptr_node_ret _ _ _ Hn3), bind_ret, Hname3. eexists. split; [done|]. split; [done|].
      eapply (IC_step _ _ _ _ _ _ _ Hn Hs Hic). by subst s.
    + eexists. split; [done|]. split; [done|]. eapply (IC_step _ _ _ _ _ _ _ Hn Hs Hic). by destruct s.
  - by exists g', ic.
Qed.

(** The configuration that a phase produces lists exactly the names of the
    functions marked for instrumentation, with their nodes, and the names of
    those marked for call-site instrumentation; no mark changes. *)
Theorem generateIC_correct :
  ∃ g' ic, generateIC g IC_new ⇓ (g', ic) ∧ same_marks g g' ∧
    (∀ name, name ∈ instrumentedNames ic ↔ ∃ i, marked_as Instrumented i name) ∧
    (∀ p, p ∈ instrumentedNodes ic ↔ ∃ i, p = Some i ∧ mark g i = Some Instrumented) ∧
    (∀ name, is_Some (instrumentedPaths ic !! name) ↔ ∃ i, marked_as InstrumentedPath i name).
Proof using Hwf Hfull Hmarks.
  destruct (generateIC_ret IC_new) as (g' & ic & Hr & Hsm & H1 & H2 & H3). exists g', ic.
  assert (∀ i s, mark g i = Some s → Some i ∈ node_ptrs g) as Hin.
  { intros i s Hs. apply node_ptrs_live; [done..|]. by eapply mark_live. }
  split_and!; [done|done|intros name; rewrite H1|intros p; rewrite H2|intros name; rewrite H3].
  - split; [intros [?%elem_of_empty|(i & _ & ?)]; [done|by exists i]|].
    intros (i & n & ? & ? & Hs). right. exists i. split; [by eapply Hin|by exists n].
  - split; [intros [?%elem_of_empty|(i & -> & _ & ?)]; [done|by exists i]|].
    intros (i & -> & Hs). right. exists i. split_and!; [done|by eapply Hin|done].
  - split; [intros [[? ?]|(i & _ & ?)]; [done|by exists i]|].
    intros (i & n & ? & ? & Hs). right. exists i. split; [by eapply Hin|by exists n].
Qed.
End graph.

(** ** Storing the decisions *)

Section store.
Context {JO : JsonOps} {MDI : MetaDataI} {IO : IterOrder} `{!PgisClasses}.
Context (g : Callgraph) (Hwf : wf g) (Hfull : full g) (Hmarks : marks_ok g).
Context (Hres : ∀ i, live g i → is_Some (md_view InstrumentationResultMetaData g i)).

Definition IRMD_key : string := T_key InstrumentationResultMetaData.

(** Whether a node is marked in some way. *)
Definition is_marked (i : NodeId) : bool := bool_decide (mark g i ≠ Some NotInstrumented).

(** The decision in the metadata, and that of the node without metadata. *)
Definition stored (i : NodeId) : option InstrumentationResultMetaData :=
  set_shouldBeInstrumented (is_marked i) <$> md_view InstrumentationResultMetaData g i.

Definition store_inv (dn : list NodePtr) (g1 : Callgraph) : Prop :=
  frame {[IMD_key; IRMD_key]} g g1 ∧ (∀ j, mark g1 j = mark g j) ∧
  ∀ j, md_view InstrumentationResultMetaData g1 j =
       if decide (Some j ∈ dn) then stored j else md_view InstrumentationResultMetaData g j.

Lemma store_decision_ret g1 i dn : store_inv dn g1 → live g i → Some i ∉ dn →
  ∃ g2, store_decision g1 (Some i) ⇓ g2 ∧ store_inv (dn ++ [Some i]) g2.
Proof using Hwf Hfull Hmarks Hres.
  intros (Hf1 & Hm1 & Hv1) Hi Hdn. destruct (Hmarks i Hi) as [s Hs]. destruct (Hres i Hi) as [r Hr].
  destruct (isAnyInstrumented_ret g1 i s ltac:(by rewrite Hm1)) as (g2 & Hr2 & Hf2 & Hm2).
  assert (∀ j, md_view InstrumentationResultMetaData g2 j = md_view InstrumentationResultMetaData g1 j) as Hv2
    by (intros j; apply (md_view_frame _ _ _ _ _ Hf2); by apply not_elem_of_singleton).
  assert (md_view InstrumentationResultMetaData g2 i = Some r) as Hri by by rewrite Hv2, Hv1, decide_False.
  assert (frame {[IMD_key; IRMD_key]} g g2) as Hf12
    by (eapply frame_trans; [exact Hf1|eapply frame_mono, Hf2; set_solver]).
  assert (is_marked i = bool_decide (s ≠ NotInstrumented)) as Hmk.
  { unfold is_marked. rewrite Hs. apply bool_decide_ext. split; [by intros H1 ->|congruence]. }
  assert (∀ b g3, ptr_modify InstrumentationResultMetaData (set_shouldBeInstrumented b) g2 (Some i) ⇓ g3 →
    b = is_marked i → store_inv (dn ++ [Some i]) g3) as Hset.
  { intros b g3 Hr3 ->. destruct (ptr_modify_ret InstrumentationResultMetaData (set_shouldBeInstrumented (is_marked i)) g2 i r Hri) as (g3' & Hr3' & Hf3 & Hv3).
    rewrite Hr3 in Hr3'. injection Hr3' as <-. split_and!.
    - eapply frame_trans; [exact Hf12|eapply frame_mono, Hf3; unfold IRMD_key; set_solver].
    - intros j. rewrite (mark_frame _ _ _ _ Hf3) by by apply not_elem_of_singleton. by rewrite Hm2.
    - intros j. rewrite Hv3, Hv2, Hv1. destruct (decide (j = i)) as [->|Hne].
      + rewrite decide_True by set_solver. unfold stored. by rewrite Hr.
      + destruct (decide (Some j ∈ dn)); [by rewrite decide_True by set_solver|]. rewrite decide_False; [done|].
        rewrite elem_of_app, list_elem_of_singleton. intros [?|[= ?]]; done. }
  unfold store_decision. rewrite Hr2, bind_ret. cbn [fst snd]. case_bool_decide as Hb.
  - destruct (ptr_modify_ret InstrumentationResultMetaData (set_shouldBeInstrumented true) g2 i r Hri) as (g3 & Hr3 & _).
    exists g3. split; [done|]. by apply (Hset true).
  - destruct (md_view_live _ g2 i r Hri) as [n2 Hn2]. rewrite (ptr_get_ret _ g2 i r n2 Hri Hn2), bind_ret.
    destruct (node_has InstrumentationResultMetaData n2) eqn:Hh.
    + destruct (ptr_modify_ret InstrumentationResultMetaData (set_shouldBeInstrumented false) g2 i r Hri) as (g3 & Hr3 & _).
      exists g3. split; [done|]. by apply (Hset false).
    + exists g2. split; [done|]. split_and!; [done|intros j; by rewrite Hm2|]. intros j. rewrite Hv2, Hv1.
      destruct (decide (j = i)) as [->|Hne].
      * rewrite decide_False by done. rewrite decide_True by set_solver. unfold stored. rewrite Hr, Hmk. cbn.
        unfold md_view in Hri. rewrite Hn2 in Hri. cbn in Hri. unfold md_value in Hri.
        unfold node_has, md_has in Hh. destruct (node_md n2 !! _); [done|]. by injection Hri as <-.
      * destruct (decide (Some j ∈ dn)); [by rewrite decide_True by set_solver|]. rewrite decide_False; [done|].
        rewrite elem_of_app, list_elem_of_singleton. intros [?|[= ?]]; done.
Qed.

Lemma Store_ret : ∃ g', Store_modifyGraph g ⇓ g' ∧ store_inv (node_ptrs g) g'.
Proof using Hwf Hfull Hmarks Hres.
  unfold Store_modifyGraph. apply (foldM_ind store_inv store_decision (node_ptrs g) g).
  - split_and!; [apply frame_refl|done|]. intros j. rewrite decide_False; [done|]. by intros ?%elem_of_nil.
  - intros dn p rest g1 Hlp Hinv.
    destruct (elem_of_node_ptrs g p Hwf Hfull) as (i & -> & Hi); [rewrite Hlp; set_solver|].
    apply store_decision_ret; [done..|]. pose proof (node_ptrs_NoDup g Hwf Hfull) as Hnd. rewrite Hlp in Hnd.
    apply NoDup_app in Hnd as (_ & Hd & _). intros Hin. apply (Hd _ Hin). by left.
Qed.

(** The last phase records for every function whether it is marked, in the
    metadata that the next run of the tool reads; everything else that was
    measured stays, and so do the marks. *)
Theorem Store_correct :
  ∃ g', Store_modifyGraph g ⇓ g' ∧ frame {[IMD_key; IRMD_key]} g g' ∧ (∀ j, mark g' j = mark g j) ∧
    ∀ i, live g i → md_view InstrumentationResultMetaData g' i = stored i.
Proof using Hwf Hfull Hmarks Hres.
  destruct Store_ret as (g' & Hr & Hf & Hm & Hv). exists g'. split_and!; [done..|]. intros i Hi.
  rewrite Hv, decide_True; [done|]. by apply node_ptrs_live.
Qed.
End store.
