(* ===== verification/PgisStaticRun.v ===== *)
(** * PGIS: the static selection, from the queue to the file

    The phases that [registerEstimatorPhases] ([pgis/tool/PGISMain.cpp])
    registers for the statement heuristic, run by [applyRegisteredPhases]
    ([pgis/lib/src/PiraMCGProcessor.cpp]): the statistics phase, the statement
    count phase, the statistics phase with its report, and the phase that
    stores the decisions; the file then lists the selected functions. *)

From S2P Require Import Prelude Json MetaData BuiltinMD Callgraph CallgraphWf.
From S2P Require Import CallgraphOps CallgraphSpec CallgraphProps Worklist Reach.
From S2P Require Import Dominators Dot PgisMD PgisAccess PgisWalk CgHelper.
From S2P Require Import PgisConfig PgisPhases PgisGaps PgisCounts PgisReach PgisCountsProps.
From S2P Require Import PgisSelect PgisStatistics LIPhase PgisProcessor PgisStatic.

Section static.
Context {JO : JsonOps} {MDI : MetaDataI} {IO : IterOrder} `{!PgisClasses}.
Context (g : Callgraph) (Hwf : wf g) (Hfull : full g) (m : NodeId) (Hm : mainNode g = Some m).
Context (Hcp : countable_program g).
Context (R : gset NodePtr) (HR : reachable_set g m R) (incl : NodePtr → Z) (Hincl : inclusive_counts g m incl).

Definition all_keys : gset string := {[IMD_key; T_key PiraOneData; IRMD_key]}.

(** The graph between two phases: [sel] are the functions marked by now. *)
Record stage (sel : NodeId → bool) (g1 : Callgraph) : Prop := {
  st_frame : frame all_keys g g1;
  st_pods : same_pods g g1;
  st_marks i : live g i → mark g1 i = Some (if sel i then Instrumented else NotInstrumented);
  st_results i : live g i → is_Some (md_view InstrumentationResultMetaData g1 i)
}.

Section facts.
Context (sel : NodeId → bool) (g1 : Callgraph) (Hst : stage sel g1).
Let Hf : frame all_keys g g1 := st_frame _ _ Hst.

Lemma stage_marks_ok : marks_ok g1.
Proof using Hst. intros i Hi. rewrite (st_marks _ _ Hst i) by by apply (frame_live Hf). by eexists. Qed.

Lemma stage_statements p : statements_of g1 p = statements_of g p.
Proof using Hst. unfold statements_of, md_or. destruct p as [i|]; [|done]. cbn. by rewrite (st_pods _ _ Hst). Qed.

Lemma stage_variables p : variables_of g1 p = variables_of g p.
Proof using Hst.
  unfold variables_of, md_or. destruct p as [i|]; [|done]. cbn. rewrite (md_view_frame _ _ _ _ _ Hf); [done|].
  by vm_compute.
Qed.

Lemma stage_slots : slots g1 = slots g.
Proof using Hst. unfold slots. by rewrite (frame_length Hf). Qed.

Lemma list_sum_ext f f' l : (∀ p, f p = f' p) → list_sum f l = list_sum f' l.
Proof using Type. clear. intros E. unfold list_sum. induction l as [|p l IH]; cbn; [done|]. by rewrite E, IH. Qed.

Lemma stage_countable : countable_program g1.
Proof using Hst Hcp.
  destruct Hcp as [H1 H2 H3 H4 H5]. split.
  - intros i Hi. rewrite (st_pods _ _ Hst). apply H1. by apply (frame_live Hf).
  - unfold set_sum in *. rewrite stage_slots, (list_sum_ext _ _ _ stage_statements). done.
  - intros i Hi. rewrite (md_view_frame _ _ _ _ _ Hf); [|by vm_compute]. apply H3. by apply (frame_live Hf).
  - unfold set_sum in *. rewrite stage_slots, (list_sum_ext _ _ _ stage_variables). done.
  - by rewrite (frame_length Hf).
Qed.

Lemma stage_reachable i X : reachable_set g1 i X ↔ reachable_set g i X.
Proof using Hst. unfold reachable_set. by setoid_rewrite (frame_rtc_calls Hf). Qed.
Lemma stage_from_main i : from_main g1 m i ↔ from_main g m i.
Proof using Hst. apply (frame_rtc_calls Hf). Qed.
End facts.

(** ** One phase more *)

Definition add_selected (t : Z) (sel : NodeId → bool) (i : NodeId) : bool :=
  bool_decide (Some i ∈ R ∧ (t ≤ incl (Some i))%Z) || sel i.

Lemma stage_pass sel g1 g2 t rec cnt0 cnt :
  stage sel g1 → frame stmt_keys g1 g2 → same_pods g1 g2 →
  pass_result g1 m (statements_of g1) t false true rec cnt0 cnt (node_ptrs g1) g2 →
  stage (add_selected t sel) g2.
Proof using All.
  intros Hst Hf2 Hs2 HP. pose proof (st_frame _ _ Hst) as Hf. pose proof (frame_wf Hf Hwf) as Hwf1.
  pose proof (frame_full Hf Hfull) as Hfull1.
  split.
  - eapply frame_trans; [exact Hf|]. eapply frame_mono, Hf2. unfold stmt_keys, all_keys. set_solver.
  - intros j. rewrite Hs2. apply (st_pods _ _ Hst).
  - intros i Hi. assert (live g1 i) as Hi1 by by apply (frame_live Hf).
    destruct (reach_loop_ret g Hwf i Hi) as (Ri & _ & HRi & _).
    destruct (HP i Ri Hi1) as [HP1 HP2]; [by apply (stage_reachable sel)|].
    unfold add_selected. destruct (decide (Some i ∈ R)) as [HiR|HiR].
    + pose proof (proj1 (HR _) HiR) as (? & [= <-] & Hfm).
      destruct HP1 as [-> _]; [by apply node_ptrs_live|by apply (stage_from_main sel)|].
      unfold verdict_of, selected, total. cbn [andb]. unfold set_sum.
      rewrite (list_sum_ext _ _ _ (stage_statements sel g1 Hst)). fold (set_sum (statements_of g) Ri).
      rewrite <- (Hincl i Ri Hfm HRi). rewrite (st_marks _ _ Hst i Hi).
      case_bool_decide as Hle; [by rewrite bool_decide_true|]. rewrite bool_decide_false by by intros [].
      done.
    + destruct HP2 as [-> _].
      { right. intros Hfm%(stage_from_main sel); [|done]. apply HiR, HR. by exists i. }
      rewrite (st_marks _ _ Hst i Hi). rewrite bool_decide_false by by intros []. done.
  - intros i Hi. rewrite (md_view_frame _ _ _ _ _ Hf2); [by apply (st_results _ _ Hst)|]. by vm_compute.
Qed.

(** The names that a configuration lists after a phase. *)
Definition listed (sel : NodeId → bool) (name : string) : Prop :=
  ∃ i n, node_at g i = Some n ∧ functionName n = name ∧ sel i = true.

Definition IC_of (sel : NodeId → bool) (ic : InstrumentationConfiguration) : Prop :=
  (∀ name, name ∈ instrumentedNames ic ↔ listed sel name) ∧
  (instrumentedNodes ic = ∅ ↔ ∀ name, ¬ listed sel name).

Lemma stage_IC sel g1 : stage sel g1 →
  ∃ g2 ic, generateIC g1 IC_new ⇓ (g2, ic) ∧ stage sel g2 ∧ IC_of sel ic.
Proof using All.
  intros Hst. pose proof (st_frame _ _ Hst) as Hf. pose proof (frame_wf Hf Hwf) as Hwf1.
  pose proof (frame_full Hf Hfull) as Hfull1.
  destruct (generateIC_ret g1 Hwf1 Hfull1 (stage_marks_ok sel g1 Hst) IC_new) as (g2 & ic & Hr & [Hf2 Hm2] & H1 & H2 & _).
  exists g2, ic. split; [done|]. split.
  - split.
    + eapply frame_trans; [exact Hf|]. eapply frame_mono, Hf2. unfold all_keys. set_solver.
    + intros j. rewrite (md_view_frame _ _ _ _ _ Hf2) by by apply not_elem_of_singleton. apply (st_pods _ _ Hst).
    + intros i Hi. rewrite Hm2. by apply (st_marks _ _ Hst).
    + intros i Hi. rewrite (md_view_frame _ _ _ _ _ Hf2) by by apply not_elem_of_singleton. by apply (st_results _ _ Hst).
  - assert (∀ i, Some i ∈ node_ptrs g1 ∧ mark g1 i = Some Instrumented ↔ live g i ∧ sel i = true) as Hmk.
    { intros i. split.
      - intros [_ Hmi]. assert (live g i) as Hi by (apply (frame_live Hf); by eapply mark_live).
        split; [done|]. rewrite (st_marks _ _ Hst i Hi) in Hmi. by destruct (sel i).
      - intros [Hi Hs]. split; [apply node_ptrs_live; [done..|]; by apply (frame_live Hf)|].
        by rewrite (st_marks _ _ Hst i Hi), Hs. }
    split.
    + intros name. rewrite H1. split.
      * intros [?%elem_of_empty|(i & Hin & n1 & Hn1 & Hname & Hmi)]; [done|].
        destruct (proj1 (Hmk i) (conj Hin Hmi)) as [[n Hn] Hs]. exists i, n. split_and!; [done| |done].
        destruct (frame_node Hf i n Hn) as (n' & Hn' & _ & Hname' & _). congruence.
      * intros (i & n & Hn & Hname & Hs). right. exists i.
        destruct (proj2 (Hmk i) (conj (ex_intro _ n Hn) Hs)) as [Hin Hmi]. split; [done|].
        destruct (frame_node Hf i n Hn) as (n' & Hn' & _ & Hname' & _). exists n'. by rewrite Hname'.
    + split.
      * intros He name (i & n & Hn & Hname & Hs).
        destruct (proj2 (Hmk i) (conj (ex_intro _ n Hn) Hs)) as [Hin Hmi].
        assert (Some i ∈ instrumentedNodes ic) as Hic by (apply H2; right; by exists i). rewrite He in Hic.
        by apply elem_of_empty in Hic.
      * intros Hno. apply set_eq. intros p. rewrite H2. split; [|by intros ?%elem_of_empty].
        intros [?|(i & -> & Hin & Hmi)]; [done|]. destruct (proj1 (Hmk i) (conj Hin Hmi)) as [[n Hn] Hs].
        exfalso. apply (Hno (functionName n)). by exists i, n.
Qed.

(** ** One turn of the queue *)

Section run.
Context (cfg : GlobalConfig) (Hout : getAs bool cfg scorepOut ⇓ false).

(** The processor between two phases. *)
Definition proc_at (base : PiraMCGProcessor) (g1 : Callgraph) (h : list EstimatorPhase) (fs : FileMap)
    : PiraMCGProcessor :=
  mkProcessor g1 (outputFile base) (appName base) false false (pr_phases base) h fs.

Lemma run_phase_ret base g1 h fs i name k k' g2 sel N :
  h !! i = Some (EstimatorPhase_new name k) → (∀ fuel, doPrerequisites fuel k g1 ⇓ g1) →
  (∀ fuel, N ≤ fuel → modifyGraph cfg fuel h k g1 (Some m) ⇓ (k', g2)) → printReport k' ⇓ tt → stage sel g2 →
  ∃ g3 ic, (∀ fuel, N ≤ fuel → run_phase cfg fuel (Some m) i (proc_at base g1 h fs) ⇓
    proc_at base g3 (<[i := mkPhase name ic false k']> h)
      (<[instrumentation_file base := text (plain_lines ic)]> fs)) ∧ stage sel g3 ∧ IC_of sel ic.
Proof using All.
  intros Hi Hpre Hmod Hrep Hst. destruct (stage_IC sel g2 Hst) as (g3 & ic & Hic & Hst3 & Hof).
  exists g3, ic. split; [|done]. intros fuel Hfu. unfold run_phase. cbn [proc_at pr_heap pr_graph]. rewrite Hi. cbn [deref].
  rewrite bind_ret. cbn [EstimatorPhase_new phase_kind phase_IC phase_name noReportRequired].
  rewrite Hpre, bind_ret, Hmod, bind_ret by done. cbn [fst snd]. rewrite Hic, bind_ret, Hrep, bind_ret.
  cbn [fst snd]. unfold dumpInstrumentedNames. cbn [pr_set_graph pr_set_phase noOutputRequired].
  rewrite Hout, bind_ret. cbv iota. rewrite bind_ret. reflexivity.
Qed.

(** ** The four phases *)

Context (mode : CuttoffSelection) (Hheur : getSelectedHeuristic cfg ⇓ STATEMENTS).
Context (Hcs : getAs bool cfg useCallSiteInstrumentation ⇓ false).
Context (Hmode : getAs CuttoffSelection cfg cuttoffSelection ⇓ mode).

Lemma set_sum_stage sel g1 X : stage sel g1 → set_sum (statements_of g1) X = set_sum (statements_of g) X.
Proof using All. intros Hst. unfold set_sum. apply list_sum_ext. by apply (stage_statements sel). Qed.

Lemma elements_R_nonempty : elements R ≠ [].
Proof using All.
  intros E. assert (Some m ∈ elements R) as Hin; [|rewrite E in Hin; by apply elem_of_nil in Hin].
  apply elem_of_elements, HR. by exists m.
Qed.

Lemma min_element_ret (l : list Z) : l ≠ [] →
  ∃ x, match l with [] => UB | x :: l => Ret (foldl Z.min x l) end ⇓ x.
Proof using Type. clear. destruct l; [done|]. by eexists. Qed.

Lemma hist_keys_nonempty vals h : hist_of vals h → vals ≠ [] → hist_keys h ≠ [].
Proof using Type.
  clear. intros Hh Hv E. pose proof (hist_of_keys _ _ Hh) as Hp. rewrite E in Hp.
  apply Permutation_nil in Hp. destruct vals as [|x vals]; [done|].
  assert (x ∈ remove_dups (x :: vals)) as Hx by (apply elem_of_remove_dups; by left). rewrite Hp in Hx.
  by apply elem_of_nil in Hx.
Qed.

Lemma unique_median_ret vals h : hist_of vals h → vals ≠ [] → ∃ x, getUniqueMedianFromHist h ⇓ x.
Proof using Type.
  clear. intros Hh Hv. pose proof (hist_keys_nonempty _ _ Hh Hv) as Hk.
  destruct (nth_element_rank (hist_keys h) (length (hist_keys h) / 2)) as (x & Hx & _); [|by exists x].
  apply half_lt. destruct (hist_keys h); [done|simpl; lia].
Qed.

Lemma report_ret vals vals' s : hist_of vals (stmtHist s) → hist_of vals' (stmtInclHist s) →
  vals ≠ [] → vals' ≠ [] → ∃ o, Statistics_report s ⇓ o.
Proof using Type.
  clear. intros H1 H2 Hv Hv'. unfold Statistics_report. destruct (shouldPrintReport s); [|by eexists].
  destruct (unique_median_ret _ _ H1 Hv) as (x1 & ->). destruct (unique_median_ret _ _ H2 Hv') as (x2 & ->).
  pose proof (hist_keys_nonempty _ _ H1 Hv) as K1. pose proof (hist_keys_nonempty _ _ H2 Hv') as K2.
  destruct (max_element_ret _ K1) as (x3 & -> & _). destruct (max_element_ret _ K2) as (x4 & -> & _).
  destruct (min_element_ret _ K1) as (x5 & Hx5). destruct (min_element_ret _ K2) as (x6 & Hx6).
  rewrite !bind_ret, Hx5, bind_ret, bind_ret, Hx6, bind_ret. by eexists.
Qed.

Lemma stage_statistics sel g1 report : stage sel g1 →
  ∃ N s' g2 c, (∀ fuel, N ≤ fuel → Statistics_modifyGraph cfg fuel (Statistics_new report) g1 ⇓ (s', g2)) ∧
    stage (add_selected 999999999 sel) g2 ∧ getCuttoffNumInclStmts cfg s' ⇓ c ∧
    cutoff_of mode (incl <$> elements R) c ∧ ∃ o, Statistics_report s' ⇓ o.
Proof using All.
  intros Hst. pose proof (st_frame _ _ Hst) as Hf.
  destruct (Statistics_ret g1 (frame_wf Hf Hwf) (frame_full Hf Hfull) m) with (cfg := cfg) (use := false) (mode := mode)
    (report := report) as (N & s' & g2 & R1 & incl1 & c & Hr & Hf2 & HR1 & Hi1 & (_ & _ & Hc & Hcut) & Hs2 & Hh & Hih & cnt & HP);
    [by rewrite (frame_main Hf)|by eapply stage_marks_ok|by eapply stage_countable|done..|].
  exists N, s', g2, c. split; [done|]. split; [by eapply stage_pass|]. split; [done|].
  assert (R1 = R) as -> by (eapply (reachable_set_unique g m); [by apply (stage_reachable sel g1 Hst)|done]).
  assert (incl1 <$> elements R = incl <$> elements R) as E.
  { apply list_fmap_ext. intros k p Hp%list_elem_of_lookup_2%elem_of_elements.
    pose proof (proj1 (HR _) Hp) as (i & -> & Hfm).
    assert (live g i) as Hi by (eapply (rtc_calls_live g Hwf), (wf_main _ Hwf _ Hm); exact Hfm).
    destruct (reach_loop_ret g Hwf i Hi) as (Ri & _ & HRi & _).
    rewrite (Hincl i Ri Hfm HRi). rewrite <- (set_sum_stage sel g1 Ri Hst).
    apply Hi1; [by apply (stage_from_main sel)|by apply (stage_reachable sel)]. }
  rewrite E in Hcut, Hih. split; [done|]. eapply report_ret; [exact Hh|exact Hih| |];
    intros E2%fmap_nil_inv; by apply elements_R_nonempty.
Qed.

Lemma incl_is_int p : p ∈ R → (0 ≤ incl p ≤ INT_MAX)%Z.
Proof using All.
  intros Hp. pose proof (proj1 (HR _) Hp) as (i & -> & Hfm).
  assert (live g i) as Hi by (eapply (rtc_calls_live g Hwf), (wf_main _ Hwf _ Hm); exact Hfm).
  destruct (reach_loop_ret g Hwf i Hi) as (Ri & _ & HRi & _). rewrite (Hincl i Ri Hfm HRi).
  apply (sum_le_lim g Hwf Hfull m Hm (statements_of g) _ (statements_of_nonneg g Hcp) (cp_stmts g Hcp)).
  by apply (reachable_in_slots g Hwf i).
Qed.

Lemma cutoff_is_int c : cutoff_of mode (incl <$> elements R) c → (0 ≤ c ≤ INT_MAX)%Z.
Proof using All.
  assert (∀ x, x ∈ incl <$> elements R → (0 ≤ x ≤ INT_MAX)%Z) as Hin.
  { intros x (p & -> & Hp%elem_of_elements)%list_elem_of_fmap. by apply incl_is_int. }
  destruct mode; cbn.
  - intros (x & Hx & _ & ->). apply Hin in Hx. split; [apply Z.div_pos; lia|].
    apply Z.div_le_upper_bound; lia.
  - intros [Hx _]. by apply Hin.
  - intros [Hx _]. apply Hin. by rewrite elem_of_remove_dups in Hx.
Qed.

Lemma stage_statement_count sel g1 s c ph : stage sel g1 →
  getCuttoffNumInclStmts cfg s ⇓ c → cutoff_of mode (incl <$> elements R) c → inclusiveMetric ph = true →
  ∃ N ph' g2, (∀ fuel, N ≤ fuel → StatementCount_modifyGraph cfg fuel (Some s) ph g1 ⇓ (ph', g2)) ∧
    stage (add_selected c sel) g2.
Proof using All.
  intros Hst Hc Hcut Hinc. pose proof (st_frame _ _ Hst) as Hf. pose proof (cutoff_is_int c Hcut) as Hci.
  assert (countable_program g1) as Hcp1 by by eapply stage_countable.
  destruct (StatementCount_ret g1 (frame_wf Hf Hwf) (frame_full Hf Hfull) m) with
    (cfg := cfg) (prev := Some s) (ph := ph) (use := false) (t := c) as (N & ph' & g2 & Hr & Hf2 & Hs2 & HP).
  - by rewrite (frame_main Hf).
  - by eapply stage_marks_ok.
  - apply (cp_pods g1 Hcp1).
  - apply (cp_stmts g1 Hcp1).
  - done.
  - done.
  - exists c. split; [done|]. rewrite to_int_id; [done|]. unfold is_int, INT_MIN, INT_MAX in *. lia.
  - exists N, ph', g2. split; [done|]. rewrite Hinc in HP. by eapply stage_pass.
Qed.

Lemma stage_store sel g1 : stage sel g1 → ∃ g2, Store_modifyGraph g1 ⇓ g2 ∧ stage sel g2.
Proof using All.
  intros Hst. pose proof (st_frame _ _ Hst) as Hf.
  destruct (Store_ret g1 (frame_wf Hf Hwf) (frame_full Hf Hfull)) as (g2 & Hr & Hf2 & Hm2 & Hv2).
  - by eapply stage_marks_ok.
  - intros i Hi. apply (st_results _ _ Hst). by apply (frame_live Hf).
  - exists g2. split; [done|]. split.
    + eapply frame_trans; [exact Hf|]. eapply frame_mono, Hf2. unfold all_keys. set_solver.
    + intros j. rewrite (md_view_frame _ _ _ _ _ Hf2) by by vm_compute. apply (st_pods _ _ Hst).
    + intros i Hi. rewrite Hm2. by apply (st_marks _ _ Hst).
    + intros i Hi. rewrite Hv2. unfold stored. destruct (st_results _ _ Hst i Hi) as [r Hr2]. rewrite Hr2.
      destruct (decide _); by eexists.
Qed.

Definition final_selection (c : Z) : NodeId → bool :=
  add_selected 999999999 (add_selected c (add_selected 999999999 (λ _, false))).

Lemma final_selected c i : final_selection c i = true ↔ Some i ∈ R ∧ (c `min` 999999999 ≤ incl (Some i))%Z.
Proof using Type.
  clear. unfold final_selection, add_selected. rewrite !orb_true_iff, !bool_decide_eq_true.
  destruct (Z.min_spec c 999999999) as [[? ->]|[? ->]]; split; intros; intuition (try done; try lia).
Qed.

(** The whole queue, on a processor that holds [g] and nothing else. *)
Lemma static_run base fs :
  (∀ i, live g i → mark g i = Some NotInstrumented) →
  (∀ i, live g i → is_Some (md_view InstrumentationResultMetaData g i)) →
  let h := [new_Statistics false; new_StatementCount 2000 true (Some 0); new_Statistics true; new_Store] in
  ∃ N g' h' fs' c ic, (∀ fuel, N ≤ fuel → run_queue cfg fuel (Some m) [0; 1; 2; 3] (proc_at base g h fs) ⇓
      pr_set_phases [] (proc_at base g' h' fs')) ∧
    cutoff_of mode (incl <$> elements R) c ∧ stage (final_selection c) g' ∧ IC_of (final_selection c) ic ∧
    fs' !! instrumentation_file base = Some (text (plain_lines ic)) ∧
    ∀ f, f ≠ instrumentation_file base → fs' !! f = fs !! f.
Proof using All.
  intros Hmk Hres h.
  set (sel1 := add_selected 999999999 (λ _, false)). set (sel3 := λ c, add_selected 999999999 (add_selected c sel1)).
  assert (stage (λ _, false) g) as St0 by (split; [apply frame_refl|done|done|done]).
  destruct (stage_statistics _ g false St0) as (N1 & s1 & g1 & c & Hr1 & St1 & Hc & Hcut & o1 & Ho1).
  destruct (run_phase_ret base g h fs 0 "StatisticsEstimatorPhase" (PhaseStatistics (Statistics_new false))
    (PhaseStatistics s1) g1 sel1 N1 eq_refl (λ _, eq_refl)) as (g1' & ic1 & Hp1 & St1' & _);
    [intros fuel Hfu; cbn [modifyGraph]; by rewrite Hr1, bind_ret|cbn [printReport]; by rewrite Ho1, bind_ret|exact St1|].
  set (h1 := <[0 := mkPhase "StatisticsEstimatorPhase" ic1 false (PhaseStatistics s1)]> h) in Hp1.
  destruct (stage_statement_count _ g1' s1 c (StatementCount_new 2000 true (Some 0)) St1' Hc Hcut eq_refl)
    as (N2 & ph2 & g2 & Hr2 & St2).
  destruct (run_phase_ret base g1' h1 (<[instrumentation_file base := text (plain_lines ic1)]> fs) 1
    ("Incl-StatementCount-" +:+ pretty 2000%Z) (PhaseStatementCount (StatementCount_new 2000 true (Some 0)))
    (PhaseStatementCount ph2) g2 (add_selected c sel1) N2 eq_refl (λ _, eq_refl)) as (g2' & ic2 & Hp2 & St2' & _);
    [intros fuel Hfu; cbn [modifyGraph]; change (get_previous h1 _) with (Ret (Some s1)); by rewrite bind_ret, Hr2, bind_ret|done|exact St2|].
  set (h2 := <[1 := _]> h1) in Hp2.
  destruct (stage_statistics _ g2' true St2') as (N3 & s3 & g3 & c3 & Hr3 & St3 & _ & _ & o3 & Ho3).
  destruct (run_phase_ret base g2' h2 (<[instrumentation_file base := text (plain_lines ic2)]>
     (<[instrumentation_file base := text (plain_lines ic1)]> fs)) 2
    "StatisticsEstimatorPhase" (PhaseStatistics (Statistics_new true))
    (PhaseStatistics s3) g3 (sel3 c) N3 eq_refl (λ _, eq_refl)) as (g3' & ic3 & Hp3 & St3' & _);
    [intros fuel Hfu; cbn [modifyGraph]; by rewrite Hr3, bind_ret|cbn [printReport]; by rewrite Ho3, bind_ret|exact St3|].
  set (h3 := <[2 := _]> h2) in Hp3.
  destruct (stage_store _ g3' St3') as (g4 & Hr4 & St4).
  destruct (run_phase_ret base g3' h3 (<[instrumentation_file base := text (plain_lines ic3)]>
     (<[instrumentation_file base := text (plain_lines ic2)]>
     (<[instrumentation_file base := text (plain_lines ic1)]> fs))) 3
    "StoreInstrumentationDecisionsPhase" PhaseStore PhaseStore g4 (sel3 c) 0 eq_refl (λ _, eq_refl))
    as (g4' & ic4 & Hp4 & St4' & Hof);
    [intros fuel Hfu; cbn [modifyGraph]; by rewrite Hr4, bind_ret|done|exact St4|].
  exists (N1 + N2 + N3), g4'. do 2 eexists. exists c, ic4. split; [|split; [done|split; [exact St4'|split; [exact Hof|]]]].
  - intros fuel Hfu. cbn [run_queue]. rewrite Hp1, bind_ret, Hp2, bind_ret, Hp3, bind_ret, Hp4, bind_ret by lia. reflexivity.
  - split; [by rewrite lookup_insert_eq|]. intros f Hne. by rewrite !lookup_insert_ne by done.
Qed.
End run.
End static.

(** ** From an empty processor *)

Lemma cutoff_attained (incl : NodePtr → Z) (l : list NodePtr) mode c :
  (∀ p, p ∈ l → 0 ≤ incl p)%Z → cutoff_of mode (incl <$> l) c → ∃ p, p ∈ l ∧ (c ≤ incl p)%Z.
Proof.
  intros Hpos. destruct mode; cbn.
  - intros (x & (p & -> & Hp)%list_elem_of_fmap & _ & ->). exists p. split; [done|].
    apply Hpos in Hp. apply Z.div_le_upper_bound; lia.
  - intros [(p & -> & Hp)%list_elem_of_fmap _]. by exists p.
  - intros [Hx _]. rewrite elem_of_remove_dups in Hx. apply list_elem_of_fmap in Hx as (p & -> & Hp). by exists p.
Qed.

Section whole.
Context {JO : JsonOps} {MDI : MetaDataI} {IO : IterOrder} `{!PgisClasses}.

(** C12: The static selection with the statement heuristic, without call-site
    instrumentation and without Score-P output, from the empty queue to the
    file, on a graph without erased nodes and without marks, with a main
    function, countable statements and result metadata on every function: the
    four phases are registered, run to their end, and the file with the
    instrumentation lists exactly the names of the functions that main reaches
    and whose inclusive statement count is at least the cutoff value of these
    counts (or 999999999, the threshold the statistics phase runs the count
    with); no other file is written. *)
Theorem static_selection_correct (g : Callgraph) (m : NodeId) (cfg : GlobalConfig) (mode : CuttoffSelection)
    (out app : string) (fs : FileMap) :
  wf g → full g → mainNode g = Some m → countable_program g →
  (∀ i, live g i → mark g i = Some NotInstrumented) →
  (∀ i, live g i → is_Some (md_view InstrumentationResultMetaData g i)) →
  getSelectedHeuristic cfg ⇓ STATEMENTS → getAs CuttoffSelection cfg cuttoffSelection ⇓ mode →
  getAs bool cfg useCallSiteInstrumentation ⇓ false → getAs bool cfg scorepOut ⇓ false →
  let p0 := mkProcessor g out app false false [] [] fs in
  ∃ p1 N p2 R incl c lines, registerEstimatorPhases cfg false p0 ⇓ p1 ∧
    (∀ fuel, N ≤ fuel → applyRegisteredPhases cfg fuel p1 ⇓ p2) ∧
    reachable_set g m R ∧ inclusive_counts g m incl ∧ cutoff_of mode (incl <$> elements R) c ∧
    pr_files p2 !! instrumentation_file p0 = Some (text lines) ∧
    (∀ name, name ∈ lines ↔ ∃ i n, node_at g i = Some n ∧ functionName n = name ∧
       Some i ∈ R ∧ (c `min` 999999999 ≤ incl (Some i))%Z) ∧
    (∀ f, f ≠ instrumentation_file p0 → pr_files p2 !! f = fs !! f).
Proof.
  intros Hwf Hfull Hm Hcp Hmk Hres Hheur Hmode Hcs Hout p0.
  assert (marks_ok g) as Hmarks by (intros i Hi; rewrite Hmk by done; by eexists).
  destruct (Statistics_ret g Hwf Hfull m Hm Hmarks Hcp cfg false mode false Hheur Hcs ltac:(done) Hmode)
    as (_ & _ & _ & R & incl & _ & _ & _ & HR & Hincl & _).
  set (p1 := mkProcessor g out app false false [0; 1; 2; 3]
    [new_Statistics false; new_StatementCount 2000 true (Some 0); new_Statistics true; new_Store] fs).
  destruct (static_run g Hwf Hfull m Hm Hcp R HR incl Hincl cfg Hout mode Hheur Hcs Hmode p1 fs Hmk Hres)
    as (N & g' & h' & fs' & c & ic & Hrun & Hcut & Hst & [Hnames Hnodes] & Hfile & Hother).
  exists p1, N, (pr_set_phases [] (proc_at p1 g' h' fs')), R, incl, c, (plain_lines ic).
  assert (∀ name, listed g (final_selection R incl c) name ↔ ∃ i n, node_at g i = Some n ∧ functionName n = name ∧
       Some i ∈ R ∧ (c `min` 999999999 ≤ incl (Some i))%Z) as Hlist.
  { intros name. unfold listed. setoid_rewrite final_selected. done. }
  split_and!; [| |done|done|done|done| |done].
  - unfold registerEstimatorPhases. rewrite Hheur, bind_ret, bind_ret. reflexivity.
  - intros fuel Hfu. unfold applyRegisteredPhases, finalizeGraph. cbn [p1 pr_graph].
    assert (live g m) as Hlm by by apply (wf_main _ Hwf). apply live_lt in Hlm.
    assert (erased (nodes g) = 0) as Her.
    { unfold erased. rewrite filter_none; [done|]. intros o Ho ->. apply list_elem_of_lookup in Ho as [i Hi].
      destruct (Hfull i) as [n Hn]; [by eapply lookup_lt_Some|]. apply node_at_Some in Hn. congruence. }
    unfold isEmpty, getNodeCount. rewrite (wf_erased _ Hwf), Her, bool_decide_false by lia.
    rewrite decide_True by (unfold cg_size; lia).
    assert (getMain g false ⇓ (g, Some m)) as Hmain by (unfold getMain; by rewrite Hm).
    rewrite Hmain, bind_ret. cbn [snd fst]. rewrite bind_ret. cbn [pr_set_graph pr_graph].
    rewrite Hmain, bind_ret. cbn [snd fst]. cbn [pr_set_graph pr_phases]. by apply Hrun.
  - intros name. rewrite <- Hlist. unfold plain_lines. rewrite decide_False; [by rewrite elem_of_iter_set, Hnames|].
    rewrite Hnodes. intros Hno.
    destruct (cutoff_attained incl (elements R) mode c) as (p & Hp & Hle); [|done|].
    { intros p Hp%elem_of_elements. by apply (incl_is_int g Hwf Hfull m Hm Hcp R HR incl Hincl cfg Hout mode Hheur Hcs Hmode). }
    apply elem_of_elements in Hp. pose proof (proj1 (HR _) Hp) as (i & -> & Hfm).
    assert (live g i) as [n Hn] by (eapply (rtc_calls_live g Hwf), (wf_main _ Hwf _ Hm); exact Hfm).
    apply (Hno (functionName n)). apply Hlist. exists i, n. split_and!; [done..|lia].
Qed.
End whole.
