(* ===== verification/PgisInstance.v ===== *)
(** * PGIS: the metadata classes as an implementation of the interface

    [pgis/lib/include/MetaData/PGISMetaData.h], [CgNodeMetaData.h] and
    [loadImbalance/LIMetaData.h]/[.cpp]: construction from JSON, [toJson],
    [merge] and [clone] of the classes whose fields [PgisMD] declares and of
    the two classes that only mirror a library class, and all of them together
    with the library's classes as an instance of [MetaDataI].

    Three classes use a key that a class of the library has as well; which of
    the two constructors the registry keeps depends on the order in which the
    static initialisers run and is the parameter [InitOrder]. *)

From Stdlib Require Import Floats.SpecFloat.
From S2P Require Import Prelude Json MetaData BuiltinMD Callgraph PgisMD.

(** ** Numbers in JSON *)

(** Construction from a [double], [j.get<double>()] and
    [j.get<unsigned long long>()] (for a non-negative number). *)
Class JsonNumbers {JO : JsonOps} := {
  jdouble : double → json;
  jget_double : json → outcome double;
  jget_ulonglong : json → outcome Z;
  jget_double_double d : jget_double (jdouble d) ⇓ d;
  jget_ulonglong_jint z : (0 ≤ z < 2 ^ 64)%Z → jget_ulonglong (jint z) ⇓ z
}.

(** ** The classes that mirror a library class *)

(** [lineNumber] is not initialised by the constructor from JSON, and neither
    is [fromSystemInclude] for a null value. *)
Record FilePropertiesMetaData := mkFileProperties {
  fp_origin : string;
  fp_fromSystemInclude : option bool;
  lineNumber : option Z
}.

Record InlineMetaData := mkInlineMetaData {
  im_markedInline : bool;
  im_likelyInline : bool;
  im_markedAlwaysInline : bool;
  im_isTemplate : bool
}.

Section classes.
Context {JO : JsonOps} {JN : JsonNumbers}.

Definition get_bool_at (j : json) (k : string) : outcome bool :=
  v ← jindex_const j k; jget_bool v.
Definition get_double_at (j : json) (k : string) : outcome double :=
  v ← jindex_const j k; jget_double v.
Definition get_ulonglong_at (j : json) (k : string) : outcome Z :=
  v ← jindex_const j k; jget_ulonglong v.

(** *** [InstrumentationMetaData] *)

Definition InstrumentationMetaData_fromJson (_ : json) : outcome InstrumentationMetaData :=
  Ret (mkInstrumentation NotInstrumented).
Definition InstrumentationMetaData_toJson (_ : InstrumentationMetaData) : json := jnull.

(** *** [BaseProfileData] *)

Definition BaseProfileData_fromJson (j : json) : outcome BaseProfileData :=
  let b := T_new BaseProfileData in
  if jis_null j then Ret b
  else
    jsonNumCalls ← get_ulonglong_at j "numCalls";
    rtInSeconds ← get_double_at j "timeInSeconds";
    inclRtInSeconds ← get_double_at j "inclusiveRtInSeconds";
    setInclusiveRuntimeInSeconds inclRtInSeconds
      (setRuntimeInSeconds rtInSeconds (setNumberOfCalls jsonNumCalls b)).
Definition BaseProfileData_toJson (b : BaseProfileData) : json :=
  jfields [("numCalls", jint (bpd_numCalls b)); ("timeInSeconds", jdouble (timeInSeconds b));
           ("inclusiveRtInSeconds", jdouble (inclTimeInSeconds b))].

(** *** [PiraOneData] *)

Definition PiraOneData_fromJson (j : json) : outcome PiraOneData :=
  if jis_null j then Ret (T_new PiraOneData)
  else jsonNumStmts ← jget_longlong j; Ret (setNumberOfStatements jsonNumStmts (T_new PiraOneData)).
Definition PiraOneData_toJson (p : PiraOneData) : json := jint (numStmts p).

(** *** [LIMetaData] *)

Definition flagType2String (type : FlagType) : string :=
  match type with Irrelevant => "irrelevant" | Visited => "visited" | Imbalanced => "" end.

Definition LIMetaData_fromJson (j : json) : outcome LIMetaData :=
  let l := T_new LIMetaData in
  if jis_null j then Ret l
  else
    irrelevant ← get_bool_at j "irrelevant";
    visited ← get_bool_at j "visited";
    let l := if irrelevant : bool then flag Irrelevant l else l in
    Ret (if visited : bool then flag Visited l else l).
Definition LIMetaData_toJson (l : LIMetaData) : outcome json :=
  v ← isFlagged Visited l;
  i ← isFlagged Irrelevant l;
  Ret (jfields [(flagType2String Visited, jbool v); (flagType2String Irrelevant, jbool i)]).

(** *** [InstrumentationResultMetaData] *)

(** [callsFromParents = j["callsFromParents"]], a map from strings to numbers *)
Definition counts_fromJson (j : json) : outcome (gmap string Z) :=
  if jis_object j then
    foldM (λ m '(k, v), n ← jget_ulonglong v; Ret (<[k:=n]> m)) ∅ (jitems j)
  else Throw json_type_error.
Definition counts_toJson (m : gmap string Z) : json := jobj ((λ n, jint n) <$> m).

Definition InstrumentationResult_fromJson (j : json) : outcome InstrumentationResultMetaData :=
  if jis_null j then Ret (T_new InstrumentationResultMetaData)
  else
    calls ← get_ulonglong_at j "calls";
    rt ← get_double_at j "runtime";
    perCall ← get_double_at j "timePerCall";
    exclusive ← get_bool_at j "exclusive";
    inclCube ← get_double_at j "inclusiveRuntimeCube";
    inclPerCallCube ← get_double_at j "inclusiveTimePerCallCube";
    inclSum ← get_double_at j "inclusiveRuntimeSum";
    inclPerCallSum ← get_double_at j "inclusiveTimePerCallSum";
    should ← get_bool_at j "shouldBeInstrumented";
    parents ← jindex_const j "callsFromParents";
    parents ← counts_fromJson parents;
    Ret (mkInstrumentationResult calls parents rt perCall inclCube inclPerCallCube inclSum
           inclPerCallSum exclusive should).
Definition InstrumentationResult_toJson (m : InstrumentationResultMetaData) : json :=
  jfields [("calls", jint (callCount m)); ("runtime", jdouble (runtime m));
           ("timePerCall", jdouble (timePerCall m)); ("exclusive", jbool (isExclusiveRuntime m));
           ("inclusiveRuntimeCube", jdouble (inclusiveRunTimeCube m));
           ("inclusiveTimePerCallCube", jdouble (inclusiveTimePerCallCube m));
           ("inclusiveRuntimeSum", jdouble (inclusiveRunTimeSum m));
           ("inclusiveTimePerCallSum", jdouble (inclusiveTimePerCallSum m));
           ("shouldBeInstrumented", jbool (shouldBeInstrumented m));
           ("callsFromParents", counts_toJson (callsFromParents m))].

(** *** [FilePropertiesMetaData] and [InlineMetaData] *)

Definition FilePropertiesMetaData_fromJson (j : json) : outcome FilePropertiesMetaData :=
  if jis_null j then Ret (mkFileProperties "" None None)
  else
    o ← jindex_const j "origin";
    fileOrigin ← jget_string o;
    isFromSystemInclude ← get_bool_at j "systemInclude";
    Ret (mkFileProperties fileOrigin (Some isFromSystemInclude) None).
Definition FilePropertiesMetaData_toJson (f : FilePropertiesMetaData) : outcome json :=
  b ← deref (fp_fromSystemInclude f);
  Ret (jfields [("origin", jstr (fp_origin f)); ("systemInclude", jbool b)]).

Definition InlineMetaData_fromJson (j : json) : outcome InlineMetaData :=
  if jis_null j then Ret (mkInlineMetaData false false false false)
  else
    m ← get_bool_at j "markedInline";
    l ← get_bool_at j "likelyInline";
    t ← get_bool_at j "isTemplate";
    a ← get_bool_at j "markedAlwaysInline";
    Ret (mkInlineMetaData m l a t).
Definition InlineMetaData_toJson (i : InlineMetaData) : json :=
  jfields [("markedInline", jbool (im_markedInline i)); ("likelyInline", jbool (im_likelyInline i));
           ("isTemplate", jbool (im_isTemplate i));
           ("markedAlwaysInline", jbool (im_markedAlwaysInline i))].
Definition InlineMetaData_merge (this other : InlineMetaData) : InlineMetaData :=
  mkInlineMetaData (im_markedInline this || im_markedInline other)
    (im_likelyInline this || im_likelyInline other)
    (im_markedAlwaysInline this || im_markedAlwaysInline other)
    (im_isTemplate this || im_isTemplate other).

(** ** All classes *)

Inductive PgisMD :=
  | Library (m : BuiltinMD)
  | AnInstrumentation (m : InstrumentationMetaData)
  | AProfile (m : BaseProfileData)
  | APiraOne (m : PiraOneData)
  | ALoadImbalance (m : LIMetaData)
  | AResult (m : InstrumentationResultMetaData)
  | AFileProperties (m : FilePropertiesMetaData)
  | AnInline (m : InlineMetaData).

Definition pgis_key (m : PgisMD) : string :=
  match m with
  | Library m => getKey m
  | AnInstrumentation _ => T_key InstrumentationMetaData
  | AProfile _ => T_key BaseProfileData
  | APiraOne _ => T_key PiraOneData
  | ALoadImbalance _ => T_key LIMetaData
  | AResult _ => T_key InstrumentationResultMetaData
  | AFileProperties _ => FilePropertiesMD_key
  | AnInline _ => "inlineInfo"
  end.

(** [merge] compares the keys and then casts: equal keys of different classes
    are not noticed.  The classes that do not look at the other object keep
    their fields. *)
Definition pgis_merge (this toMerge : PgisMD) (action : option MergeAction) (map : GraphMapping)
    : outcome PgisMD :=
  if decide (pgis_key this ≠ pgis_key toMerge) then AssertFail
  else match this, toMerge with
  | Library a, Library b => c ← merge a b action map; Ret (Library c)
  | AProfile a, AProfile b => Ret (AProfile (BaseProfileData_merge a b))
  | APiraOne a, APiraOne b => c ← PiraOneData_merge a b; Ret (APiraOne c)
  | AnInline a, AnInline b => Ret (AnInline (InlineMetaData_merge a b))
  | AnInstrumentation _, _ | ALoadImbalance _, _ | AResult _, _ | AFileProperties _, _ => Ret this
  | _, _ => UB
  end.

(** Only [BaseProfileData] does not copy everything. *)
Definition pgis_clone (m : PgisMD) : PgisMD :=
  match m with AProfile b => AProfile (BaseProfileData_copy b) | _ => m end.

Definition pgis_applyMapping (m : PgisMD) (map : GraphMapping) : outcome PgisMD :=
  match m with
  | Library b => b' ← applyMapping b map; Ret (Library b')
  | _ => Ret m
  end.

Definition pgis_toJson (m : PgisMD) (nodeToStr : NodeToStrMapping) : outcome json :=
  match m with
  | Library b => toJson b nodeToStr
  | AnInstrumentation i => Ret (InstrumentationMetaData_toJson i)
  | AProfile b => Ret (BaseProfileData_toJson b)
  | APiraOne p => Ret (PiraOneData_toJson p)
  | ALoadImbalance l => LIMetaData_toJson l
  | AResult r => Ret (InstrumentationResult_toJson r)
  | AFileProperties f => FilePropertiesMetaData_toJson f
  | AnInline i => Ret (InlineMetaData_toJson i)
  end.

(** The constructors that the classes of PGIS register. *)
Definition pgis_registry : list (string * (json → StrToNodeMapping → outcome PgisMD)) := [
  (T_key InstrumentationMetaData, λ j _, m ← InstrumentationMetaData_fromJson j; Ret (AnInstrumentation m));
  (T_key BaseProfileData, λ j _, m ← BaseProfileData_fromJson j; Ret (AProfile m));
  (T_key PiraOneData, λ j _, m ← PiraOneData_fromJson j; Ret (APiraOne m));
  (T_key LIMetaData, λ j _, m ← LIMetaData_fromJson j; Ret (ALoadImbalance m));
  (T_key InstrumentationResultMetaData,
     λ j _, m ← InstrumentationResult_fromJson j; Ret (AResult m));
  (FilePropertiesMD_key, λ j _, m ← FilePropertiesMetaData_fromJson j; Ret (AFileProperties m));
  ("inlineInfo", λ j _, m ← InlineMetaData_fromJson j; Ret (AnInline m))
].

Definition find_key {A} (l : list (string * A)) (key : string) : option A :=
  snd <$> List.find (λ kf, bool_decide (kf.1 = key)) l.

(** The registry keeps the constructor that was registered last: for a key of
    both, whether that is the one of PGIS. *)
Class InitOrder := { pgis_registered_last : string → bool }.
Context {IN : InitOrder}.

Definition pgis_registry_lookup (key : string)
    : option (json → StrToNodeMapping → outcome PgisMD) :=
  let library :=
    (λ f (j : json) (s : StrToNodeMapping), m ← f j s; Ret (Library m)) <$> registry_lookup key in
  match find_key pgis_registry key, library with
  | Some f, Some f' => Some (if pgis_registered_last key then f else f')
  | Some f, None => Some f
  | None, library => library
  end.

(** The casts that the library does on objects found under its own keys; the
    same cast of an object of PGIS reads the wrong layout. *)
Definition pgis_fromSystemInclude (m : PgisMD) : outcome bool :=
  match m with Library b => getFromSystemInclude b | _ => UB end.

#[export] Instance pgis_md : MetaDataI := {|
  MD := PgisMD;
  md_getKey := pgis_key;
  md_merge := pgis_merge;
  md_clone := pgis_clone;
  md_applyMapping := pgis_applyMapping;
  md_toJson := pgis_toJson;
  md_registry := pgis_registry_lookup;
  md_getEntryFunctionId m := match m with Library b => getEntryFunctionId b | _ => None end;
  md_newOverrideMD := Library (OverrideMD (mkOverrideInfo [] []));
  md_fromSystemInclude := pgis_fromSystemInclude;
  md_refs m := match m with Library b => refs b | _ => ∅ end
|}.
End classes.

(** ** The typed accesses *)

Section casts.
Context {JO : JsonOps} {JN : JsonNumbers} {IN : InitOrder}.

Definition pgis_cast {T} (up : T → PgisMD) (cast : PgisMD → outcome T) (H : ∀ t, cast (up t) ⇓ t)
    : MDCast (MDI := pgis_md) T :=
  @Build_MDCast JO pgis_md T up cast H.

Definition cast_instrumentation : MDCast (MDI := pgis_md) InstrumentationMetaData :=
  pgis_cast AnInstrumentation (λ m, match m with AnInstrumentation t => Ret t | _ => UB end) (λ _, eq_refl).
Definition cast_profile : MDCast (MDI := pgis_md) BaseProfileData :=
  pgis_cast AProfile (λ m, match m with AProfile t => Ret t | _ => UB end) (λ _, eq_refl).
Definition cast_pira_one : MDCast (MDI := pgis_md) PiraOneData :=
  pgis_cast APiraOne (λ m, match m with APiraOne t => Ret t | _ => UB end) (λ _, eq_refl).
Definition cast_load_imbalance : MDCast (MDI := pgis_md) LIMetaData :=
  pgis_cast ALoadImbalance (λ m, match m with ALoadImbalance t => Ret t | _ => UB end) (λ _, eq_refl).
Definition cast_result : MDCast (MDI := pgis_md) InstrumentationResultMetaData :=
  pgis_cast AResult (λ m, match m with AResult t => Ret t | _ => UB end) (λ _, eq_refl).
Definition cast_branches : MDCast (MDI := pgis_md) NumConditionalBranches :=
  pgis_cast (λ t, Library (NumConditionalBranchMD (numConditionalBranches t)))
    (λ m, match m with Library (NumConditionalBranchMD n) => Ret (mkNumConditionalBranches n) | _ => UB end)
    (λ '(mkNumConditionalBranches _), eq_refl).
Definition cast_operations : MDCast (MDI := pgis_md) NumOperations :=
  pgis_cast (λ t, Library (NumOperationsMD t))
    (λ m, match m with Library (NumOperationsMD t) => Ret t | _ => UB end) (λ _, eq_refl).
Definition cast_loop_depth : MDCast (MDI := pgis_md) LoopDepth :=
  pgis_cast (λ t, Library (LoopDepthMD (loopDepth t)))
    (λ m, match m with Library (LoopDepthMD n) => Ret (mkLoopDepth n) | _ => UB end)
    (λ '(mkLoopDepth _), eq_refl).
Definition cast_global_loop_depth : MDCast (MDI := pgis_md) GlobalLoopDepth :=
  pgis_cast (λ t, Library (GlobalLoopDepthMD (globalLoopDepth t)))
    (λ m, match m with Library (GlobalLoopDepthMD n) => Ret (mkGlobalLoopDepth n) | _ => UB end)
    (λ '(mkGlobalLoopDepth _), eq_refl).
Definition cast_code_statistics : MDCast (MDI := pgis_md) CodeStatistics :=
  pgis_cast (λ t, Library (CodeStatisticsMD (numVars t)))
    (λ m, match m with Library (CodeStatisticsMD n) => Ret (mkCodeStatistics n) | _ => UB end)
    (λ '(mkCodeStatistics _), eq_refl).

#[export] Instance pgis_classes : PgisClasses (MDI := pgis_md) := {|
  pc_instrumentation := cast_instrumentation;
  pc_profile := cast_profile;
  pc_pira_one := cast_pira_one;
  pc_load_imbalance := cast_load_imbalance;
  pc_result := cast_result;
  pc_branches := cast_branches;
  pc_operations := cast_operations;
  pc_loop_depth := cast_loop_depth;
  pc_global_loop_depth := cast_global_loop_depth;
  pc_code_statistics := cast_code_statistics
|}.

End casts.

(** ** Reading back what was written *)

Section roundtrip.
Context {JO : JsonOps} {JL : JsonLaws} {JN : JsonNumbers} {IN : InitOrder}.

(** What the next run of the tool finds of an object. *)
Definition persisted (m : PgisMD) : PgisMD :=
  match m with
  | Library b => Library b
  | AnInstrumentation _ => AnInstrumentation (mkInstrumentation NotInstrumented)
  | AProfile b => AProfile (mkBaseProfileData (bpd_numCalls b) (timeInSeconds b)
      (inclTimeInSeconds b) 0 0 ∅ [])
  | APiraOne p => APiraOne (mkPiraOneData false false false (numStmts p))
  | ALoadImbalance l => ALoadImbalance (mkLIMetaData 0 false
      {[Visited := default false (flags l !! Visited);
        Irrelevant := default false (flags l !! Irrelevant); Imbalanced := false]} None)
  | AResult r => AResult r
  | AFileProperties f => AFileProperties (mkFileProperties (fp_origin f) (fp_fromSystemInclude f) None)
  | AnInline i => AnInline i
  end.

Definition is_ullong (z : Z) : Prop := (0 ≤ z < 2 ^ 64)%Z.

(** The fields hold values of their C++ types and are initialised. *)
Definition pgis_valid (m : PgisMD) : Prop :=
  match m with
  | Library _ => False
  | AProfile b => is_ullong (bpd_numCalls b)
  | APiraOne p => is_int (numStmts p)
  | ALoadImbalance l => is_Some (flags l !! Visited) ∧ is_Some (flags l !! Irrelevant)
  | AResult r => is_ullong (callCount r) ∧ map_Forall (λ _, is_ullong) (callsFromParents r)
  | AFileProperties f => is_Some (fp_fromSystemInclude f)
  | AnInstrumentation _ | AnInline _ => True
  end.

Lemma counts_roundtrip m :
  map_Forall (λ _, is_ullong) m → counts_fromJson (counts_toJson m) ⇓ m.
Proof.
  intros Hm. unfold counts_fromJson, counts_toJson. rewrite jis_object_jmk.
  apply foldM_insert; [apply jitems_NoDup|..].
  - intros k z. setoid_rewrite elem_of_jitems. setoid_rewrite lookup_fmap. split.
    + intros Hz. exists (jint z). rewrite Hz. split; [done|].
      apply jget_ulonglong_jint. by eapply Hm.
    + intros (j & Hj & Hz). destruct (m !! k) as [z'|] eqn:Hz'; [|done].
      injection Hj as <-. rewrite jget_ulonglong_jint in Hz by (by eapply Hm). congruence.
  - intros k j Hj. apply elem_of_jitems in Hj. rewrite lookup_fmap in Hj.
    destruct (m !! k) as [z'|] eqn:Hz'; [|done]. injection Hj as <-.
    exists z'. apply jget_ulonglong_jint. by eapply Hm.
Qed.

(** [get_*_at] on an object with the given fields. *)
Ltac read_members :=
  unfold get_bool_at, get_double_at, get_ulonglong_at, jfields; rewrite ?jis_null_jmk; cbv beta iota;
  repeat (match goal with
  | |- context [jindex_const (jobj ?m) ?k] => erewrite (jindex_const_obj m k) by reflexivity
  | |- context [jget_bool (jbool ?b)] => rewrite (jget_bool_bool b)
  | |- context [jget_string (jstr ?s)] => rewrite (jget_string_str s)
  | |- context [jget_double (jdouble ?d)] => rewrite (jget_double_double d)
  | |- context [jget_ulonglong (jint ?z)] => rewrite (jget_ulonglong_jint z) by done
  | |- context [Ret ?a ≫= ?f] => rewrite (bind_ret f a)
  end; cbn [fst snd]; cbv beta).

Lemma profile_roundtrip b : is_ullong (bpd_numCalls b) →
  BaseProfileData_fromJson (BaseProfileData_toJson b) ⇓
    mkBaseProfileData (bpd_numCalls b) (timeInSeconds b) (inclTimeInSeconds b) 0 0 ∅ [].
Proof.
  intros Hb. unfold BaseProfileData_fromJson, BaseProfileData_toJson. by read_members.
Qed.

Lemma li_roundtrip l v i : flags l !! Visited = Some v → flags l !! Irrelevant = Some i →
  ∃ j, LIMetaData_toJson l ⇓ j ∧ LIMetaData_fromJson j ⇓
    mkLIMetaData 0 false {[Visited := v; Irrelevant := i; Imbalanced := false]} None.
Proof.
  intros Hv Hi. unfold LIMetaData_toJson, isFlagged. rewrite Hv, Hi. cbn [at_or_throw].
  rewrite !bind_ret. eexists. split; [done|]. unfold LIMetaData_fromJson, flagType2String.
  read_members. by destruct v, i.
Qed.

Lemma result_roundtrip r :
  is_ullong (callCount r) → map_Forall (λ _, is_ullong) (callsFromParents r) →
  InstrumentationResult_fromJson (InstrumentationResult_toJson r) ⇓ r.
Proof.
  intros Hc Hp. unfold InstrumentationResult_fromJson, InstrumentationResult_toJson. read_members.
  rewrite counts_roundtrip by done. rewrite bind_ret. by destruct r.
Qed.

Lemma create_pgis k f (j : json) (strToNode : StrToNodeMapping) :
  pgis_registered_last k = true → find_key pgis_registry k = Some f →
  MetaDataFactory_create (MDI := pgis_md) k j strToNode = (md ← f j strToNode; Ret (Some md)).
Proof.
  intros Hk Hf. unfold MetaDataFactory_create. cbn [md_registry pgis_md].
  unfold pgis_registry_lookup. rewrite Hf, Hk. by destruct (registry_lookup k).
Qed.

Ltac open_pgis Hk := erewrite (create_pgis _ _ _ _ Hk) by reflexivity; cbn [snd]; cbv beta.

(** What the classes of PGIS write to a file and read from it: run time and
    number of calls of a profile, the number of statements, the flags
    [Visited] and [Irrelevant] of the load imbalance detection, and all of the
    instrumentation results come back; the mark of a node, the counts per
    caller, the locations, and all other fields do not. *)
Theorem pgis_json_roundtrip (m : PgisMD) (nodeToStr : NodeToStrMapping) (strToNode : StrToNodeMapping) :
  pgis_valid m → pgis_registered_last (pgis_key m) = true →
  ∃ j, pgis_toJson m nodeToStr ⇓ j ∧
    MetaDataFactory_create (MDI := pgis_md) (pgis_key m) j strToNode ⇓ Some (persisted m).
Proof.
  intros Hv Hk. destruct m as [b|s|b|p|l|r|[o b n]|i]; cbn in Hv.
  - done.
  - eexists. split; [done|]. by open_pgis Hk.
  - eexists. split; [done|]. open_pgis Hk.
    by rewrite (profile_roundtrip b Hv).
  - eexists. split; [done|]. open_pgis Hk.
    unfold PiraOneData_fromJson, PiraOneData_toJson. rewrite jis_null_jmk.
    rewrite jget_longlong_jint by done. rewrite bind_ret. unfold setNumberOfStatements. cbn. by rewrite to_int_id.
  - destruct Hv as [[v Hvi] [i Hir]]. destruct (li_roundtrip l v i Hvi Hir) as (j & Hj & Hr).
    exists j. split; [done|]. open_pgis Hk. rewrite Hr.
    cbn [persisted]. by rewrite Hvi, Hir.
  - destruct Hv. eexists. split; [done|]. open_pgis Hk.
    by rewrite result_roundtrip.
  - destruct Hv as [v Hv]. cbn in Hv. subst b. eexists. split; [done|].
    open_pgis Hk. unfold FilePropertiesMetaData_fromJson.
    by read_members.
  - eexists. split; [done|]. open_pgis Hk.
    unfold InlineMetaData_fromJson, InlineMetaData_toJson. read_members. by destruct i.
Qed.
End roundtrip.

(** ** A concrete implementation *)

Module PgisTree.
#[local] Existing Instance JsonTree.ops.

Definition tree_of_double (d : double) : JsonTree.tree :=
  match d with
  | S754_zero s => JsonTree.TArr [JsonTree.TInt 0; JsonTree.TBool s]
  | S754_infinity s => JsonTree.TArr [JsonTree.TInt 1; JsonTree.TBool s]
  | S754_nan => JsonTree.TArr [JsonTree.TInt 2]
  | S754_finite s m e => JsonTree.TArr [JsonTree.TInt 3; JsonTree.TBool s; JsonTree.TInt (Zpos m); JsonTree.TInt e]
  end.
Definition double_of_tree (t : JsonTree.tree) : outcome double :=
  match t with
  | JsonTree.TArr [JsonTree.TInt 0; JsonTree.TBool s] => Ret (S754_zero s)
  | JsonTree.TArr [JsonTree.TInt 1; JsonTree.TBool s] => Ret (S754_infinity s)
  | JsonTree.TArr [JsonTree.TInt 2] => Ret S754_nan
  | JsonTree.TArr [JsonTree.TInt 3; JsonTree.TBool s; JsonTree.TInt (Zpos m); JsonTree.TInt e] =>
      Ret (S754_finite s m e)
  | JsonTree.TInt z => Ret (d_of_Z z)
  | _ => Throw json_type_error
  end.

Definition ullong_of_tree (t : JsonTree.tree) : outcome Z :=
  match t with JsonTree.TInt z => Ret (to_ullong z) | _ => Throw json_type_error end.

#[export] Instance numbers : JsonNumbers.
Proof.
  refine {| jdouble := tree_of_double; jget_double := double_of_tree; jget_ulonglong := ullong_of_tree |}.
  - by intros [].
  - intros z Hz. cbn -[to_ullong]. f_equal. apply Z.mod_small, Hz.
Defined.

(** The libraries that a program is linked with are initialised before it. *)
#[export] Instance init_order : InitOrder := {| pgis_registered_last _ := true |}.
End PgisTree.

Lemma pgis_json_roundtrip_witness :
  let r := mkInstrumentationResult 3 {["main" := 2%Z]} (d_of_Z 4) d_zero d_zero d_zero d_zero d_zero true true in
  ∃ j, pgis_toJson (JO := JsonTree.ops) (JN := PgisTree.numbers) (AResult r) (λ i, Ret (pretty i)) ⇓ j ∧
    MetaDataFactory_create (MDI := pgis_md (JN := PgisTree.numbers) (IN := PgisTree.init_order))
      "instrumentationResult" j (λ _, None) ⇓ Some (persisted (AResult r)).
Proof.
  intros r.
  apply (pgis_json_roundtrip (JL := JsonTree.laws) (JN := PgisTree.numbers) (IN := PgisTree.init_order)
    (AResult r)); [|done].
  split; [done|]. by apply map_Forall_singleton.
Defined.
