(* ===== verification/PgisExamples.v ===== *)
(** * PGIS: examples

    The theorems on the instrumentation selection at a small program, with the
    concrete metadata of [PgisInstance]. *)

From S2P Require Import Prelude Json MetaData BuiltinMD Callgraph CallgraphWf.
From S2P Require Import CallgraphOps CallgraphSpec CallgraphProps Reach PgisMD PgisAccess.
From S2P Require Import CgHelper InclusiveCounts PgisConfig PgisPhases PgisGaps.
From S2P Require Import PgisCounts PgisReach PgisCountsProps PgisSelect PgisStatistics LIPhase.
From S2P Require Import LIProps PgisProcessor PgisStatic PgisStaticRun PgisInstance.

Module PgisExample.

#[export] Existing Instance JsonTree.ops.
#[export] Existing Instance PgisTree.numbers.
#[export] Existing Instance PgisTree.init_order.
#[local] Remove Hints builtin_md : typeclass_instances.
#[local] Existing Instance pgis_md.
#[local] Existing Instance canonical_order.

(** [main] calls [solve], which calls [kernel] and [helper]; [dead] is never
    called. *)
Definition statements (i : NodeId) (n : Z) : op :=
  OUpdateNode i (AddMetaData (APiraOne (mkPiraOneData false false true n))).

Definition program_ops : list op := [
  OInsert "main" None false true; OInsert "solve" None false true; OInsert "kernel" None false true;
  OInsert "helper" None false true; OInsert "dead" None false true;
  OAddEdge 0 1; OAddEdge 1 2; OAddEdge 1 3; OAddEdge 2 3; OAddEdge 4 3;
  statements 0 2; statements 1 10; statements 2 20; statements 3 1; statements 4 50; OGetMain false].

Definition built (os : list op) : Callgraph :=
  match run_all os (Callgraph_new 1) with Ret (g, _) => g | _ => Callgraph_new 1 end.

Lemma built_wf os : pre_all os (abs (Callgraph_new 1)) → wf (built os).
Proof.
  intros Hpre. unfold built.
  destruct (run_all_refines os (Callgraph_new 1)) as (g & -> & Hwf & _); [apply wf_new|done..].
Qed.

Definition program : Callgraph := built program_ops.

Lemma program_wf : wf program.
Proof. apply built_wf. by apply (bool_decide_unpack _); vm_compute. Qed.

Lemma program_main : mainNode program = Some 0.
Proof. vm_compute. reflexivity. Qed.

Lemma forall_live (g : Callgraph) (n : nat) (P : NodeId → Prop) :
  length (nodes g) = n → Forall P (seq 0 n) → ∀ i, live g i → P i.
Proof.
  intros Hn HP i Hi%live_lt. rewrite Forall_forall in HP. apply HP, elem_of_seq. lia.
Qed.

Lemma program_full : full program.
Proof.
  assert (length (nodes program) = 5) as Hl by (vm_compute; reflexivity).
  assert (Forall (λ i, live program i) (seq 0 5)) as Hf
    by (apply (bool_decide_unpack _); vm_compute; exact I).
  intros i Hi. rewrite Forall_forall in Hf. apply Hf, elem_of_seq. lia.
Qed.

(** A property of every node, checked at each of them. *)
Ltac check_nodes :=
  refine (forall_live _ 5 _ _ _); [vm_compute; reflexivity|]; cbn [seq]; repeat constructor.

Lemma program_marks i : live program i → mark program i = Some NotInstrumented.
Proof. revert i. check_nodes; vm_compute; reflexivity. Qed.

Lemma program_marks_ok : marks_ok program.
Proof. intros i Hi. rewrite program_marks by done. by eexists. Qed.

Lemma program_results i : live program i → is_Some (md_view InstrumentationResultMetaData program i).
Proof. revert i. check_nodes; eexists; vm_compute; reflexivity. Qed.

Lemma program_statements i : live program i →
  ∃ p, md_view PiraOneData program i = Some p ∧ (0 ≤ numStmts p)%Z.
Proof. revert i. check_nodes; eexists; (split; [vm_compute; reflexivity|done]). Qed.

Lemma program_countable : countable_program program.
Proof.
  split.
  - apply program_statements.
  - vm_compute. discriminate.
  - check_nodes; eexists; (split; [vm_compute; reflexivity|done]).
  - vm_compute. discriminate.
  - vm_compute. reflexivity.
Qed.

(** Nothing calls [dead]; every call goes to a node with a larger number,
    except the one of [dead]. *)
Lemma program_calls i j : calls program i j → j ≠ 4 ∧ (i < j ∨ i = 4).
Proof.
  intros [md Hn].
  assert (forallb (λ e, bool_decide (e.1.2 ≠ 4 ∧ (e.1.1 < e.1.2 ∨ e.1.1 = 4))) (map_to_list (edges program)) = true)
    as Hall by (vm_compute; reflexivity).
  rewrite forallb_forall in Hall. specialize (Hall ((i, j), md)).
  rewrite <- list_elem_of_In, elem_of_map_to_list in Hall.
  by specialize (Hall Hn); apply bool_decide_eq_true in Hall.
Qed.

Lemma dead_unreachable : ¬ rtc (calls program) 0 4.
Proof. intros [|(k & _ & [Hk _]%program_calls)]%rtc_inv_r; done. Qed.

Lemma program_acyclic i j : calls program i j → ¬ rtc (calls program) j i.
Proof.
  intros [Hj4 Hij]%program_calls Hji.
  assert (∀ x y, rtc (calls program) x y → x ≠ 4 → x ≤ y ∧ y ≠ 4) as Hle.
  { induction 1 as [|x y z [Hy4 Hxy]%program_calls _ IH]; intros Hx; [done|]. destruct IH; [done|]. lia. }
  destruct (Hle j i Hji Hj4). lia.
Qed.

Lemma program_dead i n : node_at program i = Some n → functionName n = "dead" → i = 4.
Proof.
  intros Hn Hname.
  assert (∀ i, live program i → bool_decide (functionName <$> node_at program i = Some "dead") = true → i = 4) as H
    by (check_nodes; vm_compute; done).
  apply H; [by eexists|]. apply bool_decide_eq_true. rewrite Hn. simpl. by rewrite Hname.
Qed.

Definition max_config : GlobalConfig := {[cuttoffSelection := AnyCuttoff MAX]}.

Lemma static_selection_correct_witness :
  let p0 := mkProcessor program "out" "app" false false [] [] ∅ in
  ∃ p1 N p2 lines, registerEstimatorPhases max_config false p0 ⇓ p1 ∧
    (∀ fuel, N ≤ fuel → applyRegisteredPhases max_config fuel p1 ⇓ p2) ∧
    pr_files p2 !! instrumentation_file p0 = Some (text lines) ∧ "dead" ∉ lines.
Proof.
  intros p0.
  destruct (static_selection_correct program 0 max_config MAX "out" "app" ∅)
    as (p1 & N & p2 & R & incl & c & lines & Hp1 & Hrun & HR & _ & _ & Hfile & Hlines & _).
  - apply program_wf.
  - apply program_full.
  - apply program_main.
  - apply program_countable.
  - apply program_marks.
  - apply program_results.
  - reflexivity.
  - reflexivity.
  - reflexivity.
  - reflexivity.
  - exists p1, N, p2, lines. split_and!; [done..|].
    intros (i & n & Hn & Hname & Hi & _)%Hlines.
    apply dead_unreachable. rewrite (program_dead i n Hn Hname) in Hi.
    apply HR in Hi as (j & [= <-] & Hj). done.
Defined.

Lemma program_profiled : profiled program.
Proof.
  intros i n Hn Hb. exfalso.
  assert (∀ i, live program i → hasBody <$> node_at program i = Some true) as H
    by (check_nodes; vm_compute; reflexivity).
  specialize (H i ltac:(by eexists)). rewrite Hn in H. simpl in H. congruence.
Qed.

Lemma generateIC_correct_witness : ∃ g' ic, generateIC program IC_new ⇓ (g', ic).
Proof.
  destruct (generateIC_correct program program_wf program_full program_marks_ok) as (g' & ic & H & _).
  by exists g', ic.
Defined.

Lemma Store_correct_witness : ∃ g', Store_modifyGraph program ⇓ g'.
Proof.
  destruct (Store_correct program program_wf program_full program_marks_ok program_results)
    as (g' & H & _). by exists g'.
Defined.

Lemma StatementCount_correct_witness :
  ∃ N ph' g', ∀ fuel, N ≤ fuel →
    StatementCount_modifyGraph max_config fuel None (mkStatementCount 20 true ∅ None) program ⇓ (ph', g').
Proof.
  destruct (StatementCount_correct program program_wf program_full 0 program_main program_marks_ok
    max_config None (mkStatementCount 20 true ∅ None) false 20) as (N & ph' & g' & H & _).
  - apply program_statements.
  - vm_compute. discriminate.
  - reflexivity.
  - intros Hf. discriminate Hf.
  - reflexivity.
  - reflexivity.
  - by exists N, ph', g'.
Defined.

Lemma Statistics_correct_witness :
  ∃ N s' g', ∀ fuel, N ≤ fuel →
    Statistics_modifyGraph max_config fuel (Statistics_new false) program ⇓ (s', g').
Proof.
  destruct (Statistics_correct program program_wf program_full 0 program_main program_marks_ok
    program_countable max_config false MAX false) as (N & s' & g' & _ & _ & _ & H & _);
    [reflexivity|reflexivity|intros Hf; discriminate Hf|reflexivity|].
  by exists N, s', g'.
Defined.

Lemma reachableInNSteps_correct_witness :
  ∃ N b, (∀ fuel, N ≤ fuel → reachableInNSteps fuel program (Some 0) (Some 3) 2 ⇓ b) ∧ b = true.
Proof.
  destruct (reachableInNSteps_correct program 0 3 2 program_wf) as (N & b & H & Hb).
  - by apply (bool_decide_unpack _); vm_compute.
  - exists N, b. split; [exact H|]. apply Hb. exists 2. split; [|right; done].
    apply (nsteps_l _ _ _ 1); [by apply (bool_decide_unpack _); vm_compute|].
    apply nsteps_once. by apply (bool_decide_unpack _); vm_compute.
Defined.

Lemma program_li i : live program i →
  ∃ l b, md_view LIMetaData program i = Some l ∧ flags l !! Irrelevant = Some b.
Proof. revert i. check_nodes; do 2 eexists; (split; vm_compute; reflexivity). Qed.

Lemma instrumentRelevantChildren_correct_witness :
  ∃ g', instrumentRelevantChildren 20 program (Some 1) 5 ⇓ g'.
Proof.
  destruct (instrumentRelevantChildren_correct program program_wf program_marks_ok 5 program_li 1 20)
    as (g' & H & _).
  - by apply (bool_decide_unpack _); vm_compute.
  - vm_compute. lia.
  - by exists g'.
Defined.

Lemma getInstrumentationPath_correct_witness :
  ∃ g' X, getInstrumentationPath program 20 (Some 3) ⇓ (g', X).
Proof.
  destruct (getInstrumentationPath_correct program program_wf 3 20 program_marks_ok) as (g' & X & H & _).
  - by apply (bool_decide_unpack _); vm_compute.
  - vm_compute. lia.
  - by exists g', X.
Defined.

Definition own_statements (i : NodeId) : Z :=
  match i with 0 => 2 | 1 => 10 | 2 => 20 | 3 => 1 | _ => 50 end.

Lemma inclusive_counts_correct_witness :
  ∃ g', calculateInclusiveStatementCounts program 20 (Some 0) ⇓ g'.
Proof.
  destruct (inclusive_counts_correct program program_wf own_statements (λ _, false) program_acyclic 0 20)
    as (g' & H & _).
  - check_nodes; eexists; (split; vm_compute; reflexivity).
  - check_nodes; eexists; (split; vm_compute; reflexivity).
  - by apply (bool_decide_unpack _); vm_compute.
  - vm_compute. lia.
  - by exists g'.
Defined.

(** The same program with [kernel] marked. *)
Definition marked_program : Callgraph :=
  built (program_ops ++ [OUpdateNode 2 (AddMetaData (AnInstrumentation (mkInstrumentation Instrumented)))]).

Lemma fill_closes_gaps_witness :
  let ph := mkFill ∅ false false in
  ∃ N ph' g', (∀ fuel, N ≤ fuel → Fill_modifyGraph ph fuel marked_program (Some 0) ⇓ (ph', g')) ∧
    marked g' 1.
Proof.
  intros ph.
  assert (wf marked_program) as Hwf by (apply built_wf; by apply (bool_decide_unpack _); vm_compute).
  destruct (fill_closes_gaps marked_program 0 ph Hwf) as (N & ph' & g' & H & _ & Hpath & _).
  - assert (length (nodes marked_program) = 5) as Hl by (vm_compute; reflexivity).
    assert (Forall (λ i, live marked_program i) (seq 0 5)) as Hf
      by (apply (bool_decide_unpack _); vm_compute; exact I).
    intros i Hi. rewrite Forall_forall in Hf. apply Hf, elem_of_seq. lia.
  - vm_compute. reflexivity.
  - vm_compute. reflexivity.
  - check_nodes; eexists; vm_compute; reflexivity.
  - check_nodes; eexists; vm_compute; reflexivity.
  - reflexivity.
  - reflexivity.
  - reflexivity.
  - intros i n Hn.
    assert (∀ i, live marked_program i → never_called <$> node_at marked_program i = Some false) as Hc
      by (check_nodes; vm_compute; reflexivity).
    specialize (Hc i ltac:(by eexists)). rewrite Hn in Hc. simpl in Hc. congruence.
  - exists N, ph', g'. split; [exact H|]. apply (Hpath 2 1).
    + by split; [eexists; vm_compute; reflexivity|vm_compute; discriminate].
    + exists 1. split; [done|]. split; apply rtc_once; by apply (bool_decide_unpack _); vm_compute.
Defined.
End PgisExample.

Lemma cutoff_correct_witness :
  ∃ c, getCuttoffValue PgisExample.max_config {[3%Z := 2%Z; 8%Z := 1%Z]} ⇓ c ∧ cutoff_of MAX [3; 3; 8]%Z c.
Proof.
  apply (cutoff_correct PgisExample.max_config MAX [3; 3; 8]%Z); [|done|reflexivity].
  split; [by apply (bool_decide_unpack _); vm_compute|].
  by apply map_Forall_insert_2; [|apply map_Forall_singleton].
Defined.

Lemma first_option_wins_witness :
  let r := putOption ∅ scorepOut (AnyBool true) in
  let r' := putOption r.1 scorepOut (AnyBool false) in
  r.2 = true ∧ r'.2 = false ∧ getAs bool r'.1 scorepOut ⇓ true.
Proof. by apply (first_option_wins bool ∅ scorepOut (AnyBool true) (AnyBool false) true). Defined.
