(* ===== verification/Diff.v ===== *)
(** * Comparing two graphs

    [tools/cgdiff]: the summaries of nodes, the comparison of two graphs and
    the list of differences it returns ([CGDiff.cpp], [NodeSummary.h],
    [NodeSummaryComparator.h], [NodeDiff.h], [GlobalMDDiff.h] and
    [createNodeDiff] of [DiffFormatter.h]).  The options of the command line
    are the arguments [mode] and [ignoredMdKeys]; printing the differences as
    JSON is left out. *)

From S2P Require Import Prelude Json MetaData Callgraph.

(** ** Modes *)

Definition ComparisonMode : Type := Z.
Definition ignoreEdges : ComparisonMode := Z.shiftl 1 0.
Definition ignoreBody : ComparisonMode := Z.shiftl 1 1.
Definition ignoreMetadata : ComparisonMode := Z.shiftl 1 2.
Definition ignoreEdgeMetadata : ComparisonMode := Z.shiftl 1 3.
Definition ignoreGlobalMetadata : ComparisonMode := Z.shiftl 1 4.

Definition mode_or (a b : ComparisonMode) : ComparisonMode := Z.lor a b.
Definition hasFlag (mode flag : ComparisonMode) : bool := bool_decide (Z.land mode flag ≠ 0%Z).

(** ** Summaries *)

Record NodeSummary := mkSummary {
  ns_name : string;
  ns_hasBody : bool;
  ns_callees : gset string;
  ns_metadata : gset string;
  ns_edgeMetadata : gmap string (gset string)
}.

(** [NodeSummaryComparator::operator()] *)
Definition summary_equal (mode : ComparisonMode) (a b : NodeSummary) : bool :=
  bool_decide (ns_name a = ns_name b) &&
  (hasFlag mode ignoreBody || bool_decide (ns_hasBody a = ns_hasBody b)) &&
  (hasFlag mode ignoreEdges || bool_decide (ns_callees a = ns_callees b)) &&
  (hasFlag mode ignoreMetadata || bool_decide (ns_metadata a = ns_metadata b)) &&
  (hasFlag mode ignoreEdgeMetadata || hasFlag mode ignoreEdges ||
   bool_decide (ns_edgeMetadata a = ns_edgeMetadata b)).

(** ** Differences *)

Record EdgeDiff := mkEdgeDiff {
  ed_callee : string;
  ed_onlyInA : bool;
  ed_onlyInB : bool;
  ed_metadataOnlyInA : gset string;
  ed_metadataOnlyInB : gset string
}.

Record NodeDiff := mkNodeDiff {
  nd_name : string;
  nd_diffType : list string;
  nd_in : string;
  nd_edgeDiffs : list EdgeDiff;
  nd_metadataOnlyInA : gset string;
  nd_metadataOnlyInB : gset string
}.

Definition NodeDiff_onlyInA (a : NodeSummary) : NodeDiff :=
  mkNodeDiff (ns_name a) ["missingNode"] "cgA" [] ∅ ∅.
Definition NodeDiff_onlyInB (b : NodeSummary) : NodeDiff :=
  mkNodeDiff (ns_name b) ["missingNode"] "cgB" [] ∅ ∅.

Record GlobalMDDiff := mkGlobalMDDiff { gd_key : string; gd_aValue : string; gd_bValue : string }.

Inductive Diff := DNode (d : NodeDiff) | DGlobalMD (d : GlobalMDDiff).

Section diff.
Context {IO : IterOrder}.

(** The part of the loop of [createNodeDiff] that looks at edge metadata. *)
Definition edge_metadata_diff (a b : option (gset string)) : gset string * gset string :=
  match a, b with
  | Some x, Some y => (x ∖ y, y ∖ x)
  | Some x, None => (x, ∅)
  | None, Some y => (∅, y)
  | None, None => (∅, ∅)
  end.

Definition edge_diff (nsA nsB : NodeSummary) (edgeMetadataDifferent : bool) (callee : string)
    : EdgeDiff :=
  let md := if edgeMetadataDifferent
            then edge_metadata_diff (ns_edgeMetadata nsA !! callee) (ns_edgeMetadata nsB !! callee)
            else (∅, ∅) in
  mkEdgeDiff callee (negb (bool_decide (callee ∈ ns_callees nsB)))
    (negb (bool_decide (callee ∈ ns_callees nsA))) md.1 md.2.

Definition has_metadata_diff (ed : EdgeDiff) : bool :=
  negb (bool_decide (ed_metadataOnlyInA ed = ∅)) || negb (bool_decide (ed_metadataOnlyInB ed = ∅)).

Definition is_difference (ed : EdgeDiff) : bool :=
  ed_onlyInA ed || ed_onlyInB ed || has_metadata_diff ed.

Definition createNodeDiff (nsA nsB : NodeSummary) (mode : ComparisonMode) : NodeDiff :=
  let body :=
    if negb (hasFlag mode ignoreBody) && negb (bool_decide (ns_hasBody nsA = ns_hasBody nsB))
    then ["differentBody"] else [] in
  let eds :=
    if negb (hasFlag mode ignoreEdges) then
      let edgeMetadataDifferent :=
        negb (hasFlag mode ignoreEdgeMetadata) &&
        negb (bool_decide (ns_edgeMetadata nsA = ns_edgeMetadata nsB)) in
      filter (λ ed, is_difference ed = true)
        (edge_diff nsA nsB edgeMetadataDifferent <$> iter_set (ns_callees nsA ∪ ns_callees nsB))
    else [] in
  let edge_types :=
    if negb (hasFlag mode ignoreEdges) then
      (if existsb (λ ed, ed_onlyInA ed || ed_onlyInB ed) eds then ["differentEdges"] else []) ++
      (if existsb has_metadata_diff eds && negb (hasFlag mode ignoreEdgeMetadata)
       then ["differentEdgeMetadata"] else [])
    else [] in
  let md :=
    negb (hasFlag mode ignoreMetadata) && negb (bool_decide (ns_metadata nsA = ns_metadata nsB)) in
  mkNodeDiff (ns_name nsA) (body ++ edge_types ++ if md then ["differentMetadata"] else []) "" eds
    (if md then ns_metadata nsA ∖ ns_metadata nsB else ∅)
    (if md then ns_metadata nsB ∖ ns_metadata nsA else ∅).

(** ** The comparison *)

Section compare.
Context {JO : JsonOps} {MDI : MetaDataI}.

(** [NameMapping::getStrFromNode] dereferences what [getNode] returns. *)
Definition NameMapping (graph : Callgraph) : NodeToStrMapping := λ i,
  ns ← getNode graph i; n ← deref ns; Ret (functionName n).

(** The name of the node a pointer refers to. *)
Definition callee_name (mcg : Callgraph) (callee : option NodeId) : outcome string :=
  i ← deref callee; n ← deref (node_at mcg i); Ret (functionName n).

(** Collects [key:value] for metadata whose key is not ignored; [toJson] runs in any case. *)
Definition add_edge_metadata (ignoredMdKeys : gset string) (mapping : NodeToStrMapping)
    (emd : gset string) (metadata : string * MD) : outcome (gset string) :=
  json ← md_toJson metadata.2 mapping;
  let value := jdump json in
  if decide (metadata.1 ∈ ignoredMdKeys) then Ret emd
  else Ret ({[metadata.1 +:+ ":" +:+ value]} ∪ emd).

(** Arrays directly below an object are sorted in place. *)
Definition sort_sub_arrays (j : json) : outcome json :=
  if jis_object j then
    foldM (λ j '(subKey, subValue),
      match jview subValue with
      | VArr l => jset j subKey (jarr (jsort l))
      | _ => Ret j
      end) j (jitems j)
  else Ret j.

Definition add_node_metadata (ignoredMdKeys : gset string) (mapping : NodeToStrMapping)
    (nodeMetadata : gset string) (metadata : string * MD) : outcome (gset string) :=
  json ← md_toJson metadata.2 mapping;
  sorted ← sort_sub_arrays json;
  let value := jdump sorted in
  if decide (metadata.1 ∈ ignoredMdKeys) then Ret nodeMetadata
  else Ret ({[metadata.1 +:+ ":" +:+ value]} ∪ nodeMetadata).

(** [emplace] keeps the entry of the first callee with a name. *)
Definition add_callee_metadata (ignoredMdKeys : gset string) (mcg : Callgraph)
    (mapping : NodeToStrMapping) (i : NodeId) (edgeMetaData : gmap string (gset string))
    (callee : option NodeId) : outcome (gmap string (gset string)) :=
  j ← deref callee;
  mds ← getAllEdgeMetaData mcg (i, j);
  emd ← foldM (add_edge_metadata ignoredMdKeys mapping) ∅ (iter_map mds);
  name ← callee_name mcg callee;
  Ret (match edgeMetaData !! name with Some _ => edgeMetaData | None => <[name := emd]> edgeMetaData end).

Definition summarize (mode : ComparisonMode) (ignoredMdKeys : gset string) (mcg : Callgraph)
    (mapping : NodeToStrMapping) (n : CgNode) : outcome NodeSummary :=
  callees ← getCallees_ref mcg n;
  calleeNames ← foldM (λ names callee, name ← callee_name mcg callee; Ret ({[name]} ∪ names)) ∅
    (iter_set callees);
  edgeMetaData ←
    (if hasFlag mode ignoreEdgeMetadata then Ret ∅
     else foldM (add_callee_metadata ignoredMdKeys mcg mapping (node_id n)) ∅ (iter_set callees));
  nodeMetadata ←
    (if hasFlag mode ignoreMetadata then Ret ∅
     else foldM (add_node_metadata ignoredMdKeys mapping) ∅ (iter_map (node_md n)));
  Ret (mkSummary (functionName n) (hasBody n) calleeNames nodeMetadata edgeMetaData).

(** [std::unordered_set<NodeSummary>] whose hash and comparison look at the name
    only is a map from names; [insert] keeps the first summary with a name. *)
Definition insert_summary (nodes : gmap string NodeSummary) (ns : NodeSummary)
    : gmap string NodeSummary :=
  match nodes !! ns_name ns with Some _ => nodes | None => <[ns_name ns := ns]> nodes end.

Definition collectNodeSummaries (mode : ComparisonMode) (ignoredMdKeys : gset string)
    (mcg : Callgraph) (mapping : NodeToStrMapping) : outcome (gmap string NodeSummary) :=
  foldM (λ summaries node,
    n ← deref node;
    ns ← summarize mode ignoredMdKeys mcg mapping n;
    Ret (insert_summary summaries ns)) ∅ (nodes mcg).

(** The two loops over the metadata of the graphs.  Where both have a key, the
    values are compared with the names of the second graph for both sides. *)
Definition global_diff_A (ignoredMdKeys : gset string) (mcgA mcgB : Callgraph)
    (diffs : list Diff) (md : string * MD) : outcome (list Diff) :=
  if decide (md.1 ∈ ignoredMdKeys) then Ret diffs
  else
    match cg_md mcgB !! md.1 with
    | None =>
        a ← md_toJson md.2 (NameMapping mcgA);
        Ret (diffs ++ [DGlobalMD (mkGlobalMDDiff md.1 (jdump a) "")])
    | Some mdB =>
        a ← md_toJson md.2 (NameMapping mcgB);
        b ← md_toJson mdB (NameMapping mcgB);
        if decide (jdump a = jdump b) then Ret diffs
        else
          a' ← md_toJson md.2 (NameMapping mcgA);
          Ret (diffs ++ [DGlobalMD (mkGlobalMDDiff md.1 (jdump a') (jdump b))])
    end.

Definition global_diff_B (ignoredMdKeys : gset string) (mcgA : Callgraph)
    (diffs : list Diff) (md : string * MD) : outcome (list Diff) :=
  if decide (md.1 ∈ ignoredMdKeys) then Ret diffs
  else
    match cg_md mcgA !! md.1 with
    | None =>
        b ← md_toJson md.2 (NameMapping mcgA);
        Ret (diffs ++ [DGlobalMD (mkGlobalMDDiff md.1 "" (jdump b))])
    | Some _ => Ret diffs
    end.

(** One summary of the first graph; a partner is removed from the second one. *)
Definition node_diff (mode : ComparisonMode) (st : list Diff * gmap string NodeSummary)
    (nA : string * NodeSummary) : list Diff * gmap string NodeSummary :=
  match st.2 !! nA.1 with
  | None => (st.1 ++ [DNode (NodeDiff_onlyInA nA.2)], st.2)
  | Some nB =>
      (if summary_equal mode nB nA.2 then st.1
       else st.1 ++ [DNode (createNodeDiff nA.2 nB mode)], delete nA.1 st.2)
  end.

Definition compare (mcgA mcgB : Callgraph) (mode : ComparisonMode) (ignoredMdKeys : gset string)
    : outcome (list Diff) :=
  nodesA ← collectNodeSummaries mode ignoredMdKeys mcgA (NameMapping mcgA);
  nodesB ← collectNodeSummaries mode ignoredMdKeys mcgB (NameMapping mcgB);
  diffs ←
    (if hasFlag ignoreGlobalMetadata mode then Ret []
     else
       diffs ← foldM (global_diff_A ignoredMdKeys mcgA mcgB) [] (iter_map (cg_md mcgA));
       foldM (global_diff_B ignoredMdKeys mcgA) diffs (iter_map (cg_md mcgB)));
  let st := foldl (node_diff mode) (diffs, nodesB) (iter_map nodesA) in
  Ret (st.1 ++ ((λ nB : string * NodeSummary, DNode (NodeDiff_onlyInB nB.2)) <$> iter_map st.2)).
End compare.
End diff.
