(* ===== verification/DiffProps.v ===== *)
(** * What [cgdiff] reports

    The differences in terms of the summaries of the two graphs, and for the
    comparison of structure alone in terms of the graphs themselves. *)

From S2P Require Import Prelude Json MetaData Callgraph.
From S2P Require Import CallgraphWf CallgraphOps CallgraphProps Diff.

Section diff.
Context {IO : IterOrder}.

(** ** Single nodes *)

(** Edge metadata is listed under the names of the callees. *)
Definition edges_keyed (ns : NodeSummary) : Prop := dom (ns_edgeMetadata ns) = ns_callees ns.

Lemma existsb_true {A} (f : A → bool) (l : list A) x : x ∈ l → f x = true → existsb f l = true.
Proof. intros Hx Hf. apply existsb_exists. exists x. by rewrite <- list_elem_of_In. Qed.

Lemma edge_diff_listed nsA nsB flag c :
  c ∈ ns_callees nsA ∪ ns_callees nsB → is_difference (edge_diff nsA nsB flag c) = true →
  edge_diff nsA nsB flag c ∈ filter (λ ed, is_difference ed = true)
    (edge_diff nsA nsB flag <$> iter_set (ns_callees nsA ∪ ns_callees nsB)).
Proof.
  intros Hc Hd. apply list_elem_of_filter. split; [done|]. apply list_elem_of_fmap.
  exists c. by rewrite elem_of_iter_set.
Qed.

Lemma sets_differ {A} `{Countable A} (X Y : gset A) : X ≠ Y → X ∖ Y ≠ ∅ ∨ Y ∖ X ≠ ∅.
Proof.
  intros Hne. destruct (decide (X ∖ Y = ∅)) as [H1|]; [|by left].
  destruct (decide (Y ∖ X = ∅)) as [H2|]; [|by right].
  destruct Hne. apply leibniz_equiv. intros x.
  destruct (decide (x ∈ X)), (decide (x ∈ Y)); set_solver.
Qed.

(** A callee of only one of the two makes a difference of edges. *)
Lemma callees_differ nsA nsB flag :
  ns_callees nsA ≠ ns_callees nsB →
  ∃ c, c ∈ ns_callees nsA ∪ ns_callees nsB ∧
    let ed := edge_diff nsA nsB flag c in ed_onlyInA ed || ed_onlyInB ed = true.
Proof.
  intros [Hne|Hne]%sets_differ; apply set_choose_L in Hne as [c Hc];
    exists c; (split; [set_solver|]); cbn.
  - rewrite (bool_decide_false (c ∈ ns_callees nsB)) by set_solver. done.
  - rewrite (bool_decide_false (c ∈ ns_callees nsA)) by set_solver. by rewrite orb_true_r.
Qed.

(** Different metadata of an edge both nodes have makes a difference of metadata. *)
Lemma edge_metadata_differs nsA nsB :
  edges_keyed nsA → edges_keyed nsB → ns_callees nsA = ns_callees nsB →
  ns_edgeMetadata nsA ≠ ns_edgeMetadata nsB →
  ∃ c, c ∈ ns_callees nsA ∪ ns_callees nsB ∧ has_metadata_diff (edge_diff nsA nsB true c) = true.
Proof.
  intros HA HB Hc Hne.
  assert (∃ c, ns_edgeMetadata nsA !! c ≠ ns_edgeMetadata nsB !! c) as [c Hdiff].
  { destruct (decide (map_Forall (λ c x, ns_edgeMetadata nsB !! c = Some x) (ns_edgeMetadata nsA)))
      as [Hall|Hnot].
    - destruct Hne. apply map_eq. intros c. destruct (ns_edgeMetadata nsA !! c) as [x|] eqn:Hx.
      + symmetry. by apply Hall.
      + symmetry. apply not_elem_of_dom. rewrite HB, <- Hc, <- HA. by apply not_elem_of_dom.
    - apply map_not_Forall in Hnot as (c & x & Hx & Hy); [|apply _]. exists c. congruence. }
  assert (c ∈ dom (ns_edgeMetadata nsA)) as HcA.
  { apply dec_stable. intros HcA. apply Hdiff.
    rewrite (not_elem_of_dom_1 _ _ HcA). symmetry. apply not_elem_of_dom. by rewrite HB, <- Hc, <- HA. }
  assert (c ∈ dom (ns_edgeMetadata nsB)) as HcB by (rewrite HB, <- Hc, <- HA; done).
  exists c. split; [rewrite HA in HcA; set_solver|].
  apply elem_of_dom in HcA as [x Hx], HcB as [y Hy].
  unfold has_metadata_diff, edge_diff. cbn. rewrite Hx, Hy. cbn.
  assert (x ≠ y) as [Hxy|Hxy]%sets_differ by congruence.
  - by rewrite (bool_decide_false _ Hxy).
  - rewrite (bool_decide_false _ Hxy). apply orb_true_r.
Qed.

(** Which summands of the list of reasons are empty. *)
Lemma no_reason (c : bool) (s : string) : (if c then [s] else []) = [] → c = false.
Proof. by destruct c. Qed.

Lemma no_edge_reason (nsA nsB : NodeSummary) flag (p : EdgeDiff → bool) c :
  existsb p (filter (λ ed, is_difference ed = true)
    (edge_diff nsA nsB flag <$> iter_set (ns_callees nsA ∪ ns_callees nsB))) = false →
  c ∈ ns_callees nsA ∪ ns_callees nsB → is_difference (edge_diff nsA nsB flag c) = true →
  p (edge_diff nsA nsB flag c) = false.
Proof.
  intros Hex Hc Hd. destruct (p _) eqn:Hp; [|done].
  by rewrite (existsb_true _ _ _ (edge_diff_listed _ _ _ _ Hc Hd) Hp) in Hex.
Qed.

Lemma no_reason_equal (mode : ComparisonMode) (nsA nsB : NodeSummary) :
  edges_keyed nsA → edges_keyed nsB → ns_name nsA = ns_name nsB →
  nd_diffType (createNodeDiff nsA nsB mode) = [] → summary_equal mode nsB nsA = true.
Proof.
  intros HA HB Hname. unfold createNodeDiff. cbn [nd_diffType].
  intros [Hbody%no_reason [Hedges Hmd%no_reason]%app_eq_nil]%app_eq_nil.
  assert (hasFlag mode ignoreEdges || bool_decide (ns_callees nsB = ns_callees nsA) = true ∧
    hasFlag mode ignoreEdgeMetadata || hasFlag mode ignoreEdges ||
    bool_decide (ns_edgeMetadata nsB = ns_edgeMetadata nsA) = true) as [Hc He].
  { destruct (hasFlag mode ignoreEdges); cbn [negb orb] in *; [by rewrite orb_true_r|].
    apply app_eq_nil in Hedges as [Hstruct%no_reason Hemd%no_reason].
    assert (ns_callees nsA = ns_callees nsB) as Hc.
    { apply dec_stable. intros Hc.
      destruct (callees_differ nsA nsB (negb (hasFlag mode ignoreEdgeMetadata) &&
        negb (bool_decide (ns_edgeMetadata nsA = ns_edgeMetadata nsB))) Hc) as (c & Hin & Hd).
      cbn zeta in Hd. rewrite (no_edge_reason _ _ _ _ c Hstruct Hin) in Hd; [done|].
      by apply orb_true_intro; left. }
    rewrite bool_decide_true, orb_false_r by done. split; [done|].
    destruct (hasFlag mode ignoreEdgeMetadata); [done|]. cbn [negb andb orb] in *.
    rewrite andb_true_r in Hemd. apply bool_decide_eq_true, dec_stable. intros He.
    rewrite (bool_decide_false (ns_edgeMetadata nsA = _)) in Hemd by congruence. cbn [negb] in Hemd.
    destruct (edge_metadata_differs nsA nsB HA HB Hc) as (c & Hin & Hd); [congruence|].
    rewrite (no_edge_reason _ _ _ _ c Hemd Hin) in Hd; [done|]. by apply orb_true_intro; right. }
  unfold summary_equal. rewrite Hc, He, (bool_decide_true _ (eq_sym Hname)), !andb_true_r. cbn [andb].
  apply andb_true_iff. split.
  - destruct (hasFlag mode ignoreBody); [done|]. cbn [negb andb orb] in *.
    apply negb_false_iff, bool_decide_eq_true in Hbody. by apply bool_decide_eq_true.
  - destruct (hasFlag mode ignoreMetadata); [done|]. cbn [negb andb orb] in *.
    apply negb_false_iff, bool_decide_eq_true in Hmd. by apply bool_decide_eq_true.
Qed.

(** A reported difference of two nodes always has a reason: whenever the
    comparison of two summaries with the same name fails, [createNodeDiff]
    finds a body, an edge, metadata of an edge or metadata of the node that
    differs, in every mode. *)
Theorem nodeDiff_has_reason (mode : ComparisonMode) (nsA nsB : NodeSummary) :
  edges_keyed nsA → edges_keyed nsB → ns_name nsA = ns_name nsB →
  summary_equal mode nsB nsA = false → nd_diffType (createNodeDiff nsA nsB mode) ≠ [].
Proof. intros HA HB Hn Heq Hnil. by rewrite (no_reason_equal mode nsA nsB HA HB Hn Hnil) in Heq. Qed.

(** ** The list of differences *)

Section nodes.
Context (mode : ComparisonMode).

(** What the loop over the first graph adds for one summary. *)
Definition diffs_of (SB : gmap string NodeSummary) (nA : string * NodeSummary) : list Diff :=
  match SB !! nA.1 with
  | None => [DNode (NodeDiff_onlyInA nA.2)]
  | Some nB => if summary_equal mode nB nA.2 then [] else [DNode (createNodeDiff nA.2 nB mode)]
  end.

Lemma node_diffs (l : list (string * NodeSummary)) d (SB : gmap string NodeSummary) :
  NoDup l.*1 →
  (foldl (node_diff mode) (d, SB) l).1 = d ++ (l ≫= diffs_of SB) ∧
  ∀ k, (foldl (node_diff mode) (d, SB) l).2 !! k = if decide (k ∈ l.*1) then None else SB !! k.
Proof.
  revert d SB. induction l as [|[k nA] l IH]; intros d SB Hnd.
  { cbn. split; [by rewrite app_nil_r|done]. }
  rewrite fmap_cons in Hnd. apply NoDup_cons in Hnd as [Hk Hnd]. cbn [fst] in Hk.
  rewrite bind_cons. cbn [foldl].
  assert (∀ SB', (∀ k', k' ≠ k → SB' !! k' = SB !! k') → l ≫= diffs_of SB' = l ≫= diffs_of SB) as Hext.
  { intros SB' Heq. clear IH Hnd. induction l as [|[k' a] l IHl]; [done|].
    rewrite fmap_cons, not_elem_of_cons in Hk. destruct Hk as [Hne Hk].
    rewrite !bind_cons, IHl by done. f_equal. unfold diffs_of. cbn [fst] in *. by rewrite Heq. }
  assert (diffs_of SB (k, nA) = match SB !! k with
    | None => [DNode (NodeDiff_onlyInA nA)]
    | Some nB => if summary_equal mode nB nA then [] else [DNode (createNodeDiff nA nB mode)]
    end) as -> by done.
  unfold node_diff at 2 4. cbn [fst snd].
  destruct (SB !! k) as [nB|] eqn:HB; cbn [fst snd].
  - edestruct IH as [H1 H2]; [done|]. rewrite H1. split.
    + rewrite (Hext (delete k SB)) by (intros; by apply lookup_delete_ne).
      destruct (summary_equal mode nB nA); by rewrite <- ?app_assoc.
    + intros k'. rewrite H2, fmap_cons, lookup_delete. cbn [fst].
      destruct (decide (k' ∈ l.*1)), (decide (k = k')), (decide (k' ∈ k :: l.*1)); set_solver.
  - edestruct IH as [H1 H2]; [done|]. rewrite H1. split; [by rewrite <- app_assoc|].
    intros k'. rewrite H2, fmap_cons. cbn [fst].
    destruct (decide (k' ∈ l.*1)), (decide (k' ∈ k :: l.*1)); try done; [set_solver|].
    by assert (k' = k) as -> by set_solver.
Qed.

(** The node part of the comparison of two sets of summaries. *)
Definition compare_nodes (d : list Diff) (SA SB : gmap string NodeSummary) : list Diff :=
  let st := foldl (node_diff mode) (d, SB) (iter_map SA) in
  st.1 ++ ((λ nB : string * NodeSummary, DNode (NodeDiff_onlyInB nB.2)) <$> iter_map st.2).

Lemma compare_nodes_nil SA SB :
  compare_nodes [] SA SB = [] ↔
  ∀ k, match SA !! k, SB !! k with
       | Some a, Some b => summary_equal mode b a = true
       | None, None => True
       | _, _ => False
       end.
Proof.
  unfold compare_nodes. cbn zeta.
  destruct (node_diffs (iter_map SA) [] SB (iter_map_NoDup_fst SA)) as [H1 H2].
  set (st := foldl _ _ _) in *. clearbody st. rewrite H1. cbn [app].
  assert (∀ k, k ∈ (iter_map SA).*1 ↔ is_Some (SA !! k)) as Hkeys.
  { intros k. rewrite list_elem_of_fmap. split.
    - intros ([k' a] & -> & Ha%elem_of_iter_map). by exists a.
    - intros [a Ha]. exists (k, a). by rewrite elem_of_iter_map. }
  assert ((λ nB : string * NodeSummary, DNode (NodeDiff_onlyInB nB.2)) <$> iter_map st.2 = [] ↔ st.2 = ∅) as Hrest.
  { split; [|intros ->].
    - intros Hnil%fmap_nil_inv. by rewrite <- (iter_map_to_map st.2), Hnil.
    - assert (iter_map (∅ : gmap string NodeSummary) = []) as ->; [|done].
      apply Permutation_nil_r. by rewrite iter_map_perm, map_to_list_empty. }
  split.
  - intros [Hdiffs Hst%Hrest]%app_eq_nil k. specialize (H2 k). rewrite Hst, lookup_empty in H2.
    destruct (SA !! k) as [a|] eqn:Ha.
    + assert (diffs_of SB (k, a) = []) as Hd.
      { assert ((k, a) ∈ iter_map SA) as Hin by by apply elem_of_iter_map.
        apply list_elem_of_split in Hin as (l1 & l2 & Hl). rewrite Hl, bind_app, bind_cons in Hdiffs.
        by apply app_eq_nil in Hdiffs as [_ [? _]%app_eq_nil]. }
      unfold diffs_of in Hd. cbn [fst snd] in Hd. destruct (SB !! k); [|done].
      by destruct (summary_equal _ _ _).
    + rewrite decide_False in H2; [by rewrite <- H2|]. rewrite Hkeys, Ha. by intros [? ?].
  - intros Hall. rewrite (proj2 Hrest), app_nil_r.
    + assert (∀ l, (∀ x, x ∈ l → x ∈ iter_map SA) → l ≫= diffs_of SB = []) as Hb; [|by apply Hb].
      induction l as [|[k a] l IH]; intros Hl; [done|]. rewrite bind_cons, IH by set_solver.
      assert (SA !! k = Some a) as Ha by (apply elem_of_iter_map, Hl; set_solver).
      specialize (Hall k). rewrite Ha in Hall. unfold diffs_of. cbn [fst snd].
      destruct (SB !! k); [|done]. by rewrite Hall.
    + apply map_empty. intros k. rewrite H2. case_decide as Hk; [done|]. specialize (Hall k).
      destruct (SA !! k) eqn:Ha; [rewrite Hkeys, Ha in Hk; by destruct Hk|]. by destruct (SB !! k).
Qed.
End nodes.

(** ** Comparing the structure of two graphs *)

Section structure.
Context {JO : JsonOps} {MDI : MetaDataI}.
Implicit Types g : Callgraph.

(** The tool identifies nodes by their names and reads every entry of the node
    container. *)
Record comparable g : Prop := {
  cp_wf : wf g;
  cp_full : ∀ o, o ∈ nodes g → is_Some o;
  cp_unique : ∀ i j n m, node_at g i = Some n → node_at g j = Some m →
    functionName n = functionName m → i = j
}.

(** [--ignore-md --ignore-edge-md --ignore-global-md] *)
Definition structure_mode : ComparisonMode :=
  mode_or ignoreMetadata (mode_or ignoreEdgeMetadata ignoreGlobalMetadata).

Lemma summarize_name mode ign g m n s : summarize mode ign g m n ⇓ s → ns_name s = functionName n.
Proof.
  unfold summarize. intros (? & _ & (? & _ & (? & _ & (? & _ & [= <-])%bind_ret_inv)%bind_ret_inv)%bind_ret_inv)%bind_ret_inv.
  done.
Qed.

Lemma collectNodeSummaries_ret mode ign g mapping :
  comparable g →
  (∀ i n, node_at g i = Some n → ∃ s, summarize mode ign g mapping n ⇓ s) →
  ∃ S, collectNodeSummaries mode ign g mapping ⇓ S ∧
    ∀ f s, S !! f = Some s ↔
      ∃ i n, node_at g i = Some n ∧ functionName n = f ∧ summarize mode ign g mapping n ⇓ s.
Proof.
  intros Hg Hsum. unfold collectNodeSummaries.
  destruct (foldM_ind (λ dn (S : gmap string NodeSummary), ∀ f s, S !! f = Some s ↔
      ∃ i n, dn !! i = Some (Some n) ∧ functionName n = f ∧ summarize mode ign g mapping n ⇓ s)
    (λ summaries node, n ← deref node; ns ← summarize mode ign g mapping n;
       Ret (insert_summary summaries ns)) (nodes g) ∅) as (S & Hrun & HS).
  - intros f s. rewrite lookup_empty. split; [done|]. by intros (i & n & ? & _).
  - intros dn o rest S Hl HS. destruct (cp_full _ Hg o) as [n ->]; [rewrite Hl; set_solver|].
    assert (node_at g (length dn) = Some n) as Hn.
    { apply node_at_Some. rewrite Hl. by apply list_lookup_middle. }
    destruct (Hsum _ _ Hn) as [s Hs]. cbn [deref]. rewrite bind_ret, Hs, bind_ret.
    eexists. split; [done|]. unfold insert_summary. rewrite (summarize_name _ _ _ _ _ _ Hs).
    assert (S !! functionName n = None) as Hnone.
    { destruct (S !! functionName n) as [s'|] eqn:Hs'; [|done].
      apply HS in Hs' as (i & m & Hm & Hname & _).
      assert (node_at g i = Some m) as Hm'.
      { apply node_at_Some. rewrite Hl. by apply lookup_app_l_Some. }
      pose proof (cp_unique _ Hg _ _ _ _ Hm' Hn Hname) as ->. apply lookup_lt_Some in Hm. lia. }
    rewrite Hnone. intros f s'. rewrite lookup_insert_Some, HS. split.
    + intros [[<- <-]|[_ (i & m & Hm & ?)]].
      * exists (length dn), n. by rewrite list_lookup_middle.
      * exists i, m. by rewrite (lookup_app_l_Some dn _ _ _ Hm).
    + intros (i & m & Hm & <- & Hsm).
      apply lookup_snoc_Some in Hm as [[Hlt Hm]|[-> [= ->]]]; [right|left; split; congruence].
      split; [|by exists i, m]. intros Hname.
      assert (S !! functionName m = Some s') as Hs' by (apply HS; by exists i, m). congruence.
  - exists S. split; [done|]. intros f s. rewrite HS. by setoid_rewrite node_at_Some.
Qed.

(** The names of the callees of node [i]. *)
Definition callee_names_of g (i : NodeId) (C : gset string) : Prop :=
  ∀ c, c ∈ C ↔ ∃ j m, node_at g j = Some m ∧ functionName m = c ∧ is_Some (edges g !! (i, j)).

Lemma summarize_structure ign g mapping i n :
  wf g → node_at g i = Some n →
  ∃ C, summarize structure_mode ign g mapping n ⇓ mkSummary (functionName n) (hasBody n) C ∅ ∅ ∧
       callee_names_of g i C.
Proof.
  intros Hwf Hn. destruct (wf_ids _ Hwf _ _ Hn) as [Hid _]. unfold summarize, getCallees_ref.
  rewrite (hasNode_ref_live _ _ _ Hwf Hn), Hid.
  destruct (getCallees_ret g i Hwf) as (S & HS & Hin). rewrite HS, bind_ret.
  destruct (foldM_ind (λ dn C, ∀ c, c ∈ C ↔ ∃ j m, Some j ∈ dn ∧ node_at g j = Some m ∧ functionName m = c)
    (λ names callee, name ← callee_name g callee; Ret ({[name]} ∪ names)) (iter_set S) (∅ : gset string))
    as (C & Hrun & HC).
  - intros c. split; [set_solver|]. intros (j & m & Hj & _). by apply not_elem_of_nil in Hj.
  - intros dn p rest C Hl HC. assert (p ∈ S) as Hp by (apply elem_of_iter_set; rewrite Hl; set_solver).
    apply Hin in Hp as (j & -> & Hj). destruct (wf_edges _ Hwf _ _ Hj) as [_ [m Hm]].
    unfold callee_name. cbn [deref]. rewrite bind_ret, Hm. eexists. split; [done|].
    intros c. rewrite elem_of_union, elem_of_singleton, HC. setoid_rewrite elem_of_app.
    setoid_rewrite list_elem_of_singleton. split.
    + intros [->|(k & m' & ? & ?)]; [exists j, m|exists k, m']; naive_solver.
    + intros (k & m' & [Hk|[= ->]] & Hm' & <-); [right; by exists k, m'|left; congruence].
  - exists C. rewrite Hrun. split; [done|]. intros c. rewrite HC. setoid_rewrite elem_of_iter_set.
    setoid_rewrite Hin. naive_solver.
Qed.

(** The summaries, by name: what the comparison sees of a graph. *)
Definition summarizes g (S : gmap string NodeSummary) : Prop :=
  ∀ f s, S !! f = Some s ↔ ∃ i n C, node_at g i = Some n ∧ functionName n = f ∧
    callee_names_of g i C ∧ s = mkSummary f (hasBody n) C ∅ ∅.

Lemma structure_summaries ign g :
  comparable g →
  ∃ S, collectNodeSummaries structure_mode ign g (NameMapping g) ⇓ S ∧ summarizes g S.
Proof.
  intros Hg. destruct (collectNodeSummaries_ret structure_mode ign g (NameMapping g) Hg) as (S & HS & Hin).
  { intros i n Hn. destruct (summarize_structure ign g (NameMapping g) i n (cp_wf _ Hg) Hn) as (C & ? & _).
    eauto. }
  exists S. split; [done|]. intros f s. rewrite Hin. split.
  - intros (i & n & Hn & <- & Hs).
    destruct (summarize_structure ign g (NameMapping g) i n (cp_wf _ Hg) Hn) as (C & Hs' & HC).
    rewrite Hs' in Hs. injection Hs as <-. by exists i, n, C.
  - intros (i & n & C & Hn & <- & HC & ->). exists i, n. split_and!; [done..|].
    destruct (summarize_structure ign g (NameMapping g) i n (cp_wf _ Hg) Hn) as (C' & -> & HC').
    do 2 f_equal. apply leibniz_equiv. intros c. by rewrite (HC' c), (HC c).
Qed.

Lemma existsAnyEdge_callee g s t i n C :
  comparable g → node_at g i = Some n → functionName n = s → callee_names_of g i C →
  existsAnyEdge g s t = bool_decide (t ∈ C).
Proof.
  intros Hg Hn Hs HC. apply eq_true_iff_eq.
  rewrite existsAnyEdge_true by apply Hg. rewrite bool_decide_eq_true, (HC t). split.
  - intros (i' & j & n' & m & Hn' & Hs' & Hm & Ht & He).
    assert (i' = i) as -> by (eapply (cp_unique _ Hg); [done..|congruence]). by exists j, m.
  - intros (j & m & Hm & Ht & He). by exists i, j, n, m.
Qed.

(** The flags of bodies, by name. *)
Definition body_of g (f : string) (b : bool) : Prop :=
  ∃ i n, node_at g i = Some n ∧ functionName n = f ∧ hasBody n = b.

Lemma existsAnyEdge_absent g s t : wf g → hasNode_name g s = false → existsAnyEdge g s t = false.
Proof.
  intros Hwf Hs. apply not_true_is_false. intros He.
  apply existsAnyEdge_true in He as (i & j & n & m & Hn & Hname & _); [|done].
  assert (hasNode_name g s = true) by (apply (proj2 (hasNode_name_true g s Hwf)); eauto). congruence.
Qed.

(** Names, bodies and calls of a graph can be read off its summaries. *)
Lemma summary_of g S i n :
  comparable g → summarizes g S → node_at g i = Some n →
  ∃ C, callee_names_of g i C ∧ S !! functionName n = Some (mkSummary (functionName n) (hasBody n) C ∅ ∅).
Proof.
  intros Hg HS Hn. destruct (summarize_structure ∅ g (NameMapping g) i n (cp_wf _ Hg) Hn) as (C & _ & HC).
  exists C. split; [done|]. apply HS. by exists i, n, C.
Qed.

Lemma summary_name g S f :
  comparable g → summarizes g S → hasNode_name g f = bool_decide (is_Some (S !! f)).
Proof.
  intros Hg HS. apply eq_true_iff_eq. rewrite hasNode_name_true by apply Hg. rewrite bool_decide_eq_true. split.
  - intros (i & n & Hn & <-). destruct (summary_of g S i n Hg HS Hn) as (C & _ & ->). by eexists.
  - intros [s (i & n & C & Hn & Hf & _)%HS]. by exists i, n.
Qed.

Lemma summary_body g S f b :
  comparable g → summarizes g S → body_of g f b ↔ ∃ s, S !! f = Some s ∧ ns_hasBody s = b.
Proof.
  intros Hg HS. split.
  - intros (i & n & Hn & <- & <-). destruct (summary_of g S i n Hg HS Hn) as (C & _ & ->). by eexists.
  - intros (s & (i & n & C & Hn & Hf & _ & ->)%HS & <-). by exists i, n.
Qed.

Lemma summary_calls g S s t :
  comparable g → summarizes g S →
  existsAnyEdge g s t = match S !! s with Some a => bool_decide (t ∈ ns_callees a) | None => false end.
Proof.
  intros Hg HS. destruct (S !! s) as [a|] eqn:Ha.
  - apply HS in Ha as (i & n & C & Hn & Hf & HC & ->). by apply (existsAnyEdge_callee g s t i n C).
  - apply existsAnyEdge_absent; [apply Hg|]. rewrite (summary_name g S s Hg HS), Ha.
    by apply bool_decide_false; intros [? [=]].
Qed.

Lemma summary_equal_structure gA gB SA SB f a b :
  summarizes gA SA → summarizes gB SB → SA !! f = Some a → SB !! f = Some b →
  summary_equal structure_mode b a = true ↔ ns_hasBody b = ns_hasBody a ∧ ns_callees b = ns_callees a.
Proof.
  intros HSA HSB (i & n & C & _ & _ & _ & ->)%HSA (i' & n' & C' & _ & _ & _ & ->)%HSB.
  unfold summary_equal. cbn [ns_name ns_hasBody ns_callees].
  change (hasFlag structure_mode ignoreMetadata) with true.
  change (hasFlag structure_mode ignoreEdgeMetadata) with true.
  change (hasFlag structure_mode ignoreBody) with false.
  change (hasFlag structure_mode ignoreEdges) with false.
  rewrite bool_decide_true by done. cbn [andb orb negb].
  by rewrite !andb_true_r, andb_true_iff, !bool_decide_eq_true.
Qed.

(** C29: For two graphs that satisfy the invariant, without erased nodes and
    without two functions of the same name in one graph: with all metadata
    ignored, [cgdiff] reports no difference exactly when the graphs agree, that
    is, they have functions of the same names, with the same body flags, and
    the same calls between names; whatever the identifiers of the nodes and the
    order of the unordered containers. *)
Theorem compare_structure (ign : gset string) gA gB :
  comparable gA → comparable gB →
  ∃ diffs, compare gA gB structure_mode ign ⇓ diffs ∧
    (diffs = [] ↔
     (∀ f, hasNode_name gA f = hasNode_name gB f) ∧
     (∀ f a b, body_of gA f a → body_of gB f b → a = b) ∧
     (∀ s t, existsAnyEdge gA s t = existsAnyEdge gB s t)).
Proof.
  intros HA HB. unfold compare.
  destruct (structure_summaries ign gA HA) as (SA & -> & HSA).
  destruct (structure_summaries ign gB HB) as (SB & -> & HSB). rewrite !bind_ret.
  change (hasFlag ignoreGlobalMetadata structure_mode) with true. cbv iota. rewrite bind_ret.
  eexists. split; [done|].
  change (compare_nodes structure_mode [] SA SB = [] ↔
     (∀ f, hasNode_name gA f = hasNode_name gB f) ∧
     (∀ f a b, body_of gA f a → body_of gB f b → a = b) ∧
     (∀ s t, existsAnyEdge gA s t = existsAnyEdge gB s t)).
  rewrite compare_nodes_nil.
  pose proof (λ f, summary_name gA SA f HA HSA) as NA. pose proof (λ f, summary_name gB SB f HB HSB) as NB.
  pose proof (λ f b, summary_body gA SA f b HA HSA) as BA.
  pose proof (λ f b, summary_body gB SB f b HB HSB) as BB.
  pose proof (λ s t, summary_calls gA SA s t HA HSA) as CA.
  pose proof (λ s t, summary_calls gB SB s t HB HSB) as CB.
  pose proof (λ f a b, summary_equal_structure gA gB SA SB f a b HSA HSB) as Heq.
  setoid_rewrite NA. setoid_rewrite NB. setoid_rewrite CA. setoid_rewrite CB. split.
  - intros Hall. split_and!.
    + intros f. specialize (Hall f). destruct (SA !! f), (SB !! f); try done; by rewrite !bool_decide_true.
    + intros f a b (sa & Ha & <-)%BA (sb & Hb & <-)%BB. specialize (Hall f). rewrite Ha, Hb in Hall.
      apply (Heq f) in Hall as [-> _]; done.
    + intros s t. specialize (Hall s). destruct (SA !! s) as [a|] eqn:Ha, (SB !! s) as [b|] eqn:Hb; try done.
      apply (Heq s) in Hall as [_ ->]; done.
  - intros (Hnames & Hbodies & Hcalls) f. specialize (Hnames f).
    destruct (SA !! f) as [a|] eqn:Ha, (SB !! f) as [b|] eqn:Hb; try done.
    apply (Heq f); [done..|]. split.
    + symmetry. apply (Hbodies f); [apply BA; by exists a|apply BB; by exists b].
    + apply set_eq. intros t. specialize (Hcalls f t). rewrite Ha, Hb in Hcalls.
      by rewrite <- (bool_decide_eq_true (t ∈ ns_callees b)), <- Hcalls, bool_decide_eq_true.
Qed.
End structure.
End diff.
