(* ===== verification/DiffExamples.v ===== *)
(** * Comparing graphs: examples

    Witnesses for the theorems about [cgdiff], and the comparison of entry
    functions. *)

From S2P Require Import Prelude Json MetaData BuiltinMD Callgraph.
From S2P Require Import CallgraphWf CallgraphOps CallgraphSpec CallgraphProps MergeExamples.
From S2P Require Import Diff DiffProps DotExamples.

Module DiffExample.
Import MergeExample.
#[local] Existing Instance JsonTree.ops.
#[local] Existing Instance canonical_order.

(** ** One difference of summaries *)

Definition sumA : NodeSummary := mkSummary "f" true {["g"]} ∅ {["g" := {["loopDepth:1"]}]}.
Definition sumB : NodeSummary := mkSummary "f" true {["g"]} ∅ {["g" := ∅]}.

Lemma nodeDiff_has_reason_witness :
  nd_diffType (createNodeDiff sumA sumB 0%Z) ≠ [].
Proof. by apply (nodeDiff_has_reason 0%Z sumA sumB); vm_compute. Defined.

(** ** Two graphs with the same functions under different identifiers *)

Definition main_first : Callgraph := graph_of 1
  [OInsert "main" None false true; OInsert "helper" None false true; OAddEdge 0 1].
Definition main_last : Callgraph := graph_of 2
  [OInsert "helper" None false true; OInsert "main" None false true; OAddEdge 1 0].

(** Names are unique when the list of names has no duplicates. *)
Definition check_comparable (g : Callgraph) : bool :=
  forallb (λ o : option CgNode, match o with Some _ => true | None => false end) (nodes g) &&
  bool_decide (NoDup (omap (fmap functionName) (nodes g))).

Lemma names_lookup (ns : list (option CgNode)) i n :
  Forall is_Some ns → ns !! i = Some (Some n) → omap (fmap functionName) ns !! i = Some (functionName n).
Proof.
  intros Hns. revert i. induction Hns as [|o ns [m ->] Hns IH]; intros [|i]; simpl; [done..| |].
  - by intros [= ->].
  - apply IH.
Qed.

Lemma check_comparable_ok g : wf g → check_comparable g = true → comparable g.
Proof.
  intros Hwf [Hall Hnd%bool_decide_eq_true]%andb_true_iff. pose proof (all_some _ Hall) as Hsome.
  split; [done|done|]. intros i j n m Hn%node_at_Some Hm%node_at_Some Hname.
  assert (Forall is_Some (nodes g)) as HF by (by apply Forall_forall).
  eapply NoDup_lookup; [exact Hnd|by apply names_lookup|]. rewrite Hname. by apply names_lookup.
Qed.

Lemma main_first_comparable : comparable main_first.
Proof.
  apply check_comparable_ok; [|by vm_compute].
  apply graph_of_wf. by apply (bool_decide_unpack _); vm_compute.
Qed.
Lemma main_last_comparable : comparable main_last.
Proof.
  apply check_comparable_ok; [|by vm_compute].
  apply graph_of_wf. by apply (bool_decide_unpack _); vm_compute.
Qed.

Lemma compare_structure_witness :
  ∃ diffs, compare main_first main_last structure_mode ∅ ⇓ diffs ∧
    (diffs = [] ↔
     (∀ f, hasNode_name main_first f = hasNode_name main_last f) ∧
     (∀ f a b, body_of main_first f a → body_of main_last f b → a = b) ∧
     (∀ s t, existsAnyEdge main_first s t = existsAnyEdge main_last s t)).
Proof.
  apply (compare_structure (MDI := builtin_md) (IO := canonical_order) ∅ main_first main_last
           main_first_comparable main_last_comparable).
Defined.

Example same_structure : compare main_first main_last structure_mode ∅ ⇓ [].
Proof. by vm_compute. Qed.

(** ** Entry functions *)

Definition with_entry (g : Callgraph) (i : NodeId) : Callgraph :=
  set_cg_md g {[EntryFunctionMD_key := EntryFunctionMD (Some i)]}.

(** What the comparison says about graph metadata: for every reported key
    whether the two printed values are the same. *)
Definition global_diffs (o : outcome (list Diff)) : option (list (string * bool)) :=
  match o with
  | Ret ds => Some (omap (λ d, match d with
      | DGlobalMD d => Some (gd_key d, String.eqb (gd_aValue d) (gd_bValue d))
      | DNode _ => None end) ds)
  | _ => None
  end.

(** [cgdiff] looks up the identifiers in the metadata of the first graph in
    the second one.  Two graphs with the same functions and the same entry
    function [main] are reported to have different entry functions (and the two
    values printed are the same), and two graphs with different entry functions
    are reported equal. *)
Theorem cgdiff_entry_function_by_identifier :
  compare main_first main_last structure_mode ∅ ⇓ [] ∧
  global_diffs (compare (with_entry main_first 0) (with_entry main_last 1) 0%Z ∅) =
    Some [(EntryFunctionMD_key, true)] ∧
  compare (with_entry main_first 0) (with_entry main_last 0) 0%Z ∅ ⇓ [].
Proof. by vm_compute. Qed.
End DiffExample.
