(* ===== verification/Query.v ===== *)
(** * The query tool

    [tools/cgquery]: the main function and its commands [reaches], [dom] and
    [postdom].  The command line parser (cxxopts) is not part of the
    repository: it is a parameter that maps the long names of the options it
    was told of and the arguments to the values given, or fails with one of
    its exceptions.  The file system maps paths to the JSON value stored there.
    A command returns its exit code and what it writes to standard output. *)

From Stdlib Require Import Ascii.
From S2P Require Import Prelude Json MetaData Util Callgraph Reach.
From S2P Require Import Dominators Format4 Format2.

(** [enum ExitCode] *)
Definition ExitCode : Type := Z.
Definition Success : ExitCode := 0%Z.
Definition Error : ExitCode := 1%Z.
Definition Usage : ExitCode := 2%Z.

Definition newline : string := String (ascii_of_nat 10) EmptyString.

(** [std::cout << line << '\n'] for each line *)
Definition print_lines (lines : list string) : string :=
  foldr (λ line out, line +:+ newline +:+ out) EmptyString lines.

Definition is_digit (c : Ascii.ascii) : bool := bool_decide (is_Some (digit_value c)).

Fixpoint all_digits (s : string) : bool :=
  match s with EmptyString => true | String c s => is_digit c && all_digits s end.

Definition isNumber (s : string) : bool := negb (bool_decide (s = EmptyString)) && all_digits s.

Definition ULONG_MAX : Z := (2 ^ 64 - 1)%Z.

(** [std::stoul] of a string of digits *)
Definition stoul (s : string) : outcome Z :=
  let v := digits_prefix s 0 in
  if decide (v ≤ ULONG_MAX)%Z then Ret v else Throw out_of_range.

Section query.
Context {JO : JsonOps} {MDI : MetaDataI} {IO : IterOrder}.

(** The warning for a name that is not unique has no effect on the result. *)
Definition findNode (cg : Callgraph) (spec : string) : outcome (option CgNode) :=
  if isNumber spec
  then v ← stoul spec; getNode cg (Z.to_nat v)
  else getFirstNode cg spec.

(** ** Files *)

Context (files : gmap string json).

(** [FileSource::get]; the file must contain JSON. *)
Definition FileSource_get (filename : string) : outcome json :=
  match files !! filename with
  | Some j => Ret j
  | None => Throw (runtime_error ("Opening file " +:+ filename +:+ " failed."))
  end.

(** The statements shared by the commands: the reader may be null. *)
Definition load (u : nat) (cg_name : string) : outcome Callgraph :=
  src ← FileSource_get cg_name;
  r ← createReader src;
  reader ← deref r;
  p ← read reader u src;
  Ret p.1.

(** ** The commands *)

Context (parse : list string → list string → option (gmap string string)).
Context (options_help : string → string).
Context (u fuel : nat).

Definition count (result : gmap string string) (opt : string) : bool :=
  bool_decide (is_Some (result !! opt)).

(** [n->getFunctionName()] for the nodes of a set, in its order *)
Definition names_of (cg : Callgraph) (ps : list (option NodeId)) : outcome (list string) :=
  foldM (λ names p, i ← deref p; n ← deref (node_at cg i); Ret (names ++ [functionName n])) [] ps.

Definition ReachesCommand_run (args : list string) : outcome (ExitCode * string) :=
  let help := options_help "cgquery reaches" in
  match parse ["source"; "to"; "help"; "input"] args with
  | None => Ret (Error, EmptyString)
  | Some result =>
      if count result "help" then Ret (Success, help +:+ newline)
      else match result !! "input" with
      | None => Ret (Error, EmptyString)
      | Some cg_name =>
          cg ← load u cg_name;
          match result !! "source" with
          | None => Ret (Usage, help +:+ newline)
          | Some sourceStr =>
              sourceNode ← findNode cg sourceStr;
              match sourceNode with
              | None => Ret (Error, EmptyString)
              | Some sourceNode =>
                  match result !! "to" with
                  | Some toName =>
                      toNode ← findNode cg toName;
                      match toNode with
                      | None => Ret (Error, EmptyString)
                      | Some toNode =>
                          r ← existsPathBetween cg fuel Reach_new
                                (Some (node_id sourceNode)) (Some (node_id toNode)) true;
                          Ret ((if (r.2 : bool) then 0 else 1)%Z, EmptyString)
                      end
                  | None =>
                      r ← getReachableNodesFrom cg fuel Reach_new (Some (node_id sourceNode)) true;
                      names ← names_of cg (iter_set r.2);
                      Ret (Success, "Reachable nodes:" +:+ newline +:+ print_lines names)
                  end
              end
          end
      end
  end.

(** The two dominator commands differ in the direction and in the name of the
    option for the start node; [dom[target]] adds a missing entry. *)
Definition dominator_run (dir : TraverseDir) (refOption : string) (args : list string)
    : outcome (ExitCode * string) :=
  match parse ["node"; refOption; "input"; "help"] args with
  | None => Ret (Error, EmptyString)
  | Some result =>
      if count result "help" then Ret (Success, options_help "cgquery dom" +:+ newline)
      else match result !! "node", result !! refOption with
      | Some nodeName, Some refName =>
          match result !! "input" with
          | None => Ret (Error, EmptyString)
          | Some cg_name =>
              cg ← load u cg_name;
              targetNode ← findNode cg nodeName;
              refNode ← findNode cg refName;
              match targetNode, refNode with
              | Some targetNode, Some refNode =>
                  dom ← computeDominators cg dir fuel (Some (node_id refNode));
                  let data := dom_entry dom (Some (node_id targetNode)) in
                  if initialized data then
                    names ← names_of cg (iter_set (Doms data));
                    Ret (Success, print_lines names)
                  else Ret (Error, EmptyString)
              | _, _ => Ret (Error, EmptyString)
              end
          end
      | _, _ => Ret (Success, EmptyString)
      end
  end.

Definition DomCommand_run : list string → outcome (ExitCode * string) :=
  dominator_run Forward "entry".
Definition PostDomCommand_run : list string → outcome (ExitCode * string) :=
  dominator_run Backward "exit".

(** [main]: [argv] with the program name in front. *)
Definition cgquery_main (argv : list string) : outcome (ExitCode * string) :=
  match argv with
  | [] | [_] => Ret (Usage, EmptyString)
  | program :: command :: rest =>
      if decide (command = "help" ∨ command = "-h" ∨ command = "--help") then
        Ret (Success, print_lines [
          "Usage: cgquery <command> [options] <input_file>";
          "Available commands:";
          "  reaches    Query reachable nodes or check reachability";
          "  dom    Query dominators of a node for a given entry node";
          "  postdom    Query postdominators of a node for a given exit node"]
          +:+ "  help    Show this help")
      else match rest with
      | [] => Ret (Usage, EmptyString)
      | _ =>
          let args := program :: rest in
          if decide (command = "reaches") then ReachesCommand_run args
          else if decide (command = "dom") then DomCommand_run args
          else if decide (command = "postdom") then PostDomCommand_run args
          else Ret (Usage, EmptyString)
      end
  end.
End query.
