(* ===== verification/QueryProps.v ===== *)
(** * The query tool answers questions about the graph of the file

    How the commands resolve a node, and the composition of the layers below
    them: a graph is written to a file, the tool reads the file, looks up the
    nodes and runs the analysis; its answer is about the original graph. *)

From S2P Require Import Prelude Json MetaData BuiltinMD Util Callgraph.
From S2P Require Import CallgraphWf CallgraphOps CallgraphSpec CallgraphProps Merge MergeProps.
From S2P Require Import MergeExamples Reach Dominators DominatorExamples.
From S2P Require Import Format4 Roundtrip4 Format4Examples Format2 Format2Examples Query.

(** ** Looking up a node *)

Section lookup.
Context {JO : JsonOps} {MDI : MetaDataI}.

(** [i] is the only node with the name [s]. *)
Definition named (g : Callgraph) (s : string) (i : NodeId) : Prop :=
  live g i ∧ ∀ k n, node_at g k = Some n → functionName n = s ↔ k = i.

(** Numbers are identifiers, everything else is a name; what [findNode] does. *)
Definition find_spec (g : Callgraph) (spec : string) (r : outcome (option CgNode)) : Prop :=
  if isNumber spec then
    let v := digits_prefix spec 0 in
    if decide (ULONG_MAX < v ∨ Z.to_nat v = length (nodes g))%Z then r = Throw out_of_range
    else r = Ret (node_at g (Z.to_nat v))
  else ∃ o, r = Ret o ∧
    (o = None ↔ ∀ i n, node_at g i = Some n → functionName n ≠ spec) ∧
    ∀ n, o = Some n → node_at g (node_id n) = Some n ∧ functionName n = spec ∧
      ∀ i m, node_at g i = Some m → functionName m = spec → node_id n ≤ i.

Lemma filter_seq_head (P : nat → Prop) `{∀ k, Decision (P k)} a n i l :
  filter P (seq a n) = i :: l → ∀ k, k ∈ filter P (seq a n) → i ≤ k.
Proof.
  revert a. induction n as [|n IH]; intros a; [done|].
  cbn [seq]. rewrite filter_cons. case_decide; [|apply IH].
  intros [= <- _] k [->|Hk]%elem_of_cons; [done|].
  apply list_elem_of_filter in Hk as [_ Hk%elem_of_seq]. lia.
Qed.

Lemma findNode_ret (g : Callgraph) (spec : string) : wf g → find_spec g spec (findNode g spec).
Proof.
  intros Hwf. unfold find_spec, findNode. destruct (isNumber spec).
  - unfold stoul. destruct (decide (digits_prefix spec 0 ≤ ULONG_MAX)%Z) as [Hle|Hgt].
    + rewrite bind_ret. case_decide as Hd.
      * destruct Hd as [?|Hd]; [lia|]. rewrite Hd. apply getNode_end.
      * apply getNode_ret. tauto.
    + rewrite decide_True by lia. done.
  - rewrite getFirstNode_ret by done. eexists. split; [done|].
    assert (∀ i n, node_at g i = Some n → functionName n = spec → i ∈ ids_named (nodes g) spec) as Hin.
    { intros i n Hn Hf. apply elem_of_ids_named. exists n. split; [by apply node_at_Some|done]. }
    destruct (ids_named (nodes g) spec) as [|i l] eqn:Hl.
    + split; [|done]. split; [|done]. intros _ i n Hn Hf. by apply (Hin i n) in Hf as ?%elem_of_nil.
    + assert (i ∈ ids_named (nodes g) spec) as (n & Hn%node_at_Some & Hf)%elem_of_ids_named
        by (rewrite Hl; set_solver).
      cbn. rewrite Hn. split.
      * split; [done|]. intros Hall. by apply Hall in Hn.
      * intros ? [= <-]. destruct (wf_ids _ Hwf _ _ Hn) as [-> _]. split_and!; [done|done|].
        intros k m Hm Hmf. eapply (filter_seq_head _ _ _ _ _ Hl). fold (ids_named (nodes g) spec). rewrite Hl. by eapply Hin.
Qed.

Lemma findNode_named (g : Callgraph) (s : string) (i : NodeId) :
  wf g → isNumber s = false → named g s i → ∃ n, findNode g s ⇓ Some n ∧ node_id n = i.
Proof.
  intros Hwf Hs [[n Hn] Hu]. pose proof (findNode_ret g s Hwf) as Hf. unfold find_spec in Hf.
  rewrite Hs in Hf. destruct Hf as (o & -> & Hnone & Hsome). destruct o as [m|].
  - exists m. split; [done|]. destruct (Hsome m eq_refl) as (Hm & Hms & _). by apply (Hu _ m).
  - exfalso. eapply (proj1 Hnone eq_refl i n Hn). by apply (Hu i n).
Qed.

(** C38: [findNode] takes a string of digits as an identifier and anything else as
    a name; a name finds the first node that has it, or null when there is none; a
    number finds the node in that slot or null, except that one past the last
    slot, and any number that does not fit into 64 bits, throws [out_of_range]
    instead of returning null. *)
Theorem findNode_correct (g : Callgraph) (spec : string) :
  wf g → find_spec g spec (findNode g spec).
Proof. apply findNode_ret. Qed.
End lookup.

(** ** The same graph with other numbers *)

Section renumbering.
Context {JO : JsonOps} {MDI : MetaDataI}.
Context (π : GraphMapping) (g g' : Callgraph) (Hwf : wf g) (Hwf' : wf g').
Context (Hr : renumbered π g g').

Lemma renumbered_calls i j k l :
  π !! i = Some k → π !! j = Some l → calls g i j ↔ calls g' k l.
Proof using Hr. apply Hr. Qed.

Lemma renumbered_reach i k : π !! i = Some k → ∀ j l, π !! j = Some l →
  rtc (calls g) i j ↔ rtc (calls g') k l.
Proof using Hr Hwf Hwf'.
  intros Hi j l Hj. split.
  - intros Hrt. revert k l Hi Hj. induction Hrt as [i|i m j Him _ IH]; intros k l Hi Hj.
    + replace l with k by congruence. done.
    + destruct (proj1 (wf_edges _ Hwf i m Him) ) as [? _]. 
      destruct (proj2 (rn_dom _ _ _ Hr m)) as [p Hp]; [by apply (wf_edges _ Hwf i)|].
      apply (rtc_l _ k p l); [by eapply renumbered_calls|by apply IH].
  - intros Hrt. revert i j Hi Hj. induction Hrt as [k|k p l Hkp _ IH]; intros i j Hi Hj.
    + by replace j with i by (eapply (rn_inj _ _ _ Hr); done).
    + destruct (proj1 (rn_ran _ _ _ Hr p)) as [m Hm]; [by apply (wf_edges _ Hwf' k)|].
      apply (rtc_l _ i m j); [by eapply renumbered_calls|by apply IH].
Qed.

Lemma renumbered_named s i : named g s i → ∃ k, π !! i = Some k ∧ named g' s k.
Proof using Hr.
  intros [Hi Hu]. destruct (proj2 (rn_dom _ _ _ Hr i) Hi) as [k Hk]. exists k. split; [done|].
  split; [apply (rn_ran _ _ _ Hr); by exists i|]. intros l m Hm.
  destruct (proj1 (rn_ran _ _ _ Hr l)) as [j Hj]; [by exists m|].
  destruct (proj1 (rn_dom _ _ _ Hr j)) as [n Hn]; [by exists l|].
  destruct (rn_node _ _ _ Hr _ _ _ Hj Hn) as (m' & Hm' & Hname & _).
  replace m' with m in Hname by congruence. rewrite Hname, (Hu j n Hn). split.
  - intros ->. congruence.
  - intros ->. by eapply (rn_inj _ _ _ Hr).
Qed.
End renumbering.

(** ** The commands *)

Section commands.
Context {JO : JsonOps} {MDI : MetaDataI} {IO : IterOrder}.
Context (files : gmap string json) (parse : list string → list string → option (gmap string string)).
Context (options_help : string → string) (u : nat).

Lemma load_ret path j r g fl :
  files !! path = Some j → createReader j ⇓ Some r → read r u j ⇓ (g, fl) →
  load files u path ⇓ g.
Proof. intros Hf Hc Hr. unfold load, FileSource_get. rewrite Hf, bind_ret, Hc, bind_ret. cbn. by rewrite Hr. Qed.

Lemma names_of_ret g (ps : list (option NodeId)) :
  (∀ p, p ∈ ps → ∃ i, p = Some i ∧ live g i) →
  ∃ names, names_of g ps ⇓ names ∧
    ∀ s, s ∈ names ↔ ∃ i n, Some i ∈ ps ∧ node_at g i = Some n ∧ functionName n = s.
Proof.
  intros Hps. unfold names_of.
  apply (foldM_ind (λ dn names, ∀ s, s ∈ names ↔
    ∃ i n, Some i ∈ dn ∧ node_at g i = Some n ∧ functionName n = s)); [set_solver|].
  intros dn p rest names -> Hn. destruct (Hps p) as (i & -> & n & Hi); [set_solver|].
  cbn [deref]. rewrite bind_ret, Hi. cbn [deref]. rewrite bind_ret. eexists. split; [done|].
  intros s. rewrite elem_of_app, list_elem_of_singleton, Hn. split.
  - intros [(j & m & ? & ? & ?)| ->]; [exists j, m; set_solver|exists i, n; set_solver].
  - intros (j & m & [Hj|[= ->]%list_elem_of_singleton]%elem_of_app & Hm & <-); [naive_solver|].
    right. congruence.
Qed.

(** The tool asks whether [t] can be reached from [s]. *)
Record reaches_query (args : list string) (path s t : string) : Prop := {
  rq_parse : ∃ result, parse ["source"; "to"; "help"; "input"] args = Some result ∧
    result !! "help" = None ∧ result !! "input" = Some path ∧
    result !! "source" = Some s ∧ result !! "to" = Some t
}.

Lemma ReachesCommand_run_ret g args path s t i j :
  reaches_query args path s t → load files u path ⇓ g → wf g →
  isNumber s = false → isNumber t = false → named g s i → named g t j →
  ∃ N, ∀ fuel, N ≤ fuel → ∃ code,
    ReachesCommand_run files parse options_help u fuel args ⇓ (code, EmptyString) ∧
    (code = Success ∧ rtc (calls g) i j ∨ code = Error ∧ ¬ rtc (calls g) i j).
Proof.
  intros [(result & Hp & Hh & Hin & Hs & Ht)] Hl Hwf Hns Hnt Hi Hj.
  destruct (findNode_named g s i Hwf Hns Hi) as (n & Hfn & Hni).
  destruct (findNode_named g t j Hwf Hnt Hj) as (m & Hfm & Hmj).
  destruct (existsPathBetween_ret g Reach_new i (Some j) true Hwf (proj1 Hi) (cache_ok_new g)) as [N HN].
  exists N. intros fuel Hf. destruct (HN fuel Hf) as (ra & b & Hrun & _ & Hb).
  unfold ReachesCommand_run, count. rewrite Hp, Hh, Hin, Hs, Ht, bool_decide_false by (by intros []).
  rewrite Hl, bind_ret, Hfn, bind_ret, Hfm, bind_ret, Hni, Hmj, Hrun, bind_ret. cbn [snd].
  eexists. split; [done|]. destruct b.
  - left. split; [done|]. destruct (proj1 Hb eq_refl) as (? & [= <-] & ?). done.
  - right. split; [done|]. intros Hr. enough (false = true) by done. apply Hb. by exists j.
Qed.

(** The tool asks for the dominators of [s], seen from [t]. *)
Record dominator_query (refOption : string) (args : list string) (path s t : string) : Prop := {
  dq_parse : ∃ result, parse ["node"; refOption; "input"; "help"] args = Some result ∧
    result !! "help" = None ∧ result !! "input" = Some path ∧
    result !! "node" = Some s ∧ result !! refOption = Some t
}.

(** There is a way to [j] from [i], and [d] is on every one of them. *)
Definition on_every_way (g : Callgraph) (dir : TraverseDir) (i j d : NodeId) : Prop :=
  ∀ l, walk (next g dir) (Some i) l (Some j) → Some d ∈ l.

Lemma walk_live g dir i l p : wf g → live g i → walk (next g dir) (Some i) l p →
  ∀ q, q ∈ l → ∃ k, q = Some k ∧ live g k.
Proof.
  intros Hwf Hi. induction 1 as [|l n m Hw IH Hm]; intros q.
  - intros ->%list_elem_of_singleton. by exists i.
  - intros [->|Hq]%elem_of_cons; [|by apply IH].
    destruct (IH n) as (k & -> & Hk); [by eapply walk_last|].
    apply (elem_of_next g Hwf) in Hm as (k' & -> & Hl). exists k'. split; [done|].
    by eapply linked_live.
Qed.

Lemma dominator_run_ret g dir refOption args path s t i j :
  dominator_query refOption args path s t → load files u path ⇓ g → wf g →
  isNumber s = false → isNumber t = false → named g s j → named g t i →
  (∀ l n, walk (next g dir) (Some i) l (Some n) → ¬ linked g dir n i) →
  ∃ N, ∀ fuel, N ≤ fuel →
    ((∃ l, walk (next g dir) (Some i) l (Some j)) ∧
     ∃ names, dominator_run files parse options_help u fuel dir refOption args
                ⇓ (Success, print_lines names) ∧
       ∀ f, f ∈ names ↔ ∃ d n, node_at g d = Some n ∧ functionName n = f ∧ on_every_way g dir i j d) ∨
    ((¬ ∃ l, walk (next g dir) (Some i) l (Some j)) ∧
     dominator_run files parse options_help u fuel dir refOption args ⇓ (Error, EmptyString)).
Proof.
  intros [(result & Hp & Hh & Hin & Hs & Ht)] Hl Hwf Hns Hnt Hj Hi Hback.
  destruct (findNode_named g s j Hwf Hns Hj) as (m & Hfm & Hmj).
  destruct (findNode_named g t i Hwf Hnt Hi) as (n & Hfn & Hni).
  destruct (computeDominators_ret g Hwf dir i (proj1 Hi) Hback) as (D & N & HN & Hinit & HD).
  exists N. intros fuel Hf.
  assert (dominator_run files parse options_help u fuel dir refOption args =
    if initialized (dom_entry D (Some j))
    then names ← names_of g (iter_set (Doms (dom_entry D (Some j)))); Ret (Success, print_lines names)
    else Ret (Error, EmptyString)) as ->.
  { unfold dominator_run, count. rewrite Hp, Hh, Hin, Hs, Ht, bool_decide_false by (by intros []).
    by rewrite Hl, bind_ret, Hfm, bind_ret, Hfn, bind_ret, Hni, Hmj, HN, bind_ret. }
  destruct (initialized (dom_entry D (Some j))) eqn:Hini.
  - apply Hinit in Hini as Hw. left. split; [done|].
    destruct (names_of_ret g (iter_set (Doms (dom_entry D (Some j))))) as (names & -> & Hnames).
    { intros p Hp'%elem_of_iter_set. destruct (Hw) as [l Hl'].
      eapply (walk_live g dir i l (Some j) Hwf (proj1 Hi) Hl'), (HD _ p Hw); done. }
    exists names. split; [done|]. intros f. rewrite Hnames. split.
    + intros (d & nd & Hd%elem_of_iter_set & Hnd & Hname). exists d, nd. split_and!; [done|done|].
      intros l Hl'. by apply (HD _ (Some d) Hw).
    + intros (d & nd & Hnd & Hname & Hd). exists d, nd. split_and!; [|done|done].
      by apply elem_of_iter_set, (HD _ (Some d) Hw).
  - right. split; [|done]. rewrite <- Hinit, Hini. done.
Qed.

Lemma main_reaches program args fuel :
  args ≠ [] → cgquery_main files parse options_help u fuel (program :: "reaches" :: args) =
    ReachesCommand_run files parse options_help u fuel (program :: args).
Proof. by destruct args. Qed.

(** The command for a direction, and its option for the start node. *)
Definition dom_name (dir : TraverseDir) : string * string :=
  match dir with Forward => ("dom", "entry") | Backward => ("postdom", "exit") end.

Lemma main_dominators dir program args fuel :
  args ≠ [] → cgquery_main files parse options_help u fuel (program :: (dom_name dir).1 :: args) =
    dominator_run files parse options_help u fuel dir (dom_name dir).2 (program :: args).
Proof. by destruct args, dir. Qed.

(** C28: [cgquery dom] and [cgquery postdom] on a file that can be loaded and two
    names that are unique in it: when no call leads back to the start node, the
    tool terminates; it prints the names of exactly the nodes that are on every
    way from the start node to the target, and it fails exactly when there is no
    way at all. *)
Theorem cgquery_dominators dir program args path s t g i j :
  args ≠ [] → dominator_query (dom_name dir).2 (program :: args) path s t →
  load files u path ⇓ g → wf g →
  isNumber s = false → isNumber t = false → named g s j → named g t i →
  (∀ l n, walk (next g dir) (Some i) l (Some n) → ¬ linked g dir n i) →
  ∃ N, ∀ fuel, N ≤ fuel →
    let run := cgquery_main files parse options_help u fuel (program :: (dom_name dir).1 :: args) in
    ((∃ l, walk (next g dir) (Some i) l (Some j)) ∧
     ∃ names, run ⇓ (Success, print_lines names) ∧
       ∀ f, f ∈ names ↔ ∃ d n, node_at g d = Some n ∧ functionName n = f ∧ on_every_way g dir i j d) ∨
    ((¬ ∃ l, walk (next g dir) (Some i) l (Some j)) ∧ run ⇓ (Error, EmptyString)).
Proof.
  intros Ha Hq Hl Hwf Hs Ht Hj Hi Hb.
  destruct (dominator_run_ret g dir _ _ _ _ _ i j Hq Hl Hwf Hs Ht Hj Hi Hb) as [N HN].
  exists N. intros fuel Hf run. unfold run. rewrite main_dominators by done. by apply HN.
Qed.
End commands.

(** ** From the writer to the answer *)

Section composition.
Context {JO : JsonOps} {JL : JsonLaws} {MDI : MetaDataI} {MDL : MetaDataLaws} {IO : IterOrder}.
Context (rt : MD → Prop) {RT : RoundTrip rt}.

(** C11: Writing an exportable graph (consistent, with nonempty names, distinct
    identifiers in the file, no metadata on edges, and metadata that survives
    its JSON value) to a file of format 4 and asking [cgquery reaches] about that
    file answers the question for the graph that was written: for two unique
    names that are not numbers the exit code is 0 when calls lead from the first
    function to the second one and 1 otherwise.  The composition of the writer,
    the choice of the reader, the reader, the look-up of the names and the
    traversal; the nodes may get other identifiers in between. *)
Theorem cgquery_reaches_written gen g b sorted u s t i j :
  exportable rt g b → version_readable gen →
  isNumber s = false → isNumber t = false → named g s i → named g t j →
  ∃ file, write4 (mkFileInfo (MCGFileFormatInfo_new 4 0) gen) b sorted g ⇓ file ∧
    ∀ files parse help program args path,
      files !! path = Some file → args ≠ [] → reaches_query parse (program :: args) path s t →
      ∃ N, ∀ fuel, N ≤ fuel → ∃ code,
        cgquery_main files parse help u fuel (program :: "reaches" :: args) ⇓ (code, EmptyString) ∧
        (code = Success ∧ rtc (calls g) i j ∨ code = Error ∧ ¬ rtc (calls g) i j).
Proof.
  intros Hex Hgen Hs Ht Hi Hj. pose proof (ex_wf _ _ _ Hex) as Hwf.
  destruct (format4_roundtrip_ret rt gen g b sorted u Hex Hgen) as (file & g' & π & Hw & Hrd & Hwf' & Hrn).
  exists file. split; [done|]. intros files parse help program args path Hfile Ha Hq.
  destruct (renumbered_named π g g' Hrn s i Hi) as (k & Hik & Hk).
  destruct (renumbered_named π g g' Hrn t j Hj) as (l & Hjl & Hl).
  assert (load files u path ⇓ g') as Hload.
  { apply (load_ret _ _ _ file VersionFourMCGReader _ []); [done| |by apply Hrd].
    by apply (createReader_written VersionFourMCGWriter gen gen b sorted g). }
  destruct (ReachesCommand_run_ret files parse help u g' _ _ _ _ k l Hq Hload Hwf' Hs Ht Hk Hl) as [N HN].
  exists N. intros fuel Hf. destruct (HN fuel Hf) as (code & Hrun & Hcode). exists code.
  rewrite main_reaches by done. split; [done|].
  by rewrite (renumbered_reach π g g' Hwf Hwf' Hrn i k Hik j l Hjl).
Qed.
End composition.
