(* ===== verification/QueryExamples.v ===== *)
(** * The query tool: concrete runs *)

From Stdlib Require Import Ascii.
From S2P Require Import Prelude Json MetaData BuiltinMD Util Callgraph.
From S2P Require Import CallgraphWf CallgraphOps CallgraphSpec CallgraphProps Merge MergeProps.
From S2P Require Import MergeExamples Reach Dominators DominatorExamples.
From S2P Require Import Format4 Roundtrip4 Format4Examples Format2 Format2Examples Query QueryProps.

Module QueryExample.
Import GraphExamples MergeExample Format4Example Format2Example DominatorExample.

#[local] Existing Instance canonical_order.

(** A parser for options written as [--name value], after the program name and
    the input file; unknown names are rejected. *)
Fixpoint parse_pairs (opts args : list string) (result : gmap string string)
    : option (gmap string string) :=
  match args with
  | [] => Some result
  | "--help" :: args => parse_pairs opts args (<["help" := ""]> result)
  | String "-"%char (String "-"%char name) :: value :: args =>
      if decide (name ∈ opts) then parse_pairs opts args (<[name := value]> result) else None
  | path :: args => parse_pairs opts args (<["input" := path]> result)
  end.

Definition parse_args (opts args : list string) : option (gmap string string) :=
  parse_pairs opts (tail args) ∅.

Definition no_help (name : string) : string := "".

(** The name is unique, as a check. *)
Definition named_check (g : Callgraph) (s : string) (i : NodeId) : bool :=
  bool_decide (live g i) &&
  forallb (λ k, match node_at g k with
                | Some n => Bool.eqb (bool_decide (functionName n = s)) (bool_decide (k = i))
                | None => true end) (seq 0 (length (nodes g))).

Lemma named_check_ok g s i : named_check g s i = true → named g s i.
Proof.
  unfold named_check. rewrite andb_true_iff, bool_decide_eq_true, forallb_forall.
  intros [Hi Hall]. split; [done|]. intros k n Hn. specialize (Hall k). rewrite Hn in Hall.
  assert (bool_decide (functionName n = s) = bool_decide (k = i)) as Hb.
  { apply eqb_prop, Hall, in_seq. apply node_at_lt in Hn. lia. }
  by rewrite <- (bool_decide_eq_true (functionName n = s)), Hb, bool_decide_eq_true.
Qed.

Lemma findNode_correct_witness :
  wf diamond ∧ find_spec diamond "b" (findNode diamond "b") ∧
  find_spec diamond "4" (findNode diamond "4").
Proof.
  split; [exact diamond_wf|].
  split; [exact (findNode_correct diamond "b" diamond_wf)|exact (findNode_correct diamond "4" diamond_wf)].
Defined.

Definition reach_args : list string := ["graph.json"; "--source"; "main"; "--to"; "base"].

Lemma reach_args_query :
  reaches_query parse_args ("cgquery" :: reach_args) "graph.json" "main" "base".
Proof.
  split. exists (<["to" := "base"]> (<["source" := "main"]> (<["input" := "graph.json"]> ∅))).
  split; [reflexivity|]. split_and!; by simplify_map_eq.
Qed.

Lemma cgquery_reaches_written_witness :
  ∃ file, write4 file_info true true export ⇓ file ∧
    ∃ N, ∀ fuel, N ≤ fuel → ∃ code,
      cgquery_main {["graph.json" := file]} parse_args no_help 7 fuel
        ("cgquery" :: "reaches" :: reach_args) ⇓ (code, "") ∧
      (code = Success ∧ rtc (calls export) 0 3 ∨ code = Error ∧ ¬ rtc (calls export) 0 3).
Proof.
  destruct (cgquery_reaches_written (JL := JsonTree.laws) (MDI := builtin_md)
    (RT := builtin_RoundTrip (JL := JsonTree.laws)) storable generator export true true 7 "main" "base" 0 3)
    as (file & Hw & Hrun).
  - apply export_exportable.
  - split; eexists; vm_compute; reflexivity.
  - vm_compute. reflexivity.
  - vm_compute. reflexivity.
  - apply named_check_ok. vm_compute. reflexivity.
  - apply named_check_ok. vm_compute. reflexivity.
  - exists file. split; [exact Hw|].
    apply (Hrun _ parse_args no_help "cgquery" reach_args "graph.json").
    + apply lookup_singleton_eq.
    + discriminate.
    + apply reach_args_query.
Defined.

(** The runs themselves: [main] reaches [base] and not the other way round. *)
Definition reaches_code (s t : string) : option Z :=
  match write4 file_info true true export with
  | Ret file =>
      match cgquery_main {["graph.json" := file]} parse_args no_help 7 100
        ["cgquery"; "reaches"; "graph.json"; "--source"; s; "--to"; t] with
      | Ret (code, _) => Some code
      | _ => None
      end
  | _ => None
  end.

Lemma reaches_codes :
  reaches_code "main" "base" = Some 0%Z ∧ reaches_code "base" "main" = Some 1%Z ∧
  reaches_code "main" "nobody" = Some 1%Z.
Proof. vm_compute. split_and!; reflexivity. Qed.

(** The diamond as it comes back from a file. *)
Definition diamond_file : json :=
  match write4 file_info true false diamond with Ret j => j | _ => jnull end.
Definition diamond_read : Callgraph :=
  match read4 7 diamond_file with Ret p => p.1 | _ => Callgraph_new 7 end.

Lemma diamond_exportable : exportable storable diamond true.
Proof.
  apply check_export_ok with (H := storable_dec); [apply diamond_wf| |vm_compute; reflexivity].
  apply distinct_ids_names; [apply diamond_wf|]. vm_compute. reflexivity.
Qed.

Lemma diamond_loaded :
  load {["d.json" := diamond_file]} 7 "d.json" ⇓ diamond_read ∧ wf diamond_read.
Proof.
  destruct (format4_roundtrip_ret (JL := JsonTree.laws) (MDI := builtin_md)
    (RT := builtin_RoundTrip (JL := JsonTree.laws)) storable generator diamond true false 7
    diamond_exportable) as (j & g & π & Hw & Hr & Hwf & _).
  { split; eexists; vm_compute; reflexivity. }
  assert (diamond_file = j) as Hj by (unfold diamond_file, file_info; by rewrite Hw).
  assert (diamond_read = g) as Hg by (unfold diamond_read; by rewrite Hj, Hr).
  rewrite Hj, Hg. split; [|exact Hwf].
  apply (load_ret _ _ _ j VersionFourMCGReader _ []); [apply lookup_singleton_eq| |exact Hr].
  apply (createReader_written (JL := JsonTree.laws) (MDI := builtin_md) VersionFourMCGWriter generator
    generator true false diamond). exact Hw.
Qed.

Definition dom_args : list string := ["d.json"; "--node"; "c"; "--entry"; "main"].

Lemma dom_args_query :
  dominator_query parse_args "entry" ("cgquery" :: dom_args) "d.json" "c" "main".
Proof.
  split. exists (<["entry" := "main"]> (<["node" := "c"]> (<["input" := "d.json"]> ∅))).
  split; [reflexivity|]. split_and!; by simplify_map_eq.
Qed.

Definition id_of (s : string) : NodeId :=
  match getFirstNode diamond_read s with Ret (Some n) => node_id n | _ => 0 end.

Lemma read_no_way_back n : ¬ linked diamond_read Forward n (id_of "main").
Proof.
  intros [md Hn]. assert (forallb (λ e, negb (bool_decide (e.1.2 = id_of "main")))
    (map_to_list (edges diamond_read)) = true) as Hall by (vm_compute; reflexivity).
  rewrite forallb_forall in Hall. specialize (Hall ((n, id_of "main"), md)).
  rewrite <- list_elem_of_In, elem_of_map_to_list in Hall. specialize (Hall Hn).
  apply negb_true_iff, bool_decide_eq_false in Hall. by apply Hall.
Qed.

Lemma cgquery_dominators_witness :
  ∃ N, ∀ fuel, N ≤ fuel →
    let run := cgquery_main {["d.json" := diamond_file]} parse_args no_help 7 fuel
                 ("cgquery" :: "dom" :: dom_args) in
    ((∃ l, walk (next diamond_read Forward) (Some (id_of "main")) l (Some (id_of "c"))) ∧
     ∃ names, run ⇓ (Success, print_lines names) ∧
       ∀ f, f ∈ names ↔ ∃ d n, node_at diamond_read d = Some n ∧ functionName n = f ∧
         on_every_way diamond_read Forward (id_of "main") (id_of "c") d) ∨
    ((¬ ∃ l, walk (next diamond_read Forward) (Some (id_of "main")) l (Some (id_of "c"))) ∧
     run ⇓ (Error, "")).
Proof.
  apply (cgquery_dominators {["d.json" := diamond_file]} parse_args no_help 7 Forward "cgquery" dom_args
    "d.json" "c" "main" diamond_read (id_of "main") (id_of "c")).
  - discriminate.
  - exact dom_args_query.
  - apply diamond_loaded.
  - apply diamond_loaded.
  - vm_compute. reflexivity.
  - vm_compute. reflexivity.
  - apply named_check_ok. vm_compute. reflexivity.
  - apply named_check_ok. vm_compute. reflexivity.
  - intros l n _. apply read_no_way_back.
Defined.

(** What is printed for the diamond: [c] and [main]. *)
Lemma dom_printed :
  match cgquery_main {["d.json" := diamond_file]} parse_args no_help 7 100
    ("cgquery" :: "dom" :: dom_args) with
  | Ret (code, out) => bool_decide (code = Success ∧
      (out = print_lines ["main"; "c"] ∨ out = print_lines ["c"; "main"]))
  | _ => false
  end = true.
Proof. vm_compute. reflexivity. Qed.
End QueryExample.
