(* ===== verification/Collector.v ===== *)
(** * The call graph files of the collector

    [cgcollector/lib/include/JSONManager.h] and
    [cgcollector/lib/src/JSONManager.cpp]: the records the collector's tools
    keep about functions, how they are written to and read from files of the
    formats 1 and 2, and the propagation of overriding functions.  The file
    system maps names to JSON values; a file that does not parse is left out. *)

From Stdlib Require Import Ascii.
From S2P Require Import Prelude Json.

Abbreviation FunctionNames := (gset string) (only parsing).

(** The meta information that these tools create: [FilePropertyResult]. *)
Record FilePropertyResult := mkFilePropertyResult {
  fileOrigin : string;
  isFromSystemInclude : bool
}.

(** [getFilename]: what follows the last slash, nothing without one. *)
Fixpoint after_last_slash (s : string) : option string :=
  match s with
  | EmptyString => None
  | String c s =>
      match after_last_slash s with
      | Some r => Some r
      | None => if decide (c = "/"%char) then Some s else None
      end
  end.
Definition getFilename (filepath : string) : string := default EmptyString (after_last_slash filepath).

Definition FilePropertyResult_equals (mi other : FilePropertyResult) : bool :=
  bool_decide (getFilename (fileOrigin mi) = getFilename (fileOrigin other)) &&
  bool_decide (isFromSystemInclude mi = isFromSystemInclude other).

Record FunctionInfo := mkFunctionInfo {
  fn_functionName : string;
  fn_isVirtual : bool;
  fn_doesOverride : bool;
  fn_numStatements : Z;
  fn_hasBody : bool;
  fn_callees : FunctionNames;
  fn_parents : FunctionNames;
  fn_overriddenFunctions : FunctionNames;
  fn_overriddenBy : FunctionNames;
  fn_metaInfo : gmap string FilePropertyResult
}.

Definition FunctionInfo_new : FunctionInfo :=
  mkFunctionInfo "_UNDEF_" false false (-1) false ∅ ∅ ∅ ∅ ∅.

Definition compareStructure (fi other : FunctionInfo) : bool :=
  bool_decide (fn_isVirtual fi = fn_isVirtual other) &&
  bool_decide (fn_doesOverride fi = fn_doesOverride other) &&
  bool_decide (fn_hasBody fi = fn_hasBody other) &&
  bool_decide (fn_functionName fi = fn_functionName other) &&
  bool_decide (fn_callees fi = fn_callees other) &&
  bool_decide (fn_parents fi = fn_parents other) &&
  bool_decide (fn_overriddenFunctions fi = fn_overriddenFunctions other) &&
  bool_decide (fn_overriddenBy fi = fn_overriddenBy other).

Definition check_callees (fi : FunctionInfo) (required blacklist : gset string) (strict : bool) : bool :=
  if strict then bool_decide (fn_callees fi = required)
  else if bool_decide (required ⊆ fn_callees fi)
       then bool_decide (blacklist ∩ fn_callees fi = ∅) else false.

Definition compareMeta (fi other : FunctionInfo) : bool :=
  forallb (λ e, match fn_metaInfo other !! e.1 with
                | Some otherMI => FilePropertyResult_equals e.2 otherMI
                | None => false end) (map_to_list (fn_metaInfo fi)).

Abbreviation FuncMapT := (gmap string FunctionInfo) (only parsing).

(** [getOrInsert]: the map afterwards; the reference is the entry of the key. *)
Definition getOrInsert (function : string) (functions : FuncMapT) : FuncMapT :=
  match functions !! function with
  | Some _ => functions
  | None => <[function := mkFunctionInfo function false false (-1) false ∅ ∅ ∅ ∅ ∅]> functions
  end.

(** [functionMap[k]] creates a missing entry. *)
Definition func_entry (functionMap : FuncMapT) (k : string) : FunctionInfo :=
  default FunctionInfo_new (functionMap !! k).

(** ** Propagation of overriding functions *)

Definition set_entry (m : gmap string FunctionNames) (k : string) : FunctionNames := default ∅ (m !! k).
Definition set_insert (m : gmap string FunctionNames) (k x : string) : gmap string FunctionNames :=
  <[k := {[x]} ∪ set_entry m k]> m.

(** [std::set] is traversed in increasing order. *)
Definition string_le (s t : string) : Prop := String.leb s t = true.
#[export] Instance string_le_dec s t : Decision (string_le s t).
Proof. unfold string_le. apply _. Defined.
Definition ordered_set (X : gset string) : list string := merge_sort string_le (elements X).

Record override_state := mkOverrides {
  ov_workQ : list string;
  ov_visited : gset string;
  ov_functionMap : FuncMapT;
  ov_overrides : gmap string FunctionNames;
  ov_potentialTargets : gmap string FunctionNames
}.

(** One turn of the loop over the work queue. *)
Definition override_turn (k : string) (st : override_state)
    : outcome (override_state + override_state) :=
  match ov_workQ st with
  | [] => Ret (inr st)
  | next :: workQ =>
      let fi := func_entry (ov_functionMap st) next in
      let visited := {[next]} ∪ ov_visited st in
      Ret (inl (mkOverrides
        (workQ ++ filter (λ om, om ∉ visited) (ordered_set (fn_overriddenFunctions fi)))
        visited
        (<[next := fi]> (ov_functionMap st))
        (set_insert (ov_overrides st) k next)
        (set_insert (ov_potentialTargets st) next k)))
  end.

(** The state between two functions: the function map and the two relations. *)
Abbreviation prop_state :=
  (FuncMapT * gmap string FunctionNames * gmap string FunctionNames)%type (only parsing).

(** The body of the loop over the overridden functions of [k]. *)
Definition propagate_from (fuel : nat) (k : string) (st : prop_state) (overriddenFunction : string)
    : outcome prop_state :=
  st' ← loop fuel (override_turn k)
          (mkOverrides [overriddenFunction] ∅ st.1.1 st.1.2 (set_insert st.2 overriddenFunction k));
  Ret (ov_functionMap st', ov_overrides st', ov_potentialTargets st').

(** The body of the loop over the functions, which works on a copy. *)
Definition propagate_function (fuel : nat) (st : prop_state) (e : string * FunctionInfo)
    : outcome prop_state :=
  let '(k, funcInfo) := e in
  if negb (fn_isVirtual funcInfo) then Ret st
  else if fn_doesOverride funcInfo
       then foldM (propagate_from fuel k) st (ordered_set (fn_overriddenFunctions funcInfo))
       else Ret st.

Definition add_overrides (overrides potentialTargets : gmap string FunctionNames) (k : string)
    (fi : FunctionInfo) : FunctionInfo :=
  mkFunctionInfo (fn_functionName fi) (fn_isVirtual fi) (fn_doesOverride fi) (fn_numStatements fi)
    (fn_hasBody fi) (fn_callees fi) (fn_parents fi)
    (fn_overriddenFunctions fi ∪ set_entry overrides k)
    (fn_overriddenBy fi ∪ set_entry potentialTargets k) (fn_metaInfo fi).

(** The last loop over the functions. *)
Definition finish_overrides (st : prop_state) : FuncMapT :=
  map_imap (λ k fi, Some (add_overrides st.1.2 st.2 k fi)) st.1.1.

(** The second half of [buildFromJSON] and [buildFromJSONv2].  Entries that are
    added to the map during the first loop are default ones: not virtual, so
    that visiting them does nothing ([propagate_default]). *)
Definition propagate (fuel : nat) (functionMap : FuncMapT) : outcome FuncMapT :=
  st ← foldM (propagate_function fuel) ((functionMap, ∅, ∅) : prop_state) (ordered_iter functionMap);
  Ret (finish_overrides st).

(** ** Reading and writing *)

Section json.
Context {JO : JsonOps}.

(** [j.get<std::set<std::string>>()] and the conversion back *)
Definition jget_set (j : json) : outcome FunctionNames := l ← jget_strings j; Ret (list_to_set l).
Definition jof_set (X : FunctionNames) : json := jarr ((λ s, jstr s) <$> ordered_set X).

Definition readIPCG (files : gmap string json) (filename : string) : outcome json :=
  match files !! filename with Some j => Ret j | None => Throw (process_exit (-1)) end.
(** [writable] tells for which names a file can be opened for writing. *)
Definition writeIPCG (writable : string → bool) (files : gmap string json) (filename : string)
    (callgraph : json) : outcome (gmap string json) :=
  if writable filename then Ret (<[filename := callgraph]> files) else Throw (process_exit (-1)).

Definition attachFormatTwoHeader (major minor : Z) (sha : string) : json :=
  jfields [("_MetaCG", jfields [("version", jstr "2.0");
             ("generator", jfields [("name", jstr "CGCollector");
                ("version", jstr (pretty major +:+ "." +:+ pretty minor)); ("sha", jstr sha)])]);
           ("_CG", jnull)].

Definition function_fields (version : Z) (callees callers overriddenBy overriddenFunctions : FunctionNames)
    (isVirtual doesOverride hasBody : bool) : json :=
  jfields [("callees", jof_set callees); ("isVirtual", jbool isVirtual);
    ("doesOverride", jbool doesOverride);
    ((if decide (version = 1%Z) then "overriddenFunctions" else "overrides")%string, jof_set overriddenFunctions);
    ("overriddenBy", jof_set overriddenBy);
    ((if decide (version = 1%Z) then "parents" else "callers")%string, jof_set callers);
    ("hasBody", jbool hasBody)].

Definition insertNode (callgraph : json) (nodeName : string)
    (callees callers overriddenBy overriddenFunctions : FunctionNames)
    (isVirtual doesOverride hasBody : bool) (version : Z) (directInsertWorkaround : bool) : outcome json :=
  let v := function_fields version callees callers overriddenBy overriddenFunctions
             isVirtual doesOverride hasBody in
  if decide (version = 1%Z) then jset callgraph nodeName v
  else if decide (version = 2%Z) then
    if negb directInsertWorkaround then jupdate callgraph "_CG" (λ cg, jset cg nodeName v)
    else jset callgraph nodeName v
  else Ret callgraph.

Definition insertDefaultNode (callgraph : json) (nodeName : string) (version : Z)
    (directInsertWorkaround : bool) : outcome json :=
  insertNode callgraph nodeName ∅ ∅ ∅ ∅ false false false version directInsertWorkaround.

(** [it.value()[k].get<T>()] *)
Definition field_set (v : json) (k : string) : outcome FunctionNames := x ← jindex v k; jget_set x.
Definition field_bool (v : json) (k : string) : outcome bool := x ← jindex v k; jget_bool x.
Definition field_int (v : json) (k : string) : outcome Z := x ← jindex v k; jget_int x.

(** What a file adds to the record of a function. *)
Definition extend_info (fi : FunctionInfo) (name : string) (isVirtual doesOverride : bool)
    (numStatements : Z) (hasBody : bool)
    (callees parents ofs overriddenBy : FunctionNames) (mi : gmap string FilePropertyResult)
    : FunctionInfo :=
  mkFunctionInfo name isVirtual doesOverride numStatements hasBody (fn_callees fi ∪ callees)
    (fn_parents fi ∪ parents) (fn_overriddenFunctions fi ∪ ofs) (fn_overriddenBy fi ∪ overriddenBy) mi.

(** The body of the first loop of [buildFromJSON]; -1 statements mean that there
    was no definition. *)
Definition read_function_one (functionMap : FuncMapT) (e : string * json) : outcome FuncMapT :=
  let '(key, v) := e in
  let functionMap := getOrInsert key functionMap in
  let fi := func_entry functionMap key in
  ns ← field_int v "numStatements";
  hasBody ← field_bool v "hasBody";
  p ← (if decide (-1 < ns)%Z then
         isVirtual ← field_bool v "isVirtual"; doesOverride ← field_bool v "doesOverride";
         Ret (ns, isVirtual, doesOverride)
       else Ret (fn_numStatements fi, fn_isVirtual fi, fn_doesOverride fi));
  callees ← field_set v "callees";
  ofs ← field_set v "overriddenFunctions";
  overriddenBy ← field_set v "overriddenBy";
  ps ← field_set v "parents";
  Ret (<[key := extend_info fi key p.1.2 p.2 p.1.1 hasBody callees ps ofs overriddenBy
          (fn_metaInfo fi)]> functionMap).

Definition buildFromJSON (files : gmap string json) (fuel : nat) (functionMap : FuncMapT)
    (filename : string) : outcome (FuncMapT * json) :=
  j ← readIPCG files filename;
  items ← jiter_keys j;
  functionMap ← foldM read_function_one functionMap items;
  functionMap ← propagate fuel functionMap;
  Ret (functionMap, j).

(** [readFileOrigin] *)
Definition readFileOrigin (v : json) : outcome FilePropertyResult :=
  meta ← jindex v "meta";
  foJson ← jindex meta "fileProperties";
  if jis_null foJson then Throw (process_exit (-1))
  else
    o ← jindex foJson "origin"; o ← jget_string o;
    s ← field_bool foJson "systemInclude";
    Ret (mkFilePropertyResult o s).

(** The body of the first loop of [buildFromJSONv2]: [doesOverride] is not read. *)
Definition read_function_two (functionMap : FuncMapT) (e : string * json) : outcome FuncMapT :=
  let '(key, v) := e in
  let functionMap := getOrInsert key functionMap in
  let fi := func_entry functionMap key in
  hasBody ← field_bool v "hasBody";
  isVirtual ← field_bool v "isVirtual";
  callees ← field_set v "callees";
  ofs ← field_set v "overrides";
  overriddenBy ← field_set v "overriddenBy";
  ps ← field_set v "callers";
  meta ← jindex v "meta";
  numStatements ← field_int meta "numStatements";
  fp ← readFileOrigin v;
  Ret (<[key := extend_info fi key isVirtual (fn_doesOverride fi) numStatements hasBody callees ps ofs
          overriddenBy (<["fileProperty" := fp]> (fn_metaInfo fi))]> functionMap).

(** The graph and, for [CompleteJsonOut], the whole file, are returned. *)
Definition buildFromJSONv2 (files : gmap string json) (fuel : nat) (functionMap : FuncMapT)
    (filename : string) : outcome (FuncMapT * json * json) :=
  jj ← readIPCG files filename;
  j ← jindex jj "_CG";
  items ← jiter_keys j;
  functionMap ← foldM read_function_two functionMap items;
  functionMap ← propagate fuel functionMap;
  Ret (functionMap, j, jj).
End json.
