(* ===== verification/CollectorProps.v ===== *)
(** * Propagation of overriding functions

    The second half of [buildFromJSON] closes the override relation
    transitively; reading a file of format 2 never triggers it. *)

From S2P Require Import Prelude Worklist Json Collector.

(** ** The override relation *)

(** [a] directly overrides [b]. *)
Definition overrides_directly (fm : FuncMapT) (a b : string) : Prop :=
  b ∈ fn_overriddenFunctions (func_entry fm a).

(** The functions whose overridden functions are followed. *)
Definition propagates (fi : FunctionInfo) : bool := fn_isVirtual fi && fn_doesOverride fi.

Lemma func_entry_insert fm a k : func_entry (<[k := func_entry fm k]> fm) a = func_entry fm a.
Proof.
  unfold func_entry. destruct (decide (a = k)) as [->|Hne]; [by rewrite lookup_insert_eq|].
  by rewrite lookup_insert_ne by done.
Qed.

Lemma set_entry_insert m k x a y :
  y ∈ set_entry (set_insert m k x) a ↔ y ∈ set_entry m a ∨ (a = k ∧ y = x).
Proof.
  unfold set_insert, set_entry at 1. destruct (decide (a = k)) as [->|Hne].
  - rewrite lookup_insert_eq. cbn. set_solver.
  - rewrite lookup_insert_ne by done. fold (set_entry m a). naive_solver.
Qed.

Lemma elem_of_ordered_set X x : x ∈ ordered_set X ↔ x ∈ X.
Proof. unfold ordered_set. by rewrite merge_sort_Permutation, elem_of_elements. Qed.

Lemma propagate_default fuel k st : propagate_function fuel st (k, FunctionInfo_new) ⇓ st.
Proof. reflexivity. Qed.

(** ** One traversal *)

Section one_function.
Context (fm : FuncMapT) (k : string).

Abbreviation R := (overrides_directly fm).

(** The state of the traversals for [k]: the map only gains default entries,
    and the two relations gain the pairs of [k] with the elements of [V]. *)
Record prop_ok (st0 st : prop_state) (V : gset string) : Prop := {
  po_entry : ∀ a, func_entry st.1.1 a = func_entry fm a;
  po_dom : ∀ a, is_Some (st.1.1 !! a) ↔ is_Some (st0.1.1 !! a) ∨ a ∈ V;
  po_overrides : ∀ a x, x ∈ set_entry st.1.2 a ↔ x ∈ set_entry st0.1.2 a ∨ (a = k ∧ x ∈ V);
  po_targets : ∀ a x, x ∈ set_entry st.2 a ↔ x ∈ set_entry st0.2 a ∨ (x = k ∧ a ∈ V)
}.

Definition parts (st : override_state) : prop_state :=
  (ov_functionMap st, ov_overrides st, ov_potentialTargets st).

(** All names that occur as a function that is overridden. *)
Definition all_overridden (start : string) : gset string :=
  {[start]} ∪ ⋃ ((fn_overriddenFunctions ∘ snd) <$> map_to_list fm).

Lemma all_overridden_closed start x : rtc R start x → x ∈ all_overridden start.
Proof.
  revert x. apply (rtc_ind_r (λ x, x ∈ all_overridden start) start); [unfold all_overridden; set_solver|].
  intros y z _ Hyz _. apply elem_of_union. right. apply elem_of_union_list.
  unfold overrides_directly, func_entry in Hyz. destruct (fm !! y) as [fi|] eqn:Hy; [|by apply elem_of_empty in Hyz].
  exists (fn_overriddenFunctions fi). split; [|done]. apply list_elem_of_fmap. exists (y, fi).
  split; [done|]. by apply elem_of_map_to_list.
Qed.

Lemma override_turn_ok start st0 st :
  wl_inv R start (ov_visited st) (ov_workQ st) ∧ prop_ok st0 (parts st) (ov_visited st) →
  (∃ st', override_turn k st ⇓ inl st' ∧
     (wl_inv R start (ov_visited st') (ov_workQ st') ∧ prop_ok st0 (parts st') (ov_visited st')) ∧
     lex_lt (λ st, unvisited (all_overridden start) (ov_visited st))
       (λ st, visited_prefix (ov_visited st) (ov_workQ st)) st' st) ∨
  (∃ st', override_turn k st ⇓ inr st' ∧
     ∃ V, (∀ x, x ∈ V ↔ rtc R start x) ∧ prop_ok st0 (parts st') V).
Proof.
  destruct st as [[|x q] V m ov pt]; cbn [ov_workQ ov_visited]; intros [Hw Hp]; [right|left].
  - eexists. split; [done|]. exists V. split; [by apply wl_done|done].
  - eexists. split; [done|]. cbn [ov_workQ ov_visited]. destruct Hp as [He Hd Ho Ht].
    cbn [parts fst snd ov_functionMap ov_overrides ov_potentialTargets] in *.
    destruct (wl_step R start (all_overridden start) V x q
      (filter (λ om, om ∉ {[x]} ∪ V) (ordered_set (fn_overriddenFunctions (func_entry m x)))))
      as [Hw' Hlt]; [apply all_overridden_closed|done| |].
    { intros y. by rewrite list_elem_of_filter, elem_of_ordered_set, He. }
    split; [split; [exact Hw'|]|exact Hlt].
    split; cbn [parts fst snd ov_functionMap ov_overrides ov_potentialTargets].
    + intros a. by rewrite func_entry_insert, He.
    + intros a. rewrite lookup_insert_is_Some, Hd. destruct (decide (x = a)); set_solver.
    + intros a y. rewrite set_entry_insert, Ho. set_solver.
    + intros a y. rewrite set_entry_insert, Ht. set_solver.
Qed.

(** What [propagate_from] adds to the state. *)
Lemma propagate_from_ok st start :
  (∀ a, func_entry st.1.1 a = func_entry fm a) →
  ∃ st' V N, (∀ x, x ∈ V ↔ rtc R start x) ∧ prop_ok st st' V ∧
    ∀ fuel, N ≤ fuel → propagate_from fuel k st start ⇓ st'.
Proof.
  intros He.
  destruct (loop_terminates (override_turn k)
    (λ s, wl_inv R start (ov_visited s) (ov_workQ s) ∧
          prop_ok (st.1.1, st.1.2, set_insert st.2 start k) (parts s) (ov_visited s))
    (λ s, ∃ V, (∀ x, x ∈ V ↔ rtc R start x) ∧
          prop_ok (st.1.1, st.1.2, set_insert st.2 start k) (parts s) V)
    (lex_lt (λ s, unvisited (all_overridden start) (ov_visited s))
       (λ s, visited_prefix (ov_visited s) (ov_workQ s)))
    (mkOverrides [start] ∅ st.1.1 st.1.2 (set_insert st.2 start k)))
    as (s & N & (V & HV & Hok) & HN).
  - apply lex_lt_wf.
  - split; [apply wl_inv_init|]. split; cbn; [done|set_solver..].
  - intros s Hs. destruct (override_turn_ok start _ s Hs) as [?|?]; [left|right]; naive_solver.
  - exists (parts s), V, N. split; [done|]. split.
    + destruct Hok as [H1 H2 H3 H4]. split; [done|done|done|]. intros a x. rewrite H4. cbn [snd].
      rewrite set_entry_insert. assert (start ∈ V) by (by apply HV). naive_solver.
    + intros fuel Hf. unfold propagate_from. rewrite (HN fuel Hf). reflexivity.
Qed.

(** The functions that [k] overrides, directly or indirectly. *)
Definition overridden_by_all (X : list string) (x : string) : Prop := ∃ b, b ∈ X ∧ rtc R b x.

Lemma propagate_starts st X :
  (∀ a, func_entry st.1.1 a = func_entry fm a) →
  ∃ st' V N, (∀ x, x ∈ V ↔ overridden_by_all X x) ∧ prop_ok st st' V ∧
    ∀ fuel, N ≤ fuel → foldM (propagate_from fuel k) st X ⇓ st'.
Proof.
  revert st. induction X as [|b X IH]; intros st He.
  - exists st, ∅, 0. split_and!; [|split; [done|set_solver..]|done]. unfold overridden_by_all. set_solver.
  - destruct (propagate_from_ok st b He) as (st1 & V1 & N1 & HV1 & [H1 H2 H3 H4] & Hr1).
    destruct (IH st1 H1) as (st2 & V2 & N2 & HV2 & [G1 G2 G3 G4] & Hr2).
    exists st2, (V1 ∪ V2), (N1 + N2). split_and!.
    + intros x. rewrite elem_of_union, HV1, HV2. unfold overridden_by_all. set_solver.
    + split; [done|..]; intros.
      * rewrite G2, H2. set_solver.
      * rewrite G3, H3. set_solver.
      * rewrite G4, H4. set_solver.
    + intros fuel Hf. cbn [foldM]. rewrite Hr1 by lia. rewrite bind_ret. apply Hr2. lia.
Qed.
End one_function.

(** ** All functions *)

Section all_functions.
Context (fm : FuncMapT).

(** [x] is overridden by [a], which the propagation follows. *)
Definition follows (a x : string) : Prop :=
  ∃ fi, fm !! a = Some fi ∧ propagates fi = true ∧ tc (overrides_directly fm) a x.

Lemma overridden_by_all_tc k fi x :
  fm !! k = Some fi →
  overridden_by_all fm (ordered_set (fn_overriddenFunctions fi)) x ↔ tc (overrides_directly fm) k x.
Proof.
  intros Hk. assert (∀ b, b ∈ ordered_set (fn_overriddenFunctions fi) ↔ overrides_directly fm k b) as Hb.
  { intros b. rewrite elem_of_ordered_set. unfold overrides_directly, func_entry. by rewrite Hk. }
  unfold overridden_by_all. setoid_rewrite Hb. split.
  - intros (b & Hkb & Hbx). eapply tc_rtc_r; [by apply tc_once|done].
  - intros Ht. destruct Ht as [k y Hy|k b z Hkb Hbz]; [by exists y; split; [|apply rtc_refl]|].
    exists b. split; [done|]. by apply tc_rtc.
Qed.

(** The state after the functions in [dn]. *)
Record props_ok (dn : list (string * FunctionInfo)) (st : prop_state) : Prop := {
  ps_entry : ∀ a, func_entry st.1.1 a = func_entry fm a;
  ps_dom : ∀ a, is_Some (st.1.1 !! a) ↔ is_Some (fm !! a) ∨ ∃ k, k ∈ dn.*1 ∧ follows k a;
  ps_overrides : ∀ a x, x ∈ set_entry st.1.2 a ↔ a ∈ dn.*1 ∧ follows a x;
  ps_targets : ∀ a x, x ∈ set_entry st.2 a ↔ x ∈ dn.*1 ∧ follows x a
}.

Lemma propagate_function_ok dn st k fi :
  fm !! k = Some fi → props_ok dn st →
  ∃ st' N, props_ok (dn ++ [(k, fi)]) st' ∧ ∀ fuel, N ≤ fuel → propagate_function fuel st (k, fi) ⇓ st'.
Proof.
  intros Hk [H1 H2 H3 H4]. unfold propagate_function.
  assert (∀ b x, follows b x → b = k → propagates fi = true ∧ tc (overrides_directly fm) k x) as Hfol.
  { intros b x (fi' & Hfi & Hp & Ht) ->. split; [congruence|done]. }
  assert (∀ b, b ∈ (dn ++ [(k, fi)]).*1 ↔ b ∈ dn.*1 ∨ b = k) as Hin.
  { intros b. rewrite fmap_app, elem_of_app. cbn. by rewrite list_elem_of_singleton. }
  destruct (propagates fi) eqn:Hp.
  - apply andb_true_iff in Hp as Hp'. destruct Hp' as [-> ->]. cbn [negb].
    destruct (propagate_starts fm k st (ordered_set (fn_overriddenFunctions fi)) H1)
      as (st' & V & N & HV & [G1 G2 G3 G4] & Hr).
    assert (∀ x, x ∈ V ↔ follows k x) as HVf.
    { intros x. rewrite HV, (overridden_by_all_tc k fi x Hk). split; [by exists fi|by intros (? & _ & _ & ?)]. }
    exists st', N. split; [|done]. split; [done|..].
    + intros a. rewrite G2, H2, HVf. setoid_rewrite Hin. naive_solver.
    + intros a x. rewrite G3, H3, HVf, Hin. naive_solver.
    + intros a x. rewrite G4, H4, HVf, Hin. naive_solver.
  - exists st, 0. split.
    + split; [done|..].
      * intros a. rewrite H2. setoid_rewrite Hin. naive_solver.
      * intros a x. rewrite H3, Hin. naive_solver.
      * intros a x. rewrite H4, Hin. naive_solver.
    + intros fuel _. destruct (fn_isVirtual fi) eqn:Hv, (fn_doesOverride fi) eqn:Hd; try done.
      unfold propagates in Hp. by rewrite Hv, Hd in Hp.
Qed.

Lemma propagate_functions_ok L dn st :
  (∀ k fi, (k, fi) ∈ L → fm !! k = Some fi) → props_ok dn st →
  ∃ st' N, props_ok (dn ++ L) st' ∧ ∀ fuel, N ≤ fuel → foldM (propagate_function fuel) st L ⇓ st'.
Proof.
  revert dn st. induction L as [|[k fi] L IH]; intros dn st HL Hst.
  - exists st, 0. by rewrite app_nil_r.
  - destruct (propagate_function_ok dn st k fi) as (st1 & N1 & Hst1 & Hr1); [apply HL; set_solver|done|].
    destruct (IH (dn ++ [(k, fi)]) st1) as (st2 & N2 & Hst2 & Hr2); [set_solver|done|].
    exists st2, (N1 + N2). rewrite <- app_assoc in Hst2. split; [done|]. intros fuel Hf.
    cbn [foldM]. rewrite Hr1 by lia. rewrite bind_ret. apply Hr2. lia.
Qed.

Lemma propagate_ret :
  ∃ fm' ov pt N, (∀ fuel, N ≤ fuel → propagate fuel fm ⇓ fm') ∧
    (∀ a, is_Some (fm' !! a) ↔ is_Some (fm !! a) ∨ ∃ k, follows k a) ∧
    (∀ a fi', fm' !! a = Some fi' → fi' = add_overrides ov pt a (func_entry fm a)) ∧
    (∀ a x, x ∈ set_entry ov a ↔ follows a x) ∧ (∀ a x, x ∈ set_entry pt a ↔ follows x a).
Proof.
  destruct (propagate_functions_ok (ordered_iter fm) [] (fm, ∅, ∅)) as (st & N & [H1 H2 H3 H4] & Hr).
  { intros k fi. by rewrite elem_of_ordered_iter. }
  { split; cbn [fst snd]; [done|set_solver|..]; intros a x; unfold set_entry; rewrite lookup_empty; set_solver. }
  assert (∀ a x, follows a x → a ∈ (ordered_iter fm).*1) as Hall.
  { intros a x (fi & Hfi & _). apply list_elem_of_fmap. exists (a, fi). split; [done|].
    by apply elem_of_ordered_iter. }
  exists (finish_overrides st), st.1.2, st.2, N. split_and!.
  - intros fuel Hf. unfold propagate. by rewrite Hr.
  - intros a. unfold finish_overrides. rewrite map_lookup_imap. cbn [app] in H2.
    assert (is_Some (st.1.1 !! a ≫= λ fi, Some (add_overrides st.1.2 st.2 a fi)) ↔ is_Some (st.1.1 !! a)) as ->.
    { destruct (st.1.1 !! a); cbn; split; intros [? ?]; by eexists. }
    rewrite H2. naive_solver.
  - intros a fi'. unfold finish_overrides. rewrite map_lookup_imap. specialize (H1 a). unfold func_entry in *.
    destruct (st.1.1 !! a) as [fi|]; [|done]. cbn in *. intros [= <-]. by rewrite <- H1.
  - intros a x. rewrite H3. naive_solver.
  - intros a x. rewrite H4. naive_solver.
Qed.

(** C22: The propagation over a function map returns (with enough fuel), and
    the map it returns is determined as follows.  It has a record for every
    function that had one and for every function that some virtual function
    with the override mark overrides directly or through others, and for no
    other.  In every record, [overriddenFunctions] lists what it listed before
    and, for a virtual function with the override mark, all functions that it
    overrides directly or through others; [overriddenBy] lists what it listed
    before and all virtual functions with the override mark that override the
    function directly or through others.  The other fields are those of the
    record before, or of an empty record for a function that had none. *)
Theorem propagate_closes :
  ∃ fm' N, (∀ fuel, N ≤ fuel → propagate fuel fm ⇓ fm') ∧
    (∀ a, is_Some (fm' !! a) ↔ is_Some (fm !! a) ∨ ∃ k, follows k a) ∧
    (∀ a fi', fm' !! a = Some fi' →
       let fi := func_entry fm a in
       (∀ x, x ∈ fn_overriddenFunctions fi' ↔ x ∈ fn_overriddenFunctions fi ∨ follows a x) ∧
       (∀ x, x ∈ fn_overriddenBy fi' ↔ x ∈ fn_overriddenBy fi ∨ follows x a) ∧
       fn_functionName fi' = fn_functionName fi ∧ fn_isVirtual fi' = fn_isVirtual fi ∧
       fn_doesOverride fi' = fn_doesOverride fi ∧ fn_numStatements fi' = fn_numStatements fi ∧
       fn_hasBody fi' = fn_hasBody fi ∧ fn_callees fi' = fn_callees fi ∧
       fn_parents fi' = fn_parents fi ∧ fn_metaInfo fi' = fn_metaInfo fi).
Proof.
  destruct propagate_ret as (fm' & ov & pt & N & Hr & Hd & He & Hov & Hpt).
  exists fm', N. split_and!; [done..|]. intros a fi' Ha. rewrite (He a fi' Ha). cbn.
  split_and!; try done; intros x; rewrite elem_of_union; [by rewrite Hov|by rewrite Hpt].
Qed.
End all_functions.

(** ** Format 2 *)

Section format_two.
Context {JO : JsonOps}.

Definition no_overrider (fm : FuncMapT) : Prop := ∀ k fi, fm !! k = Some fi → fn_doesOverride fi = false.

Lemma no_overrider_entry fm k : no_overrider fm → fn_doesOverride (func_entry fm k) = false.
Proof. intros H. unfold func_entry. destruct (fm !! k) eqn:Hk; [by eapply H|done]. Qed.

Lemma no_overrider_insert fm k fi : no_overrider fm → fn_doesOverride fi = false → no_overrider (<[k := fi]> fm).
Proof. intros H Hf a fi'. rewrite lookup_insert_Some. intros [[_ <-]|[_ Ha]]; [done|by eapply H]. Qed.

Lemma no_overrider_getOrInsert fm k : no_overrider fm → no_overrider (getOrInsert k fm).
Proof. intros H. unfold getOrInsert. destruct (fm !! k); [done|]. by apply no_overrider_insert. Qed.

Lemma read_function_two_flag fm e fm' :
  no_overrider fm → read_function_two fm e ⇓ fm' → no_overrider fm'.
Proof.
  intros Hfm. destruct e as [key v]. unfold read_function_two. intros Hr.
  repeat match type of Hr with
    | (_ ≫= _) ⇓ _ => apply bind_ret_inv in Hr as (? & _ & Hr)
    end.
  injection Hr as <-. apply no_overrider_insert; [by apply no_overrider_getOrInsert|].
  by apply no_overrider_entry, no_overrider_getOrInsert.
Qed.

Lemma read_functions_two_flag L fm fm' :
  no_overrider fm → foldM read_function_two fm L ⇓ fm' → no_overrider fm'.
Proof.
  revert fm. induction L as [|e L IH]; intros fm Hfm; cbn; [by intros [= <-]|].
  intros (fm1 & Hr1 & Hr)%bind_ret_inv. eapply IH; [|done]. by eapply read_function_two_flag.
Qed.

Lemma add_overrides_empty k fi : add_overrides ∅ ∅ k fi = fi.
Proof. destruct fi. unfold add_overrides, set_entry. rewrite !lookup_empty. cbn. by rewrite !(right_id_L ∅ (∪)). Qed.

Lemma propagate_none fm fuel : no_overrider fm → propagate fuel fm ⇓ fm.
Proof.
  intros Hfm. unfold propagate.
  assert (foldM (propagate_function fuel) ((fm, ∅, ∅) : prop_state) (ordered_iter fm) ⇓ (fm, ∅, ∅)) as ->.
  { assert (∀ L, (∀ e, e ∈ L → e ∈ ordered_iter fm) →
      foldM (propagate_function fuel) ((fm, ∅, ∅) : prop_state) L ⇓ (fm, ∅, ∅)) as Hgen; [|by apply Hgen].
    induction L as [|[k fi] L IH]; intros HL; [done|]. cbn [foldM].
    assert (propagate_function fuel (fm, ∅, ∅) (k, fi) ⇓ (fm, ∅, ∅)) as ->.
    { unfold propagate_function. rewrite (Hfm k fi) by (apply elem_of_ordered_iter, HL; set_solver).
      by destruct (fn_isVirtual fi). }
    rewrite bind_ret. apply IH. set_solver. }
  rewrite bind_ret. unfold finish_overrides. cbn [fst snd]. f_equal. apply map_eq. intros k.
  rewrite map_lookup_imap. destruct (fm !! k); cbn; [|done]. by rewrite add_overrides_empty.
Qed.

(** C35: [buildFromJSONv2] contains the propagation, too, but never reads the flag
    [doesOverride] that starts it: whatever the files contain, the records it
    builds are those read from the files, without indirect overrides. *)
Theorem buildFromJSONv2_never_propagates files fuel fm filename fm' j jj :
  no_overrider fm → buildFromJSONv2 files fuel fm filename ⇓ (fm', j, jj) →
  no_overrider fm' ∧ ∃ items, jiter_keys j ⇓ items ∧ foldM read_function_two fm items ⇓ fm'.
Proof.
  intros Hfm. unfold buildFromJSONv2. intros (x & _ & Hr)%bind_ret_inv.
  apply bind_ret_inv in Hr as (j' & _ & Hr). apply bind_ret_inv in Hr as (items & Hi & Hr).
  apply bind_ret_inv in Hr as (fm1 & Hf & Hr).
  assert (no_overrider fm1) as H1 by (by eapply read_functions_two_flag).
  rewrite (propagate_none _ _ H1), bind_ret in Hr. injection Hr as <- <- <-. split; [done|]. by exists items.
Qed.
End format_two.
