(* ===== verification/CallDepth.v ===== *)
(** * Global loop depths

    [cgcollector/lib/src/GlobalCallDepth.cpp]: how deep the loops around a call
    can be nested over a chain of calls, computed by a recursive traversal that
    does not enter a function twice on the same chain. *)

From S2P Require Import Prelude Worklist Json Collector.

(** [llvm::StringMap::lookup] *)
Definition map_lookup (m : gmap string Z) (k : string) : Z := default 0%Z (m !! k).

Section depth.
Context {IO : IterOrder}.
Context (callDepths : gmap string (gmap string Z)) (localLoopDepth : gmap string Z).

(** The maps that [getCallDepth] updates: global depths and visited marks. *)
Abbreviation depth_state := (gmap string Z * gset string)%type.

(** The body of the loop over the children; [call] is the recursive call. *)
Definition visit_child (call : string → depth_state → outcome (depth_state * Z))
    (acc : depth_state * Z) (child : string * Z) : outcome (depth_state * Z) :=
  if decide (child.1 ∈ acc.1.2) then Ret acc
  else
    r ← call child.1 acc.1;
    d ← int_add child.2 r.2;
    Ret (r.1, Z.max acc.2 d).

(** The global depth of the function is the largest one seen. *)
Definition record_depth (globalLoopDepth : gmap string Z) (entry : string) (loopDepth : Z)
    : gmap string Z :=
  match globalLoopDepth !! entry with
  | None => <[entry := loopDepth]> globalLoopDepth
  | Some d => <[entry := Z.max d loopDepth]> globalLoopDepth
  end.

Fixpoint getCallDepth (fuel : nat) (entry : string) (st : depth_state) : outcome (depth_state * Z) :=
  match fuel with
  | 0 => OutOfFuel
  | S fuel =>
      let visited := {[entry]} ∪ st.2 in
      cpp_assert (bool_decide (is_Some (callDepths !! entry)));;
      children ← deref (callDepths !! entry);
      r ← foldM (visit_child (getCallDepth fuel)) ((st.1, visited), 0%Z) (iter_map children);
      let loopDepth := Z.max r.2 (map_lookup localLoopDepth entry) in
      Ret ((record_depth r.1.1 entry loopDepth, r.1.2 ∖ {[entry]}), loopDepth)
  end.

(** Which functions are called by another one. *)
Definition mark_called (called : gmap string bool) (e : string * gmap string Z) : gmap string bool :=
  let called := match called !! e.1 with Some _ => called | None => <[e.1 := false]> called end in
  foldl (λ called callee, if decide (callee.1 ≠ e.1) then <[callee.1 := true]> called else called)
    called (iter_map e.2).

Definition entryPoints (useOnlyMainEntry : bool) : list string :=
  if negb useOnlyMainEntry then
    (filter (λ f, f.2 = false) (iter_map (foldl mark_called ∅ (iter_map callDepths)))).*1
  else if decide (is_Some (callDepths !! "main")) then ["main"] else [].

(** The loop over the entry points; [visited] lives on between them. *)
Definition global_depths (fuel : nat) (entries : list string) : outcome (gmap string Z) :=
  st ← foldM (λ (st : depth_state) entry,
         r ← getCallDepth fuel entry st;
         Ret (<[entry := r.2]> r.1.1, r.1.2)) (∅, ∅) entries;
  Ret st.1.
End depth.

(** ** On the file *)

Section json.
Context {JO : JsonOps} {IO : IterOrder}.

(** The callees, without loops around their calls, and the calls within loops. *)
Definition read_callees (callees : json) : outcome (gmap string Z) :=
  foldM (λ (called : gmap string Z) c, s ← jget_string c;
    Ret (match called !! s with Some _ => called | None => <[s := 0%Z]> called end))
    (∅ : gmap string Z) (jelems callees).
Definition read_loop_calls (called : gmap string Z) (loopCallDepth : json) : outcome (gmap string Z) :=
  foldM (λ (called : gmap string Z) '(calledFunction, callDepth),
    z ← jget_int callDepth; Ret (<[calledFunction := z]> called)) called (jitems loopCallDepth).

(** The body of the loop that collects calls and local depths. *)
Definition read_depths (maps : gmap string (gmap string Z) * gmap string Z) (e : string * json)
    : outcome (gmap string (gmap string Z) * gmap string Z) :=
  let '(key, val) := e in
  metaval ← jindex val "meta";
  cpp_assert (jcontains metaval "loopDepth");;
  d ← jindex_const metaval "loopDepth";
  d ← jget_int d;
  cpp_assert (bool_decide (maps.2 !! key = None));;
  cpp_assert (jcontains val "callees");;
  callees ← jindex val "callees";
  called ← read_callees callees;
  cpp_assert (jcontains metaval "loopCallDepth");;
  loopCallDepth ← jindex_const metaval "loopCallDepth";
  called ← read_loop_calls called loopCallDepth;
  cpp_assert (bool_decide (maps.1 !! key = None));;
  Ret (<[key := called]> maps.1, <[key := d]> maps.2).

(** The body of the loop that stores the results. *)
Definition write_depth (globalLoopDepth : gmap string Z) (cg : json) (e : string * json) : outcome json :=
  let gcd := map_lookup globalLoopDepth e.1 in
  jupdate cg e.1 (λ val, jupdate val "meta" (λ meta,
    d ← jindex meta "loopDepth"; d ← jget_int d; jset meta "globalLoopDepth" (jint (Z.max gcd d)))).

Definition calculateGlobalCallDepth (fuel : nat) (j : json) (useOnlyMainEntry : bool) : outcome json :=
  jupdate j "_CG" (λ cg,
    maps ← foldM read_depths (∅, ∅) (jitems cg);
    globalLoopDepth ← global_depths maps.1 maps.2 fuel (entryPoints maps.1 useOnlyMainEntry);
    foldM (write_depth globalLoopDepth) cg (jitems cg)).
End json.

(** * Global loop depths are the longest chains

    The recursive traversal terminates and computes, for every function that it
    starts from, the largest depth of a chain of calls that enters no function
    twice. *)

Section chains.
Context {IO : IterOrder}.
Context (callDepths : gmap string (gmap string Z)) (localLoopDepth : gmap string Z).

Definition calls_at (a b : string) (w : Z) : Prop :=
  ∃ c, callDepths !! a = Some c ∧ c !! b = Some w.

(** The depth of a chain of calls from a function that avoids [V] and itself:
    the loops around the calls, and the loops of the last function. *)
Inductive chain : gset string → string → Z → Prop :=
  | chain_end V a : chain V a (Z.max 0 (map_lookup localLoopDepth a))
  | chain_call V a b w d :
      calls_at a b w → b ∉ ({[a]} ∪ V) → chain ({[a]} ∪ V) b d → chain V a (w + d).

(** Fewer forbidden functions allow more chains. *)
Lemma chain_mono V V' a d : chain V a d → V' ⊆ V → chain V' a d.
Proof.
  intros Hc. revert V'. induction Hc as [V a|V a b w d Hw Hb _ IH]; intros V' HV; [constructor|].
  apply chain_call with b; [done|set_solver|]. apply IH. set_solver.
Qed.

(** The largest depth of a chain. *)
Definition max_chain (V : gset string) (a : string) (r : Z) : Prop :=
  chain V a r ∧ ∀ d, chain V a d → (d ≤ r)%Z.

(** The functions that can still be entered. *)
Definition left_over (V : gset string) : nat := size (dom callDepths ∖ V).

Lemma left_over_step V a : is_Some (callDepths !! a) → a ∉ V → left_over V = S (left_over ({[a]} ∪ V)).
Proof.
  intros Ha HV. unfold left_over.
  assert (dom callDepths ∖ V = {[a]} ∪ (dom callDepths ∖ ({[a]} ∪ V))) as ->.
  { apply set_eq. intros x. rewrite elem_of_union, !elem_of_difference, elem_of_union, elem_of_singleton.
    destruct (decide (x = a)) as [->|]; [|tauto]. apply elem_of_dom in Ha. tauto. }
  rewrite size_union, size_singleton by set_solver. lia.
Qed.

(** What the traversal stores: depths of chains from the function they are
    stored for. *)
Definition gld_ok (V : gset string) (gld gld' : gmap string Z) : Prop :=
  (∀ f d, gld' !! f = Some d → gld !! f = Some d ∨ chain V f d) ∧
  ∀ f d, gld !! f = Some d → ∃ d', gld' !! f = Some d' ∧ (d ≤ d')%Z.

Lemma gld_ok_refl V gld : gld_ok V gld gld.
Proof. split; [tauto|]. intros f d Hf. exists d. split; [done|lia]. Qed.

Lemma gld_ok_trans V V' g1 g2 g3 : V ⊆ V' → gld_ok V g1 g2 → gld_ok V' g2 g3 → gld_ok V g1 g3.
Proof.
  intros HV [H1 H2] [G1 G2]. split.
  - intros f d Hf. destruct (G1 f d Hf) as [?|?]; [by apply H1|right]. by eapply chain_mono.
  - intros f d Hf. destruct (H2 f d Hf) as (d1 & Hd1 & ?). destruct (G2 f d1 Hd1) as (d2 & ? & ?).
    exists d2. split; [done|lia].
Qed.

Lemma record_depth_ok V gld a r :
  chain V a r → gld_ok V gld (record_depth gld a r) ∧
    ∃ d, record_depth gld a r !! a = Some d ∧ (r ≤ d)%Z.
Proof.
  intros Hr. unfold record_depth. destruct (gld !! a) as [d|] eqn:Ha; rewrite lookup_insert_eq.
  - split; [|exists (Z.max d r); split; [done|lia]]. split.
    + intros f d'. rewrite lookup_insert_Some. intros [[<- <-]|[_ ?]]; [|by left].
      destruct (Z.max_spec d r) as [[_ ->]|[_ ->]]; [by right|by left].
    + intros f d' Hf. destruct (decide (f = a)) as [->|Hne].
      * rewrite lookup_insert_eq. eexists. split; [done|]. replace d' with d by congruence. lia.
      * rewrite lookup_insert_ne by done. exists d'. split; [done|lia].
  - split; [|exists r; split; [done|lia]]. split.
    + intros f d'. rewrite lookup_insert_Some. intros [[<- <-]|[_ ?]]; [by right|by left].
    + intros f d' Hf. rewrite lookup_insert_ne by (intros ->; congruence). exists d'. split; [done|lia].
Qed.

(** What a call of [getCallDepth] achieves. *)
Definition call_ok (V : gset string) (a : string) (call : gmap string Z * gset string →
    outcome (gmap string Z * gset string * Z)) : Prop :=
  ∀ gld, ∃ gld' r, call (gld, V) ⇓ (gld', V, r) ∧ max_chain V a r ∧ gld_ok V gld gld' ∧
    ∃ d, gld' !! a = Some d ∧ (r ≤ d)%Z.

(** ** The entry points *)

Definition is_entry_point (useOnlyMainEntry : bool) (e : string) : Prop :=
  is_Some (callDepths !! e) ∧
  if useOnlyMainEntry then e = "main" else ∀ a w, calls_at a e w → a = e.

(** Some function among [dn], other than [f] itself, calls [f]. *)
Definition called_among (dn : list (string * gmap string Z)) (f : string) : Prop :=
  ∃ a c, (a, c) ∈ dn ∧ a ≠ f ∧ is_Some (c !! f).

Lemma mark_callees a (L : list (string * Z)) (called : gmap string bool) f :
  foldl (λ called callee, if decide (callee.1 ≠ a) then <[callee.1 := true]> called else called)
    called L !! f = if decide (f ≠ a ∧ f ∈ L.*1) then Some true else called !! f.
Proof.
  revert called. induction L as [|[b w] L IH]; intros called; cbn.
  - rewrite decide_False; [done|]. intros [_ ?%elem_of_nil]. done.
  - rewrite IH. destruct (decide (f ≠ a ∧ f ∈ L.*1)) as [Hin|Hin].
    + rewrite decide_True; [done|]. set_solver.
    + destruct (decide (b ≠ a)) as [Hb|Hb].
      * destruct (decide (f = b)) as [->|Hf].
        -- rewrite lookup_insert_eq, decide_True by set_solver. done.
        -- rewrite lookup_insert_ne, decide_False by set_solver. done.
      * rewrite decide_False by set_solver. done.
Qed.

Record called_ok (dn : list (string * gmap string Z)) (called : gmap string bool) : Prop := {
  co_true : ∀ f, called !! f = Some true ↔ called_among dn f;
  co_false : ∀ f, called !! f = Some false ↔ f ∈ dn.*1 ∧ ¬ called_among dn f
}.

Lemma mark_called_ok dn called a c :
  called_ok dn called → called_ok (dn ++ [(a, c)]) (mark_called called (a, c)).
Proof.
  intros [Ht Hf]. assert (∀ f, called_among (dn ++ [(a, c)]) f ↔
    called_among dn f ∨ (f ≠ a ∧ is_Some (c !! f))) as Hc.
  { intros f. unfold called_among. setoid_rewrite elem_of_app. setoid_rewrite list_elem_of_singleton.
    naive_solver. }
  assert (∀ f, f ∈ (iter_map c).*1 ↔ is_Some (c !! f)) as Hi.
  { intros f. rewrite list_elem_of_fmap. split.
    - intros ([f' w] & -> & Hw%elem_of_iter_map). by exists w.
    - intros [w Hw]. exists (f, w). split; [done|]. by apply elem_of_iter_map. }
  assert (∀ f, f ∈ (dn ++ [(a, c)]).*1 ↔ f ∈ dn.*1 ∨ f = a) as Hdn.
  { intros f. rewrite fmap_app, elem_of_app. cbn. by rewrite list_elem_of_singleton. }
  unfold mark_called. cbn [fst snd].
  split; intros f; rewrite mark_callees; case_decide as Hd; rewrite Hi in Hd; rewrite Hc, ?Hdn.
  - naive_solver.
  - rewrite <- Ht.
    destruct (called !! a) eqn:Ha; [naive_solver|].
    destruct (decide (f = a)) as [->|Hne]; [rewrite lookup_insert_eq|rewrite lookup_insert_ne by done]; naive_solver.
  - naive_solver.
  - destruct (called !! a) as [[]|] eqn:Ha.
    + rewrite Hf. apply Ht in Ha as Ha'. split; [naive_solver|].
      intros [[?| ->] Hn]; [naive_solver|]. exfalso. apply Hn. by left.
    + rewrite Hf. apply Hf in Ha as [? ?]. naive_solver.
    + destruct (decide (f = a)) as [->|Hne].
      * rewrite lookup_insert_eq. rewrite <- Ht, Ha. naive_solver.
      * rewrite lookup_insert_ne by done. rewrite Hf. naive_solver.
Qed.

Lemma entryPoints_spec b e : e ∈ entryPoints callDepths b ↔ is_entry_point b e.
Proof.
  unfold is_entry_point, entryPoints. destruct b; cbn [negb].
  - case_decide; [rewrite list_elem_of_singleton|rewrite elem_of_nil]; naive_solver.
  - assert (∀ L dn called, called_ok dn called → called_ok (dn ++ L) (foldl mark_called called L)) as Hgen.
    { induction L as [|[a c] L IH]; intros dn called Hc; [by rewrite app_nil_r|].
      change ((a, c) :: L) with ([(a, c)] ++ L). rewrite (assoc_L (++)). by apply IH, mark_called_ok. }
    destruct (Hgen (iter_map callDepths) [] ∅) as [_ Hf].
    { split; intros f; rewrite lookup_empty; unfold called_among; set_solver. }
    cbn [app] in Hf. rewrite list_elem_of_fmap. split.
    + intros ([f b] & -> & [Hb Hin%elem_of_iter_map]%list_elem_of_filter). cbn in Hb. subst b.
      apply Hf in Hin as [Hin Hn]. cbn. split.
      * apply list_elem_of_fmap in Hin as ([f' c] & -> & Hc%elem_of_iter_map). by exists c.
      * intros a w (c & Hc & Hw). destruct (decide (a = f)) as [|Hne]; [done|]. exfalso. apply Hn.
        exists a, c. split_and!; [by apply elem_of_iter_map|done|by exists w].
    + intros [[c Hc] Hn]. exists (e, false). split; [done|]. apply list_elem_of_filter. split; [done|].
      apply elem_of_iter_map, Hf. split.
      * apply list_elem_of_fmap. exists (e, c). split; [done|]. by apply elem_of_iter_map.
      * intros (a & c' & Ha%elem_of_iter_map & Hne & [w Hw]). apply Hne. apply (Hn a w). by exists c'.
Qed.

(** ** The traversal *)

Context (W L : Z).

(** Every callee is known, and the depths are bounded so that no sum of them
    overflows. *)
Record depths_ok : Prop := {
  do_closed : ∀ a b w, calls_at a b w → is_Some (callDepths !! b);
  do_calls : ∀ a b w, calls_at a b w → (0 ≤ w ≤ W)%Z;
  do_local : ∀ a, (map_lookup localLoopDepth a ≤ L)%Z;
  do_bounds : (0 ≤ L)%Z ∧ (0 ≤ W)%Z;
  do_int : (Z.of_nat (size callDepths) * W + L ≤ INT_MAX)%Z
}.
Context (Hok : depths_ok).

Lemma chain_bound V a d :
  chain V a d → is_Some (callDepths !! a) → a ∉ V → (0 ≤ d ≤ Z.of_nat (left_over V) * W + L)%Z.
Proof using Hok.
  destruct (do_bounds Hok) as [HL HW].
  induction 1 as [V a|V a b w d Hw Hb _ IH]; intros Ha HV.
  - pose proof (do_local Hok a). nia.
  - specialize (IH (do_closed Hok _ _ _ Hw) Hb). pose proof (do_calls Hok _ _ _ Hw).
    rewrite (left_over_step V a Ha HV). lia.
Qed.

(** The loop over the children [L] of [a]. *)
Lemma children_ok V a call children gld :
  is_Some (callDepths !! a) → a ∉ V →
  (∀ b w, (b, w) ∈ children → calls_at a b w ∧ (b ∉ ({[a]} ∪ V) → call_ok ({[a]} ∪ V) b (call b))) →
  ∃ gld' m, foldM (visit_child call) ((gld, {[a]} ∪ V), 0%Z) children ⇓ (gld', {[a]} ∪ V, m) ∧
    gld_ok ({[a]} ∪ V) gld gld' ∧ (0 ≤ m)%Z ∧
    (m = 0 ∨ ∃ b w d, (b, w) ∈ children ∧ (b ∉ ({[a]} ∪ V)) ∧ chain ({[a]} ∪ V) b d ∧ m = (w + d))%Z ∧
    ∀ b w d, (b, w) ∈ children → b ∉ ({[a]} ∪ V) → chain ({[a]} ∪ V) b d → (w + d ≤ m)%Z.
Proof using Hok.
  intros Ha HV Hch.
  destruct (foldM_ind (λ dn (acc : gmap string Z * gset string * Z), acc.1.2 = {[a]} ∪ V ∧ gld_ok ({[a]} ∪ V) gld acc.1.1 ∧ (0 ≤ acc.2)%Z ∧
    (acc.2 = 0 ∨ ∃ b w d, (b, w) ∈ dn ∧ (b ∉ ({[a]} ∪ V)) ∧ chain ({[a]} ∪ V) b d ∧ acc.2 = (w + d))%Z ∧
    ∀ b w d, (b, w) ∈ dn → b ∉ ({[a]} ∪ V) → chain ({[a]} ∪ V) b d → (w + d ≤ acc.2)%Z)
    (visit_child call) children ((gld, {[a]} ∪ V), 0%Z)) as ([[gld' V'] m] & Hr & HV' & H).
  - cbn. split_and!; [done|apply gld_ok_refl|lia|by left|set_solver].
  - intros dn [b w] rest [[g1 V1] m] -> (HV1 & Hg & Hm & Hatt & Hmax). cbn [fst snd] in *. subst V1.
    destruct (Hch b w) as [Hw Hcall]; [set_solver|]. unfold visit_child. cbn [fst snd].
    case_decide as Hb.
    + eexists. split; [done|]. cbn [fst snd]. split_and!; [done|done|done| |].
      * destruct Hatt as [?|(b' & w' & d & ? & ?)]; [by left|right; exists b', w', d; set_solver].
      * intros b' w' d [?|[= -> ->]%list_elem_of_singleton]%elem_of_app Hb'; [by apply Hmax|done].
    + destruct (Hcall Hb g1) as (g2 & r & -> & [Hrc Hrm] & Hg2 & _). rewrite bind_ret. cbn [fst snd].
      pose proof (chain_bound _ _ _ Hrc (do_closed Hok _ _ _ Hw) Hb) as Hrb.
      pose proof (do_calls Hok _ _ _ Hw) as Hwb. pose proof (do_int Hok) as Hint.
      assert (S (left_over ({[a]} ∪ V)) ≤ size callDepths) as Hl.
      { rewrite <- (left_over_step V a Ha HV), <- (size_dom (D := gset string) callDepths).
        unfold left_over. apply subseteq_size. set_solver. }
      rewrite int_add_ret; [|unfold is_int, INT_MIN, INT_MAX in *; nia].
      rewrite bind_ret. eexists. split; [done|]. cbn [fst snd]. split_and!; [done| |lia| |].
      * by eapply gld_ok_trans.
      * right. destruct (Z.max_spec m (w + r)) as [[_ ->]|[? ->]].
        -- exists b, w, r. set_solver.
        -- destruct Hatt as [->|(b' & w' & d & ? & ?)]; [|exists b', w', d; set_solver].
           exists b, w, r. split_and!; [set_solver|done|done|lia].
      * intros b' w' d [Hin|[= -> ->]%list_elem_of_singleton]%elem_of_app Hb' Hd.
        -- specialize (Hmax _ _ _ Hin Hb' Hd). lia.
        -- specialize (Hrm d Hd). lia.
  - cbn [fst snd] in *. subst V'. exists gld', m. split; [exact Hr|]. tauto.
Qed.

Lemma getCallDepth_ok fuel V a :
  left_over V < fuel → is_Some (callDepths !! a) → a ∉ V →
  call_ok V a (getCallDepth callDepths localLoopDepth fuel a).
Proof using Hok.
  revert V a. induction fuel as [|fuel IH]; intros V a Hf [c Hc] HV gld; [lia|].
  assert (is_Some (callDepths !! a)) as Ha by (by exists c).
  destruct (children_ok V a (getCallDepth callDepths localLoopDepth fuel) (iter_map c) gld Ha HV)
    as (g1 & m & Hrun & Hg & Hm & Hatt & Hmax).
  { intros b w Hb%elem_of_iter_map. assert (calls_at a b w) as Hw by (by exists c). split; [done|].
    intros HbV. apply IH; [|by eapply do_closed|done]. rewrite (left_over_step V a Ha HV) in Hf. lia. }
  cbn [getCallDepth]. rewrite bool_decide_true by done. cbn [cpp_assert]. rewrite bind_ret, Hc.
  cbn [deref]. rewrite bind_ret. cbn [fst snd]. rewrite Hrun, bind_ret. cbn [fst snd].
  set (r := Z.max m (map_lookup localLoopDepth a)).
  assert (max_chain V a r) as Hr.
  { split.
    - destruct Hatt as [->|(b & w & d & Hb%elem_of_iter_map & HbV & Hd & ->)]; [apply chain_end|].
      unfold r. destruct (Z.max_spec (w + d) (map_lookup localLoopDepth a)) as [[? ->]|[? ->]].
      + replace (map_lookup localLoopDepth a) with (Z.max 0 (map_lookup localLoopDepth a)) by lia. apply chain_end.
      + apply chain_call with b; [by exists c|done|done].
    - intros d Hd. inversion Hd; subst; [lia|]. destruct H as (c' & Hc' & Hw).
      replace c' with c in Hw by congruence. apply elem_of_iter_map in Hw. by specialize (Hmax _ _ _ Hw H0 H1); lia. }
  destruct (record_depth_ok V g1 a r (proj1 Hr)) as [Hrec Hd].
  exists (record_depth g1 a r), r. split_and!; [|done| |done].
  - replace (({[a]} ∪ V) ∖ {[a]}) with V by set_solver. done.
  - eapply gld_ok_trans; [done| |exact Hrec]. destruct Hg as [G1 G2]. split; [|done].
    intros f d Hf'. destruct (G1 f d Hf'); [by left|right]. eapply chain_mono; [done|set_solver].
Qed.

(** ** All entry points *)

Lemma global_depths_ret fuel entries :
  size callDepths < fuel → (∀ e, e ∈ entries → is_Some (callDepths !! e)) →
  ∃ gld, global_depths callDepths localLoopDepth fuel entries ⇓ gld ∧
    (∀ f d, gld !! f = Some d → chain ∅ f d) ∧
    ∀ e, e ∈ entries → ∃ r, gld !! e = Some r ∧ max_chain ∅ e r.
Proof using Hok.
  intros Hf He. unfold global_depths.
  destruct (foldM_ind (λ dn (st : gmap string Z * gset string), st.2 = ∅ ∧
    (∀ f d, st.1 !! f = Some d → chain ∅ f d) ∧
    ∀ e, e ∈ dn → ∃ r, st.1 !! e = Some r ∧ max_chain ∅ e r)
    (λ (st : gmap string Z * gset string) entry,
       r ← getCallDepth callDepths localLoopDepth fuel entry st; Ret (<[entry := r.2]> r.1.1, r.1.2))
    entries (∅, ∅)) as ([gld V] & Hr & _ & H1 & H2).
  - cbn. split_and!; [done| |set_solver]. intros f d. by rewrite lookup_empty.
  - intros dn e rest [gld V] -> (HV & Hch & Hdn). cbn [fst snd] in *. subst V.
    destruct (getCallDepth_ok fuel ∅ e) with (gld := gld) as (g1 & r & -> & Hr & [G1 G2] & _).
    { unfold left_over. rewrite (difference_empty_L (dom callDepths)), size_dom. done. }
    { apply He. set_solver. } { set_solver. }
    rewrite bind_ret. eexists. split; [done|]. cbn [fst snd]. split_and!; [done|..].
    + intros f d. rewrite lookup_insert_Some. intros [[<- <-]|[_ Hd]]; [apply Hr|].
      destruct (G1 f d Hd); [by apply Hch|done].
    + intros e' [He'| ->%list_elem_of_singleton]%elem_of_app; [|exists r; by rewrite lookup_insert_eq].
      destruct (decide (e = e')) as [->|Hne]; [exists r; by rewrite lookup_insert_eq|].
      rewrite lookup_insert_ne by done. destruct (Hdn e' He') as (r' & Hr' & Hmax').
      destruct (G2 e' r' Hr') as (d' & Hd' & Hle). exists r'. split; [|done]. rewrite Hd'. f_equal.
      destruct (G1 e' d' Hd') as [?|Hc]; [congruence|]. apply (proj2 Hmax') in Hc. lia.
  - cbn [fst snd] in *. exists gld. rewrite Hr, bind_ret. cbn. done.
Qed.

(** C21: The computation of the global loop depths terminates with more fuel than
    there are functions; the functions it starts from are [main], or those that
    no other function calls; each of them gets the depth of the deepest chain of
    calls that enters no function twice, and whatever another function gets is
    the depth of such a chain, too.  The order of the string maps has no
    influence on this. *)
Theorem global_depths_longest_chains fuel useOnlyMainEntry :
  size callDepths < fuel →
  ∃ gld, global_depths callDepths localLoopDepth fuel (entryPoints callDepths useOnlyMainEntry) ⇓ gld ∧
    (∀ f d, gld !! f = Some d → chain ∅ f d) ∧
    ∀ e, is_entry_point useOnlyMainEntry e → ∃ r, gld !! e = Some r ∧ max_chain ∅ e r.
Proof using Hok.
  intros Hf.
  destruct (global_depths_ret fuel (entryPoints callDepths useOnlyMainEntry) Hf) as (gld & Hr & H1 & H2).
  { intros e He%entryPoints_spec. apply He. }
  exists gld. split_and!; [done|done|]. intros e He. by apply H2, entryPoints_spec.
Qed.
End chains.
