(* ===== verification/CollectorMerge.v ===== *)
(** * Merging the files of the collector

    [cgcollector/tools/CGMerge.cpp]: the merge of files of format 1, and what
    the merge of files of format 2 does with the bodies, the loop depths and
    the callers of a function.  [CollectorMergeTwo] has the rest of format 2. *)

From S2P Require Import Prelude Worklist Json Collector.

Section merge.
Context {JO : JsonOps}.

(** [toSet]: iterating over null finds nothing. *)
Definition add_strings (target : FunctionNames) (obj : json) : outcome FunctionNames :=
  foldM (λ target e, s ← jget_string e; Ret ({[s]} ∪ target)) target (jelems obj).
Definition toSet (jsonObj : json) (id : string) : outcome FunctionNames :=
  obj ← jindex jsonObj id; add_strings ∅ obj.

(** [doMerge]; the overridden functions are collected, but not stored: what
    remains is that a missing field becomes null.  [ovKey] is the name of their
    field in the format. *)
Definition doMerge (ovKey : string) (t s : json) : outcome json :=
  callees ← jindex_const s "callees";
  tCallees ← toSet t "callees";
  tCallees ← add_strings tCallees callees;
  t ← jset t "callees" (jof_set tCallees);
  overriddenFuncs ← jindex_const s ovKey;
  tOverriddenFuncs ← toSet t ovKey;
  t ← jupdate t ovKey Ret;
  _ ← add_strings tOverriddenFuncs overriddenFuncs;
  v ← jindex_const s "isVirtual"; t ← jset t "isVirtual" v;
  v ← jindex_const s "doesOverride"; t ← jset t "doesOverride" v;
  v ← jindex_const s "hasBody"; jset t "hasBody" v.

(** The callers of both; [callersKey] is the name of the field. *)
Definition merge_callers (callersKey : string) (c v : json) : outcome json :=
  v_parents ← field_set v callersKey;
  parents ← field_set c callersKey;
  jset c callersKey (jof_set (parents ∪ v_parents)).

(** ** Format 1 *)

Definition merge_bodies_one (c v : json) : outcome json :=
  vBody ← field_bool v "hasBody";
  cBody ← field_bool c "hasBody";
  if vBody && cBody then
    c ← doMerge "overriddenFunctions" c v;
    n ← field_int c "numStatements";
    m ← field_int v "numStatements";
    if decide (n ≠ m) then sum ← int_add n m; jset c "numStatements" (jint sum) else Ret c
  else if (vBody : bool) then
    c ← doMerge "overriddenFunctions" c v;
    m ← jindex v "numStatements";
    jset c "numStatements" m
  else Ret c.

Definition merge_function_one (wholeCG : json) (e : string * json) : outcome json :=
  let '(key, v) := e in
  c ← jindex wholeCG key;
  if jempty c then jset wholeCG key v
  else jupdate wholeCG key (λ c, c ← merge_bodies_one c v; merge_callers "parents" c v).

Definition merge_file_one (files : gmap string json) (fuel : nat) (st : FuncMapT * json)
    (filename : string) : outcome (FuncMapT * json) :=
  r ← buildFromJSON files fuel st.1 filename;
  items ← jiter_keys r.2;
  wholeCG ← foldM merge_function_one st.2 items;
  Ret (r.1, wholeCG).

Definition store_overrides (functionInfoMap : FuncMapT) (wholeCG : json) (e : string * json)
    : outcome json :=
  match functionInfoMap !! e.1 with
  | Some fi =>
      jupdate wholeCG e.1 (λ jsonFunc,
        jsonFunc ← jset jsonFunc "overriddenBy" (jof_set (fn_overriddenBy fi));
        jset jsonFunc "overriddenFunctions" (jof_set (fn_overriddenFunctions fi)))
  | None => Ret wholeCG
  end.

Definition mergeFileFormatOne (files : gmap string json) (fuel : nat) (wholeCGFilename : string)
    (inputFiles : list string) : outcome json :=
  wholeCG ← readIPCG files wholeCGFilename;
  st ← foldM (merge_file_one files fuel) (∅, wholeCG) inputFiles;
  items ← jiter_keys st.2;
  foldM (store_overrides st.1) st.2 items.

(** ** Format 2 *)

(** [c["meta"][k] = v["meta"][k]] *)
Definition copy_meta (c v : json) (k : string) : outcome json :=
  vMeta ← jindex v "meta"; x ← jindex vMeta k; jupdate c "meta" (λ m, jset m k x).

Definition meta_int (v : json) (k : string) : outcome Z := m ← jindex v "meta"; field_int m k.

(** The branches on the bodies; the flag is [hasLoopInfo]. *)
Definition merge_bodies_two (hasLoopInfo : bool) (c v : json) : outcome (json * bool) :=
  vBody ← field_bool v "hasBody";
  cBody ← field_bool c "hasBody";
  if vBody && cBody then
    c ← doMerge "overrides" c v;
    n ← meta_int c "numStatements";
    m ← meta_int v "numStatements";
    if decide (n ≠ m) then
      sum ← int_add n m;
      c ← jupdate c "meta" (λ meta, jset meta "numStatements" (jint sum)); Ret (c, hasLoopInfo)
    else Ret (c, hasLoopInfo)
  else if (vBody : bool) then
    c ← doMerge "overrides" c v;
    c ← copy_meta c v "numStatements";
    c ← copy_meta c v "fileProperties";
    c ← copy_meta c v "inlineInfo";
    meta ← jindex c "meta";
    if jcontains meta "loopDepth" then
      c ← copy_meta c v "numConditionalBranches";
      c ← copy_meta c v "loopDepth";
      c ← copy_meta c v "numOperations";
      Ret (c, true)
    else Ret (c, hasLoopInfo)
  else Ret (c, hasLoopInfo).

(** [n > j] for a JSON value: values of other types are ordered by their type. *)
Definition int_above (n : Z) (j : json) : bool :=
  match jview j with
  | VInt z => bool_decide (z < n)%Z
  | VNull | VBool _ => true
  | _ => false
  end.

(** The first loop raises depths, the second one adds functions. *)
Definition raise_depth (vd vc : json) (e : string * json) : outcome json :=
  if jcontains vd e.1 then
    other ← jat vd e.1;
    otherv ← jget_int other;
    if int_above otherv e.2 then jset vc e.1 (jint otherv) else Ret vc
  else Ret vc.
Definition add_depth (vc : json) (e : string * json) : outcome json :=
  if jcontains vc e.1 then Ret vc else jset vc e.1 e.2.

Definition merge_depth_maps (vc vd : json) : outcome json :=
  vc ← foldM (raise_depth vd) vc (jitems vc);
  foldM add_depth vc (jitems vd).

Definition merge_loop_depths (c v : json) : outcome json :=
  cMeta ← jindex c "meta";
  vMeta ← jindex v "meta";
  if negb (jcontains cMeta "loopCallDepth") && jcontains vMeta "loopCallDepth"
  then copy_meta c v "loopCallDepth"
  else if jcontains cMeta "loopCallDepth" && jcontains vMeta "loopCallDepth" then
    vd ← jindex vMeta "loopCallDepth";
    jupdate c "meta" (λ meta, jupdate meta "loopCallDepth" (λ vc, merge_depth_maps vc vd))
  else Ret c.
End merge.
