(* ===== verification/CollectorMergeProps.v ===== *)
(** * The merge of collector files is a union

    For files of format 1 in which functions without a body call nothing and
    bodies agree on the number of statements, the merged file holds every
    function of the inputs with the union of its callees and of its callers.
    The maps of loop call depths are merged to the larger depth. *)

From S2P Require Import Prelude Worklist Json Collector CollectorProps CollectorMerge.

Section merge.
Context {JO : JsonOps} {JL : JsonLaws}.

(** ** Sets as JSON *)

Lemma ordered_set_to_set X : list_to_set (ordered_set X) = X.
Proof. apply set_eq. intros x. by rewrite elem_of_list_to_set, elem_of_ordered_set. Qed.

Lemma jget_set_of X : jget_set (jof_set X) ⇓ X.
Proof. unfold jget_set, jof_set. by rewrite jget_strings_arr, bind_ret, ordered_set_to_set. Qed.

Lemma add_strings_of Y X : add_strings Y (jof_set X) ⇓ Y ∪ X.
Proof.
  unfold add_strings, jof_set. rewrite (jelems_arr _ _ (jview_jmk _)).
  assert (∀ l Y, foldM (λ target e, s ← jget_string e; Ret ({[s]} ∪ target)) Y
    ((λ s, jstr s) <$> l) ⇓ (Y ∪ list_to_set l : gset string)) as Hgen.
  { induction l as [|s l IH]; intros Z; cbn; [by rewrite (right_id_L ∅ (∪))|].
    rewrite jget_string_str, bind_ret, bind_ret, IH. f_equal. set_solver. }
  by rewrite Hgen, ordered_set_to_set.
Qed.

(** ** Functions of a file of format 1 *)

Record function_one := mkFunctionOne {
  f1_callees : gset string;
  f1_parents : gset string;
  f1_overriddenFunctions : gset string;
  f1_overriddenBy : gset string;
  f1_isVirtual : bool;
  f1_doesOverride : bool;
  f1_hasBody : bool;
  f1_numStatements : Z
}.

(** The fields of an object that describes a function; there may be others. *)
Record describes (m : gmap string json) (n : function_one) : Prop := {
  d_callees : m !! "callees" = Some (jof_set (f1_callees n));
  d_parents : m !! "parents" = Some (jof_set (f1_parents n));
  d_overridden : m !! "overriddenFunctions" = Some (jof_set (f1_overriddenFunctions n));
  d_overriddenBy : m !! "overriddenBy" = Some (jof_set (f1_overriddenBy n));
  d_virtual : m !! "isVirtual" = Some (jbool (f1_isVirtual n));
  d_override : m !! "doesOverride" = Some (jbool (f1_doesOverride n));
  d_body : m !! "hasBody" = Some (jbool (f1_hasBody n));
  d_statements : m !! "numStatements" = Some (jint (f1_numStatements n))
}.

Definition represents (v : json) (n : function_one) : Prop :=
  ∃ m, v = jobj m ∧ describes m n ∧ is_int (f1_numStatements n).

Lemma field_set_ret m k X : m !! k = Some (jof_set X) → field_set (jobj m) k ⇓ X.
Proof. intros Hk. unfold field_set. rewrite (jindex_obj _ _ _ Hk), bind_ret. apply jget_set_of. Qed.
Lemma field_bool_ret m k b : m !! k = Some (jbool b) → field_bool (jobj m) k ⇓ b.
Proof. intros Hk. unfold field_bool. rewrite (jindex_obj _ _ _ Hk), bind_ret. apply jget_bool_bool. Qed.
Lemma field_int_ret m k z : m !! k = Some (jint z) → is_int z → field_int (jobj m) k ⇓ z.
Proof. intros Hk Hz. unfold field_int. rewrite (jindex_obj _ _ _ Hk), bind_ret. by apply jget_int_jint. Qed.

(** What merging [v] into [c] makes of a function. *)
Definition with_body (c v : function_one) : function_one :=
  mkFunctionOne (f1_callees c ∪ f1_callees v) (f1_parents c) (f1_overriddenFunctions c)
    (f1_overriddenBy c) (f1_isVirtual v) (f1_doesOverride v) true (f1_numStatements v).
Definition with_parents (c v : function_one) : function_one :=
  mkFunctionOne (f1_callees c) (f1_parents c ∪ f1_parents v) (f1_overriddenFunctions c)
    (f1_overriddenBy c) (f1_isVirtual c) (f1_doesOverride c) (f1_hasBody c) (f1_numStatements c).
Definition merged_function (c v : function_one) : function_one :=
  with_parents (if f1_hasBody v then with_body c v else c) v.

Lemma doMerge_ret mc mv c v :
  describes mc c → describes mv v → f1_hasBody v = true →
  ∃ m, doMerge "overriddenFunctions" (jobj mc) (jobj mv) ⇓ jobj m ∧
    m !! "numStatements" = Some (jint (f1_numStatements c)) ∧
    ∀ m', m' = <["numStatements" := jint (f1_numStatements v)]> m → describes m' (with_body c v).
Proof.
  intros [] [] Hb. unfold doMerge, toSet.
  rewrite (jindex_const_obj mv "callees" (jof_set (f1_callees v))), bind_ret by done.
  rewrite (jindex_obj mc "callees" (jof_set (f1_callees c))), bind_ret by done.
  rewrite add_strings_of, bind_ret, add_strings_of, bind_ret, (left_id_L ∅ (∪)), jset_obj, bind_ret.
  rewrite (jindex_const_obj mv "overriddenFunctions" (jof_set (f1_overriddenFunctions v))), bind_ret by done.
  set (m1 := <["callees" := _]> mc).
  assert (m1 !! "overriddenFunctions" = Some (jof_set (f1_overriddenFunctions c))) as H1
    by (unfold m1; by rewrite lookup_insert_ne).
  rewrite (jindex_obj _ _ _ H1), bind_ret, add_strings_of, bind_ret.
  rewrite (jupdate_obj _ _ _ Ret (jof_set (f1_overriddenFunctions c)) H1 eq_refl), bind_ret.
  rewrite add_strings_of, bind_ret.
  rewrite (jindex_const_obj mv "isVirtual" (jbool (f1_isVirtual v))), bind_ret, jset_obj, bind_ret by done.
  rewrite (jindex_const_obj mv "doesOverride" (jbool (f1_doesOverride v))), bind_ret, jset_obj, bind_ret by done.
  rewrite (jindex_const_obj mv "hasBody" (jbool (f1_hasBody v))), bind_ret, jset_obj by done.
  eexists. split; [done|]. unfold m1. split; [by rewrite !lookup_insert_ne by done|].
  intros m' ->. rewrite Hb. split; cbn; by simplify_map_eq.
Qed.

(** The numbers of statements of two bodies agree. *)
Definition same_statements (c v : function_one) : Prop :=
  f1_hasBody c = true → f1_hasBody v = true → f1_numStatements c = f1_numStatements v.

Lemma merge_bodies_one_ret jc jv c v :
  represents jc c → represents jv v → same_statements c v →
  ∃ j, merge_bodies_one jc jv ⇓ j ∧ represents j (if f1_hasBody v then with_body c v else c).
Proof.
  intros (mc & -> & Hc & Hci) (mv & -> & Hv & Hvi) Hs. unfold merge_bodies_one.
  rewrite (field_bool_ret mv "hasBody" _ (d_body _ _ Hv)), bind_ret.
  rewrite (field_bool_ret mc "hasBody" _ (d_body _ _ Hc)), bind_ret.
  destruct (f1_hasBody v) eqn:Hbv; cbn [andb]; [|eexists; split; [done|by exists mc]].
  destruct (doMerge_ret mc mv c v Hc Hv Hbv) as (m & -> & Hm & Hd).
  destruct (f1_hasBody c) eqn:Hbc.
  - rewrite bind_ret, (field_int_ret m "numStatements" _ Hm Hci), bind_ret.
    rewrite (field_int_ret mv "numStatements" _ (d_statements _ _ Hv) Hvi), bind_ret.
    specialize (Hs Hbc Hbv). rewrite decide_False by congruence.
    eexists. split; [done|]. exists m. split_and!; [done| |done]. apply Hd. symmetry.
    apply insert_id. by rewrite <- Hs.
  - rewrite bind_ret, (jindex_obj mv _ _ (d_statements _ _ Hv)), bind_ret, jset_obj.
    eexists. split; [done|]. eexists. split_and!; [done|by apply Hd|done].
Qed.

Lemma merge_callers_ret jc jv c v :
  represents jc c → represents jv v →
  ∃ j, merge_callers "parents" jc jv ⇓ j ∧ represents j (with_parents c v).
Proof.
  intros (mc & -> & Hc & Hci) (mv & -> & Hv & _). unfold merge_callers.
  rewrite (field_set_ret mv "parents" _ (d_parents _ _ Hv)), bind_ret.
  rewrite (field_set_ret mc "parents" _ (d_parents _ _ Hc)), bind_ret, jset_obj.
  eexists. split; [done|]. eexists. split_and!; [done| |done]. destruct Hc. split; cbn; by simplify_map_eq.
Qed.

Lemma represents_not_empty j n : represents j n → jempty j = false.
Proof.
  intros (m & -> & Hm & _). rewrite jempty_obj. apply bool_decide_eq_false. intros ->.
  pose proof (d_body _ _ Hm) as Hb. by rewrite lookup_empty in Hb.
Qed.

(** The graph under construction: null before the first function. *)
Definition graph_json (j : json) (M : gmap string json) : Prop := j = jobj M ∨ (j = jnull ∧ M = ∅).

Lemma graph_jindex j M k : graph_json j M → jindex j k ⇓ default jnull (M !! k).
Proof.
  intros [->|[-> ->]]; rewrite jindex_spec, jview_jmk; [done|by rewrite lookup_empty].
Qed.

Lemma graph_jset j M k v : graph_json j M → jset j k v ⇓ jobj (<[k := v]> M).
Proof. intros [->|[-> ->]]; rewrite jset_spec, jview_jmk; done. Qed.

Lemma graph_keys j M : graph_json j M → jiter_keys j ⇓ ordered_iter M.
Proof. intros [->|[-> ->]]; [apply jiter_keys_obj|rewrite jiter_keys_null; reflexivity]. Qed.

Lemma merge_function_one_ret j M k v n :
  graph_json j M → represents v n →
  (∀ c, M !! k = Some c → ∃ nc, represents c nc ∧ same_statements nc n) →
  ∃ w, merge_function_one j (k, v) ⇓ jobj (<[k := w]> M) ∧
    match M !! k with
    | None => w = v
    | Some c => ∀ nc, represents c nc → same_statements nc n → represents w (merged_function nc n)
    end.
Proof.
  intros Hj Hv Hc. unfold merge_function_one. rewrite (graph_jindex _ _ k Hj), bind_ret.
  destruct (M !! k) as [c|] eqn:Hk; cbn [from_option id].
  - destruct (Hc c eq_refl) as (nc & Hnc & Hs). rewrite (represents_not_empty _ _ Hnc).
    destruct Hj as [->|[_ ->]]; [|by rewrite lookup_empty in Hk].
    destruct (merge_bodies_one_ret c v nc n Hnc Hv Hs) as (j1 & Hj1 & Hr1).
    destruct (merge_callers_ret j1 v _ n Hr1 Hv) as (j2 & Hj2 & Hr2).
    exists j2. split.
    + apply (jupdate_obj _ _ c); [done|]. by rewrite Hj1, bind_ret.
    + intros nc' Hnc' Hs'. destruct (merge_bodies_one_ret c v nc' n Hnc' Hv Hs') as (j1' & Hj1' & Hr1').
      replace j1' with j1 in Hr1' by congruence.
      destruct (merge_callers_ret j1 v _ n Hr1' Hv) as (j2' & Hj2' & Hr2').
      by replace j2' with j2 in Hr2' by congruence.
  - rewrite jempty_spec, jview_jmk, (graph_jset _ _ k v Hj). by exists v.
Qed.

Lemma jof_set_inj X Y : jof_set X = jof_set Y → X = Y.
Proof. intros H. pose proof (jget_set_of X) as HX. rewrite H, jget_set_of in HX. congruence. Qed.

Lemma represents_inj v n n' : represents v n → represents v n' → n = n'.
Proof.
  intros (m & -> & [] & _) (m' & Hm & [] & _). apply jmk_inj in Hm. injection Hm as <-. destruct n, n'. cbn in *.
  repeat match goal with
    | H : ?l = Some ?a, H' : ?l = Some ?b |- _ => rewrite H in H'; injection H' as H'
    end.
  repeat match goal with
    | H : jof_set _ = jof_set _ |- _ => apply jof_set_inj in H
    | H : jmk _ = jmk _ |- _ => apply jmk_inj in H; injection H as H
    end.
  by subst.
Qed.

(** ** All functions of all files *)

(** [n] is the function [k] of one of the files, as the entries [E] list them. *)
Definition occurs (E : list (string * json)) (k : string) (n : function_one) : Prop :=
  ∃ v, (k, v) ∈ E ∧ represents v n.

(** Every entry describes a function; without a body it calls nothing, and bodies
    agree on the number of statements. *)
Record entries_ok (E : list (string * json)) : Prop := {
  eo_represents : ∀ k v, (k, v) ∈ E → ∃ n, represents v n;
  eo_no_body : ∀ k n, occurs E k n → f1_hasBody n = false → f1_callees n = ∅;
  eo_statements : ∀ k n n', occurs E k n → occurs E k n' → same_statements n n'
}.

(** [n] is the union of the functions called [k]. *)
Record union_of (E : list (string * json)) (k : string) (n : function_one) : Prop := {
  uo_body : f1_hasBody n = true ↔ ∃ n', occurs E k n' ∧ f1_hasBody n' = true;
  uo_callees : ∀ x, x ∈ f1_callees n ↔ ∃ n', occurs E k n' ∧ x ∈ f1_callees n';
  uo_parents : ∀ x, x ∈ f1_parents n ↔ ∃ n', occurs E k n' ∧ x ∈ f1_parents n';
  uo_statements : ∀ n', occurs E k n' → f1_hasBody n' = true → f1_numStatements n = f1_numStatements n'
}.

Definition merged_graph (E : list (string * json)) (M : gmap string json) : Prop :=
  (∀ k, is_Some (M !! k) ↔ ∃ v, (k, v) ∈ E) ∧
  ∀ k c, M !! k = Some c → ∃ n, represents c n ∧ union_of E k n.

Lemma occurs_snoc E k' v m k n :
  represents v m → occurs (E ++ [(k', v)]) k n ↔ occurs E k n ∨ (k = k' ∧ n = m).
Proof.
  intros Hv. unfold occurs. setoid_rewrite elem_of_app. setoid_rewrite list_elem_of_singleton. split.
  - intros (w & [?|[= -> ->]] & Hw); [left; by exists w|right]. split; [done|]. by eapply represents_inj.
  - intros [(w & ? & ?)|[-> ->]]; [exists w; tauto|exists v; tauto].
Qed.

Lemma union_of_new E k v n :
  represents v n → (∀ w, (k, w) ∉ E) → union_of (E ++ [(k, v)]) k n.
Proof.
  intros Hv Hk. assert (∀ n', occurs (E ++ [(k, v)]) k n' ↔ n' = n) as Ho.
  { intros n'. rewrite (occurs_snoc _ _ _ n) by done. split; [|tauto].
    intros [(w & Hw & _)|?]; [by apply Hk in Hw|tauto]. }
  split; try intros x; setoid_rewrite Ho; naive_solver.
Qed.

Lemma ex_or_eq {A} (P Q : A → Prop) (a : A) :
  (∃ x, (P x ∨ x = a) ∧ Q x) ↔ (∃ x, P x ∧ Q x) ∨ Q a.
Proof. split; [intros (x & [?| ->] & ?); [left; by exists x|by right]|intros [(x & ? & ?)|?]; eauto]. Qed.

Lemma union_of_merged E k v n nc :
  entries_ok (E ++ [(k, v)]) → represents v n → union_of E k nc →
  union_of (E ++ [(k, v)]) k (merged_function nc n).
Proof.
  intros [_ Hnb Hst] Hv [H1 H2 H3 H4].
  assert (∀ n', occurs (E ++ [(k, v)]) k n' ↔ occurs E k n' ∨ n' = n) as Ho.
  { intros n'. rewrite (occurs_snoc _ _ _ n) by done. tauto. }
  assert (f1_hasBody n = false → f1_callees n = ∅) as Hn by (apply (Hnb k), Ho; by right).
  unfold merged_function, with_parents, with_body. split; cbn.
  - setoid_rewrite Ho. rewrite ex_or_eq, <- H1. by destruct (f1_hasBody n); cbn; destruct (f1_hasBody nc); tauto.
  - intros x. setoid_rewrite Ho. rewrite ex_or_eq, <- H2. destruct (f1_hasBody n); cbn.
    + apply elem_of_union.
    + specialize (Hn eq_refl). set_solver.
  - intros x. setoid_rewrite Ho. rewrite ex_or_eq, <- H3. destruct (f1_hasBody n); cbn; apply elem_of_union.
  - intros n' Hn' Hb'. destruct (f1_hasBody n) eqn:Hb; cbn.
    + symmetry. apply (Hst k n' n); [done|apply Ho; by right|done|done].
    + apply Ho in Hn' as [Hn'| ->]; [by apply H4|congruence].
Qed.

Lemma union_of_other E k k' v n : k ≠ k' → represents v n → ∀ c, union_of E k c → union_of (E ++ [(k', v)]) k c.
Proof.
  intros Hne Hv c [H1 H2 H3 H4]. assert (∀ n', occurs (E ++ [(k', v)]) k n' ↔ occurs E k n') as Ho.
  { intros n'. rewrite (occurs_snoc _ _ _ n) by done. tauto. }
  split; try intros x; setoid_rewrite Ho; auto.
Qed.

Lemma entries_ok_prefix E E' : entries_ok (E ++ E') → entries_ok E.
Proof.
  intros [H1 H2 H3].
  assert (∀ k n, occurs E k n → occurs (E ++ E') k n) as Ho.
  { intros k n (v & Hv & ?). exists v. split; [|done]. apply elem_of_app. by left. }
  split; [|by eauto..]. intros k v Hv. apply (H1 k). apply elem_of_app. by left.
Qed.

Lemma merge_entries_ret E L j M :
  entries_ok (E ++ L) → graph_json j M → merged_graph E M →
  ∃ j' M', foldM merge_function_one j L ⇓ j' ∧ graph_json j' M' ∧ merged_graph (E ++ L) M'.
Proof.
  revert E j M. induction L as [|[k v] L IH]; intros E j M HE Hj HM.
  { exists j, M. by rewrite app_nil_r. }
  change ((k, v) :: L) with ([(k, v)] ++ L) in HE |- *. rewrite (assoc_L (++)) in HE |- *.
  pose proof (entries_ok_prefix _ _ HE) as HE1. destruct HM as [Hdom Hrep].
  destruct (eo_represents _ HE k v) as [n Hv]; [set_solver|].
  assert (∀ nc, union_of E k nc → same_statements nc n) as Hsame.
  { intros nc [Hb _ _ Hst] Hbc Hbn. apply Hb in Hbc as (n' & Hn' & Hbn'). rewrite (Hst n' Hn' Hbn').
    apply (eo_statements _ HE1 k n' n); [|by exists v; set_solver|done|done].
    apply (occurs_snoc E k v n); [done|by left]. }
  destruct (merge_function_one_ret j M k v n Hj Hv) as (w & Hw & Hspec).
  { intros c Hc. destruct (Hrep k c Hc) as (nc & Hnc & Hu). exists nc. split; [done|]. by apply Hsame. }
  cbn [app foldM]. rewrite Hw, bind_ret.
  apply (IH (E ++ [(k, v)]) _ (<[k := w]> M)); [done|by left|]. split.
  - intros k'. rewrite lookup_insert_is_Some, Hdom. setoid_rewrite elem_of_app.
    setoid_rewrite list_elem_of_singleton. destruct (decide (k = k')); naive_solver.
  - intros k' c. rewrite lookup_insert_Some. intros [[<- <-]|[Hne Hc]].
    + destruct (M !! k) as [c|] eqn:Hk.
      * destruct (Hrep k c Hk) as (nc & Hnc & Hu). exists (merged_function nc n).
        split; [apply Hspec; [done|by apply Hsame]|by apply union_of_merged].
      * subst w. exists n. split; [done|]. apply union_of_new; [done|]. intros w Hw'.
        apply eq_None_not_Some in Hk. apply Hk, Hdom. by exists w.
    + destruct (Hrep k' c Hc) as (nc & Hnc & Hu). exists nc. split; [done|].
      by apply (union_of_other _ _ _ _ n).
Qed.

(** ** The records next to the graph *)

Definition info_ext (fm fm' : FuncMapT) : Prop :=
  ∀ k fi, fm !! k = Some fi → ∃ fi', fm' !! k = Some fi' ∧
    fn_overriddenFunctions fi ⊆ fn_overriddenFunctions fi'.

#[export] Instance info_ext_refl : Reflexive info_ext.
Proof. intros fm k fi Hk. by exists fi. Qed.
#[export] Instance info_ext_trans : Transitive info_ext.
Proof.
  intros f1 f2 f3 H1 H2 k fi Hk. destruct (H1 k fi Hk) as (fi2 & Hk2 & ?).
  destruct (H2 k fi2 Hk2) as (fi3 & ? & ?). exists fi3. split; [done|set_solver].
Qed.

(** The overridden functions that the files list for [k] are in its record. *)
Definition listed (E : list (string * json)) (fm : FuncMapT) : Prop :=
  ∀ k n, occurs E k n → ∃ fi, fm !! k = Some fi ∧ f1_overriddenFunctions n ⊆ fn_overriddenFunctions fi.

(** Overriding is transitive at the functions that are followed. *)
Definition overrides_closed (fm : FuncMapT) : Prop :=
  ∀ k fi b c, fm !! k = Some fi → propagates fi = true → b ∈ fn_overriddenFunctions fi →
    c ∈ fn_overriddenFunctions (func_entry fm b) → c ∈ fn_overriddenFunctions fi.

Lemma listed_ext E fm fm' : listed E fm → info_ext fm fm' → listed E fm'.
Proof.
  intros HE Hext k n Hn. destruct (HE k n Hn) as (fi & Hfi & ?). destruct (Hext k fi Hfi) as (fi' & ? & ?).
  exists fi'. split; [done|set_solver].
Qed.

Lemma read_function_one_ret fm k v n :
  represents v n → ∃ fm', read_function_one fm (k, v) ⇓ fm' ∧ info_ext fm fm' ∧
    ∃ fi, fm' !! k = Some fi ∧ f1_overriddenFunctions n ⊆ fn_overriddenFunctions fi.
Proof.
  intros (m & -> & Hm & Hi). unfold read_function_one. set (fm1 := getOrInsert k fm).
  set (fi := func_entry fm1 k).
  rewrite (field_int_ret m "numStatements" _ (d_statements _ _ Hm) Hi), bind_ret.
  rewrite (field_bool_ret m "hasBody" _ (d_body _ _ Hm)), bind_ret.
  rewrite (field_bool_ret m "isVirtual" _ (d_virtual _ _ Hm)), bind_ret.
  rewrite (field_bool_ret m "doesOverride" _ (d_override _ _ Hm)), bind_ret.
  assert (∃ p, (if decide (-1 < f1_numStatements n)%Z
     then Ret (f1_numStatements n, f1_isVirtual n, f1_doesOverride n)
     else Ret (fn_numStatements fi, fn_isVirtual fi, fn_doesOverride fi)) ⇓ p) as [p ->]
    by (case_decide; by eexists).
  rewrite bind_ret, (field_set_ret m "callees" _ (d_callees _ _ Hm)), bind_ret.
  rewrite (field_set_ret m "overriddenFunctions" _ (d_overridden _ _ Hm)), bind_ret.
  rewrite (field_set_ret m "overriddenBy" _ (d_overriddenBy _ _ Hm)), bind_ret.
  rewrite (field_set_ret m "parents" _ (d_parents _ _ Hm)), bind_ret.
  eexists. split; [done|]. split.
  - intros k' fi' Hk'. destruct (decide (k' = k)) as [->|Hne].
    + rewrite lookup_insert_eq. eexists. split; [done|]. cbn. unfold fi, fm1, func_entry, getOrInsert.
      rewrite Hk'. cbn. rewrite Hk'. cbn. set_solver.
    + rewrite lookup_insert_ne by done. exists fi'. split; [|done]. unfold fm1, getOrInsert.
      destruct (fm !! k); [done|]. by rewrite lookup_insert_ne.
  - rewrite lookup_insert_eq. eexists. split; [done|]. cbn. set_solver.
Qed.

Lemma read_functions_one_ret L fm :
  (∀ k v, (k, v) ∈ L → ∃ n, represents v n) →
  ∃ fm', foldM read_function_one fm L ⇓ fm' ∧ info_ext fm fm' ∧ listed L fm'.
Proof.
  intros HL. apply (foldM_ind (λ dn fm', info_ext fm fm' ∧ listed dn fm')).
  { split; [done|]. intros k n (v & ?%elem_of_nil & _). done. }
  intros dn [k v] rest fm1 -> [Hext Hl]. destruct (HL k v) as [n Hv]; [set_solver|].
  destruct (read_function_one_ret fm1 k v n Hv) as (fm2 & Hr & Hext2 & Hk).
  exists fm2. split; [done|]. split; [by etrans|]. intros k' n'.
  rewrite (occurs_snoc dn k v n) by done. intros [Hn'|[-> ->]]; [|done]. by eapply listed_ext.
Qed.

Lemma propagate_info fm :
  ∃ fm' N, (∀ fuel, N ≤ fuel → propagate fuel fm ⇓ fm') ∧ info_ext fm fm' ∧ overrides_closed fm'.
Proof.
  destruct (propagate_ret fm) as (fm' & ov & pt & N & Hr & Hdom & Hfi & Hov & _).
  exists fm', N. split; [done|]. split.
  - intros k fi Hk. destruct (proj2 (Hdom k)) as [fi' Hk']; [left; by exists fi|].
    exists fi'. split; [done|]. rewrite (Hfi k fi' Hk'). unfold func_entry. rewrite Hk. cbn. set_solver.
  - intros k fi b c Hk Hp Hb Hc. rewrite (Hfi k fi Hk) in Hp, Hb |- *. cbn in *.
    destruct (fm !! k) as [fk|] eqn:Hfk; [|by unfold func_entry in Hp; rewrite Hfk in Hp].
    assert (∀ x, x ∈ fn_overriddenFunctions (func_entry fm k) ∪ set_entry ov k ↔ tc (overrides_directly fm) k x) as Htc.
    { intros x. rewrite elem_of_union, Hov. split.
      - intros [Hx|(? & ? & ? & ?)]; [by apply tc_once|done].
      - intros Hx. right. exists fk. split_and!; [done| |done]. unfold func_entry in Hp. by rewrite Hfk in Hp. }
    apply Htc in Hb. apply Htc. etrans; [exact Hb|]. unfold func_entry in Hc.
    destruct (fm' !! b) as [fb|] eqn:Hfb; [|by apply elem_of_empty in Hc]. cbn in Hc.
    rewrite (Hfi b fb Hfb) in Hc. cbn in Hc. apply elem_of_union in Hc as [Hc|Hc]; [by apply tc_once|].
    apply Hov in Hc as (? & ? & ? & ?). done.
Qed.

(** ** The files *)

Section files.
Context (files : gmap string json).

(** The functions in a file, by name. *)
Definition file_entries (filename : string) : list (string * json) :=
  match files !! filename with
  | Some j => match jview j with VObj fl => ordered_iter fl | _ => [] end
  | None => []
  end.
Definition all_entries (inputFiles : list string) : list (string * json) :=
  concat (file_entries <$> inputFiles).

Definition is_graph_file (filename : string) : Prop := ∃ fl, files !! filename = Some (jobj fl).

Lemma all_entries_snoc dn name : all_entries (dn ++ [name]) = all_entries dn ++ file_entries name.
Proof. unfold all_entries. rewrite fmap_app, concat_app. cbn. by rewrite app_nil_r. Qed.

Lemma merge_file_one_ret E fm j M name :
  is_graph_file name → entries_ok (E ++ file_entries name) →
  graph_json j M → merged_graph E M → listed E fm →
  ∃ fm' j' M' N, (∀ fuel, N ≤ fuel → merge_file_one files fuel (fm, j) name ⇓ (fm', j')) ∧
    graph_json j' M' ∧ merged_graph (E ++ file_entries name) M' ∧
    listed (E ++ file_entries name) fm' ∧ overrides_closed fm'.
Proof.
  intros [fl Hfl] HE Hj HM Hl. assert (file_entries name = ordered_iter fl) as Hent.
  { unfold file_entries. by rewrite Hfl, jview_jmk. }
  destruct (read_functions_one_ret (ordered_iter fl) fm) as (fm1 & Hr1 & Hext1 & Hl1).
  { intros k v Hv. apply (eo_represents _ HE k). rewrite Hent. apply elem_of_app. by right. }
  destruct (propagate_info fm1) as (fm2 & N & Hr2 & Hext2 & Hclosed).
  destruct (merge_entries_ret E (file_entries name) j M HE Hj HM) as (j' & M' & Hr3 & Hj' & HM').
  exists fm2, j', M', N. split; [|split; [done|]; split; [done|]; split; [|done]].
  - intros fuel Hf. unfold merge_file_one, buildFromJSON, readIPCG. cbn [fst snd].
    rewrite Hfl, bind_ret, jiter_keys_obj, bind_ret, Hr1, bind_ret, Hr2 by done. cbn [fst snd].
    rewrite !bind_ret. cbn [fst snd]. by rewrite jiter_keys_obj, bind_ret, <- Hent, Hr3, bind_ret.
  - intros k n (v & [Hv|Hv]%elem_of_app & Hn).
    + apply (listed_ext E fm); [done|by etrans|by exists v].
    + apply (listed_ext _ _ _ Hl1 Hext2). exists v. by rewrite <- Hent.
Qed.

Lemma merge_files_ret dn L fm j M :
  (∀ name, name ∈ L → is_graph_file name) → entries_ok (all_entries (dn ++ L)) →
  graph_json j M → merged_graph (all_entries dn) M → listed (all_entries dn) fm →
  (dn = [] ∨ overrides_closed fm) →
  ∃ fm' j' M' N, (∀ fuel, N ≤ fuel → foldM (merge_file_one files fuel) (fm, j) L ⇓ (fm', j')) ∧
    graph_json j' M' ∧ merged_graph (all_entries (dn ++ L)) M' ∧
    listed (all_entries (dn ++ L)) fm' ∧ (dn ++ L = [] ∨ overrides_closed fm').
Proof.
  revert dn fm j M. induction L as [|name L IH]; intros dn fm j M HL HE Hj HM Hl Hc.
  { exists fm, j, M, 0. by rewrite app_nil_r. }
  change (name :: L) with ([name] ++ L) in HE |- *. rewrite (assoc_L (++)) in HE |- *.
  assert (entries_ok (all_entries dn ++ file_entries name)) as HE1.
  { rewrite <- all_entries_snoc. apply (entries_ok_prefix _ (all_entries L)).
    unfold all_entries in *. by rewrite <- concat_app, <- fmap_app. }
  destruct (merge_file_one_ret _ fm j M name ltac:(apply HL; set_solver) HE1 Hj HM Hl)
    as (fm1 & j1 & M1 & N1 & Hr1 & Hj1 & HM1 & Hl1 & Hc1).
  rewrite <- all_entries_snoc in HM1, Hl1.
  destruct (IH (dn ++ [name]) fm1 j1 M1) as (fm2 & j2 & M2 & N2 & Hr2 & H2);
    [set_solver|done|done|done|done|by right|].
  exists fm2, j2, M2, (N1 + N2). split; [|exact H2]. intros fuel Hf.
  cbn [app foldM]. rewrite Hr1 by lia. rewrite bind_ret. apply Hr2. lia.
Qed.

(** ** The overridden functions are stored at the end *)

(** The object of function [k] afterwards. *)
Definition stored (fm : FuncMapT) (k : string) (c w : json) : Prop :=
  match fm !! k with
  | None => w = c
  | Some fi => ∃ m, c = jobj m ∧ w = jobj (<["overriddenFunctions" := jof_set (fn_overriddenFunctions fi)]>
                                   (<["overriddenBy" := jof_set (fn_overriddenBy fi)]> m))
  end.

(** A loop over an object that replaces the values one by one. *)
Lemma update_all_ret (f : json → string * json → outcome json) (R : string → json → json → Prop) M :
  (∀ M' k c, M !! k = Some c → M' !! k = Some c →
     ∃ w, f (jobj M') (k, c) ⇓ jobj (<[k := w]> M') ∧ R k c w) →
  ∃ M', foldM f (jobj M) (ordered_iter M) ⇓ jobj M' ∧ (∀ k, is_Some (M' !! k) ↔ is_Some (M !! k)) ∧
    ∀ k w, M' !! k = Some w → ∃ c, M !! k = Some c ∧ R k c w.
Proof.
  intros Hf.
  destruct (foldM_ind (λ dn j, ∃ M', j = jobj M' ∧ (∀ k, is_Some (M' !! k) ↔ is_Some (M !! k)) ∧
     (∀ k, k ∈ dn.*1 → ∀ w, M' !! k = Some w → ∃ c, M !! k = Some c ∧ R k c w) ∧
     ∀ k, k ∉ dn.*1 → M' !! k = M !! k) f (ordered_iter M) (jobj M)) as (j & Hr & M' & -> & Hd & Hin & _).
  - exists M. split_and!; [done|done|set_solver|done].
  - intros dn [k c] rest j Hl (M' & -> & Hd & Hin & Hout).
    assert (M !! k = Some c) as Hk by (apply elem_of_ordered_iter; rewrite Hl; set_solver).
    assert (k ∉ dn.*1) as Hnew.
    { pose proof (ordered_iter_NoDup_fst M) as Hnd. rewrite Hl, fmap_app, NoDup_app in Hnd. set_solver. }
    pose proof (Hout k Hnew) as Hk'. rewrite Hk in Hk'. destruct (Hf M' k c Hk Hk') as (w & Hw & Hs).
    exists (jobj (<[k := w]> M')). split; [exact Hw|]. exists (<[k := w]> M'). split; [done|]. split_and!.
    + intros k'. rewrite lookup_insert_is_Some, Hd. destruct (decide (k = k')) as [->|]; naive_solver.
    + intros k'. rewrite fmap_app, elem_of_app. intros Hk2 w'. rewrite lookup_insert_Some.
      intros [[<- <-]|[Hne Hw']]; [by exists c|]. destruct Hk2 as [Hk2|Hk2]; [by eapply Hin|set_solver].
    + intros k'. rewrite fmap_app, elem_of_app. intros Hk2. rewrite lookup_insert_ne by set_solver.
      apply Hout. set_solver.
  - exists M'. split; [done|]. split; [done|]. intros k w Hw. apply (Hin k); [|done].
    destruct (proj1 (Hd k)) as [c Hc]; [by exists w|]. apply list_elem_of_fmap. exists (k, c).
    split; [done|]. by apply elem_of_ordered_iter.
Qed.

Lemma store_overrides_ret fm M :
  (∀ k c, M !! k = Some c → ∃ m, c = jobj m) →
  ∃ M', foldM (store_overrides fm) (jobj M) (ordered_iter M) ⇓ jobj M' ∧
    (∀ k, is_Some (M' !! k) ↔ is_Some (M !! k)) ∧
    ∀ k w, M' !! k = Some w → ∃ c, M !! k = Some c ∧ stored fm k c w.
Proof.
  intros Hobj. apply (update_all_ret _ (stored fm)). intros M' k c Hk Hc.
  destruct (Hobj k c Hk) as [m ->]. unfold store_overrides, stored. cbn [fst]. destruct (fm !! k) as [fi|].
  - eexists. split; [|by exists m]. apply (jupdate_obj _ _ (jobj m)); [done|].
    by rewrite jset_obj, bind_ret, jset_obj.
  - exists (jobj m). split; [|done]. by rewrite insert_id.
Qed.

(** The merged function with its final lists. *)
Definition with_stored (n : function_one) (fi : FunctionInfo) : function_one :=
  mkFunctionOne (f1_callees n) (f1_parents n) (fn_overriddenFunctions fi) (fn_overriddenBy fi)
    (f1_isVirtual n) (f1_doesOverride n) (f1_hasBody n) (f1_numStatements n).

Lemma stored_represents fm k fi c w n :
  fm !! k = Some fi → stored fm k c w → represents c n → represents w (with_stored n fi).
Proof.
  unfold stored. intros -> (m & -> & ->) (m' & Hm & [] & Hi). apply jmk_inj in Hm. injection Hm as <-.
  eexists. split; [done|]. split; [|done]. split; cbn; by simplify_map_eq.
Qed.

(** C20: The merge of files of format 1: given files whose functions without a
    body call nothing and whose bodies agree on the number of statements, the
    result holds exactly the functions of the inputs; a function has a body if
    one of the inputs has it, its callees and its callers are the unions of those
    in the inputs, the number of statements is that of the body; every overridden
    function that an input lists is listed, and at virtual functions that
    override, the lists are closed transitively. *)
Theorem mergeFileFormatOne_union whole inputFiles :
  files !! whole = Some jnull → inputFiles ≠ [] →
  (∀ name, name ∈ inputFiles → is_graph_file name) → entries_ok (all_entries inputFiles) →
  ∃ j M fm N, (∀ fuel, N ≤ fuel → mergeFileFormatOne files fuel whole inputFiles ⇓ j) ∧
    graph_json j M ∧ (∀ k, is_Some (M !! k) ↔ ∃ n, occurs (all_entries inputFiles) k n) ∧
    (∀ k w, M !! k = Some w → ∃ n fi, represents w n ∧ union_of (all_entries inputFiles) k n ∧
       fm !! k = Some fi ∧ f1_overriddenFunctions n = fn_overriddenFunctions fi) ∧
    (∀ k n', occurs (all_entries inputFiles) k n' → ∃ fi, fm !! k = Some fi ∧
       f1_overriddenFunctions n' ⊆ fn_overriddenFunctions fi) ∧
    overrides_closed fm.
Proof.
  intros Hwhole Hne Hfiles HE.
  destruct (merge_files_ret [] inputFiles ∅ jnull ∅) as (fm & j & M0 & N & Hr & Hj & [HM1 HM2] & Hl & Hc);
    [done|done|by right| | |by left|].
  { split; [intros k; rewrite lookup_empty; split; [by intros []|set_solver]|done]. }
  { intros k n (v & ?%elem_of_nil & _). done. }
  cbn [app] in *. destruct Hc as [?|Hc]; [done|].
  assert (∀ k, is_Some (M0 !! k) ↔ ∃ n, occurs (all_entries inputFiles) k n) as Hdom.
  { intros k. rewrite HM1. split.
    - intros [v Hv]. destruct (eo_represents _ HE k v Hv) as [n Hn]. by exists n, v.
    - intros (n & v & Hv & _). by exists v. }
  destruct (store_overrides_ret fm M0) as (M & Hst & Hd & Hs).
  { intros k c Hk. destruct (HM2 k c Hk) as (n & (m & -> & _) & _). by exists m. }
  assert (∃ j', foldM (store_overrides fm) j (ordered_iter M0) ⇓ j' ∧ graph_json j' M) as (j' & Hst' & Hj').
  { destruct Hj as [->|[-> ->]]; [by exists (jobj M); split; [|left]|]. exists jnull. split; [done|].
    right. split; [done|]. cbn in Hst. injection Hst as Hst. apply jmk_inj in Hst. by injection Hst. }
  exists j', M, fm, N. split_and!.
  - intros fuel Hf. unfold mergeFileFormatOne, readIPCG. rewrite Hwhole, bind_ret, Hr, bind_ret by done.
    cbn [fst snd]. by rewrite (graph_keys _ _ Hj), bind_ret.
  - exact Hj'.
  - intros k. by rewrite Hd, Hdom.
  - intros k w Hw. destruct (Hs k w Hw) as (c & Hk & Hsc). destruct (HM2 k c Hk) as (n & Hn & Hu).
    destruct (proj1 (Hdom k)) as (n' & Ho); [by exists c|]. destruct (Hl k n' Ho) as (fi & Hfi & _).
    exists (with_stored n fi), fi. split_and!; [by eapply stored_represents|by destruct Hu|done|done].
  - exact Hl.
  - exact Hc.
Qed.
End files.

(** ** Loop call depths *)

(** A map of depths as JSON. *)
Definition depth_json (m : gmap string Z) : json := jobj ((λ z, jint z) <$> m).
Definition all_int (m : gmap string Z) : Prop := ∀ k z, m !! k = Some z → is_int z.

(** The larger depth, for the functions of both maps. *)
Definition max_depths (m1 m2 : gmap string Z) : gmap string Z :=
  union_with (λ a b, Some (Z.max a b)) m1 m2.

Lemma depth_json_at m k z : m !! k = Some z → jat (depth_json m) k ⇓ jint z.
Proof. intros Hk. apply jat_obj. by rewrite lookup_fmap, Hk. Qed.
Lemma depth_json_contains m k : jcontains (depth_json m) k = bool_decide (is_Some (m !! k)).
Proof. unfold depth_json. rewrite jcontains_obj, lookup_fmap. apply bool_decide_ext. by rewrite fmap_is_Some. Qed.
Lemma depth_json_set m k z : jset (depth_json m) k (jint z) ⇓ depth_json (<[k := z]> m).
Proof. unfold depth_json. by rewrite jset_obj, fmap_insert. Qed.
Lemma elem_of_depth_items m k j : (k, j) ∈ jitems (depth_json m) ↔ ∃ z, m !! k = Some z ∧ j = jint z.
Proof. unfold depth_json. rewrite elem_of_jitems, lookup_fmap_Some. naive_solver. Qed.

(** The map after the functions in [dn]: raised where both have a depth. *)
Lemma raise_depths_ret m1 m2 :
  all_int m1 → all_int m2 →
  ∃ m, foldM (raise_depth (depth_json m2)) (depth_json m1) (jitems (depth_json m1)) ⇓ depth_json m ∧
    ∀ k, m !! k = (λ a, Z.max a (default a (m2 !! k))) <$> m1 !! k.
Proof.
  intros H1 H2.
  destruct (foldM_ind (λ dn j, ∃ m, j = depth_json m ∧ ∀ k, m !! k =
      if decide (k ∈ dn.*1) then (λ a, Z.max a (default a (m2 !! k))) <$> m1 !! k else m1 !! k)
    (raise_depth (depth_json m2)) (jitems (depth_json m1)) (depth_json m1)) as (j & Hr & m & -> & Hm).
  - exists m1. split; [done|]. intros k. by rewrite decide_False by (apply not_elem_of_nil).
  - intros dn [k v] rest j Hl (m & -> & Hm).
    assert ((k, v) ∈ jitems (depth_json m1)) as (a & Ha & ->)%elem_of_depth_items by (rewrite Hl; set_solver).
    unfold raise_depth. cbn [fst snd]. rewrite depth_json_contains.
    assert (∀ m' x, Z.max a (default a (m2 !! k)) = x → m' = <[k := x]> m → ∀ k', m' !! k' =
      if decide (k' ∈ (dn ++ [(k, jint a)]).*1) then (λ a, Z.max a (default a (m2 !! k'))) <$> m1 !! k'
      else m1 !! k') as Hstep.
    { intros m' x Hx -> k'. destruct (decide (k' = k)) as [->|Hne].
      - rewrite lookup_insert_eq, decide_True by (rewrite fmap_app; set_solver). rewrite Ha. cbn. by rewrite Hx.
      - rewrite lookup_insert_ne, Hm by done. apply decide_ext. rewrite fmap_app. set_solver. }
    destruct (m2 !! k) as [b|] eqn:Hb; cbn in Hstep.
    + rewrite bool_decide_true by (by eexists). rewrite (depth_json_at m2 k b Hb), bind_ret.
      rewrite jget_int_jint, bind_ret by (by eapply H2). unfold int_above. rewrite jview_jmk.
      case_bool_decide as Hlt.
      * rewrite depth_json_set. eexists. split; [done|]. eexists. split; [done|]. eapply Hstep; [|done]. lia.
      * exists (depth_json m). split; [done|]. exists m. split; [done|]. eapply (Hstep m a); [lia|].
        rewrite insert_id; [done|]. rewrite Hm. case_decide; rewrite Ha, ?Hb; cbn; f_equal; lia.
    + rewrite bool_decide_false by (by intros []). exists (depth_json m). split; [done|]. exists m.
      split; [done|]. eapply (Hstep m a); [lia|]. rewrite insert_id; [done|]. rewrite Hm.
      case_decide; rewrite Ha, ?Hb; cbn; f_equal; lia.
  - exists m. split; [exact Hr|]. intros k. rewrite Hm. case_decide as Hk; [done|].
    destruct (m1 !! k) as [a|] eqn:Ha; [|done]. exfalso. apply Hk, list_elem_of_fmap. exists (k, jint a).
    split; [done|]. apply elem_of_depth_items. by exists a.
Qed.

Lemma add_depths_ret m m2 :
  foldM add_depth (depth_json m) (jitems (depth_json m2)) ⇓ depth_json (m ∪ m2).
Proof.
  destruct (foldM_ind (λ dn j, ∃ m', j = depth_json m' ∧ ∀ k, m' !! k =
      if decide (k ∈ dn.*1) then m !! k ∪ m2 !! k else m !! k)
    add_depth (jitems (depth_json m2)) (depth_json m)) as (j & Hr & m' & -> & Hm').
  - exists m. split; [done|]. intros k. by rewrite decide_False by (apply not_elem_of_nil).
  - intros dn [k v] rest j Hl (m' & -> & Hm').
    assert ((k, v) ∈ jitems (depth_json m2)) as (b & Hb & ->)%elem_of_depth_items by (rewrite Hl; set_solver).
    assert (k ∉ dn.*1) as Hnew.
    { pose proof (jitems_NoDup ((λ z, jint z) <$> m2)) as Hnd. unfold depth_json in Hl.
      rewrite Hl, fmap_app, NoDup_app in Hnd. set_solver. }
    pose proof (Hm' k) as Hk. rewrite decide_False in Hk by done.
    unfold add_depth. cbn [fst snd]. rewrite depth_json_contains, Hk.
    assert (∀ m'' : gmap string Z, (∀ k', m'' !! k' = if decide (k' = k) then m !! k ∪ m2 !! k else m' !! k') →
      ∀ k', m'' !! k' = if decide (k' ∈ (dn ++ [(k, jint b)]).*1) then m !! k' ∪ m2 !! k' else m !! k') as Hstep.
    { intros m'' Hm'' k'. rewrite Hm''. destruct (decide (k' = k)) as [->|Hne].
      - rewrite decide_True by (rewrite fmap_app; set_solver). done.
      - rewrite Hm'. apply decide_ext. rewrite fmap_app. set_solver. }
    destruct (m !! k) as [a|] eqn:Ha.
    + rewrite bool_decide_true by (by eexists). exists (depth_json m'). split; [done|]. exists m'.
      split; [done|]. apply Hstep. intros k'. case_decide as Hd; [subst k'|done]. by rewrite Hk, Hb.
    + rewrite bool_decide_false by (by intros []). rewrite depth_json_set. eexists. split; [done|].
      eexists. split; [done|]. apply Hstep. intros k'. case_decide as Hd.
      * subst k'. by rewrite lookup_insert_eq, Hb.
      * by rewrite lookup_insert_ne.
  - rewrite Hr. f_equal. f_equal. apply map_eq. intros k. rewrite Hm', lookup_union.
    case_decide as Hk; [done|]. destruct (m2 !! k) as [b|] eqn:Hb; [|by destruct (m !! k)].
    exfalso. apply Hk, list_elem_of_fmap. exists (k, jint b). split; [done|]. apply elem_of_depth_items. by exists b.
Qed.

(** When two files of format 2 know loop depths of the calls in a function,
    the merge keeps for every called function of either file the larger of its
    depths: the order of the files does not matter. *)
Theorem merge_depth_maps_max m1 m2 :
  all_int m1 → all_int m2 → merge_depth_maps (depth_json m1) (depth_json m2) ⇓ depth_json (max_depths m1 m2).
Proof.
  intros H1 H2. unfold merge_depth_maps. destruct (raise_depths_ret m1 m2 H1 H2) as (m & -> & Hm).
  rewrite bind_ret, add_depths_ret. f_equal. f_equal. apply map_eq. intros k.
  unfold max_depths. rewrite lookup_union, Hm, lookup_union_with.
  destruct (m1 !! k) as [a|], (m2 !! k) as [b|]; cbn; [done|by rewrite Z.max_id|done|done].
Qed.
End merge.
