(* ===== verification/CollectorExamples.v ===== *)
(** * The collector's tools: concrete runs *)

From S2P Require Import Prelude Worklist Json Collector CollectorProps.
From S2P Require Import CallDepth CollectorMerge CollectorMergeProps.

Module CollectorExample.

#[local] Existing Instance canonical_order.
#[local] Existing Instance JsonTree.ops.
#[local] Existing Instance JsonTree.laws.

(** ** Files of format 1 *)

(** The object that the collector writes for a function. *)
Definition node_fields (n : function_one) : gmap string json :=
  list_to_map [("callees", jof_set (f1_callees n)); ("isVirtual", jbool (f1_isVirtual n));
    ("doesOverride", jbool (f1_doesOverride n));
    ("overriddenFunctions", jof_set (f1_overriddenFunctions n));
    ("overriddenBy", jof_set (f1_overriddenBy n)); ("parents", jof_set (f1_parents n));
    ("hasBody", jbool (f1_hasBody n)); ("numStatements", jint (f1_numStatements n))].

Lemma node_fields_represents n : is_int (f1_numStatements n) → represents (jobj (node_fields n)) n.
Proof. intros Hn. exists (node_fields n). split; [done|]. split; [|done]. by split. Qed.

Definition file_of (fl : list (string * function_one)) : json :=
  jobj ((λ n, jobj (node_fields n)) <$> (list_to_map fl : gmap string function_one)).

(** What the merge requires, as a check on the functions of all files. *)
Definition check_functions (L : list (string * function_one)) : bool :=
  forallb (λ e, bool_decide (is_int (f1_numStatements e.2)) &&
    (f1_hasBody e.2 || bool_decide (f1_callees e.2 = ∅)) &&
    forallb (λ e', negb (bool_decide (e.1 = e'.1) && f1_hasBody e.2 && f1_hasBody e'.2) ||
      bool_decide (f1_numStatements e.2 = f1_numStatements e'.2)) L) L.

Lemma check_functions_ok E L :
  check_functions L = true → (∀ k v, (k, v) ∈ E → ∃ n, (k, n) ∈ L ∧ v = jobj (node_fields n)) →
  entries_ok E.
Proof.
  intros Hc HE. unfold check_functions in Hc. rewrite forallb_forall in Hc.
  assert (∀ k n, occurs E k n → (k, n) ∈ L) as Ho.
  { intros k n (v & Hv & Hn). destruct (HE k v Hv) as (n' & Hn' & ->).
    pose proof (Hc _ (proj1 (list_elem_of_In _ _) Hn')) as Hchk. rewrite !andb_true_iff in Hchk.
    destruct Hchk as [[Hi%bool_decide_eq_true _] _].
    by rewrite (represents_inj _ _ _ Hn (node_fields_represents n' Hi)). }
  assert (∀ k n, (k, n) ∈ L → is_int (f1_numStatements n) ∧ (f1_hasBody n = false → f1_callees n = ∅) ∧
    ∀ n', (k, n') ∈ L → same_statements n n') as HL.
  { intros k n Hn. pose proof (Hc _ (proj1 (list_elem_of_In _ _) Hn)) as Hchk. cbn [fst snd] in Hchk.
    rewrite !andb_true_iff, bool_decide_eq_true, forallb_forall in Hchk. destruct Hchk as [[Hi Hb] Hp].
    split_and!; [done|intros Hf; rewrite Hf in Hb; by apply bool_decide_eq_true in Hb|].
    intros n' Hn' H1 H2. specialize (Hp _ (proj1 (list_elem_of_In _ _) Hn')). cbn [fst snd] in Hp.
    rewrite H1, H2, bool_decide_true in Hp by done. by apply bool_decide_eq_true in Hp. }
  split.
  - intros k v Hv. destruct (HE k v Hv) as (n & Hn & ->). exists n. by apply node_fields_represents, (HL k).
  - intros k n Hn%Ho. by apply (HL k n).
  - intros k n n' Hn%Ho Hn'%Ho. by apply (HL k n).
Qed.

(** [f] calls [g], which the first file only declares; [g] overrides [h], which
    overrides [i]. *)
Definition first_file : list (string * function_one) := [
  ("f", mkFunctionOne {["g"]} ∅ ∅ ∅ false false true 3);
  ("g", mkFunctionOne ∅ {["f"]} {["h"]} ∅ true true false 5)].
Definition second_file : list (string * function_one) := [
  ("g", mkFunctionOne {["k"]} {["m"]} {["h"]} ∅ true true true 5);
  ("h", mkFunctionOne ∅ ∅ {["i"]} ∅ true true true 1)].

Definition disk : gmap string json :=
  list_to_map [("whole", jnull); ("a", file_of first_file); ("b", file_of second_file)].

Lemma disk_entries k v :
  (k, v) ∈ all_entries disk ["a"; "b"] → ∃ n, (k, n) ∈ first_file ++ second_file ∧ v = jobj (node_fields n).
Proof.
  assert (∀ fl name, disk !! name = Some (file_of fl) → (k, v) ∈ file_entries disk name →
    ∃ n, (k, n) ∈ fl ∧ v = jobj (node_fields n)) as Hfile.
  { intros fl name Hn. unfold file_entries, file_of in *. rewrite Hn.
    change (jview (jobj ?m)) with (VObj m). rewrite elem_of_ordered_iter, lookup_fmap_Some.
    intros (n & <- & Hk%elem_of_list_to_map_2). by exists n. }
  change (all_entries disk ["a"; "b"]) with (file_entries disk "a" ++ file_entries disk "b" ++ []).
  rewrite !elem_of_app. intros [H|[H|H%elem_of_nil]]; [| |done].
  - destruct (Hfile first_file "a" eq_refl H) as (n & ? & ?). exists n. set_solver.
  - destruct (Hfile second_file "b" eq_refl H) as (n & ? & ?). exists n. set_solver.
Qed.

Lemma mergeFileFormatOne_union_witness :
  entries_ok (all_entries disk ["a"; "b"]) ∧
  ∃ j M fm N, (∀ fuel, N ≤ fuel → mergeFileFormatOne disk fuel "whole" ["a"; "b"] ⇓ j) ∧
    graph_json j M ∧ (∀ k, is_Some (M !! k) ↔ ∃ n, occurs (all_entries disk ["a"; "b"]) k n) ∧
    overrides_closed fm.
Proof.
  assert (entries_ok (all_entries disk ["a"; "b"])) as HE.
  { apply (check_functions_ok _ (first_file ++ second_file)); [vm_compute; reflexivity|apply disk_entries]. }
  split; [exact HE|].
  destruct (mergeFileFormatOne_union (JL := JsonTree.laws) disk "whole" ["a"; "b"])
    as (j & M & fm & N & Hr & Hj & Hd & _ & _ & Hc).
  - reflexivity.
  - discriminate.
  - intros name [->|[->|?%elem_of_nil]%elem_of_cons]%elem_of_cons; [eexists; reflexivity..|done].
  - exact HE.
  - exists j, M, fm, N. split; [exact Hr|]. split; [exact Hj|]. split; [exact Hd|exact Hc].
Defined.

(** The list of overridden functions of [name] in the merged file. *)
Definition overridden_after (merged : outcome json) (key name : string) : option (list string) :=
  match (j ← merged; v ← jindex j name; X ← field_set v key; Ret (ordered_set X)) with
  | Ret l => Some l
  | _ => None
  end.

(** [g] overrides [h] and, through it, [i]. *)
Lemma merge_one_closes :
  overridden_after (mergeFileFormatOne disk 10 "whole" ["a"; "b"]) "overriddenFunctions" "g" = Some ["h"; "i"] ∧
  overridden_after (mergeFileFormatOne disk 10 "whole" ["a"; "b"]) "callees" "g" = Some ["k"] ∧
  overridden_after (mergeFileFormatOne disk 10 "whole" ["a"; "b"]) "parents" "g" = Some ["f"; "m"].
Proof. vm_compute. split_and!; reflexivity. Qed.

(** ** Files of format 2 *)

Definition node_two (overrides : FunctionNames) : json :=
  jfields [("callees", jof_set ∅); ("isVirtual", jbool true); ("doesOverride", jbool true);
    ("overrides", jof_set overrides); ("overriddenBy", jof_set ∅); ("callers", jof_set ∅);
    ("hasBody", jbool true);
    ("meta", jfields [("numStatements", jint 1);
      ("fileProperties", jfields [("origin", jstr "a.cpp"); ("systemInclude", jbool false)])])].

Definition graph_two : json :=
  jfields [("g", node_two {["h"]}); ("h", node_two {["i"]}); ("i", node_two ∅)].
Definition disk_two : gmap string json := {["a" := jfields [("_CG", graph_two)]]}.

Definition built_two : FuncMapT :=
  match buildFromJSONv2 disk_two 10 ∅ "a" with Ret r => r.1.1 | _ => ∅ end.

Lemma built_two_ret :
  ∃ j jj, buildFromJSONv2 disk_two 10 ∅ "a" ⇓ (built_two, j, jj).
Proof.
  unfold built_two. destruct (buildFromJSONv2 disk_two 10 ∅ "a") as [[[fm j] jj]| | | |] eqn:H;
    [by exists j, jj|exfalso..];
    assert (match buildFromJSONv2 disk_two 10 ∅ "a" with Ret _ => true | _ => false end = true) as Hb
      by (vm_compute; reflexivity); rewrite H in Hb; discriminate Hb.
Qed.

Lemma buildFromJSONv2_never_propagates_witness :
  no_overrider ∅ ∧ no_overrider built_two.
Proof.
  assert (no_overrider ∅) as H0 by (intros k fi Hk; rewrite lookup_empty in Hk; discriminate Hk).
  split; [exact H0|]. destruct built_two_ret as (j & jj & Hr).
  exact (proj1 (buildFromJSONv2_never_propagates disk_two 10 ∅ "a" built_two j jj H0 Hr)).
Defined.

(** The same hierarchy as in format 1: [i] is missing. *)
Lemma built_two_not_closed :
  ordered_set (fn_overriddenFunctions (func_entry built_two "g")) = ["h"] ∧
  ordered_set (fn_overriddenFunctions (func_entry built_two "h")) = ["i"].
Proof. vm_compute. split; reflexivity. Qed.

(** ** Loop depths *)

(** [main] calls [f] in two loops, which calls [g] in one; [g] calls [f] back. *)
Definition call_depths : gmap string (gmap string Z) :=
  {["main" := {["f" := 2%Z]}; "f" := {["g" := 1%Z]}; "g" := {["f" := 0%Z]}]}.
Definition loop_depths : gmap string Z := {["main" := 2%Z; "f" := 1%Z; "g" := 4%Z]}.

(** The bounds, as a check. *)
Definition check_depths (W : Z) : bool :=
  forallb (λ e, forallb (λ c, bool_decide (is_Some (call_depths !! c.1)) && bool_decide (0 ≤ c.2 ≤ W)%Z)
    (map_to_list e.2)) (map_to_list call_depths).

Lemma call_depths_ok : depths_ok call_depths loop_depths 2 4.
Proof.
  assert (check_depths 2 = true) as Hc by (vm_compute; reflexivity).
  assert (∀ a b w, calls_at call_depths a b w → is_Some (call_depths !! b) ∧ (0 ≤ w ≤ 2)%Z) as Hall.
  { intros a b w (c & Ha & Hb). unfold check_depths in Hc. rewrite forallb_forall in Hc.
    specialize (Hc (a, c)). rewrite <- list_elem_of_In, elem_of_map_to_list in Hc. specialize (Hc Ha).
    rewrite forallb_forall in Hc. specialize (Hc (b, w)).
    rewrite <- list_elem_of_In, elem_of_map_to_list in Hc. specialize (Hc Hb).
    by rewrite andb_true_iff, !bool_decide_eq_true in Hc. }
  split.
  - intros a b w H. by apply (Hall a b w).
  - intros a b w H. by apply (Hall a b w).
  - intros a. unfold map_lookup, loop_depths. rewrite !lookup_insert, lookup_singleton.
    repeat case_decide; cbn; lia.
  - lia.
  - vm_compute. discriminate.
Qed.

Lemma global_depths_longest_chains_witness :
  size call_depths < 4 ∧
  ∃ gld, global_depths call_depths loop_depths 4 (entryPoints call_depths true) ⇓ gld ∧
    ∃ r, gld !! "main" = Some r ∧ max_chain call_depths loop_depths ∅ "main" r.
Proof.
  assert (size call_depths < 4) as Hs by (vm_compute; lia). split; [exact Hs|].
  destruct (global_depths_longest_chains call_depths loop_depths 2 4 call_depths_ok 4 true Hs)
    as (gld & Hr & _ & He).
  exists gld. split; [exact Hr|]. apply He. split; [eexists; reflexivity|reflexivity].
Defined.

(** [main] reaches depth 7: two loops, one more, and the four of [g]. *)
Lemma main_depth :
  match global_depths call_depths loop_depths 4 ["main"] with
  | Ret gld => bool_decide (gld !! "main" = Some 7%Z ∧ gld !! "f" = Some 5%Z ∧ gld !! "g" = Some 4%Z)
  | _ => false
  end = true.
Proof. vm_compute. reflexivity. Qed.

Lemma merge_depth_maps_max_witness :
  all_int {["a" := 1%Z]} ∧
  merge_depth_maps (depth_json {["a" := 1%Z]}) (depth_json {["a" := 3%Z]}) ⇓
    depth_json (max_depths {["a" := 1%Z]} {["a" := 3%Z]}).
Proof.
  assert (∀ z, is_int z → all_int {["a" := z]}) as Hi.
  { intros z Hz k z' [<- <-]%lookup_singleton_Some. exact Hz. }
  assert (is_int 1 ∧ is_int 3) as [H1 H3] by (unfold is_int, INT_MIN, INT_MAX; lia).
  split; [apply Hi, H1|].
  exact (merge_depth_maps_max (JL := JsonTree.laws) {["a" := 1%Z]} {["a" := 3%Z]} (Hi _ H1) (Hi _ H3)).
Defined.
End CollectorExample.
