(* ===== verification/AliasNames.v ===== *)
(** * Objects of the alias analysis

    [cgcollector/lib/include/AliasAnalysis.h] and
    [cgcollector/lib/src/AliasAnalysis.cpp]: the names of memory locations with
    their dereference level, members of objects, and the prefixes that connect
    equivalence classes; their orders, which the [std::set] of objects and the
    sorted vectors of prefixes use, and their string representations, under
    which the classes are found. *)

From Stdlib Require Import Ascii.
From S2P Require Import Prelude.

Record ObjectName := mkObjectName {
  Object : string;
  Function_ : bool
}.

(** Exactly one of the pointers [OB] and [MB] is set; level 0 is a variable, 1
    stands for [*], -1 for [&]. *)
Inductive ObjectNameDereference :=
  | derefOB (OB : ObjectName) (DereferenceLevel : Z)
  | derefMB (MB : ObjectNameMember) (DereferenceLevel : Z)
with ObjectNameMember :=
  | mkMember (DB : ObjectNameDereference) (Member : string).

Definition DereferenceLevel (d : ObjectNameDereference) : Z :=
  match d with derefOB _ l | derefMB _ l => l end.
Definition getOb (d : ObjectNameDereference) : option ObjectName :=
  match d with derefOB o _ => Some o | derefMB _ _ => None end.
Definition getMb (d : ObjectNameDereference) : option ObjectNameMember :=
  match d with derefOB _ _ => None | derefMB m _ => Some m end.
Definition member_DB (m : ObjectNameMember) : ObjectNameDereference := let 'mkMember d _ := m in d.
Definition member_Member (m : ObjectNameMember) : string := let 'mkMember _ n := m in n.
Definition set_level (d : ObjectNameDereference) (l : Z) : ObjectNameDereference :=
  match d with derefOB o _ => derefOB o l | derefMB m _ => derefMB m l end.

(** ** Comparison *)

Definition ObjectName_eqb (a b : ObjectName) : bool := bool_decide (Object a = Object b).
Definition ObjectName_ltb (a b : ObjectName) : bool := String.ltb (Object a) (Object b).

Fixpoint deref_eqb (a b : ObjectNameDereference) : bool :=
  match a, b with
  | derefOB o l, derefOB o' l' => ObjectName_eqb o o' && bool_decide (l = l')
  | derefMB m l, derefMB m' l' => member_eqb m m' && bool_decide (l = l')
  | _, _ => false
  end
with member_eqb (a b : ObjectNameMember) : bool :=
  match a, b with mkMember d n, mkMember d' n' => deref_eqb d d' && bool_decide (n = n') end.

(** The pattern of every [operator<] here: compare the first parts in both
    directions, then the second parts.  Recursion in both directions at once:
    the results are [a < b] and [b < a]. *)
Definition lex_lts (first : bool * bool) (second : bool * bool) : bool * bool :=
  (if first.1 then true else if first.2 then false else second.1,
   if first.2 then true else if first.1 then false else second.2).

(** In the mixed case the tuples of the pointers are compared; null pointers
    are taken to be less than others, as the compilers do. *)
Fixpoint deref_lts (a b : ObjectNameDereference) : bool * bool :=
  match a, b with
  | derefOB o l, derefOB o' l' =>
      lex_lts (ObjectName_ltb o o', ObjectName_ltb o' o) (Z.ltb l l', Z.ltb l' l)
  | derefMB m l, derefMB m' l' => lex_lts (member_lts m m') (Z.ltb l l', Z.ltb l' l)
  | derefOB _ _, derefMB _ _ => (false, true)
  | derefMB _ _, derefOB _ _ => (true, false)
  end
with member_lts (a b : ObjectNameMember) : bool * bool :=
  match a, b with
  | mkMember d n, mkMember d' n' => lex_lts (deref_lts d d') (String.ltb n n', String.ltb n' n)
  end.
Definition deref_ltb (a b : ObjectNameDereference) : bool := (deref_lts a b).1.
Definition member_ltb (a b : ObjectNameMember) : bool := (member_lts a b).1.

(** ** Strings *)

Fixpoint repeat_string (c : string) (n : nat) : string :=
  match n with O => EmptyString | S n => c +:+ repeat_string c n end.
Definition level_string (l : Z) : string :=
  repeat_string "&" (Z.to_nat (- l)) +:+ repeat_string "*" (Z.to_nat l).

Definition getStringRepr (o : ObjectName) : string := Object o.
Fixpoint GetStringRepr (d : ObjectNameDereference) : string :=
  match d with
  | derefOB o l => level_string l +:+ getStringRepr o
  | derefMB m l => level_string l +:+ member_GetStringRepr m
  end
with member_GetStringRepr (m : ObjectNameMember) : string :=
  match m with mkMember d n => "(" +:+ GetStringRepr d +:+ ")." +:+ n end.

Definition ObjectName_GetFunctionName (o : ObjectName) : option string :=
  if Function_ o then Some (Object o) else None.
(** A function stands for itself and for its address. *)
Definition GetFunctionName (d : ObjectNameDereference) : option string :=
  if negb (bool_decide (DereferenceLevel d = 0%Z)) &&
     negb (bool_decide (DereferenceLevel d = (-1)%Z) && bool_decide (is_Some (getOb d)))
  then None
  else match getOb d with None => None | Some o => ObjectName_GetFunctionName o end.

(** ** Prefixes *)

(** An empty member is the operator [*]. *)
Record Prefix := mkPrefix {
  pf_Object : string;
  pf_Member : string
}.
#[export] Instance Prefix_eq_dec : EqDecision Prefix.
Proof. solve_decision. Defined.

Definition Prefix_of (d : ObjectNameDereference) (member : string) : Prefix :=
  mkPrefix (GetStringRepr d) member.

Definition Prefix_GetStringRepr (p : Prefix) : string :=
  "-" +:+ (if decide (pf_Member p ≠ EmptyString) then pf_Member p else "*") +:+ "->" +:+ pf_Object p.

Definition Prefix_eqb (a b : Prefix) : bool :=
  bool_decide (pf_Object a = pf_Object b) && bool_decide (pf_Member a = pf_Member b).

Definition nonempty (s : string) : bool := negb (bool_decide (s = EmptyString)).

Definition Prefix_ltb (a b : Prefix) : bool :=
  if String.ltb (pf_Object a) (pf_Object b) then true
  else if String.ltb (pf_Object b) (pf_Object a) then false
  else if nonempty (pf_Member a) && nonempty (pf_Member b)
       then String.ltb (pf_Member a) (pf_Member b)
  else nonempty (pf_Member a).

(** ** The set of objects *)

(** [std::set::emplace] and [std::set::find]: elements are kept in increasing
    order, elements that are equivalent under [operator<] are the same. *)
Fixpoint set_emplace (x : ObjectNameDereference) (l : list ObjectNameDereference)
    : list ObjectNameDereference :=
  match l with
  | [] => [x]
  | y :: l' =>
      if deref_ltb x y then x :: l
      else if deref_ltb y x then y :: set_emplace x l'
      else l
  end.
Definition set_find (x : ObjectNameDereference) (l : list ObjectNameDereference)
    : option ObjectNameDereference :=
  snd <$> list_find (λ y, deref_ltb x y = false ∧ deref_ltb y x = false) l.

(** Names without the characters that representations add. *)
Definition plain_char (c : ascii) : bool :=
  bool_decide (c ≠ "*"%char) && bool_decide (c ≠ "&"%char) &&
  bool_decide (c ≠ "("%char) && bool_decide (c ≠ ")"%char).
Fixpoint plain (s : string) : bool :=
  match s with EmptyString => true | String c s => plain_char c && plain s end.
Fixpoint plain_deref (d : ObjectNameDereference) : bool :=
  match d with
  | derefOB o _ => plain (Object o)
  | derefMB m _ => plain_member m
  end
with plain_member (m : ObjectNameMember) : bool :=
  match m with mkMember d n => plain_deref d && plain n end.

(** * The order and the representation of objects

    The comparison of objects is a strict total order up to [operator==], as
    [std::set] requires, so that the set of objects holds every object once;
    and objects with different representations are different objects: the
    string representation, the key under which equivalence classes are found,
    determines the object if names contain none of the characters [*], [&],
    [(] and [)]. *)

Scheme deref_ind_mut := Induction for ObjectNameDereference Sort Prop
  with member_ind_mut := Induction for ObjectNameMember Sort Prop.
Combined Scheme deref_member_ind from deref_ind_mut, member_ind_mut.

(** ** Pairs of comparisons *)

Abbreviation lt_ := (true, false).
Abbreviation gt_ := (false, true).
Abbreviation eq_ := (false, false).

Definition cmp_valid (x : bool * bool) : Prop := x = lt_ ∨ x = gt_ ∨ x = eq_.

(** How the comparisons of [a] with [b], [b] with [c] and [a] with [c] relate. *)
Definition cmp_trans (x y z : bool * bool) : Prop :=
  (x = eq_ → z = y) ∧ (y = eq_ → z = x) ∧ (x = lt_ → y = lt_ → z = lt_).

Lemma lex_valid x y : cmp_valid x → cmp_valid y → cmp_valid (lex_lts x y).
Proof. unfold cmp_valid. intros [-> | [-> | ->]] [-> | [-> | ->]]; simpl; auto. Qed.

Lemma lex_eq x y : cmp_valid x → cmp_valid y → lex_lts x y = eq_ ↔ x = eq_ ∧ y = eq_.
Proof.
  unfold cmp_valid. intros [-> | [-> | ->]] [-> | [-> | ->]]; simpl;
    (split; [intros H; try discriminate H; done | intros [H1 H2]; try discriminate; done]).
Qed.

Lemma lex_trans x y z x' y' z' :
  cmp_valid x → cmp_valid y → cmp_valid x' → cmp_valid y' →
  cmp_trans x y z → cmp_trans x' y' z' → cmp_trans (lex_lts x x') (lex_lts y y') (lex_lts z z').
Proof.
  unfold cmp_valid, cmp_trans. intros Hx Hy Hx' Hy' (H1 & H2 & H3) (H1' & H2' & H3').
  destruct Hx as [-> | [-> | ->]], Hy as [-> | [-> | ->]]; simpl in *;
    try rewrite (H3 eq_refl eq_refl); try rewrite (H1 eq_refl); try rewrite (H2 eq_refl); simpl;
    (split; [|split]); intros; try done;
    destruct Hx' as [-> | [-> | ->]], Hy' as [-> | [-> | ->]]; simpl in *; try done;
    try rewrite (H3' eq_refl eq_refl); try rewrite (H1' eq_refl); try rewrite (H2' eq_refl); done.
Qed.

Lemma lex_swap x y : lex_lts (x.2, x.1) (y.2, y.1) = ((lex_lts x y).2, (lex_lts x y).1).
Proof. done. Qed.

(** ** Numbers and strings *)

Lemma Z_cmp_valid l l' : cmp_valid (Z.ltb l l', Z.ltb l' l).
Proof.
  unfold cmp_valid. destruct (Z.ltb_spec l l'), (Z.ltb_spec l' l); [lia|auto..].
Qed.
Lemma Z_cmp_eq l l' : (Z.ltb l l', Z.ltb l' l) = eq_ ↔ l = l'.
Proof.
  destruct (Z.ltb_spec l l'), (Z.ltb_spec l' l); split; intros; try done; try lia.
Qed.
Lemma Z_cmp_trans a b c :
  cmp_trans (Z.ltb a b, Z.ltb b a) (Z.ltb b c, Z.ltb c b) (Z.ltb a c, Z.ltb c a).
Proof.
  split; [|split].
  - intros ->%Z_cmp_eq. done.
  - intros ->%Z_cmp_eq. done.
  - intros [= ? ?] [= ? ?]. f_equal; lia.
Qed.

Lemma string_cmp_valid s t : cmp_valid (String.ltb s t, String.ltb t s).
Proof.
  unfold cmp_valid. rewrite !string_ltb_leb.
  destruct (String.leb_total s t) as [-> | ->]; [destruct (String.leb t s)|destruct (String.leb s t)];
    simpl; auto.
Qed.
Lemma string_cmp_eq s t : (String.ltb s t, String.ltb t s) = eq_ ↔ s = t.
Proof.
  split; [|intros ->; by rewrite string_ltb_irrefl].
  rewrite !string_ltb_leb. intros [= H1 H2].
  apply String.leb_antisym; by apply negb_false_iff.
Qed.
Lemma string_cmp_trans a b c :
  cmp_trans (String.ltb a b, String.ltb b a) (String.ltb b c, String.ltb c b)
            (String.ltb a c, String.ltb c a).
Proof.
  split; [|split].
  - intros ->%string_cmp_eq. done.
  - intros ->%string_cmp_eq. done.
  - intros [= H1 _] [= H2 _]. pose proof (string_ltb_trans _ _ _ H1 H2) as H.
    destruct (string_cmp_valid a c) as [E|[E|E]]; [done|congruence..].
Qed.

(** ** Objects *)

Lemma lts_valid :
  (∀ a b, cmp_valid (deref_lts a b)) ∧ (∀ a b, cmp_valid (member_lts a b)).
Proof.
  apply deref_member_ind.
  - intros o l [o' l'|m' l']; [apply lex_valid; [apply string_cmp_valid|apply Z_cmp_valid]|].
    unfold cmp_valid; auto.
  - intros m IH l [o' l'|m' l']; [unfold cmp_valid; auto|].
    apply lex_valid; [apply IH|apply Z_cmp_valid].
  - intros d IH n [d' n']. apply lex_valid; [apply IH|apply string_cmp_valid].
Qed.
Lemma deref_lts_valid a b : cmp_valid (deref_lts a b).
Proof. apply lts_valid. Qed.
Lemma member_lts_valid a b : cmp_valid (member_lts a b).
Proof. apply lts_valid. Qed.

(** Every comparison of two parts is valid. *)
#[local] Ltac valid :=
  first [apply string_cmp_valid | apply Z_cmp_valid | apply deref_lts_valid | apply member_lts_valid].

Lemma lts_swap :
  (∀ a b, deref_lts b a = ((deref_lts a b).2, (deref_lts a b).1)) ∧
  (∀ a b, member_lts b a = ((member_lts a b).2, (member_lts a b).1)).
Proof.
  apply deref_member_ind.
  - intros o l [o' l'|m' l']; done.
  - intros m IH l [o' l'|m' l']; [done|]. simpl. by rewrite (IH m').
  - intros d IH n [d' n']. simpl. by rewrite (IH d').
Qed.

Lemma lts_eq :
  (∀ a b, deref_lts a b = eq_ ↔ deref_eqb a b = true) ∧
  (∀ a b, member_lts a b = eq_ ↔ member_eqb a b = true).
Proof.
  apply deref_member_ind.
  - intros o l [o' l'|m' l']; [|done]. simpl.
    rewrite lex_eq by valid.
    unfold ObjectName_ltb, ObjectName_eqb.
    by rewrite string_cmp_eq, Z_cmp_eq, andb_true_iff, !bool_decide_eq_true.
  - intros m IH l [o' l'|m' l']; [done|]. simpl.
    rewrite lex_eq by valid.
    by rewrite IH, Z_cmp_eq, andb_true_iff, bool_decide_eq_true.
  - intros d IH n [d' n']. simpl.
    rewrite lex_eq by valid.
    by rewrite IH, string_cmp_eq, andb_true_iff, bool_decide_eq_true.
Qed.

Lemma lts_trans :
  (∀ a b c, cmp_trans (deref_lts a b) (deref_lts b c) (deref_lts a c)) ∧
  (∀ a b c, cmp_trans (member_lts a b) (member_lts b c) (member_lts a c)).
Proof.
  apply deref_member_ind.
  - intros o l [o' l'|m' l'] [o'' l''|m'' l'']; simpl; try (by split; [|split]).
    apply lex_trans; [valid..| |]; [apply string_cmp_trans|apply Z_cmp_trans].
  - intros m IH l [o' l'|m' l'] [o'' l''|m'' l'']; simpl; try (by split; [|split]).
    apply lex_trans; [valid..| |]; [apply IH|apply Z_cmp_trans].
  - intros d IH n [d' n'] [d'' n'']; simpl.
    apply lex_trans; [valid..| |]; [apply IH|apply string_cmp_trans].
Qed.

(** The comparison is the one the code writes, for objects with members: compare
    the members in both directions, then the levels; and likewise for the
    object and the name of a member. *)
Lemma member_ltb_unfold a b :
  member_ltb a b =
  if deref_ltb (member_DB a) (member_DB b) then true
  else if deref_ltb (member_DB b) (member_DB a) then false
  else String.ltb (member_Member a) (member_Member b).
Proof.
  destruct a as [d n], b as [d' n']. unfold member_ltb, deref_ltb. simpl.
  by rewrite (proj1 lts_swap d d').
Qed.
Lemma deref_ltb_unfold m l m' l' :
  deref_ltb (derefMB m l) (derefMB m' l') =
  if member_ltb m m' then true else if member_ltb m' m then false else Z.ltb l l'.
Proof. unfold member_ltb, deref_ltb. simpl. by rewrite (proj2 lts_swap m m'). Qed.

Lemma deref_ltb_gt a b : (deref_lts a b).2 = deref_ltb b a.
Proof. unfold deref_ltb. by rewrite (proj1 lts_swap a b). Qed.

Lemma deref_equiv a b : deref_ltb a b = false ∧ deref_ltb b a = false ↔ deref_eqb a b = true.
Proof.
  rewrite <- (proj1 lts_eq), <- (deref_ltb_gt a b). unfold deref_ltb.
  destruct (deref_lts a b) as [x y]; simpl. split; [intros [-> ->]|intros [= -> ->]]; done.
Qed.

Lemma deref_lts_lt a b : deref_ltb a b = true ↔ deref_lts a b = lt_.
Proof.
  unfold deref_ltb. destruct (deref_lts_valid a b) as [-> | [-> | ->]]; done.
Qed.

Lemma deref_ltb_trans a b c : deref_ltb a b = true → deref_ltb b c = true → deref_ltb a c = true.
Proof. rewrite !deref_lts_lt. apply (proj1 lts_trans). Qed.

Lemma deref_eqb_refl a : deref_eqb a a = true.
Proof.
  apply deref_equiv. assert (deref_ltb a a = false); [|done].
  unfold deref_ltb. pose proof (proj1 lts_swap a a) as H.
  destruct (deref_lts_valid a a) as [E|[E|E]]; rewrite E in H |- *; done.
Qed.

(** [operator<] on objects is a strict total order up to [operator==]:
    for two objects exactly one of [a < b], [a == b] and [b < a] holds, the
    order is transitive, and [operator==] is compatible with it. *)
Theorem operator_lt_strict_total (a b c : ObjectNameDereference) :
  ((deref_ltb a b = true ∧ deref_eqb a b = false ∧ deref_ltb b a = false) ∨
   (deref_ltb a b = false ∧ deref_eqb a b = true ∧ deref_ltb b a = false) ∨
   (deref_ltb a b = false ∧ deref_eqb a b = false ∧ deref_ltb b a = true)) ∧
  implb (deref_ltb a b && deref_ltb b c) (deref_ltb a c) = true ∧
  implb (deref_eqb a b) (eqb (deref_ltb a c) (deref_ltb b c)) = true.
Proof.
  split; [|split].
  - pose proof (deref_equiv a b) as He. rewrite <- (deref_ltb_gt a b) in He |- *. unfold deref_ltb in *.
    destruct (deref_lts_valid a b) as [E|[E|E]]; rewrite E in He |- *; simpl in *;
      destruct (deref_eqb a b); intuition congruence.
  - destruct (deref_ltb a b) eqn:E1; [|done]. destruct (deref_ltb b c) eqn:E2; [|done]. simpl.
    by rewrite (deref_ltb_trans a b c).
  - destruct (deref_eqb a b) eqn:E; [|done]. simpl.
    apply (proj1 lts_eq) in E. unfold deref_ltb.
    rewrite (proj1 (proj1 lts_trans a b c) E). apply eqb_reflx.
Qed.

(** ** The set of objects *)

Definition deref_lt (a b : ObjectNameDereference) : Prop := deref_ltb a b = true.
#[export] Instance deref_lt_trans : Transitive deref_lt.
Proof. intros a b c. apply deref_ltb_trans. Qed.

Lemma elem_of_set_emplace x y l : y ∈ set_emplace x l → y = x ∨ y ∈ l.
Proof.
  induction l as [|z l IH]; simpl; [set_solver|].
  destruct (deref_ltb x z); [set_solver|]. destruct (deref_ltb z x); set_solver.
Qed.

Lemma set_emplace_keeps x y l : y ∈ l → y ∈ set_emplace x l.
Proof.
  induction l as [|z l IH]; simpl; [set_solver|].
  destruct (deref_ltb x z); [set_solver|]. destruct (deref_ltb z x); set_solver.
Qed.

(** The set stays in strictly increasing order, and afterwards has an element
    that equals the new one. *)
Lemma set_emplace_sorted x l :
  StronglySorted deref_lt l → StronglySorted deref_lt (set_emplace x l).
Proof.
  induction 1 as [|z l Hl IH Hz]; simpl; [by repeat constructor|].
  destruct (deref_ltb x z) eqn:E1; [|destruct (deref_ltb z x) eqn:E2].
  - constructor; [by constructor|]. constructor; [done|].
    eapply Forall_impl; [done|]. intros y Hy. by transitivity z.
  - constructor; [done|]. apply Forall_forall. intros y [->|Hy]%elem_of_set_emplace; [done|].
    rewrite Forall_forall in Hz. by apply Hz.
  - by constructor.
Qed.

Lemma set_emplace_in x l : ∃ y, y ∈ set_emplace x l ∧ deref_eqb x y = true.
Proof.
  induction l as [|z l (y & Hy & Hxy)]; simpl.
  - exists x. split; [set_solver|]. apply deref_eqb_refl.
  - destruct (deref_ltb x z) eqn:E1; [|destruct (deref_ltb z x) eqn:E2].
    + exists x. split; [set_solver|]. apply deref_eqb_refl.
    + exists y. set_solver.
    + exists z. split; [set_solver|]. by apply deref_equiv.
Qed.

(** ** Representations *)

(** A string does not begin with a star or an ampersand. *)
Definition no_level (s : string) : Prop :=
  match s with EmptyString => True | String c _ => c ≠ "*"%char ∧ c ≠ "&"%char end.

Lemma stars_inj c n n' s s' :
  (∀ t, s ≠ String c t) → (∀ t, s' ≠ String c t) →
  repeat_string (String c EmptyString) n +:+ s = repeat_string (String c EmptyString) n' +:+ s' →
  n = n' ∧ s = s'.
Proof.
  intros Hs Hs'. revert n'. induction n as [|n IH]; intros [|n']; simpl; intros E.
  - done.
  - by destruct (Hs _ E).
  - by destruct (Hs' _ (eq_sym E)).
  - injection E as E. by destruct (IH n' E) as [-> ->].
Qed.

Lemma no_level_head s c t : no_level s → s = String c t → c ≠ "*"%char ∧ c ≠ "&"%char.
Proof. intros H ->. done. Qed.

Lemma stars_no_amp n s t : no_level s → repeat_string "*" n +:+ s ≠ String "&" t.
Proof. intros Hs. destruct n; simpl; [|done]. intros E. by destruct (no_level_head _ _ _ Hs E). Qed.

Lemma level_string_inj l l' s s' :
  no_level s → no_level s' → level_string l +:+ s = level_string l' +:+ s' → l = l' ∧ s = s'.
Proof.
  unfold level_string. intros Hs Hs'. rewrite <- !string_app_assoc. intros E.
  apply stars_inj in E as [E1 E]; [|intros; by apply stars_no_amp..].
  apply stars_inj in E as [E2 E]; [split; [lia|done]|..].
  - intros t Et. by destruct (no_level_head _ _ _ Hs Et).
  - intros t Et. by destruct (no_level_head _ _ _ Hs' Et).
Qed.

Lemma plain_no_level s : plain s = true → no_level s.
Proof.
  destruct s as [|c s]; [done|]. simpl. unfold plain_char.
  rewrite !andb_true_iff, !bool_decide_eq_true. naive_solver.
Qed.

Lemma plain_no_paren s t u : plain s = true → s ≠ t +:+ String ")" u.
Proof.
  revert t. induction s as [|c s IH]; intros [|c' t]; simpl; try done.
  - intros Hp [= -> ->]. done.
  - rewrite andb_true_iff. intros [_ Hs] [= _ E]. by apply (IH t).
Qed.

(** What stands before the last closing parenthesis. *)
Lemma last_paren s s' m m' :
  plain m = true → plain m' = true →
  s +:+ String ")" m = s' +:+ String ")" m' → s = s' ∧ m = m'.
Proof.
  intros Hm Hm'. revert s'. induction s as [|c s IH]; intros [|c' s'] E; injection E.
  - by intros ->.
  - intros E' _. by destruct (plain_no_paren m s' m' Hm).
  - intros E' _. by destruct (plain_no_paren m' s m Hm').
  - intros E' ->. by destruct (IH s' E') as [-> ->].
Qed.

Lemma member_not_plain m o : plain (Object o) = true → member_GetStringRepr m ≠ Object o.
Proof.
  destruct m as [d n]. simpl. intros Hp E. rewrite <- E in Hp. simpl in Hp. done.
Qed.
Lemma member_no_level m : no_level (member_GetStringRepr m).
Proof. by destruct m. Qed.

Lemma repr_inj :
  (∀ a, plain_deref a = true → ∀ b, plain_deref b = true →
     GetStringRepr a = GetStringRepr b → deref_eqb a b = true) ∧
  (∀ a, plain_member a = true → ∀ b, plain_member b = true →
     member_GetStringRepr a = member_GetStringRepr b → member_eqb a b = true).
Proof.
  apply deref_member_ind.
  - intros o l Ho [o' l'|m' l'] Hb; simpl; intros E;
      (apply level_string_inj in E as [<- E];
        [|first [by apply plain_no_level | apply member_no_level]..]).
    + unfold getStringRepr in E. unfold ObjectName_eqb. rewrite E. by rewrite !bool_decide_true.
    + by destruct (member_not_plain m' o Ho).
  - intros m IH l Hm [o' l'|m' l'] Hb; simpl; intros E;
      (apply level_string_inj in E as [<- E];
        [|first [by apply plain_no_level | apply member_no_level]..]).
    + by destruct (member_not_plain m o' Hb).
    + rewrite (IH Hm m' Hb E). by rewrite bool_decide_true.
  - intros d IH n Ha [d' n'] Hb. simpl in *. apply andb_true_iff in Ha as [Hd Hn], Hb as [Hd' Hn'].
    intros [= E]. apply last_paren in E as [E1 E2]; [|simpl; by rewrite ?Hn, ?Hn'..].
    injection E2 as ->. rewrite (IH Hd d' Hd' E1). by rewrite bool_decide_true.
Qed.

Lemma repr_eq :
  (∀ a b, deref_eqb a b = true → GetStringRepr a = GetStringRepr b) ∧
  (∀ a b, member_eqb a b = true → member_GetStringRepr a = member_GetStringRepr b).
Proof.
  apply deref_member_ind.
  - intros o l [o' l'|m' l']; [|done]. simpl. unfold ObjectName_eqb, getStringRepr.
    rewrite andb_true_iff, !bool_decide_eq_true. by intros [-> ->].
  - intros m IH l [o' l'|m' l']; [done|]. simpl.
    rewrite andb_true_iff, !bool_decide_eq_true. by intros [->%IH ->].
  - intros d IH n [d' n']. simpl. rewrite andb_true_iff, bool_decide_eq_true. by intros [->%IH ->].
Qed.

Lemma GetStringRepr_eqb a b :
  plain_deref a = true → plain_deref b = true →
  GetStringRepr a = GetStringRepr b ↔ deref_eqb a b = true.
Proof. intros Ha Hb. split; [by apply repr_inj|apply repr_eq]. Qed.

(** C40: The string representation of an object, which is the key of its
    equivalence class, identifies it: two objects over plain names have the
    same representation exactly if [operator==] holds. *)
Theorem GetStringRepr_identifies (a b : ObjectNameDereference) :
  plain_deref a = true → plain_deref b = true →
  GetStringRepr a = GetStringRepr b ↔ deref_eqb a b = true.
Proof. apply GetStringRepr_eqb. Qed.

(** Without that, a variable and a dereferenced one may be confused. *)
Example GetStringRepr_not_plain :
  GetStringRepr (derefOB (mkObjectName "*p" false) 0) = GetStringRepr (derefOB (mkObjectName "p" false) 1)
  ∧ deref_eqb (derefOB (mkObjectName "*p" false) 0) (derefOB (mkObjectName "p" false) 1) = false.
Proof. by vm_compute. Qed.

Lemma GetStringRepr_identifies_witness :
  let p := derefOB (mkObjectName "p" false) 0 in
  GetStringRepr (derefMB (mkMember (set_level p 1) "x") (-1)) = "&(*p).x" ∧
  (GetStringRepr (derefMB (mkMember (set_level p 1) "x") (-1)) =
     GetStringRepr (derefMB (mkMember p "x") (-1)) ↔
   deref_eqb (derefMB (mkMember (set_level p 1) "x") (-1)) (derefMB (mkMember p "x") (-1)) = true).
Proof. split; [by vm_compute|]. apply GetStringRepr_identifies; by vm_compute. Defined.
