(* ===== verification/AliasClasses.v ===== *)
(** * Equivalence classes of the alias analysis

    [cgcollector/lib/include/AliasAnalysis.h], [EquivClassContainer], and
    [cgcollector/lib/src/AliasAnalysis.cpp]: objects that may point to the same
    memory are in one class; merging two classes merges those that their
    prefixes with the same member lead to, and yields the calls that may now
    reach a function.

    A [std::list] is a list of cells; an iterator is the number of a cell, which
    is never used again, so that iterators to erased cells can be told apart. *)

From S2P Require Import Prelude AliasNames.

(** ** [std::list] *)

Record ListType (A : Type) := mkListType {
  order : list nat;
  cells : gmap nat A;
  next_cell : nat
}.
Arguments mkListType {A}.
Arguments order {A}.
Arguments cells {A}.
Arguments next_cell {A}.

Section list_type.
Context {A : Type}.

Definition list_empty : ListType A := mkListType [] ∅ 0.
Definition list_get (l : ListType A) (i : nat) : outcome A := deref (cells l !! i).
Definition list_set (l : ListType A) (i : nat) (a : A) : ListType A :=
  mkListType (order l) (<[i := a]> (cells l)) (next_cell l).
(** [insert(end(), a)] and [emplace_front]; the new iterator is the old [next_cell]. *)
Definition list_push_back (l : ListType A) (a : A) : ListType A :=
  mkListType (order l ++ [next_cell l]) (<[next_cell l := a]> (cells l)) (S (next_cell l)).
Definition list_push_front (l : ListType A) (a : A) : ListType A :=
  mkListType (next_cell l :: order l) (<[next_cell l := a]> (cells l)) (S (next_cell l)).
Definition list_erase (l : ListType A) (i : nat) : outcome (ListType A) :=
  match cells l !! i with
  | None => UB
  | Some _ => Ret (mkListType (filter (λ j, j ≠ i) (order l)) (delete i (cells l)) (next_cell l))
  end.
Definition list_elems (l : ListType A) : list A := omap (λ i, cells l !! i) (order l).
End list_type.

(** ** The container *)

Record EquivClass := mkEquivClass {
  Objects : list string;
  Prefixes : list Prefix
}.
Definition EquivClass_of (Obj : string) : EquivClass := mkEquivClass [Obj] [].

Record FunctionInfo := mkFunctionInfo {
  MangledNames : list string;
  Parameters_ : list string;
  ReferencedInReturnStmts : list string;
  IsVariadic : bool
}.

Record CallInfo := mkCallInfo {
  CalledObjects : list string;
  Arguments_ : list (list string)
}.

(** An iterator into [CallInfoMap] is the key of its entry: entries are never
    erased. *)
Record EquivClassContainer := mkEquivClassContainer {
  EquivClasses : ListType EquivClass;
  FunctionMap : gmap string string;
  FunctionInfoMap : gmap string FunctionInfo;
  CallInfoMap : gmap string CallInfo;
  FindMap : gmap string nat;
  CallExprParentMap : gmap string string;
  ReferencedInCalls : gmap string (list string)
}.

Definition container_new : EquivClassContainer :=
  mkEquivClassContainer list_empty ∅ ∅ ∅ ∅ ∅ ∅.

Definition with_classes (D : EquivClassContainer) (cl : ListType EquivClass) (fm : gmap string nat)
    : EquivClassContainer :=
  mkEquivClassContainer cl (FunctionMap D) (FunctionInfoMap D) (CallInfoMap D) fm
    (CallExprParentMap D) (ReferencedInCalls D).
Definition with_FunctionMap (D : EquivClassContainer) (m : gmap string string) : EquivClassContainer :=
  mkEquivClassContainer (EquivClasses D) m (FunctionInfoMap D) (CallInfoMap D) (FindMap D)
    (CallExprParentMap D) (ReferencedInCalls D).
Definition with_FunctionInfoMap (D : EquivClassContainer) (m : gmap string FunctionInfo)
    : EquivClassContainer :=
  mkEquivClassContainer (EquivClasses D) (FunctionMap D) m (CallInfoMap D) (FindMap D)
    (CallExprParentMap D) (ReferencedInCalls D).
Definition with_CallInfoMap (D : EquivClassContainer) (m : gmap string CallInfo) : EquivClassContainer :=
  mkEquivClassContainer (EquivClasses D) (FunctionMap D) (FunctionInfoMap D) m (FindMap D)
    (CallExprParentMap D) (ReferencedInCalls D).
Definition with_CallExprParentMap (D : EquivClassContainer) (m : gmap string string)
    : EquivClassContainer :=
  mkEquivClassContainer (EquivClasses D) (FunctionMap D) (FunctionInfoMap D) (CallInfoMap D)
    (FindMap D) m (ReferencedInCalls D).
Definition with_ReferencedInCalls (D : EquivClassContainer) (m : gmap string (list string))
    : EquivClassContainer :=
  mkEquivClassContainer (EquivClasses D) (FunctionMap D) (FunctionInfoMap D) (CallInfoMap D)
    (FindMap D) (CallExprParentMap D) m.

(** [map::emplace] keeps an existing entry; merging the entries of a map. *)
Definition map_emplace {A} (m : gmap string A) (k : string) (a : A) : gmap string A :=
  match m !! k with Some _ => m | None => <[k := a]> m end.
Definition map_emplace_all {A} (m other : gmap string A) : gmap string A :=
  foldl (λ m e, map_emplace m e.1 e.2) m (ordered_iter other).

Definition InitReferencedInCalls (D : EquivClassContainer) : EquivClassContainer :=
  with_ReferencedInCalls D
    (foldl (λ m ci,
       foldl (λ m Ref, <[Ref := default [] (m !! Ref) ++ [ci.1]]> m) m (CalledObjects ci.2))
     ∅ (ordered_iter (CallInfoMap D))).

(** [assert(it != end())] on the result of [FindMap.find]. *)
Definition find_class (D : EquivClassContainer) (o : string) : outcome nat :=
  match FindMap D !! o with Some i => Ret i | None => AssertFail end.

(** ** Merging two classes *)

(** The first prefix with another object and the same member. *)
Definition same_member (P foundPrefix : Prefix) : bool :=
  negb (bool_decide (pf_Object P = pf_Object foundPrefix)) &&
  ((negb (nonempty (pf_Member P)) && negb (nonempty (pf_Member foundPrefix))) ||
   ((nonempty (pf_Member P) && nonempty (pf_Member foundPrefix)) &&
    bool_decide (pf_Member P = pf_Member foundPrefix))).

(** The prefixes of the class and the objects to merge are updated. *)
Definition GetPrefixesToMerge_step (st : list Prefix * list (string * string)) (P : Prefix)
    : list Prefix * list (string * string) :=
  match list_find (λ q, same_member P q = true) st.1 with
  | Some (_, O1) => (st.1, st.2 ++ [(pf_Object P, pf_Object O1)])
  | None => (st.1 ++ [P], st.2)
  end.
Definition GetPrefixesToMerge (prefixes : list Prefix) (PrefixToMerge : list Prefix)
    (ObjectsToMerge : list (string * string)) : list Prefix * list (string * string) :=
  foldl GetPrefixesToMerge_step (prefixes, ObjectsToMerge) PrefixToMerge.

Definition set_class (fm : gmap string nat) (i : nat) (objects : list string) : gmap string nat :=
  foldl (λ fm o, <[o := i]> fm) fm objects.

(** The result has the key of the entry of [FindMap] that [Iter] points to.
    The prefixes are sorted and made unique only in the local copy, after it
    has been inserted: that is without effect. *)
Definition merge (D : EquivClassContainer) (E1 E2 : nat)
    : outcome (EquivClassContainer * (string * list (string * string))) :=
  cpp_assert (negb (bool_decide (E1 = E2))) ;;
  C1 ← list_get (EquivClasses D) E1;
  cpp_assert (negb (bool_decide (Objects C1 = []))) ;;
  C2 ← list_get (EquivClasses D) E2;
  cpp_assert (negb (bool_decide (Objects C2 = []))) ;;
  let '(prefixes, ObjectsToMerge) := GetPrefixesToMerge (Prefixes C1) (Prefixes C2) [] in
  let E := mkEquivClass (Objects C1 ++ Objects C2) prefixes in
  let Iter := next_cell (EquivClasses D) in
  let classes := list_push_back (EquivClasses D) E in
  let fm := set_class (set_class (FindMap D) Iter (Objects C1)) Iter (Objects C2) in
  classes ← list_erase classes E1;
  classes ← list_erase classes E2;
  front ← deref (head (Objects E));
  Ret (with_classes D classes fm, (front, ObjectsToMerge)).

(** Pairs of an object that is a function and a call of an object of the class. *)
Definition GetFunctionsToMerge (D : EquivClassContainer) (Ret_ : list (string * string))
    (E : EquivClass) : list (string * string) :=
  let FunctionDecls := filter (λ o, is_Some (FunctionMap D !! o)) (Objects E) in
  let UsedInCall := Objects E ≫= λ o, default [] (ReferencedInCalls D !! o) in
  Ret_ ++ (FunctionDecls ≫= λ F, (λ C, (F, C)) <$> UsedInCall).

(** The class an iterator of [FindMap] points to. *)
Definition entry_class (D : EquivClassContainer) (key : string) : outcome nat :=
  deref (FindMap D !! key).

(** If the two objects are in different classes, merge these, and add the calls
    to process to those collected so far. *)
Definition merge_objects (mergeRec : EquivClassContainer → nat → nat →
      outcome (EquivClassContainer * (list (string * string) * nat)))
    (st : EquivClassContainer * list (string * string)) (L R : string)
    : outcome (EquivClassContainer * list (string * string)) :=
  ItL ← find_class st.1 L;
  ItR ← find_class st.1 R;
  if decide (ItL ≠ ItR) then
    r ← mergeRec st.1 ItL ItR;
    Ret (r.1, st.2 ++ r.2.1)
  else Ret st.

Fixpoint mergeRecurisve (fuel : nat) (D : EquivClassContainer) (E1 E2 : nat)
    : outcome (EquivClassContainer * (list (string * string) * nat)) :=
  match fuel with
  | O => OutOfFuel
  | S fuel =>
      r ← merge D E1 E2;
      st ← foldM (λ st Entry, merge_objects (mergeRecurisve fuel) st Entry.1 Entry.2)
             (r.1, []) r.2.2;
      i ← entry_class st.1 r.2.1;
      E ← list_get (EquivClasses st.1) i;
      Ret (st.1, (GetFunctionsToMerge st.1 st.2 E, i))
  end.

(** ** Merging along a call *)

(** One parameter with the objects of its argument; missing arguments are only
    reported. *)
Definition merge_parameter (fuel : nat) (CI : CallInfo)
    (st : (EquivClassContainer * list (string * string)) * nat) (Arg : string)
    : outcome ((EquivClassContainer * list (string * string)) * nat) :=
  let '(st, arg) := st in
  let RHS := default [] (Arguments_ CI !! arg) in
  _ ← find_class st.1 Arg;
  st ← foldM (λ st R, merge_objects (mergeRecurisve fuel) st Arg R) st RHS;
  Ret (st, S arg).

Definition merge_returns (fuel : nat) (CallExprUSR : string) (RHSObjects : list string)
    (st : EquivClassContainer * list (string * string))
    : outcome (EquivClassContainer * list (string * string)) :=
  match RHSObjects with
  | [] => Ret st
  | _ =>
      _ ← find_class st.1 (getStringRepr (mkObjectName CallExprUSR false));
      foldM (λ st R, merge_objects (mergeRecurisve fuel) st CallExprUSR R) st RHSObjects
  end.

Abbreviation call_result := (list (string * string) * (string * string))%type (only parsing).

Definition mergeFunctionCallImpl (fuel : nat) (D : EquivClassContainer)
    (CalledFunctionName CallingFunctionName : string) (CI : CallInfo) (CallExprUSR : string)
    : outcome (EquivClassContainer * option call_result) :=
  match FunctionInfoMap D !! CalledFunctionName with
  | None => AssertFail
  | Some CalledFunction =>
      r ← foldM (merge_parameter fuel CI) ((D, []), 0) (Parameters_ CalledFunction);
      st ← merge_returns fuel CallExprUSR (ReferencedInReturnStmts CalledFunction) r.1;
      Ret (st.1, Some (st.2, (CallingFunctionName, CalledFunctionName)))
  end.

(** [CallExprParentMap[CE->first]] adds an empty name if there is none. *)
Definition mergeFunctionCall (fuel : nat) (D : EquivClassContainer) (CalledObj CE : string)
    : outcome (EquivClassContainer * option call_result) :=
  match FunctionMap D !! CalledObj with
  | None => AssertFail
  | Some CalledFunctionName =>
      let CallingFunctionName := default EmptyString (CallExprParentMap D !! CE) in
      let D := with_CallExprParentMap D (<[CE := CallingFunctionName]> (CallExprParentMap D)) in
      CI ← deref (CallInfoMap D !! CE);
      mergeFunctionCallImpl fuel D CalledFunctionName CallingFunctionName CI CE
  end.
