(* ===== verification/AliasWf.v ===== *)
(** * The classes as a partition

    The invariant of the container: the classes partition the objects and
    [FindMap] finds the class of each; what merging two classes does to it, and
    what it does with the prefixes. *)

From S2P Require Import Prelude AliasNames AliasClasses.

Abbreviation cells_of D := (cells (EquivClasses D)).

Record classes_wf (D : EquivClassContainer) : Prop := {
  cw_order : ∀ i, i ∈ order (EquivClasses D) ↔ is_Some (cells_of D !! i);
  cw_nodup : NoDup (order (EquivClasses D));
  cw_next : ∀ i, is_Some (cells_of D !! i) → i < next_cell (EquivClasses D);
  cw_nonempty : ∀ i C, cells_of D !! i = Some C → Objects C ≠ [];
  cw_find : ∀ o i, FindMap D !! o = Some i ↔ ∃ C, cells_of D !! i = Some C ∧ o ∈ Objects C
}.

(** Two objects are in one class. *)
Definition same (D : EquivClassContainer) (o o' : string) : Prop :=
  ∃ i, FindMap D !! o = Some i ∧ FindMap D !! o' = Some i.
Definition known (D : EquivClassContainer) (o : string) : Prop := is_Some (FindMap D !! o).
Definition num_classes (D : EquivClassContainer) : nat := size (cells_of D).

Lemma same_sym D a b : same D a b → same D b a.
Proof. intros (i & ? & ?). by exists i. Qed.
Lemma same_trans D a b c : same D a b → same D b c → same D a c.
Proof. intros (i & ? & Hb) (j & Hb' & ?). exists i. naive_solver. Qed.
Lemma same_refl D a : known D a → same D a a.
Proof. intros [i Hi]. by exists i. Qed.
Lemma same_known D a b : same D a b → known D a ∧ known D b.
Proof. intros (i & Ha & Hb). by split; exists i. Qed.

(** An object of a class is found there; a found class exists. *)
Lemma wf_object D i C o : classes_wf D → cells_of D !! i = Some C → o ∈ Objects C → FindMap D !! o = Some i.
Proof. intros Hwf Hi Ho. apply (cw_find _ Hwf). by exists C. Qed.
Lemma wf_class D o i : classes_wf D → FindMap D !! o = Some i → ∃ C, cells_of D !! i = Some C ∧ o ∈ Objects C.
Proof. intros Hwf. apply (cw_find _ Hwf). Qed.

Lemma container_new_wf : classes_wf container_new.
Proof.
  split; simpl.
  - intros i. rewrite lookup_empty. split; [by intros ?%elem_of_nil|by intros [? [=]]].
  - constructor.
  - intros i. rewrite lookup_empty. by intros [? [=]].
  - intros i C H. by apply lookup_empty_Some in H.
  - intros o i. split; [by intros ?%lookup_empty_Some|].
    intros (C & HC & _). by apply lookup_empty_Some in HC.
Qed.

(** ** [FindMap] *)

Lemma set_class_lookup fm i objects o :
  set_class fm i objects !! o = if decide (o ∈ objects) then Some i else fm !! o.
Proof.
  unfold set_class. revert fm. induction objects as [|x l IH]; intros fm; simpl; [done|].
  rewrite IH. destruct (decide (o ∈ l)) as [Hl|Hl].
  - rewrite decide_True; [done|]. set_solver.
  - destruct (decide (o = x)) as [->|Hx].
    + rewrite decide_True by set_solver. apply lookup_insert_eq.
    + rewrite lookup_insert_ne by done. rewrite decide_False; [done|].
      by intros [->|?]%elem_of_cons.
Qed.

(** ** Prefixes *)

Lemma same_member_spec P q :
  same_member P q = true ↔ pf_Object P ≠ pf_Object q ∧ pf_Member P = pf_Member q.
Proof.
  unfold same_member, nonempty.
  repeat case_bool_decide; simpl; naive_solver congruence.
Qed.

Record prefixes_merged (Ps1 Ps2 Q : list Prefix) (otm : list (string * string)) : Prop := {
  pm_left : ∀ q, q ∈ Ps1 → q ∈ Q;
  pm_from : ∀ q, q ∈ Q → q ∈ Ps1 ∨ q ∈ Ps2;
  pm_right : ∀ P, P ∈ Ps2 → ∃ q, q ∈ Q ∧ pf_Member q = pf_Member P ∧
    (pf_Object q = pf_Object P ∨ (pf_Object P, pf_Object q) ∈ otm);
  pm_uniq : ∀ p q, p ∈ Q → q ∈ Q → pf_Member p = pf_Member q →
    (p ∈ Ps1 ∧ q ∈ Ps1) ∨ pf_Object p = pf_Object q;
  pm_pairs : ∀ a b, (a, b) ∈ otm → ∃ P q, P ∈ Ps2 ∧ (q ∈ Ps1 ∨ q ∈ Ps2) ∧
    pf_Member P = pf_Member q ∧ a = pf_Object P ∧ b = pf_Object q
}.

Lemma prefixes_merged_nil Ps1 : prefixes_merged Ps1 [] Ps1 [].
Proof.
  split; try (by auto); intros *; try (by intros ?%elem_of_nil).
Qed.

Lemma prefixes_merged_snoc Ps1 Ps2 Q otm P Q' otm' :
  prefixes_merged Ps1 Ps2 Q otm →
  GetPrefixesToMerge_step (Q, otm) P = (Q', otm') →
  prefixes_merged Ps1 (Ps2 ++ [P]) Q' otm'.
Proof.
  intros [Hl Hf Hr Hu Hp] H. unfold GetPrefixesToMerge_step in H. simpl in H.
  destruct (list_find _ Q) as [[n O1]|] eqn:E; injection H as <- <-.
  - apply list_find_Some in E as (E1 & [E2 E3]%same_member_spec & _).
    apply list_elem_of_lookup_2 in E1. split.
    + done.
    + intros q [?|?]%Hf; set_solver.
    + intros P' [HP'|HP'%list_elem_of_singleton]%elem_of_app.
      * destruct (Hr P' HP') as (q & ? & ? & Hq). exists q. split_and!; [done..|].
        destruct Hq; [by left|right]. set_solver.
      * subst P'. exists O1. split_and!; [done..|]. right. set_solver.
    + done.
    + intros a b [Hab|Hab%list_elem_of_singleton]%elem_of_app.
      * destruct (Hp a b Hab) as (P' & q & ? & ? & ?). exists P', q. set_solver.
      * injection Hab as -> ->. exists P, O1. split_and!; [set_solver| |done..].
        destruct (Hf O1 E1); set_solver.
  - assert (∀ q, q ∈ Q → pf_Member q = pf_Member P → pf_Object q = pf_Object P) as Hnone.
    { intros q Hq Hm. destruct (decide (pf_Object q = pf_Object P)) as [?|Hne]; [done|].
      exfalso. apply list_find_None, Forall_forall with (x := q) in E; [|done].
      apply E, same_member_spec. by split; [intros ?; apply Hne|]. }
    split.
    + set_solver.
    + intros q [Hq|Hq]%elem_of_app; [|set_solver]. destruct (Hf q Hq); set_solver.
    + intros P' [HP'|HP'%list_elem_of_singleton]%elem_of_app.
      * destruct (Hr P' HP') as (q & ? & ? & Hq). exists q. set_solver.
      * subst P'. exists P. split_and!; [set_solver|done|by left].
    + intros p q Hp' Hq' Hm.
      apply elem_of_app in Hp' as [Hp'|Hp'%list_elem_of_singleton],
        Hq' as [Hq'|Hq'%list_elem_of_singleton].
      * by apply Hu.
      * subst q. right. by apply Hnone.
      * subst p. right. symmetry. by apply Hnone.
      * right. by subst.
    + intros a b Hab. destruct (Hp a b Hab) as (P' & q & ? & ? & ?). exists P', q. set_solver.
Qed.

Lemma GetPrefixesToMerge_spec Ps1 Ps2 Q otm :
  GetPrefixesToMerge Ps1 Ps2 [] = (Q, otm) → prefixes_merged Ps1 Ps2 Q otm.
Proof.
  unfold GetPrefixesToMerge. revert Q otm. induction Ps2 as [|P Ps2 IH] using rev_ind; intros Q otm.
  - intros [= <- <-]. apply prefixes_merged_nil.
  - rewrite foldl_app. simpl. destruct (foldl _ _ Ps2) as [Q0 otm0] eqn:E.
    intros H. by eapply prefixes_merged_snoc; [apply IH|].
Qed.

(** ** [merge] *)

(** What it leaves alone; an empty name may be added for a call without parent. *)
Record static (D D' : EquivClassContainer) : Prop := {
  st_functions : FunctionMap D' = FunctionMap D;
  st_infos : FunctionInfoMap D' = FunctionInfoMap D;
  st_calls : CallInfoMap D' = CallInfoMap D;
  st_parents : ∀ c, CallExprParentMap D' !! c = CallExprParentMap D !! c ∨
    (CallExprParentMap D !! c = None ∧ CallExprParentMap D' !! c = Some EmptyString ∧
     is_Some (CallInfoMap D !! c));
  st_referenced : ReferencedInCalls D' = ReferencedInCalls D
}.
#[export] Instance static_preorder : PreOrder static.
Proof.
  split; [split; try done; intros c; by left|].
  intros D1 D2 D3 [A1 A2 A3 A4 A5] [B1 B2 B3 B4 B5]. split; [congruence..| |congruence].
  intros c. destruct (A4 c) as [Ha|(Ha & Ha' & Hc)], (B4 c) as [Hb|(Hb & Hb' & Hc')]; [left|right|right|congruence].
  - congruence.
  - rewrite A3 in Hc'. split_and!; congruence || done.
  - split_and!; congruence || done.
Qed.

Lemma static_parent D D' c :
  static D D' →
  default EmptyString (CallExprParentMap D' !! c) = default EmptyString (CallExprParentMap D !! c).
Proof. intros HS. by destruct (st_parents _ _ HS c) as [->|(-> & -> & _)]. Qed.

Lemma static_classes D cl fm : static D (with_classes D cl fm).
Proof. split; try done. intros c. by left. Qed.

(** The container after merging the classes [C1] at [E1] and [C2] at [E2]. *)
Definition merged (D : EquivClassContainer) (E1 E2 : nat) (C1 C2 : EquivClass) (Q : list Prefix)
    : EquivClassContainer :=
  let cl := EquivClasses D in
  let n := next_cell cl in
  with_classes D
    (mkListType (filter (λ j, j ≠ E2) (filter (λ j, j ≠ E1) (order cl ++ [n])))
       (delete E2 (delete E1 (<[n := mkEquivClass (Objects C1 ++ Objects C2) Q]> (cells cl))))
       (S n))
    (set_class (set_class (FindMap D) n (Objects C1)) n (Objects C2)).

Section merged.
Context (D : EquivClassContainer) (E1 E2 : nat) (C1 C2 : EquivClass).
Hypothesis Hwf : classes_wf D.
Hypothesis Hne : E1 ≠ E2.
Hypothesis H1 : cells_of D !! E1 = Some C1.
Hypothesis H2 : cells_of D !! E2 = Some C2.

Let n := next_cell (EquivClasses D).

Lemma merged_fresh : E1 < n ∧ E2 < n.
Proof. split; apply (cw_next _ Hwf); [by exists C1|by exists C2]. Qed.

Lemma merged_lookup Q i :
  cells_of (merged D E1 E2 C1 C2 Q) !! i =
  if decide (i = n) then Some (mkEquivClass (Objects C1 ++ Objects C2) Q)
  else if decide (i = E1 ∨ i = E2) then None else cells_of D !! i.
Proof.
  destruct merged_fresh as [L1 L2]. unfold merged. simpl. fold n.
  destruct (decide (i = n)) as [->|Hi].
  - rewrite !lookup_delete_ne by lia. apply lookup_insert_eq.
  - destruct (decide (i = E1 ∨ i = E2)) as [Hd|Hd].
    + apply lookup_delete_None. destruct (decide (i = E2)) as [->|]; [by left|].
      right. apply lookup_delete_None. left. naive_solver.
    + rewrite !lookup_delete_ne by naive_solver. by apply lookup_insert_ne.
Qed.

Lemma merged_find Q o :
  FindMap (merged D E1 E2 C1 C2 Q) !! o =
  if decide (o ∈ Objects C1 ++ Objects C2) then Some n else FindMap D !! o.
Proof.
  unfold merged. simpl. fold n. rewrite !set_class_lookup.
  destruct (decide (o ∈ Objects C2)), (decide (o ∈ Objects C1));
    destruct (decide (o ∈ Objects C1 ++ Objects C2)); set_solver.
Qed.

Lemma merged_num Q : S (num_classes (merged D E1 E2 C1 C2 Q)) = num_classes D.
Proof.
  destruct merged_fresh as [L1 L2]. unfold num_classes, merged. simpl. fold n.
  assert (cells_of D !! n = None) as Hn.
  { apply eq_None_not_Some. intros ?%(cw_next _ Hwf). lia. }
  rewrite map_size_delete_Some.
  2:{ exists C2. rewrite lookup_delete_ne by done. by rewrite lookup_insert_ne by lia. }
  rewrite map_size_delete_Some.
  2:{ exists C1. by rewrite lookup_insert_ne by lia. }
  rewrite map_size_insert_None by done.
  assert (size (cells_of D) ≥ 2) as Hs; [|lia].
  rewrite <- (insert_delete_id (cells_of D) E1 C1) by done.
  rewrite map_size_insert_None by apply lookup_delete_eq.
  rewrite <- (insert_delete_id (delete E1 (cells_of D)) E2 C2) by by rewrite lookup_delete_ne.
  rewrite map_size_insert_None by apply lookup_delete_eq. lia.
Qed.

Lemma merged_wf Q : classes_wf (merged D E1 E2 C1 C2 Q).
Proof.
  destruct merged_fresh as [L1 L2]. split.
  - intros i. rewrite merged_lookup. unfold merged. simpl. fold n.
    rewrite !list_elem_of_filter, elem_of_app, list_elem_of_singleton, (cw_order _ Hwf).
    destruct (decide (i = n)) as [->|]; [|destruct (decide (i = E1 ∨ i = E2)) as [?|?]].
    + split; [done|]. intros _. split_and!; [lia..|by right].
    + split; [naive_solver|by intros [? ?]].
    + naive_solver.
  - unfold merged. simpl. apply NoDup_filter, NoDup_filter, NoDup_app.
    split_and!; [apply Hwf| |apply NoDup_singleton].
    intros i Hi%(cw_order _ Hwf)%(cw_next _ Hwf) Hn%list_elem_of_singleton. lia.
  - intros i. rewrite merged_lookup. change (next_cell _) with (S n).
    destruct (decide (i = n)); [lia|]. destruct (decide (i = E1 ∨ i = E2)); [by intros [? ?]|].
    intros ?%(cw_next _ Hwf). fold n in H. lia.
  - intros i C. rewrite merged_lookup. destruct (decide (i = n)).
    + intros [= <-]. simpl. pose proof (cw_nonempty _ Hwf _ _ H1). by destruct (Objects C1).
    + destruct (decide (i = E1 ∨ i = E2)); [done|]. apply Hwf.
  - intros o i. rewrite merged_find, merged_lookup.
    destruct (decide (o ∈ Objects C1 ++ Objects C2)) as [Ho|Ho].
    + split; [|intros (C & HC & HoC)].
      * intros [= <-]. rewrite decide_True by done. eauto.
      * destruct (decide (i = n)) as [->|]; [done|]. exfalso.
        destruct (decide (i = E1 ∨ i = E2)) as [|Hd]; [done|]. apply Hd.
        pose proof (wf_object _ _ _ _ Hwf HC HoC) as Hi.
        apply elem_of_app in Ho as [Ho|Ho].
        -- rewrite (wf_object _ _ _ _ Hwf H1 Ho) in Hi. injection Hi as ->. by left.
        -- rewrite (wf_object _ _ _ _ Hwf H2 Ho) in Hi. injection Hi as ->. by right.
    + rewrite (cw_find _ Hwf). split; intros (C & HC & HoC).
      * assert (i < n) by (apply (cw_next _ Hwf); by exists C). rewrite decide_False by lia.
        rewrite decide_False; [by exists C|]. apply not_elem_of_app in Ho as [Ho1 Ho2].
        intros [->| ->]; naive_solver.
      * destruct (decide (i = n)); [naive_solver|].
        destruct (decide (i = E1 ∨ i = E2)); [done|]. by exists C.
Qed.

Lemma merge_classes_ret :
  ∃ Q otm front,
    merge D E1 E2 ⇓ (merged D E1 E2 C1 C2 Q, (front, otm)) ∧
    prefixes_merged (Prefixes C1) (Prefixes C2) Q otm ∧ front ∈ Objects C1.
Proof.
  destruct merged_fresh as [L1 L2]. unfold merge, list_get.
  rewrite bool_decide_false by done. rewrite H1, H2. simpl.
  pose proof (cw_nonempty _ Hwf _ _ H1) as Hn1. pose proof (cw_nonempty _ Hwf _ _ H2) as Hn2.
  rewrite !bool_decide_false by done. simpl.
  destruct (GetPrefixesToMerge (Prefixes C1) (Prefixes C2) []) as [Q otm] eqn:EQ.
  apply GetPrefixesToMerge_spec in EQ.
  unfold list_erase. simpl. fold n. rewrite lookup_insert_ne by lia. rewrite H1. simpl.
  rewrite lookup_delete_ne, lookup_insert_ne by lia. rewrite H2. simpl.
  destruct (Objects C1) as [|front os] eqn:Eo; [done|].
  exists Q, otm, front. split_and!; [|done|set_solver].
  unfold merged. rewrite Eo. done.
Qed.

Lemma merged_static Q : static D (merged D E1 E2 C1 C2 Q).
Proof. apply static_classes. Qed.
Lemma merged_known Q o : known (merged D E1 E2 C1 C2 Q) o ↔ known D o.
Proof.
  unfold known. rewrite merged_find. destruct (decide (o ∈ Objects C1 ++ Objects C2)) as [Ho|]; [|done].
  split; intros _; [|done]. apply elem_of_app in Ho as [Ho|Ho].
  - rewrite (wf_object _ _ _ _ Hwf H1 Ho). done.
  - rewrite (wf_object _ _ _ _ Hwf H2 Ho). done.
Qed.

Lemma merged_joins Q a b :
  a ∈ Objects C1 ++ Objects C2 → b ∈ Objects C1 ++ Objects C2 → same (merged D E1 E2 C1 C2 Q) a b.
Proof. intros Ha Hb. exists n. rewrite !merged_find, !decide_True by done. done. Qed.

Lemma merged_mono Q a b : same D a b → same (merged D E1 E2 C1 C2 Q) a b.
Proof.
  intros (i & Ha & Hb). destruct (decide (i = E1 ∨ i = E2)) as [Hi|Hi].
  - destruct (wf_class _ _ _ Hwf Ha) as (C & HC & HaC), (wf_class _ _ _ Hwf Hb) as (C' & HC' & HbC).
    apply merged_joins; apply elem_of_app; naive_solver.
  - exists i. rewrite !merged_find, !decide_False; [done|..]; apply not_elem_of_app; split; intros Ho;
      [pose proof (wf_object _ _ _ _ Hwf H1 Ho)|pose proof (wf_object _ _ _ _ Hwf H2 Ho)
      |pose proof (wf_object _ _ _ _ Hwf H1 Ho)|pose proof (wf_object _ _ _ _ Hwf H2 Ho)]; naive_solver.
Qed.

(** Nothing else is joined. *)
Lemma merged_same Q a b :
  same (merged D E1 E2 C1 C2 Q) a b →
  same D a b ∨ (a ∈ Objects C1 ++ Objects C2 ∧ b ∈ Objects C1 ++ Objects C2).
Proof.
  intros (i & Ha & Hb). rewrite merged_find in Ha, Hb.
  destruct (decide (a ∈ _)) as [HaC|HaC], (decide (b ∈ _)) as [HbC|HbC].
  - by right.
  - exfalso. injection Ha as <-.
    destruct (wf_class _ _ _ Hwf Hb) as (C & HC & _).
    assert (n < n) by (apply (cw_next _ Hwf); by exists C). lia.
  - exfalso. injection Hb as <-.
    destruct (wf_class _ _ _ Hwf Ha) as (C & HC & _).
    assert (n < n) by (apply (cw_next _ Hwf); by exists C). lia.
  - left. by exists i.
Qed.
End merged.
