(* ===== verification/AliasClosure.v ===== *)
(** * Merging is congruence closure

    While classes are merged recursively, some prefixes have been dropped whose
    objects are still to be merged: these pairs are part of the invariant.  Up
    to them, objects of one class that have a prefix with the same member lead
    to the same class.  When no pairs are left, the classes are a congruence;
    and they join nothing that some congruence [Cg] with all merged pairs does
    not join. *)

From S2P Require Import Prelude AliasNames AliasClasses AliasWf.

(** An object that is a function, and a call of an object of its class. *)
Definition call_pair (D : EquivClassContainer) (p : string * string) : Prop :=
  is_Some (FunctionMap D !! p.1) ∧
  ∃ o, p.2 ∈ default [] (ReferencedInCalls D !! o) ∧ same D p.1 o.

Lemma elem_of_GetFunctionsToMerge D l E p :
  p ∈ GetFunctionsToMerge D l E ↔
  p ∈ l ∨ (p.1 ∈ Objects E ∧ is_Some (FunctionMap D !! p.1) ∧
           ∃ o, o ∈ Objects E ∧ p.2 ∈ default [] (ReferencedInCalls D !! o)).
Proof.
  unfold GetFunctionsToMerge. rewrite elem_of_app, list_elem_of_bind.
  setoid_rewrite list_elem_of_fmap. setoid_rewrite list_elem_of_bind.
  setoid_rewrite list_elem_of_filter. destruct p as [F c]. simpl. naive_solver.
Qed.

(** What every operation on the classes guarantees; [new] are the calls it found.
    Either it merged nothing, or there are fewer classes; a class that did not
    get another object is still where it was. *)
Record step (D D' : EquivClassContainer) (new : list (string * string)) : Prop := {
  sp_static : static D D';
  sp_known : ∀ o, known D' o ↔ known D o;
  sp_mono : ∀ a b, same D a b → same D' a b;
  sp_pairs : ∀ p, call_pair D' p → call_pair D p ∨ p ∈ new;
  sp_new : ∀ p, p ∈ new → call_pair D' p;
  sp_num : (num_classes D' = num_classes D ∧ new = []) ∨ num_classes D' < num_classes D;
  sp_cells : ∀ i C, cells_of D !! i = Some C → cells_of D' !! i = Some C ∨
    ∃ x y, x ∈ Objects C ∧ same D' x y ∧ ¬ same D x y
}.

Lemma call_pair_mono D D' p :
  static D D' → (∀ a b, same D a b → same D' a b) → call_pair D p → call_pair D' p.
Proof.
  intros Hs Hm [HF (o & Ho & Hp)]. split; [by rewrite (st_functions _ _ Hs)|].
  exists o. rewrite (st_referenced _ _ Hs). auto.
Qed.

Lemma step_refl D : step D D [].
Proof. split; auto; [done|]. by intros p ?%elem_of_nil. Qed.

Lemma step_trans D1 D2 D3 l1 l2 : step D1 D2 l1 → step D2 D3 l2 → step D1 D3 (l1 ++ l2).
Proof.
  intros S1 S2. destruct (S1) as [A1 A2 A3 A4 A5 A6 A7], (S2) as [B1 B2 B3 B4 B5 B6 B7]. split.
  - by transitivity D2.
  - intros o. by rewrite B2.
  - auto.
  - intros p [Hp|Hp]%B4; [destruct (A4 p Hp)|]; [by left|right; set_solver..].
  - intros p [Hp|Hp]%elem_of_app; [|by apply B5]. eapply call_pair_mono; [done|apply B3|by apply A5].
  - destruct A6 as [[E ->]|A6], B6 as [[E' ->]|B6]; [left; split; [lia|done]|right; lia..].
  - intros i C [HC|(x & y & ? & ? & ?)]%A7; [|right; exists x, y; by auto].
    destruct (B7 i C HC) as [?|(x & y & ? & ? & ?)]; [by left|right; exists x, y; by auto 6].
Qed.

Lemma step_num D D' l : step D D' l → num_classes D' ≤ num_classes D.
Proof. intros S. destruct (sp_num _ _ _ S) as [[? _]|?]; lia. Qed.

(** ** The invariant *)

(** Joined by the classes and the pending pairs [X]. *)
Definition linked (D : EquivClassContainer) (X : list (string * string)) : relation string :=
  rtsc (λ a b, same D a b ∨ (a, b) ∈ X).

#[export] Instance linked_equivalence D X : Equivalence (linked D X).
Proof. unfold linked. apply _. Qed.

Lemma linked_same D X a b : same D a b → linked D X a b.
Proof. intros. apply rtc_once. left. by left. Qed.
Lemma linked_pending D X a b : (a, b) ∈ X → linked D X a b.
Proof. intros. apply rtc_once. left. by right. Qed.

(** The least relation of this kind. *)
Lemma linked_least D X (R : relation string) `{!Equivalence R} a b :
  (∀ a b, same D a b → R a b) → (∀ a b, (a, b) ∈ X → R a b) → linked D X a b → R a b.
Proof.
  intros Hs Hx. induction 1 as [a|a b c [[Hab|Hab]|[Hab|Hab]] _ IH]; [done|..];
    (etrans; [|exact IH]); auto; symmetry; auto.
Qed.

Lemma linked_mono D D' X X' a b :
  (∀ a b, same D a b → same D' a b) → (∀ p, p ∈ X → p ∈ X') → linked D X a b → linked D' X' a b.
Proof.
  intros Hs Hx. apply linked_least; [apply _|..]; intros; [apply linked_same|apply linked_pending]; auto.
Qed.

Lemma linked_nil D a b : known D a → linked D [] a b → same D a b.
Proof.
  intros Ha Hl. assert (same D a b ∨ a = b) as [?| <-]; [|done|by apply same_refl].
  clear Ha. induction Hl as [a|a b c [[Hab|?%elem_of_nil]|[Hab%same_sym|?%elem_of_nil]] _ IH];
    [by right|left..|done]; destruct IH as [Hbc| <-]; eauto using same_trans; done.
Qed.

Section closure.
(** [pre o p]: the object [o] has the prefix [p].  [Cg] is a congruence. *)
Context (pre : string → Prefix → Prop) (Cg : relation string).

Record congruence : Prop := {
  cg_equivalence : Equivalence Cg;
  cg_prefix : ∀ o o' p p', Cg o o' → pre o p → pre o' p' → pf_Member p = pf_Member p' →
    Cg (pf_Object p) (pf_Object p')
}.

(** Without regard to whether the objects of prefixes and pairs are known. *)
Record cong_core (X : list (string * string)) (D : EquivClassContainer) : Prop := {
  cc_wf : classes_wf D;
  cc_own : ∀ o p i, pre o p → FindMap D !! o = Some i → ∃ C q, cells_of D !! i = Some C ∧
    q ∈ Prefixes C ∧ pf_Member q = pf_Member p ∧ linked D X (pf_Object q) (pf_Object p);
  cc_uniq : ∀ i C p q, cells_of D !! i = Some C → p ∈ Prefixes C → q ∈ Prefixes C →
    pf_Member p = pf_Member q → linked D X (pf_Object p) (pf_Object q);
  cc_from : ∀ i C q, cells_of D !! i = Some C → q ∈ Prefixes C → ∃ o, o ∈ Objects C ∧ pre o q;
  cc_sound : ∀ a b, same D a b → Cg a b;
  cc_sound_pending : ∀ a b, (a, b) ∈ X → Cg a b
}.

Record cong_inv (X : list (string * string)) (D : EquivClassContainer) : Prop := {
  ci_core : cong_core X D;
  ci_known : ∀ o p, pre o p → known D (pf_Object p);
  ci_known_pending : ∀ a b, (a, b) ∈ X → known D a ∧ known D b
}.

Section projections.
Context (X : list (string * string)) (D : EquivClassContainer) (HI : cong_inv X D).
Definition ci_wf := cc_wf _ _ (ci_core _ _ HI).
Definition ci_own := cc_own _ _ (ci_core _ _ HI).
Definition ci_uniq := cc_uniq _ _ (ci_core _ _ HI).
Definition ci_from := cc_from _ _ (ci_core _ _ HI).
Definition ci_sound := cc_sound _ _ (ci_core _ _ HI).
Definition ci_sound_pending := cc_sound_pending _ _ (ci_core _ _ HI).
End projections.

(** More pending pairs. *)
Lemma cong_core_weaken X X' D :
  cong_core X D → (∀ p, p ∈ X → p ∈ X') → (∀ a b, (a, b) ∈ X' → Cg a b) → cong_core X' D.
Proof.
  intros [H1 H2 H3 H4 H5 H6] HX HX'.
  assert (∀ x y, linked D X x y → linked D X' x y) as Hl by (intros x y; by apply linked_mono).
  split; try done.
  - intros o p i Hp Hi. destruct (H2 o p i Hp Hi) as (C & q & ? & ? & ? & ?). eauto 10.
  - eauto.
Qed.

(** Adding a pair to merge, and removing one that has been merged. *)
Lemma cong_inv_add X D a b :
  cong_inv X D → known D a → known D b → Cg a b → cong_inv ((a, b) :: X) D.
Proof.
  intros [H1 H2 H3] Ha Hb Hab. split; [|done|].
  - apply (cong_core_weaken X); [done|set_solver|].
    intros x y [[= -> ->]|?]%elem_of_cons; [done|]. by apply (cc_sound_pending _ _ H1).
  - intros x y [[= -> ->]|?]%elem_of_cons; eauto.
Qed.

Lemma cong_inv_remove X D a b : cong_inv ((a, b) :: X) D → same D a b → cong_inv X D.
Proof.
  intros [[H1 H2 H3 H4 H5 H6] H7 H8] Hab.
  assert (∀ x y, linked D ((a, b) :: X) x y → linked D X x y) as Hl.
  { intros x y. apply linked_least; [apply _|..]; intros ? ?; [apply linked_same|].
    intros [[= -> ->]|?]%elem_of_cons; [by apply linked_same|by apply linked_pending]. }
  split; [split|..]; try done.
  - intros o p i Hp Hi. destruct (H2 o p i Hp Hi) as (C & q & ? & ? & ? & ?). eauto 10.
  - eauto.
  - intros x y ?. apply H6. set_solver.
  - intros x y ?. apply H8. set_solver.
Qed.

Lemma cong_inv_pending X D a b : cong_inv ((a, b) :: X) D → known D a ∧ known D b ∧ Cg a b.
Proof.
  intros H. destruct (ci_known_pending _ _ H a b) as [? ?]; [set_solver|].
  split_and!; [done..|]. apply (ci_sound_pending _ _ H). set_solver.
Qed.

(** Merging two classes whose objects are related: the pairs it asks for become
    pending. *)
Section merged_core.
Context (X : list (string * string)) (D : EquivClassContainer) (E1 E2 : nat) (C1 C2 : EquivClass).
Context (Q : list Prefix) (otm : list (string * string)).
Hypothesis HCg : congruence.
Hypothesis HI : cong_core X D.
Hypothesis Hne : E1 ≠ E2.
Hypothesis H1 : cells_of D !! E1 = Some C1.
Hypothesis H2 : cells_of D !! E2 = Some C2.
Hypothesis HQ : prefixes_merged (Prefixes C1) (Prefixes C2) Q otm.
Hypothesis Hrel : ∀ a b, a ∈ Objects C1 → b ∈ Objects C2 → Cg a b.

Let D' := merged D E1 E2 C1 C2 Q.
Let Hwf := cc_wf _ _ HI.

(** All objects of both classes are related. *)
Lemma merged_related a b : a ∈ Objects C1 ++ Objects C2 → b ∈ Objects C1 ++ Objects C2 → Cg a b.
Proof.
  pose proof (cg_equivalence HCg) as Heq.
  assert (∀ i C x y, cells_of D !! i = Some C → x ∈ Objects C → y ∈ Objects C → Cg x y) as Hin.
  { intros i C x y Hi Hx Hy. apply (cc_sound _ _ HI).
    exists i. split; by eapply wf_object. }
  intros [Ha|Ha]%elem_of_app [Hb|Hb]%elem_of_app; eauto. symmetry. eauto.
Qed.

Lemma merged_linked x y : linked D X x y → linked D' (otm ++ X) x y.
Proof. apply linked_mono; [intros a b; by apply merged_mono|set_solver]. Qed.

Lemma merged_owner q : q ∈ Prefixes C1 ∨ q ∈ Prefixes C2 → ∃ o, o ∈ Objects C1 ++ Objects C2 ∧ pre o q.
Proof.
  intros [Hq|Hq]; [destruct (cc_from _ _ HI E1 C1 q)|destruct (cc_from _ _ HI E2 C2 q)]; set_solver.
Qed.

Lemma merged_pair a b :
  (a, b) ∈ otm → Cg a b ∧ ∃ P q, a = pf_Object P ∧ b = pf_Object q ∧
    (∃ o, pre o P) ∧ (∃ o, pre o q).
Proof.
  intros (P & q & HP & Hq & Hm & -> & ->)%(pm_pairs _ _ _ _ HQ).
  destruct (merged_owner P) as (o & Ho & Hop); [by right|].
  destruct (merged_owner q) as (o' & Ho' & Hoq); [done|].
  split; [|exists P, q; eauto 10].
  eapply (cg_prefix HCg o o'); [by apply merged_related|done..].
Qed.

Lemma merged_own o p i :
  pre o p → FindMap D' !! o = Some i → ∃ C q, cells_of D' !! i = Some C ∧
    q ∈ Prefixes C ∧ pf_Member q = pf_Member p ∧ linked D' (otm ++ X) (pf_Object q) (pf_Object p).
Proof.
  intros Hp. unfold D'. rewrite (merged_find D E1 E2 C1 C2) by done.
  assert (∀ j q Cj, pre o p → cells_of D !! j = Some Cj → q ∈ Prefixes Cj → j = E1 ∨ j = E2 →
    pf_Member q = pf_Member p → linked D X (pf_Object q) (pf_Object p) →
    ∃ q', q' ∈ Q ∧ pf_Member q' = pf_Member p ∧ linked D' (otm ++ X) (pf_Object q') (pf_Object p))
    as Hmove.
  { intros j q Cj _ Hj Hq Hd Hm Hl%merged_linked. destruct Hd as [-> | ->].
    - exists q. split_and!; [|done..]. apply (pm_left _ _ _ _ HQ). naive_solver.
    - destruct (pm_right _ _ _ _ HQ q) as (q' & Hq' & Hm' & Ho'); [naive_solver|].
      exists q'. split_and!; [done|congruence|]. etrans; [|exact Hl].
      destruct Ho' as [-> | Ho']; [done|]. symmetry. apply linked_pending. set_solver. }
  destruct (decide (o ∈ Objects C1 ++ Objects C2)) as [Ho|Ho].
  - intros [= <-]. exists (mkEquivClass (Objects C1 ++ Objects C2) Q).
    assert (∃ j, FindMap D !! o = Some j ∧ (j = E1 ∨ j = E2)) as (j & Hj & Hd).
    { apply elem_of_app in Ho as [Ho|Ho]; [exists E1|exists E2];
        (split; [by eapply wf_object|auto]). }
    destruct (cc_own _ _ HI o p j Hp Hj) as (C & q & HC & Hq & Hm & Hl).
    destruct (Hmove j q C) as (q' & ? & ? & ?); [done..|]. exists q'.
    rewrite (merged_lookup D E1 E2 C1 C2), decide_True by done. done.
  - intros Hi. destruct (cc_own _ _ HI o p i Hp Hi) as (C & q & HC & Hq & Hm & Hl).
    exists C, q. rewrite (merged_lookup D E1 E2 C1 C2) by done.
    destruct (wf_class _ _ _ Hwf Hi) as (C' & HC' & HoC).
    rewrite !decide_False; [split_and!; [done..|by apply merged_linked]| |].
    + intros [-> | ->]; set_solver.
    + pose proof (cw_next _ Hwf i). intros ->.
      assert (next_cell (EquivClasses D) < next_cell (EquivClasses D)); [|lia].
      apply (cw_next _ Hwf). by exists C.
Qed.

Lemma merged_core : cong_core (otm ++ X) D'.
Proof.
  split.
  - by apply merged_wf.
  - apply merged_own.
  - intros i C p q. unfold D'. rewrite (merged_lookup D E1 E2 C1 C2) by done.
    destruct (decide _) as [_|_].
    + intros [= <-] Hp Hq Hm. simpl in *. destruct (pm_uniq _ _ _ _ HQ p q) as [[??]| ->]; [done..| |done].
      apply merged_linked. by eapply (cc_uniq _ _ HI E1 C1).
    + destruct (decide _); [done|]. intros. apply merged_linked. by eapply (cc_uniq _ _ HI i C).
  - intros i C q. unfold D'. rewrite (merged_lookup D E1 E2 C1 C2) by done.
    destruct (decide _) as [_|_]; [|destruct (decide _); [done|]; apply (cc_from _ _ HI)].
    intros [= <-] Hq. apply merged_owner. by apply (pm_from _ _ _ _ HQ).
  - intros a b [Hab|[Ha Hb]]%merged_same; [by apply (cc_sound _ _ HI)|by apply merged_related|done..].
  - intros a b [Hab|Hab]%elem_of_app; [by apply merged_pair|by apply (cc_sound_pending _ _ HI)].
Qed.
End merged_core.

Lemma merged_inv X D E1 E2 C1 C2 Q otm :
  congruence → cong_inv X D → E1 ≠ E2 → cells_of D !! E1 = Some C1 → cells_of D !! E2 = Some C2 →
  prefixes_merged (Prefixes C1) (Prefixes C2) Q otm →
  (∀ a b, a ∈ Objects C1 → b ∈ Objects C2 → Cg a b) →
  cong_inv (otm ++ X) (merged D E1 E2 C1 C2 Q).
Proof.
  intros HCg [HI Hk Hp] Hne H1 H2 HQ Hrel. pose proof (cc_wf _ _ HI) as Hwf. split.
  - by apply merged_core.
  - intros o p Hop. apply merged_known; [done..|]. by eapply Hk.
  - intros a b [Hab|Hab]%elem_of_app; rewrite !merged_known by done; [|by apply Hp].
    destruct (merged_pair X D E1 E2 C1 C2 Q otm HCg HI Hne H1 H2 HQ Hrel a b Hab)
      as (_ & P & q & -> & -> & [o Ho] & [o' Ho']). split; by eapply Hk.
Qed.
End closure.
Arguments cong_inv_add {pre Cg X D a b}.
Arguments cong_inv_remove {pre Cg X D a b}.
