(* ===== verification/AliasRecursion.v ===== *)
(** * The recursive merge

    Merging two classes with all that follows: it terminates, because every
    merge leaves one class less, and makes the classes the least congruence that
    joins the two; the calls it returns are those that a class newly brings
    together with a function. *)

From S2P Require Import Prelude AliasNames AliasClasses AliasWf AliasClosure.

Section recursion.
Context (pre : string → Prefix → Prop) (Cg : relation string).
Hypothesis HCg : congruence pre Cg.

Abbreviation inv := (cong_inv pre Cg).
Abbreviation merging :=
  (EquivClassContainer → nat → nat → outcome (EquivClassContainer * (list (string * string) * nat))).

(** What the recursive calls are to do for containers of at most [k] classes. *)
Definition rec_ok (rec : merging) (k : nat) : Prop :=
  ∀ X D E1 E2 C1 C2,
    inv X D → E1 ≠ E2 → cells_of D !! E1 = Some C1 → cells_of D !! E2 = Some C2 →
    (∀ a b, a ∈ Objects C1 → b ∈ Objects C2 → Cg a b) → num_classes D ≤ k →
    ∃ D' calls i, rec D E1 E2 ⇓ (D', (calls, i)) ∧ inv X D' ∧ step D D' calls ∧
      (∀ a b, a ∈ Objects C1 → b ∈ Objects C2 → same D' a b).

(** A pair that is to be merged relates all objects of the two classes. *)
Lemma classes_related X D a b i j C1 C2 :
  inv X D → Cg a b → FindMap D !! a = Some i → FindMap D !! b = Some j →
  cells_of D !! i = Some C1 → cells_of D !! j = Some C2 →
  ∀ x y, x ∈ Objects C1 → y ∈ Objects C2 → Cg x y.
Proof.
  intros HI Hab Ha Hb H1 H2 x y Hx Hy. pose proof (cg_equivalence _ _ HCg).
  pose proof (ci_wf _ _ _ _ HI) as Hwf.
  transitivity a; [|transitivity b; [done|]].
  - apply (ci_sound _ _ _ _ HI). exists i. split; [by eapply wf_object|done].
  - apply (ci_sound _ _ _ _ HI). exists j. split; [done|by eapply wf_object].
Qed.

Lemma merge_objects_ok rec k X D calls L R :
  rec_ok rec k → inv ((L, R) :: X) D → num_classes D ≤ k →
  ∃ D' new, merge_objects rec (D, calls) L R ⇓ (D', calls ++ new) ∧
    inv X D' ∧ step D D' new ∧ same D' L R.
Proof.
  intros Hrec HI Hk. destruct (cong_inv_pending _ _ _ _ _ _ HI) as ([i Hi] & [j Hj] & Hab).
  unfold merge_objects, find_class. simpl. rewrite Hi, Hj. simpl.
  destruct (decide (i ≠ j)) as [Hij|Hij].
  - pose proof (ci_wf _ _ _ _ HI) as Hwf.
    destruct (wf_class _ _ _ Hwf Hi) as (C1 & HC1 & HL), (wf_class _ _ _ Hwf Hj) as (C2 & HC2 & HR).
    destruct (Hrec ((L, R) :: X) D i j C1 C2) as (D' & new & e & Hr & HI' & HS & Hsame); [done..| |done|].
    { by eapply classes_related. }
    exists D', new. rewrite Hr. split_and!; [done| |done|by apply Hsame].
    eapply cong_inv_remove; [done|]. by apply Hsame.
  - exists D, []. rewrite app_nil_r. assert (i = j) as <- by lia. assert (same D L R) by by exists i.
    split_and!; [done|by eapply cong_inv_remove|apply step_refl|done].
Qed.

(** A list of pairs, one after the other. *)
Lemma merge_list_ok rec k X D calls (l : list (string * string)) :
  rec_ok rec k → inv (l ++ X) D → num_classes D ≤ k →
  ∃ D' new, foldM (λ st e, merge_objects rec st e.1 e.2) (D, calls) l ⇓ (D', calls ++ new) ∧
    inv X D' ∧ step D D' new ∧ ∀ a b, (a, b) ∈ l → same D' a b.
Proof.
  intros Hrec. revert D calls. induction l as [|[a b] l IH]; intros D calls HI Hk; simpl.
  - exists D, []. rewrite app_nil_r. split_and!; [done..|apply step_refl|by intros ?? ?%elem_of_nil].
  - destruct (merge_objects_ok rec k (l ++ X) D calls a b) as (D1 & n1 & -> & HI1 & S1 & Hab); [done..|].
    simpl. pose proof (step_num _ _ _ S1).
    destruct (IH D1 (calls ++ n1)) as (D2 & n2 & -> & HI2 & S2 & Hl); [done|lia|].
    exists D2, (n1 ++ n2). rewrite app_assoc. split_and!; [done..|by eapply step_trans|].
    intros x y [[= -> ->]|Hxy]%elem_of_cons; [by apply (sp_mono _ _ _ S2)|by apply Hl].
Qed.

(** The objects of the two classes were apart, and are joined. *)
Lemma merged_apart D E1 E2 C1 C2 Q D' j C :
  classes_wf D → E1 ≠ E2 → cells_of D !! E1 = Some C1 → cells_of D !! E2 = Some C2 →
  (∀ a b, same (merged D E1 E2 C1 C2 Q) a b → same D' a b) →
  cells_of D !! j = Some C → j = E1 ∨ j = E2 →
  ∃ x y, x ∈ Objects C ∧ same D' x y ∧ ¬ same D x y.
Proof.
  intros Hwf Hne H1 H2 Hm Hj Hd.
  destruct (Objects C1) as [|a l1] eqn:HC1; [by destruct (cw_nonempty _ Hwf E1 C1 H1)|].
  destruct (Objects C2) as [|b l2] eqn:HC2; [by destruct (cw_nonempty _ Hwf E2 C2 H2)|].
  assert (a ∈ Objects C1) as Ha by (rewrite HC1; by left).
  assert (b ∈ Objects C2) as Hb by (rewrite HC2; by left).
  assert (¬ same D a b) as Hab.
  { intros (i & Hia & Hib). rewrite (wf_object _ _ _ _ Hwf H1 Ha) in Hia.
    rewrite (wf_object _ _ _ _ Hwf H2 Hb) in Hib. congruence. }
  assert (same D' a b) as Hs by (apply Hm, merged_joins; set_solver).
  destruct Hd as [-> | ->].
  - exists a, b. by assert (C = C1) as -> by congruence.
  - exists b, a. assert (C = C2) as -> by congruence. split_and!; [done|by apply same_sym|].
    intros ?. by apply Hab, same_sym.
Qed.

(** The calls of the class that holds the merged objects cover what the merge
    brought together. *)
Lemma merged_calls D E1 E2 C1 C2 Q D' calls C front i :
  classes_wf D → E1 ≠ E2 → cells_of D !! E1 = Some C1 → cells_of D !! E2 = Some C2 →
  classes_wf D' → step (merged D E1 E2 C1 C2 Q) D' calls →
  front ∈ Objects C1 → FindMap D' !! front = Some i → cells_of D' !! i = Some C →
  step D D' (GetFunctionsToMerge D' calls C).
Proof.
  intros Hwf Hne H1 H2 Hwf' S Hfront Hi HC.
  set (D1 := merged D E1 E2 C1 C2 Q) in *.
  assert (∀ o, o ∈ Objects C1 ++ Objects C2 → o ∈ Objects C) as Hall.
  { intros o Ho. assert (same D1 front o) as Hs%(sp_mono _ _ _ S).
    { apply merged_joins; [done..|set_solver|done]. }
    destruct Hs as (i' & Hf & Hoi). rewrite Hi in Hf. injection Hf as <-.
    destruct (wf_class _ _ _ Hwf' Hoi) as (C' & HC' & ?). naive_solver. }
  split.
  - transitivity D1; [apply merged_static|apply S].
  - intros o. rewrite (sp_known _ _ _ S). by apply merged_known.
  - intros a b Hab. apply (sp_mono _ _ _ S). by apply merged_mono.
  - intros p [Hp|Hp]%(sp_pairs _ _ _ S); [|right; apply elem_of_GetFunctionsToMerge; by left].
    destruct Hp as [HF (o & Ho & Hp)]. apply merged_same in Hp as [Hp|[Hp1 Hp2]]; [|right|done..].
    + left. split; [done|]. exists o. done.
    + apply elem_of_GetFunctionsToMerge. right. split_and!; [by apply Hall| |].
      * by rewrite (st_functions _ _ (sp_static _ _ _ S)).
      * exists o. rewrite (st_referenced _ _ (sp_static _ _ _ S)). auto.
  - intros p [Hp|(HpC & HF & o & Ho & Hp)]%elem_of_GetFunctionsToMerge; [by apply S|].
    split; [done|]. exists o. split; [done|]. exists i. split; by eapply wf_object.
  - right. pose proof (step_num _ _ _ S). pose proof (merged_num D E1 E2 C1 C2 Hwf Hne H1 H2 Q).
    fold D1 in H0. lia.
  - intros j Cj Hj. destruct (decide (j = E1 ∨ j = E2)) as [Hd|Hd].
    + right. by apply (merged_apart D E1 E2 C1 C2 Q D' j Cj); [..|apply S| |].
    + assert (cells_of D1 !! j = Some Cj) as [?|(x & y & ? & ? & Hxy)]%(sp_cells _ _ _ S); [|by left|].
      * unfold D1. rewrite (merged_lookup D E1 E2 C1 C2) by done. rewrite !decide_False; [done..|].
        intros ->. assert (next_cell (EquivClasses D) < next_cell (EquivClasses D)); [|lia].
        apply (cw_next _ Hwf). by exists Cj.
      * right. exists x, y. split_and!; [done..|]. intros ?. by apply Hxy, merged_mono.
Qed.

Lemma mergeRecurisve_ok fuel : rec_ok (mergeRecurisve fuel) fuel.
Proof.
  induction fuel as [|fuel IH]; intros X D E1 E2 C1 C2 HI Hne H1 H2 Hrel Hk.
  { exfalso. pose proof (merged_num D E1 E2 C1 C2 (ci_wf _ _ _ _ HI) Hne H1 H2 []). lia. }
  pose proof (ci_wf _ _ _ _ HI) as Hwf.
  destruct (merge_classes_ret D E1 E2 C1 C2 Hwf Hne H1 H2) as (Q & otm & front & Hm & HQ & Hfront).
  simpl. rewrite Hm. simpl.
  set (D1 := merged D E1 E2 C1 C2 Q) in *.
  pose proof (merged_inv pre Cg X D E1 E2 C1 C2 Q otm HCg HI Hne H1 H2 HQ Hrel) as HI1.
  pose proof (merged_num D E1 E2 C1 C2 Hwf Hne H1 H2 Q) as Hn. fold D1 in Hn, HI1.
  destruct (merge_list_ok (mergeRecurisve fuel) fuel X D1 [] otm) as (D2 & new & Hf & HI2 & S & _);
    [done..|lia|].
  rewrite Hf. simpl. pose proof (ci_wf _ _ _ _ HI2) as Hwf2.
  assert (∀ a b, a ∈ Objects C1 ++ Objects C2 → b ∈ Objects C1 ++ Objects C2 → same D2 a b) as Hjoin.
  { intros a b Ha Hb. apply (sp_mono _ _ _ S). by apply merged_joins. }
  destruct (Hjoin front front) as (i & Hi & _); [set_solver..|].
  destruct (wf_class _ _ _ Hwf2 Hi) as (C & HC & _).
  unfold entry_class, list_get. rewrite Hi. simpl. rewrite HC. simpl.
  eexists D2, _, i. split_and!; [done..| |].
  - by eapply merged_calls.
  - intros a b Ha Hb. apply Hjoin; set_solver.
Qed.

(** Merging the classes of two objects, from outside. *)
Lemma merge_two_ok fuel D calls L R :
  inv [] D → known D L → known D R → Cg L R → num_classes D ≤ fuel →
  ∃ D' new, merge_objects (mergeRecurisve fuel) (D, calls) L R ⇓ (D', calls ++ new) ∧
    inv [] D' ∧ step D D' new ∧ same D' L R.
Proof.
  intros HI HL HR Hab Hk.
  apply (merge_objects_ok _ fuel [] D calls L R (mergeRecurisve_ok fuel)); [|done].
  by apply cong_inv_add.
Qed.
End recursion.

(** ** As a specification of its own *)

(** The prefixes of an object's class. *)
Definition prefix_of (D : EquivClassContainer) (o : string) (p : Prefix) : Prop :=
  ∃ i C, FindMap D !! o = Some i ∧ cells_of D !! i = Some C ∧ p ∈ Prefixes C.

(** The classes partition the objects, prefixes lead to objects, and those of
    one class with the same member lead to the same class. *)
Record container_ok (D : EquivClassContainer) : Prop := {
  co_wf : classes_wf D;
  co_known : ∀ o p, prefix_of D o p → known D (pf_Object p);
  co_consistent : ∀ o p q, prefix_of D o p → prefix_of D o q → pf_Member p = pf_Member q →
    same D (pf_Object p) (pf_Object q)
}.

(** The least congruence that joins the classes [C1] and [C2]. *)
Inductive merge_closure (D : EquivClassContainer) (C1 C2 : EquivClass) : relation string :=
  | mc_same a b : same D a b → merge_closure D C1 C2 a b
  | mc_merge a b : a ∈ Objects C1 → b ∈ Objects C2 → merge_closure D C1 C2 a b
  | mc_refl a : merge_closure D C1 C2 a a
  | mc_sym a b : merge_closure D C1 C2 a b → merge_closure D C1 C2 b a
  | mc_trans a b c : merge_closure D C1 C2 a b → merge_closure D C1 C2 b c → merge_closure D C1 C2 a c
  | mc_prefix o o' p p' : merge_closure D C1 C2 o o' → prefix_of D o p → prefix_of D o' p' →
      pf_Member p = pf_Member p' → merge_closure D C1 C2 (pf_Object p) (pf_Object p').

Lemma merge_closure_congruence D C1 C2 : congruence (prefix_of D) (merge_closure D C1 C2).
Proof.
  split.
  - split; [intros ?; apply mc_refl|intros ??; apply mc_sym|intros ???; apply mc_trans].
  - intros o o' p p'. apply mc_prefix.
Qed.

(** A consistent container satisfies the invariant without pending pairs. *)
Lemma container_inv (Cg : relation string) D :
  container_ok D → (∀ a b, same D a b → Cg a b) → cong_inv (prefix_of D) Cg [] D.
Proof.
  intros [Hwf Hk Hc] HCg. split; [|done|by intros ?? ?%elem_of_nil].
  split; [done| | | |done|by intros ?? ?%elem_of_nil].
  - intros o p i Hp Hi. pose proof (Hk o p Hp). destruct Hp as (j & C & Hj & HC & Hp).
    exists C, p. assert (i = j) as -> by congruence. split_and!; [done..|]. reflexivity.
  - intros i C p q HC Hp Hq Hm. destruct (Objects C) as [|o os] eqn:Eo.
    { by destruct (cw_nonempty _ Hwf i C HC). }
    apply linked_same, (Hc o); [exists i, C..|done]; (split_and!; [|done..]);
      (eapply wf_object; [done..|]; rewrite Eo; set_solver).
  - intros i C q HC Hq. destruct (Objects C) as [|o os] eqn:Eo.
    { by destruct (cw_nonempty _ Hwf i C HC). }
    exists o. split; [set_solver|]. exists i, C. split_and!; [|done..].
    eapply wf_object; [done..|]. rewrite Eo. set_solver.
Qed.

(** And conversely: what holds when nothing is pending any more. *)
Lemma inv_congruent pre Cg D o o' p p' :
  cong_inv pre Cg [] D → same D o o' → pre o p → pre o' p' → pf_Member p = pf_Member p' →
  same D (pf_Object p) (pf_Object p').
Proof.
  intros HI (i & Ho & Ho') Hp Hp' Hm.
  destruct (ci_own _ _ _ _ HI o p i Hp Ho) as (C & q & HC & Hq & Hqm & Hl).
  destruct (ci_own _ _ _ _ HI o' p' i Hp' Ho') as (C' & q' & HC' & Hq' & Hqm' & Hl').
  assert (C' = C) as -> by congruence.
  apply linked_nil; [by eapply (ci_known _ _ _ _ HI)|].
  transitivity (pf_Object q); [by symmetry|]. transitivity (pf_Object q'); [|done].
  eapply (ci_uniq _ _ _ _ HI); [done..|congruence].
Qed.

Lemma inv_container pre Cg D : cong_inv pre Cg [] D → container_ok D.
Proof.
  intros HI. pose proof (ci_wf _ _ _ _ HI) as Hwf.
  assert (∀ o p, prefix_of D o p → known D (pf_Object p)) as Hk.
  { intros o p (i & C & Hi & HC & Hp). destruct (ci_from _ _ _ _ HI i C p) as (o' & _ & Hp'); [done..|].
    by eapply (ci_known _ _ _ _ HI). }
  split; [done..|]. intros o p q Hp Hq Hm. pose proof (Hk o p Hp).
  destruct Hp as (i & C & Hi & HC & Hp), Hq as (j & C' & Hj & HC' & Hq).
  assert (j = i) as -> by congruence. assert (C' = C) as -> by congruence.
  apply linked_nil; [done|]. by eapply (ci_uniq _ _ _ _ HI).
Qed.

(** What the classes join is in every relation of this kind. *)
Lemma closure_same D C1 C2 D' l a b :
  cong_inv (prefix_of D) (merge_closure D C1 C2) [] D' → step D D' l →
  (∀ a b, a ∈ Objects C1 → b ∈ Objects C2 → same D' a b) →
  merge_closure D C1 C2 a b → a = b ∨ same D' a b.
Proof.
  intros HI HS Hm.
  assert (∀ o, known D o → known D' o) as Hk.
  { intros o Ho. by apply (sp_known _ _ _ HS). }
  pose proof (sp_mono _ _ _ HS) as Hmono.
  induction 1 as [a b Hab|a b Ha Hb|a|a b _ IH|a b c _ IH1 _ IH2|o o' p p' _ IH Hp Hp' Hpm].
  - right. auto.
  - right. auto.
  - by left.
  - destruct IH as [->|IH]; [by left|right]. by apply same_sym.
  - destruct IH1 as [->|IH1]; [done|]. destruct IH2 as [<-|IH2]; [by right|right]. by eapply same_trans.
  - right. assert (same D' o o') as Hs.
    { destruct IH as [<-|IH]; [|done]. apply same_refl, Hk. destruct Hp as (i & ? & Hi & _). by exists i. }
    by eapply inv_congruent.
Qed.

(** C8: [mergeRecurisve] is congruence closure.  On classes that partition the
    objects and are consistent with their prefixes, with as much fuel as there
    are classes, it returns; the classes are consistent again, and two objects
    are in one class exactly if the least congruence that contains the old
    classes and joins the two given ones relates them. *)
Theorem mergeRecurisve_closure D E1 E2 C1 C2 fuel :
  container_ok D → E1 ≠ E2 → cells_of D !! E1 = Some C1 → cells_of D !! E2 = Some C2 →
  num_classes D ≤ fuel →
  ∃ D' calls i, mergeRecurisve fuel D E1 E2 ⇓ (D', (calls, i)) ∧ container_ok D' ∧
    (∀ o o', same D' o o' ↔ known D o ∧ known D o' ∧ merge_closure D C1 C2 o o') ∧
    (∀ p, call_pair D' p → call_pair D p ∨ p ∈ calls) ∧ (∀ p, p ∈ calls → call_pair D' p).
Proof.
  intros Hok Hne H1 H2 Hk.
  destruct (mergeRecurisve_ok (prefix_of D) _ (merge_closure_congruence D C1 C2) fuel [] D E1 E2 C1 C2)
    as (D' & calls & i & Hr & HI & S & Hs); [|done..|by apply mc_merge|done|].
  { apply container_inv; [done|]. apply mc_same. }
  exists D', calls, i. split_and!; [done|by eapply inv_container| |apply S..].
  intros o o'. split.
  - intros Ho. destruct (same_known _ _ _ Ho) as [Hko Hko'].
    rewrite <- !(sp_known _ _ _ S). split_and!; [done..|]. by apply (ci_sound _ _ _ _ HI).
  - intros (Hko & Hko' & Hc). destruct (closure_same D C1 C2 D' calls o o' HI S Hs Hc) as [<-|?]; [|done].
    apply same_refl. by apply (sp_known _ _ _ S).
Qed.

(** * Merging along calls

    A call of a function merges its arguments with the parameters and its
    result with what the function returns; what it brings together are again
    calls to process. *)

(** What a call of a function joins. *)
Inductive call_joins (fi : FunctionInfo) (CI : CallInfo) (CallExprUSR : string) : relation string :=
  | cj_argument k p args a :
      Parameters_ fi !! k = Some p → Arguments_ CI !! k = Some args → a ∈ args →
      call_joins fi CI CallExprUSR p a
  | cj_return r : r ∈ ReferencedInReturnStmts fi → call_joins fi CI CallExprUSR CallExprUSR r.

(** What the maps about functions and calls mention are objects. *)
Record call_data_ok (D : EquivClassContainer) : Prop := {
  cd_function : ∀ o f, FunctionMap D !! o = Some f → is_Some (FunctionInfoMap D !! f);
  cd_info : ∀ f fi, FunctionInfoMap D !! f = Some fi →
    Forall (known D) (Parameters_ fi) ∧ Forall (known D) (ReferencedInReturnStmts fi);
  cd_call : ∀ c ci, CallInfoMap D !! c = Some ci →
    known D c ∧ Forall (Forall (known D)) (Arguments_ ci);
  cd_refs : ∀ o c, c ∈ default [] (ReferencedInCalls D !! o) → is_Some (CallInfoMap D !! c)
}.

Lemma call_data_ok_mono D D' :
  static D D' → (∀ o, known D' o ↔ known D o) → call_data_ok D → call_data_ok D'.
Proof.
  intros [S1 S2 S3 S4 S5] Hk [H1 H2 H3 H4]. split; rewrite ?S1, ?S2, ?S3, ?S5.
  - done.
  - intros f fi [? ?]%H2. split; by eapply Forall_impl; [|intros ?; apply Hk].
  - intros c ci [? ?]%H3. split; [by apply Hk|].
    eapply Forall_impl; [done|]. intros l Hl. eapply Forall_impl; [done|]. intros ?. apply Hk.
  - done.
Qed.

Lemma call_joins_known D fi CI c a b :
  Forall (known D) (Parameters_ fi) → Forall (known D) (ReferencedInReturnStmts fi) →
  Forall (Forall (known D)) (Arguments_ CI) → known D c →
  call_joins fi CI c a b → known D a ∧ known D b.
Proof.
  rewrite !Forall_forall. intros HP HR HA Hc. destruct 1 as [k p args x Hp Ha Hx|r Hr].
  - split; [by eapply HP, list_elem_of_lookup_2|].
    pose proof (HA args (list_elem_of_lookup_2 _ _ _ Ha)) as H. rewrite Forall_forall in H. auto.
  - auto.
Qed.

(** A relation that joins what calls of related functions join. *)
Definition call_closed (D : EquivClassContainer) (R : relation string) : Prop :=
  ∀ F c o f fi ci a b,
    FunctionMap D !! F = Some f → FunctionInfoMap D !! f = Some fi → CallInfoMap D !! c = Some ci →
    c ∈ default [] (ReferencedInCalls D !! o) → R F o → call_joins fi ci c a b → R a b.

Lemma call_closed_static D D' R : static D D' → call_closed D R → call_closed D' R.
Proof. intros [S1 S2 S3 S4 S5] H. unfold call_closed. rewrite S1, S2, S3, S5. exact H. Qed.

(** The arguments and the result of a call have been merged. *)
Definition call_satisfied (D : EquivClassContainer) (p : string * string) : Prop :=
  ∀ f fi ci a b,
    FunctionMap D !! p.1 = Some f → FunctionInfoMap D !! f = Some fi → CallInfoMap D !! p.2 = Some ci →
    call_joins fi ci p.2 a b → same D a b.

Lemma call_satisfied_mono D D' l p : step D D' l → call_satisfied D p → call_satisfied D' p.
Proof.
  intros S H f fi ci a b. destruct (sp_static _ _ _ S) as [-> -> -> _ _]. intros. apply S. by eapply H.
Qed.

Section calls.
Context (pre : string → Prefix → Prop) (Cg : relation string).
Hypothesis HCg : congruence pre Cg.

Abbreviation inv := (cong_inv pre Cg []).

Lemma cong_core_ext X D D' :
  EquivClasses D' = EquivClasses D → FindMap D' = FindMap D → cong_core pre Cg X D → cong_core pre Cg X D'.
Proof.
  intros HE HF [[] H2 H3 H4 H5 H6].
  assert (∀ a b, same D' a b ↔ same D a b) as Hs by (intros; unfold same; by rewrite HF).
  assert (∀ a b, linked D X a b → linked D' X a b) as Hl.
  { intros a b. apply linked_mono; [|done]. intros ??. by rewrite Hs. }
  split; rewrite ?HE, ?HF; setoid_rewrite Hs || idtac; try done.
  - split; rewrite ?HE, ?HF; done.
  - intros o p i Hp Hi. destruct (H2 o p i Hp Hi) as (C & q & ? & ? & ? & ?). eauto 10.
  - eauto.
Qed.

Lemma cong_inv_ext X D D' :
  EquivClasses D' = EquivClasses D → FindMap D' = FindMap D → cong_inv pre Cg X D → cong_inv pre Cg X D'.
Proof.
  intros HE HF [H1 H2 H3]. assert (∀ a, known D' a ↔ known D a) as Hk by (intros; unfold known; by rewrite HF).
  split; setoid_rewrite Hk || idtac; [by eapply cong_core_ext|done..].
Qed.

Lemma merge_pairs_ok fuel D calls (l : list (string * string)) :
  inv D → Forall (λ e, known D e.1 ∧ known D e.2 ∧ Cg e.1 e.2) l → num_classes D ≤ fuel →
  ∃ D' new, foldM (λ st e, merge_objects (mergeRecurisve fuel) st e.1 e.2) (D, calls) l
      ⇓ (D', calls ++ new) ∧
    inv D' ∧ step D D' new ∧ ∀ a b, (a, b) ∈ l → same D' a b.
Proof.
  intros HI Hl Hk.
  apply (merge_list_ok pre Cg HCg _ fuel [] D calls l (mergeRecurisve_ok pre Cg HCg fuel)); [|done].
  induction Hl as [|[a b] l (Ha & Hb & Hab) _ IH]; [done|]. by apply cong_inv_add.
Qed.

Lemma foldM_fmap {A B C} (f : B → A → outcome B) (g : C → A) b l :
  foldM f b (g <$> l) = foldM (λ b c, f b (g c)) b l.
Proof.
  revert b. induction l as [|c l IH]; intros b; [done|]. simpl. by destruct (f b (g c)); simpl.
Qed.

(** One object with several others. *)
Lemma merge_with_ok fuel D calls L rs :
  inv D → known D L → Forall (λ r, known D r ∧ Cg L r) rs → num_classes D ≤ fuel →
  ∃ D' new, foldM (λ st R, merge_objects (mergeRecurisve fuel) st L R) (D, calls) rs
      ⇓ (D', calls ++ new) ∧
    inv D' ∧ step D D' new ∧ ∀ r, r ∈ rs → same D' L r.
Proof.
  intros HI HL Hrs Hk.
  destruct (merge_pairs_ok fuel D calls (pair L <$> rs)) as (D' & new & Hf & HI' & S & Hs); [done| |done|].
  { rewrite Forall_fmap. eapply Forall_impl; [done|]. simpl. naive_solver. }
  rewrite foldM_fmap in Hf. exists D', new. split_and!; [done..|].
  intros r Hr. apply Hs. by apply list_elem_of_fmap_2.
Qed.

(** One parameter. *)
Lemma merge_parameter_ok fuel D calls CI k p :
  inv D → known D p →
  (∀ args a, Arguments_ CI !! k = Some args → a ∈ args → known D a ∧ Cg p a) →
  num_classes D ≤ fuel →
  ∃ D' new, merge_parameter fuel CI ((D, calls), k) p ⇓ ((D', calls ++ new), S k) ∧
    inv D' ∧ step D D' new ∧
    ∀ args a, Arguments_ CI !! k = Some args → a ∈ args → same D' p a.
Proof.
  intros HI Hkp Ha Hk. pose proof Hkp as [i Hi].
  destruct (merge_with_ok fuel D calls p (default [] (Arguments_ CI !! k)))
    as (D1 & n1 & Hf & HI1 & S1 & Hs1); [done..| |done|].
  { destruct (Arguments_ CI !! k) as [args|]; [|constructor]. apply Forall_forall. eauto. }
  exists D1, n1. unfold merge_parameter, find_class. simpl. rewrite Hi. simpl. rewrite Hf.
  split_and!; [done..|]. intros args a Hargs Hia. apply Hs1. by rewrite Hargs.
Qed.

(** The parameters from position [k] on. *)
Lemma merge_parameters_ok fuel D calls CI k (params : list string) :
  inv D → Forall (known D) params →
  (∀ i p args a, params !! i = Some p → Arguments_ CI !! (k + i) = Some args → a ∈ args →
     known D a ∧ Cg p a) →
  num_classes D ≤ fuel →
  ∃ D' new, foldM (merge_parameter fuel CI) ((D, calls), k) params
      ⇓ ((D', calls ++ new), k + length params) ∧
    inv D' ∧ step D D' new ∧
    ∀ i p args a, params !! i = Some p → Arguments_ CI !! (k + i) = Some args → a ∈ args → same D' p a.
Proof.
  revert D calls k. induction params as [|p params IH]; intros D calls k HI Hp Ha Hk.
  { exists D, []. simpl. rewrite app_nil_r, Nat.add_0_r. split_and!; [done..|apply step_refl|done]. }
  apply Forall_cons in Hp as [Hkp Hp]. cbn [foldM].
  destruct (merge_parameter_ok fuel D calls CI k p) as (D1 & n1 & -> & HI1 & S1 & Hs1); [done..| |done|].
  { intros args a Hargs Hia. apply (Ha 0 p args a); [done|by rewrite Nat.add_0_r|done]. }
  simpl. pose proof (step_num _ _ _ S1).
  destruct (IH D1 (calls ++ n1) (S k)) as (D2 & n2 & -> & HI2 & S2 & Hs2); [done| | |lia|].
  - eapply Forall_impl; [done|]. intros x. apply (sp_known _ _ _ S1).
  - intros j q args a Hj Hargs Hia. rewrite (sp_known _ _ _ S1).
    apply (Ha (S j) q args a); [done|by rewrite Nat.add_succ_r|done].
  - exists D2, (n1 ++ n2). rewrite app_assoc, Nat.add_succ_r.
    split_and!; [done..|by eapply step_trans|].
    intros [|j] q args a Hj Hargs Hia.
    + injection Hj as <-. apply (sp_mono _ _ _ S2). rewrite Nat.add_0_r in Hargs. by eapply Hs1.
    + eapply Hs2; [done| |done]. by rewrite Nat.add_succ_r in Hargs.
Qed.

Lemma mergeFunctionCallImpl_ok fuel D F C CI usr fi :
  inv D → FunctionInfoMap D !! F = Some fi → Forall (known D) (Parameters_ fi) →
  (∀ a b, call_joins fi CI usr a b → known D a ∧ known D b ∧ Cg a b) → num_classes D ≤ fuel →
  ∃ D' new, mergeFunctionCallImpl fuel D F C CI usr ⇓ (D', Some (new, (C, F))) ∧
    inv D' ∧ step D D' new ∧ ∀ a b, call_joins fi CI usr a b → same D' a b.
Proof.
  intros HI HF HP Hj Hk. unfold mergeFunctionCallImpl. rewrite HF.
  destruct (merge_parameters_ok fuel D [] CI 0 (Parameters_ fi)) as (D1 & n1 & -> & HI1 & S1 & Hs1);
    [done..| |done|].
  { intros i p args a Hp Ha Hia. destruct (Hj p a) as (? & ? & ?); [by econstructor|done]. }
  simpl. pose proof (step_num _ _ _ S1).
  assert (∃ D' n2, merge_returns fuel usr (ReferencedInReturnStmts fi) (D1, n1) ⇓ (D', n1 ++ n2) ∧
    inv D' ∧ step D1 D' n2 ∧ ∀ r, r ∈ ReferencedInReturnStmts fi → same D' usr r)
    as (D2 & n2 & -> & HI2 & S2 & Hs2).
  { destruct (ReferencedInReturnStmts fi) as [|r0 rs] eqn:Er.
    { exists D1, []. simpl. rewrite app_nil_r. split_and!; [done..|apply step_refl|by intros ? ?%elem_of_nil]. }
    destruct (Hj usr r0) as (Hu & _ & _). { apply cj_return. rewrite Er. set_solver. }
    unfold merge_returns, find_class. simpl fst. unfold getStringRepr. simpl Object.
    apply (sp_known _ _ _ S1) in Hu as Hu1. destruct Hu1 as [i Hi]. rewrite Hi.
    apply (merge_with_ok fuel D1 n1 usr (r0 :: rs)); [done|by exists i| |lia].
    apply Forall_forall. intros r Hr. destruct (Hj usr r) as (? & ? & ?).
    { apply cj_return. by rewrite Er. }
    by rewrite (sp_known _ _ _ S1). }
  simpl. exists D2, (n1 ++ n2). split_and!; [done..|by eapply step_trans|].
  intros a b [i p args x Hp Ha Hx|r Hr]; [|by apply Hs2].
  apply (sp_mono _ _ _ S2). by eapply Hs1.
Qed.

(** A call of a pair of the classes. *)
Lemma mergeFunctionCall_ok fuel D p :
  inv D → call_data_ok D → call_closed D Cg → call_pair D p → num_classes D ≤ fuel →
  ∃ D' new f, FunctionMap D !! p.1 = Some f ∧
    mergeFunctionCall fuel D p.1 p.2
      ⇓ (D', Some (new, (default EmptyString (CallExprParentMap D !! p.2), f))) ∧
    inv D' ∧ step D D' new ∧ call_satisfied D' p.
Proof.
  destruct p as [F c]. intros HI Hd Hc [[f Hf] (o & Ho & Hs)] Hk. simpl in *.
  destruct (cd_function _ Hd F f Hf) as [fi Hfi]. destruct (cd_info _ Hd f fi Hfi) as [HP HR].
  destruct (cd_refs _ Hd o c Ho) as [ci Hci]. destruct (cd_call _ Hd c ci Hci) as [Hkc HA].
  unfold mergeFunctionCall. rewrite Hf. simpl. rewrite Hci. simpl.
  set (parent := default EmptyString (CallExprParentMap D !! c)).
  set (D1 := with_CallExprParentMap D (<[c := parent]> (CallExprParentMap D))).
  assert (static D D1) as Hst.
  { split; try done. intros c'. simpl. destruct (decide (c' = c)) as [->|].
    - rewrite lookup_insert_eq. unfold parent. destruct (CallExprParentMap D !! c); [by left|right].
      split_and!; [done..|by exists ci].
    - left. by rewrite lookup_insert_ne. }
  destruct (mergeFunctionCallImpl_ok fuel D1 f parent ci c fi) as (D' & new & Hr & HI' & S & Hj);
    [by eapply (cong_inv_ext [] D)|done..| |done|].
  { intros a b Hab. destruct (call_joins_known D fi ci c a b) as [? ?]; [done..|].
    split_and!; [done..|]. eapply (Hc F c o); [done..| |done]. by apply (ci_sound _ _ _ _ HI). }
  exists D', new, f. split_and!; [done..| |].
  - destruct S as [T1 T2 T3 T4 T5 T6 T7]. split; try done. by transitivity D1.
  - destruct (sp_static _ _ _ S) as [S1 S2 S3 _ _]. intros f' fi' ci' a b. simpl.
    rewrite S1, S2, S3. simpl. intros. apply Hj. by simplify_eq.
Qed.
End calls.
