(* ===== verification/AliasExtractor.v ===== *)
(** * The alias analysis of a translation unit

    [ASTInformationExtractor] in [cgcollector/lib/src/AliasAnalysis.cpp], after
    the traversal of the syntax tree: classes and prefixes of the objects it
    found, and the merges that assignments, initializers, calls and C++ members
    ask for.  What clang says about an expression or a declaration does not
    depend on the state: it is part of what the traversal collected (the names
    an expression refers to, the USR of a declaration, the parts of an
    initializer).  The nodes of the call graph in
    [cgcollector/lib/include/CallGraph.h] are those of declarations. *)

From S2P Require Import Prelude AliasNames AliasClasses.

(** ** The call graph of the collector *)

Section extractor.
Context {Decl : Type} `{Countable Decl}.
(** [getCanonicalDecl] of clang. *)
Context (getCanonicalDecl : Decl → Decl).

Record CallGraphNode := mkCallGraphNode {
  CalledFunctions : list (option Decl);
  Parents_ : list (option Decl)
}.

(** Nodes are known by their declaration, the root by none. *)
Record CallGraph := mkCallGraph {
  cg_FunctionMap : gmap (option Decl) CallGraphNode;
  inOrderDecls : list Decl
}.

Definition cg_node (CG : CallGraph) (n : option Decl) : CallGraphNode :=
  default (mkCallGraphNode [] []) (cg_FunctionMap CG !! n).
Definition cg_set (CG : CallGraph) (n : option Decl) (node : CallGraphNode) : CallGraph :=
  mkCallGraph (<[n := node]> (cg_FunctionMap CG)) (inOrderDecls CG).

(** [CallGraphNode::addCallee] *)
Definition addCallee (CG : CallGraph) (n N : option Decl) : CallGraph :=
  let this := cg_node CG n in
  let CG := cg_set CG n (mkCallGraphNode (CalledFunctions this ++ [N]) (Parents_ this)) in
  let callee := cg_node CG N in
  cg_set CG N (mkCallGraphNode (CalledFunctions callee) (Parents_ callee ++ [n])).

(** For functions; the result is the node of the canonical declaration. *)
Definition getOrInsertNode (CG : CallGraph) (F : Decl) : CallGraph * option Decl :=
  let n := Some (getCanonicalDecl F) in
  match cg_FunctionMap CG !! n with
  | Some _ => (CG, n)
  | None =>
      let CG := mkCallGraph (<[n := mkCallGraphNode [] []]> (cg_FunctionMap CG))
                  (inOrderDecls CG ++ [getCanonicalDecl F]) in
      (addCallee CG None n, n)
  end.

(** ** The state *)

(** The cache of [mergeFunctionCall] is a static variable. *)
Record Extractor := mkExtractor {
  Data : EquivClassContainer;
  FuncDeclMap : gmap string Decl;
  CG : CallGraph;
  Cache : gset (string * string)
}.
Definition with_Data (X : Extractor) (D : EquivClassContainer) : Extractor :=
  mkExtractor D (FuncDeclMap X) (CG X) (Cache X).
Definition with_CG (X : Extractor) (cg : CallGraph) : Extractor :=
  mkExtractor (Data X) (FuncDeclMap X) cg (Cache X).
Definition with_Cache (X : Extractor) (c : gset (string * string)) : Extractor :=
  mkExtractor (Data X) (FuncDeclMap X) (CG X) c.

(** The called function is looked up before the nodes are created; the node of
    the callee comes first. *)
Definition addCallToCallGraph (X : Extractor) (CallingFunctionName CalledFunctionName : string)
    : outcome Extractor :=
  match FuncDeclMap X !! CallingFunctionName with
  | None => AssertFail
  | Some CallingFunction =>
      match FuncDeclMap X !! CalledFunctionName with
      | None => AssertFail
      | Some CalledFunction =>
          let '(cg, Called) := getOrInsertNode (CG X) CalledFunction in
          let '(cg, Calling) := getOrInsertNode cg CallingFunction in
          Ret (with_CG X (addCallee cg Calling Called))
      end
  end.

(** ** Merging with the calls that follow *)

(** [ASTInformationExtractor::mergeFunctionCall]. *)
Fixpoint mergeFunctionCall_cached (fuel : nat) (X : Extractor) (CalledObj CE : string)
    : outcome Extractor :=
  match fuel with
  | O => OutOfFuel
  | S fuel' =>
      if decide ((CalledObj, CE) ∈ Cache X) then Ret X
      else
        let X := with_Cache X ({[(CalledObj, CE)]} ∪ Cache X) in
        r ← mergeFunctionCall fuel (Data X) CalledObj CE;
        let X := with_Data X r.1 in
        match r.2 with
        | None => Ret X
        | Some (todo, (CallingFunctionName, CalledFunctionName)) =>
            X ← addCallToCallGraph X CallingFunctionName CalledFunctionName;
            foldM (λ X ToMerge, mergeFunctionCall_cached fuel' X ToMerge.1 ToMerge.2) X todo
        end
  end.

(** [ASTInformationExtractor::merge] *)
Definition merge_classes (fuel : nat) (X : Extractor) (E1 E2 : nat) : outcome Extractor :=
  r ← mergeRecurisve fuel (Data X) E1 E2;
  foldM (λ X p, mergeFunctionCall_cached fuel X p.1 p.2) (with_Data X r.1) r.2.1.

(** The pattern of all merges below: both names are objects. *)
Definition merge_names (fuel : nat) (X : Extractor) (L R : string) : outcome Extractor :=
  ItL ← find_class (Data X) L;
  ItR ← find_class (Data X) R;
  if decide (ItL ≠ ItR) then merge_classes fuel X ItL ItR else Ret X.

(** ** What the traversal collected *)

(** An initializer: its syntactic form, and the names it refers to. *)
Inductive Stmt :=
  | InitListExpr (children : list Stmt) (refs : list string)
  | ArrayInitLoopExpr (refs : list string)
  | StringLiteral (refs : list string)
  | CXXConstructExpr (refs : list string)
  | OtherExpr (refs : list string).
(** An unqualified desugared type; fields are known by the USR of their
    canonical declaration. *)
Inductive Ty :=
  | ArrayType (ElementType : Ty)
  | RecordType (isUnion : bool) (fields : list (string * Ty))
  | OtherType.

(** [getReferencedDeclsStr] *)
Definition getReferencedDeclsStr (s : Stmt) : list string :=
  match s with
  | InitListExpr _ r | ArrayInitLoopExpr r | StringLiteral r | CXXConstructExpr r | OtherExpr r => r
  end.

Record DirectCall := mkDirectCall {
  dc_CallInfo : CallInfo;
  dc_Caller : string;
  dc_CallExpr : string;
  dc_Called : string
}.

Record Collected := mkCollected {
  ObjectSet : list ObjectNameDereference;
  Initalizers : list (ObjectNameDereference * Stmt * Ty);
  Assignments : list (list string * list string);
  ConstructorMergeList : list (string * list string);
  CXXMemberMergeList : list (string * string);
  ThisPointersToMerge : list (string * string);
  OverridesToMerge : list (string * string);
  DirectCalls : list DirectCall;
  ParamsToMerge : list (list string * list string);
  Destructors : list (string * string)
}.

(** ** Classes and prefixes of the objects *)

Definition initEquivClasses_step (D : EquivClassContainer) (o : ObjectNameDereference)
    : EquivClassContainer :=
  let StringRepr := GetStringRepr o in
  let begin := next_cell (EquivClasses D) in
  let D := with_classes D (list_push_front (EquivClasses D) (EquivClass_of StringRepr))
             (map_emplace (FindMap D) StringRepr begin) in
  match GetFunctionName o with
  | Some f => with_FunctionMap D (map_emplace (FunctionMap D) StringRepr f)
  | None => D
  end.
Definition initEquivClasses (Objects_ : list ObjectNameDereference) (D : EquivClassContainer)
    : EquivClassContainer :=
  foldl initEquivClasses_step D Objects_.

(** [FindMap[key]->Prefixes.emplace_back(p)] *)
Definition add_prefix (D : EquivClassContainer) (key : string) (p : Prefix)
    : outcome EquivClassContainer :=
  i ← entry_class D key;
  C ← list_get (EquivClasses D) i;
  Ret (with_classes D (list_set (EquivClasses D) i (mkEquivClass (Objects C) (Prefixes C ++ [p])))
         (FindMap D)).

(** The object that the dereferenced one is, and the object this is a member of. *)
Definition deref_prefix (Objects_ : list ObjectNameDereference) (o : ObjectNameDereference)
    : option (string * Prefix) :=
  t ← set_find (set_level o (DereferenceLevel o + 1)) Objects_;
  Some (GetStringRepr o, Prefix_of t EmptyString).
Definition member_prefix (Objects_ : list ObjectNameDereference) (o : ObjectNameDereference)
    : option (string * Prefix) :=
  if decide (DereferenceLevel o = 0%Z) then
    m ← getMb o;
    t ← set_find (member_DB m) Objects_;
    Some (GetStringRepr t, Prefix_of o (member_Member m))
  else None.

Definition add_prefix_if (D : EquivClassContainer) (e : option (string * Prefix))
    : outcome EquivClassContainer :=
  match e with Some (key, p) => add_prefix D key p | None => Ret D end.

Definition initPrefixClasses (Objects_ : list ObjectNameDereference) (D : EquivClassContainer)
    : outcome EquivClassContainer :=
  foldM (λ D o, D ← add_prefix_if D (deref_prefix Objects_ o);
                add_prefix_if D (member_prefix Objects_ o)) D Objects_.

(** ** The merges *)

(** [L] with every name of [rhs]: [L] is looked up first. *)
Definition merge_name_with (fuel : nat) (X : Extractor) (L : string) (rhs : list string)
    : outcome Extractor :=
  _ ← find_class (Data X) L;
  foldM (λ X R, merge_names fuel X L R) X rhs.

Definition handleAssignments (fuel : nat) (C : Collected) (X : Extractor) : outcome Extractor :=
  foldM (λ X Assignment,
    cpp_assert (negb (bool_decide (Assignment.1 = []))) ;;
    foldM (λ X L, merge_name_with fuel X L Assignment.2) X Assignment.1) X (Assignments C).

Definition handleMergeConstructorAssignments (fuel : nat) (C : Collected) (X : Extractor)
    : outcome Extractor :=
  foldM (λ X Assignment,
    cpp_assert (nonempty Assignment.1) ;;
    merge_name_with fuel X Assignment.1 Assignment.2) X (ConstructorMergeList C).

Definition handleMergeCXXMembers (fuel : nat) (C : Collected) (X : Extractor) : outcome Extractor :=
  foldM (λ X p, merge_names fuel X p.1 p.2) X (CXXMemberMergeList C).

Definition handleMergeOverrides (fuel : nat) (C : Collected) (X : Extractor) : outcome Extractor :=
  foldM (λ X p, merge_names fuel X p.1 p.2) X (OverridesToMerge C).

(** As many parameters as the first function has. *)
Definition handleMergeFunctionParameters (fuel : nat) (C : Collected) (X : Extractor)
    : outcome Extractor :=
  foldM (λ X F, foldM (λ X i,
      n1 ← deref (F.1 !! i);
      n2 ← deref (F.2 !! i);
      merge_names fuel X n1 n2) X (seq 0 (length F.1))) X (ParamsToMerge C).

Definition handleDestructorCalls (C : Collected) (X : Extractor) : outcome Extractor :=
  foldM (λ X d, addCallToCallGraph X d.1 d.2) X (Destructors C).

Definition handleDirectCall (fuel : nat) (X : Extractor) (Call : DirectCall) : outcome Extractor :=
  cpp_assert (bool_decide (length (CalledObjects (dc_CallInfo Call)) = 1)) ;;
  r ← mergeFunctionCallImpl fuel (Data X) (dc_Called Call) (dc_Caller Call) (dc_CallInfo Call)
        (dc_CallExpr Call);
  let X := with_Data X r.1 in
  match r.2 with
  | None => Ret X
  | Some (todo, (CallingFunctionName, CalledFunctionName)) =>
      X ← addCallToCallGraph X CallingFunctionName CalledFunctionName;
      foldM (λ X p, mergeFunctionCall_cached fuel X p.1 p.2) X todo
  end.
Definition handleDirectCalls (fuel : nat) (C : Collected) (X : Extractor) : outcome Extractor :=
  foldM (handleDirectCall fuel) X (DirectCalls C).

(** Messages about what is not supported are left out. *)
Fixpoint handleInitExpr (fuel : nat) (VarType : Ty) (ObjDeref : ObjectNameDereference)
    (InitExpr : Stmt) (X : Extractor) {struct VarType} : outcome Extractor :=
  match VarType with
  | ArrayType TmpType =>
      match InitExpr with
      | InitListExpr children _ =>
          foldM (λ X InitListChild, handleInitExpr fuel TmpType ObjDeref InitListChild X) X children
      | ArrayInitLoopExpr _ | StringLiteral _ => Ret X
      | _ => AssertFail
      end
  | RecordType isUnion fields =>
      if isUnion then Ret X
      else match InitExpr with
      | InitListExpr children _ =>
          (fix go (fields : list (string * Ty)) (InitIter : list Stmt) (X : Extractor) :=
             match fields with
             | [] => Ret X
             | (Field, FieldType) :: fields =>
                 match InitIter with
                 | [] => AssertFail
                 | child :: InitIter =>
                     X ← handleInitExpr fuel FieldType (derefMB (mkMember ObjDeref Field) 0) child X;
                     go fields InitIter X
                 end
             end) fields children X
      | _ => merge_name_with fuel X (GetStringRepr ObjDeref) (getReferencedDeclsStr InitExpr)
      end
  | OtherType => merge_name_with fuel X (GetStringRepr ObjDeref) (getReferencedDeclsStr InitExpr)
  end.

(** [llvm_unreachable] for construct expressions. *)
Definition handleInits (fuel : nat) (C : Collected) (X : Extractor) : outcome Extractor :=
  foldM (λ X Decl_,
    let '(ObjDeref, Init, Type_) := Decl_ in
    match Init with
    | CXXConstructExpr _ => UB
    | _ => handleInitExpr fuel Type_ ObjDeref Init X
    end) X (Initalizers C).

Definition generateUSRForThisExpr (ParentFunctionUSR : string) : string :=
  ParentFunctionUSR +:+ "@THIS".

(** The body of the loop: the this pointer of a method, if it has one, is merged
    with the object. *)
Definition merge_this_pointer (fuel : nat) (X : Extractor) (obj PotentialMethod : string)
    : outcome Extractor :=
  match FunctionMap (Data X) !! PotentialMethod with
  | None => Ret X
  | Some ActuallyCalledMethod =>
      let ThisUSR := generateUSRForThisExpr ActuallyCalledMethod in
      match FindMap (Data X) !! ThisUSR with
      | None => Ret X
      | Some _ => merge_names fuel X ThisUSR obj
      end
  end.

(** The loop runs over the objects of the class that the called method is in
    when it begins; a merge may erase that class, and with it what the loop
    iterates over. *)
Definition handleThisPointer (fuel : nat) (X : Extractor) (ToMerge : string * string)
    : outcome Extractor :=
  i ← find_class (Data X) ToMerge.2;
  E ← list_get (EquivClasses (Data X)) i;
  foldM (λ X PotentialMethod,
    X ← merge_this_pointer fuel X ToMerge.1 PotentialMethod;
    _ ← list_get (EquivClasses (Data X)) i;
    Ret X) X (Objects E).
Definition handleMergeCXXThisPointers (fuel : nat) (C : Collected) (X : Extractor)
    : outcome Extractor :=
  foldM (handleThisPointer fuel) X (ThisPointersToMerge C).

Definition calculatePERelation (fuel : nat) (C : Collected) (X : Extractor) : outcome Extractor :=
  let X := with_Data X (initEquivClasses (ObjectSet C) (Data X)) in
  D ← initPrefixClasses (ObjectSet C) (Data X);
  let X := with_Data X (InitReferencedInCalls D) in
  X ← handleDirectCalls fuel C X;
  X ← handleDestructorCalls C X;
  X ← handleMergeCXXMembers fuel C X;
  X ← handleMergeFunctionParameters fuel C X;
  X ← handleMergeOverrides fuel C X;
  X ← handleInits fuel C X;
  X ← handleAssignments fuel C X;
  X ← handleMergeConstructorAssignments fuel C X;
  handleMergeCXXThisPointers fuel C X.
End extractor.
