(* ===== verification/AliasInit.v ===== *)
(** * The classes before any merge

    [initEquivClasses] and [initPrefixClasses]: every object has a class of its
    own, with its dereferenced object and its members as prefixes; the container
    is consistent. *)

From S2P Require Import Prelude AliasNames AliasClasses AliasWf AliasClosure.
From S2P Require Import AliasRecursion AliasExtractor.

(** The set of objects, over plain names; members have a name. *)
Record objects_ok (objs : list ObjectNameDereference) : Prop := {
  oo_sorted : StronglySorted deref_lt objs;
  oo_plain : Forall (λ o, plain_deref o = true) objs;
  oo_named : ∀ o m, o ∈ objs → getMb o = Some m → member_Member m ≠ EmptyString
}.

Lemma sorted_equal objs a b :
  StronglySorted deref_lt objs → a ∈ objs → b ∈ objs → deref_eqb a b = true → a = b.
Proof.
  intros Hs Ha Hb He. apply deref_equiv in He as [H1 H2].
  induction Hs as [|x l Hs IH Hx]; [by apply elem_of_nil in Ha|].
  rewrite Forall_forall in Hx. unfold deref_lt in Hx.
  apply elem_of_cons in Ha as [->|Ha], Hb as [->|Hb]; [done| | |by apply IH].
  - rewrite Hx in H1 by done. done.
  - rewrite Hx in H2 by done. done.
Qed.

Lemma repr_equal objs a b :
  objects_ok objs → a ∈ objs → b ∈ objs → GetStringRepr a = GetStringRepr b → a = b.
Proof.
  intros [Hs Hp _] Ha Hb He. rewrite Forall_forall in Hp.
  eapply sorted_equal; [done..|]. apply GetStringRepr_eqb; auto.
Qed.

Lemma repr_nodup objs : objects_ok objs → NoDup (GetStringRepr <$> objs).
Proof.
  intros Hok. assert (NoDup objs) as Hnd.
  { pose proof (oo_sorted _ Hok) as Hs. clear Hok. induction Hs as [|x l Hs IH Hx]; constructor; [|done].
    intros Hin. rewrite Forall_forall in Hx. specialize (Hx x Hin). unfold deref_lt in Hx.
    pose proof (deref_eqb_refl x) as He. apply deref_equiv in He as [He _]. congruence. }
  apply NoDup_fmap_2_strong; [|done]. intros a b Ha Hb. by eapply repr_equal.
Qed.

Lemma set_find_some x objs t :
  set_find x objs = Some t → t ∈ objs ∧ deref_eqb t x = true.
Proof.
  unfold set_find. intros Ht. apply fmap_Some in Ht as ([i y] & Hf & ->). simpl.
  apply list_find_Some in Hf as (Hi & [H1 H2] & _).
  split; [by eapply list_elem_of_lookup_2|]. by apply deref_equiv.
Qed.

(** ** One class per object *)

Record singletons (objs : list ObjectNameDereference) (D0 D : EquivClassContainer) : Prop := {
  sg_wf : classes_wf D;
  sg_classes : ∀ i C, cells_of D !! i = Some C → ∃ o, o ∈ objs ∧ C = EquivClass_of (GetStringRepr o);
  sg_known : ∀ s, known D s ↔ s ∈ GetStringRepr <$> objs;
  sg_functions : ∀ s f, FunctionMap D !! s = Some f ↔
    ∃ o, o ∈ objs ∧ GetStringRepr o = s ∧ GetFunctionName o = Some f;
  sg_infos : FunctionInfoMap D = FunctionInfoMap D0;
  sg_calls : CallInfoMap D = CallInfoMap D0;
  sg_parents : CallExprParentMap D = CallExprParentMap D0
}.

Lemma push_front_wf D s :
  classes_wf D → ¬ known D s →
  classes_wf (with_classes D (list_push_front (EquivClasses D) (EquivClass_of s))
                (map_emplace (FindMap D) s (next_cell (EquivClasses D)))).
Proof.
  intros Hwf Hs. set (n := next_cell (EquivClasses D)).
  assert (FindMap D !! s = None) as Hnone by by apply eq_None_not_Some.
  assert (∀ i, is_Some (cells_of D !! i) → i ≠ n) as Hfresh.
  { intros i ?%(cw_next _ Hwf). fold n in H. lia. }
  assert (cells_of D !! n = None) as Hn.
  { apply eq_None_not_Some. intros ?%Hfresh. done. }
  unfold map_emplace. rewrite Hnone. split; simpl; fold n.
  - intros i. rewrite elem_of_cons, (cw_order _ Hwf), lookup_insert_is_Some. naive_solver.
  - constructor; [|apply Hwf]. rewrite (cw_order _ Hwf), Hn. by intros [? [=]].
  - intros i. rewrite lookup_insert_is_Some. intros [->|[_ Hi]]; [lia|].
    apply (cw_next _ Hwf) in Hi. fold n in Hi. lia.
  - intros i C. rewrite lookup_insert_Some. intros [[_ <-]|[_ Hi]]; [done|by eapply (cw_nonempty _ Hwf)].
  - intros o i. rewrite lookup_insert_Some. setoid_rewrite lookup_insert_Some.
    rewrite (cw_find _ Hwf). split.
    + intros [[<- <-]|[Ho (C & HC & HoC)]]; [exists (EquivClass_of s); split; [by left|set_solver]|].
      exists C. split; [right; split; [|done]|done]. intros <-. congruence.
    + intros (C & [[<- <-]|[Hi HC]] & HoC).
      * left. simpl in HoC. by apply list_elem_of_singleton in HoC as ->.
      * right. split; [|by exists C]. intros <-. pose proof (wf_object _ _ _ _ Hwf HC HoC). congruence.
Qed.

Lemma initEquivClasses_ok objs D0 :
  NoDup (GetStringRepr <$> objs) →
  EquivClasses D0 = list_empty → FindMap D0 = ∅ → FunctionMap D0 = ∅ →
  singletons objs D0 (initEquivClasses objs D0).
Proof.
  intros Hnd HE HF HFn. unfold initEquivClasses. induction objs as [|x objs IH] using rev_ind.
  { pose proof container_new_wf as [W1 W2 W3 W4 W5].
    split; simpl; rewrite ?HE, ?HF, ?HFn; try done.
    - split; by rewrite ?HE, ?HF.
    - intros s. unfold known. rewrite HF, elem_of_nil. by split; [intros [? ?%lookup_empty_Some]|].
    - intros s f. split; [by intros ?%lookup_empty_Some|]. by intros (o & ?%elem_of_nil & _). }
  rewrite fmap_app in Hnd. apply NoDup_app in Hnd as (Hnd & Hdis & _).
  rewrite foldl_app. simpl. set (D := foldl initEquivClasses_step D0 objs) in *.
  destruct (IH Hnd) as [H1 H2 H3 H4 H5 H6 H7].
  assert (¬ known D (GetStringRepr x)) as Hnew.
  { rewrite H3. intros Hin. apply (Hdis _ Hin). simpl. set_solver. }
  set (s := GetStringRepr x) in *. set (n := next_cell (EquivClasses D)).
  set (D1 := with_classes D (list_push_front (EquivClasses D) (EquivClass_of s))
               (map_emplace (FindMap D) s n)).
  assert (classes_wf D1) as Hwf1 by by apply push_front_wf.
  assert (FindMap D !! s = None) as Hnone by by apply eq_None_not_Some.
  assert (FunctionMap D !! s = None) as Hfnone.
  { apply eq_None_not_Some. intros [f (o & Ho & Hos & _)%H4]. apply Hnew, H3.
    rewrite <- Hos. by apply list_elem_of_fmap_2. }
  assert (∀ i C, cells_of D1 !! i = Some C →
    ∃ o, o ∈ objs ++ [x] ∧ C = EquivClass_of (GetStringRepr o)) as Hc1.
  { intros i C. simpl. rewrite lookup_insert_Some. intros [[_ <-]|[_ Hi]].
    - exists x. split; [set_solver|done].
    - destruct (H2 i C Hi) as (o & ? & ?). exists o. split; [set_solver|done]. }
  assert (∀ t, known D1 t ↔ t ∈ GetStringRepr <$> (objs ++ [x])) as Hk1.
  { intros t. unfold known. simpl. unfold map_emplace. rewrite Hnone, lookup_insert_is_Some.
    rewrite fmap_app, elem_of_app, <- H3. simpl. rewrite list_elem_of_singleton. fold s.
    unfold known. destruct (decide (t = s)) as [->|]; naive_solver. }
  unfold initEquivClasses_step. fold s n D1.
  destruct (GetFunctionName x) as [f|] eqn:Ef; split; try done.
  - destruct Hwf1. by split.
  - intros t g. simpl. unfold map_emplace. rewrite Hfnone, lookup_insert_Some, H4.
    setoid_rewrite elem_of_app. setoid_rewrite list_elem_of_singleton. split.
    + intros [[<- <-]|[? (o & ? & ? & ?)]]; [exists x|exists o]; naive_solver.
    + intros (o & [Ho| ->] & Hos & Hof); [right|left; split; [exact Hos|congruence]].
      split; [|by exists o]. intros <-. apply Hnew, H3. rewrite <- Hos. by apply list_elem_of_fmap_2.
  - intros t g. simpl. rewrite H4. setoid_rewrite elem_of_app. setoid_rewrite list_elem_of_singleton.
    split; [naive_solver|]. intros (o & [Ho| ->] & Hos & Hof); [by exists o|congruence].
Qed.

(** ** Prefixes *)

(** Every class is that of one object, and has the prefixes of the list. *)
Record with_prefixes (objs : list ObjectNameDereference) (D0 D : EquivClassContainer)
    (L : list (string * Prefix)) : Prop := {
  wp_wf : classes_wf D;
  wp_single : ∀ a b, same D a b → a = b;
  wp_known : ∀ s, known D s ↔ s ∈ GetStringRepr <$> objs;
  wp_functions : FunctionMap D = FunctionMap D0;
  wp_infos : FunctionInfoMap D = FunctionInfoMap D0;
  wp_calls : CallInfoMap D = CallInfoMap D0;
  wp_parents : CallExprParentMap D = CallExprParentMap D0;
  wp_prefix : ∀ s p, prefix_of D s p ↔ (s, p) ∈ L
}.

Lemma add_prefix_ok objs D0 D L key p :
  with_prefixes objs D0 D L → key ∈ GetStringRepr <$> objs →
  ∃ D', add_prefix D key p ⇓ D' ∧ with_prefixes objs D0 D' (L ++ [(key, p)]).
Proof.
  intros [Hwf Hs Hk H4 H5 H6 H7 Hp] Hkey. apply Hk in Hkey as [i Hi].
  destruct (wf_class _ _ _ Hwf Hi) as (C & HC & HkC).
  unfold add_prefix, entry_class, list_get. rewrite Hi. simpl. rewrite HC. simpl.
  eexists. split; [done|]. set (D' := with_classes _ _ _).
  assert (∀ j, cells_of D' !! j = if decide (j = i) then Some (mkEquivClass (Objects C) (Prefixes C ++ [p]))
    else cells_of D !! j) as Hcell.
  { intros j. simpl. destruct (decide (j = i)) as [->|].
    - apply lookup_insert_eq.
    - by rewrite lookup_insert_ne. }
  split; try done.
  - split; try apply Hwf.
    + intros j. rewrite Hcell. change (order (EquivClasses D')) with (order (EquivClasses D)).
      rewrite (cw_order _ Hwf). destruct (decide (j = i)) as [->|]; [|done].
      split; [done|by exists C].
    + intros j. rewrite Hcell. change (next_cell (EquivClasses D')) with (next_cell (EquivClasses D)).
      destruct (decide (j = i)) as [->|]; [|apply Hwf]. intros _. apply Hwf. by exists C.
    + intros j C'. rewrite Hcell. destruct (decide (j = i)) as [->|]; [|apply (cw_nonempty _ Hwf)].
      intros [= <-]. simpl. by apply (cw_nonempty _ Hwf i).
    + intros o j. rewrite Hcell. change (FindMap D') with (FindMap D). rewrite (cw_find _ Hwf).
      destruct (decide (j = i)) as [->|]; [|done]. split.
      * intros (C' & HC' & Ho). assert (C' = C) as -> by congruence. eexists. split; [done|done].
      * intros (C' & [= <-] & Ho). by exists C.
  - intros s q. rewrite elem_of_app, list_elem_of_singleton, <- Hp. unfold prefix_of.
    setoid_rewrite Hcell. change (FindMap D') with (FindMap D). split.
    + intros (j & C' & Hj & HC' & Hq). destruct (decide (j = i)) as [->|]; [|left; by exists j, C'].
      injection HC' as <-. simpl in Hq. apply elem_of_app in Hq as [Hq|Hq%list_elem_of_singleton].
      * left. by exists i, C.
      * right. subst q. f_equal. apply Hs. by exists i.
    + intros [(j & C' & Hj & HC' & Hq)|[= -> ->]].
      * exists j. destruct (decide (j = i)) as [->|]; [|by exists C'].
        assert (C' = C) as -> by congruence. eexists. split_and!; [done..|]. simpl. set_solver.
      * exists i. rewrite decide_True by done. eexists. split_and!; [done..|]. simpl. set_solver.
Qed.

(** All prefixes that the objects of [objs] are given, in a set [all] of objects. *)
Definition init_prefixes (all objs : list ObjectNameDereference) : list (string * Prefix) :=
  objs ≫= λ o, option_list (deref_prefix all o) ++ option_list (member_prefix all o).

Lemma add_prefix_if_ok objs D0 D L e :
  with_prefixes objs D0 D L → (∀ key p, e = Some (key, p) → key ∈ GetStringRepr <$> objs) →
  ∃ D', add_prefix_if D e ⇓ D' ∧ with_prefixes objs D0 D' (L ++ option_list e).
Proof.
  intros HD He. destruct e as [[key p]|]; simpl.
  - apply add_prefix_ok; [done|]. by eapply He.
  - exists D. by rewrite app_nil_r.
Qed.

Lemma deref_prefix_some objs o key p :
  deref_prefix objs o = Some (key, p) →
  ∃ t, t ∈ objs ∧ deref_eqb t (set_level o (DereferenceLevel o + 1)) = true ∧
    key = GetStringRepr o ∧ p = Prefix_of t EmptyString.
Proof.
  unfold deref_prefix. intros (t & Ht & [= <- <-])%bind_Some.
  apply set_find_some in Ht as [? ?]. by exists t.
Qed.
Lemma member_prefix_some objs o key p :
  member_prefix objs o = Some (key, p) →
  ∃ m t, DereferenceLevel o = 0%Z ∧ getMb o = Some m ∧ t ∈ objs ∧
    deref_eqb t (member_DB m) = true ∧ key = GetStringRepr t ∧ p = Prefix_of o (member_Member m).
Proof.
  unfold member_prefix. destruct (decide _); [|done].
  intros (m & Hm & (t & Ht & [= <- <-])%bind_Some)%bind_Some.
  apply set_find_some in Ht as [? ?]. by exists m, t.
Qed.

Lemma initPrefixClasses_ok objs D0 D :
  with_prefixes objs D0 D [] →
  ∃ D', initPrefixClasses objs D ⇓ D' ∧ with_prefixes objs D0 D' (init_prefixes objs objs).
Proof.
  intros HD. unfold initPrefixClasses.
  apply (foldM_ind (λ dn D, with_prefixes objs D0 D (init_prefixes objs dn))); [done|].
  intros dn o rest D1 Hobjs HD1.
  destruct (add_prefix_if_ok objs D0 D1 _ (deref_prefix objs o) HD1) as (D2 & -> & HD2).
  { intros key p (t & _ & _ & -> & _)%deref_prefix_some. apply list_elem_of_fmap_2. set_solver. }
  simpl. destruct (add_prefix_if_ok objs D0 D2 _ (member_prefix objs o) HD2) as (D3 & -> & HD3).
  { intros key p (m & t & _ & _ & Ht & _ & -> & _)%member_prefix_some. by apply list_elem_of_fmap_2. }
  exists D3. split; [done|]. unfold init_prefixes. rewrite bind_app. simpl.
  rewrite app_nil_r, app_assoc. exact HD3.
Qed.

Lemma elem_of_init_prefixes all objs s p :
  (s, p) ∈ init_prefixes all objs ↔
  ∃ o, o ∈ objs ∧ (deref_prefix all o = Some (s, p) ∨ member_prefix all o = Some (s, p)).
Proof.
  unfold init_prefixes. rewrite list_elem_of_bind. setoid_rewrite elem_of_app.
  assert (∀ (e : option (string * Prefix)) x, x ∈ option_list e ↔ e = Some x) as He.
  { intros [y|] x; simpl; [rewrite list_elem_of_singleton; naive_solver|].
    by split; [intros ?%elem_of_nil|]. }
  setoid_rewrite He. naive_solver.
Qed.

(** Prefixes of one object with the same member are the same. *)
Lemma init_prefixes_functional objs s p q :
  objects_ok objs → (s, p) ∈ init_prefixes objs objs → (s, q) ∈ init_prefixes objs objs →
  pf_Member p = pf_Member q → p = q.
Proof.
  intros Hok (o & Ho & Hp)%elem_of_init_prefixes (o' & Ho' & Hq)%elem_of_init_prefixes Hm.
  destruct Hp as [Hp|Hp], Hq as [Hq|Hq].
  - apply deref_prefix_some in Hp as (t & Ht & He & -> & ->), Hq as (t' & Ht' & He' & Hs & ->).
    assert (o' = o) as -> by (by eapply repr_equal). f_equal.
    eapply (repr_equal objs); [done..|]. apply repr_eq in He, He'. congruence.
  - apply deref_prefix_some in Hp as (t & Ht & He & -> & ->).
    apply member_prefix_some in Hq as (m & t' & _ & Hmb & _ & _ & _ & ->).
    simpl in Hm. by destruct (oo_named _ Hok o' m Ho' Hmb).
  - apply member_prefix_some in Hp as (m & t' & _ & Hmb & _ & _ & _ & ->).
    apply deref_prefix_some in Hq as (t & Ht & He & _ & ->).
    simpl in Hm. by destruct (oo_named _ Hok o m Ho Hmb).
  - apply member_prefix_some in Hp as (m & t & Hl & Hmb & Ht & He & -> & ->),
      Hq as (m' & t' & Hl' & Hmb' & Ht' & He' & Hs & ->).
    assert (t' = t) as -> by (by eapply repr_equal). simpl in Hm.
    apply repr_eq in He, He'. unfold Prefix_of.
    assert (GetStringRepr o = GetStringRepr o') as ->; [|by rewrite Hm].
    destruct o as [|m1 l1], o' as [|m2 l2]; try done. simpl in *. simplify_eq.
    destruct m as [d n], m' as [d' n']. simpl in *. congruence.
Qed.

Lemma initial_classes objs D0 :
  objects_ok objs → EquivClasses D0 = list_empty → FindMap D0 = ∅ → FunctionMap D0 = ∅ →
  ∃ D, initPrefixClasses objs (initEquivClasses objs D0) ⇓ D ∧ container_ok D ∧
    with_prefixes objs (initEquivClasses objs D0) D (init_prefixes objs objs) ∧
    singletons objs D0 (initEquivClasses objs D0).
Proof.
  intros Hok HE HF HFn.
  pose proof (initEquivClasses_ok objs D0 (repr_nodup _ Hok) HE HF HFn) as HS.
  set (D1 := initEquivClasses objs D0) in *.
  destruct (initPrefixClasses_ok objs D1 D1) as (D & Hr & HD).
  { destruct HS as [H1 H2 H3 H4 H5 H6 H7]. split; try done.
    - intros a b (i & Ha & Hb). destruct (wf_class _ _ _ H1 Ha) as (C & HC & HaC).
      destruct (wf_class _ _ _ H1 Hb) as (C' & HC' & HbC).
      destruct (H2 i C HC) as (o & _ & ->). assert (C' = EquivClass_of (GetStringRepr o)) as -> by congruence.
      simpl in *. set_solver.
    - intros s p. rewrite elem_of_nil. split; [|done]. intros (i & C & _ & HC & Hp).
      destruct (H2 i C HC) as (o & _ & ->). by apply elem_of_nil in Hp. }
  exists D. split_and!; [done| |done..].
  destruct HD as [W1 W2 W3 _ _ _ _ W8].
  assert (∀ o p, prefix_of D o p → known D (pf_Object p)) as Hk.
  { intros s p (o & Ho & Hp)%W8%elem_of_init_prefixes. rewrite W3. destruct Hp as [Hp|Hp].
    - apply deref_prefix_some in Hp as (t & Ht & _ & _ & ->).
      simpl. by apply list_elem_of_fmap_2.
    - apply member_prefix_some in Hp as (m & t & _ & _ & _ & _ & _ & ->).
      simpl. by apply list_elem_of_fmap_2. }
  split; [done..|]. intros s p q Hp Hq Hm.
  rewrite (init_prefixes_functional objs s p q); [|done|by apply W8..|done].
  apply same_refl. by eapply Hk.
Qed.

(** ** The prefixes, spelled out

    The representations of an object and of the objects it is connected with,
    as strings. *)

Lemma set_find_equal objs x t :
  objects_ok objs → t ∈ objs → deref_eqb t x = true → set_find x objs = Some t.
Proof.
  intros Hok Ht He. unfold set_find.
  destruct (list_find (λ y, deref_ltb x y = false ∧ deref_ltb y x = false) objs) as [[i y]|] eqn:Hf.
  - assert (set_find x objs = Some y) as Hy by (unfold set_find; by rewrite Hf).
    apply set_find_some in Hy as [Hy Hyx]. simpl. f_equal. eapply (repr_equal objs); [done..|].
    apply repr_eq in He, Hyx. congruence.
  - apply list_find_None in Hf. rewrite Forall_forall in Hf. destruct (Hf t Ht).
    apply deref_equiv in He as [? ?]. done.
Qed.

(** What follows the stars and ampersands of a representation. *)
Lemma repr_base o : plain_deref o = true →
  ∃ b, no_level b ∧ ∀ l, GetStringRepr (set_level o l) = level_string l +:+ b.
Proof.
  destruct o as [ob l|mb l]; intros Hp; eexists; (split; [|intros; reflexivity]).
  - by apply plain_no_level.
  - apply member_no_level.
Qed.

Lemma set_level_id o : set_level o (DereferenceLevel o) = o.
Proof. by destruct o. Qed.

Lemma level_string_up l b :
  (0 ≤ l)%Z → level_string (l + 1) +:+ b = "*" +:+ (level_string l +:+ b).
Proof.
  intros Hl. unfold level_string. replace (Z.to_nat (- (l + 1))) with 0 by lia.
  replace (Z.to_nat (- l)) with 0 by lia. by replace (Z.to_nat (l + 1)) with (S (Z.to_nat l)) by lia.
Qed.

Lemma level_string_down l b :
  (l < 0)%Z → level_string l +:+ b = "&" +:+ (level_string (l + 1) +:+ b).
Proof.
  intros Hl. unfold level_string. replace (Z.to_nat l) with 0 by lia.
  replace (Z.to_nat (l + 1)) with 0 by lia.
  by replace (Z.to_nat (- l)) with (S (Z.to_nat (- (l + 1)))) by lia.
Qed.

Lemma level_string_amp l b r : no_level b → level_string l +:+ b = "&" +:+ r → (l < 0)%Z.
Proof.
  intros Hb He. destruct (decide (l < 0)%Z) as [|Hl]; [done|]. exfalso.
  unfold level_string in He. replace (Z.to_nat (- l)) with 0 in He by lia.
  by apply (stars_no_amp (Z.to_nat l) b r Hb).
Qed.

Lemma level_string_star l b r : no_level b → level_string l +:+ b = "*" +:+ r → (0 < l)%Z.
Proof.
  intros Hb He. destruct (decide (l < 0)%Z) as [Hl|Hl].
  - by rewrite level_string_down in He by done.
  - destruct (decide (l = 0)%Z) as [->|]; [|lia]. change (b = "*" +:+ r) in He. rewrite He in Hb. by destruct Hb.
Qed.

(** [t] is [a] dereferenced once more. *)
Lemma dereferenced_spelled a t : plain_deref a = true → plain_deref t = true →
  deref_eqb t (set_level a (DereferenceLevel a + 1)) = true ↔
  GetStringRepr t = "*" +:+ GetStringRepr a ∨ GetStringRepr a = "&" +:+ GetStringRepr t.
Proof.
  intros Ha Ht. destruct (repr_base a Ha) as (ba & Hba & Hra).
  rewrite <- GetStringRepr_eqb; [|done|by destruct a].
  assert (GetStringRepr a = level_string (DereferenceLevel a) +:+ ba) as Hla by (by rewrite <- Hra, set_level_id).
  rewrite Hra. destruct (decide (DereferenceLevel a < 0)%Z) as [Hl|Hl].
  - rewrite Hla, (level_string_down _ ba Hl). split; [intros ->; by right|]. intros [He|[= He]]; [|done].
    exfalso. destruct (repr_base t Ht) as (bt & Hbt & Hrt).
    rewrite <- (set_level_id t), Hrt in He. pose proof (level_string_star _ _ _ Hbt He) as Hlt.
    replace (DereferenceLevel t) with (DereferenceLevel t - 1 + 1)%Z in He by lia.
    rewrite level_string_up in He by lia. injection He as He.
    apply level_string_amp in He; [lia|done].
  - rewrite Hla, level_string_up by lia. split; [intros ->; by left|]. intros [He|He]; [done|].
    exfalso. apply level_string_amp in He; [lia|done].
Qed.

(** [o] is the member [n] of [t]. *)
Lemma member_spelled o t n : plain_deref o = true → plain_deref t = true → plain n = true →
  (∃ m, DereferenceLevel o = 0%Z ∧ getMb o = Some m ∧ deref_eqb t (member_DB m) = true ∧
     member_Member m = n) ↔
  GetStringRepr o = "(" +:+ GetStringRepr t +:+ ")." +:+ n.
Proof.
  intros Ho Ht Hn. split.
  - intros (m & Hl & Hm & He & <-). apply repr_eq in He. rewrite He.
    destruct o as [|m' l]; [done|]. cbn in Hl, Hm. simplify_eq. by destruct m.
  - intros He. destruct o as [ob l|[d n'] l].
    + assert (l = 0%Z ∧ getStringRepr ob = "(" +:+ GetStringRepr t +:+ ")." +:+ n) as [_ Hob].
      { apply level_string_inj; [by apply plain_no_level|done|exact He]. }
      exfalso. cbn in Ho. unfold getStringRepr in Hob. by rewrite Hob in Ho.
    + assert (l = 0%Z ∧ member_GetStringRepr (mkMember d n') = "(" +:+ GetStringRepr t +:+ ")." +:+ n)
        as [-> Hmb] by (apply level_string_inj; [done|done|exact He]).
      cbn in Ho. apply andb_true_iff in Ho as [Hd Hn']. injection Hmb as Hmb.
      apply last_paren in Hmb as [Hd1 Hn1]; [|simpl; by rewrite ?Hn, ?Hn'..]. injection Hn1 as ->.
      exists (mkMember d n). split_and!; [done|done| |done]. by apply GetStringRepr_eqb.
Qed.

(** The prefix [p] that an object with the representation [s] has from the
    object that [p] names: that one is [*s], or [s] is its address; or that one
    is the member of [s] with the name in [p]. *)
Definition spelled_prefix (s : string) (p : Prefix) : Prop :=
  (pf_Member p = "" ∧ (pf_Object p = "*" +:+ s ∨ s = "&" +:+ pf_Object p)) ∨
  (pf_Member p ≠ "" ∧ plain (pf_Member p) = true ∧
    pf_Object p = "(" +:+ s +:+ ")." +:+ pf_Member p).

Lemma init_prefixes_spelled objs s p : objects_ok objs →
  (s, p) ∈ init_prefixes objs objs ↔
  s ∈ GetStringRepr <$> objs ∧ pf_Object p ∈ GetStringRepr <$> objs ∧ spelled_prefix s p.
Proof.
  intros Hok. pose proof (oo_plain _ Hok) as Hplain. rewrite Forall_forall in Hplain.
  rewrite elem_of_init_prefixes, !list_elem_of_fmap. split.
  - intros (o & Ho & [Hp|Hp]).
    + apply deref_prefix_some in Hp as (t & Ht & He & -> & ->). split; [by exists o|].
      split; [by exists t|]. left. split; [done|]. by apply dereferenced_spelled; [apply Hplain..|].
    + apply member_prefix_some in Hp as (m & t & Hl & Hm & Ht & He & -> & ->). split; [by exists t|].
      split; [by exists o|]. right. cbn [pf_Member pf_Object Prefix_of].
      assert (plain (member_Member m) = true) as Hn.
      { specialize (Hplain o Ho). destruct o as [|[d n] l]; [done|]. cbn in *. simplify_eq.
        by apply andb_true_iff in Hplain as [_ ?]. }
      split; [exact (oo_named _ Hok o m Ho Hm)|]. split; [done|].
      apply member_spelled; [by apply Hplain..|done|]. by exists m.
  - intros ((a & -> & Ha) & (b & Hb & Hbin) & Hs). destruct p as [po pm]. cbn in *. subst po.
    destruct Hs as [[Hm Hs]|(Hm & Hpl & Hs)]; cbn in *.
    + subst pm. exists a. split; [done|]. left. unfold deref_prefix.
      apply dereferenced_spelled in Hs; [|by apply Hplain..]. by rewrite (set_find_equal objs _ b).
    + exists b. split; [done|]. right. apply member_spelled in Hs as (m & Hl & Hmb & He & <-);
        [|by apply Hplain..|done].
      unfold member_prefix. rewrite decide_True by done. rewrite Hmb. cbn.
      by rewrite (set_find_equal objs _ a).
Qed.

(** C39: For a set of objects in strictly increasing order, over names without
    the characters that representations add, whose members are not nameless,
    the classes before any merge are consistent: the representations of the
    objects are exactly the keys, each is in a class of its own, and the
    prefixes of a class are exactly these, as far as both sides are objects of
    the set: the empty member with the dereferenced object (spelled with one
    star more, or one ampersand less), and every member name with the member of
    that name (spelled with the object in parentheses and a dot). *)
Theorem initial_classes_consistent objs D0 :
  objects_ok objs → EquivClasses D0 = list_empty → FindMap D0 = ∅ → FunctionMap D0 = ∅ →
  ∃ D, initPrefixClasses objs (initEquivClasses objs D0) ⇓ D ∧ container_ok D ∧
    (∀ s, known D s ↔ s ∈ GetStringRepr <$> objs) ∧ (∀ a b, same D a b → a = b) ∧
    ∀ s p, prefix_of D s p ↔ known D s ∧ known D (pf_Object p) ∧ spelled_prefix s p.
Proof.
  intros Hok HE HF HFn. destruct (initial_classes objs D0) as (D & Hr & HD & HP & _); [done..|].
  exists D. split_and!; [done|done|apply HP|apply HP|].
  intros s p. rewrite (wp_prefix _ _ _ _ HP), init_prefixes_spelled by done.
  pose proof (wp_known _ _ _ _ HP) as Hk. by rewrite !Hk.
Qed.
