(* ===== verification/AliasExtractorProps.v ===== *)
(** * The alias analysis resolves calls

    The invariant of the extractor and what a merge with all calls that follow
    from it does: it returns, the classes stay consistent, every call that the
    merge brings together with a function is processed (its arguments are
    merged, the edge is in the call graph), and nothing is joined and no edge is
    added that the calls do not ask for. *)

From S2P Require Import Prelude AliasNames AliasClasses AliasWf AliasClosure AliasRecursion.
From S2P Require Import AliasExtractor.

Section extractor.
Context {Decl : Type} `{Countable Decl} (getCanonicalDecl : Decl → Decl).
Abbreviation Extractor := (@Extractor Decl _ _).
Abbreviation CallGraph := (@CallGraph Decl _ _).

(** ** The call graph *)

Definition cg_edge (X : Extractor) (f g : Decl) : Prop :=
  Some g ∈ CalledFunctions (cg_node (CG X) (Some f)).
(** The declarations of the functions with these names. *)
Definition resolves (X : Extractor) (a b : string) (f g : Decl) : Prop :=
  ∃ d d', FuncDeclMap X !! a = Some d ∧ FuncDeclMap X !! b = Some d' ∧
    f = getCanonicalDecl d ∧ g = getCanonicalDecl d'.

Lemma cg_node_set (cg : CallGraph) n n' node :
  cg_node (cg_set cg n node) n' = if decide (n' = n) then node else cg_node cg n'.
Proof.
  unfold cg_node, cg_set. simpl. destruct (decide (n' = n)) as [->|].
  - by rewrite lookup_insert_eq.
  - by rewrite lookup_insert_ne.
Qed.

Lemma addCallee_calls (cg : CallGraph) n N m :
  CalledFunctions (cg_node (addCallee cg n N) m) =
  CalledFunctions (cg_node cg m) ++ (if decide (m = n) then [N] else []).
Proof.
  unfold addCallee. rewrite !cg_node_set.
  destruct (decide (m = N)) as [->|Hm]; simpl; rewrite ?cg_node_set.
  - destruct (decide (N = n)) as [->|]; simpl; by rewrite ?app_nil_r.
  - destruct (decide (m = n)) as [->|]; simpl; by rewrite ?app_nil_r.
Qed.

Lemma getOrInsertNode_calls (cg : CallGraph) F f :
  CalledFunctions (cg_node (getOrInsertNode getCanonicalDecl cg F).1 (Some f)) =
    CalledFunctions (cg_node cg (Some f)) ∧
  (getOrInsertNode getCanonicalDecl cg F).2 = Some (getCanonicalDecl F).
Proof.
  unfold getOrInsertNode. destruct (cg_FunctionMap cg !! _) eqn:E; [done|].
  split; [|done]. cbn [fst]. rewrite addCallee_calls, decide_False, app_nil_r by done.
  unfold cg_node. cbn [cg_FunctionMap]. destruct (decide (f = getCanonicalDecl F)) as [->|Hf].
  - rewrite lookup_insert_eq, E. done.
  - rewrite lookup_insert_ne; [done|]. intros [=]. by apply Hf.
Qed.

Lemma addCallToCallGraph_ok (X : Extractor) a b :
  is_Some (FuncDeclMap X !! a) → is_Some (FuncDeclMap X !! b) →
  ∃ cg, addCallToCallGraph getCanonicalDecl X a b ⇓ with_CG X cg ∧
    ∀ f g, cg_edge (with_CG X cg) f g ↔ cg_edge X f g ∨ resolves X a b f g.
Proof.
  intros [d Hd] [d' Hd']. unfold addCallToCallGraph. rewrite Hd, Hd'.
  destruct (getOrInsertNode getCanonicalDecl (CG X) d') as [cg1 n1] eqn:E1.
  destruct (getOrInsertNode getCanonicalDecl cg1 d) as [cg2 n2] eqn:E2.
  eexists. split; [done|]. intros f g. unfold cg_edge. simpl.
  pose proof (getOrInsertNode_calls (CG X) d' f) as [C1 C1'].
  pose proof (getOrInsertNode_calls cg1 d f) as [C2 C2'].
  rewrite E1 in C1, C1'. rewrite E2 in C2, C2'. simpl in *. subst n1 n2.
  rewrite addCallee_calls, C2, C1, elem_of_app. unfold resolves.
  destruct (decide (Some f = Some (getCanonicalDecl d))) as [Hf|Hf].
  - rewrite list_elem_of_singleton. injection Hf as ->. naive_solver.
  - rewrite elem_of_nil. split; [naive_solver|]. intros [?|(x & y & ? & ? & -> & ?)]; [by left|].
    destruct Hf. congruence.
Qed.

(** ** The invariant *)

Definition parent (X : Extractor) (c : string) : string :=
  default EmptyString (CallExprParentMap (Data X) !! c).

(** A call has been processed for a function. *)
Record call_done (X : Extractor) (p : string * string) : Prop := {
  cdn_pair : call_pair (Data X) p;
  cdn_joined : call_satisfied (Data X) p;
  cdn_edge : ∀ F f g, FunctionMap (Data X) !! p.1 = Some F →
    resolves X (parent X p.2) F f g → cg_edge X f g
}.

(** What every operation guarantees.  [direct] are the names of the callers and
    callees of calls that it adds without looking at the classes, [todo] the
    calls that are still to be processed. *)
Record x_step (direct todo : list (string * string)) (X X' : Extractor) : Prop := {
  xs_static : static (Data X) (Data X');
  xs_known : ∀ o, known (Data X') o ↔ known (Data X) o;
  xs_mono : ∀ a b, same (Data X) a b → same (Data X') a b;
  xs_num : num_classes (Data X') ≤ num_classes (Data X);
  xs_decls : FuncDeclMap X' = FuncDeclMap X;
  xs_cache : Cache X ⊆ Cache X';
  xs_pairs : ∀ p, call_pair (Data X') p → call_pair (Data X) p ∨ p ∈ Cache X' ∨ p ∈ todo;
  xs_edges : ∀ f g, cg_edge X f g → cg_edge X' f g;
  xs_direct : ∀ a b f g, (a, b) ∈ direct → resolves X a b f g → cg_edge X' f g;
  xs_new_edges : ∀ f g, cg_edge X' f g → cg_edge X f g ∨
    (∃ a b, (a, b) ∈ direct ∧ resolves X a b f g) ∨
    (∃ p F, p ∈ Cache X' ∧ FunctionMap (Data X) !! p.1 = Some F ∧ resolves X (parent X p.2) F f g);
  xs_cells : ∀ i C, cells_of (Data X) !! i = Some C → cells_of (Data X') !! i = Some C ∨
    ∃ x y, x ∈ Objects C ∧ same (Data X') x y ∧ ¬ same (Data X) x y
}.

Lemma x_step_refl X : x_step [] [] X X.
Proof. split; auto; [done|]. by intros ???? ?%elem_of_nil. Qed.

Lemma resolves_eq X X' a b f g : FuncDeclMap X' = FuncDeclMap X → resolves X' a b f g ↔ resolves X a b f g.
Proof. unfold resolves. by intros ->. Qed.

Lemma parent_eq X X' c : static (Data X) (Data X') → parent X' c = parent X c.
Proof. apply static_parent. Qed.

Lemma x_step_trans l1 l2 todo X1 X2 X3 :
  x_step l1 todo X1 X2 → x_step l2 [] X2 X3 → (∀ p, p ∈ todo → p ∈ Cache X3) →
  x_step (l1 ++ l2) [] X1 X3.
Proof.
  intros [A1 A2 A3 A4 A5 A6 A7 A8 A9 A10 A11] [B1 B2 B3 B4 B5 B6 B7 B8 B9 B10 B11] Ht. split.
  - by transitivity (Data X2).
  - intros o. by rewrite B2.
  - auto.
  - lia.
  - congruence.
  - set_solver.
  - intros p [Hp|[Hp|?%elem_of_nil]]%B7; [|by right; left|done].
    destruct (A7 p Hp) as [?|[?|?]]; [by left|right; left; set_solver|right; left; auto].
  - auto.
  - intros a b f g [Hab|Hab]%elem_of_app Hr; [apply B8; by eapply A9|].
    apply (B9 a b); [done|]. by rewrite (resolves_eq X1 X2).
  - intros f g [He|[(a & b & Hab & Hr)|(p & F & Hp & HF & Hr)]]%B10.
    + destruct (A10 f g He) as [?|[(a & b & ? & ?)|(p & F & ? & ? & ?)]]; [by left|right; left|right; right].
      * exists a, b. set_solver.
      * exists p, F. set_solver.
    + right. left. exists a, b. rewrite (resolves_eq X1 X2) in Hr by done. set_solver.
    + right. right. exists p, F. rewrite (resolves_eq X1 X2), (parent_eq X1 X2) in Hr by done.
      rewrite (st_functions _ _ A1) in HF. done.
  - intros i C [HC|(x & y & ? & ? & ?)]%A11; [|right; exists x, y; by auto].
    destruct (B11 i C HC) as [?|(x & y & ? & ? & ?)]; [by left|right; exists x, y; by auto 6].
Qed.

Lemma call_done_mono l t X X' p : x_step l t X X' → call_done X p → call_done X' p.
Proof.
  intros S [H1 H2 H3]. pose proof (xs_static _ _ _ _ S) as Hst. split.
  - by eapply call_pair_mono; [|apply S|].
  - intros f fi ci a b. destruct Hst as [-> -> -> _ _]. intros. apply S. by eapply H2.
  - intros F f g. rewrite (st_functions _ _ Hst). intros HF Hr. apply (xs_edges _ _ _ _ S).
    apply (H3 F); [done|]. by rewrite (resolves_eq X X'), (parent_eq X X') in Hr by (done || apply S).
Qed.

Section invariant.
Context (pre : string → Prefix → Prop) (Cg : relation string).
Hypothesis HCg : congruence pre Cg.

Record x_inv (X : Extractor) : Prop := {
  xi_cong : cong_inv pre Cg [] (Data X);
  xi_data : call_data_ok (Data X);
  xi_closed : call_closed (Data X) Cg;
  xi_functions : ∀ o f, FunctionMap (Data X) !! o = Some f → is_Some (FuncDeclMap X !! f);
  xi_parents : ∀ c ci, CallInfoMap (Data X) !! c = Some ci → is_Some (FuncDeclMap X !! parent X c);
  xi_cache : ∀ p, p ∈ Cache X → call_done X p
}.

(** The classes have been merged and a call has been added: the new state. *)
Section after_call.
Context (X : Extractor) (D' : EquivClassContainer) (cg : CallGraph) (c' : gset (string * string)).
Context (new : list (string * string)) (a b : string).
Let X' : Extractor := mkExtractor D' (FuncDeclMap X) cg c'.
Hypothesis HX : x_inv X.
Hypothesis HD : cong_inv pre Cg [] D'.
Hypothesis HS : step (Data X) D' new.
Hypothesis Hcg : ∀ f g, cg_edge X' f g ↔ cg_edge X f g ∨ resolves X a b f g.

Lemma after_call_cache p :
  p ∈ Cache X → call_done X' p.
Proof.
  intros Hp. destruct (xi_cache _ HX p Hp) as [H1 H2 H3]. pose proof (sp_static _ _ _ HS) as Hst. split.
  - by eapply call_pair_mono; [|apply HS|].
  - by eapply call_satisfied_mono.
  - intros F f g. simpl. rewrite (st_functions _ _ Hst). intros HF Hr. apply Hcg. left.
    apply (H3 F); [done|]. by rewrite (parent_eq X X') in Hr.
Qed.

Lemma after_call_inv :
  Cache X ⊆ c' → (∀ p, p ∈ c' → p ∈ Cache X ∨ call_done X' p) → x_inv X'.
Proof.
  intros _ Hc. pose proof (sp_static _ _ _ HS) as Hst. split; simpl.
  - done.
  - eapply call_data_ok_mono; [done|apply HS|apply HX].
  - eapply call_closed_static; [done|apply HX].
  - rewrite (st_functions _ _ Hst). apply HX.
  - intros c ci. rewrite (st_calls _ _ Hst). intros Hci.
    rewrite (parent_eq X X') by done. by apply (xi_parents _ HX c ci).
  - intros p [Hp|Hp]%Hc; [by apply after_call_cache|done].
Qed.

Lemma after_call_step direct :
  Cache X ⊆ c' →
  (direct = [(a, b)] ∨ direct = [] ∧ ∃ p, p ∈ c' ∧ FunctionMap (Data X) !! p.1 = Some b ∧ a = parent X p.2) →
  x_step direct new X X'.
Proof.
  intros Hc Hd. split; try apply HS; simpl; try done.
  - by apply step_num in HS.
  - intros p [?|?]%(sp_pairs _ _ _ HS); auto.
  - intros f g ?. apply Hcg. by left.
  - intros x y f g Hxy Hr. apply Hcg. right.
    destruct Hd as [->|[-> _]]; [|by apply elem_of_nil in Hxy].
    apply list_elem_of_singleton in Hxy. by injection Hxy as -> ->.
  - intros f g [?|Hr]%Hcg; [by left|right].
    destruct Hd as [->|[_ (p & Hp & HF & ->)]]; [left; exists a, b|right; exists p, b]; set_solver.
Qed.
End after_call.

Abbreviation merge_call := (mergeFunctionCall_cached getCanonicalDecl).

(** Processing calls one after the other, given what one call does. *)
Lemma process_todo fuel X todo :
  (∀ X p, x_inv X → call_pair (Data X) p → num_classes (Data X) < fuel →
    ∃ X', merge_call fuel X p.1 p.2 ⇓ X' ∧ x_inv X' ∧ x_step [] [] X X' ∧ p ∈ Cache X') →
  x_inv X → Forall (call_pair (Data X)) todo → num_classes (Data X) < fuel →
  ∃ X', foldM (λ X p, merge_call fuel X p.1 p.2) X todo ⇓ X' ∧ x_inv X' ∧ x_step [] [] X X' ∧
    ∀ p, p ∈ todo → p ∈ Cache X'.
Proof.
  intros Hcall. revert X. induction todo as [|p todo IH]; intros X HX Ht Hf; simpl.
  { exists X. split_and!; [done..|apply x_step_refl|by intros ? ?%elem_of_nil]. }
  apply Forall_cons in Ht as [Hp Ht].
  destruct (Hcall X p HX Hp Hf) as (X1 & -> & HX1 & S1 & Hp1). simpl.
  pose proof (xs_num _ _ _ _ S1).
  destruct (IH X1) as (X2 & -> & HX2 & S2 & Ht2); [done| |lia|].
  { eapply Forall_impl; [done|]. intros q. apply call_pair_mono; apply S1. }
  exists X2. split_and!; [done..| |].
  - apply (x_step_trans [] [] [] X X1 X2); [done..|by intros ? ?%elem_of_nil].
  - intros q [->|Hq]%elem_of_cons; [|by apply Ht2]. by apply (xs_cache _ _ _ _ S2).
Qed.

Lemma mergeFunctionCall_cached_ok fuel X p :
  x_inv X → call_pair (Data X) p → num_classes (Data X) < fuel →
  ∃ X', merge_call fuel X p.1 p.2 ⇓ X' ∧ x_inv X' ∧ x_step [] [] X X' ∧ p ∈ Cache X'.
Proof.
  revert X p. induction fuel as [|fuel IH]; intros X p HX Hp Hf; [lia|].
  cbn [mergeFunctionCall_cached]. destruct (decide _) as [Hin|Hnin].
  { exists X. split_and!; [done..|apply x_step_refl|by destruct p]. }
  replace (p.1, p.2) with p by by destruct p.
  destruct (mergeFunctionCall_ok pre Cg HCg (S fuel) (Data X) p)
    as (D' & new & f & Hfn & Hr & HI & HS & Hsat); [apply HX..|done|lia|].
  cbn [Data with_Cache]. rewrite Hr. cbn [mbind outcome_bind fst snd].
  change (default EmptyString _) with (parent X p.2).
  set (X0 := with_Data _ D').
  assert (is_Some (FuncDeclMap X !! parent X p.2)) as Hpar.
  { destruct Hp as [_ (o & Ho & _)]. destruct (cd_refs _ (xi_data _ HX) o p.2 Ho) as [ci Hci].
    by eapply (xi_parents _ HX). }
  destruct (addCallToCallGraph_ok X0 (parent X p.2) f) as (cg & Ha & Hcg);
    [done|by eapply (xi_functions _ HX)|].
  rewrite Ha. cbn [mbind outcome_bind].
  set (X1 := with_CG X0 cg) in *.
  assert (x_step [] new X X1) as S1.
  { eapply (after_call_step X D' cg _ new (parent X p.2) f); [done..|set_solver|].
    right. split; [done|]. exists p. split_and!; [set_solver|done..]. }
  assert (call_done X1 p) as Hdone.
  { split; [by eapply call_pair_mono; [apply HS|apply HS|]|done|].
    intros F' g h HF Hres. apply Hcg. right.
    rewrite (parent_eq X X1) in Hres by apply HS.
    simpl in HF. rewrite (st_functions _ _ (sp_static _ _ _ HS)), Hfn in HF. by injection HF as <-. }
  assert (x_inv X1) as HX1.
  { eapply (after_call_inv X D' cg _ new (parent X p.2) f); [done..|set_solver|].
    intros q Hq. change (q ∈ {[p]} ∪ Cache X) in Hq.
    apply elem_of_union in Hq as [->%elem_of_singleton|Hq]; [by right|by left]. }
  destruct (sp_num _ _ _ HS) as [[_ ->]|Hlt].
  - exists X1. split_and!; [done..|]. simpl. set_solver.
  - destruct (process_todo fuel X1 new) as (X2 & -> & HX2 & S2 & Ht); [apply IH|done| |simpl; lia|].
    { apply Forall_forall. apply HS. }
    exists X2. split_and!; [done..| |].
    + by apply (x_step_trans [] [] new X X1 X2).
    + apply (xs_cache _ _ _ _ S2). simpl. set_solver.
Qed.

(** ** The merges *)

(** A merge returns, joins the two objects, and processes all calls that follow. *)
Lemma merge_names_ok fuel X L R :
  x_inv X → known (Data X) L → known (Data X) R → Cg L R → num_classes (Data X) < fuel →
  ∃ X', merge_names getCanonicalDecl fuel X L R ⇓ X' ∧ x_inv X' ∧ x_step [] [] X X' ∧
    same (Data X') L R.
Proof.
  intros HX [i Hi] [j Hj] HLR Hf. unfold merge_names, find_class. rewrite Hi, Hj. simpl.
  destruct (merge_two_ok pre Cg HCg fuel (Data X) [] L R) as (D' & new & Hm & HI & HS & Hs);
    [apply HX|by exists i|by exists j|done|lia|].
  unfold merge_objects, find_class in Hm. simpl in Hm. rewrite Hi, Hj in Hm. simpl in Hm.
  destruct (decide (i ≠ j)) as [Hij|Hij].
  - unfold merge_classes.
    destruct (mergeRecurisve fuel (Data X) i j) as [[D1 [calls e]]| | | |] eqn:Er; try discriminate Hm.
    simpl in Hm. injection Hm as -> ->. simpl.
    set (X1 := with_Data X D').
    assert (x_inv X1) as HX1.
    { pose proof (sp_static _ _ _ HS) as Hst. split; simpl.
      - done.
      - eapply call_data_ok_mono; [done|apply HS|apply HX].
      - eapply call_closed_static; [done|apply HX].
      - rewrite (st_functions _ _ Hst). apply HX.
      - intros c ci. rewrite (st_calls _ _ Hst). rewrite (parent_eq X X1) by done. apply HX.
      - intros p Hp. destruct (xi_cache _ HX p Hp) as [P1 P2 P3]. split.
        + by eapply call_pair_mono; [|apply HS|].
        + by eapply call_satisfied_mono.
        + intros F f g. simpl. rewrite (st_functions _ _ Hst). intros HF Hr.
          apply (P3 F); [done|]. by rewrite (parent_eq X X1) in Hr. }
    assert (x_step [] new X X1) as S1.
    { split; try apply HS; try done.
      - by apply step_num in HS.
      - intros p [?|?]%(sp_pairs _ _ _ HS); auto.
      - by intros ???? ?%elem_of_nil.
      - intros f g ?. by left. }
    destruct (process_todo fuel X1 new) as (X2 & -> & HX2 & S2 & Ht);
      [apply mergeFunctionCall_cached_ok|done|apply Forall_forall, HS| |].
    { pose proof (step_num _ _ _ HS). simpl. lia. }
    exists X2. split_and!; [done..| |].
    + by apply (x_step_trans [] [] new X X1 X2).
    + apply (xs_mono _ _ _ _ S2). exact Hs.
  - exists X. split_and!; [done..|apply x_step_refl|]. exists i. assert (i = j) as <- by lia. done.
Qed.
End invariant.
End extractor.

(** * The alias analysis as a whole

    Every step of [calculatePERelation] is an operation that returns, keeps the
    invariant of the extractor, and joins what it is asked to join; operations
    compose. *)

(** What an initializer asks to merge: names with the names on their right; no
    result if an assertion fails. *)
Fixpoint init_requests (VarType : Ty) (ObjDeref : ObjectNameDereference) (InitExpr : Stmt)
    : option (list (string * list string)) :=
  match VarType with
  | ArrayType TmpType =>
      match InitExpr with
      | InitListExpr children _ => mjoin <$> mapM (init_requests TmpType ObjDeref) children
      | ArrayInitLoopExpr _ | StringLiteral _ => Some []
      | _ => None
      end
  | RecordType isUnion fields =>
      if isUnion then Some []
      else match InitExpr with
      | InitListExpr children _ =>
          (fix go (fields : list (string * Ty)) (InitIter : list Stmt) :=
             match fields, InitIter with
             | [], _ => Some []
             | _, [] => None
             | (Field, FieldType) :: fields, child :: InitIter =>
                 l ← init_requests FieldType (derefMB (mkMember ObjDeref Field) 0) child;
                 l' ← go fields InitIter;
                 Some (l ++ l')
             end) fields children
      | _ => Some [(GetStringRepr ObjDeref, getReferencedDeclsStr InitExpr)]
      end
  | OtherType => Some [(GetStringRepr ObjDeref, getReferencedDeclsStr InitExpr)]
  end.

Section run.
Context {Decl : Type} `{Countable Decl} (getCanonicalDecl : Decl → Decl).
Abbreviation Extractor := (@Extractor Decl _ _).
Context (pre : string → Prefix → Prop) (Cg : relation string).
Hypothesis HCg : congruence pre Cg.
Context (fuel : nat) (X0 : Extractor).

(** As in the state [X0] in which the merges begin, up to the merges. *)
Record env (X : Extractor) : Prop := {
  en_static : static (Data X0) (Data X);
  en_known : ∀ o, known (Data X) o ↔ known (Data X0) o;
  en_decls : FuncDeclMap X = FuncDeclMap X0;
  en_fuel : num_classes (Data X) < fuel
}.

Lemma env_step d t X X' : x_step getCanonicalDecl d t X X' → env X → env X'.
Proof.
  intros S [H1 H2 H3 H4]. split.
  - etrans; [done|apply S].
  - intros o. by rewrite (xs_known _ _ _ _ _ S).
  - by rewrite (xs_decls _ _ _ _ _ S).
  - pose proof (xs_num _ _ _ _ _ S). lia.
Qed.

(** An operation that adds the calls [direct] and joins the pairs [R]. *)
Definition op_ok (f : Extractor → outcome Extractor) (direct : list (string * string))
    (R : relation string) : Prop :=
  ∀ X, x_inv getCanonicalDecl pre Cg X → env X →
    ∃ X', f X ⇓ X' ∧ x_inv getCanonicalDecl pre Cg X' ∧ x_step getCanonicalDecl direct [] X X' ∧
      ∀ a b, R a b → same (Data X') a b.

Lemma op_ok_ret : op_ok Ret [] (λ _ _, False).
Proof. intros X HX _. exists X. split_and!; [done..|apply x_step_refl|done]. Qed.

Lemma op_ok_weaken f d (R R' : relation string) :
  (∀ a b, R' a b → R a b) → op_ok f d R → op_ok f d R'.
Proof.
  intros HR Hf X HX He. destruct (Hf X HX He) as (X' & ? & ? & ? & ?). exists X'. split_and!; auto.
Qed.

Lemma op_ok_bind f g d1 d2 (R1 R2 : relation string) :
  op_ok f d1 R1 → op_ok g d2 R2 → op_ok (λ X, X ← f X; g X) (d1 ++ d2) (λ a b, R1 a b ∨ R2 a b).
Proof.
  intros Hf Hg X HX He. destruct (Hf X HX He) as (X1 & -> & HX1 & S1 & H1). simpl.
  destruct (Hg X1 HX1) as (X2 & -> & HX2 & S2 & H2); [by eapply env_step|].
  exists X2. split_and!; [done..| |].
  - by apply (x_step_trans getCanonicalDecl d1 d2 [] X X1 X2); [..|intros ? ?%elem_of_nil].
  - intros a b [?|?]; [apply S2|]; auto.
Qed.

Lemma op_ok_foldM {A} (f : Extractor → A → outcome Extractor) (l : list A)
    (d : A → list (string * string)) (R : A → relation string) :
  (∀ x, x ∈ l → op_ok (λ X, f X x) (d x) (R x)) →
  op_ok (λ X, foldM f X l) (l ≫= d) (λ a b, ∃ x, x ∈ l ∧ R x a b).
Proof.
  induction l as [|x l IH]; intros Hl.
  - eapply op_ok_weaken; [|apply op_ok_ret]. by intros a b (y & ?%elem_of_nil & _).
  - simpl. eapply op_ok_weaken; [|apply (op_ok_bind (λ X, f X x)); [apply Hl; by left|apply IH]].
    + intros a b (y & [->|Hy]%elem_of_cons & HR); [by left|right; by exists y].
    + intros y Hy. apply Hl. by right.
Qed.

(** Without direct calls. *)
Lemma op_ok_loop {A} (f : Extractor → A → outcome Extractor) (l : list A) (R : A → relation string) :
  (∀ x, x ∈ l → op_ok (λ X, f X x) [] (R x)) →
  op_ok (λ X, foldM f X l) [] (λ a b, ∃ x, x ∈ l ∧ R x a b).
Proof.
  intros Hl. replace [] with (l ≫= λ _ : A, @nil (string * string)).
  - by apply op_ok_foldM.
  - clear Hl. induction l; done.
Qed.

Lemma op_ok_assert b f d R : b = true → op_ok f d R → op_ok (λ X, cpp_assert b ;; f X) d R.
Proof. intros ->. done. Qed.

(** A name is looked up first. *)
Lemma op_ok_find L f d R :
  known (Data X0) L → op_ok f d R → op_ok (λ X, _ ← find_class (Data X) L; f X) d R.
Proof.
  intros HL Hf X HX He. unfold find_class. apply (en_known _ He) in HL as [i ->]. by apply Hf.
Qed.

(** ** Merges *)

Definition mergeable (a b : string) : Prop := known (Data X0) a ∧ known (Data X0) b ∧ Cg a b.

Lemma merge_names_op L R :
  mergeable L R → op_ok (λ X, merge_names getCanonicalDecl fuel X L R) [] (λ a b, a = L ∧ b = R).
Proof.
  intros (HL & HR & HLR) X HX He.
  destruct (merge_names_ok getCanonicalDecl pre Cg HCg fuel X L R) as (X' & ? & ? & ? & ?);
    [done|by apply (en_known _ He)..|done|apply He|].
  exists X'. split_and!; [done..|]. by intros a b [-> ->].
Qed.

Lemma merge_name_with_op L rhs :
  known (Data X0) L → (∀ r, r ∈ rhs → mergeable L r) →
  op_ok (λ X, merge_name_with getCanonicalDecl fuel X L rhs) [] (λ a b, a = L ∧ b ∈ rhs).
Proof.
  intros HL Hr. apply op_ok_find; [done|].
  eapply op_ok_weaken; [|apply op_ok_loop; intros r Hin; apply merge_names_op, Hr, Hin].
  intros a b [-> ?]. by exists b.
Qed.

Lemma merge_pairs_op l :
  (∀ p, p ∈ l → mergeable p.1 p.2) →
  op_ok (λ X, foldM (λ X p, merge_names getCanonicalDecl fuel X p.1 p.2) X l) [] (λ a b, (a, b) ∈ l).
Proof.
  intros Hl. eapply op_ok_weaken; [|apply op_ok_loop; intros p Hp; apply merge_names_op, Hl, Hp].
  intros a b Hab. by exists (a, b).
Qed.

(** ** What was collected *)

Context (C : Collected).

Lemma handleAssignments_op :
  (∀ A, A ∈ Assignments C → A.1 ≠ [] ∧ (∀ l, l ∈ A.1 → known (Data X0) l) ∧
    ∀ l r, l ∈ A.1 → r ∈ A.2 → mergeable l r) →
  op_ok (handleAssignments getCanonicalDecl fuel C) []
    (λ a b, ∃ A, A ∈ Assignments C ∧ a ∈ A.1 ∧ b ∈ A.2).
Proof.
  intros HA. unfold handleAssignments.
  apply (op_ok_loop _ _ (λ A a b, a ∈ A.1 ∧ b ∈ A.2)). intros A HAC.
  destruct (HA A HAC) as (Hne & Hk & Hm). apply op_ok_assert; [by rewrite bool_decide_false|].
  eapply op_ok_weaken;
    [|apply op_ok_loop; intros l Hl; apply merge_name_with_op; [by apply Hk|intros r; by apply Hm]].
  intros a b [Ha Hb]. by exists a.
Qed.

Lemma handleMergeConstructorAssignments_op :
  (∀ A, A ∈ ConstructorMergeList C → A.1 ≠ EmptyString ∧ known (Data X0) A.1 ∧
    ∀ r, r ∈ A.2 → mergeable A.1 r) →
  op_ok (handleMergeConstructorAssignments getCanonicalDecl fuel C) []
    (λ a b, ∃ rhs, (a, rhs) ∈ ConstructorMergeList C ∧ b ∈ rhs).
Proof.
  intros HA. unfold handleMergeConstructorAssignments.
  eapply op_ok_weaken; [|apply (op_ok_loop _ _ (λ A a b, a = A.1 ∧ b ∈ A.2))].
  - intros a b (rhs & ? & ?). by exists (a, rhs).
  - intros A HAC. destruct (HA A HAC) as (Hne & Hk & Hm).
    apply op_ok_assert; [unfold nonempty; by rewrite bool_decide_false|]. by apply merge_name_with_op.
Qed.

Lemma handleMergeFunctionParameters_op :
  (∀ F i a, F ∈ ParamsToMerge C → F.1 !! i = Some a → ∃ b, F.2 !! i = Some b ∧ mergeable a b) →
  op_ok (handleMergeFunctionParameters getCanonicalDecl fuel C) []
    (λ a b, ∃ F i, F ∈ ParamsToMerge C ∧ F.1 !! i = Some a ∧ F.2 !! i = Some b).
Proof.
  intros HF. unfold handleMergeFunctionParameters.
  eapply op_ok_weaken;
    [|apply (op_ok_loop _ _ (λ F a b, ∃ i, F.1 !! i = Some a ∧ F.2 !! i = Some b))].
  - intros a b (F & i & ? & ? & ?). exists F. split; [done|by exists i].
  - intros F HFC.
    eapply op_ok_weaken; [|apply (op_ok_loop _ _ (λ i a b, F.1 !! i = Some a ∧ F.2 !! i = Some b))].
    + intros a b (i & Ha & Hb). exists i. split; [|done].
      apply elem_of_seq. apply lookup_lt_Some in Ha. lia.
    + intros i Hi%elem_of_seq. destruct (lookup_lt_is_Some_2 F.1 i) as [a Ha]; [lia|].
      destruct (HF F i a HFC Ha) as (b & Hb & Hm). rewrite Ha, Hb. simpl.
      eapply op_ok_weaken; [|by apply merge_names_op]. naive_solver.
Qed.

(** *** Initializers *)

Lemma handleInitExpr_requests T o s l X :
  init_requests T o s = Some l →
  handleInitExpr getCanonicalDecl fuel T o s X =
    foldM (λ X e, merge_name_with getCanonicalDecl fuel X e.1 e.2) X l.
Proof.
  revert T o s l X. fix IH 1. intros [T|u fields|] o s l X Hl.
  - destruct s as [children refs|refs|refs|refs|refs]; simpl in *; try done;
      [|injection Hl as <-; done..].
    apply fmap_Some in Hl as (ls & Hls & ->). revert X ls Hls.
    induction children as [|c children IHc]; intros X ls Hls; simpl in *.
    { by injection Hls as <-. }
    apply bind_Some in Hls as (l1 & H1 & (ls' & Hls & [= <-])%bind_Some).
    rewrite (IH T o c l1) by done. unfold mjoin. simpl. rewrite foldM_app.
    destruct (foldM _ X l1); simpl; [|done..]. by apply IHc.
  - simpl in *. destruct u; [by injection Hl as <-|].
    destruct s as [children refs|refs|refs|refs|refs];
      [|injection Hl as <-; simpl; by destruct (merge_name_with _ _ _ _ _)..].
    revert fields children l X Hl. fix IHf 1. intros [|[f t] fields] children l X Hl.
    { by injection Hl as <-. }
    destruct children as [|c children]; [done|].
    apply bind_Some in Hl as (l1 & H1 & (l2 & H2 & [= <-])%bind_Some).
    rewrite (IH t _ c l1) by done. rewrite foldM_app.
    destruct (foldM _ X l1); simpl; [|done..]. by apply IHf.
  - injection Hl as <-. simpl. by destruct (merge_name_with _ _ _ _ _).
Qed.

Lemma handleInits_op :
  (∀ o s T, (o, s, T) ∈ Initalizers C → (∀ r, s ≠ CXXConstructExpr r) ∧ ∃ l, init_requests T o s = Some l ∧
    ∀ L rhs, (L, rhs) ∈ l → known (Data X0) L ∧ ∀ r, r ∈ rhs → mergeable L r) →
  op_ok (handleInits getCanonicalDecl fuel C) []
    (λ a b, ∃ o s T l rhs, (o, s, T) ∈ Initalizers C ∧ init_requests T o s = Some l ∧
       (a, rhs) ∈ l ∧ b ∈ rhs).
Proof.
  intros HI. unfold handleInits.
  eapply op_ok_weaken; [|apply (op_ok_loop _ _ (λ e a b, ∃ l rhs,
    init_requests e.2 e.1.1 e.1.2 = Some l ∧ (a, rhs) ∈ l ∧ b ∈ rhs))].
  - intros a b (o & s & T & l & rhs & ? & ? & ? & ?). exists (o, s, T). split; [done|]. by exists l, rhs.
  - intros [[o s] T] Hin. destruct (HI o s T Hin) as (Hs & l & Hl & Hm). simpl.
    eapply op_ok_weaken; [|intros X HX He; destruct (op_ok_loop
      (λ X e, merge_name_with getCanonicalDecl fuel X e.1 e.2) l (λ e a b, a = e.1 ∧ b ∈ e.2))
      with (X := X) as (X' & Hr & HX' & S & HR); [|done|done|]].
    + intros a b HR. exact HR.
    + intros [L rhs] He'. destruct (Hm L rhs He') as [??]. by apply merge_name_with_op.
    + exists X'. split_and!; [|done|done|].
      * rewrite <- (handleInitExpr_requests T o s l X Hl) in Hr. destruct s; try done. by destruct (Hs refs).
      * intros a b (l' & rhs & Hl' & Ha & Hb). apply HR. exists (a, rhs).
        assert (l' = l) as -> by congruence. done.
Qed.

(** *** Calls *)

Lemma direct_call_op Call fi :
  length (CalledObjects (dc_CallInfo Call)) = 1 →
  FunctionInfoMap (Data X0) !! dc_Called Call = Some fi →
  Forall (known (Data X0)) (Parameters_ fi) →
  (∀ a b, call_joins fi (dc_CallInfo Call) (dc_CallExpr Call) a b → mergeable a b) →
  is_Some (FuncDeclMap X0 !! dc_Caller Call) → is_Some (FuncDeclMap X0 !! dc_Called Call) →
  op_ok (λ X, handleDirectCall getCanonicalDecl fuel X Call) [(dc_Caller Call, dc_Called Call)]
    (call_joins fi (dc_CallInfo Call) (dc_CallExpr Call)).
Proof.
  intros Hlen Hfi HP Hj Hcaller Hcalled X HX He. unfold handleDirectCall.
  rewrite bool_decide_true by done. simpl.
  destruct (mergeFunctionCallImpl_ok pre Cg HCg fuel (Data X) (dc_Called Call) (dc_Caller Call)
    (dc_CallInfo Call) (dc_CallExpr Call) fi) as (D' & new & Hr & HI & HS & Hjoin).
  - apply HX.
  - by rewrite (st_infos _ _ (en_static _ He)).
  - eapply Forall_impl; [done|]. intros o. by apply (en_known _ He).
  - intros a b (? & ? & ?)%Hj. split_and!; [by apply (en_known _ He)..|done].
  - pose proof (en_fuel _ He). lia.
  - rewrite Hr. simpl.
    destruct (addCallToCallGraph_ok getCanonicalDecl (with_Data X D') (dc_Caller Call) (dc_Called Call))
      as (cg & -> & Hcg); [simpl; by rewrite (en_decls _ He)..|]. simpl.
    set (X1 := with_CG (with_Data X D') cg) in *.
    assert (x_step getCanonicalDecl [(dc_Caller Call, dc_Called Call)] new X X1) as S1.
    { eapply (after_call_step getCanonicalDecl pre Cg HCg X D' cg (Cache X) new); eauto. }
    assert (x_inv getCanonicalDecl pre Cg X1) as HX1.
    { eapply (after_call_inv getCanonicalDecl pre Cg X D' cg (Cache X) new); eauto. }
    destruct (process_todo getCanonicalDecl pre Cg fuel X1 new) as (X2 & -> & HX2 & S2 & Ht);
      [by apply mergeFunctionCall_cached_ok|done|apply Forall_forall, HS| |].
    { pose proof (step_num _ _ _ HS). pose proof (en_fuel _ He). simpl. lia. }
    exists X2. split_and!; [done..| |].
    + by apply (x_step_trans getCanonicalDecl [(dc_Caller Call, dc_Called Call)] [] new X X1 X2).
    + intros a b Hab. apply (xs_mono _ _ _ _ _ S2). simpl. auto.
Qed.

Lemma handleDestructorCalls_op :
  (∀ d, d ∈ Destructors C → is_Some (FuncDeclMap X0 !! d.1) ∧ is_Some (FuncDeclMap X0 !! d.2)) →
  op_ok (handleDestructorCalls getCanonicalDecl C) (Destructors C) (λ _ _, False).
Proof.
  intros HD. unfold handleDestructorCalls.
  assert ((Destructors C ≫= λ d, [(d.1, d.2)]) = Destructors C) as Heq.
  { clear HD. induction (Destructors C) as [|[a b] l IH]; [done|]. simpl. f_equal. exact IH. }
  enough (op_ok (λ X, foldM (λ X d, addCallToCallGraph getCanonicalDecl X d.1 d.2) X (Destructors C))
    (Destructors C ≫= λ d, [(d.1, d.2)]) (λ _ _, False)) as Hop by by rewrite Heq in Hop.
  eapply op_ok_weaken; [|apply (op_ok_foldM _ _ _ (λ _ _ _, False))]; [done|].
  intros d Hd X HX He. destruct (HD d Hd) as [H1 H2].
  destruct (addCallToCallGraph_ok getCanonicalDecl X d.1 d.2) as (cg & -> & Hcg);
    [by rewrite (en_decls _ He)..|].
  exists (with_CG X cg). split_and!; [done| | |done].
  - by eapply (after_call_inv getCanonicalDecl pre Cg X (Data X) cg (Cache X) [] d.1 d.2);
      [done|apply HX|apply step_refl|done|done|left].
  - eapply (after_call_step getCanonicalDecl pre Cg HCg X (Data X) cg (Cache X) [] d.1 d.2);
      [done|apply HX|apply step_refl|done|done|by left].
Qed.

(** *** This pointers

    A merge may erase the class whose objects the loop visits. *)

(** The class of a called method got another object, which the closure joins
    with it. *)
Definition outgrown (D : EquivClassContainer) (m : string) : Prop :=
  ∃ x, Cg m x ∧ known (Data X0) x ∧ ¬ same D m x.

(** The this pointers of the methods that [D] has in the class of [m] have been
    joined with the object. *)
Definition this_joined (D D' : EquivClassContainer) (e : string * string) : Prop :=
  ∀ o f, same D e.2 o → FunctionMap (Data X0) !! o = Some f →
    known (Data X0) (generateUSRForThisExpr f) → same D' (generateUSRForThisExpr f) e.1.

(** What the closure has to join for a pair of an object and a method. *)
Definition this_closed (e : string * string) : Prop :=
  known (Data X0) e.1 ∧ known (Data X0) e.2 ∧
  ∀ o f, FunctionMap (Data X0) !! o = Some f → known (Data X0) (generateUSRForThisExpr f) →
    Cg e.2 o → Cg (generateUSRForThisExpr f) e.1.

Lemma x_step_seq X1 X2 X3 :
  x_step getCanonicalDecl [] [] X1 X2 → x_step getCanonicalDecl [] [] X2 X3 →
  x_step getCanonicalDecl [] [] X1 X3.
Proof. intros S1 S2. by apply (x_step_trans getCanonicalDecl [] [] [] X1 X2 X3); [..|intros ? ?%elem_of_nil]. Qed.

Lemma merge_this_pointer_op e o :
  this_closed e → Cg e.2 o →
  op_ok (λ X, merge_this_pointer getCanonicalDecl fuel X e.1 o) []
    (λ a b, ∃ f, FunctionMap (Data X0) !! o = Some f ∧ known (Data X0) (generateUSRForThisExpr f) ∧
       a = generateUSRForThisExpr f ∧ b = e.1).
Proof.
  intros (Hobj & _ & Hrel) Hmo X HX He. unfold merge_this_pointer.
  rewrite (st_functions _ _ (en_static _ He)).
  destruct (FunctionMap (Data X0) !! o) as [f|] eqn:Ef.
  2: { exists X. split_and!; [done..|apply x_step_refl|]. by intros a b (? & ? & _). }
  destruct (FindMap (Data X) !! generateUSRForThisExpr f) as [j|] eqn:Ej.
  - assert (known (Data X0) (generateUSRForThisExpr f)) as Hthis by (apply (en_known _ He); by exists j).
    destruct (merge_names_op (generateUSRForThisExpr f) e.1) with (X := X) as (X' & ? & ? & ? & Hs);
      [split_and!; [done..|by apply (Hrel o)]|done|done|].
    exists X'. split_and!; [done..|]. intros a b (f' & [= <-] & _ & -> & ->). by apply Hs.
  - exists X. split_and!; [done..|apply x_step_refl|]. intros a b (f' & [= <-] & Hk & _).
    exfalso. apply (en_known _ He) in Hk as [j Hj]. congruence.
Qed.

(** The loop over the objects of the class at [i]: it returns as long as the
    class stays where it is. *)
Lemma this_loop_op e i E X os :
  this_closed e → x_inv getCanonicalDecl pre Cg X → env X →
  FindMap (Data X) !! e.2 = Some i → cells_of (Data X) !! i = Some E →
  (∀ o, o ∈ os → o ∈ Objects E) →
  ∀ X1, x_inv getCanonicalDecl pre Cg X1 → x_step getCanonicalDecl [] [] X X1 →
  let r := foldM (λ X o, X ← merge_this_pointer getCanonicalDecl fuel X e.1 o;
                         _ ← list_get (EquivClasses (Data X)) i; Ret X) X1 os in
  (r = UB ∧ outgrown (Data X) e.2) ∨
  ∃ X', r ⇓ X' ∧ x_inv getCanonicalDecl pre Cg X' ∧ x_step getCanonicalDecl [] [] X1 X' ∧
    ∀ o f, o ∈ os → FunctionMap (Data X0) !! o = Some f →
      known (Data X0) (generateUSRForThisExpr f) → same (Data X') (generateUSRForThisExpr f) e.1.
Proof.
  intros Hcl HX He Hi HE. pose proof (ci_wf _ _ _ _ (xi_cong _ _ _ _ HX)) as Hwf.
  induction os as [|o os IH]; intros Hos X1 HX1 S1; cbn [foldM].
  { right. exists X1. split_and!; [done..|apply x_step_refl|]. by intros ?? ?%elem_of_nil. }
  assert (∀ x, x ∈ Objects E → same (Data X) e.2 x) as Hsame.
  { intros x Hx. exists i. split; [done|by eapply wf_object]. }
  destruct (merge_this_pointer_op e o Hcl) with (X := X1) as (X2 & -> & HX2 & S2 & Hj).
  { apply (ci_sound _ _ _ _ (xi_cong _ _ _ _ HX)), Hsame, Hos. by left. }
  { done. }
  { by eapply env_step. }
  rewrite bind_ret. pose proof (x_step_seq X X1 X2 S1 S2) as S12.
  assert (list_get (EquivClasses (Data X2)) i = deref (cells_of (Data X2) !! i)) as -> by done.
  destruct (cells_of (Data X2) !! i) as [E2|] eqn:HE2.
  - cbn [deref]. rewrite !bind_ret.
    destruct (IH (λ o Ho, Hos o (proj2 (elem_of_cons _ _ _) (or_intror Ho))) X2 HX2 S12)
      as [?|(X' & ? & ? & S' & Hos')]; [by left|right].
    exists X'. split_and!; [done|done|by eapply x_step_seq|].
    intros o' f [->|Ho']%elem_of_cons Hf Hk; [|by eapply Hos'].
    apply (xs_mono _ _ _ _ _ S'), Hj. by exists f.
  - left. split; [done|].
    destruct (xs_cells _ _ _ _ _ S12 i E HE) as [?|(x & y & Hx & Hxy & Hn)]; [congruence|]. exists y.
    assert (same (Data X2) e.2 y) as Hy.
    { eapply same_trans; [|exact Hxy]. by apply (xs_mono _ _ _ _ _ S12), Hsame. }
    split_and!; [by apply (ci_sound _ _ _ _ (xi_cong _ _ _ _ HX2))| |].
    + apply (en_known _ He), (xs_known _ _ _ _ _ S12). by destruct (same_known _ _ _ Hy).
    + intros Hmy. apply Hn. eapply same_trans; [|exact Hmy]. by apply same_sym, Hsame.
Qed.

Lemma this_joined_mono D1 D2 D3 D4 e :
  (∀ a b, same D1 a b → same D2 a b) → (∀ a b, same D3 a b → same D4 a b) →
  this_joined D2 D3 e → this_joined D1 D4 e.
Proof. intros H12 H34 Hj o f ???. apply H34. by eapply Hj; [apply H12|..]. Qed.

Lemma handleThisPointer_op e X :
  this_closed e → x_inv getCanonicalDecl pre Cg X → env X →
  (handleThisPointer getCanonicalDecl fuel X e = UB ∧ outgrown (Data X) e.2) ∨
  ∃ X', handleThisPointer getCanonicalDecl fuel X e ⇓ X' ∧ x_inv getCanonicalDecl pre Cg X' ∧
    x_step getCanonicalDecl [] [] X X' ∧ this_joined (Data X) (Data X') e.
Proof.
  intros Hcl HX He. pose proof Hcl as (_ & Hm & _). apply (en_known _ He) in Hm as [i Hi].
  pose proof (ci_wf _ _ _ _ (xi_cong _ _ _ _ HX)) as Hwf.
  destruct (wf_class _ _ _ Hwf Hi) as (E & HE & _).
  unfold handleThisPointer, find_class. rewrite Hi. cbn [mbind outcome_bind].
  assert (list_get (EquivClasses (Data X)) i = Ret E) as -> by (unfold list_get; by rewrite HE).
  rewrite bind_ret.
  destruct (this_loop_op e i E X (Objects E) Hcl HX He Hi HE (λ o Ho, Ho) X HX (x_step_refl _ X))
    as [?|(X' & ? & ? & ? & Hj)]; [by left|right].
  exists X'. split_and!; [done..|]. intros o f (i' & Hi' & Ho). assert (i' = i) as -> by congruence.
  apply Hj. destruct (wf_class _ _ _ Hwf Ho) as (E' & HE' & ?). by assert (E' = E) as -> by congruence.
Qed.

(** The whole loop: it returns with all this pointers joined, or a class that it
    runs over has outgrown what it was before. *)
Lemma handleMergeCXXThisPointers_op X :
  (∀ e, e ∈ ThisPointersToMerge C → this_closed e) → x_inv getCanonicalDecl pre Cg X → env X →
  let r := handleMergeCXXThisPointers getCanonicalDecl fuel C X in
  (r = UB ∧ ∃ e, e ∈ ThisPointersToMerge C ∧ outgrown (Data X) e.2) ∨
  ∃ X', r ⇓ X' ∧ x_inv getCanonicalDecl pre Cg X' ∧ x_step getCanonicalDecl [] [] X X' ∧
    ∀ e, e ∈ ThisPointersToMerge C → this_joined (Data X) (Data X') e.
Proof.
  unfold handleMergeCXXThisPointers. revert X.
  induction (ThisPointersToMerge C) as [|e l IH]; intros X HT HX He; cbn [foldM].
  { right. exists X. split_and!; [done..|apply x_step_refl|]. by intros ? ?%elem_of_nil. }
  destruct (handleThisPointer_op e X) as [[-> ?]|(X1 & -> & HX1 & S1 & Hj)]; [apply HT; by left|done|done| |].
  { left. split; [done|]. exists e. split; [by left|done]. }
  rewrite bind_ret.
  destruct (IH X1) as [[-> (e' & ? & x & ? & ? & Hn)]|(X2 & -> & HX2 & S2 & Hj2)];
    [intros e' ?; apply HT; by right|done|by eapply env_step| |].
  - left. split; [done|]. exists e'. split; [by right|]. exists x. split_and!; [done..|].
    intros ?. by apply Hn, (xs_mono _ _ _ _ _ S1).
  - right. exists X2. split_and!; [done|done|by eapply x_step_seq|]. intros e' [->|He']%elem_of_cons.
    + eapply this_joined_mono; [|apply S2|exact Hj]. done.
    + eapply this_joined_mono; [apply S1| |by apply Hj2]. done.
Qed.
End run.
