(* ===== verification/AliasProgram.v ===== *)
(** * The result of the alias analysis

    [calculatePERelation] for what the traversal of a translation unit
    collected: the relation it computes, the edges it adds to the call graph,
    and where it is exact. *)

From S2P Require Import Prelude AliasNames AliasClasses AliasWf AliasClosure.
From S2P Require Import AliasRecursion AliasExtractor AliasInit AliasExtractorProps.

Lemma bind_nest {A B E} (o : outcome A) (f : A → outcome E) (g : A → outcome B) h :
  (∀ x, f x = (g x ≫= h)) → (o ≫= f) = ((o ≫= g) ≫= h).
Proof. intros Hf. destruct o; simpl; auto. Qed.

Section program.
Context {Decl : Type} `{Countable Decl} (getCanonicalDecl : Decl → Decl).
Abbreviation Extractor := (@Extractor Decl _ _).

(** The state in which the merges begin. *)
Definition start_state (C : Collected) (X : Extractor) : outcome Extractor :=
  D ← initPrefixClasses (ObjectSet C) (initEquivClasses (ObjectSet C) (Data X));
  Ret (with_Data X (InitReferencedInCalls D)).

(** What the program asks to join. *)
Inductive requested (D : EquivClassContainer) (C : Collected) : relation string :=
  | rq_assignment lhs rhs a b :
      (lhs, rhs) ∈ Assignments C → a ∈ lhs → b ∈ rhs → requested D C a b
  | rq_constructor a rhs b : (a, rhs) ∈ ConstructorMergeList C → b ∈ rhs → requested D C a b
  | rq_member a b : (a, b) ∈ CXXMemberMergeList C → requested D C a b
  | rq_override a b : (a, b) ∈ OverridesToMerge C → requested D C a b
  | rq_parameter F1 F2 i a b :
      (F1, F2) ∈ ParamsToMerge C → F1 !! i = Some a → F2 !! i = Some b → requested D C a b
  | rq_init o s T l a rhs b :
      (o, s, T) ∈ Initalizers C → init_requests T o s = Some l → (a, rhs) ∈ l → b ∈ rhs →
      requested D C a b
  | rq_direct Call fi a b :
      Call ∈ DirectCalls C → FunctionInfoMap D !! dc_Called Call = Some fi →
      call_joins fi (dc_CallInfo Call) (dc_CallExpr Call) a b → requested D C a b.

(** The least congruence with these pairs that is closed under calls and under
    the binding of this pointers. *)
Inductive alias_closure (D : EquivClassContainer) (C : Collected) : relation string :=
  | ac_requested a b : requested D C a b → alias_closure D C a b
  | ac_refl a : alias_closure D C a a
  | ac_sym a b : alias_closure D C a b → alias_closure D C b a
  | ac_trans a b c : alias_closure D C a b → alias_closure D C b c → alias_closure D C a c
  | ac_prefix o o' p p' : alias_closure D C o o' → prefix_of D o p → prefix_of D o' p' →
      pf_Member p = pf_Member p' → alias_closure D C (pf_Object p) (pf_Object p')
  | ac_call F c o f fi ci a b :
      FunctionMap D !! F = Some f → FunctionInfoMap D !! f = Some fi → CallInfoMap D !! c = Some ci →
      c ∈ default [] (ReferencedInCalls D !! o) → alias_closure D C F o →
      call_joins fi ci c a b → alias_closure D C a b
  | ac_this obj m o f :
      (obj, m) ∈ ThisPointersToMerge C → alias_closure D C m o → FunctionMap D !! o = Some f →
      known D (generateUSRForThisExpr f) → alias_closure D C (generateUSRForThisExpr f) obj.

Lemma alias_closure_congruence D C : congruence (prefix_of D) (alias_closure D C).
Proof.
  split.
  - split; [intros ?; apply ac_refl|intros ??; apply ac_sym|intros ???; apply ac_trans].
  - intros o o' p p'. apply ac_prefix.
Qed.

(** Names that the traversal collected are objects, functions are declared, and
    the assertions about the collected data hold. *)
Record collected_ok (X : Extractor) (C : Collected) : Prop := {
  ck_data : call_data_ok (Data X);
  ck_functions : ∀ o f, FunctionMap (Data X) !! o = Some f → is_Some (FuncDeclMap X !! f);
  ck_parents : ∀ c ci, CallInfoMap (Data X) !! c = Some ci → is_Some (FuncDeclMap X !! parent X c);
  ck_requested : ∀ a b, requested (Data X) C a b → known (Data X) a ∧ known (Data X) b;
  ck_assignments : ∀ A, A ∈ Assignments C → A.1 ≠ [] ∧ ∀ l, l ∈ A.1 → known (Data X) l;
  ck_constructors : ∀ A, A ∈ ConstructorMergeList C → A.1 ≠ EmptyString ∧ known (Data X) A.1;
  ck_parameters : ∀ F, F ∈ ParamsToMerge C → length F.1 ≤ length F.2;
  ck_initializers : ∀ o s T, (o, s, T) ∈ Initalizers C → (∀ r, s ≠ CXXConstructExpr r) ∧
    ∃ l, init_requests T o s = Some l ∧ Forall (λ e, known (Data X) e.1) l;
  ck_calls : ∀ Call, Call ∈ DirectCalls C → length (CalledObjects (dc_CallInfo Call)) = 1 ∧
    is_Some (FuncDeclMap X !! dc_Caller Call) ∧ is_Some (FuncDeclMap X !! dc_Called Call) ∧
    ∃ fi, FunctionInfoMap (Data X) !! dc_Called Call = Some fi ∧
      Forall (known (Data X)) (Parameters_ fi);
  ck_destructors : ∀ d, d ∈ Destructors C →
    is_Some (FuncDeclMap X !! d.1) ∧ is_Some (FuncDeclMap X !! d.2);
  ck_this : ∀ obj m, (obj, m) ∈ ThisPointersToMerge C → known (Data X) obj ∧ known (Data X) m
}.

(** These conditions can be computed, but for the requests, for which it is
    enough that every name in the lists is an object. *)
Abbreviation names D l := (Forall (known D) l).
Definition collected_check (X : Extractor) (C : Collected) : Prop :=
  let D := Data X in
  map_Forall (λ _ f, is_Some (FunctionInfoMap D !! f) ∧ is_Some (FuncDeclMap X !! f)) (FunctionMap D) ∧
  map_Forall (λ _ fi, names D (Parameters_ fi) ∧ names D (ReferencedInReturnStmts fi))
    (FunctionInfoMap D) ∧
  map_Forall (λ c ci, known D c ∧ Forall (Forall (known D)) (Arguments_ ci) ∧
    is_Some (FuncDeclMap X !! parent X c)) (CallInfoMap D) ∧
  map_Forall (λ _ cs, Forall (λ c, is_Some (CallInfoMap D !! c)) cs) (ReferencedInCalls D) ∧
  Forall (λ A, A.1 ≠ [] ∧ names D A.1 ∧ names D A.2) (Assignments C) ∧
  Forall (λ A, A.1 ≠ EmptyString ∧ known D A.1 ∧ names D A.2) (ConstructorMergeList C) ∧
  Forall (λ p, known D p.1 ∧ known D p.2) (CXXMemberMergeList C) ∧
  Forall (λ p, known D p.1 ∧ known D p.2) (OverridesToMerge C) ∧
  Forall (λ F, length F.1 ≤ length F.2 ∧ names D F.1 ∧ names D F.2) (ParamsToMerge C) ∧
  Forall (λ e, match e.1.2 with CXXConstructExpr _ => False | _ => True end ∧
    match init_requests e.2 e.1.1 e.1.2 with
    | Some l => Forall (λ e, known D e.1 ∧ names D e.2) l
    | None => False
    end) (Initalizers C) ∧
  Forall (λ Call, length (CalledObjects (dc_CallInfo Call)) = 1 ∧
    is_Some (FuncDeclMap X !! dc_Caller Call) ∧ is_Some (FuncDeclMap X !! dc_Called Call) ∧
    Forall (Forall (known D)) (Arguments_ (dc_CallInfo Call)) ∧
    match FunctionInfoMap D !! dc_Called Call with
    | Some fi => ReferencedInReturnStmts fi = [] ∨ known D (dc_CallExpr Call)
    | None => False
    end) (DirectCalls C) ∧
  Forall (λ d, is_Some (FuncDeclMap X !! d.1) ∧ is_Some (FuncDeclMap X !! d.2)) (Destructors C) ∧
  Forall (λ p, known D p.1 ∧ known D p.2) (ThisPointersToMerge C).

#[export] Instance known_dec D o : Decision (known D o).
Proof. unfold known. apply _. Defined.
#[export] Instance collected_check_dec X C : Decision (collected_check X C).
Proof.
  unfold collected_check.
  repeat match goal with
  | |- Decision (_ ∧ _) => apply and_dec
  | |- Decision (Forall _ _) => apply Forall_dec; intros ?
  | |- Decision (match ?x with _ => _ end) => destruct x
  | |- _ => apply _
  end.
Defined.

Lemma collected_check_ok X C : collected_check X C → collected_ok X C.
Proof.
  intros (H1 & H2 & H3 & H4 & H5 & H6 & H7 & H8 & H9 & H10 & H11 & H12 & H13).
  rewrite !Forall_forall in *.
  assert (∀ Call fi, Call ∈ DirectCalls C → FunctionInfoMap (Data X) !! dc_Called Call = Some fi →
    ∀ a b, call_joins fi (dc_CallInfo Call) (dc_CallExpr Call) a b →
      known (Data X) a ∧ known (Data X) b) as Hcalls.
  { intros Call fi Hin Hfi a b Hj. destruct (H11 _ Hin) as (_ & _ & _ & HA & Hr). rewrite Hfi in Hr.
    destruct (H2 _ _ Hfi) as [HP HR]. destruct Hr as [Hr|Hr]; [|by eapply call_joins_known].
    destruct Hj as [k p args x Hp Ha Hx|r Hx]; [|rewrite Hr in Hx; by apply elem_of_nil in Hx].
    rewrite !Forall_forall in *. split; [by eapply HP, list_elem_of_lookup_2|].
    specialize (HA args (list_elem_of_lookup_2 _ _ _ Ha)). rewrite Forall_forall in HA. auto. }
  split.
  - split.
    + intros o f Ho. by apply (H1 o f).
    + intros f fi Hf. by apply (H2 f fi).
    + intros c ci Hc. by destruct (H3 c ci Hc) as (? & ? & _).
    + intros o c. destruct (ReferencedInCalls (Data X) !! o) as [cs|] eqn:E; [|by intros ?%elem_of_nil].
      intros Hc. specialize (H4 o cs E). rewrite Forall_forall in H4. auto.
  - intros o f Ho. by apply (H1 o f).
  - intros c ci Hc. by destruct (H3 c ci Hc) as (_ & _ & ?).
  - intros a b [lhs rhs a' b' Hin Ha Hb|a' rhs b' Hin Hb|a' b' Hin|a' b' Hin|F1 F2 i a' b' Hin Ha Hb
      |o s T l a' rhs b' Hin Hl Ha Hb|Call fi a' b' Hin Hfi Hj].
    + destruct (H5 _ Hin) as (_ & Hl & Hr). rewrite Forall_forall in Hl, Hr. auto.
    + destruct (H6 _ Hin) as (_ & Hl & Hr). rewrite Forall_forall in Hr. auto.
    + apply (H7 _ Hin).
    + apply (H8 _ Hin).
    + destruct (H9 _ Hin) as (_ & Hl & Hr). rewrite Forall_forall in Hl, Hr.
      split; [by eapply Hl, list_elem_of_lookup_2|by eapply Hr, list_elem_of_lookup_2].
    + destruct (H10 _ Hin) as [_ Hr]. simpl in Hr. rewrite Hl, Forall_forall in Hr.
      destruct (Hr _ Ha) as [? Hrhs]. rewrite Forall_forall in Hrhs. auto.
    + by eapply Hcalls.
  - intros A HA. destruct (H5 _ HA) as (? & Hl & _). by rewrite Forall_forall in Hl.
  - intros A HA. by destruct (H6 _ HA) as (? & ? & _).
  - intros F HF. by destruct (H9 _ HF) as (? & _).
  - intros o s T Hin. destruct (H10 _ Hin) as [Hs Hr]. simpl in *. split.
    + intros r ->. done.
    + destruct (init_requests T o s) as [l|]; [|done]. exists l. split; [done|].
      eapply Forall_impl; [done|]. by intros e [? _].
  - intros Call Hin. destruct (H11 _ Hin) as (? & ? & ? & _ & Hr). split_and!; [done..|].
    destruct (FunctionInfoMap (Data X) !! dc_Called Call) as [fi|] eqn:E; [|done].
    exists fi. split; [done|]. by apply (H2 _ _ E).
  - apply H12.
  - intros obj m Hin. apply (H13 _ Hin).
Qed.

Definition direct_edges (C : Collected) : list (string * string) :=
  ((λ Call, (dc_Caller Call, dc_Called Call)) <$> DirectCalls C) ++ Destructors C.

Section result.
Context (C : Collected) (X X0 : Extractor) (fuel : nat).
Hypothesis Hobjs : objects_ok (ObjectSet C).
Hypothesis Hclasses : EquivClasses (Data X) = list_empty.
Hypothesis Hfind : FindMap (Data X) = ∅.
Hypothesis Hfuns : FunctionMap (Data X) = ∅.
Hypothesis Hcache : Cache X = ∅.
Hypothesis Hstart : start_state C X ⇓ X0.
Hypothesis Hok : collected_ok X0 C.
Hypothesis Hfuel : num_classes (Data X0) < fuel.

Let D0 := Data X0.
Let Cg := alias_closure D0 C.
Let HCg : congruence (prefix_of D0) Cg := alias_closure_congruence D0 C.

Lemma start_facts :
  container_ok D0 ∧ (∀ a b, same D0 a b → a = b) ∧ Cache X0 = ∅ ∧ CG X0 = CG X ∧
  FuncDeclMap X0 = FuncDeclMap X.
Proof.
  destruct (initial_classes (ObjectSet C) (Data X)) as (D & Hr & HD & HP & _); [done..|].
  unfold start_state in Hstart. rewrite Hr in Hstart. injection Hstart as HX0. unfold D0. rewrite <- HX0.
  split_and!; [|apply (wp_single _ _ _ _ HP)|done..].
  destruct HD as [[W1 W2 W3 W4 W5] H2 H3]. split; [by split|done..].
Qed.

Lemma start_functions o f : FunctionMap D0 !! o = Some f → known D0 o.
Proof.
  destruct (initial_classes (ObjectSet C) (Data X)) as (D & Hr & _ & HP & HS); [done..|].
  unfold start_state in Hstart. rewrite Hr in Hstart. injection Hstart as HX0. unfold D0. rewrite <- HX0.
  simpl. rewrite (wp_functions _ _ _ _ HP). intros (x & Hx & <- & _)%(sg_functions _ _ _ HS).
  change (known D (GetStringRepr x)). apply (wp_known _ _ _ _ HP). by apply list_elem_of_fmap_2.
Qed.

Lemma start_inv : x_inv getCanonicalDecl (prefix_of D0) Cg X0.
Proof.
  destruct start_facts as (HD & Hs & Hc & _). split.
  - apply container_inv; [done|]. intros a b ->%Hs. apply ac_refl.
  - apply Hok.
  - intros F c o f fi ci a b. apply ac_call.
  - apply Hok.
  - apply Hok.
  - rewrite Hc. by intros p ?%elem_of_empty.
Qed.

Lemma start_env : env fuel X0 X0.
Proof. by split. Qed.

Lemma requested_mergeable a b : requested D0 C a b → mergeable Cg X0 a b.
Proof. intros Hr. destruct (ck_requested _ _ Hok a b Hr). split_and!; [done..|by apply ac_requested]. Qed.

(** All merges but those of this pointers. *)
Definition run_merges (X : Extractor) : outcome Extractor :=
  X ← handleDirectCalls getCanonicalDecl fuel C X;
  X ← handleDestructorCalls getCanonicalDecl C X;
  X ← handleMergeCXXMembers getCanonicalDecl fuel C X;
  X ← handleMergeFunctionParameters getCanonicalDecl fuel C X;
  X ← handleMergeOverrides getCanonicalDecl fuel C X;
  X ← handleInits getCanonicalDecl fuel C X;
  X ← handleAssignments getCanonicalDecl fuel C X;
  handleMergeConstructorAssignments getCanonicalDecl fuel C X.

Abbreviation op_ok := (op_ok getCanonicalDecl (prefix_of D0) Cg fuel X0).

Lemma direct_calls_op :
  op_ok (handleDirectCalls getCanonicalDecl fuel C)
    ((λ Call, (dc_Caller Call, dc_Called Call)) <$> DirectCalls C)
    (λ a b, ∃ Call fi, Call ∈ DirectCalls C ∧ FunctionInfoMap D0 !! dc_Called Call = Some fi ∧
       call_joins fi (dc_CallInfo Call) (dc_CallExpr Call) a b).
Proof.
  unfold handleDirectCalls.
  assert ((DirectCalls C ≫= λ Call, [(dc_Caller Call, dc_Called Call)]) =
    (λ Call, (dc_Caller Call, dc_Called Call)) <$> DirectCalls C) as <-.
  { generalize (DirectCalls C). intros l. induction l as [|x l IH]; [done|]. simpl. by f_equal. }
  eapply op_ok_weaken; [|apply (op_ok_foldM _ _ _ _ _ _ _ _ (λ Call a b, ∃ fi,
    FunctionInfoMap D0 !! dc_Called Call = Some fi ∧
    call_joins fi (dc_CallInfo Call) (dc_CallExpr Call) a b))].
  - intros a b (Call & fi & ? & ? & ?). exists Call. split; [done|]. by exists fi.
  - intros Call Hin. destruct (ck_calls _ _ Hok Call Hin) as (Hlen & Hc1 & Hc2 & fi & Hfi & HP).
    eapply op_ok_weaken; [|apply (direct_call_op getCanonicalDecl _ _ HCg fuel X0 Call fi)]; try done.
    + intros a b (fi' & Hfi' & Hj). assert (fi' = fi) as -> by (unfold D0 in *; congruence). done.
    + intros a b Hj. apply requested_mergeable. by eapply rq_direct.
Qed.

Lemma run_merges_op : op_ok run_merges (direct_edges C) (requested D0 C).
Proof.
  unfold run_merges, direct_edges.
  replace (((λ Call, (dc_Caller Call, dc_Called Call)) <$> DirectCalls C) ++ Destructors C)
    with (((λ Call, (dc_Caller Call, dc_Called Call)) <$> DirectCalls C) ++ Destructors C ++
            [] ++ [] ++ [] ++ [] ++ [] ++ @nil (string * string)) by by rewrite !app_nil_r.
  assert (∀ l : list (string * string), (∀ p, p ∈ l → requested D0 C p.1 p.2) → ∀ p, p ∈ l → mergeable Cg X0 p.1 p.2) as Hpairs.
  { intros l Hl p Hp. by apply requested_mergeable, Hl. }
  eapply op_ok_weaken; [|repeat apply op_ok_bind].
  2: apply direct_calls_op.
  2: by apply handleDestructorCalls_op, Hok.
  2: { apply merge_pairs_op; [done|]. apply Hpairs. intros [a b] ?. by apply rq_member. }
  2: { apply handleMergeFunctionParameters_op; [done|]. intros [F1 F2] i a HF Ha.
       pose proof (ck_parameters _ _ Hok _ HF) as Hlen. apply lookup_lt_Some in Ha as Hi.
       destruct (lookup_lt_is_Some_2 F2 i) as [b Hb]; [simpl in *; lia|]. exists b. split; [done|].
       apply requested_mergeable. by eapply rq_parameter. }
  2: { apply merge_pairs_op; [done|]. apply Hpairs. intros [a b] ?. by apply rq_override. }
  2: { apply handleInits_op; [done|]. intros o s T Hin.
       destruct (ck_initializers _ _ Hok o s T Hin) as (Hs & l & Hl & Hk). split; [done|].
       exists l. split; [done|]. intros L rhs He. rewrite Forall_forall in Hk.
       split; [by apply (Hk (L, rhs))|]. intros r Hr. apply requested_mergeable. by eapply rq_init. }
  2: { apply handleAssignments_op; [done|]. intros [lhs rhs] Hin.
       destruct (ck_assignments _ _ Hok _ Hin) as [??]. split_and!; [done..|].
       intros a b ??. apply requested_mergeable. by eapply rq_assignment. }
  2: { apply handleMergeConstructorAssignments_op; [done|]. intros [a rhs] Hin.
       destruct (ck_constructors _ _ Hok _ Hin) as [??]. split_and!; [done..|].
       intros b ?. apply requested_mergeable. by eapply rq_constructor. }
  intros a b [lhs rhs a' b' ? ? ?|a' rhs b' ? ?|a' b' ?|a' b' ?|F1 F2 i a' b' ? ? ?|o s T l a' rhs b' ? ? ? ?
    |Call fi a' b' ? ? ?].
  - do 6 right. left. by exists (lhs, rhs).
  - do 7 right. by exists rhs.
  - do 2 right. by left.
  - do 4 right. by left.
  - do 3 right. left. by exists (F1, F2), i.
  - do 5 right. left. by exists o, s, T, l, rhs.
  - left. by exists Call, fi.
Qed.

(** What the closure asks of the this pointers. *)
Lemma this_pointers_closed e : e ∈ ThisPointersToMerge C → this_closed Cg X0 e.
Proof.
  destruct e as [obj m]. intros Hin. destruct (ck_this _ _ Hok obj m Hin) as [??]. split_and!; [done..|].
  intros o f Ho Hk Hm. by eapply ac_this.
Qed.

Lemma calculate_is_merges :
  calculatePERelation getCanonicalDecl fuel C X =
  (X ← run_merges X0; handleMergeCXXThisPointers getCanonicalDecl fuel C X).
Proof.
  unfold calculatePERelation, run_merges. unfold start_state in Hstart. simpl.
  destruct (initPrefixClasses _ _) as [D| | | |]; try discriminate Hstart. simpl in *.
  injection Hstart as <-.
  repeat (apply bind_nest; intros ?). done.
Qed.

(** What holds when the analysis has returned. *)
Record analysis_result (X' : Extractor) : Prop := {
  ar_ok : container_ok (Data X');
  ar_static : static D0 (Data X');
  ar_known : ∀ o, known (Data X') o ↔ known D0 o;
  ar_sound : ∀ a b, same (Data X') a b → Cg a b;
  ar_requested : ∀ a b, requested D0 C a b → same (Data X') a b;
  ar_congruent : ∀ o o' p p', same (Data X') o o' → prefix_of D0 o p → prefix_of D0 o' p' →
    pf_Member p = pf_Member p' → same (Data X') (pf_Object p) (pf_Object p');
  ar_calls : ∀ p, call_pair (Data X') p → call_pair D0 p ∨ call_done getCanonicalDecl X' p;
  ar_call_edges : ∀ p F f g, call_done getCanonicalDecl X' p → FunctionMap D0 !! p.1 = Some F →
    resolves getCanonicalDecl X0 (parent X0 p.2) F f g → cg_edge X' f g;
  ar_old_edges : ∀ f g, cg_edge X f g → cg_edge X' f g;
  ar_direct : ∀ a b f g, (a, b) ∈ direct_edges C → resolves getCanonicalDecl X0 a b f g → cg_edge X' f g;
  ar_edges : ∀ f g, cg_edge X' f g → cg_edge X f g ∨
    (∃ a b, (a, b) ∈ direct_edges C ∧ resolves getCanonicalDecl X0 a b f g) ∨
    (∃ p F, call_pair (Data X') p ∧ FunctionMap D0 !! p.1 = Some F ∧
       resolves getCanonicalDecl X0 (parent X0 p.2) F f g)
}.

Lemma step_result X' :
  x_inv getCanonicalDecl (prefix_of D0) Cg X' → x_step getCanonicalDecl (direct_edges C) [] X0 X' →
  (∀ a b, requested D0 C a b → same (Data X') a b) → analysis_result X'.
Proof.
  intros HX S HR. destruct start_facts as (_ & _ & _ & HCG & _). pose proof (xi_cong _ _ _ _ HX) as HI. split.
  - by eapply inv_container.
  - apply S.
  - apply S.
  - apply (ci_sound _ _ _ _ HI).
  - done.
  - intros o o' p p' Hs Hp Hp' Hm. by eapply inv_congruent.
  - intros p [?|[Hp|?%elem_of_nil]]%(xs_pairs _ _ _ _ _ S); [by left|right|done].
    by apply (xi_cache _ _ _ _ HX).
  - intros p F f g Hp HF Hr. apply (cdn_edge _ _ _ Hp F); [by rewrite (st_functions _ _ (xs_static _ _ _ _ _ S))|].
    rewrite (parent_eq X0 X') by apply S. by apply (resolves_eq _ X0 X'); [apply S|].
  - intros f g He. apply (xs_edges _ _ _ _ _ S). unfold cg_edge in *. by rewrite HCG.
  - intros a b f g ??. by eapply (xs_direct _ _ _ _ _ S).
  - intros f g [He|[?|(p & F & Hp & ? & ?)]]%(xs_new_edges _ _ _ _ _ S); [left|right; by left|right; right].
    + unfold cg_edge in *. by rewrite HCG in He.
    + exists p, F. split_and!; [|done..]. by apply (cdn_pair _ _ _ (xi_cache _ _ _ _ HX p Hp)).
Qed.

(** The closure puts an object with the method [m] that is not in its class in
    the state [X1]. *)
Definition class_grows (X1 : Extractor) (m : string) : Prop :=
  ∃ x, Cg m x ∧ known D0 x ∧ ¬ same (Data X1) m x.

(** Every function that is in the class of [m] in the state [X1] and has a this
    pointer has it joined with [obj] in [X']. *)
Definition this_pointers_bound (X1 X' : Extractor) (obj m : string) : Prop :=
  ∀ o f, same (Data X1) m o → FunctionMap D0 !! o = Some f → known D0 (generateUSRForThisExpr f) →
    same (Data X') (generateUSRForThisExpr f) obj.

Lemma calculatePERelation_ret :
  ∃ X1, run_merges X0 ⇓ X1 ∧ analysis_result X1 ∧
    ((calculatePERelation getCanonicalDecl fuel C X = UB ∧
        ∃ obj m, (obj, m) ∈ ThisPointersToMerge C ∧ class_grows X1 m) ∨
     ∃ X', calculatePERelation getCanonicalDecl fuel C X ⇓ X' ∧ analysis_result X' ∧
       ∀ obj m, (obj, m) ∈ ThisPointersToMerge C → this_pointers_bound X1 X' obj m).
Proof.
  destruct (run_merges_op X0 start_inv start_env) as (X1 & Hr & HX1 & S1 & HR).
  exists X1. split_and!; [done|by apply step_result|].
  rewrite calculate_is_merges, Hr. simpl.
  destruct (handleMergeCXXThisPointers_op getCanonicalDecl _ _ HCg fuel X0 C X1 this_pointers_closed HX1)
    as [[-> ([obj m] & Hin & Hout)]|(X2 & -> & HX2 & S2 & Hj)]; [by eapply env_step, start_env| |].
  - left. split; [done|]. by exists obj, m.
  - right. exists X2. split_and!; [done| |].
    + apply step_result; [done| |].
      * rewrite <- (app_nil_r (direct_edges C)).
        by apply (x_step_trans getCanonicalDecl (direct_edges C) [] [] X0 X1 X2); [..|intros ? ?%elem_of_nil].
      * intros a b ?. apply (xs_mono _ _ _ _ _ S2). by apply HR.
    + intros obj m Hin o f. apply (Hj (obj, m) Hin).
Qed.
End result.

(** C5: The alias analysis of a translation unit, for a consistent collection
    of facts over plain names, an empty container and more fuel than there are
    objects.  The merges before the loop over this pointers return.  That loop,
    and with it the analysis, returns as well, unless the class of one of the
    called methods, over which it runs, is about to grow: only if the closure
    puts an object with such a method that the merges before have not put into
    its class, the loop may use a class that it has erased itself.  When the
    analysis has returned, the classes are consistent and a congruence; they
    join everything the program asks to join and nothing beyond the least
    relation that is closed under prefixes, calls and this pointers; for every
    call of a method on an object, the this pointer of every function in the
    class of the called method is joined with the object; every call that a
    merge brought together with a function has been processed; and the edges of
    the call graph are the old ones and those of direct calls, destructors, and
    calls in a class with the called function. *)
Theorem calculatePERelation_correct C X X0 fuel :
  objects_ok (ObjectSet C) →
  EquivClasses (Data X) = list_empty → FindMap (Data X) = ∅ → FunctionMap (Data X) = ∅ →
  Cache X = ∅ → start_state C X ⇓ X0 → collected_ok X0 C → num_classes (Data X0) < fuel →
  ∃ X1, run_merges C fuel X0 ⇓ X1 ∧ analysis_result C X X0 X1 ∧
    ((calculatePERelation getCanonicalDecl fuel C X = UB ∧
        ∃ obj m, (obj, m) ∈ ThisPointersToMerge C ∧ class_grows C X0 X1 m) ∨
     ∃ X', calculatePERelation getCanonicalDecl fuel C X ⇓ X' ∧ analysis_result C X X0 X' ∧
       ∀ obj m, (obj, m) ∈ ThisPointersToMerge C → this_pointers_bound X0 X1 X' obj m).
Proof. intros. by apply calculatePERelation_ret. Qed.

(** What has been computed contains the closure, if every call pair is done. *)
Lemma closure_reached C X X0 X' a b :
  analysis_result C X X0 X' → (∀ o f, FunctionMap (Data X0) !! o = Some f → known (Data X0) o) →
  ThisPointersToMerge C = [] → (∀ p, ¬ call_pair (Data X0) p) →
  alias_closure (Data X0) C a b → a = b ∨ same (Data X') a b.
Proof.
  intros HR Hfun Hthis Hno. pose proof (ar_static _ _ _ _ HR) as Hst.
  induction 1 as [a b Hab|a|a b _ IH|a b c _ IH1 _ IH2|o o' p p' _ IH Hp Hp' Hm
    |F c o f fi ci a b Hf Hfi Hci Hc _ IH Hj|obj m o f Hin _ _ _ _].
  - right. by apply (ar_requested _ _ _ _ HR).
  - by left.
  - destruct IH as [->|IH]; [by left|right]. by apply same_sym.
  - destruct IH1 as [->|IH1]; [done|]. destruct IH2 as [<-|IH2]; [by right|right]. by eapply same_trans.
  - right. assert (same (Data X') o o') as Hs.
    { destruct IH as [<-|IH]; [|done]. apply same_refl, (ar_known _ _ _ _ HR).
      destruct Hp as (i & ? & Hi & _). by exists i. }
    by eapply (ar_congruent _ _ _ _ HR).
  - destruct IH as [->|IH].
    { exfalso. apply (Hno (o, c)). split; [by exists f|]. exists o. split; [done|].
      apply same_refl. by eapply Hfun. }
    right. assert (call_pair (Data X') (F, c)) as Hp.
    { split; [rewrite (st_functions _ _ Hst); by exists f|].
      exists o. by rewrite (st_referenced _ _ Hst). }
    destruct (ar_calls _ _ _ _ HR _ Hp) as [?|Hdone]; [by destruct (Hno (F, c))|].
    apply (cdn_joined _ _ _ Hdone f fi ci); simpl;
      by rewrite ?(st_functions _ _ Hst), ?(st_infos _ _ Hst), ?(st_calls _ _ Hst).
  - rewrite Hthis in Hin. by apply elem_of_nil in Hin.
Qed.

(** C15: Without members of C++ classes, and when no call names a function
    itself in its callee expression, the analysis computes exactly the least
    congruence that is closed under calls, and adds exactly the edges of direct
    calls and of calls through an object that this relation joins with the
    function. *)
Theorem calculatePERelation_exact C X X0 fuel :
  objects_ok (ObjectSet C) →
  EquivClasses (Data X) = list_empty → FindMap (Data X) = ∅ → FunctionMap (Data X) = ∅ →
  Cache X = ∅ → start_state C X ⇓ X0 → collected_ok X0 C → num_classes (Data X0) < fuel →
  ThisPointersToMerge C = [] → (∀ p, ¬ call_pair (Data X0) p) →
  ∃ X', calculatePERelation getCanonicalDecl fuel C X ⇓ X' ∧
    (∀ a b, same (Data X') a b ↔
       known (Data X0) a ∧ known (Data X0) b ∧ alias_closure (Data X0) C a b) ∧
    ∀ f g, cg_edge X' f g ↔ cg_edge X f g ∨
      (∃ a b, (a, b) ∈ direct_edges C ∧ resolves getCanonicalDecl X0 a b f g) ∨
      (∃ F o c name, FunctionMap (Data X0) !! F = Some name ∧ known (Data X0) o ∧
         c ∈ default [] (ReferencedInCalls (Data X0) !! o) ∧ alias_closure (Data X0) C F o ∧
         resolves getCanonicalDecl X0 (parent X0 c) name f g).
Proof.
  intros Ho Hc Hf Hfun Hcache Hs Hok Hn Hthis Hno.
  destruct (calculatePERelation_ret C X X0 fuel)
    as (_ & _ & _ & [[_ (obj & m & Hin & _)]|(X' & Hr & HR & _)]); [done..|by rewrite Hthis in Hin; apply elem_of_nil in Hin|].
  pose proof (start_functions C X X0 Ho Hc Hf Hfun Hs) as Hfk.
  assert (∀ a b, same (Data X') a b ↔
    known (Data X0) a ∧ known (Data X0) b ∧ alias_closure (Data X0) C a b) as Hsame.
  { intros a b. split.
    - intros Hab. destruct (same_known _ _ _ Hab) as [Ha Hb].
      split_and!; [by apply (ar_known _ _ _ _ HR)..|]. by apply (ar_sound _ _ _ _ HR).
    - intros (Ha & Hb & Hab). destruct (closure_reached C X X0 X' a b) as [<-|?]; [done..| |done].
      by apply same_refl, (ar_known _ _ _ _ HR). }
  exists X'. split_and!; [done..|]. intros f g. pose proof (ar_static _ _ _ _ HR) as Hst. split.
  - intros [?|[?|(p & F & [_ (o & Hop & Hpo)] & HF & Hres)]]%(ar_edges _ _ _ _ HR); [auto..|].
    rewrite (st_referenced _ _ Hst) in Hop. apply Hsame in Hpo as (_ & Hko & Hpo).
    right. right. exists p.1, o, p.2, F. done.
  - intros [?|[(a & b & ? & ?)|(F & o & c & name & HF & Hko & Hco & HFo & Hres)]].
    + by apply (ar_old_edges _ _ _ _ HR).
    + by eapply (ar_direct _ _ _ _ HR).
    + apply (ar_call_edges _ _ _ _ HR (F, c) name); [|done..].
      destruct (ar_calls _ _ _ _ HR (F, c)) as [Hp|?]; [|by destruct (Hno _ Hp)|done].
      split; [rewrite (st_functions _ _ Hst); by exists name|]. exists o.
      rewrite (st_referenced _ _ Hst). split; [done|]. apply Hsame. split_and!; [by eapply Hfk|done..].
Qed.
End program.
