(* ===== verification/AliasMerge.v ===== *)
(** * Merging the data of the alias analysis

    [cgcollector/tools/CGMerge.cpp], [mergeEquivalenceClasses]: the classes of
    another translation unit are merged into those collected so far, then all
    calls of all classes are processed, and the edges found are added to the
    call graph in JSON; and the JSON of the container, at the end of
    [cgcollector/lib/include/AliasAnalysis.h]. *)

From S2P Require Import Prelude Json Collector AliasNames AliasClasses.

(** [std::sort] and [std::unique] *)
Fixpoint unique {A} `{EqDecision A} (l : list A) : list A :=
  match l with
  | x :: l' =>
      match l' with
      | y :: _ => if decide (x = y) then unique l' else x :: unique l'
      | [] => [x]
      end
  | [] => []
  end.
Definition Prefix_le (p q : Prefix) : Prop := Prefix_ltb q p = false.
#[export] Instance Prefix_le_dec : RelDecision Prefix_le.
Proof. intros s t. unfold Prefix_le. apply _. Defined.
Definition sort_unique_Objects (l : list string) : list string := unique (merge_sort string_le l).
Definition sort_unique_Prefixes (l : list Prefix) : list Prefix := unique (merge_sort Prefix_le l).

(** ** JSON *)

Section json.
Context {JO : JsonOps}.

Definition jof_strings (l : list string) : json := jarr ((λ s, jstr s) <$> l).
Definition jof_map {A} (f : A → json) (m : gmap string A) : json := jobj (f <$> m).
(** [get_to] of a vector and of a map. *)
Definition jget_list {A} (f : json → outcome A) (j : json) : outcome (list A) :=
  match jview j with VArr l => mapM f l | _ => Throw json_type_error end.
Definition jget_map {A} (f : json → outcome A) (j : json) : outcome (gmap string A) :=
  match jview j with
  | VObj m => foldM (λ r e, v ← f e.2; Ret (<[e.1 := v]> r)) ∅ (ordered_iter m)
  | _ => Throw json_type_error
  end.
Definition get_at {A} (f : json → outcome A) (j : json) (k : string) : outcome A := v ← jat j k; f v.

Definition FunctionInfo_toJson (i : FunctionInfo) : json :=
  jfields [("MangledNames", jof_strings (MangledNames i)); ("Parameters", jof_strings (Parameters_ i));
    ("ReferencedInReturnStmts", jof_strings (ReferencedInReturnStmts i));
    ("IsVariadic", jbool (IsVariadic i))].
Definition FunctionInfo_fromJson (j : json) : outcome FunctionInfo :=
  m ← get_at jget_strings j "MangledNames";
  p ← get_at jget_strings j "Parameters";
  r ← get_at jget_strings j "ReferencedInReturnStmts";
  v ← get_at jget_bool j "IsVariadic";
  Ret (mkFunctionInfo m p r v).

Definition CallInfo_toJson (i : CallInfo) : json :=
  jfields [("CalledObjects", jof_strings (CalledObjects i));
    ("Arguments", jarr (jof_strings <$> Arguments_ i))].
Definition CallInfo_fromJson (j : json) : outcome CallInfo :=
  c ← get_at jget_strings j "CalledObjects";
  a ← get_at (jget_list jget_strings) j "Arguments";
  Ret (mkCallInfo c a).

Definition Prefix_toJson (p : Prefix) : json :=
  jfields [("Object", jstr (pf_Object p)); ("Member", jstr (pf_Member p))].
Definition Prefix_fromJson (j : json) : outcome Prefix :=
  o ← get_at jget_string j "Object"; m ← get_at jget_string j "Member"; Ret (mkPrefix o m).

Definition EquivClass_toJson (E : EquivClass) : json :=
  jfields [("Objects", jof_strings (Objects E)); ("Prefixes", jarr (Prefix_toJson <$> Prefixes E))].
Definition EquivClass_fromJson (j : json) : outcome EquivClass :=
  o ← get_at jget_strings j "Objects";
  p ← get_at (jget_list Prefix_fromJson) j "Prefixes";
  Ret (mkEquivClass o p).

Definition container_toJson (C : EquivClassContainer) : json :=
  jfields [("EquivClasses", jarr (EquivClass_toJson <$> list_elems (EquivClasses C)));
    ("FunctionMap", jof_map (λ s, jstr s) (FunctionMap C));
    ("FunctionInfoMap", jof_map FunctionInfo_toJson (FunctionInfoMap C));
    ("CallInfoMap", jof_map CallInfo_toJson (CallInfoMap C));
    ("CallExprParentMap", jof_map (λ s, jstr s) (CallExprParentMap C))].

(** The list of classes as read, and [FindMap] from it: the first class of an
    object counts. *)
Definition list_of {A} (l : list A) : ListType A := foldl list_push_back list_empty l.
Definition find_map_of (l : list EquivClass) : gmap string nat :=
  foldl (λ fm e, foldl (λ fm o, map_emplace fm o e.1) fm (Objects e.2)) ∅ (imap pair l).
Definition container_fromJson (j : json) : outcome EquivClassContainer :=
  classes ← get_at (jget_list EquivClass_fromJson) j "EquivClasses";
  functions ← get_at (jget_map jget_string) j "FunctionMap";
  infos ← get_at (jget_map FunctionInfo_fromJson) j "FunctionInfoMap";
  calls ← get_at (jget_map CallInfo_fromJson) j "CallInfoMap";
  parents ← get_at (jget_map jget_string) j "CallExprParentMap";
  Ret (InitReferencedInCalls
    (mkEquivClassContainer (list_of classes) functions infos calls (find_map_of classes) parents ∅)).

(** ** The call graph in JSON *)

Definition add_parent (CallingFunctionNameMangled : string) (Json : json)
    (CalledFunctionNameMangled : string) : outcome json :=
  if jcontains Json CalledFunctionNameMangled then
    It ← jindex Json CalledFunctionNameMangled;
    Parents ← get_at jget_set It "callers";
    jupdate Json CalledFunctionNameMangled
      (λ v, jset v "callers" (jof_set ({[CallingFunctionNameMangled]} ∪ Parents)))
  else Ret Json.

Definition add_callees (CalledFunctionNamesMangled : list string) (Json : json)
    (CallingFunctionNameMangled : string) : outcome json :=
  Entry ← jat Json CallingFunctionNameMangled;
  Callees ← get_at jget_set Entry "callees";
  Json ← jupdate Json CallingFunctionNameMangled
           (λ v, jset v "callees" (jof_set (list_to_set CalledFunctionNamesMangled ∪ Callees)));
  foldM (add_parent CallingFunctionNameMangled) Json CalledFunctionNamesMangled.

Definition addCallToCallGraph_json (D : EquivClassContainer) (CallingFunctionName CalledFunctionName : string)
    (Json : json) : outcome json :=
  match FunctionInfoMap D !! CallingFunctionName, FunctionInfoMap D !! CalledFunctionName with
  | Some ItCalling, Some ItCalled =>
      foldM (add_callees (MangledNames ItCalled)) Json (MangledNames ItCalling)
  | _, _ => AssertFail
  end.

(** [mergeFunctionCall] of the tool: no cache. *)
Fixpoint mergeFunctionCall_json (fuel : nat) (st : EquivClassContainer * json) (CalledObj CE : string)
    : outcome (EquivClassContainer * json) :=
  match fuel with
  | O => OutOfFuel
  | S fuel' =>
      r ← mergeFunctionCall fuel st.1 CalledObj CE;
      match r.2 with
      | None => Ret (r.1, st.2)
      | Some (todo, (CallingFunctionName, CalledFunctionName)) =>
          Json ← addCallToCallGraph_json r.1 CallingFunctionName CalledFunctionName st.2;
          foldM (λ st ToMerge, mergeFunctionCall_json fuel' st ToMerge.1 ToMerge.2) (r.1, Json) todo
      end
  end.
End json.

(** ** Merging two containers *)

(** Information about a function that both have. *)
Definition merge_function_info (st : gmap string FunctionInfo * list (string * string))
    (e : string * FunctionInfo) : outcome (gmap string FunctionInfo * list (string * string)) :=
  let '(infos, ParamsToMerge) := st in
  match infos !! e.1 with
  | None => Ret (<[e.1 := e.2]> infos, ParamsToMerge)
  | Some i =>
      cpp_assert (bool_decide (length (Parameters_ i) = length (Parameters_ e.2))) ;;
      cpp_assert (bool_decide (IsVariadic i = IsVariadic e.2)) ;;
      cpp_assert (bool_decide (MangledNames i = MangledNames e.2)) ;;
      let ParamsToMerge := ParamsToMerge ++
        filter (λ p, p.1 ≠ p.2) (zip (Parameters_ i) (Parameters_ e.2)) in
      if decide (ReferencedInReturnStmts i = []) then
        Ret (<[e.1 := mkFunctionInfo (MangledNames i) (Parameters_ i)
               (ReferencedInReturnStmts e.2) (IsVariadic i)]> infos, ParamsToMerge)
      else Ret (infos, ParamsToMerge)
  end.

Definition emplace_objects (fm : gmap string nat) (i : nat) (objects : list string) : gmap string nat :=
  foldl (λ fm o, map_emplace fm o i) fm objects.

(** Case 1: a new class. *)
Definition copy_class (D : EquivClassContainer) (Equiv : EquivClass) : EquivClassContainer :=
  with_classes D (list_push_front (EquivClasses D) Equiv)
    (emplace_objects (FindMap D) (next_cell (EquivClasses D)) (Objects Equiv)).

(** Case 2: the prefixes, and with [objects] also the objects, are added to the
    class at [i]. *)
Definition extend_class (D : EquivClassContainer) (i : nat) (objects : option (list string))
    (prefixes : list Prefix) (ObjectsToMerge : list (string * string))
    : outcome (EquivClassContainer * list (string * string)) :=
  C ← list_get (EquivClasses D) i;
  let os := match objects with Some l => sort_unique_Objects (Objects C ++ l) | None => Objects C end in
  let '(ps, ObjectsToMerge) := GetPrefixesToMerge (Prefixes C) prefixes ObjectsToMerge in
  Ret (with_classes D (list_set (EquivClasses D) i (mkEquivClass os (sort_unique_Prefixes ps)))
         (match objects with Some l => emplace_objects (FindMap D) i l | None => FindMap D end),
       ObjectsToMerge).

(** The loop over the objects from the second on: [ItFirstInner] is set as soon
    as one is known. *)
Definition join_object (st : (EquivClassContainer * list (string * string)) * option nat) (o : string)
    : outcome ((EquivClassContainer * list (string * string)) * option nat) :=
  let '((D, ObjectsToMerge), ItFirstInner) := st in
  match ItFirstInner with
  | None => Ret ((D, ObjectsToMerge), FindMap D !! o)
  | Some i =>
      match FindMap D !! o with
      | None => Ret st
      | Some j =>
          if decide (j ≠ i) then
            r ← AliasClasses.merge D i j;
            k ← entry_class r.1 r.2.1;
            Ret ((r.1, ObjectsToMerge ++ r.2.2), Some k)
          else Ret st
      end
  end.

Definition merge_class (st : EquivClassContainer * list (string * string)) (Equiv : EquivClass)
    : outcome (EquivClassContainer * list (string * string)) :=
  let '(D, ObjectsToMerge) := st in
  o ← deref (head (Objects Equiv));
  if decide (length (Objects Equiv) = 1) then
    match FindMap D !! o with
    | Some i => extend_class D i None (Prefixes Equiv) ObjectsToMerge
    | None => Ret (copy_class D Equiv, ObjectsToMerge)
    end
  else
    r ← foldM join_object ((D, ObjectsToMerge), FindMap D !! o) (tail (Objects Equiv));
    match r.2 with
    | None => Ret (copy_class r.1.1 Equiv, r.1.2)
    | Some i => extend_class r.1.1 i (Some (Objects Equiv)) (Prefixes Equiv) r.1.2
    end.

(** A pair of objects; an object without a class is not noticed. *)
Definition merge_entries (fuel : nat) (st : EquivClassContainer * list (string * string)) (a b : string)
    : outcome (EquivClassContainer * list (string * string)) :=
  i ← entry_class st.1 a;
  j ← entry_class st.1 b;
  if decide (i ≠ j) then
    r ← mergeRecurisve fuel st.1 i j;
    Ret (r.1, st.2 ++ r.2.1)
  else Ret st.

Section merge_json.
Context {JO : JsonOps}.

(** The calls found while the prefixes' objects are merged are dropped: all
    classes are looked at again below. *)
Definition merge_containers (fuel : nat) (File1Data File2Data : EquivClassContainer)
    : outcome (EquivClassContainer * list (string * string)) :=
  let D := with_FunctionMap File1Data (map_emplace_all (FunctionMap File1Data) (FunctionMap File2Data)) in
  r ← foldM merge_function_info (FunctionInfoMap D, []) (ordered_iter (FunctionInfoMap File2Data));
  let D := with_FunctionInfoMap D r.1 in
  let D := with_CallInfoMap D (map_emplace_all (CallInfoMap D) (CallInfoMap File2Data)) in
  let D := InitReferencedInCalls D in
  let D := with_CallExprParentMap D
             (map_emplace_all (CallExprParentMap D) (CallExprParentMap File2Data)) in
  st ← foldM merge_class (D, []) (list_elems (EquivClasses File2Data));
  st1 ← foldM (λ st p, merge_entries fuel st p.1 p.2) (st.1, []) st.2;
  st2 ← foldM (λ st p, merge_entries fuel st p.1 p.2) (st1.1, []) r.2;
  Ret (st2.1, foldl (λ l E, GetFunctionsToMerge st2.1 l E) st2.2 (list_elems (EquivClasses st2.1))).

Definition mergeEquivalenceClasses (fuel : nat) (File1Data : EquivClassContainer) (File2 wholeCG : json)
    : outcome (EquivClassContainer * json) :=
  File2Data ← container_fromJson File2;
  r ← merge_containers fuel File1Data File2Data;
  foldM (λ st p, mergeFunctionCall_json fuel st p.1 p.2) (r.1, wholeCG) r.2.
End merge_json.

(** ** Reading back what was written *)

Section roundtrip.
Context {JO : JsonOps} {JL : JsonLaws}.

Lemma get_at_fields {A} (f : json → outcome A) l k j a :
  (list_to_map l : gmap string json) !! k = Some j → f j ⇓ a → get_at f (jfields l) k ⇓ a.
Proof. intros Hk Hf. unfold get_at, jfields. by rewrite (jat_obj _ _ _ Hk), bind_ret. Qed.

Lemma jget_list_arr {A} (f : json → outcome A) (g : A → json) l :
  (∀ a, f (g a) ⇓ a) → jget_list f (jarr (g <$> l)) ⇓ l.
Proof.
  intros Hf. unfold jget_list. rewrite jview_jmk. induction l as [|a l IH]; [done|].
  rewrite fmap_cons. change (mapM f (g a :: (g <$> l))) with (y ← f (g a); k ← mapM f (g <$> l); mret (y :: k)).
  by rewrite Hf, bind_ret, IH.
Qed.

Lemma jget_map_of {A} (f : json → outcome A) (g : A → json) (m : gmap string A) :
  (∀ a, f (g a) ⇓ a) → jget_map f (jof_map g m) ⇓ m.
Proof.
  intros Hf. unfold jget_map, jof_map. rewrite jview_jmk.
  destruct (foldM_ind (λ dn r, ∀ k, r !! k = (list_to_map (reverse dn) : gmap string json) !! k ≫= λ j, m !! k)
    (λ r e, v ← f e.2; Ret (<[e.1 := v]> r)) (ordered_iter (g <$> m)) (∅ : gmap string A)) as (r & Hr & Hm).
  - intros k. by rewrite lookup_empty.
  - intros dn [k j] rest r Hl IH. assert ((g <$> m) !! k = Some j) as Hk.
    { apply elem_of_ordered_iter. rewrite Hl. set_solver. }
    rewrite lookup_fmap in Hk. apply fmap_Some in Hk as (a & Ha & ->). simpl. rewrite Hf. simpl.
    eexists. split; [done|]. intros k'. rewrite reverse_app. simpl. destruct (decide (k' = k)) as [->|Hne].
    + by rewrite !lookup_insert_eq.
    + by rewrite !lookup_insert_ne.
  - rewrite Hr. f_equal. apply map_eq. intros k. rewrite Hm.
    destruct (m !! k) as [a|] eqn:Ek; [|by destruct (list_to_map _ !! k)].
    destruct (list_to_map (reverse (ordered_iter (g <$> m))) !! k) eqn:E; [done|].
    apply not_elem_of_list_to_map_2 in E. destruct E. rewrite fmap_reverse, elem_of_reverse.
    apply list_elem_of_fmap. exists (k, g a). split; [done|]. apply elem_of_ordered_iter. by rewrite lookup_fmap, Ek.
Qed.

(** Reads all fields of a fixed object. *)
Create HintDb fields.
#[local] Hint Resolve jget_strings_arr jget_string_str jget_bool_bool jget_list_arr jget_map_of : fields.
Ltac read_fields :=
  repeat (erewrite get_at_fields; [|reflexivity|cbn [snd]; unfold jof_strings; eauto with fields]).

Lemma FunctionInfo_roundtrip i : FunctionInfo_fromJson (FunctionInfo_toJson i) ⇓ i.
Proof. destruct i. unfold FunctionInfo_fromJson, FunctionInfo_toJson. by read_fields. Qed.
Lemma CallInfo_roundtrip i : CallInfo_fromJson (CallInfo_toJson i) ⇓ i.
Proof. destruct i. unfold CallInfo_fromJson, CallInfo_toJson. by read_fields. Qed.
Lemma Prefix_roundtrip p : Prefix_fromJson (Prefix_toJson p) ⇓ p.
Proof. destruct p. unfold Prefix_fromJson, Prefix_toJson. by read_fields. Qed.
#[local] Hint Resolve FunctionInfo_roundtrip CallInfo_roundtrip Prefix_roundtrip : fields.
Lemma EquivClass_roundtrip E : EquivClass_fromJson (EquivClass_toJson E) ⇓ E.
Proof. destruct E. unfold EquivClass_fromJson, EquivClass_toJson. by read_fields. Qed.
#[local] Hint Resolve EquivClass_roundtrip : fields.

(** The container with the same classes in the same order and the same maps. *)
Definition reread (D : EquivClassContainer) : EquivClassContainer :=
  let classes := list_elems (EquivClasses D) in
  InitReferencedInCalls
    (mkEquivClassContainer (list_of classes) (FunctionMap D) (FunctionInfoMap D) (CallInfoMap D)
       (find_map_of classes) (CallExprParentMap D) ∅).

Lemma container_fromJson_toJson D : container_fromJson (container_toJson D) ⇓ reread D.
Proof. unfold container_fromJson, container_toJson. by read_fields. Qed.
End roundtrip.
