(* ===== verification/AliasMergeProps.v ===== *)
(** * Merging the classes of two translation units

    What [mergeEquivalenceClasses] does to the classes: those of the second
    translation unit are added one by one, without recursion, so that prefixes
    lead to objects that are not known yet and pairs of objects wait for being
    merged; when all classes are there, the pairs are merged recursively. *)

From S2P Require Import Prelude Json Collector CollectorProps AliasNames AliasClasses AliasWf.
From S2P Require Import AliasClosure AliasRecursion AliasMerge.

(** ** Lists *)

Lemma elem_of_unique {A} `{EqDecision A} (l : list A) x : x ∈ unique l ↔ x ∈ l.
Proof.
  induction l as [|y l IH]; [done|]. destruct l as [|z l]; [done|].
  change (unique (y :: z :: l)) with (if decide (y = z) then unique (z :: l) else y :: unique (z :: l)).
  case_decide as Hyz; [subst y; rewrite IH; set_solver|]. rewrite !elem_of_cons, IH, elem_of_cons. done.
Qed.
Lemma elem_of_sort_unique_Objects l o : o ∈ sort_unique_Objects l ↔ o ∈ l.
Proof. unfold sort_unique_Objects. by rewrite elem_of_unique, merge_sort_Permutation. Qed.
Lemma elem_of_sort_unique_Prefixes l p : p ∈ sort_unique_Prefixes l ↔ p ∈ l.
Proof. unfold sort_unique_Prefixes. by rewrite elem_of_unique, merge_sort_Permutation. Qed.

Lemma GetPrefixesToMerge_acc Ps ps X :
  GetPrefixesToMerge Ps ps X =
    ((GetPrefixesToMerge Ps ps []).1, X ++ (GetPrefixesToMerge Ps ps []).2).
Proof.
  unfold GetPrefixesToMerge.
  assert (∀ Q Y Z, foldl GetPrefixesToMerge_step (Q, Y ++ Z) ps =
    ((foldl GetPrefixesToMerge_step (Q, Z) ps).1, Y ++ (foldl GetPrefixesToMerge_step (Q, Z) ps).2)) as Hgen.
  { induction ps as [|p ps IH]; intros Q Y Z; [done|]. cbn [foldl]. unfold GetPrefixesToMerge_step at 2 4 6.
    cbn [fst snd]. destruct (list_find _ Q) as [[n O1]|]; [rewrite <- app_assoc|]; apply IH. }
  specialize (Hgen Ps X []). by rewrite app_nil_r in Hgen.
Qed.

Lemma emplace_objects_lookup fm i l o :
  (∀ o j, o ∈ l → fm !! o = Some j → j = i) →
  emplace_objects fm i l !! o = if decide (o ∈ l) then Some i else fm !! o.
Proof.
  unfold emplace_objects. revert fm. induction l as [|x l IH]; intros fm Hl; [done|]. cbn [foldl].
  assert (∀ o, map_emplace fm x i !! o = if decide (o = x) then Some i else fm !! o) as He.
  { intros y. unfold map_emplace. destruct (fm !! x) as [j|] eqn:Ex.
    - destruct (decide (y = x)) as [->|]; [|done]. rewrite Ex. f_equal. eapply Hl; [left|done].
    - destruct (decide (y = x)) as [->|]; [apply lookup_insert_eq|by apply lookup_insert_ne]. }
  rewrite IH, He.
  - destruct (decide (o ∈ l)), (decide (o = x)), (decide (o ∈ x :: l)); set_solver.
  - intros y j Hy. rewrite He. destruct (decide (y = x)); [intros [=]; congruence|]. apply Hl. by right.
Qed.

(** ** Adding objects and prefixes to a class

    [C] is the class before, empty if it is a new one. *)

Record extends (D D' : EquivClassContainer) (i : nat) (C C' : EquivClass) (os : list string) : Prop := {
  ex_wf : classes_wf D';
  ex_static : static D D';
  ex_old : cells_of D !! i = Some C ∨ (cells_of D !! i = None ∧ C = mkEquivClass [] []);
  ex_class : cells_of D' !! i = Some C';
  ex_other : ∀ j, j ≠ i → cells_of D' !! j = cells_of D !! j;
  ex_objects : ∀ o, o ∈ Objects C' ↔ o ∈ Objects C ∨ o ∈ os;
  ex_find : ∀ o, FindMap D' !! o = if decide (o ∈ os) then Some i else FindMap D !! o;
  ex_found : ∀ o j, o ∈ os → FindMap D !! o = Some j → j = i;
  ex_size : num_classes D' ≤ S (num_classes D)
}.

Section extends.
Context (D D' : EquivClassContainer) (i : nat) (C C' : EquivClass) (os : list string).
Hypothesis HE : extends D D' i C C' os.

Lemma extends_known o : known D' o ↔ known D o ∨ o ∈ os.
Proof.
  unfold known. rewrite (ex_find _ _ _ _ _ _ HE). case_decide; [|naive_solver].
  split; [by right|]. by intros _.
Qed.

Lemma extends_find_mono o j : FindMap D !! o = Some j → FindMap D' !! o = Some j.
Proof.
  intros Hj. rewrite (ex_find _ _ _ _ _ _ HE). case_decide as Ho; [|done].
  f_equal. symmetry. by eapply (ex_found _ _ _ _ _ _ HE).
Qed.

Lemma extends_mono a b : same D a b → same D' a b.
Proof. intros (j & Ha & Hb). exists j. split; by apply extends_find_mono. Qed.

Lemma extends_joins a b : a ∈ os → b ∈ os → same D' a b.
Proof. intros Ha Hb. exists i. by rewrite !(ex_find _ _ _ _ _ _ HE), !decide_True. Qed.

Lemma extends_same a b : same D' a b → same D a b ∨ (a ∈ Objects C' ∧ b ∈ Objects C').
Proof.
  intros (j & Ha & Hb). destruct (decide (j = i)) as [->|Hj].
  - right. pose proof (ex_wf _ _ _ _ _ _ HE) as Hwf.
    destruct (wf_class _ _ _ Hwf Ha) as (C1 & H1 & ?), (wf_class _ _ _ Hwf Hb) as (C2 & H2 & ?).
    rewrite (ex_class _ _ _ _ _ _ HE) in H1, H2. by simplify_eq.
  - left. exists j. rewrite (ex_find _ _ _ _ _ _ HE) in Ha, Hb.
    destruct (decide (a ∈ os)); [congruence|]. destruct (decide (b ∈ os)); [congruence|]. done.
Qed.
End extends.

(** What becomes of the prefixes. *)
Record prefixes_added (D' : EquivClassContainer) (X' : list (string * string)) (Ps ps Q : list Prefix)
    : Prop := {
  pa_left : ∀ q, q ∈ Ps → q ∈ Q;
  pa_from : ∀ q, q ∈ Q → q ∈ Ps ∨ q ∈ ps;
  pa_right : ∀ P, P ∈ ps → ∃ q, q ∈ Q ∧ pf_Member q = pf_Member P ∧
    linked D' X' (pf_Object q) (pf_Object P);
  pa_uniq : ∀ p q, p ∈ Q → q ∈ Q → pf_Member p = pf_Member q → linked D' X' (pf_Object p) (pf_Object q)
}.

Definition add_pre (pre : string → Prefix → Prop) (os : list string) (ps : list Prefix) (o : string)
    (p : Prefix) : Prop := pre o p ∨ (o ∈ os ∧ p ∈ ps).

Section extend_core.
Context (pre : string → Prefix → Prop) (Cg : relation string).
Context (D D' : EquivClassContainer) (i : nat) (C C' : EquivClass) (os : list string) (ps : list Prefix).
Context (X X' : list (string * string)).
Hypothesis HCg : congruence (add_pre pre os ps) Cg.
Hypothesis HI : cong_core pre Cg X D.
Hypothesis HE : extends D D' i C C' os.
Hypothesis Hpre : ∀ o p, pre o p → known D o.
Hypothesis Hos : ∀ a b, a ∈ os → b ∈ os → Cg a b.
Hypothesis Hne : os ≠ [].
Hypothesis Hmeet : C = mkEquivClass [] [] ∨ ∃ o, o ∈ os ∧ o ∈ Objects C.

Lemma extend_related a b : a ∈ Objects C' → b ∈ Objects C' → Cg a b.
Proof.
  pose proof (cg_equivalence _ _ HCg) as Heq. rewrite !(ex_objects _ _ _ _ _ _ HE).
  assert (∀ a b, a ∈ Objects C → b ∈ Objects C → Cg a b) as HC.
  { intros x y Hx Hy. apply (cc_sound _ _ _ _ HI). exists i.
    destruct (ex_old _ _ _ _ _ _ HE) as [Hi|[_ ->]]; [|by apply elem_of_nil in Hx].
    split; by eapply wf_object; [apply HI|..]. }
  assert (∀ x y, x ∈ Objects C → y ∈ os → Cg x y) as Hx.
  { intros x y Hx Hy. destruct Hmeet as [->|(o & Ho & HoC)]; [by apply elem_of_nil in Hx|].
    transitivity o; auto. }
  intros [Ha|Ha] [Hb|Hb]; auto. symmetry. auto.
Qed.

(** Every prefix of the class belongs to one of its objects. *)
Lemma extend_owner q : q ∈ Prefixes C ∨ q ∈ ps → ∃ o, o ∈ Objects C' ∧ add_pre pre os ps o q.
Proof.
  intros [Hq|Hq].
  - destruct (ex_old _ _ _ _ _ _ HE) as [Hi|[_ ->]]; [|by apply elem_of_nil in Hq].
    destruct (cc_from _ _ _ _ HI i C q Hi Hq) as (o & Ho & Hp). exists o.
    rewrite (ex_objects _ _ _ _ _ _ HE). split; [by left|by left].
  - destruct os as [|o os'] eqn:Eo; [done|]. exists o. rewrite (ex_objects _ _ _ _ _ _ HE), ?Eo.
    split; [right; left|right; split; [left|done]].
Qed.

Lemma extend_pair P q :
  P ∈ ps → q ∈ Prefixes C ∨ q ∈ ps → pf_Member P = pf_Member q → Cg (pf_Object P) (pf_Object q).
Proof.
  intros HP Hq Hm. destruct (extend_owner P) as (o & Ho & Hop); [by right|].
  destruct (extend_owner q) as (o' & Ho' & Hoq); [done|].
  eapply (cg_prefix _ _ HCg o o'); [by apply extend_related|done..].
Qed.

Hypothesis HX : ∀ p, p ∈ X → p ∈ X'.
Hypothesis HX' : ∀ a b, (a, b) ∈ X' → Cg a b.
Hypothesis HQ : prefixes_added D' X' (Prefixes C) ps (Prefixes C').

Lemma extend_linked x y : linked D X x y → linked D' X' x y.
Proof. apply linked_mono; [intros ??; by eapply extends_mono|done]. Qed.

Lemma extend_core : cong_core (add_pre pre os ps) Cg X' D'.
Proof.
  split.
  - apply HE.
  - intros o p j Hp Hj. destruct Hp as [Hp|[Ho Hp]].
    + destruct (Hpre o p Hp) as [k Hk]. rewrite (extends_find_mono D D' i C C' os HE o k Hk) in Hj.
      injection Hj as <-. destruct (cc_own _ _ _ _ HI o p k Hp Hk) as (B & q & HB & Hq & Hm & Hl).
      destruct (decide (k = i)) as [->|Hki].
      * exists C', q. split_and!; [apply HE| |done|by apply extend_linked].
        apply HQ. destruct (ex_old _ _ _ _ _ _ HE) as [?|[? _]]; congruence.
      * exists B, q. rewrite (ex_other _ _ _ _ _ _ HE) by done. split_and!; [done..|by apply extend_linked].
    + rewrite (ex_find _ _ _ _ _ _ HE), decide_True in Hj by done. injection Hj as <-.
      destruct (pa_right _ _ _ _ _ HQ p Hp) as (q & ? & ? & ?). exists C', q. split_and!; [apply HE|done..].
  - intros j B p q HB Hp Hq Hm. destruct (decide (j = i)) as [->|Hj].
    + rewrite (ex_class _ _ _ _ _ _ HE) in HB. injection HB as <-. by apply HQ.
    + rewrite (ex_other _ _ _ _ _ _ HE) in HB by done. apply extend_linked. by eapply (cc_uniq _ _ _ _ HI).
  - intros j B q HB Hq. destruct (decide (j = i)) as [->|Hj].
    + rewrite (ex_class _ _ _ _ _ _ HE) in HB. injection HB as <-. by apply extend_owner, HQ.
    + rewrite (ex_other _ _ _ _ _ _ HE) in HB by done.
      destruct (cc_from _ _ _ _ HI j B q HB Hq) as (o & ? & ?). exists o. split; [done|by left].
  - intros a b [Hab|[Ha Hb]]%(extends_same D D' i C C' os HE); [by apply (cc_sound _ _ _ _ HI)|].
    by apply extend_related.
  - done.
Qed.
End extend_core.

(** ** The two ways to add a class *)

Lemma copy_extends D E :
  classes_wf D → Objects E ≠ [] → (∀ o, o ∈ Objects E → FindMap D !! o = None) →
  extends D (copy_class D E) (next_cell (EquivClasses D)) (mkEquivClass [] []) E (Objects E).
Proof.
  intros Hwf Hne Hnew. set (n := next_cell (EquivClasses D)).
  assert (cells_of D !! n = None) as Hn.
  { apply eq_None_not_Some. intros ?%(cw_next _ Hwf). unfold n in *. lia. }
  assert (∀ o, FindMap (copy_class D E) !! o = if decide (o ∈ Objects E) then Some n else FindMap D !! o) as Hf.
  { intros o. simpl. apply emplace_objects_lookup. intros y j Hy. by rewrite Hnew. }
  assert (cells_of (copy_class D E) = <[n := E]> (cells_of D)) as Hc by done.
  split; try done; try apply static_classes.
  - split.
    + intros j. rewrite Hc. simpl. rewrite elem_of_cons, (cw_order _ Hwf), lookup_insert_is_Some.
      split.
      * intros [->|Hj]; [by left|]. destruct (decide (n = j)); [by left|by right].
      * intros [<-|[_ Hj]]; [by left|by right].
    + simpl. constructor; [|apply Hwf]. intros Hin%(cw_order _ Hwf). fold n in Hin. rewrite Hn in Hin. by destruct Hin.
    + intros j. rewrite Hc, lookup_insert_is_Some. simpl. intros [<-|[_ Hj]]; [lia|].
      pose proof (cw_next _ Hwf j Hj). lia.
    + intros j B. rewrite Hc, lookup_insert_Some. intros [[_ <-]|[_ ?]]; [done|by apply (cw_nonempty _ Hwf j)].
    + intros o j. rewrite Hf, Hc. setoid_rewrite lookup_insert_Some. destruct (decide (o ∈ Objects E)) as [Ho|Ho].
      * split; [intros [= <-]; exists E; auto|]. intros (B & [[-> <-]|[? HB]] & HoB); [done|].
        apply (wf_object _ _ _ _ Hwf HB) in HoB. by rewrite Hnew in HoB.
      * rewrite (cw_find _ Hwf). split; [|naive_solver]. intros (B & HB & HoB). exists B. split; [|done].
        right. split; [|done]. intros <-. by rewrite Hn in HB.
  - right. done.
  - apply lookup_insert_eq.
  - intros j Hj. rewrite Hc. by apply lookup_insert_ne.
  - intros o. simpl. rewrite elem_of_nil. tauto.
  - intros o j Ho. by rewrite Hnew.
  - unfold num_classes. rewrite Hc, map_size_insert_None by done. done.
Qed.

(** The class [C'] in place of [C]. *)
Lemma set_extends D i C C' os fm :
  classes_wf D → cells_of D !! i = Some C →
  (∀ o, o ∈ Objects C' ↔ o ∈ Objects C ∨ o ∈ os) →
  (∀ o j, o ∈ os → FindMap D !! o = Some j → j = i) →
  (∀ o, fm !! o = if decide (o ∈ os) then Some i else FindMap D !! o) →
  extends D (with_classes D (list_set (EquivClasses D) i C') fm) i C C' os.
Proof.
  intros Hwf Hi Hobj Hfound Hfm. set (D' := with_classes _ _ _).
  assert (cells_of D' = <[i := C']> (cells_of D)) as Hc by done.
  assert (∀ j, is_Some (cells_of D' !! j) ↔ is_Some (cells_of D !! j)) as Hs.
  { intros j. rewrite Hc, lookup_insert_is_Some. destruct (decide (i = j)) as [<-|]; [|naive_solver].
    split; [by exists C|by left]. }
  split; try done; try apply static_classes.
  - split.
    + intros j. rewrite Hs. apply Hwf.
    + apply Hwf.
    + intros j. rewrite Hs. apply Hwf.
    + intros j B. rewrite Hc, lookup_insert_Some. intros [[_ <-]|[_ ?]]; [|by apply (cw_nonempty _ Hwf j)].
      destruct (Objects C) as [|o l] eqn:Eo; [by destruct (cw_nonempty _ Hwf i C Hi)|].
      assert (o ∈ Objects C') as Ho by (apply Hobj; left; left). intros HC. rewrite HC in Ho.
      by apply elem_of_nil in Ho.
    + intros o j. change (FindMap D') with fm. rewrite Hfm, Hc. setoid_rewrite lookup_insert_Some.
      destruct (decide (o ∈ os)) as [Ho|Ho].
      * split; [intros [= <-]; exists C'; rewrite Hobj; auto|]. intros (B & [[-> <-]|[? HB]] & HoB); [done|].
        f_equal. symmetry. apply (Hfound o); [done|]. by eapply wf_object.
      * rewrite (cw_find _ Hwf). split; intros (B & HB & HoB).
        -- destruct (decide (i = j)) as [<-|Hj]; [|exists B; auto]. exists C'. split; [auto|].
           rewrite Hobj. left. assert (B = C) as -> by congruence. done.
        -- destruct HB as [[<- <-]|[_ HB]]; [|by exists B]. exists C. split; [done|].
           apply Hobj in HoB as [?|?]; done.
  - by left.
  - apply lookup_insert_eq.
  - intros j Hj. rewrite Hc. by apply lookup_insert_ne.
  - unfold num_classes. rewrite Hc, map_size_insert_Some by by exists C. lia.
Qed.

(** ** One class after the other *)

Lemma congruence_sub (pre pre' : string → Prefix → Prop) Cg :
  (∀ o p, pre o p → pre' o p) → congruence pre' Cg → congruence pre Cg.
Proof. intros Hp [H1 H2]. split; [done|]. intros o o' p p' ????. by eapply (H2 o o'); [|apply Hp..|]. Qed.

(** The prefixes of the objects when the classes [dn] have been added. *)
Definition pre_of (D : EquivClassContainer) (dn : list EquivClass) : string → Prefix → Prop :=
  foldl (λ pre E, add_pre pre (Objects E) (Prefixes E)) (prefix_of D) dn.

Lemma pre_of_spec D dn o p :
  pre_of D dn o p ↔ prefix_of D o p ∨ ∃ E, E ∈ dn ∧ o ∈ Objects E ∧ p ∈ Prefixes E.
Proof.
  unfold pre_of. generalize (prefix_of D). induction dn as [|E dn IH]; intros pre; simpl.
  - split; [by left|]. intros [?|(E & HE & _)]; [done|]. by apply elem_of_nil in HE.
  - rewrite IH. unfold add_pre. setoid_rewrite elem_of_cons. naive_solver.
Qed.

Lemma pre_of_snoc D dn E : pre_of D (dn ++ [E]) = add_pre (pre_of D dn) (Objects E) (Prefixes E).
Proof. unfold pre_of. by rewrite foldl_app. Qed.

(** Both are objects that prefixes lead to. *)
Definition owned (pre : string → Prefix → Prop) (a b : string) : Prop :=
  ∃ o p o' q, pre o p ∧ pre o' q ∧ a = pf_Object p ∧ b = pf_Object q.

Section join.
Context (pre : string → Prefix → Prop) (Cg : relation string) (G : list (string * string)).
Context (D1 : EquivClassContainer) (os : list string).
Hypothesis HCg : congruence pre Cg.
Hypothesis Hos : ∀ a b, a ∈ os → b ∈ os → Cg a b.

(** The objects [dn] of a class have been looked at: those that are known are
    in the class at [F]. *)
Record joining (dn : list string) (D : EquivClassContainer) (X : list (string * string))
    (F : option nat) : Prop := {
  jn_core : cong_core pre Cg (X ++ G) D;
  jn_static : static D1 D;
  jn_known : ∀ o, known D o ↔ known D1 o;
  jn_mono : ∀ a b, same D1 a b → same D a b;
  jn_num : num_classes D ≤ num_classes D1;
  jn_pending : ∀ a b, (a, b) ∈ X → owned pre a b;
  jn_class : ∀ o j, o ∈ dn → FindMap D !! o = Some j → F = Some j;
  jn_some : ∀ j, F = Some j → ∃ o, o ∈ dn ∧ FindMap D !! o = Some j
}.

(** Nothing to merge for this object. *)
Lemma joining_more dn D X F F' o :
  joining dn D X F → (∀ j, F = Some j → F' = Some j) → (∀ j, FindMap D !! o = Some j → F' = Some j) →
  (∀ j, F' = Some j → F = Some j ∨ FindMap D !! o = Some j) → joining (dn ++ [o]) D X F'.
Proof.
  intros [H1 H2 H3 H4 H5 H6 H7 H8] HF Ho HF'. split; try done.
  - intros x j [Hx|Hx%list_elem_of_singleton]%elem_of_app; [intros ?; eapply HF, H7; done|subst x; apply Ho].
  - intros j [Hj|Hj]%HF'; [destruct (H8 j Hj) as (x & ? & ?); exists x|exists o]; set_solver.
Qed.

Lemma join_object_ok dn D X F o :
  joining dn D X F → (∀ x, x ∈ dn → x ∈ os) → o ∈ os →
  ∃ D' X' F', join_object ((D, X), F) o ⇓ ((D', X'), F') ∧ joining (dn ++ [o]) D' X' F'.
Proof.
  intros HJ Hdn Ho. unfold join_object. destruct F as [i|].
  2: { exists D, X, (FindMap D !! o). split; [done|]. by apply (joining_more dn D X None); [..|right]. }
  destruct (FindMap D !! o) as [j|] eqn:Ej.
  2: { exists D, X, (Some i). split; [done|]. apply (joining_more dn D X (Some i)); auto. by rewrite Ej. }
  destruct (decide (j ≠ i)) as [Hij|Hij].
  2: { exists D, X, (Some i). split; [done|]. assert (j = i) as -> by lia.
       apply (joining_more dn D X (Some i)); auto. by rewrite Ej. }
  destruct HJ as [H1 H2 H3 H4 H5 H6 H7 H8]. pose proof (cc_wf _ _ _ _ H1) as Hwf.
  destruct (H8 i eq_refl) as (x & Hx & Hi).
  destruct (wf_class _ _ _ Hwf Hi) as (C1 & HC1 & Hx1), (wf_class _ _ _ Hwf Ej) as (C2 & HC2 & Ho2).
  assert (i ≠ j) as Hne by done.
  destruct (merge_classes_ret D i j C1 C2 Hwf Hne HC1 HC2) as (Q & otm & front & -> & HQ & Hfront). simpl.
  assert (∀ y, FindMap (merged D i j C1 C2 Q) !! y =
    if decide (y ∈ Objects C1 ++ Objects C2) then Some (next_cell (EquivClasses D)) else FindMap D !! y) as Hf
    by (intros y; by apply merged_find).
  unfold entry_class.
  rewrite Hf, decide_True by set_solver. simpl.
  assert (∀ a b, a ∈ Objects C1 → b ∈ Objects C2 → Cg a b) as Hrel.
  { intros a b Ha Hb. pose proof (cg_equivalence _ _ HCg). transitivity x; [|transitivity o; [by apply Hos; auto|]].
    - apply (cc_sound _ _ _ _ H1). exists i. split; by eapply wf_object.
    - apply (cc_sound _ _ _ _ H1). exists j. split; by eapply wf_object. }
  pose proof (merged_core _ _ _ D i j C1 C2 Q otm HCg H1 Hne HC1 HC2 HQ Hrel) as Hcore.
  eexists _, _, _. split; [done|]. split.
  - eapply cong_core_weaken; [exact Hcore|set_solver|].
    intros a b Hab. apply (cc_sound_pending _ _ _ _ Hcore). set_solver.
  - transitivity D; [done|apply merged_static].
  - intros y. rewrite merged_known by done. apply H3.
  - intros a b Hab. apply merged_mono; auto.
  - pose proof (merged_num D i j C1 C2 Hwf Hne HC1 HC2 Q). lia.
  - intros a b [Hab|Hab]%elem_of_app; [by apply H6|].
    destruct (merged_pair _ _ _ D i j C1 C2 Q otm HCg H1 Hne HC1 HC2 HQ Hrel a b Hab)
      as (_ & P & q & -> & -> & [y Hy] & [y' Hy']). by exists y, P, y', q.
  - intros y k Hy. rewrite Hf. case_decide as Hin; [by intros [= <-]|]. intros Hk. exfalso. apply Hin.
    apply elem_of_app in Hy as [Hy|Hy%list_elem_of_singleton].
    + pose proof (H7 y k Hy Hk) as [= <-].
      destruct (wf_class _ _ _ Hwf Hk) as (B & HB & ?). apply elem_of_app. left. by simplify_eq.
    + subst y. by apply elem_of_app; right.
  - intros k [= <-]. exists o. split; [set_solver|]. by rewrite Hf, decide_True by set_solver.
Qed.

Lemma join_objects_ok rest dn D X F :
  joining dn D X F → (∀ x, x ∈ dn ++ rest → x ∈ os) →
  ∃ D' X' F', foldM join_object ((D, X), F) rest ⇓ ((D', X'), F') ∧ joining (dn ++ rest) D' X' F'.
Proof.
  revert dn D X F. induction rest as [|o rest IH]; intros dn D X F HJ Hin; cbn [foldM].
  { exists D, X, F. by rewrite app_nil_r. }
  destruct (join_object_ok dn D X F o HJ) as (D2 & X2 & F2 & -> & HJ2); [set_solver..|].
  rewrite bind_ret.
  destruct (IH (dn ++ [o]) D2 X2 F2 HJ2) as (D3 & X3 & F3 & -> & HJ3); [set_solver|].
  exists D3, X3, F3. split; [done|]. by rewrite <- app_assoc in HJ3.
Qed.
End join.

Section classes.
Context (Cg : relation string) (G : list (string * string)).
Context (D0 : EquivClassContainer) (all : list EquivClass).
Hypothesis HCg : congruence (pre_of D0 all) Cg.
Hypothesis HG : ∀ a b, (a, b) ∈ G → Cg a b.
Hypothesis Hobjects : ∀ E a b, E ∈ all → a ∈ Objects E → b ∈ Objects E → (a, b) ∈ G.
Hypothesis Hprefixes : ∀ E p q, E ∈ all → p ∈ Prefixes E → q ∈ Prefixes E →
  pf_Member p = pf_Member q → (pf_Object p, pf_Object q) ∈ G.
Hypothesis Hnonempty : ∀ E, E ∈ all → Objects E ≠ [].

(** The classes [dn] have been added to [D0], the pairs [X] are to be merged. *)
Record joined (dn : list EquivClass) (D : EquivClassContainer) (X : list (string * string)) : Prop := {
  jd_core : cong_core (pre_of D0 dn) Cg (X ++ G) D;
  jd_static : static D0 D;
  jd_known : ∀ o, known D o ↔ known D0 o ∨ ∃ E, E ∈ dn ∧ o ∈ Objects E;
  jd_mono : ∀ a b, same D0 a b → same D a b;
  jd_done : ∀ E a b, E ∈ dn → a ∈ Objects E → b ∈ Objects E → same D a b;
  jd_num : num_classes D ≤ num_classes D0 + length dn;
  jd_pending : ∀ a b, (a, b) ∈ X → owned (pre_of D0 dn) a b
}.

Lemma pre_of_known dn D X o p : joined dn D X → pre_of D0 dn o p → known D o.
Proof.
  intros HJ Hp%pre_of_spec. apply (jd_known _ _ _ HJ).
  destruct Hp as [(i & C & Hi & _)|(E & HE & Ho & _)]; [left; by exists i|right; by exists E].
Qed.

Lemma joined_joining dn D X o :
  joined dn D X → joining (pre_of D0 dn) Cg G D [o] D X (FindMap D !! o).
Proof.
  intros [H1 H2 H3 H4 H5 H6 H7]. split; try done.
  - intros x j ->%list_elem_of_singleton. done.
  - intros j Hj. exists o. split; [left|done].
Qed.

Lemma joined_extend dn D1 X1 E D X F D' X' i C C' :
  (∀ B, B ∈ dn ++ [E] → B ∈ all) → joined dn D1 X1 → joining (pre_of D0 dn) Cg G D1 (Objects E) D X F →
  extends D D' i C C' (Objects E) →
  (C = mkEquivClass [] [] ∨ ∃ o, o ∈ Objects E ∧ o ∈ Objects C) →
  (∀ p, p ∈ X → p ∈ X') →
  (∀ a b, (a, b) ∈ X' → (a, b) ∈ X ∨ ∃ P q, P ∈ Prefixes E ∧ (q ∈ Prefixes C ∨ q ∈ Prefixes E) ∧
     pf_Member P = pf_Member q ∧ a = pf_Object P ∧ b = pf_Object q) →
  prefixes_added D' (X' ++ G) (Prefixes C) (Prefixes E) (Prefixes C') →
  joined (dn ++ [E]) D' X'.
Proof.
  intros Hall HJ HN HE Hmeet HX HX' HQ. pose proof HN as [N1 N2 N3 N4 N5 N6 N7 N8].
  assert (E ∈ all) as HEall by (apply Hall; set_solver).
  assert (congruence (add_pre (pre_of D0 dn) (Objects E) (Prefixes E)) Cg) as HCg'.
  { rewrite <- pre_of_snoc. eapply congruence_sub; [|exact HCg]. intros o p. rewrite !pre_of_spec.
    intros [?|(B & HB & ?)]; [by left|right; exists B]. split; [by apply Hall|done]. }
  assert (∀ a b, a ∈ Objects E → b ∈ Objects E → Cg a b) as Hos by (intros; by eapply HG, Hobjects).
  pose proof (extends_mono D D' i C C' _ HE) as Hmono.
  pose proof (extend_owner _ _ D D' i C C' _ (Prefixes E) _ HCg' N1 HE Hos (Hnonempty E HEall) Hmeet) as Howner.
  assert (∀ a b, (a, b) ∈ X' → (a, b) ∈ X ∨ (Cg a b ∧ owned (pre_of D0 (dn ++ [E])) a b)) as Hnew.
  { intros a b [?|(P & q & HP & Hq & Hm & -> & ->)]%HX'; [by left|right]. split.
    - by eapply (extend_pair _ _ D D' i C C' _ _ _ HCg' N1 HE Hos (Hnonempty E HEall) Hmeet).
    - destruct (Howner P) as (o & _ & Ho); [by right|].
      destruct (Howner q) as (o' & _ & Ho'); [done|].
      exists o, P, o', q. by rewrite !pre_of_snoc. }
  split.
  - rewrite pre_of_snoc. eapply extend_core; [done|exact N1|done| |done|by apply Hnonempty|done| | |done].
    + intros o p Hp. apply N3. by eapply pre_of_known.
    + set_solver.
    + intros a b [Hab|Hab]%elem_of_app; [|by apply HG].
      destruct (Hnew a b Hab) as [?|[? _]]; [|done]. apply (cc_sound_pending _ _ _ _ N1). set_solver.
  - transitivity D1; [apply HJ|]. transitivity D; [done|apply HE].
  - intros o. rewrite (extends_known D D' i C C' _ HE), N3, (jd_known _ _ _ HJ).
    setoid_rewrite elem_of_app. setoid_rewrite list_elem_of_singleton. naive_solver.
  - intros a b Hab. apply Hmono, N4, HJ, Hab.
  - intros B a b [HB|HB%list_elem_of_singleton]%elem_of_app Ha Hb.
    + apply Hmono, N4. by apply (jd_done _ _ _ HJ B).
    + subst B. by apply (extends_joins D D' i C C' _ HE).
  - pose proof (jd_num _ _ _ HJ). pose proof (ex_size _ _ _ _ _ _ HE). rewrite length_app. simpl. lia.
  - intros a b [Hab|[_ ?]]%Hnew; [|done]. destruct (N6 a b Hab) as (o & p & o' & q & ? & ? & ? & ?).
    exists o, p, o', q. rewrite !pre_of_snoc. split_and!; [by left..|done|done].
Qed.

(** No object of the class is known. *)
Lemma joined_copy dn D1 X1 E D X :
  (∀ B, B ∈ dn ++ [E] → B ∈ all) → joined dn D1 X1 →
  joining (pre_of D0 dn) Cg G D1 (Objects E) D X None → joined (dn ++ [E]) (copy_class D E) X.
Proof.
  intros Hall HJ HN. assert (E ∈ all) as HE by (apply Hall; set_solver).
  assert (extends D (copy_class D E) (next_cell (EquivClasses D)) (mkEquivClass [] []) E (Objects E)) as Hx.
  { apply copy_extends; [by apply (cc_wf _ _ _ _ (jn_core _ _ _ _ _ _ _ _ HN))|by apply Hnonempty|].
    intros o Ho. destruct (FindMap D !! o) as [j|] eqn:Ej; [|done].
    by pose proof (jn_class _ _ _ _ _ _ _ _ HN o j Ho Ej). }
  eapply (joined_extend dn D1 X1 E D X None); [done..|by left|done|by left|].
  split; simpl.
  - by intros q ?%elem_of_nil.
  - by right.
  - intros P HP. by exists P.
  - intros p q Hp Hq Hm. apply linked_pending, elem_of_app. right. by eapply Hprefixes.
Qed.

(** The objects that are known are in the class at [i]. *)
Lemma joined_set dn D1 X1 E D X i C os fm :
  (∀ B, B ∈ dn ++ [E] → B ∈ all) → joined dn D1 X1 →
  joining (pre_of D0 dn) Cg G D1 (Objects E) D X (Some i) → cells_of D !! i = Some C →
  (∀ o, o ∈ os ↔ o ∈ Objects C ∨ o ∈ Objects E) →
  (∀ o, fm !! o = if decide (o ∈ Objects E) then Some i else FindMap D !! o) →
  let r := GetPrefixesToMerge (Prefixes C) (Prefixes E) X in
  joined (dn ++ [E])
    (with_classes D (list_set (EquivClasses D) i (mkEquivClass os (sort_unique_Prefixes r.1))) fm) r.2.
Proof.
  intros Hall HJ HN Hi Hos Hfm r. unfold r. rewrite GetPrefixesToMerge_acc. cbn [fst snd].
  destruct (GetPrefixesToMerge (Prefixes C) (Prefixes E) []) as [Q otm] eqn:EQ. cbn [fst snd].
  apply GetPrefixesToMerge_spec in EQ.
  pose proof (cc_wf _ _ _ _ (jn_core _ _ _ _ _ _ _ _ HN)) as Hwf.
  set (C' := mkEquivClass os (sort_unique_Prefixes Q)). set (D' := with_classes _ _ _).
  assert (extends D D' i C C' (Objects E)) as Hx.
  { apply set_extends; [done..| |done]. intros o j Ho Hj.
    pose proof (jn_class _ _ _ _ _ _ _ _ HN o j Ho Hj). congruence. }
  eapply (joined_extend dn D1 X1 E D X (Some i)); [done..| | | |].
  - right. destruct (jn_some _ _ _ _ _ _ _ _ HN i eq_refl) as (o & Ho & Hoi). exists o. split; [done|].
    destruct (wf_class _ _ _ Hwf Hoi) as (B & HB & ?). by simplify_eq.
  - set_solver.
  - intros a b [Hab|Hab]%elem_of_app; [by left|right].
    destruct (pm_pairs _ _ _ _ EQ a b Hab) as (P & q & ? & ? & ? & ? & ?). by exists P, q.
  - split; simpl; setoid_rewrite elem_of_sort_unique_Prefixes.
    + apply EQ.
    + apply EQ.
    + intros P HP. destruct (pm_right _ _ _ _ EQ P HP) as (q & Hq & Hm & Ho). exists q.
      split_and!; [done..|]. destruct Ho as [->|Ho]; [done|]. symmetry. apply linked_pending. set_solver.
    + intros p q Hp Hq Hm. destruct (pm_uniq _ _ _ _ EQ p q Hp Hq Hm) as [[Hp1 Hq1]| ->]; [|done].
      eapply linked_mono; [by apply (extends_mono D D' i C C' _ Hx)|..|
        by eapply (cc_uniq _ _ _ _ (jn_core _ _ _ _ _ _ _ _ HN))]. set_solver.
Qed.

Lemma merge_class_ok dn D X E :
  (∀ B, B ∈ dn ++ [E] → B ∈ all) → joined dn D X →
  ∃ D' X', merge_class (D, X) E ⇓ (D', X') ∧ joined (dn ++ [E]) D' X'.
Proof.
  intros Hall HJ. assert (E ∈ all) as HE by (apply Hall; set_solver).
  assert (∀ a b, a ∈ Objects E → b ∈ Objects E → Cg a b) as Hos by (intros; by eapply HG, Hobjects).
  assert (congruence (pre_of D0 dn) Cg) as HCg'.
  { eapply congruence_sub; [|exact HCg]. intros o p. rewrite !pre_of_spec.
    intros [?|(B & HB & ?)]; [by left|right; exists B]. split; [apply Hall; set_solver|done]. }
  unfold merge_class. destruct (Objects E) as [|o os] eqn:Eo; [by destruct (Hnonempty E HE)|]. simpl.
  pose proof (joined_joining dn D X o HJ) as HN.
  destruct (join_objects_ok _ Cg G D (o :: os) HCg' Hos os [o] D X _ HN) as (D2 & X2 & F & Hr & HN2); [done|].
  change ([o] ++ os) with (o :: os) in HN2. rewrite <- Eo in HN2.
  assert (∀ i, F = Some i → ∃ C, cells_of D2 !! i = Some C ∧ ∀ x, x ∈ Objects E → FindMap D2 !! x = Some i → x ∈ Objects C) as Hi.
  { intros i ->. destruct (jn_some _ _ _ _ _ _ _ _ HN2 i eq_refl) as (x & _ & Hx).
    pose proof (cc_wf _ _ _ _ (jn_core _ _ _ _ _ _ _ _ HN2)) as Hwf.
    destruct (wf_class _ _ _ Hwf Hx) as (C & HC & _). exists C. split; [done|].
    intros y _ Hy. destruct (wf_class _ _ _ Hwf Hy) as (B & HB & ?). by simplify_eq. }
  destruct (decide (S (length os) = 1)) as [H1|H1].
  - destruct os as [|? ?]; [|done]. simpl in Hr. injection Hr as <- <- <-.
    destruct (FindMap D !! o) as [i|] eqn:Ei; [|eexists _, _; split; [done|by eapply joined_copy]].
    destruct (Hi i eq_refl) as (C & HC & HoC). unfold extend_class, list_get. rewrite HC. simpl.
    destruct (GetPrefixesToMerge (Prefixes C) (Prefixes E) X) as [Q X'] eqn:EQ.
    eexists _, _. split; [done|].
    pose proof (joined_set dn D X E D X i C (Objects C) (FindMap D) Hall HJ HN2 HC) as Hset.
    cbn zeta in Hset. rewrite EQ in Hset. apply Hset; rewrite Eo; intros x.
    + rewrite list_elem_of_singleton. split; [by left|]. intros [?| ->]; [done|].
      apply HoC; [rewrite Eo; left|done].
    + case_decide as Hx; [|done]. by apply list_elem_of_singleton in Hx as ->.
  - rewrite Hr. simpl. destruct F as [i|]; [|eexists _, _; split; [done|by eapply joined_copy]].
    destruct (Hi i eq_refl) as (C & HC & HoC). unfold extend_class, list_get. rewrite HC. simpl.
    destruct (GetPrefixesToMerge (Prefixes C) (Prefixes E) X2) as [Q X'] eqn:EQ.
    eexists _, _. split; [done|].
    change (emplace_objects (map_emplace _ o i) i os) with (emplace_objects (FindMap D2) i (o :: os)).
    rewrite <- Eo.
    pose proof (joined_set dn D X E D2 X2 i C (sort_unique_Objects (Objects C ++ Objects E))
      (emplace_objects (FindMap D2) i (Objects E)) Hall HJ HN2 HC) as Hset.
    cbn zeta in Hset. rewrite EQ in Hset. apply Hset; intros x.
    + by rewrite elem_of_sort_unique_Objects, elem_of_app.
    + apply emplace_objects_lookup. intros y j Hy Hj.
      pose proof (jn_class _ _ _ _ _ _ _ _ HN2 y j Hy Hj). congruence.
Qed.

Lemma merge_classes_ok rest dn D X :
  (∀ B, B ∈ dn ++ rest → B ∈ all) → joined dn D X →
  ∃ D' X', foldM merge_class (D, X) rest ⇓ (D', X') ∧ joined (dn ++ rest) D' X'.
Proof.
  revert dn D X. induction rest as [|E rest IH]; intros dn D X Hall HJ; cbn [foldM].
  { exists D, X. by rewrite app_nil_r. }
  destruct (merge_class_ok dn D X E) as (D1 & X1 & -> & HJ1); [set_solver|done|]. rewrite bind_ret.
  destruct (IH (dn ++ [E]) D1 X1) as (D2 & X2 & -> & HJ2); [|done|].
  { intros B HB. apply Hall. by rewrite <- app_assoc in HB. }
  exists D2, X2. split; [done|]. by rewrite <- app_assoc in HJ2.
Qed.
End classes.

(** ** The container as read from a file *)

Lemma list_of_spec {A} (l : list A) :
  order (list_of l) = seq 0 (length l) ∧ next_cell (list_of l) = length l ∧
  ∀ i, cells (list_of l) !! i = l !! i.
Proof.
  induction l as [|a l (IH1 & IH2 & IH3)] using rev_ind; [done|].
  unfold list_of in *. rewrite foldl_app. simpl. rewrite IH1, IH2, length_app. simpl.
  rewrite Nat.add_1_r, seq_S. split_and!; [done..|]. intros i.
  destruct (decide (i = length l)) as [->|Hi].
  - by rewrite lookup_insert_eq, lookup_app_r, Nat.sub_diag by lia.
  - rewrite lookup_insert_ne by done. rewrite IH3. destruct (decide (i < length l)).
    + by rewrite lookup_app_l.
    + rewrite !lookup_ge_None_2; [done|rewrite length_app; simpl; lia|lia].
Qed.

Lemma find_map_of_snoc l E : find_map_of (l ++ [E]) = emplace_objects (find_map_of l) (length l) (Objects E).
Proof. unfold find_map_of. rewrite imap_app, foldl_app. simpl. by rewrite Nat.add_0_r. Qed.

(** The classes have no object in common. *)
Definition disjoint_classes (l : list EquivClass) : Prop :=
  ∀ i j E E' o, l !! i = Some E → l !! j = Some E' → o ∈ Objects E → o ∈ Objects E' → i = j.

Lemma find_map_of_spec l o i :
  disjoint_classes l → find_map_of l !! o = Some i ↔ ∃ E, l !! i = Some E ∧ o ∈ Objects E.
Proof.
  revert o i. induction l as [|E l IH] using rev_ind; intros o i Hd.
  { change (find_map_of []) with (∅ : gmap string nat). rewrite lookup_empty.
    split; [done|]. by intros (E & ? & _). }
  assert (disjoint_classes l) as Hl.
  { intros i1 i2 E1 E2 x H1 H2. apply (Hd i1 i2 E1 E2); by apply lookup_app_l_Some. }
  assert ((l ++ [E]) !! length l = Some E) as Hlast by by rewrite lookup_app_r, Nat.sub_diag by lia.
  assert (∀ x j, x ∈ Objects E → find_map_of l !! x = Some j → False) as Hnone.
  { intros x j Hx (E' & HE' & Hx')%(IH _ _ Hl). apply lookup_lt_Some in HE' as Hlt.
    assert (j = length l); [|lia]. by eapply (Hd j (length l)); [apply lookup_app_l_Some|..]. }
  rewrite find_map_of_snoc, emplace_objects_lookup by (intros x j ??; exfalso; by eapply Hnone).
  destruct (decide (o ∈ Objects E)) as [Ho|Ho].
  - split; [intros [= <-]; by exists E|]. intros (E' & HE' & Ho'). f_equal.
    by eapply (Hd (length l) i).
  - rewrite (IH _ _ Hl). split; intros (E' & HE' & Ho').
    + exists E'. split; [by apply lookup_app_l_Some|done].
    + exists E'. split; [|done]. apply lookup_snoc_Some in HE' as [[_ ?]|[_ <-]]; done.
Qed.

Section reread.
Context (D : EquivClassContainer).
Hypothesis Hwf : classes_wf D.
Let classes := list_elems (EquivClasses D).

(** The cell that the class at a position of the list is in. *)
Lemma class_cell i E :
  classes !! i = Some E ↔ ∃ k, order (EquivClasses D) !! i = Some k ∧ cells_of D !! k = Some E.
Proof.
  unfold classes, list_elems.
  assert (∀ l i, Forall (λ k, is_Some (cells_of D !! k)) l →
    omap (λ k, cells_of D !! k) l !! i = Some E ↔ ∃ k, l !! i = Some k ∧ cells_of D !! k = Some E) as Hgen.
  { clear. intros l. induction l as [|k l IH]; intros i Hl.
    - split; [done|]. by intros (k & ? & _).
    - apply Forall_cons in Hl as [[B HB] Hl]. cbn [omap list_omap]. rewrite HB.
      destruct i as [|i]; simpl; [|by apply IH]. split; [intros [= <-]; by exists k|].
      intros (k' & [= <-] & ?). congruence. }
  apply Hgen, Forall_forall. intros k. apply (cw_order _ Hwf).
Qed.

Lemma classes_disjoint : disjoint_classes classes.
Proof.
  intros i j E E' o (k & Hk & HE)%class_cell (k' & Hk' & HE')%class_cell Ho Ho'.
  assert (k' = k) as ->.
  { pose proof (wf_object _ _ _ _ Hwf HE Ho). pose proof (wf_object _ _ _ _ Hwf HE' Ho'). congruence. }
  by eapply NoDup_lookup; [apply Hwf|..].
Qed.

Lemma reread_find o i : FindMap (reread D) !! o = Some i ↔ ∃ E, classes !! i = Some E ∧ o ∈ Objects E.
Proof. apply find_map_of_spec, classes_disjoint. Qed.

Lemma reread_cells i : cells_of (reread D) !! i = classes !! i.
Proof. apply (list_of_spec classes). Qed.

Lemma reread_wf : classes_wf (reread D).
Proof.
  destruct (list_of_spec classes) as (Ho & Hn & Hc). split.
  - intros i. rewrite reread_cells. change (order (EquivClasses (reread D))) with (order (list_of classes)).
    rewrite Ho, elem_of_seq, lookup_lt_is_Some. lia.
  - change (order (EquivClasses (reread D))) with (order (list_of classes)). rewrite Ho. apply NoDup_seq.
  - intros i. rewrite reread_cells. change (next_cell (EquivClasses (reread D))) with (next_cell (list_of classes)).
    rewrite Hn, lookup_lt_is_Some. done.
  - intros i C. rewrite reread_cells. intros (k & _ & HC)%class_cell. by apply (cw_nonempty _ Hwf k).
  - intros o i. rewrite reread_find. by setoid_rewrite reread_cells.
Qed.

(** The objects of a class have the position of the class. *)
Lemma reread_position o i : FindMap (reread D) !! o = Some i ↔
  ∃ k, order (EquivClasses D) !! i = Some k ∧ FindMap D !! o = Some k.
Proof.
  rewrite reread_find. setoid_rewrite class_cell. setoid_rewrite (cw_find _ Hwf). naive_solver.
Qed.

Lemma reread_known o : known (reread D) o ↔ known D o.
Proof.
  split; intros [i Hi].
  - apply reread_position in Hi as (k & _ & Hk). by exists k.
  - destruct (wf_class _ _ _ Hwf Hi) as (E & HE & _).
    assert (i ∈ order (EquivClasses D)) as [j Hj]%list_elem_of_lookup by (apply (cw_order _ Hwf); by exists E).
    exists j. apply reread_position. by exists i.
Qed.

Lemma reread_same a b : same (reread D) a b ↔ same D a b.
Proof.
  split.
  - intros (i & (k & Hk & Ha)%reread_position & (k' & Hk' & Hb)%reread_position).
    exists k. split; [done|]. congruence.
  - intros (k & Ha & Hb). assert (known (reread D) a) as [i Hi] by (apply reread_known; by exists k).
    exists i. split; [done|]. apply reread_position in Hi as (k' & Hk' & Ha').
    apply reread_position. exists k'. split; [done|]. congruence.
Qed.

Lemma reread_prefix o p : prefix_of (reread D) o p ↔ prefix_of D o p.
Proof.
  unfold prefix_of. setoid_rewrite reread_cells. setoid_rewrite class_cell.
  setoid_rewrite reread_position. split.
  - intros (i & C & (k & Hk & Ho) & (k' & Hk' & HC) & Hp). exists k, C. split_and!; [done| |done]. congruence.
  - intros (k & C & Ho & HC & Hp).
    assert (k ∈ order (EquivClasses D)) as [i Hi]%list_elem_of_lookup by (apply (cw_order _ Hwf); by exists C).
    exists i, C. split_and!; [by exists k|by exists k|done].
Qed.
End reread.
