(* ===== verification/AliasMergeResult.v ===== *)
(** * The result of merging two translation units

    [mergeEquivalenceClasses] computes the least relation that contains the
    classes and the parameters of both translation units and is closed under
    prefixes and calls, and adds exactly the edges of its calls to the call
    graph. *)

From S2P Require Import Prelude Json Collector CollectorProps CollectorMergeProps AliasNames.
From S2P Require Import AliasClasses AliasWf AliasClosure AliasRecursion AliasMerge AliasMergeProps.

(** ** The maps of both *)

(** Both know the function: its returns are those of the second one if the
    first one has only seen a declaration. *)
Definition union_info (i1 i2 : FunctionInfo) : FunctionInfo :=
  if decide (ReferencedInReturnStmts i1 = [])
  then mkFunctionInfo (MangledNames i1) (Parameters_ i1) (ReferencedInReturnStmts i2) (IsVariadic i1)
  else i1.

(** The container with the maps of both and the classes of the first one. *)
Definition united (D1 D2 : EquivClassContainer) : EquivClassContainer :=
  InitReferencedInCalls
    (mkEquivClassContainer (EquivClasses D1) (FunctionMap D1 ∪ FunctionMap D2)
       (union_with (λ i1 i2, Some (union_info i1 i2)) (FunctionInfoMap D1) (FunctionInfoMap D2))
       (CallInfoMap D1 ∪ CallInfoMap D2) (FindMap D1) (CallExprParentMap D1 ∪ CallExprParentMap D2) ∅).

Lemma map_emplace_all_union {A} (m other : gmap string A) : map_emplace_all m other = m ∪ other.
Proof.
  unfold map_emplace_all. rewrite <- (ordered_iter_to_map other) at 2. revert m.
  induction (ordered_iter other) as [|[k a] l IH]; intros m; simpl; [by rewrite (right_id_L ∅ (∪))|].
  rewrite IH. apply map_eq. intros j. rewrite !lookup_union. unfold map_emplace.
  destruct (m !! k) as [b|] eqn:Ek; destruct (decide (j = k)) as [->|Hj].
  - by rewrite Ek, lookup_insert_eq, !union_Some_l.
  - by rewrite lookup_insert_ne.
  - by rewrite !lookup_insert_eq, Ek, union_Some_l, (left_id_L None (∪)).
  - by rewrite !lookup_insert_ne.
Qed.

Lemma InitReferencedInCalls_spec D o c :
  c ∈ default [] (ReferencedInCalls (InitReferencedInCalls D) !! o) ↔
  ∃ ci, CallInfoMap D !! c = Some ci ∧ o ∈ CalledObjects ci.
Proof.
  simpl. setoid_rewrite <- elem_of_ordered_iter. generalize (ordered_iter (CallInfoMap D)). intros l.
  assert (∀ m : gmap string (list string), c ∈ default [] (foldl (λ m ci,
      foldl (λ (m : gmap string (list string)) Ref, <[Ref := default [] (m !! Ref) ++ [ci.1]]> m) m (CalledObjects ci.2)) m l !! o) ↔
    c ∈ default [] (m !! o) ∨ ∃ ci, (c, ci) ∈ l ∧ o ∈ CalledObjects ci) as Hgen.
  { induction l as [|[k ci] l IH]; intros m; simpl.
    { split; [by left|]. intros [?|(ci & Hci & _)]; [done|]. by apply elem_of_nil in Hci. }
    rewrite IH.
    assert (∀ refs m, c ∈ default [] (foldl (λ (m : gmap string (list string)) Ref,
        <[Ref := default [] (m !! Ref) ++ [k]]> m) m refs !! o) ↔
      c ∈ default [] (m !! o) ∨ (c = k ∧ o ∈ refs)) as Href.
    { clear. intros refs. induction refs as [|r refs IH]; intros m; simpl.
      { rewrite elem_of_nil. tauto. }
      rewrite IH, elem_of_cons. destruct (decide (o = r)) as [->|Hr].
      - rewrite lookup_insert_eq. simpl. rewrite elem_of_app, list_elem_of_singleton. tauto.
      - rewrite lookup_insert_ne by done. tauto. }
    rewrite Href. setoid_rewrite elem_of_cons. split.
    - intros [[?|[-> ?]]|(ci' & ? & ?)]; [by left|right; exists ci; auto|right; exists ci'; auto].
    - intros [?|(ci' & [[= -> ->]|?] & ?)]; [by left; left|by left; right|right; by exists ci']. }
  rewrite Hgen, lookup_empty, elem_of_nil. tauto.
Qed.

Definition infos_agree (D1 D2 : EquivClassContainer) : Prop :=
  ∀ f i1 i2, FunctionInfoMap D1 !! f = Some i1 → FunctionInfoMap D2 !! f = Some i2 →
    length (Parameters_ i1) = length (Parameters_ i2) ∧ IsVariadic i1 = IsVariadic i2 ∧
    MangledNames i1 = MangledNames i2.

(** Parameters with different names in the two translation units. *)
Definition param_pair (D1 D2 : EquivClassContainer) (a b : string) : Prop :=
  ∃ f i1 i2 k, FunctionInfoMap D1 !! f = Some i1 ∧ FunctionInfoMap D2 !! f = Some i2 ∧
    Parameters_ i1 !! k = Some a ∧ Parameters_ i2 !! k = Some b.

Lemma elem_of_zip {A B} (l1 : list A) (l2 : list B) a b :
  (a, b) ∈ zip l1 l2 ↔ ∃ k, l1 !! k = Some a ∧ l2 !! k = Some b.
Proof.
  rewrite list_elem_of_lookup. apply exist_proper. intros k. rewrite lookup_zip_with. split.
  - intros (x & Hx & (y & Hy & [= -> ->])%bind_Some)%bind_Some. done.
  - intros [-> ->]. done.
Qed.

Abbreviation unite_infos := (union_with (λ i1 i2, Some (union_info i1 i2))).

Lemma merge_function_info_ok infos P f i2 :
  (∀ i1, infos !! f = Some i1 → length (Parameters_ i1) = length (Parameters_ i2) ∧
     IsVariadic i1 = IsVariadic i2 ∧ MangledNames i1 = MangledNames i2) →
  ∃ P', merge_function_info (infos, P) (f, i2) ⇓
      (<[f := match infos !! f with Some i1 => union_info i1 i2 | None => i2 end]> infos, P ++ P') ∧
    ∀ a b, (a, b) ∈ P' ↔ (∃ i1 k, infos !! f = Some i1 ∧ Parameters_ i1 !! k = Some a ∧
      Parameters_ i2 !! k = Some b) ∧ a ≠ b.
Proof.
  intros Hag. unfold merge_function_info. cbn [fst snd]. destruct (infos !! f) as [i1|] eqn:E1.
  - destruct (Hag i1 eq_refl) as (HA & HB & HC). rewrite !bool_decide_true by done. simpl.
    eexists. split.
    + unfold union_info. destruct (decide (ReferencedInReturnStmts i1 = [])); [done|].
      by rewrite insert_id.
    + intros a b. rewrite list_elem_of_filter, elem_of_zip. simpl. naive_solver.
  - exists []. rewrite app_nil_r. split; [done|]. intros a b. rewrite elem_of_nil. naive_solver.
Qed.

Lemma merge_function_infos_ok l infos P :
  NoDup l.*1 →
  (∀ f i1 i2, infos !! f = Some i1 → (f, i2) ∈ l → length (Parameters_ i1) = length (Parameters_ i2) ∧
     IsVariadic i1 = IsVariadic i2 ∧ MangledNames i1 = MangledNames i2) →
  ∃ P', foldM merge_function_info (infos, P) l ⇓ (unite_infos infos (list_to_map l), P ++ P') ∧
    ∀ a b, (a, b) ∈ P' ↔ (∃ f i1 i2 k, infos !! f = Some i1 ∧ (f, i2) ∈ l ∧
      Parameters_ i1 !! k = Some a ∧ Parameters_ i2 !! k = Some b) ∧ a ≠ b.
Proof.
  revert infos P. induction l as [|[f i2] l IH]; intros infos P Hnd Hag; cbn [foldM].
  { exists []. rewrite app_nil_r. split.
    - do 2 f_equal. apply map_eq. intros k. rewrite lookup_union_with. simpl.
      by rewrite lookup_empty; destruct (infos !! k).
    - intros a b. rewrite elem_of_nil. split; [done|]. by intros [(f & i1 & i2 & k & _ & ?%elem_of_nil & _) _]. }
  apply NoDup_cons in Hnd as [Hf Hnd].
  assert (∀ x i, (x, i) ∈ l → x ≠ f) as Hne.
  { intros x i Hx ->. apply Hf. apply list_elem_of_fmap. by exists (f, i). }
  destruct (merge_function_info_ok infos P f i2) as (P1 & -> & HP1).
  { intros i1 Hi. apply (Hag f); [done|left]. }
  rewrite bind_ret. set (infos1 := <[f := _]> infos).
  assert (∀ x i, (x, i) ∈ l → infos1 !! x = infos !! x) as Hsame.
  { intros x i Hx. apply lookup_insert_ne. intros <-. by apply (Hne f i). }
  destruct (IH infos1 (P ++ P1) Hnd) as (P2 & -> & HP2).
  { intros x j1 j2 Hx Hin. rewrite (Hsame x j2 Hin) in Hx. apply (Hag x); [done|by right]. }
  exists (P1 ++ P2). rewrite app_assoc. split.
  - do 2 f_equal. apply map_eq. intros x. rewrite !lookup_union_with. simpl. unfold infos1.
    destruct (decide (x = f)) as [->|Hx].
    + rewrite !lookup_insert_eq, not_elem_of_list_to_map_1 by done. by destruct (infos !! f).
    + by rewrite !lookup_insert_ne.
  - intros a b. rewrite elem_of_app, HP1, HP2. setoid_rewrite elem_of_cons. split.
    + intros [[(i1 & k & ? & ? & ?) ?]|[(x & j1 & j2 & k & Hx & Hin & ? & ?) ?]].
      * split; [|done]. exists f, i1, i2, k. auto.
      * split; [|done]. rewrite (Hsame x j2 Hin) in Hx. exists x, j1, j2, k. auto.
    + intros [(x & j1 & j2 & k & Hx & [[= -> ->]|Hin] & ? & ?) ?]; [left|right]; (split; [|done]).
      * by exists j1, k.
      * exists x, j1, j2, k. by rewrite (Hsame x j2 Hin).
Qed.

Lemma merge_infos_ok D1 D2 :
  infos_agree D1 D2 →
  ∃ P, foldM merge_function_info (FunctionInfoMap D1, []) (ordered_iter (FunctionInfoMap D2))
      ⇓ (unite_infos (FunctionInfoMap D1) (FunctionInfoMap D2), P) ∧
    ∀ a b, (a, b) ∈ P ↔ param_pair D1 D2 a b ∧ a ≠ b.
Proof.
  intros Hag.
  destruct (merge_function_infos_ok (ordered_iter (FunctionInfoMap D2)) (FunctionInfoMap D1) [])
    as (P & -> & HP); [apply ordered_iter_NoDup_fst| |].
  { intros f i1 i2 H1 H2%elem_of_ordered_iter. by apply (Hag f). }
  rewrite ordered_iter_to_map. exists P. split; [done|]. intros a b. rewrite HP. unfold param_pair.
  by setoid_rewrite elem_of_ordered_iter.
Qed.

(** ** Pairs of objects *)

Section entries.
Context (pre : string → Prefix → Prop) (Cg : relation string).
Hypothesis HCg : congruence pre Cg.

(** For known objects the missing test makes no difference. *)
Lemma merge_entries_known fuel st a b :
  known st.1 a → known st.1 b → merge_entries fuel st a b = merge_objects (mergeRecurisve fuel) st a b.
Proof. intros [i Hi] [j Hj]. unfold merge_entries, merge_objects, entry_class, find_class. by rewrite Hi, Hj. Qed.

Lemma merge_entries_ok fuel X D calls l :
  cong_inv pre Cg (l ++ X) D → num_classes D ≤ fuel →
  ∃ D' new, foldM (λ st p, merge_entries fuel st p.1 p.2) (D, calls) l ⇓ (D', calls ++ new) ∧
    cong_inv pre Cg X D' ∧ step D D' new ∧ ∀ a b, (a, b) ∈ l → same D' a b.
Proof.
  revert D calls. induction l as [|[a b] l IH]; intros D calls HI Hk; cbn [foldM].
  { exists D, []. rewrite app_nil_r. split_and!; [done..|apply step_refl|by intros ?? ?%elem_of_nil]. }
  destruct (cong_inv_pending _ _ _ _ _ _ HI) as (Ha & Hb & _).
  cbn [fst snd]. rewrite merge_entries_known by done.
  destruct (merge_objects_ok pre Cg HCg _ fuel (l ++ X) D calls a b (mergeRecurisve_ok pre Cg HCg fuel))
    as (D1 & n1 & -> & HI1 & S1 & Hab); [done..|].
  rewrite bind_ret. pose proof (step_num _ _ _ S1).
  destruct (IH D1 (calls ++ n1)) as (D2 & n2 & -> & HI2 & S2 & Hl); [done|lia|].
  exists D2, (n1 ++ n2). rewrite app_assoc. split_and!; [done..|by eapply step_trans|].
  intros x y [[= -> ->]|Hxy]%elem_of_cons; [by apply (sp_mono _ _ _ S2)|by apply Hl].
Qed.

Lemma cong_inv_settled G X D :
  cong_inv pre Cg (G ++ X) D → (∀ a b, (a, b) ∈ G → same D a b) → cong_inv pre Cg X D.
Proof.
  induction G as [|[a b] G IH]; intros HI Hs; [done|].
  apply IH; [|intros x y ?; apply Hs; by right]. eapply cong_inv_remove; [exact HI|]. apply Hs. left.
Qed.

Lemma cong_inv_pairs P D :
  cong_inv pre Cg [] D → (∀ a b, (a, b) ∈ P → known D a ∧ known D b ∧ Cg a b) → cong_inv pre Cg (P ++ []) D.
Proof.
  intros HI. induction P as [|[a b] P IH]; intros HP; [done|].
  destruct (HP a b) as (? & ? & ?); [left|]. apply cong_inv_add; [|done..].
  apply IH. intros x y ?. apply HP. by right.
Qed.
End entries.

(** All calls of all classes. *)
Lemma all_calls D l p :
  classes_wf D →
  p ∈ foldl (λ l E, GetFunctionsToMerge D l E) l (list_elems (EquivClasses D)) ↔ p ∈ l ∨ call_pair D p.
Proof.
  intros Hwf.
  assert (∀ cl l, p ∈ foldl (λ l E, GetFunctionsToMerge D l E) l cl ↔ p ∈ l ∨ ∃ E, E ∈ cl ∧
    p.1 ∈ Objects E ∧ is_Some (FunctionMap D !! p.1) ∧
    ∃ o, o ∈ Objects E ∧ p.2 ∈ default [] (ReferencedInCalls D !! o)) as Hgen.
  { clear. intros cl. induction cl as [|E cl IH]; intros l; simpl.
    - split; [by left|]. intros [?|(E & ?%elem_of_nil & _)]; done.
    - rewrite IH, elem_of_GetFunctionsToMerge. setoid_rewrite elem_of_cons. naive_solver. }
  rewrite Hgen. apply or_iff_compat_l. unfold call_pair. split.
  - intros (E & HE & Hp & HF & o & Ho & Hc). split; [done|]. exists o. split; [done|].
    apply list_elem_of_omap in HE as (i & _ & Hi). exists i. split; by eapply wf_object.
  - intros (HF & o & Hc & i & Hp & Ho). destruct (wf_class _ _ _ Hwf Hp) as (E & HE & HpE).
    destruct (wf_class _ _ _ Hwf Ho) as (E' & HE' & HoE). assert (E' = E) as -> by congruence.
    exists E. split_and!; [|done|done|by exists o]. apply list_elem_of_omap. exists i.
    split; [apply (cw_order _ Hwf); by exists E|done].
Qed.

(** ** What the result is to be *)

(** Functions are objects; what the maps mention are objects; the callers of
    calls are known functions. *)
Record file_ok (D : EquivClassContainer) : Prop := {
  fo_container : container_ok D;
  fo_function : ∀ o f, FunctionMap D !! o = Some f → known D o ∧ is_Some (FunctionInfoMap D !! f);
  fo_info : ∀ f fi, FunctionInfoMap D !! f = Some fi →
    Forall (known D) (Parameters_ fi) ∧ Forall (known D) (ReferencedInReturnStmts fi);
  fo_call : ∀ c ci, CallInfoMap D !! c = Some ci →
    known D c ∧ Forall (Forall (known D)) (Arguments_ ci) ∧ is_Some (CallExprParentMap D !! c);
  fo_parent : ∀ c f, CallExprParentMap D !! c = Some f → is_Some (FunctionInfoMap D !! f)
}.

(** The least relation with the classes of both that is closed under prefixes
    and calls. *)
Inductive unit_closure (D1 D2 : EquivClassContainer) : relation string :=
  | uc_first a b : same D1 a b → unit_closure D1 D2 a b
  | uc_second a b : same D2 a b → unit_closure D1 D2 a b
  | uc_parameter a b : param_pair D1 D2 a b → unit_closure D1 D2 a b
  | uc_refl a : unit_closure D1 D2 a a
  | uc_sym a b : unit_closure D1 D2 a b → unit_closure D1 D2 b a
  | uc_trans a b c : unit_closure D1 D2 a b → unit_closure D1 D2 b c → unit_closure D1 D2 a c
  | uc_prefix o o' p p' : unit_closure D1 D2 o o' → prefix_of D1 o p ∨ prefix_of D2 o p →
      prefix_of D1 o' p' ∨ prefix_of D2 o' p' → pf_Member p = pf_Member p' →
      unit_closure D1 D2 (pf_Object p) (pf_Object p')
  | uc_call F c o f fi ci a b :
      FunctionMap (united D1 D2) !! F = Some f → FunctionInfoMap (united D1 D2) !! f = Some fi →
      CallInfoMap (united D1 D2) !! c = Some ci → o ∈ CalledObjects ci → unit_closure D1 D2 F o →
      call_joins fi ci c a b → unit_closure D1 D2 a b.

Section merge_two.
Context (D1 D2 : EquivClassContainer).
Hypothesis H1 : file_ok D1.
Hypothesis H2 : file_ok D2.
Hypothesis Hag : infos_agree D1 D2.

Let U := united D1 D2.
Let Cg := unit_closure D1 D2.
Let all := list_elems (EquivClasses D2).
Let G : list (string * string) := all ≫= λ E, Objects E ≫= λ a, (λ b, (a, b)) <$> Objects E.
Let Hwf2 : classes_wf D2 := co_wf _ (fo_container _ H2).

Lemma elem_of_all E : E ∈ all ↔ ∃ i, cells_of D2 !! i = Some E.
Proof.
  unfold all, list_elems. rewrite list_elem_of_omap. split; [intros (i & _ & ?); by exists i|].
  intros [i Hi]. exists i. split; [apply (cw_order _ Hwf2); by exists E|done].
Qed.

Lemma all_length : length all ≤ num_classes D2.
Proof.
  unfold all, list_elems, num_classes. transitivity (length (order (EquivClasses D2))).
  { generalize (order (EquivClasses D2)). intros l. induction l as [|i l IH]; [done|].
    cbn [omap list_omap]. destruct (cells_of D2 !! i); cbn [length]; lia. }
  rewrite <- length_map_to_list, <- (length_fmap fst). apply submseteq_length, NoDup_submseteq; [apply Hwf2|].
  intros i [E HE]%(cw_order _ Hwf2). apply list_elem_of_fmap. exists (i, E). split; [done|].
  by apply elem_of_map_to_list.
Qed.

Lemma elem_of_G a b : (a, b) ∈ G ↔ same D2 a b.
Proof.
  unfold G. rewrite list_elem_of_bind. setoid_rewrite list_elem_of_bind. setoid_rewrite list_elem_of_fmap. split.
  - intros (E & (x & (y & [= -> ->] & Hy) & Hx) & [i Hi]%elem_of_all). exists i. split; by eapply wf_object.
  - intros (i & Ha & Hb). destruct (wf_class _ _ _ Hwf2 Ha) as (E & HE & HaE).
    destruct (wf_class _ _ _ Hwf2 Hb) as (E' & HE' & HbE). assert (E' = E) as -> by congruence.
    exists E. split; [|apply elem_of_all; by exists i]. exists a. split; [|done]. by exists b.
Qed.

Lemma all_prefix E p : E ∈ all → p ∈ Prefixes E → ∀ o, o ∈ Objects E → prefix_of D2 o p.
Proof. intros [i Hi]%elem_of_all Hp o Ho. exists i, E. split_and!; [by eapply wf_object|done..]. Qed.

Lemma all_nonempty E : E ∈ all → ∃ o, o ∈ Objects E.
Proof.
  intros [i Hi]%elem_of_all. pose proof (cw_nonempty _ Hwf2 i E Hi) as Hne.
  destruct (Objects E) as [|o l]; [done|]. exists o. left.
Qed.

Lemma pre_all o p : pre_of U all o p ↔ prefix_of D1 o p ∨ prefix_of D2 o p.
Proof.
  rewrite pre_of_spec. split.
  - intros [?|(E & HE & Ho & Hp)]; [by left|right]. by eapply all_prefix.
  - intros [?|(i & E & Hi & HE & Hp)]; [by left|right]. exists E. split_and!; [apply elem_of_all; by exists i| |done].
    destruct (wf_class _ _ _ Hwf2 Hi) as (E' & HE' & ?). assert (E' = E) as -> by congruence. done.
Qed.

Lemma unit_congruence : congruence (pre_of U all) Cg.
Proof.
  split.
  - split; [intros ?; apply uc_refl|intros ??; apply uc_sym|intros ???; apply uc_trans].
  - intros o o' p p' Ho Hp%pre_all Hp'%pre_all. by apply (uc_prefix _ _ o o').
Qed.

Lemma known_all o : known D2 o ↔ ∃ E, E ∈ all ∧ o ∈ Objects E.
Proof.
  split.
  - intros [i Hi]. destruct (wf_class _ _ _ Hwf2 Hi) as (E & HE & Ho). exists E.
    split; [apply elem_of_all; by exists i|done].
  - intros (E & [i Hi]%elem_of_all & Ho). exists i. by eapply wf_object.
Qed.

Lemma joined_start : joined Cg G U [] U [].
Proof.
  split; try done.
  - eapply (cong_core_ext _ _ _ D1); [done..|]. eapply cong_core_weaken; [|by intros ? ?%elem_of_nil|].
    + apply (ci_core _ _ _ _ (container_inv Cg D1 (fo_container _ H1) (uc_first D1 D2))).
    + intros a b Hab%elem_of_G. by apply uc_second.
  - intros o. split; [by left|]. intros [?|(E & ?%elem_of_nil & _)]; done.
  - by intros E a b ?%elem_of_nil.
  - simpl. lia.
  - by intros a b ?%elem_of_nil.
Qed.

(** All classes are there: the invariant of the recursive merge holds. *)
Lemma classes_joined :
  ∃ D X, foldM merge_class (U, []) all ⇓ (D, X) ∧ cong_inv (pre_of U all) Cg (X ++ G) D ∧
    joined Cg G U all D X.
Proof.
  destruct (merge_classes_ok Cg G U all unit_congruence) with (rest := all) (dn := @nil EquivClass)
    (D := U) (X := @nil (string * string)) as (D & X & Hr & HJ).
  - intros a b Hab%elem_of_G. by apply uc_second.
  - intros E a b [i Hi]%elem_of_all Ha Hb. apply elem_of_G. exists i. split; by eapply wf_object.
  - intros E p q HE Hp Hq Hm. destruct (all_nonempty E HE) as [o Ho]. apply elem_of_G.
    apply (co_consistent _ (fo_container _ H2) o); [by eapply all_prefix..|done].
  - intros E [o Ho]%all_nonempty Hnil. rewrite Hnil in Ho. by apply elem_of_nil in Ho.
  - done.
  - apply joined_start.
  - exists D, X. split_and!; [done| |done].
    assert (∀ o p, pre_of U all o p → known D (pf_Object p)) as Hk.
    { intros o p Hp%pre_all. apply (jd_known _ _ _ _ _ _ HJ). rewrite <- known_all.
      destruct Hp as [Hp|Hp]; [left; by eapply (co_known _ (fo_container _ H1))|
        right; by eapply (co_known _ (fo_container _ H2))]. }
    split; [apply HJ|done|]. intros a b [Hab|Hab%elem_of_G]%elem_of_app.
    + destruct (jd_pending _ _ _ _ _ _ HJ a b Hab) as (o & p & o' & q & ? & ? & -> & ->). split; by eapply Hk.
    + rewrite !(jd_known _ _ _ _ _ _ HJ), <- !known_all. destruct (same_known _ _ _ Hab). split; by right.
Qed.

Lemma known_U D X o : joined Cg G U all D X → known D o ↔ known D1 o ∨ known D2 o.
Proof. intros HJ. by rewrite (jd_known _ _ _ _ _ _ HJ), <- known_all. Qed.

Lemma param_known a b : param_pair D1 D2 a b → known D1 a ∧ known D2 b.
Proof.
  intros (f & i1 & i2 & k & Hf1 & Hf2 & Ha & Hb).
  destruct (fo_info _ H1 f i1 Hf1) as [Hp1 _], (fo_info _ H2 f i2 Hf2) as [Hp2 _].
  rewrite Forall_forall in Hp1, Hp2. split; [eapply Hp1|eapply Hp2]; by eapply list_elem_of_lookup_2.
Qed.

(** ** The maps of the result *)

Lemma united_info f fi :
  FunctionInfoMap U !! f = Some fi →
  (∃ i1, FunctionInfoMap D1 !! f = Some i1 ∧ Parameters_ fi = Parameters_ i1 ∧
     MangledNames fi = MangledNames i1 ∧ (ReferencedInReturnStmts fi = ReferencedInReturnStmts i1 ∨
       ∃ i2, FunctionInfoMap D2 !! f = Some i2 ∧ ReferencedInReturnStmts fi = ReferencedInReturnStmts i2)) ∨
  FunctionInfoMap D2 !! f = Some fi.
Proof.
  simpl. rewrite lookup_union_with.
  destruct (FunctionInfoMap D1 !! f) as [i1|], (FunctionInfoMap D2 !! f) as [i2|]; intros [= <-]; [left|left|by right].
  - exists i1. unfold union_info. destruct (decide _); simpl; split_and!; try done; [right; by exists i2|by left].
  - exists i1. split_and!; try done. by left.
Qed.

Lemma united_info_some f :
  is_Some (FunctionInfoMap U !! f) ↔ is_Some (FunctionInfoMap D1 !! f) ∨ is_Some (FunctionInfoMap D2 !! f).
Proof.
  simpl. rewrite lookup_union_with.
  destruct (FunctionInfoMap D1 !! f), (FunctionInfoMap D2 !! f); simpl;
    split; try (intros; by eexists); try (by intros _; left); try (by intros _; right);
    try (by intros [? [=]]); by intros [[? [=]]|[? [=]]].
Qed.

Lemma united_union {A} (m1 m2 : gmap string A) k a :
  (m1 ∪ m2) !! k = Some a → m1 !! k = Some a ∨ m2 !! k = Some a.
Proof. rewrite lookup_union_Some_raw. intros [?|[_ ?]]; auto. Qed.

Section result.
Context (D : EquivClassContainer).
Hypothesis HS : static U D.
Hypothesis HK : ∀ o, known D o ↔ known D1 o ∨ known D2 o.

Lemma known_first l : Forall (known D1) l → Forall (known D) l.
Proof. intros H. eapply Forall_impl; [done|]. intros o Ho. apply HK. by left. Qed.
Lemma known_second l : Forall (known D2) l → Forall (known D) l.
Proof. intros H. eapply Forall_impl; [done|]. intros o Ho. apply HK. by right. Qed.

Lemma function_known o f : FunctionMap D !! o = Some f → known D o ∧ is_Some (FunctionInfoMap D !! f).
Proof.
  destruct HS as [-> -> _ _ _]. rewrite HK, united_info_some. intros [Ho|Ho]%united_union.
  - destruct (fo_function _ H1 o f Ho). auto.
  - destruct (fo_function _ H2 o f Ho). auto.
Qed.

Lemma referenced o c :
  c ∈ default [] (ReferencedInCalls D !! o) ↔ ∃ ci, CallInfoMap U !! c = Some ci ∧ o ∈ CalledObjects ci.
Proof. rewrite (st_referenced _ _ HS). unfold U, united. by rewrite InitReferencedInCalls_spec. Qed.

Lemma united_data : call_data_ok D.
Proof.
  split.
  - intros o f Ho. by apply (function_known o).
  - intros f fi. rewrite (st_infos _ _ HS). intros [(i1 & Hi1 & -> & _ & Hr)|Hi2]%united_info.
    + destruct (fo_info _ H1 f i1 Hi1) as [HP HR]. split; [by apply known_first|].
      destruct Hr as [-> |(i2 & Hi2 & ->)]; [by apply known_first|].
      destruct (fo_info _ H2 f i2 Hi2) as [_ HR2]. by apply known_second.
    + destruct (fo_info _ H2 f fi Hi2) as [HP HR]. split; by apply known_second.
  - intros c ci. rewrite (st_calls _ _ HS). intros [Hc|Hc]%united_union.
    + destruct (fo_call _ H1 c ci Hc) as (Hk & HA & _). split; [apply HK; by left|].
      eapply Forall_impl; [done|]. intros l. apply known_first.
    + destruct (fo_call _ H2 c ci Hc) as (Hk & HA & _). split; [apply HK; by right|].
      eapply Forall_impl; [done|]. intros l. apply known_second.
  - intros o c (ci & Hci & _)%referenced. rewrite (st_calls _ _ HS). by exists ci.
Qed.

Lemma united_closed : call_closed D Cg.
Proof.
  intros F c o f fi ci a b HF Hf Hc Ho HFo Hj. apply referenced in Ho as (ci' & Hci' & Ho).
  destruct HS as [S1 S2 S3 _ _]. rewrite S1 in HF. rewrite S2 in Hf. rewrite S3 in Hc.
  assert (ci' = ci) as -> by congruence. by eapply uc_call.
Qed.

(** Every call has an entry for its caller. *)
Lemma united_call_parent c ci : CallInfoMap U !! c = Some ci → is_Some (CallExprParentMap U !! c).
Proof.
  intros Hc. apply lookup_union_is_Some. apply united_union in Hc as [Hc|Hc];
    [left; apply (fo_call _ H1 c ci Hc)|right; apply (fo_call _ H2 c ci Hc)].
Qed.

Lemma united_parents_eq c : CallExprParentMap D !! c = CallExprParentMap U !! c.
Proof.
  destruct (st_parents _ _ HS c) as [?|(Hn & _ & ci & Hc)]; [done|].
  destruct (united_call_parent c ci Hc) as [f Hf]. congruence.
Qed.

(** The names of a caller are those of the file that has the call. *)
Lemma united_caller (P : string → Prop) c f :
  (∀ c f i, CallExprParentMap D1 !! c = Some f → FunctionInfoMap D1 !! f = Some i → Forall P (MangledNames i)) →
  (∀ c f i, CallExprParentMap D2 !! c = Some f → FunctionInfoMap D2 !! f = Some i → Forall P (MangledNames i)) →
  CallExprParentMap D !! c = Some f →
  ∃ i, FunctionInfoMap D !! f = Some i ∧ Forall P (MangledNames i).
Proof.
  intros HP1 HP2. rewrite united_parents_eq, (st_infos _ _ HS). intros Hf.
  assert (∀ i1 i2, FunctionInfoMap D1 !! f = Some i1 → FunctionInfoMap D2 !! f = Some i2 →
    MangledNames i1 = MangledNames i2) as Heq by (intros i1 i2 Hi1 Hi2; by apply (Hag f)).
  assert (is_Some (FunctionInfoMap U !! f)) as [i Hi].
  { apply united_info_some. apply united_union in Hf as [Hf|Hf];
      [left; by apply (fo_parent _ H1 c)|right; by apply (fo_parent _ H2 c)]. }
  exists i. split; [done|].
  apply united_union in Hf as [Hf|Hf].
  - destruct (fo_parent _ H1 c f Hf) as [j Hj]. pose proof (HP1 c f j Hf Hj).
    apply united_info in Hi as [(i1 & Hi1 & _ & -> & _)|Hi2]; [by simplify_eq|]. by rewrite <- (Heq j i).
  - destruct (fo_parent _ H2 c f Hf) as [j Hj]. pose proof (HP2 c f j Hf Hj).
    apply united_info in Hi as [(i1 & Hi1 & _ & -> & _)|Hi2]; [by rewrite (Heq i1 j)|by simplify_eq].
Qed.

Lemma united_file_ok : container_ok D → file_ok D.
Proof.
  intros Hok. pose proof united_data as Hd. split; [done|apply function_known|apply Hd| |].
  - intros c ci Hc. destruct (cd_call _ Hd c ci Hc) as [? ?]. split_and!; [done..|].
    rewrite united_parents_eq. rewrite (st_calls _ _ HS) in Hc. by eapply united_call_parent.
  - intros c f Hf. destruct (united_caller (λ _, True) c f) as (i & Hi & _); [..|done|by exists i];
      intros; by apply Forall_true.
Qed.

(** Everything that the closure relates has been joined. *)
Lemma unit_closure_reached a b :
  cong_inv (pre_of U all) Cg [] D →
  (∀ a b, same D1 a b ∨ same D2 a b ∨ (param_pair D1 D2 a b ∧ a ≠ b) → same D a b) →
  (∀ p, call_pair D p → call_satisfied D p) →
  unit_closure D1 D2 a b → a = b ∨ same D a b.
Proof.
  intros HI Hs Hdone.
  assert (∀ o p, prefix_of D1 o p ∨ prefix_of D2 o p → known D o) as Hk.
  { intros o p Hp. apply HK. destruct Hp as [(i & ? & Hi & _)|(i & ? & Hi & _)]; [left|right]; by exists i. }
  induction 1 as [a b Hab|a b Hab|a b Hab|a|a b _ IH|a b c _ IH1 _ IH2|o o' p p' _ IH Hp Hp' Hm
    |F c o f fi ci a b HF Hfi Hci Ho _ IH Hj].
  - right. auto.
  - right. auto.
  - destruct (decide (a = b)) as [->|]; [by left|right]. auto.
  - by left.
  - destruct IH as [->|IH]; [by left|right]. by apply same_sym.
  - destruct IH1 as [->|IH1]; [done|]. destruct IH2 as [<-|IH2]; [by right|right]. by eapply same_trans.
  - right. eapply inv_congruent; [exact HI| |by apply pre_all..|done].
    destruct IH as [<-|IH]; [|done]. by eapply same_refl, Hk.
  - right. destruct HS as [S1 S2 S3 S4 S5].
    assert (same D F o) as HFo.
    { destruct IH as [<-|IH]; [|done]. apply same_refl. apply (function_known F f). by rewrite S1. }
    assert (call_pair D (F, c)) as Hp.
    { split; [rewrite S1; by exists f|]. exists o. split; [|done]. apply referenced. by exists ci. }
    by apply (Hdone _ Hp f fi ci); simpl; rewrite ?S1, ?S2, ?S3.
Qed.
End result.

(** The pairs that the prefixes of both files ask for. *)
Lemma objects_merged fuel D X :
  num_classes D1 + num_classes D2 ≤ fuel → cong_inv (pre_of U all) Cg (X ++ G) D → joined Cg G U all D X →
  ∃ st D', foldM (λ st p, merge_entries fuel st p.1 p.2) (D, []) X ⇓ st ∧ st.1 = D' ∧
    cong_inv (pre_of U all) Cg [] D' ∧ static U D' ∧ (∀ o, known D' o ↔ known D1 o ∨ known D2 o) ∧
    num_classes D' ≤ num_classes D1 + num_classes D2 ∧
    ∀ a b, same D1 a b ∨ same D2 a b → same D' a b.
Proof.
  intros Hfuel HI HJ. pose proof (jd_num _ _ _ _ _ _ HJ) as Hn. pose proof all_length.
  change (num_classes U) with (num_classes D1) in Hn.
  destruct (merge_entries_ok _ _ unit_congruence fuel G D [] X HI) as (D' & new & Hr & HI' & S & _); [lia|].
  pose proof (step_num _ _ _ S).
  assert (∀ a b, same D1 a b ∨ same D2 a b → same D' a b) as Hsame.
  { intros a b Hab. apply (sp_mono _ _ _ S). destruct Hab as [Hab|(i & Ha & Hb)]; [by apply (jd_mono _ _ _ _ _ _ HJ)|].
    destruct (wf_class _ _ _ Hwf2 Ha) as (E & HE & HaE), (wf_class _ _ _ Hwf2 Hb) as (E' & HE' & HbE).
    assert (E' = E) as -> by congruence.
    apply (jd_done _ _ _ _ _ _ HJ E); [apply elem_of_all; by exists i|done..]. }
  exists (D', [] ++ new), D'. split_and!; [done|done| | | |lia|done].
  - apply (cong_inv_settled _ _ G); [by rewrite app_nil_r|]. intros a b Hab%elem_of_G. auto.
  - etrans; [apply HJ|apply S].
  - intros o. rewrite (sp_known _ _ _ S). by eapply known_U.
Qed.

(** The classes of both files and the pairs they ask for are merged; what is
    left to process are all calls. *)
Lemma merge_containers_ok fuel :
  num_classes D1 + num_classes D2 ≤ fuel →
  ∃ D calls, merge_containers fuel D1 D2 ⇓ (D, calls) ∧ cong_inv (pre_of U all) Cg [] D ∧ static U D ∧
    (∀ o, known D o ↔ known D1 o ∨ known D2 o) ∧ num_classes D ≤ num_classes D1 + num_classes D2 ∧
    (∀ a b, same D1 a b ∨ same D2 a b ∨ (param_pair D1 D2 a b ∧ a ≠ b) → same D a b) ∧
    ∀ p, p ∈ calls ↔ call_pair D p.
Proof.
  intros Hfuel. destruct (merge_infos_ok D1 D2 Hag) as (P & HrP & HP).
  destruct classes_joined as (D & X & Hr & HI & HJ).
  destruct (objects_merged fuel D X Hfuel HI HJ) as (st & D3 & Hr3 & Hst & HI3 & HS3 & HK3 & Hn3 & Hs3).
  destruct (merge_entries_ok _ _ unit_congruence fuel [] D3 [] P) as (D5 & n5 & Hr5 & HI5 & S5 & Hs5); [|lia|].
  { apply cong_inv_pairs; [done|]. intros a b [Hab _]%HP. destruct (param_known a b Hab) as [??].
    rewrite !HK3. split_and!; [by left|by right|]. by apply uc_parameter. }
  exists D5, (foldl (λ l E, GetFunctionsToMerge D5 l E) n5 (list_elems (EquivClasses D5))).
  split_and!; [|done| | | | |].
  - unfold merge_containers. cbn [FunctionMap FunctionInfoMap with_FunctionMap]. rewrite HrP, bind_ret.
    cbn [fst snd]. rewrite !map_emplace_all_union.
    match goal with |- context [foldM merge_class (?S, [])] => change S with U end.
    fold all. rewrite Hr, bind_ret. cbn [fst snd]. rewrite Hr3, bind_ret, Hst, Hr5, bind_ret. done.
  - etrans; [done|apply S5].
  - intros o. by rewrite (sp_known _ _ _ S5).
  - pose proof (step_num _ _ _ S5). lia.
  - intros a b [Hab|[Hab|Hab]]; [apply (sp_mono _ _ _ S5), Hs3; by left|apply (sp_mono _ _ _ S5), Hs3; by right|].
    by apply Hs5, HP.
  - intros p. rewrite all_calls by apply (ci_wf _ _ _ _ HI5). split; [|by right].
    intros [Hp|Hp]; [by apply (sp_new _ _ _ S5)|done].
Qed.
End merge_two.

(** ** The call graph in JSON *)

Section graph.
Context {JO : JsonOps} {JL : JsonLaws}.

(** What is stored for a function: both lists of names, and the other fields. *)
Record json_node := mkJsonNode {
  jn_callees : gset string;
  jn_callers : gset string;
  jn_rest : gmap string json
}.
Definition set_field (m : gmap string json) (k : string) (X : gset string) : Prop :=
  ∃ j, m !! k = Some j ∧ jget_set j ⇓ X.
Definition node_json (v : json) (n : json_node) : Prop :=
  ∃ m, v = jobj m ∧ set_field m "callees" (jn_callees n) ∧ set_field m "callers" (jn_callers n) ∧
    jn_rest n = delete "callers" (delete "callees" m).

Lemma get_field m k X : set_field m k X → get_at jget_set (jobj m) k ⇓ X.
Proof. intros (j & Hj & HX). unfold get_at. by rewrite (jat_obj _ _ _ Hj), bind_ret. Qed.

(** The value [J] is an object with these functions. *)
Definition graph_of (J : json) (M : gmap string json_node) : Prop :=
  ∃ fl, J = jobj fl ∧ ∀ f, match M !! f with
    | Some n => ∃ v, fl !! f = Some v ∧ node_json v n
    | None => fl !! f = None
    end.

Definition with_callees (n : json_node) (X : gset string) : json_node :=
  mkJsonNode X (jn_callers n) (jn_rest n).
Definition with_callers (n : json_node) (X : gset string) : json_node :=
  mkJsonNode (jn_callees n) X (jn_rest n).

Lemma set_callees m n X :
  node_json (jobj m) n → jset (jobj m) "callees" (jof_set X) ⇓ jobj (<["callees" := jof_set X]> m) ∧
    node_json (jobj (<["callees" := jof_set X]> m)) (with_callees n X).
Proof.
  intros (m' & Hm & Hc & (jp & Hp & HP) & Hr). apply jmk_inj in Hm. injection Hm as <-.
  split; [apply jset_obj|]. eexists. split; [done|]. split_and!.
  - exists (jof_set X). rewrite lookup_insert_eq. split; [done|apply jget_set_of].
  - exists jp. by rewrite lookup_insert_ne.
  - simpl. by rewrite Hr, delete_insert_eq.
Qed.

Lemma set_callers m n X :
  node_json (jobj m) n → jset (jobj m) "callers" (jof_set X) ⇓ jobj (<["callers" := jof_set X]> m) ∧
    node_json (jobj (<["callers" := jof_set X]> m)) (with_callers n X).
Proof.
  intros (m' & Hm & (jc & Hc & HC) & Hp & Hr). apply jmk_inj in Hm. injection Hm as <-.
  split; [apply jset_obj|]. eexists. split; [done|]. split_and!.
  - exists jc. by rewrite lookup_insert_ne.
  - exists (jof_set X). rewrite lookup_insert_eq. split; [done|apply jget_set_of].
  - simpl. by rewrite Hr, delete_insert_ne, delete_insert_eq.
Qed.

Lemma graph_of_insert J M f v n fl :
  J = jobj fl → graph_of J M → node_json v n → graph_of (jobj (<[f := v]> fl)) (<[f := n]> M).
Proof.
  intros -> (fl' & Hfl & Hg) Hv. apply jmk_inj in Hfl. injection Hfl as <-. exists (<[f := v]> fl).
  split; [done|]. intros k. destruct (decide (k = f)) as [->|Hk].
  - rewrite !lookup_insert_eq. by exists v.
  - rewrite !lookup_insert_ne by done. apply Hg.
Qed.

(** The callers of [g] get [f], if there is an entry. *)
Definition node_add_caller (f : string) (M : gmap string json_node) (g : string) : gmap string json_node :=
  match M !! g with
  | Some n => <[g := with_callers n ({[f]} ∪ jn_callers n)]> M
  | None => M
  end.

Lemma add_caller_json J M f g :
  graph_of J M →
  ∃ J', add_parent f J g ⇓ J' ∧ graph_of J' (node_add_caller f M g).
Proof.
  intros HG. pose proof HG as (fl & -> & Hg). specialize (Hg g). unfold add_parent, node_add_caller. rewrite jcontains_obj.
  destruct (M !! g) as [n|] eqn:En.
  - destruct Hg as (v & Hv & Hn). rewrite bool_decide_true by by exists v. simpl.
    rewrite (jindex_obj _ _ _ Hv). simpl. pose proof Hn as (m & -> & _ & Hp & _).
    rewrite (get_field _ _ _ Hp), bind_ret.
    destruct (set_callers m n ({[f]} ∪ jn_callers n) Hn) as [Hs Hn'].
    rewrite (jupdate_obj _ _ _ _ _ Hv Hs). eexists. split; [done|]. by eapply graph_of_insert.
  - rewrite Hg, bool_decide_false by (by intros [? [=]]). by exists (jobj fl).
Qed.

(** One caller with all functions called. *)
Definition node_add_calls (gs : list string) (M : gmap string json_node) (f : string) : gmap string json_node :=
  match M !! f with
  | Some n => foldl (node_add_caller f) (<[f := with_callees n (list_to_set gs ∪ jn_callees n)]> M) gs
  | None => M
  end.

Lemma add_calls_json J M f gs :
  graph_of J M → is_Some (M !! f) →
  ∃ J', add_callees gs J f ⇓ J' ∧ graph_of J' (node_add_calls gs M f).
Proof.
  intros HG [n Hn]. pose proof HG as (fl & -> & Hg). specialize (Hg f). unfold add_callees, node_add_calls.
  rewrite Hn in Hg |- *.
  destruct Hg as (v & Hv & Hvn). rewrite (jat_obj _ _ _ Hv), bind_ret.
  pose proof Hvn as (m & -> & Hc & _). rewrite (get_field _ _ _ Hc), bind_ret.
  destruct (set_callees m n (list_to_set gs ∪ jn_callees n) Hvn) as [Hs Hn'].
  rewrite (jupdate_obj _ _ _ _ _ Hv Hs), bind_ret.
  assert (graph_of (jobj (<[f := jobj (<["callees" := jof_set (list_to_set gs ∪ jn_callees n)]> m)]> fl))
    (<[f := with_callees n (list_to_set gs ∪ jn_callees n)]> M)) as HG1 by by eapply graph_of_insert.
  revert HG1. generalize (jobj (<[f := jobj (<["callees" := jof_set (list_to_set gs ∪ jn_callees n)]> m)]> fl)).
  generalize (<[f := with_callees n (list_to_set gs ∪ jn_callees n)]> M). clear -JL.
  induction gs as [|g gs IH]; intros M J HG; [by exists J|]. cbn [foldM foldl].
  destruct (add_caller_json J M f g HG) as (J1 & -> & HG1). rewrite bind_ret. by apply IH.
Qed.

(** Edges, as callees and as callers, and what is added to them. *)
Definition calls (M : gmap string json_node) (f g : string) : Prop :=
  ∃ n, M !! f = Some n ∧ g ∈ jn_callees n.
Definition called (M : gmap string json_node) (g f : string) : Prop :=
  ∃ n, M !! g = Some n ∧ f ∈ jn_callers n.
Record graph_grows (M M' : gmap string json_node) (Ec Ed : relation string) : Prop := {
  gg_rest : ∀ k, jn_rest <$> M' !! k = jn_rest <$> M !! k;
  gg_calls : ∀ f g, calls M' f g ↔ calls M f g ∨ (Ec f g ∧ is_Some (M !! f));
  gg_called : ∀ f g, called M' g f ↔ called M g f ∨ (Ed f g ∧ is_Some (M !! g))
}.

Lemma grows_keys M M' Ec Ed k : graph_grows M M' Ec Ed → is_Some (M' !! k) ↔ is_Some (M !! k).
Proof. intros H. pose proof (gg_rest _ _ _ _ H k) as Hk. by rewrite <- !(fmap_is_Some jn_rest), Hk. Qed.

Lemma grows_refl M : graph_grows M M (λ _ _, False) (λ _ _, False).
Proof. split; [done|..]; intros; tauto. Qed.

Lemma grows_trans M1 M2 M3 Ec1 Ed1 Ec2 Ed2 (Ec Ed : relation string) :
  graph_grows M1 M2 Ec1 Ed1 → graph_grows M2 M3 Ec2 Ed2 →
  (∀ f g, Ec f g ↔ Ec1 f g ∨ Ec2 f g) → (∀ f g, Ed f g ↔ Ed1 f g ∨ Ed2 f g) →
  graph_grows M1 M3 Ec Ed.
Proof.
  intros H1 H2 Hc Hd. pose proof (λ k, grows_keys _ _ _ _ k H1) as Hk. destruct H1 as [A1 A2 A3], H2 as [B1 B2 B3].
  split.
  - intros k. by rewrite B1.
  - intros f g. rewrite B2, A2, Hk, Hc. tauto.
  - intros f g. rewrite B3, A3, Hk, Hd. tauto.
Qed.

Lemma ex_Some {A} (a : A) (P : A → Prop) : (∃ x, Some a = Some x ∧ P x) ↔ P a.
Proof. split; [by intros (x & [= <-] & ?)|by exists a]. Qed.

Lemma add_caller_grows f M g : graph_grows M (node_add_caller f M g) (λ _ _, False) (λ f' g', f' = f ∧ g' = g).
Proof.
  unfold node_add_caller. destruct (M !! g) as [n|] eqn:En.
  - split.
    + intros k. destruct (decide (k = g)) as [->|]; [by rewrite lookup_insert_eq, En|by rewrite lookup_insert_ne].
    + intros f' g'. unfold calls. destruct (decide (f' = g)) as [->|].
      * rewrite lookup_insert_eq, En, !ex_Some. simpl. tauto.
      * rewrite lookup_insert_ne by done. tauto.
    + intros f' g'. unfold called. destruct (decide (g' = g)) as [->|].
      * rewrite lookup_insert_eq, En, !ex_Some. simpl. rewrite elem_of_union, elem_of_singleton.
        pose proof (mk_is_Some (Some n) n eq_refl). tauto.
      * rewrite lookup_insert_ne by done. naive_solver.
  - split; [done|intros; tauto|]. intros f' g'. split; [by left|].
    intros [?|[[-> ->] [n Hn]]]; [done|]. congruence.
Qed.

Lemma add_callers_grows f gs M :
  graph_grows M (foldl (node_add_caller f) M gs) (λ _ _, False) (λ f' g', f' = f ∧ g' ∈ gs).
Proof.
  revert M. induction gs as [|g gs IH]; intros M; simpl.
  - eapply grows_trans; [apply grows_refl..|tauto|]. intros. rewrite elem_of_nil. tauto.
  - eapply grows_trans; [apply add_caller_grows|apply IH|tauto|]. intros. simpl. rewrite elem_of_cons. tauto.
Qed.

Lemma add_calls_grows gs M f :
  is_Some (M !! f) →
  graph_grows M (node_add_calls gs M f) (λ f' g', f' = f ∧ g' ∈ gs) (λ f' g', f' = f ∧ g' ∈ gs).
Proof.
  intros [n Hn]. unfold node_add_calls. rewrite Hn.
  eapply (grows_trans _ _ _ (λ f' g', f' = f ∧ g' ∈ gs) (λ _ _, False)); [|apply add_callers_grows|tauto..].
  split.
  - intros k. destruct (decide (k = f)) as [->|]; [by rewrite lookup_insert_eq, Hn|by rewrite lookup_insert_ne].
  - intros f' g'. unfold calls. destruct (decide (f' = f)) as [->|].
    + rewrite lookup_insert_eq, Hn, !ex_Some. simpl. rewrite elem_of_union, elem_of_list_to_set.
      pose proof (mk_is_Some (Some n) n eq_refl). tauto.
    + rewrite lookup_insert_ne by done. naive_solver.
  - intros f' g'. unfold called. destruct (decide (g' = f)) as [->|].
    + rewrite lookup_insert_eq, Hn, !ex_Some. simpl. tauto.
    + rewrite lookup_insert_ne by done. tauto.
Qed.

Lemma addCallToCallGraph_json_ok D a b i i' J M :
  graph_of J M → FunctionInfoMap D !! a = Some i → FunctionInfoMap D !! b = Some i' →
  (∀ f, f ∈ MangledNames i → is_Some (M !! f)) →
  let E f g := f ∈ MangledNames i ∧ g ∈ MangledNames i' in
  ∃ J' M', addCallToCallGraph_json D a b J ⇓ J' ∧ graph_of J' M' ∧ graph_grows M M' E E.
Proof.
  intros HG Ha Hb Hin E. unfold E, addCallToCallGraph_json. rewrite Ha, Hb. clear Ha Hb E.
  revert J M HG Hin. induction (MangledNames i) as [|f fs IH]; intros J M HG Hin.
  { exists J, M. split_and!; [done..|]. eapply grows_trans; [apply grows_refl..| |];
      intros; rewrite elem_of_nil; tauto. }
  cbn [foldM].
  destruct (add_calls_json J M f (MangledNames i') HG) as (J1 & -> & HG1); [apply Hin; left|].
  assert (is_Some (M !! f)) as Hf by (apply Hin; left). pose proof (add_calls_grows (MangledNames i') M f Hf) as Hg1.
  rewrite bind_ret. destruct (IH J1 _ HG1) as (J2 & M2 & -> & HG2 & Hg2).
  { intros g Hg. rewrite (grows_keys _ _ _ _ _ Hg1). apply Hin. by right. }
  exists J2, M2. split_and!; [done..|]. eapply grows_trans; [exact Hg1|exact Hg2|..];
    intros; simpl; rewrite elem_of_cons; tauto.
Qed.

(** ** Processing calls *)

Definition parent_of (D : EquivClassContainer) (c : string) : string :=
  default EmptyString (CallExprParentMap D !! c).
(** The names of the edges that a call asks for. *)
Definition call_names (D : EquivClassContainer) (p : string * string) (f g : string) : Prop :=
  ∃ F i i', FunctionMap D !! p.1 = Some F ∧ FunctionInfoMap D !! parent_of D p.2 = Some i ∧
    FunctionInfoMap D !! F = Some i' ∧ f ∈ MangledNames i ∧ g ∈ MangledNames i'.
Definition names_of (D : EquivClassContainer) (dn : list (string * string)) (f g : string) : Prop :=
  ∃ p, p ∈ dn ∧ call_names D p f g.

Lemma call_names_static D D' p f g : static D D' → call_names D' p f g ↔ call_names D p f g.
Proof.
  intros HS. unfold call_names, parent_of. by rewrite (static_parent _ _ _ HS), (st_functions _ _ HS), (st_infos _ _ HS).
Qed.

(** The calls [dn] have been processed, the calls [todo] are still to be. *)
Record g_step (dn todo : list (string * string)) (D : EquivClassContainer) (M : gmap string json_node)
    (D' : EquivClassContainer) (M' : gmap string json_node) : Prop := {
  gs_static : static D D';
  gs_known : ∀ o, known D' o ↔ known D o;
  gs_mono : ∀ a b, same D a b → same D' a b;
  gs_num : num_classes D' ≤ num_classes D;
  gs_pairs : ∀ p, call_pair D' p → call_pair D p ∨ p ∈ dn ∨ p ∈ todo;
  gs_done : ∀ p, p ∈ dn → call_pair D' p ∧ call_satisfied D' p;
  gs_graph : graph_grows M M' (names_of D dn) (names_of D dn)
}.

Lemma names_of_nil D f g : ¬ names_of D [] f g.
Proof. by intros (p & ?%elem_of_nil & _). Qed.

Lemma grows_ext M M' (E E' : relation string) :
  (∀ f g, E' f g ↔ E f g) → graph_grows M M' E E → graph_grows M M' E' E'.
Proof. intros HE [H1 H2 H3]. split; [done|..]; intros f g; rewrite HE; auto. Qed.

Lemma g_step_refl D M : g_step [] [] D M D M.
Proof.
  split; [done|done|done|lia| | |].
  - intros p Hp. by left.
  - by intros p ?%elem_of_nil.
  - eapply grows_ext; [|apply grows_refl]. intros f g. pose proof (names_of_nil D f g). simpl. tauto.
Qed.

Lemma names_of_app D D' dn1 dn2 f g :
  static D D' → names_of D (dn1 ++ dn2) f g ↔ names_of D dn1 f g ∨ names_of D' dn2 f g.
Proof.
  intros HS. unfold names_of. setoid_rewrite elem_of_app. split.
  - intros (p & [?|?] & ?); [left|right]; exists p; [done|]. by rewrite (call_names_static D D').
  - intros [(p & ? & ?)|(p & ? & Hn)]; exists p; [by auto|]. rewrite (call_names_static D D') in Hn by done. auto.
Qed.

Lemma call_satisfied_static D D' p :
  static D D' → (∀ a b, same D a b → same D' a b) → call_satisfied D p → call_satisfied D' p.
Proof. intros [S1 S2 S3 _ _] Hm H f fi ci a b. rewrite S1, S2, S3. intros. apply Hm. by eapply H. Qed.

Lemma g_step_trans dn1 dn2 todo D1 M1 D2 M2 D3 M3 :
  g_step dn1 todo D1 M1 D2 M2 → g_step dn2 [] D2 M2 D3 M3 → (∀ p, p ∈ todo → p ∈ dn2) →
  g_step (dn1 ++ dn2) [] D1 M1 D3 M3.
Proof.
  intros [A1 A2 A3 A4 A5 A6 A7] [B1 B2 B3 B4 B5 B6 B7] Ht. split.
  - by transitivity D2.
  - intros o. by rewrite B2.
  - auto.
  - lia.
  - intros p [Hp|[Hp|?%elem_of_nil]]%B5; [|right; left; set_solver|done].
    destruct (A5 p Hp) as [?|[?|?]]; [by left|right; left; set_solver|right; left; set_solver].
  - intros p [Hp|Hp]%elem_of_app; [|by apply B6]. destruct (A6 p Hp) as [??]. split.
    + by eapply call_pair_mono.
    + by eapply call_satisfied_static.
  - eapply grows_trans; [exact A7|exact B7|..]; intros f g; by apply names_of_app.
Qed.

Section process.
Context (pre : string → Prefix → Prop) (Cg : relation string).
Hypothesis HCg : congruence pre Cg.

Record g_inv (D : EquivClassContainer) (M : gmap string json_node) : Prop := {
  gi_cong : cong_inv pre Cg [] D;
  gi_data : call_data_ok D;
  gi_closed : call_closed D Cg;
  gi_parents : ∀ c ci, CallInfoMap D !! c = Some ci → ∃ i, FunctionInfoMap D !! parent_of D c = Some i ∧
    ∀ f, f ∈ MangledNames i → is_Some (M !! f)
}.

Lemma g_inv_step dn todo D M D' M' :
  g_inv D M → g_step dn todo D M D' M' → cong_inv pre Cg [] D' → g_inv D' M'.
Proof.
  intros [H1 H2 H3 H4] [S1 S2 S3 S4 S5 S6 S7] HI. split; [done| | |].
  - by eapply call_data_ok_mono.
  - by eapply call_closed_static.
  - intros c ci. unfold parent_of. rewrite (static_parent _ _ _ S1), (st_calls _ _ S1), (st_infos _ _ S1). intros Hc.
    destruct (H4 c ci Hc) as (i & Hi & Hin). exists i. split; [done|]. intros f Hf.
    rewrite (grows_keys _ _ _ _ _ S7). by apply Hin.
Qed.

Definition call_ok (fuel : nat) : Prop := ∀ D J M p,
  g_inv D M → graph_of J M → call_pair D p → num_classes D < fuel →
  ∃ D' J' M' dn, mergeFunctionCall_json fuel (D, J) p.1 p.2 ⇓ (D', J') ∧ g_inv D' M' ∧ graph_of J' M' ∧
    g_step dn [] D M D' M' ∧ p ∈ dn.

Lemma process_calls fuel todo D J M :
  call_ok fuel → g_inv D M → graph_of J M → Forall (call_pair D) todo → num_classes D < fuel →
  ∃ D' J' M' dn, foldM (λ st p, mergeFunctionCall_json fuel st p.1 p.2) (D, J) todo ⇓ (D', J') ∧
    g_inv D' M' ∧ graph_of J' M' ∧ g_step dn [] D M D' M' ∧ ∀ p, p ∈ todo → p ∈ dn.
Proof.
  intros Hcall. revert D J M. induction todo as [|p todo IH]; intros D J M HD HG Ht Hf; cbn [foldM].
  { exists D, J, M, []. split_and!; [done..|apply g_step_refl|by intros ? ?%elem_of_nil]. }
  apply Forall_cons in Ht as [Hp Ht].
  destruct (Hcall D J M p HD HG Hp Hf) as (D1 & J1 & M1 & dn1 & -> & HD1 & HG1 & S1 & Hp1). rewrite bind_ret.
  pose proof (gs_num _ _ _ _ _ _ S1).
  destruct (IH D1 J1 M1) as (D2 & J2 & M2 & dn2 & -> & HD2 & HG2 & S2 & Ht2); [done..| |lia|].
  { eapply Forall_impl; [done|]. intros q. apply call_pair_mono; apply S1. }
  exists D2, J2, M2, (dn1 ++ dn2). split_and!; [done..| |].
  - eapply g_step_trans; [done..|by intros ? ?%elem_of_nil].
  - set_solver.
Qed.

Lemma mergeFunctionCall_json_ok fuel : call_ok fuel.
Proof.
  induction fuel as [|fuel IH]; intros D J M p HD HG Hp Hf; [lia|]. cbn [mergeFunctionCall_json fst snd].
  destruct (mergeFunctionCall_ok pre Cg HCg (S fuel) D p) as (D1 & new & F & HF & Hr & HI & HS & Hsat);
    [apply HD..|done|lia|].
  rewrite Hr, bind_ret. cbn [fst snd]. fold (parent_of D p.2).
  pose proof Hp as [_ (o & Ho & _)]. destruct (cd_refs _ (gi_data _ _ HD) o p.2 Ho) as [ci Hci].
  destruct (gi_parents _ _ HD p.2 ci Hci) as (i & Hi & Hin).
  destruct (cd_function _ (gi_data _ _ HD) p.1 F HF) as [i' Hi'].
  pose proof (sp_static _ _ _ HS) as Hst.
  destruct (addCallToCallGraph_json_ok D1 (parent_of D p.2) F i i' J M HG) as (J1 & M1 & -> & HG1 & Hg1);
    [by rewrite (st_infos _ _ Hst)..|done|].
  rewrite bind_ret.
  assert (g_step [p] new D M D1 M1) as S1.
  { split; [done|apply HS|apply HS|by apply step_num in HS| | |].
    - intros q [?|?]%(sp_pairs _ _ _ HS); auto.
    - intros q ->%list_elem_of_singleton. split; [|done]. by eapply call_pair_mono; [|apply HS|].
    - eapply grows_ext; [|exact Hg1]. intros f g. split.
      + intros (q & ->%list_elem_of_singleton & F' & j & j' & ? & ? & ? & ?). by simplify_eq.
      + intros [??]. exists p. split; [left|]. by exists F, i, i'. }
  assert (g_inv D1 M1) as HD1 by by eapply g_inv_step.
  destruct (sp_num _ _ _ HS) as [[_ ->]|Hlt].
  { exists D1, J1, M1, [p]. split_and!; [done..|left]. }
  destruct (process_calls fuel new D1 J1 M1) as (D2 & J2 & M2 & dn & -> & HD2 & HG2 & S2 & Ht);
    [done..|apply Forall_forall, HS|lia|].
  exists D2, J2, M2, ([p] ++ dn). split_and!; [done..| |left]. by eapply g_step_trans.
Qed.
End process.

(** The functions with calls are in the call graph. *)
Definition callers_listed (D : EquivClassContainer) (M : gmap string json_node) : Prop :=
  ∀ c f i, CallExprParentMap D !! c = Some f → FunctionInfoMap D !! f = Some i →
    Forall (λ n, is_Some (M !! n)) (MangledNames i).

(** The invariant holds when all classes have been merged. *)
Lemma united_g_inv pre D1 D2 D M :
  file_ok D1 → file_ok D2 → infos_agree D1 D2 → callers_listed D1 M → callers_listed D2 M →
  cong_inv pre (unit_closure D1 D2) [] D → static (united D1 D2) D →
  (∀ o, known D o ↔ known D1 o ∨ known D2 o) → g_inv pre (unit_closure D1 D2) D M.
Proof.
  intros H1 H2 Hag HC1 HC2 HI HS HK.
  split; [done|exact (united_data D1 D2 H1 H2 D HS HK)|by apply united_closed|]. intros c ci Hc.
  pose proof Hc as Hc'. rewrite (st_calls _ _ HS) in Hc'.
  destruct (united_call_parent D1 D2 H1 H2 c ci Hc') as [f Hf].
  rewrite <- (united_parents_eq D1 D2 H1 H2 D HS) in Hf. unfold parent_of. rewrite Hf. simpl.
  destruct (united_caller D1 D2 H1 H2 Hag D HS (λ n, is_Some (M !! n)) c f HC1 HC2 Hf) as (i & Hi & Hin).
  exists i. split; [done|]. by apply Forall_forall.
Qed.

(** The edges of the calls of a class with a function of the class. *)
Definition class_edges (D : EquivClassContainer) (f g : string) : Prop :=
  ∃ p, call_pair D p ∧ call_names D p f g.

(** What the merged data of two files is. *)
Record data_joined (D1 D2 D : EquivClassContainer) : Prop := {
  dj_ok : file_ok D;
  dj_static : static (united D1 D2) D;
  dj_known : ∀ o, known D o ↔ known D1 o ∨ known D2 o;
  dj_same : ∀ a b, same D a b ↔ known D a ∧ known D b ∧ unit_closure D1 D2 a b
}.

Lemma mergeEquivalenceClasses_ok D1 D2 File2 J M fuel :
  file_ok D1 → file_ok D2 → infos_agree D1 D2 → container_fromJson File2 ⇓ D2 →
  graph_of J M → callers_listed D1 M → callers_listed D2 M →
  num_classes D1 + num_classes D2 < fuel →
  ∃ D J' M', mergeEquivalenceClasses fuel D1 File2 J ⇓ (D, J') ∧ data_joined D1 D2 D ∧
    num_classes D ≤ num_classes D1 + num_classes D2 ∧
    graph_of J' M' ∧ graph_grows M M' (class_edges D) (class_edges D).
Proof.
  intros H1 H2 Hag HJ HG HC1 HC2 Hf. unfold mergeEquivalenceClasses. rewrite HJ, bind_ret.
  destruct (merge_containers_ok D1 D2 H1 H2 Hag fuel) as (D3 & todo & -> & HI & HS & HK & Hn & Hs & Ht); [lia|].
  rewrite bind_ret. cbn [fst snd].
  set (pre := pre_of (united D1 D2) (list_elems (EquivClasses D2))) in *.
  pose proof (unit_congruence D1 D2 H2) as HCg. fold pre in HCg.
  assert (g_inv pre (unit_closure D1 D2) D3 M) as HD3 by by apply united_g_inv.
  destruct (process_calls pre (unit_closure D1 D2) HCg fuel todo D3 J M) as (D & J' & M' & dn & Hr & HD & HG' & S & Hdn);
    [by apply mergeFunctionCall_json_ok|done|done| |lia|].
  { apply Forall_forall. intros p. apply Ht. }
  assert (static (united D1 D2) D) as HSD by (etrans; [done|apply S]).
  assert (∀ o, known D o ↔ known D1 o ∨ known D2 o) as HKD by (intros o; by rewrite (gs_known _ _ _ _ _ _ S)).
  assert (∀ p, p ∈ dn ↔ call_pair D p) as Hpairs.
  { intros p. split; [apply (gs_done _ _ _ _ _ _ S)|].
    intros [Hp|[?|?%elem_of_nil]]%(gs_pairs _ _ _ _ _ _ S); [by apply Hdn, Ht|done|done]. }
  pose proof (gi_cong _ _ _ _ HD) as HID.
  exists D, J', M'. split_and!; [done| | |done|].
  - split; [|done|done|].
    + apply (united_file_ok D1 D2 H1 H2 Hag D HSD HKD). by eapply inv_container.
    + intros a b. split.
      * intros Hab. destruct (same_known _ _ _ Hab). split_and!; [done..|]. by apply (ci_sound _ _ _ _ HID).
      * intros (Ha & Hb & Hab).
      destruct (unit_closure_reached D1 D2 H1 H2 D HSD HKD a b) as [<-|?]; [done| | |done|by apply same_refl|done].
        -- intros x y Hxy. apply (gs_mono _ _ _ _ _ _ S). auto.
        -- intros p Hp%Hpairs. by apply (gs_done _ _ _ _ _ _ S).
  - pose proof (gs_num _ _ _ _ _ _ S). lia.
  - eapply grows_ext; [|apply (gs_graph _ _ _ _ _ _ S)]. intros f g. unfold class_edges, names_of.
    split; intros (p & Hp & Hc); exists p; (split; [by apply Hpairs|]);
      by apply (call_names_static D3 D p f g (gs_static _ _ _ _ _ _ S)).
Qed.

(** C9: Merging the alias data of two files.  If the data of both files is
    consistent and they agree about the functions that both know, the merge
    returns with more fuel than there are classes; the result is consistent
    again, so that the next file can be merged.  Its classes are those of the
    least relation that contains the classes and the corresponding parameters of
    both files and is closed under prefixes and calls, and the call graph gets
    exactly the edges of calls that this relation joins with a function, as
    callees and as callers; no other field of a function changes. *)
Theorem mergeEquivalenceClasses_correct D1 D2 File2 J M fuel :
  file_ok D1 → file_ok D2 → infos_agree D1 D2 → container_fromJson File2 ⇓ D2 →
  graph_of J M → callers_listed D1 M → callers_listed D2 M →
  num_classes D1 + num_classes D2 < fuel →
  ∃ D J' M', mergeEquivalenceClasses fuel D1 File2 J ⇓ (D, J') ∧
    file_ok D ∧ static (united D1 D2) D ∧ callers_listed D M' ∧
    (∀ o, known D o ↔ known D1 o ∨ known D2 o) ∧
    (∀ a b, same D a b ↔ known D a ∧ known D b ∧ unit_closure D1 D2 a b) ∧
    graph_of J' M' ∧ graph_grows M M' (class_edges D) (class_edges D).
Proof.
  intros H1 H2 Hag HJ HG HC1 HC2 Hf.
  destruct (mergeEquivalenceClasses_ok D1 D2 File2 J M fuel) as (D & J' & M' & Hr & [Hok HS HK Hs] & _ & HG' & Hg);
    [done..|].
  exists D, J', M'. split_and!; [done..| |done|done|done|done]. intros c f i Hc Hi.
  destruct (united_caller D1 D2 H1 H2 Hag D HS (λ n, is_Some (M !! n)) c f HC1 HC2 Hc) as (j & Hj & Hin).
  simplify_eq. eapply Forall_impl; [done|]. intros n. by rewrite (grows_keys _ _ _ _ _ Hg).
Qed.
End graph.

(** ** Data that has been merged before *)

Definition calls_referenced (D : EquivClassContainer) : Prop :=
  ∀ o c, c ∈ default [] (ReferencedInCalls D !! o) → ∃ ci, CallInfoMap D !! c = Some ci ∧ o ∈ CalledObjects ci.

Lemma joined_referenced D1 D2 D : static (united D1 D2) D → calls_referenced D.
Proof. intros HS o c Hc. rewrite (st_calls _ _ HS). by apply (referenced D1 D2 D HS). Qed.

(** The edges of the first file are edges of the result. *)
Lemma class_edges_first D1 D2 D f g :
  file_ok D1 → file_ok D2 → calls_referenced D1 → data_joined D1 D2 D → class_edges D1 f g → class_edges D f g.
Proof.
  intros H1 H2 HR [_ HS HK Hs] (p & [[F HF] (o & Ho & Hso)] & F' & i & i' & HF' & Hi & Hi' & Hf & Hg).
  assert (F' = F) as -> by congruence. destruct (HR o p.2 Ho) as (ci & Hci & Hoc).
  assert (∀ n j, FunctionInfoMap D1 !! n = Some j →
    ∃ j', FunctionInfoMap D !! n = Some j' ∧ MangledNames j' = MangledNames j) as Hinfo.
  { intros n j Hj. rewrite (st_infos _ _ HS). simpl. rewrite lookup_union_with, Hj.
    destruct (FunctionInfoMap D2 !! n); eexists; (split; [reflexivity|]); [|done].
    unfold union_info. by destruct (decide _). }
  destruct (fo_call _ H1 p.2 ci Hci) as (_ & _ & [q Hq]).
  destruct (Hinfo _ _ Hi) as (j & Hj & Ej), (Hinfo _ _ Hi') as (j' & Hj' & Ej').
  assert (FunctionMap D !! p.1 = Some F) as HFD by (rewrite (st_functions _ _ HS); by apply lookup_union_Some_l).
  exists p. split; [split|].
  - by exists F.
  - exists o. split.
    + apply (referenced D1 D2 D HS). exists ci. split; [|done]. by apply lookup_union_Some_l.
    + destruct (same_known _ _ _ Hso). apply Hs. rewrite !HK. split_and!; [by left..|by apply uc_first].
  - exists F, j, j'. rewrite Ej, Ej'. split_and!; [done| |done..]. rewrite <- Hj. f_equal. unfold parent_of.
    rewrite (united_parents_eq D1 D2 H1 H2 D HS), Hq. simpl. by rewrite (lookup_union_Some_l _ _ _ _ Hq).
Qed.

(** ** Files *)

Lemma reread_elems D : classes_wf D → list_elems (EquivClasses (reread D)) = list_elems (EquivClasses D).
Proof.
  intros Hwf. apply list_eq. intros i. apply option_eq. intros E.
  rewrite (class_cell (reread D) (reread_wf D Hwf)).
  destruct (list_of_spec (list_elems (EquivClasses D))) as (Ho & _).
  change (order (EquivClasses (reread D))) with (order (list_of (list_elems (EquivClasses D)))).
  rewrite Ho. setoid_rewrite reread_cells. split.
  - intros (k & [-> _]%lookup_seq & HE). done.
  - intros HE. exists i. split; [|done]. apply lookup_seq. split; [done|]. by eapply lookup_lt_Some.
Qed.

Lemma reread_file_ok D : file_ok D → file_ok (reread D).
Proof.
  intros [[H1 H2 H3] H4 H5 H6 H7].
  pose proof (reread_known D H1) as Hk. pose proof (reread_same D H1) as Hs. pose proof (reread_prefix D H1) as Hp.
  assert (∀ l, Forall (known D) l → Forall (known (reread D)) l) as Hl.
  { intros l Hl. eapply Forall_impl; [done|]. intros o. apply Hk. }
  split.
  - split; [by apply reread_wf|..].
    + intros o p Hop%Hp. by eapply Hk, H2.
    + intros o p q Hop%Hp Hoq%Hp Hm. by eapply Hs, H3.
  - intros o f Ho. rewrite Hk. by apply H4.
  - intros f fi Hf. destruct (H5 f fi Hf). auto.
  - intros c ci Hc. destruct (H6 c ci Hc) as (? & HA & ?). rewrite Hk. split_and!; [done| |done].
    eapply Forall_impl; [done|]. auto.
  - apply H7.
Qed.

(** C32: Reading the data of the alias analysis back from the JSON that was
    written gives a consistent container with the same classes in the same
    order, with the same objects, prefixes and maps; the calls of an object are
    those that name it. *)
Theorem alias_data_roundtrip {JO : JsonOps} {JL : JsonLaws} D :
  file_ok D →
  ∃ D', container_fromJson (container_toJson D) ⇓ D' ∧ file_ok D' ∧
    list_elems (EquivClasses D') = list_elems (EquivClasses D) ∧
    (∀ o, known D' o ↔ known D o) ∧ (∀ a b, same D' a b ↔ same D a b) ∧
    (∀ o p, prefix_of D' o p ↔ prefix_of D o p) ∧
    FunctionMap D' = FunctionMap D ∧ FunctionInfoMap D' = FunctionInfoMap D ∧
    CallInfoMap D' = CallInfoMap D ∧ CallExprParentMap D' = CallExprParentMap D ∧
    ∀ o c, c ∈ default [] (ReferencedInCalls D' !! o) ↔
      ∃ ci, CallInfoMap D !! c = Some ci ∧ o ∈ CalledObjects ci.
Proof.
  intros HD. pose proof (co_wf _ (fo_container _ HD)) as Hwf. exists (reread D).
  split_and!; [apply container_fromJson_toJson|by apply reread_file_ok|by apply reread_elems
    |by apply reread_known|by apply reread_same|by apply reread_prefix|done..|].
  intros o c. unfold reread. by rewrite InitReferencedInCalls_spec.
Qed.

(** ** Consistency can be computed *)

Lemma same_alt D a b : same D a b ↔ is_Some (FindMap D !! a) ∧ FindMap D !! a = FindMap D !! b.
Proof.
  split; [by intros (i & -> & ->)|]. intros [[i Hi] Hab]. exists i. split; congruence.
Qed.
#[export] Instance same_dec D a b : Decision (same D a b).
Proof.
  destruct (decide (is_Some (FindMap D !! a) ∧ FindMap D !! a = FindMap D !! b)) as [H|H];
    [left|right]; by rewrite same_alt.
Defined.

Definition file_check (D : EquivClassContainer) : Prop :=
  let cl := EquivClasses D in
  let known_all := Forall (λ o, is_Some (FindMap D !! o)) in
  NoDup (order cl) ∧ Forall (λ i, is_Some (cells cl !! i)) (order cl) ∧
  map_Forall (λ i C, i ∈ order cl ∧ i < next_cell cl ∧ Objects C ≠ [] ∧
    Forall (λ o, FindMap D !! o = Some i) (Objects C) ∧
    Forall (λ p, is_Some (FindMap D !! pf_Object p)) (Prefixes C) ∧
    Forall (λ p, Forall (λ q, pf_Member p = pf_Member q → same D (pf_Object p) (pf_Object q)) (Prefixes C))
      (Prefixes C)) (cells cl) ∧
  map_Forall (λ o i, o ∈ default [] (Objects <$> cells cl !! i)) (FindMap D) ∧
  map_Forall (λ o f, is_Some (FindMap D !! o) ∧ is_Some (FunctionInfoMap D !! f)) (FunctionMap D) ∧
  map_Forall (λ _ fi, known_all (Parameters_ fi) ∧ known_all (ReferencedInReturnStmts fi)) (FunctionInfoMap D) ∧
  map_Forall (λ c ci, is_Some (FindMap D !! c) ∧ Forall (λ l, known_all l) (Arguments_ ci) ∧
    is_Some (CallExprParentMap D !! c)) (CallInfoMap D) ∧
  map_Forall (λ _ f, is_Some (FunctionInfoMap D !! f)) (CallExprParentMap D).

#[export] Instance file_check_dec D : Decision (file_check D).
Proof. unfold file_check. cbv zeta. apply _. Defined.

Lemma file_check_ok D : file_check D → file_ok D.
Proof.
  intros (Hnd & Hord & Hcl & Hfind & Hfun & Hinfo & Hcall & Hpar). rewrite Forall_forall in Hord.
  assert (classes_wf D) as Hwf.
  { split; [|done|..].
    - intros i. split; [apply Hord|]. intros [C HC]. by destruct (Hcl i C HC).
    - intros i [C HC]. by destruct (Hcl i C HC) as (_ & ? & _).
    - intros i C HC. by destruct (Hcl i C HC) as (_ & _ & ? & _).
    - intros o i. split.
      + intros Ho. specialize (Hfind o i Ho). revert Hfind. cbn beta.
        destruct (cells_of D !! i) as [C|]; simpl; [intros Hin; by exists C|by intros ?%elem_of_nil].
      + intros (C & HC & Ho). destruct (Hcl i C HC) as (_ & _ & _ & Hall & _).
        rewrite Forall_forall in Hall. auto. }
  split; [split; [done|..]| | | |].
  - intros o p (i & C & _ & HC & Hp). destruct (Hcl i C HC) as (_ & _ & _ & _ & Hall & _).
    rewrite Forall_forall in Hall. by destruct (Hall p Hp) as [k Hk]; exists k.
  - intros o p q (i & C & Hi & HC & Hp) (j & C' & Hj & HC' & Hq) Hm.
    assert (j = i) as -> by congruence. assert (C' = C) as -> by congruence.
    destruct (Hcl i C HC) as (_ & _ & _ & _ & _ & Hall). rewrite Forall_forall in Hall.
    specialize (Hall p Hp). rewrite Forall_forall in Hall. auto.
  - intros o f. apply Hfun.
  - intros f fi. apply Hinfo.
  - intros c ci. apply Hcall.
  - intros c f. apply Hpar.
Qed.
