(* ===== verification/CollectorMergeTwo.v ===== *)
(** * Merging files of format 2

    [cgcollector/tools/CGMerge.cpp]: [mergeFileFormatTwo] and the program that
    chooses between the formats.  [CollectorMerge] has the parts about bodies,
    loop depths and callers, [AliasMerge] that about the data of the alias
    analysis; here are the call counts and the whole.  Floating point numbers in
    JSON are a parameter.

    For files without loop depths and call counts, the result is the union of the
    files with the calls that the merged alias data finds: the functions are
    merged as in format 1, the data as [AliasMergeResult] says. *)

From Stdlib Require Import Floats.SpecFloat.
From S2P Require Import Prelude Json Collector CollectorProps CallDepth CollectorMerge CollectorMergeProps.
From S2P Require Import AliasNames AliasClasses AliasWf AliasMerge AliasMergeResult.

(** [get<double>()] and the value of a [double]. *)
Class JsonDouble {JO : JsonOps} := {
  jget_double : json → outcome spec_float;
  jdouble : spec_float → json
}.

Section two.
Context {JO : JsonOps} {JD : JsonDouble} {IO : IterOrder}.

(** ** Call counts

    [std::set<std::pair<double, std::string>>], a sorted list; the numbers are
    not NaN, for which the order of pairs is none. *)
Abbreviation count := (spec_float * string)%type.
Definition count_ltb (a b : count) : bool :=
  SFltb a.1 b.1 || (negb (SFltb b.1 a.1) && String.ltb a.2 b.2).
Fixpoint count_insert (x : count) (l : list count) : list count :=
  match l with
  | [] => [x]
  | y :: l' =>
      if count_ltb x y then x :: l
      else if count_ltb y x then y :: count_insert x l' else l
  end.
Definition jget_count (e : json) : outcome count :=
  match jview e with
  | VArr (a :: l) =>
      d ← jget_double a;
      match l with b :: _ => s ← jget_string b; Ret (d, s) | [] => Throw json_out_of_range end
  | VArr [] => Throw json_out_of_range
  | _ => Throw json_type_error
  end.
Definition jget_counts (j : json) : outcome (list count) :=
  match jview j with
  | VArr l => foldM (λ s e, c ← jget_count e; Ret (count_insert c s)) [] l
  | _ => Throw json_type_error
  end.
Definition jof_counts (l : list count) : json := jarr ((λ c, jarr [jdouble c.1; jstr c.2]) <$> l).

Definition merge_region (ccodeRegions : json) (e : string * json) : outcome json :=
  let '(regionName, region) := e in
  if jcontains ccodeRegions regionName then
    jupdate ccodeRegions regionName (λ it,
      ccodeRegionFunctions ← field_set it "functions";
      f ← jindex_const region "functions";
      vcodeRegionFunctions ← jget_set f;
      jset it "functions" (jof_set (ccodeRegionFunctions ∪ vcodeRegionFunctions)))
  else jset ccodeRegions regionName region.

Definition merge_counts (ccalls : json) (e : string * json) : outcome json :=
  let '(functionName, functionInfo) := e in
  if jcontains ccalls functionName then
    jupdate ccalls functionName (λ it,
      cfunctioninfo ← jget_counts it;
      vfunctionInfo ← jget_counts functionInfo;
      Ret (jof_counts (foldl (λ s x, count_insert x s) cfunctioninfo vfunctionInfo)))
  else jset ccalls functionName functionInfo.

Definition merge_call_counts (c v : json) : outcome json :=
  c ← jupdate c "meta" Ret;
  cMeta ← jindex c "meta";
  vMeta ← jindex v "meta";
  if negb (jcontains cMeta "estimateCallCount") && jcontains vMeta "estimateCallCount"
  then copy_meta c v "estimateCallCount"
  else if jcontains cMeta "estimateCallCount" && jcontains vMeta "estimateCallCount" then
    vCounts ← jindex vMeta "estimateCallCount";
    vcalls ← jindex vCounts "calls";
    vcodeRegions ← jindex vCounts "codeRegions";
    jupdate c "meta" (λ meta, jupdate meta "estimateCallCount" (λ counts,
      counts ← jupdate counts "codeRegions" (λ r, foldM merge_region r (jitems vcodeRegions));
      jupdate counts "calls" (λ r, foldM merge_counts r (jitems vcalls))))
  else Ret c.

(** ** The functions of a file *)

Definition merge_function_two (st : json * bool) (e : string * json) : outcome (json * bool) :=
  let '(wholeCG, hasLoopInfo) := st in
  let '(key, v) := e in
  c ← jindex wholeCG key;
  if jempty c then wholeCG ← jset wholeCG key v; Ret (wholeCG, hasLoopInfo)
  else
    r ← merge_bodies_two hasLoopInfo c v;
    c ← merge_call_counts r.1 v;
    c ← (if r.2 : bool then merge_loop_depths c v else Ret c);
    c ← merge_callers "callers" c v;
    wholeCG ← jset wholeCG key c;
    Ret (wholeCG, r.2).

Record two_state := mkTwoState {
  ts_functionInfoMap : FuncMapT;
  ts_wholeCG : json;
  ts_hasLoopInfo : bool;
  ts_hasAAInfo : bool;
  ts_File1Data : EquivClassContainer
}.

Definition merge_file_two (files : gmap string json) (fuel : nat) (st : two_state) (filename : string)
    : outcome two_state :=
  r ← buildFromJSONv2 files fuel (ts_functionInfoMap st) filename;
  let '(functionInfoMap, current, CompleteJson) := r in
  items ← jiter_keys current;
  p ← foldM merge_function_two (ts_wholeCG st, ts_hasLoopInfo st) items;
  if jcontains CompleteJson "PointerEquivalenceData" then
    d ← jindex CompleteJson "PointerEquivalenceData";
    q ← mergeEquivalenceClasses fuel (ts_File1Data st) d p.1;
    Ret (mkTwoState functionInfoMap q.2 p.2 true q.1)
  else Ret (mkTwoState functionInfoMap p.1 p.2 (ts_hasAAInfo st) (ts_File1Data st)).

Definition store_overrides_two (functionInfoMap : FuncMapT) (wholeCG : json) (e : string * json)
    : outcome json :=
  match functionInfoMap !! e.1 with
  | Some fi =>
      jupdate wholeCG e.1 (λ jsonFunc,
        jsonFunc ← jset jsonFunc "overriddenBy" (jof_set (fn_overriddenBy fi));
        jset jsonFunc "overrides" (jof_set (fn_overriddenFunctions fi)))
  | None => Ret wholeCG
  end.

Definition mergeFileFormatTwo (files : gmap string json) (fuel : nat) (major minor : Z) (sha : string)
    (wholeCGFilename : string) (inputFiles : list string) : outcome json :=
  wholeCGFinal ← readIPCG files wholeCGFilename;
  if negb (jis_null wholeCGFinal) then Throw (process_exit (-1))
  else
    let wholeCGFinal := attachFormatTwoHeader major minor sha in
    st ← foldM (merge_file_two files fuel) (mkTwoState ∅ jnull false false container_new) inputFiles;
    items ← jiter_keys (ts_wholeCG st);
    wholeCG ← foldM (store_overrides_two (ts_functionInfoMap st)) (ts_wholeCG st) items;
    wholeCGFinal ← jset wholeCGFinal "_CG" wholeCG;
    wholeCGFinal ← (if ts_hasAAInfo st
                    then jset wholeCGFinal "PointerEquivalenceData" (container_toJson (ts_File1Data st))
                    else Ret wholeCGFinal);
    if ts_hasLoopInfo st && negb (ts_hasAAInfo st)
    then calculateGlobalCallDepth fuel wholeCGFinal true
    else Ret wholeCGFinal.

(** ** The program *)

(** The first file that is not null decides about the format. *)
Fixpoint first_valid (files : gmap string json) (inputFiles : list string) : outcome (option json) :=
  match inputFiles with
  | [] => Ret None
  | inFile :: inputFiles =>
      j ← readIPCG files inFile;
      if jis_null j then first_valid files inputFiles else Ret (Some j)
  end.

(** The arguments without the name of the program. *)
Definition cgmerge_main (writable : string → bool) (files : gmap string json) (fuel : nat)
    (major minor : Z) (sha : string) (argv : list string) : outcome (gmap string json * Z) :=
  match argv with
  | wholeCGFilename :: inFile :: inFiles =>
      let inputFiles := inFile :: inFiles in
      j ← first_valid files inputFiles;
      match j with
      | None => Throw (process_exit 1)
      | Some j =>
          wholeCG ← (if jcontains j "_CG"
                     then mergeFileFormatTwo files fuel major minor sha wholeCGFilename inputFiles
                     else mergeFileFormatOne files fuel wholeCGFilename inputFiles);
          files ← writeIPCG writable files wholeCGFilename wholeCG;
          Ret (files, 0%Z)
      end
  | _ => Ret (files, (-1)%Z)
  end.
End two.

(** ** Functions of a file of format 2 *)

Section merge_two_functions.
Context {JO : JsonOps} {JL : JsonLaws} {JD : JsonDouble}.

Record function_two := mkFunctionTwo {
  f2_callees : gset string;
  f2_callers : gset string;
  f2_overrides : gset string;
  f2_overriddenBy : gset string;
  f2_hasBody : bool;
  f2_numStatements : Z
}.

(** The fields under ["meta"]: neither loop depths nor call counts. *)
Record plain_meta (mm : gmap string json) (z : Z) : Prop := {
  pm_int : is_int z;
  pm_statements : mm !! "numStatements" = Some (jint z);
  pm_file : ∃ o b fm, mm !! "fileProperties" = Some (jobj fm) ∧
    fm !! "origin" = Some (jstr o) ∧ fm !! "systemInclude" = Some (jbool b);
  pm_counts : mm !! "estimateCallCount" = None;
  pm_loops : mm !! "loopDepth" = None
}.
Record describes_two (m : gmap string json) (n : function_two) : Prop := {
  t_callees : set_field m "callees" (f2_callees n);
  t_callers : set_field m "callers" (f2_callers n);
  t_overrides : set_field m "overrides" (f2_overrides n);
  t_overriddenBy : set_field m "overriddenBy" (f2_overriddenBy n);
  t_virtual : ∃ b, m !! "isVirtual" = Some (jbool b);
  t_override : is_Some (m !! "doesOverride");
  t_body : m !! "hasBody" = Some (jbool (f2_hasBody n));
  t_meta : ∃ mm, m !! "meta" = Some (jobj mm) ∧ plain_meta mm (f2_numStatements n)
}.
Definition represents_two (v : json) (n : function_two) : Prop := ∃ m, v = jobj m ∧ describes_two m n.

Lemma set_field_of m k X : set_field (<[k := jof_set X]> m) k X.
Proof. exists (jof_set X). split; [apply lookup_insert_eq|apply jget_set_of]. Qed.
Lemma set_field_ne m k k' j X : k ≠ k' → set_field m k X → set_field (<[k' := j]> m) k X.
Proof. intros Hk (x & Hx & ?). exists x. by rewrite lookup_insert_ne. Qed.
Lemma set_field_fun m k X Y : set_field m k X → set_field m k Y → X = Y.
Proof. intros (x & Hx & HX) (y & Hy & HY). congruence. Qed.
Lemma field_set_of m k X : set_field m k X → field_set (jobj m) k ⇓ X.
Proof. intros (x & Hx & HX). unfold field_set. by rewrite (jindex_obj _ _ _ Hx), bind_ret. Qed.

Lemma add_strings_set Y j X : jget_set j ⇓ X → add_strings Y j ⇓ Y ∪ X.
Proof.
  unfold jget_set, jget_strings, add_strings. intros (l & Hl & [= <-])%bind_ret_inv.
  destruct (jview j) as [| | | |js|] eqn:Hj; try discriminate Hl. rewrite (jelems_arr _ _ Hj). clear Hj.
  revert l Y Hl. induction js as [|e js IH]; intros l Y Hl; cbn [foldM foldr] in *.
  - injection Hl as <-. f_equal. set_solver.
  - apply bind_ret_inv in Hl as (x & Hx & Hl). apply bind_ret_inv in Hl as (l' & Hl' & [= <-]).
    rewrite Hx, bind_ret, bind_ret, (IH l' _ Hl'). f_equal. set_solver.
Qed.
Lemma toSet_of m k X : set_field m k X → toSet (jobj m) k ⇓ X.
Proof.
  intros (x & Hx & HX). unfold toSet. rewrite (jindex_obj _ _ _ Hx), bind_ret, (add_strings_set _ _ X) by done.
  f_equal. set_solver.
Qed.

Lemma represents_two_inj v n n' : represents_two v n → represents_two v n' → n = n'.
Proof.
  intros (m & -> & [A1 A2 A3 A4 _ _ A5 (mm & A6 & A7)]) (m' & Hm & [B1 B2 B3 B4 _ _ B5 (mm' & B6 & B7)]).
  apply jmk_inj in Hm. injection Hm as <-. rewrite A6 in B6. injection B6 as B6.
  apply jmk_inj in B6. injection B6 as <-. rewrite A5 in B5. injection B5 as B5.
  apply jmk_inj in B5. injection B5 as B5. pose proof (pm_statements _ _ A7) as HA.
  rewrite (pm_statements _ _ B7) in HA. injection HA as HA. apply jmk_inj in HA. injection HA as HA.
  destruct n, n'. cbn in *. f_equal; try done; by eapply set_field_fun.
Qed.

Lemma represents_two_not_empty j n : represents_two j n → jempty j = false.
Proof.
  intros (m & -> & Hm). rewrite jempty_obj. apply bool_decide_eq_false. intros ->.
  pose proof (t_body _ _ Hm) as Hb. by rewrite lookup_empty in Hb.
Qed.

(** What merging [v] into [c] makes of a function. *)
Definition two_with_body (c v : function_two) : function_two :=
  mkFunctionTwo (f2_callees c ∪ f2_callees v) (f2_callers c) (f2_overrides c) (f2_overriddenBy c) true
    (f2_numStatements v).
Definition two_with_callers (c v : function_two) : function_two :=
  mkFunctionTwo (f2_callees c) (f2_callers c ∪ f2_callers v) (f2_overrides c) (f2_overriddenBy c)
    (f2_hasBody c) (f2_numStatements c).
Definition two_bodies (c v : function_two) : function_two := if f2_hasBody v then two_with_body c v else c.
Definition merged_two_function (c v : function_two) : function_two := two_with_callers (two_bodies c v) v.
Definition same_statements_two (c v : function_two) : Prop :=
  f2_hasBody c = true → f2_hasBody v = true → f2_numStatements c = f2_numStatements v.

Lemma doMerge_two_ret mc mv c v :
  describes_two mc c → describes_two mv v → f2_hasBody v = true →
  ∃ m, doMerge "overrides" (jobj mc) (jobj mv) ⇓ jobj m ∧ m !! "meta" = mc !! "meta" ∧
    ∀ mm, plain_meta mm (f2_numStatements v) → describes_two (<["meta" := jobj mm]> m) (two_with_body c v).
Proof.
  intros Hc Hv Hb. destruct (t_callees _ _ Hv) as (jc & Ejc & Hjc), (t_overrides _ _ Hv) as (jo & Ejo & Hjo).
  destruct (t_virtual _ _ Hv) as [vb Evb], (t_override _ _ Hv) as [jd Ejd]. unfold doMerge.
  rewrite (jindex_const_obj _ _ _ Ejc), bind_ret, (toSet_of _ _ _ (t_callees _ _ Hc)), bind_ret.
  rewrite (add_strings_set _ _ _ Hjc), bind_ret, jset_obj, bind_ret, (jindex_const_obj _ _ _ Ejo), bind_ret.
  set (m1 := <["callees" := _]> mc).
  assert (set_field m1 "overrides" (f2_overrides c)) as H1 by (apply set_field_ne; [done|apply Hc]).
  rewrite (toSet_of _ _ _ H1), bind_ret. destruct H1 as (x & Hx & _).
  rewrite (jupdate_obj _ _ _ Ret x Hx eq_refl), bind_ret, (insert_id _ _ _ Hx), (add_strings_set _ _ _ Hjo), bind_ret.
  rewrite (jindex_const_obj _ _ _ Evb), bind_ret, jset_obj, bind_ret.
  rewrite (jindex_const_obj _ _ _ Ejd), bind_ret, jset_obj, bind_ret.
  rewrite (jindex_const_obj _ _ _ (t_body _ _ Hv)), bind_ret, jset_obj.
  eexists. split; [done|]. unfold m1. split; [by rewrite !lookup_insert_ne by done|].
  intros mm Hmm. rewrite Hb. split; cbn.
  1: do 4 (apply set_field_ne; [done|]); apply set_field_of.
  1-3: repeat (apply set_field_ne; [done|]); apply Hc.
  1-2: eexists; by simplify_map_eq.
  1: by simplify_map_eq.
  eexists; split; [|done]. by simplify_map_eq.
Qed.

Lemma copy_meta_ret m mv m' mv' k :
  m !! "meta" = Some (jobj m') → mv !! "meta" = Some (jobj mv') →
  copy_meta (jobj m) (jobj mv) k ⇓ jobj (<["meta" := jobj (<[k := default jnull (mv' !! k)]> m')]> m).
Proof.
  intros Hm Hv. unfold copy_meta. rewrite (jindex_obj _ _ _ Hv), bind_ret.
  assert (jindex (jobj mv') k ⇓ default jnull (mv' !! k)) as ->.
  { destruct (mv' !! k) eqn:Hk; [by apply jindex_obj|by apply jindex_obj_none]. }
  rewrite bind_ret. apply (jupdate_obj _ _ _ _ _ Hm), jset_obj.
Qed.

Lemma meta_int_ret m mm z : m !! "meta" = Some (jobj mm) → plain_meta mm z → meta_int (jobj m) "numStatements" ⇓ z.
Proof.
  intros Hm Hp. unfold meta_int. rewrite (jindex_obj _ _ _ Hm), bind_ret.
  apply field_int_ret; apply Hp.
Qed.

Lemma merge_bodies_two_ret jc jv c v :
  represents_two jc c → represents_two jv v → same_statements_two c v →
  ∃ j, merge_bodies_two false jc jv ⇓ (j, false) ∧ represents_two j (two_bodies c v).
Proof.
  intros (mc & -> & Hc) (mv & -> & Hv) Hs. unfold merge_bodies_two, two_bodies.
  rewrite (field_bool_ret mv "hasBody" _ (t_body _ _ Hv)), bind_ret.
  rewrite (field_bool_ret mc "hasBody" _ (t_body _ _ Hc)), bind_ret.
  destruct (f2_hasBody v) eqn:Hbv; cbn [andb]; [|eexists; split; [done|by exists mc]].
  destruct (doMerge_two_ret mc mv c v Hc Hv Hbv) as (m & -> & Hm & Hd).
  destruct (t_meta _ _ Hc) as (cm & Ecm & Hcm), (t_meta _ _ Hv) as (vm & Evm & Hvm). rewrite Ecm in Hm.
  destruct (f2_hasBody c) eqn:Hbc.
  - rewrite bind_ret, (meta_int_ret m cm _ Hm Hcm), bind_ret, (meta_int_ret mv vm _ Evm Hvm), bind_ret.
    specialize (Hs Hbc Hbv). rewrite decide_False by congruence. rewrite Hs in Hcm.
    eexists. split; [done|]. exists m. split; [done|]. specialize (Hd cm Hcm). by rewrite insert_id in Hd.
  - rewrite bind_ret, (copy_meta_ret _ _ _ _ _ Hm Evm), bind_ret.
    rewrite (copy_meta_ret _ _ _ _ _ (lookup_insert_eq _ _ _) Evm), bind_ret, insert_insert_eq.
    rewrite (copy_meta_ret _ _ _ _ _ (lookup_insert_eq _ _ _) Evm), bind_ret, insert_insert_eq.
    rewrite (jindex_obj _ _ _ (lookup_insert_eq _ _ _)), bind_ret, jcontains_obj.
    rewrite !lookup_insert_ne, (pm_loops _ _ Hcm), bool_decide_false by (done || by intros [? [=]]).
    eexists. split; [done|]. eexists. split; [done|]. apply Hd.
    destruct (pm_file _ _ Hvm) as (o & b & fm & Hfm & ? & ?).
    rewrite (pm_statements _ _ Hvm), Hfm. destruct Hvm, Hcm. split; [done|..]; rewrite ?lookup_insert_ne by done; cbn.
    + by rewrite lookup_insert_eq.
    + exists o, b, fm. by rewrite lookup_insert_eq.
    + done.
    + done.
Qed.

Lemma merge_call_counts_ret jc jv c v :
  represents_two jc c → represents_two jv v → merge_call_counts jc jv ⇓ jc.
Proof.
  intros (mc & -> & Hc) (mv & -> & Hv). unfold merge_call_counts.
  destruct (t_meta _ _ Hc) as (cm & Ecm & Hcm), (t_meta _ _ Hv) as (vm & Evm & Hvm).
  rewrite (jupdate_obj _ _ _ Ret _ Ecm eq_refl), bind_ret, (insert_id _ _ _ Ecm).
  rewrite (jindex_obj _ _ _ Ecm), bind_ret, (jindex_obj _ _ _ Evm), bind_ret, !jcontains_obj.
  by rewrite (pm_counts _ _ Hcm), (pm_counts _ _ Hvm), !bool_decide_false by (by intros [? [=]]).
Qed.

Lemma merge_callers_two_ret jc jv c v :
  represents_two jc c → represents_two jv v →
  ∃ j, merge_callers "callers" jc jv ⇓ j ∧ represents_two j (two_with_callers c v).
Proof.
  intros (mc & -> & Hc) (mv & -> & Hv). unfold merge_callers.
  rewrite (field_set_of _ _ _ (t_callers _ _ Hv)), bind_ret, (field_set_of _ _ _ (t_callers _ _ Hc)), bind_ret, jset_obj.
  eexists. split; [done|]. eexists. split; [done|]. destruct Hc.
  split; cbn; rewrite ?lookup_insert_ne by done; try done; (apply set_field_of || by apply set_field_ne).
Qed.

Lemma merge_function_two_new j M k v :
  graph_json j M → M !! k = None → merge_function_two (j, false) (k, v) ⇓ (jobj (<[k := v]> M), false).
Proof.
  intros Hj Hk. unfold merge_function_two. rewrite (graph_jindex _ _ k Hj), bind_ret, Hk. cbn [from_option id].
  by rewrite jempty_spec, jview_jmk, (graph_jset _ _ k v Hj).
Qed.

Lemma merge_function_two_known j M k c v nc n :
  graph_json j M → M !! k = Some c → represents_two c nc → represents_two v n → same_statements_two nc n →
  ∃ w, merge_function_two (j, false) (k, v) ⇓ (jobj (<[k := w]> M), false) ∧
    represents_two w (merged_two_function nc n).
Proof.
  intros Hj Hk Hc Hv Hs. unfold merge_function_two. rewrite (graph_jindex _ _ k Hj), bind_ret, Hk. cbn [from_option id].
  rewrite (represents_two_not_empty _ _ Hc).
  destruct (merge_bodies_two_ret c v nc n Hc Hv Hs) as (j1 & -> & H1). rewrite bind_ret. cbn [fst snd].
  rewrite (merge_call_counts_ret _ _ _ _ H1 Hv), !bind_ret.
  destruct (merge_callers_two_ret j1 v _ n H1 Hv) as (j2 & -> & H2).
  rewrite bind_ret, (graph_jset _ _ k j2 Hj), bind_ret. by exists j2.
Qed.
End merge_two_functions.

(** ** All functions of all files *)

Section union_two.
Context {JO : JsonOps} {JL : JsonLaws} {JD : JsonDouble}.

Definition occurs_two (E : list (string * json)) (k : string) (n : function_two) : Prop :=
  ∃ v, (k, v) ∈ E ∧ represents_two v n.
Definition has_key (E : list (string * json)) (k : string) : Prop := ∃ v, (k, v) ∈ E.

(** Every entry describes a function; without a body it calls nothing, and bodies
    agree on the number of statements. *)
Record entries_two_ok (E : list (string * json)) : Prop := {
  et_represents : ∀ k v, (k, v) ∈ E → ∃ n, represents_two v n;
  et_no_body : ∀ k n, occurs_two E k n → f2_hasBody n = false → f2_callees n = ∅;
  et_statements : ∀ k n n', occurs_two E k n → occurs_two E k n' → same_statements_two n n'
}.

(** [n] is the union of the functions called [k], with additional edges. *)
Record union_two (E : list (string * json)) (Ex : relation string) (k : string) (n : function_two) : Prop := {
  ut_body : f2_hasBody n = true ↔ ∃ n', occurs_two E k n' ∧ f2_hasBody n' = true;
  ut_callees : ∀ x, x ∈ f2_callees n ↔ (∃ n', occurs_two E k n' ∧ x ∈ f2_callees n') ∨ Ex k x;
  ut_callers : ∀ x, x ∈ f2_callers n ↔ (∃ n', occurs_two E k n' ∧ x ∈ f2_callers n') ∨ Ex x k;
  ut_statements : ∀ n', occurs_two E k n' → f2_hasBody n' = true → f2_numStatements n = f2_numStatements n'
}.
Definition merged_two (E : list (string * json)) (Ex : relation string) (M : gmap string json) : Prop :=
  (∀ k, is_Some (M !! k) ↔ has_key E k) ∧
  ∀ k c, M !! k = Some c → ∃ n, represents_two c n ∧ union_two E Ex k n.
Definition edges_in (E : list (string * json)) (Ex : relation string) : Prop :=
  ∀ f g, Ex f g → has_key E f ∧ has_key E g.

Lemma has_key_snoc E k v k' : has_key (E ++ [(k, v)]) k' ↔ has_key E k' ∨ k' = k.
Proof. unfold has_key. setoid_rewrite elem_of_app. setoid_rewrite list_elem_of_singleton. naive_solver. Qed.

Lemma has_key_app E E' k : has_key (E ++ E') k ↔ has_key E k ∨ has_key E' k.
Proof. unfold has_key. setoid_rewrite elem_of_app. naive_solver. Qed.

Lemma occurs_two_snoc E k' v m k n :
  represents_two v m → occurs_two (E ++ [(k', v)]) k n ↔ occurs_two E k n ∨ (k = k' ∧ n = m).
Proof.
  intros Hv. unfold occurs_two. setoid_rewrite elem_of_app. setoid_rewrite list_elem_of_singleton. split.
  - intros (w & [?|[= -> ->]] & Hw); [left; by exists w|right]. split; [done|]. by eapply represents_two_inj.
  - intros [(w & ? & ?)|[-> ->]]; [exists w; tauto|exists v; tauto].
Qed.

Lemma occurs_two_app E E' k n : occurs_two (E ++ E') k n ↔ occurs_two E k n ∨ occurs_two E' k n.
Proof. unfold occurs_two. setoid_rewrite elem_of_app. naive_solver. Qed.

Lemma entries_two_prefix E E' : entries_two_ok (E ++ E') → entries_two_ok E.
Proof.
  intros [H1 H2 H3]. split.
  - intros k v Hv. apply (H1 k). apply elem_of_app. by left.
  - intros k n Hn. apply (H2 k), occurs_two_app. by left.
  - intros k n n' Hn Hn'. apply (H3 k); apply occurs_two_app; by left.
Qed.

Lemma union_two_new E Ex k v n :
  represents_two v n → ¬ has_key E k → edges_in E Ex → union_two (E ++ [(k, v)]) Ex k n.
Proof.
  intros Hv Hk HE. assert (∀ n', occurs_two (E ++ [(k, v)]) k n' ↔ n' = n) as Ho.
  { intros n'. rewrite (occurs_two_snoc _ _ _ n) by done. split; [|tauto].
    intros [(w & Hw & _)|?]; [destruct Hk; by exists w|tauto]. }
  split; try intros x; setoid_rewrite Ho; [naive_solver| | |naive_solver].
  - pose proof (HE k x). naive_solver.
  - pose proof (HE x k). naive_solver.
Qed.

Lemma union_two_merged E Ex k v n nc :
  entries_two_ok (E ++ [(k, v)]) → represents_two v n → union_two E Ex k nc →
  union_two (E ++ [(k, v)]) Ex k (merged_two_function nc n).
Proof.
  intros [_ Hnb Hst] Hv [H1 H2 H3 H4].
  assert (∀ n', occurs_two (E ++ [(k, v)]) k n' ↔ occurs_two E k n' ∨ n' = n) as Ho.
  { intros n'. rewrite (occurs_two_snoc _ _ _ n) by done. tauto. }
  assert (f2_hasBody n = false → f2_callees n = ∅) as Hn by (apply (Hnb k), Ho; by right).
  unfold merged_two_function, two_with_callers, two_bodies, two_with_body. split; cbn.
  - setoid_rewrite Ho. rewrite ex_or_eq, <- H1. by destruct (f2_hasBody n); cbn; destruct (f2_hasBody nc); tauto.
  - intros x. setoid_rewrite Ho. rewrite ex_or_eq. specialize (H2 x). destruct (f2_hasBody n); cbn; set_solver.
  - intros x. setoid_rewrite Ho. rewrite ex_or_eq. specialize (H3 x). destruct (f2_hasBody n); cbn; set_solver.
  - intros n' Hn' Hb'. destruct (f2_hasBody n) eqn:Hb; cbn.
    + symmetry. apply (Hst k n' n); [done|apply Ho; by right|done|done].
    + apply Ho in Hn' as [Hn'| ->]; [by apply H4|congruence].
Qed.

Lemma union_two_ext E E' (Ex Ex' : relation string) k n :
  (∀ n', occurs_two E' k n' ↔ occurs_two E k n') → (∀ f g, Ex' f g ↔ Ex f g) →
  union_two E Ex k n → union_two E' Ex' k n.
Proof. intros Ho He [H1 H2 H3 H4]. split; try intros x; setoid_rewrite Ho; rewrite ?He; auto. Qed.

Lemma merge_entries_two E Ex L j M :
  entries_two_ok (E ++ L) → edges_in E Ex → graph_json j M → merged_two E Ex M →
  ∃ j' M', foldM merge_function_two (j, false) L ⇓ (j', false) ∧ graph_json j' M' ∧ merged_two (E ++ L) Ex M'.
Proof.
  revert E j M. induction L as [|[k v] L IH]; intros E j M HE Hin Hj HM.
  { exists j, M. by rewrite app_nil_r. }
  change ((k, v) :: L) with ([(k, v)] ++ L) in HE |- *. rewrite (assoc_L (++)) in HE |- *.
  pose proof (entries_two_prefix _ _ HE) as HE1. destruct HM as [Hdom Hrep].
  destruct (et_represents _ HE k v) as [n Hv]; [set_solver|].
  assert (∃ w nw, merge_function_two (j, false) (k, v) ⇓ (jobj (<[k := w]> M), false) ∧ represents_two w nw ∧
    union_two (E ++ [(k, v)]) Ex k nw) as (w & nw & Hw & Hnw & Hu).
  { destruct (M !! k) as [c|] eqn:Hk.
    - destruct (Hrep k c Hk) as (nc & Hnc & Hu).
      assert (same_statements_two nc n) as Hs.
      { intros Hbc Hbn. apply (ut_body _ _ _ _ Hu) in Hbc as (n' & Hn' & Hbn').
        rewrite (ut_statements _ _ _ _ Hu n' Hn' Hbn').
        apply (et_statements _ HE1 k n' n); [|by exists v; set_solver|done|done].
        apply (occurs_two_snoc E k v n); [done|by left]. }
      destruct (merge_function_two_known j M k c v nc n Hj Hk Hnc Hv Hs) as (w & Hw & Hnw).
      exists w, (merged_two_function nc n). split_and!; [done..|by apply union_two_merged].
    - exists v, n. split; [by apply merge_function_two_new|]. split; [done|].
      apply union_two_new; [done| |done]. rewrite <- Hdom, Hk. by intros [? [=]]. }
  cbn [app foldM]. rewrite Hw, bind_ret.
  apply (IH (E ++ [(k, v)]) _ (<[k := w]> M)); [done| |by left|].
  { intros f g Hfg. rewrite !has_key_snoc. pose proof (Hin f g Hfg). tauto. }
  split.
  - intros k'. rewrite lookup_insert_is_Some, Hdom, has_key_snoc. destruct (decide (k = k')); naive_solver.
  - intros k' c. rewrite lookup_insert_Some. intros [[<- <-]|[Hne Hc]]; [by exists nw|].
    destruct (Hrep k' c Hc) as (nc & Hnc & Huc). exists nc. split; [done|].
    eapply union_two_ext; [|done|exact Huc]. intros n'. rewrite (occurs_two_snoc _ _ _ n) by done. naive_solver.
Qed.

(** ** The edges that the alias analysis adds *)

(** The lists of a function, for the interface of [mergeEquivalenceClasses]. *)
Definition names_at (m : gmap string json) (k : string) : gset string :=
  match get_at jget_set (jobj m) k with Ret X => X | _ => ∅ end.
Definition node_of (v : json) : json_node :=
  match jview v with
  | VObj m => mkJsonNode (names_at m "callees") (names_at m "callers") (delete "callers" (delete "callees" m))
  | _ => mkJsonNode ∅ ∅ ∅
  end.

Lemma node_of_spec v n :
  represents_two v n → node_json v (node_of v) ∧ jn_callees (node_of v) = f2_callees n ∧
    jn_callers (node_of v) = f2_callers n.
Proof.
  intros (m & -> & Hm). unfold node_of. rewrite jview_jmk. unfold names_at. cbn.
  rewrite (get_field _ _ _ (t_callees _ _ Hm)), (get_field _ _ _ (t_callers _ _ Hm)).
  split; [|done]. exists m. split_and!; [done|apply Hm|apply Hm|done].
Qed.

Lemma graph_of_nodes E Ex M : merged_two E Ex M → graph_of (jobj M) (node_of <$> M).
Proof.
  intros [_ HM]. exists M. split; [done|]. intros f. rewrite lookup_fmap. destruct (M !! f) as [v|] eqn:Hf; [|done].
  destruct (HM f v Hf) as (n & Hn & _). exists v. split; [done|]. by apply (node_of_spec v n).
Qed.

(** The other fields stay. *)
Lemma describes_two_rest m m' n X Y :
  describes_two m n → set_field m' "callees" X → set_field m' "callers" Y →
  delete "callers" (delete "callees" m') = delete "callers" (delete "callees" m) →
  describes_two m' (mkFunctionTwo X Y (f2_overrides n) (f2_overriddenBy n) (f2_hasBody n) (f2_numStatements n)).
Proof.
  intros [] HX HY Hd.
  assert (∀ k, k ≠ "callees" → k ≠ "callers" → m' !! k = m !! k) as Hk.
  { intros k H1 H2. by rewrite <- (lookup_delete_ne m' "callees" k), <- (lookup_delete_ne (delete _ m') "callers" k),
      Hd, !lookup_delete_ne. }
  split; cbn; unfold set_field; rewrite ?Hk by done; done.
Qed.

Lemma graph_grown E (Ex Ex' : relation string) M J' N' :
  merged_two E Ex M → graph_of J' N' → graph_grows (node_of <$> M) N' Ex' Ex' →
  (∀ f g, Ex f g → Ex' f g) → edges_in E Ex' →
  ∃ M', J' = jobj M' ∧ merged_two E Ex' M'.
Proof.
  intros [Hdom HM] (M' & -> & HG) Hg Hmono Hin. exists M'. split; [done|].
  assert (∀ k, is_Some (M' !! k) ↔ is_Some (M !! k)) as Hkeys.
  { intros k. rewrite <- (fmap_is_Some node_of (M !! k)), <- lookup_fmap, <- (grows_keys _ _ _ _ k Hg).
    specialize (HG k). destruct (N' !! k).
    - destruct HG as (v & -> & _). split; intros; by eexists.
    - by rewrite HG. }
  split; [intros k; by rewrite Hkeys, Hdom|].
  intros k w Hw. destruct (proj1 (Hkeys k)) as [c Hc]; [by exists w|].
  destruct (HM k c Hc) as (n & Hn & [U1 U2 U3 U4]). destruct (node_of_spec c n Hn) as (_ & Ecl & Ecr).
  assert ((node_of <$> M) !! k = Some (node_of c)) as HNk by by rewrite lookup_fmap, Hc.
  pose proof (HG k) as HGk. destruct (N' !! k) as [nd|] eqn:Hnd; [|congruence].
  destruct HGk as (w' & Hw' & (m' & Em & HX & HY & Hr)). simplify_eq.
  pose proof (gg_rest _ _ _ _ Hg k) as Hrest. rewrite HNk, Hnd in Hrest. simpl in Hrest. injection Hrest as Hrest.
  destruct Hn as (m & -> & Hm). unfold node_of in Hrest. rewrite jview_jmk in Hrest. cbn in Hrest. rewrite Hr in Hrest.
  eexists. split; [exists m'; split; [done|]; by eapply describes_two_rest|].
  assert (is_Some (Some (node_of (jobj m)))) as Hs by by eexists.
  split; cbn; [done| | |done]; intros x.
  - pose proof (gg_calls _ _ _ _ Hg k x) as Hcalls. unfold calls in Hcalls. rewrite Hnd, HNk, !ex_Some, Ecl in Hcalls.
    rewrite Hcalls, U2. pose proof (Hmono k x). tauto.
  - pose proof (gg_called _ _ _ _ Hg x k) as Hcalls. unfold called in Hcalls. rewrite Hnd, HNk, !ex_Some, Ecr in Hcalls.
    rewrite Hcalls, U3. pose proof (Hmono x k). tauto.
Qed.
End union_two.

(** ** The records next to the graph *)

Section records.
Context {JO : JsonOps} {JL : JsonLaws} {JD : JsonDouble} {IO : IterOrder}.

(** Exactly the lists that the entries have. *)
Record records_ok (E : list (string * json)) (fm : FuncMapT) : Prop := {
  rk_flags : no_overrider fm;
  rk_keys : ∀ k, is_Some (fm !! k) ↔ has_key E k;
  rk_overrides : ∀ k fi x, fm !! k = Some fi →
    x ∈ fn_overriddenFunctions fi ↔ ∃ n, occurs_two E k n ∧ x ∈ f2_overrides n;
  rk_overriddenBy : ∀ k fi x, fm !! k = Some fi →
    x ∈ fn_overriddenBy fi ↔ ∃ n, occurs_two E k n ∧ x ∈ f2_overriddenBy n
}.

Lemma read_function_two_ret fm k v n :
  represents_two v n → ∃ fi, read_function_two fm (k, v) ⇓ <[k := fi]> fm ∧
    fn_overriddenFunctions fi = default ∅ (fn_overriddenFunctions <$> fm !! k) ∪ f2_overrides n ∧
    fn_overriddenBy fi = default ∅ (fn_overriddenBy <$> fm !! k) ∪ f2_overriddenBy n.
Proof.
  intros (m & -> & Hm). unfold read_function_two. destruct (t_virtual _ _ Hm) as [vb Hvb].
  destruct (t_meta _ _ Hm) as (mm & Hmm & Hp). destruct (pm_file _ _ Hp) as (o & b & fp & Hfp & Ho & Hb).
  rewrite (field_bool_ret m "hasBody" _ (t_body _ _ Hm)), bind_ret, (field_bool_ret m _ _ Hvb), bind_ret.
  rewrite (field_set_of _ _ _ (t_callees _ _ Hm)), bind_ret, (field_set_of _ _ _ (t_overrides _ _ Hm)), bind_ret.
  rewrite (field_set_of _ _ _ (t_overriddenBy _ _ Hm)), bind_ret, (field_set_of _ _ _ (t_callers _ _ Hm)), bind_ret.
  rewrite (jindex_obj _ _ _ Hmm), bind_ret, (field_int_ret _ _ _ (pm_statements _ _ Hp) (pm_int _ _ Hp)), bind_ret.
  assert (readFileOrigin (jobj m) ⇓ mkFilePropertyResult o b) as ->.
  { unfold readFileOrigin. rewrite (jindex_obj _ _ _ Hmm), bind_ret, (jindex_obj _ _ _ Hfp), bind_ret, jis_null_jmk.
    by rewrite (jindex_obj _ _ _ Ho), bind_ret, jget_string_str, bind_ret, (field_bool_ret _ _ _ Hb), bind_ret. }
  rewrite bind_ret. unfold func_entry, getOrInsert. destruct (fm !! k) as [fi|] eqn:Hk.
  - eexists. split; [done|]. by rewrite Hk.
  - rewrite insert_insert_eq. eexists. split; [done|]. by rewrite lookup_insert_eq.
Qed.

Lemma read_functions_two_ret E L fm :
  (∀ k v, (k, v) ∈ L → ∃ n, represents_two v n) → records_ok E fm →
  ∃ fm', foldM read_function_two fm L ⇓ fm' ∧ records_ok (E ++ L) fm'.
Proof.
  intros HL HE. apply (foldM_ind (λ dn fm', records_ok (E ++ dn) fm')); [by rewrite app_nil_r|].
  intros dn [k v] rest fm1 -> [R1 R2 R3 R4]. destruct (HL k v) as [n Hv]; [set_solver|].
  destruct (read_function_two_ret fm1 k v n Hv) as (fi & Hr & Ho & Hb). eexists. split; [exact Hr|].
  rewrite assoc_L by apply _.
  assert (∀ k' (P : function_two → Prop), (∃ n', occurs_two ((E ++ dn) ++ [(k, v)]) k' n' ∧ P n') ↔
    (∃ n', occurs_two (E ++ dn) k' n' ∧ P n') ∨ (k' = k ∧ P n)) as Hocc.
  { intros k' P. setoid_rewrite (occurs_two_snoc _ _ _ n); [|done]. naive_solver. }
  assert (fm1 !! k = None → ∀ n', ¬ occurs_two (E ++ dn) k n') as Hnone.
  { intros Hk n' (w & Hw & _). destruct (proj2 (R2 k)) as [x Hx]; [by exists w|congruence]. }
  split.
  - eapply read_function_two_flag; [exact R1|exact Hr].
  - intros k'. rewrite lookup_insert_is_Some, R2, has_key_snoc. destruct (decide (k = k')); naive_solver.
  - intros k' fi' x. rewrite Hocc, lookup_insert_Some. intros [[<- <-]|[Hne Hk']]; [|rewrite (R3 _ _ _ Hk'); naive_solver].
    rewrite Ho, elem_of_union. destruct (fm1 !! k) as [f1|] eqn:Hk; cbn.
    + rewrite (R3 _ _ _ Hk). naive_solver.
    + specialize (Hnone eq_refl). set_solver.
  - intros k' fi' x. rewrite Hocc, lookup_insert_Some. intros [[<- <-]|[Hne Hk']]; [|rewrite (R4 _ _ _ Hk'); naive_solver].
    rewrite Hb, elem_of_union. destruct (fm1 !! k) as [f1|] eqn:Hk; cbn.
    + rewrite (R4 _ _ _ Hk). naive_solver.
    + specialize (Hnone eq_refl). set_solver.
Qed.

(** ** What is stored at the end *)

Definition stored_two (fm : FuncMapT) (k : string) (c w : json) : Prop :=
  match fm !! k with
  | None => w = c
  | Some fi => ∃ m, c = jobj m ∧ w = jobj (<["overrides" := jof_set (fn_overriddenFunctions fi)]>
                                   (<["overriddenBy" := jof_set (fn_overriddenBy fi)]> m))
  end.

Lemma store_overrides_two_ret fm M :
  (∀ k c, M !! k = Some c → ∃ m, c = jobj m) →
  ∃ M', foldM (store_overrides_two fm) (jobj M) (ordered_iter M) ⇓ jobj M' ∧
    (∀ k, is_Some (M' !! k) ↔ is_Some (M !! k)) ∧
    ∀ k w, M' !! k = Some w → ∃ c, M !! k = Some c ∧ stored_two fm k c w.
Proof.
  intros Hobj. apply (update_all_ret _ (stored_two fm)). intros M' k c Hk Hc.
  destruct (Hobj k c Hk) as [m ->]. unfold store_overrides_two, stored_two. cbn [fst].
  destruct (fm !! k) as [fi|].
  - eexists. split; [|by exists m]. apply (jupdate_obj _ _ (jobj m)); [done|].
    by rewrite jset_obj, bind_ret, jset_obj.
  - exists (jobj m). split; [|done]. by rewrite insert_id.
Qed.

Definition two_with_stored (n : function_two) (fi : Collector.FunctionInfo) : function_two :=
  mkFunctionTwo (f2_callees n) (f2_callers n) (fn_overriddenFunctions fi) (fn_overriddenBy fi)
    (f2_hasBody n) (f2_numStatements n).

Lemma stored_two_represents fm k fi c w n :
  fm !! k = Some fi → stored_two fm k c w → represents_two c n → represents_two w (two_with_stored n fi).
Proof.
  unfold stored_two. intros -> (m & -> & ->) (m' & Hm & []). apply jmk_inj in Hm. injection Hm as <-.
  eexists. split; [done|].
  split; cbn; rewrite ?lookup_insert_ne by done; try done; try apply set_field_of;
    repeat (apply set_field_ne; [done|]); try done. apply set_field_of.
Qed.
End records.

(** ** The data of the alias analysis, file after file *)

Definition names_in (D : EquivClassContainer) (P : string → Prop) : Prop :=
  ∀ f i n, FunctionInfoMap D !! f = Some i → n ∈ MangledNames i → P n.

Lemma class_edges_in D P f g : names_in D P → class_edges D f g → P f ∧ P g.
Proof. intros HP (p & _ & F & i & i' & _ & Hi & Hi' & Hf & Hg). split; [by apply (HP _ _ _ Hi)|by apply (HP _ _ _ Hi')]. Qed.

Lemma callers_listed_names {JO : JsonOps} D (N : gmap string json_node) : names_in D (λ n, is_Some (N !! n)) → callers_listed D N.
Proof. intros HP c f i _ Hi. apply Forall_forall. intros n. by apply (HP f i). Qed.

(** What [D] knows about functions comes from the data in [Ds]. *)
Definition infos_from (Ds : list EquivClassContainer) (D : EquivClassContainer) : Prop :=
  ∀ f i, FunctionInfoMap D !! f = Some i → ∃ D0 i0, D0 ∈ Ds ∧ FunctionInfoMap D0 !! f = Some i0 ∧
    length (Parameters_ i) = length (Parameters_ i0) ∧ IsVariadic i = IsVariadic i0 ∧
    MangledNames i = MangledNames i0.

Lemma infos_from_names Ds D P : infos_from Ds D → (∀ D0, D0 ∈ Ds → names_in D0 P) → names_in D P.
Proof.
  intros HD HP f i n Hi Hn. destruct (HD f i Hi) as (D0 & i0 & H0 & Hi0 & _ & _ & E).
  apply (HP D0 H0 f i0); [done|by rewrite <- E].
Qed.

Lemma infos_from_agree Ds D D2 :
  infos_from Ds D → (∀ D0, D0 ∈ Ds → infos_agree D0 D2) → infos_agree D D2.
Proof.
  intros HD Hag f i1 i2 H1 H2. destruct (HD f i1 H1) as (D0 & i0 & H0 & Hi0 & -> & -> & ->).
  by apply (Hag D0 H0 f).
Qed.

Lemma infos_from_joined Ds D D2 D' : infos_from Ds D → data_joined D D2 D' → infos_from (Ds ++ [D2]) D'.
Proof.
  intros HD HJ f i. rewrite (st_infos _ _ (dj_static _ _ _ HJ)). simpl. rewrite lookup_union_with.
  setoid_rewrite elem_of_app. setoid_rewrite list_elem_of_singleton.
  destruct (FunctionInfoMap D !! f) as [i1|] eqn:H1; destruct (FunctionInfoMap D2 !! f) as [i2|] eqn:H2; intros [= <-].
  3: { exists D2, i2. auto. }
  all: destruct (HD f i1 H1) as (D0 & i0 & H0 & Hi0 & E1 & E2 & E3); exists D0, i0.
  1: unfold union_info; destruct (decide _).
  all: auto 6.
Qed.

(** The result of merging the data one file after the other. *)
Inductive data_merged : list EquivClassContainer → EquivClassContainer → Prop :=
  | data_merged_none : data_merged [] container_new
  | data_merged_file Ds D D2 D' :
      data_merged Ds D → data_joined D D2 D' → data_merged (Ds ++ [D2]) D'.

Lemma container_new_file_ok : file_ok container_new.
Proof. apply file_check_ok, (bool_decide_unpack _). by vm_compute. Qed.

(** What is known about the data at any time. *)
Record data_state (Ds : list EquivClassContainer) (D : EquivClassContainer) : Prop := {
  ds_merged : data_merged Ds D;
  ds_ok : file_ok D;
  ds_referenced : calls_referenced D;
  ds_infos : infos_from Ds D;
  ds_num : num_classes D ≤ sum_list (num_classes <$> Ds)
}.

Lemma data_state_new : data_state [] container_new.
Proof.
  split; [constructor|apply container_new_file_ok| | |reflexivity].
  - intros o c. simpl. rewrite lookup_empty. by intros ?%elem_of_nil.
  - intros f i. simpl. by rewrite lookup_empty.
Qed.

Lemma data_state_joined Ds D D2 D' :
  data_state Ds D → data_joined D D2 D' → num_classes D' ≤ num_classes D + num_classes D2 →
  data_state (Ds ++ [D2]) D'.
Proof.
  intros [S1 S2 S3 S4 S5] HJ Hn. split.
  - by eapply data_merged_file.
  - apply HJ.
  - eapply joined_referenced, HJ.
  - by eapply infos_from_joined.
  - rewrite fmap_app, sum_list_with_app. simpl. lia.
Qed.

(** ** The files *)

Section files.
Context {JO : JsonOps} {JL : JsonLaws} {JD : JsonDouble} {IO : IterOrder}.
Context (files : gmap string json).

(** A file: its functions and, optionally, its data. *)
Record InputFile := mkInputFile {
  if_name : string;
  if_graph : gmap string json;
  if_data : option EquivClassContainer
}.
Definition on_disk (f : InputFile) : Prop :=
  ∃ fl, files !! if_name f = Some (jobj fl) ∧ fl !! "_CG" = Some (jobj (if_graph f)) ∧ if_graph f ≠ ∅ ∧
    match if_data f with
    | None => fl !! "PointerEquivalenceData" = None
    | Some D => ∃ d, fl !! "PointerEquivalenceData" = Some d ∧ container_fromJson d ⇓ D ∧ file_ok D ∧
        names_in D (λ n, is_Some (if_graph f !! n))
    end.
Definition entries_of (L : list InputFile) : list (string * json) := L ≫= λ f, ordered_iter (if_graph f).
Definition data_of (L : list InputFile) : list EquivClassContainer := omap if_data L.

(** The state after the files [dn]. *)
Record state_two_ok (dn : list InputFile) (st : two_state) : Prop := {
  so_records : records_ok (entries_of dn) (ts_functionInfoMap st);
  so_graph : ∃ M, graph_json (ts_wholeCG st) M ∧ merged_two (entries_of dn) (class_edges (ts_File1Data st)) M;
  so_loops : ts_hasLoopInfo st = false;
  so_alias : ts_hasAAInfo st = bool_decide (data_of dn ≠ []);
  so_data : data_state (data_of dn) (ts_File1Data st);
  so_names : ∀ D, D ∈ data_of dn → names_in D (has_key (entries_of dn))
}.

Lemma entries_of_snoc dn f : entries_of (dn ++ [f]) = entries_of dn ++ ordered_iter (if_graph f).
Proof. unfold entries_of. rewrite bind_app. simpl. by rewrite app_nil_r. Qed.
Lemma data_of_snoc dn f : data_of (dn ++ [f]) = data_of dn ++ option_list (if_data f).
Proof. unfold data_of. rewrite omap_app. simpl. by destruct (if_data f). Qed.

Lemma has_key_graph (m : gmap string json) k : has_key (ordered_iter m) k ↔ is_Some (m !! k).
Proof. unfold has_key. by setoid_rewrite elem_of_ordered_iter. Qed.

Lemma names_in_mono D (P Q : string → Prop) : (∀ n, P n → Q n) → names_in D P → names_in D Q.
Proof. intros HPQ HP f i n Hi Hn. by eapply HPQ, HP. Qed.

(** Reading the file and merging its functions. *)
Lemma file_functions_ret fuel dn f st fl :
  state_two_ok dn st → files !! if_name f = Some (jobj fl) → fl !! "_CG" = Some (jobj (if_graph f)) →
  if_graph f ≠ ∅ → entries_two_ok (entries_of (dn ++ [f])) →
  ∃ fm M, buildFromJSONv2 files fuel (ts_functionInfoMap st) (if_name f) ⇓ (fm, jobj (if_graph f), jobj fl) ∧
    foldM merge_function_two (ts_wholeCG st, ts_hasLoopInfo st) (ordered_iter (if_graph f)) ⇓ (jobj M, false) ∧
    records_ok (entries_of (dn ++ [f])) fm ∧
    merged_two (entries_of (dn ++ [f])) (class_edges (ts_File1Data st)) M.
Proof.
  intros [S1 (M & HM & HMt) S3 S4 S5 S6] Hfl Hcg Hne. rewrite entries_of_snoc. intros HE.
  destruct (read_functions_two_ret _ (ordered_iter (if_graph f)) _ (λ k v Hv, et_represents _ HE k v
    (proj2 (elem_of_app _ _ _) (or_intror Hv))) S1) as (fm & Hfm & Hok).
  destruct (merge_entries_two _ (class_edges (ts_File1Data st)) _ (ts_wholeCG st) M HE) as (j' & M' & Hr & Hj' & HM');
    [|done..|].
  { intros x y. apply class_edges_in, (infos_from_names _ _ _ (ds_infos _ _ S5)), S6. }
  exists fm, M'. split_and!; [|rewrite S3, Hr|done|done].
  - unfold buildFromJSONv2, readIPCG. rewrite Hfl, bind_ret, (jindex_obj _ _ _ Hcg), bind_ret, jiter_keys_obj, bind_ret.
    by rewrite Hfm, bind_ret, (propagate_none _ _ (rk_flags _ _ Hok)), bind_ret.
  - destruct Hj' as [->|[-> ->]]; [done|]. exfalso. apply Hne, map_eq. intros k. rewrite lookup_empty.
    apply eq_None_not_Some. intros Hk%has_key_graph. destruct (proj2 (proj1 HM' k)) as [? He]; [|by rewrite lookup_empty in He].
    apply has_key_app. by right.
Qed.

Lemma merge_file_two_ret fuel dn f st :
  state_two_ok dn st → on_disk f → entries_two_ok (entries_of (dn ++ [f])) →
  (∀ D1 D2, D1 ∈ data_of (dn ++ [f]) → D2 ∈ data_of (dn ++ [f]) → infos_agree D1 D2) →
  sum_list (num_classes <$> data_of (dn ++ [f])) < fuel →
  ∃ st', merge_file_two files fuel st (if_name f) ⇓ st' ∧ state_two_ok (dn ++ [f]) st'.
Proof.
  intros HS (fl & Hfl & Hcg & Hne & Hd) HE Hag Hfuel.
  destruct (file_functions_ret fuel dn f st fl HS Hfl Hcg Hne HE) as (fm & M & Hb & Hm & Hok & HM).
  unfold merge_file_two. rewrite Hb, bind_ret, jiter_keys_obj, bind_ret, Hm, bind_ret, jcontains_obj. cbn [fst snd].
  assert (∀ k, has_key (entries_of dn) k → has_key (entries_of (dn ++ [f])) k) as Hmono.
  { intros k Hk. rewrite entries_of_snoc, has_key_app. by left. }
  destruct HS as [_ _ _ S4 S5 S6].
  rewrite data_of_snoc in Hag, Hfuel. destruct (if_data f) as [D2|] eqn:Ef.
  - destruct Hd as (d & Ed & Hfrom & Hok2 & Hn2). rewrite bool_decide_true by by exists d.
    rewrite (jindex_obj _ _ _ Ed), bind_ret.
    assert (∀ D, D ∈ data_of (dn ++ [f]) → names_in D (has_key (entries_of (dn ++ [f])))) as Hnames.
    { intros D. rewrite data_of_snoc, Ef, elem_of_app. simpl. rewrite list_elem_of_singleton. intros [HD| ->].
      - eapply names_in_mono; [exact Hmono|by apply S6].
      - eapply names_in_mono; [|exact Hn2]. intros k Hk%has_key_graph. rewrite entries_of_snoc, has_key_app. by right. }
    assert (∀ D, D ∈ data_of (dn ++ [f]) → names_in D (λ n, is_Some ((node_of <$> M) !! n))) as HnM.
    { intros D HD. eapply names_in_mono; [|by apply Hnames]. intros k Hk. by rewrite lookup_fmap, fmap_is_Some, (proj1 HM k). }
    destruct (mergeEquivalenceClasses_ok (ts_File1Data st) D2 d (jobj M) (node_of <$> M) fuel)
      as (D & J' & N' & Hr & HJ & Hn & HG & Hg).
    + apply S5.
    + done.
    + apply (infos_from_agree (data_of dn)); [apply S5|]. intros D0 H0. apply Hag; set_solver.
    + done.
    + by eapply graph_of_nodes.
    + apply callers_listed_names, (infos_from_names _ _ _ (ds_infos _ _ S5)). intros D0 H0. apply HnM.
      rewrite data_of_snoc. set_solver.
    + apply callers_listed_names, HnM. rewrite data_of_snoc, Ef. set_solver.
    + pose proof (ds_num _ _ S5). rewrite fmap_app, sum_list_with_app in Hfuel. simpl in Hfuel. lia.
    + rewrite Hr, bind_ret. cbn [fst snd]. eexists. split; [done|].
      pose proof (data_state_joined _ _ _ _ S5 HJ Hn) as HDS.
      change [D2] with (option_list (Some D2)) in HDS. rewrite <- Ef, <- data_of_snoc in HDS.
      destruct (graph_grown _ (class_edges (ts_File1Data st)) (class_edges D) M J' N' HM HG Hg) as (M' & -> & HM').
      * intros x y. apply (class_edges_first (ts_File1Data st) D2 D); [apply S5|done|apply S5|done].
      * intros x y. apply class_edges_in, (infos_from_names _ _ _ (ds_infos _ _ HDS)), Hnames.
      * split; cbn; [done| |done| |done|done].
        -- exists M'. by split; [left|].
        -- symmetry. apply bool_decide_eq_true. rewrite data_of_snoc, Ef. by destruct (data_of dn).
  - rewrite Hd, bool_decide_false by (by intros [? [=]]). eexists. split; [done|].
    simpl in Hag. assert (data_of (dn ++ [f]) = data_of dn) as Edn by by rewrite data_of_snoc, Ef, app_nil_r.
    split; cbn; rewrite ?Edn; [done| |done|done|done|].
    + exists M. by split; [left|].
    + intros D HD. eapply names_in_mono; [exact Hmono|by apply S6].
Qed.

Lemma entries_of_prefix dn L : entries_two_ok (entries_of (dn ++ L)) → entries_two_ok (entries_of dn).
Proof. unfold entries_of. rewrite bind_app. apply entries_two_prefix. Qed.

Lemma merge_files_two_ret fuel dn L st :
  state_two_ok dn st → Forall on_disk L → entries_two_ok (entries_of (dn ++ L)) →
  (∀ D1 D2, D1 ∈ data_of (dn ++ L) → D2 ∈ data_of (dn ++ L) → infos_agree D1 D2) →
  sum_list (num_classes <$> data_of (dn ++ L)) < fuel →
  ∃ st', foldM (merge_file_two files fuel) st (if_name <$> L) ⇓ st' ∧ state_two_ok (dn ++ L) st'.
Proof.
  revert dn st. induction L as [|f L IH]; intros dn st HS HL HE Hag Hf.
  { exists st. by rewrite app_nil_r. }
  apply Forall_cons in HL as [Hdisk HL]. change (f :: L) with ([f] ++ L) in HE, Hag, Hf |- *.
  rewrite (assoc_L (++)) in HE, Hag, Hf |- *.
  assert (∀ D, D ∈ data_of (dn ++ [f]) → D ∈ data_of ((dn ++ [f]) ++ L)) as Hsub.
  { intros D. unfold data_of. rewrite (omap_app _ (dn ++ [f]) L). set_solver. }
  destruct (merge_file_two_ret fuel dn f st HS Hdisk (entries_of_prefix _ _ HE)) as (st1 & Hr & HS1).
  { intros D1 D2 H1 H2. apply Hag; by apply Hsub. }
  { unfold data_of in *. rewrite (omap_app _ (dn ++ [f]) L), fmap_app, sum_list_with_app in Hf. lia. }
  cbn [app fmap list_fmap foldM]. rewrite Hr, bind_ret. by apply IH.
Qed.

Lemma state_two_start : state_two_ok [] (mkTwoState ∅ jnull false false container_new).
Proof.
  assert (∀ k, ¬ has_key (entries_of []) k) as Hk by by intros k [v ?%elem_of_nil].
  split; cbn; [|exists ∅; split; [by right|]|done|done|apply data_state_new|by intros D ?%elem_of_nil].
  - split.
    + intros k fi. by rewrite lookup_empty.
    + intros k. rewrite lookup_empty. split; [by intros [? [=]]|by intros ?%Hk].
    + intros k fi x. by rewrite lookup_empty.
    + intros k fi x. by rewrite lookup_empty.
  - split; [|intros k c; by rewrite lookup_empty].
    intros k. rewrite lookup_empty. split; [by intros [? [=]]|by intros ?%Hk].
Qed.

(** The end: the lists of overriding functions are stored. *)
Lemma finish_two_ret L st M :
  records_ok (entries_of L) (ts_functionInfoMap st) →
  merged_two (entries_of L) (class_edges (ts_File1Data st)) M → entries_two_ok (entries_of L) →
  ∃ M', foldM (store_overrides_two (ts_functionInfoMap st)) (jobj M) (ordered_iter M) ⇓ jobj M' ∧
    (∀ k, is_Some (M' !! k) ↔ ∃ n, occurs_two (entries_of L) k n) ∧
    ∀ k w, M' !! k = Some w → ∃ n, represents_two w n ∧
      union_two (entries_of L) (class_edges (ts_File1Data st)) k n ∧
      (∀ x, x ∈ f2_overrides n ↔ ∃ n', occurs_two (entries_of L) k n' ∧ x ∈ f2_overrides n') ∧
      (∀ x, x ∈ f2_overriddenBy n ↔ ∃ n', occurs_two (entries_of L) k n' ∧ x ∈ f2_overriddenBy n').
Proof.
  intros [R1 R2 R3 R4] [HM1 HM2] HE.
  destruct (store_overrides_two_ret (ts_functionInfoMap st) M) as (M' & Hst & Hd & Hs).
  { intros k c Hk. destruct (HM2 k c Hk) as (n & (m & -> & _) & _). by exists m. }
  exists M'. split; [done|]. split.
  - intros k. rewrite Hd, HM1. split; [|intros (n & v & ? & _); by exists v].
    intros [v Hv]. destruct (et_represents _ HE k v Hv) as [n Hn]. by exists n, v.
  - intros k w Hw. destruct (Hs k w Hw) as (c & Hc & Hsc). destruct (HM2 k c Hc) as (n & Hn & [U1 U2 U3 U4]).
    destruct (proj2 (R2 k)) as [fi Hfi]; [apply HM1; by exists c|].
    exists (two_with_stored n fi). split_and!.
    + by eapply stored_two_represents.
    + by split.
    + intros x. by apply R3.
    + intros x. by apply R4.
Qed.

(** C10: The merge of files of format 2 as a whole.  Given files that list the
    functions their alias data names, whose functions without a body call
    nothing, whose bodies agree on the number of statements and that hold neither
    loop depths nor call counts, the program returns with more fuel than the data
    has classes.  The result holds exactly the functions of the inputs, with the
    unions of their callees, callers and overriding lists, and with the calls that
    the merged alias data finds, as callees and as callers: those that the files
    found together, too.  That data is stored if one of the inputs has some. *)
Theorem mergeFileFormatTwo_union fuel major minor sha whole L :
  files !! whole = Some jnull → L ≠ [] → Forall on_disk L → entries_two_ok (entries_of L) →
  (∀ D1 D2, D1 ∈ data_of L → D2 ∈ data_of L → infos_agree D1 D2) →
  sum_list (num_classes <$> data_of L) < fuel →
  ∃ out M D, mergeFileFormatTwo files fuel major minor sha whole (if_name <$> L) ⇓ jobj out ∧
    out !! "_CG" = Some (jobj M) ∧ data_merged (data_of L) D ∧
    out !! "PointerEquivalenceData" = (if decide (data_of L = []) then None else Some (container_toJson D)) ∧
    (∀ k, is_Some (M !! k) ↔ ∃ n, occurs_two (entries_of L) k n) ∧
    ∀ k w, M !! k = Some w → ∃ n, represents_two w n ∧ union_two (entries_of L) (class_edges D) k n ∧
      (∀ x, x ∈ f2_overrides n ↔ ∃ n', occurs_two (entries_of L) k n' ∧ x ∈ f2_overrides n') ∧
      (∀ x, x ∈ f2_overriddenBy n ↔ ∃ n', occurs_two (entries_of L) k n' ∧ x ∈ f2_overriddenBy n').
Proof.
  intros Hwhole Hne HL HE Hag Hf.
  destruct (merge_files_two_ret fuel [] L _ state_two_start HL HE Hag Hf)
    as (st & Hr & [S1 (M0 & HM & HMt) S3 S4 S5 S6]). cbn [app] in *.
  destruct (finish_two_ret L st M0 S1 HMt HE) as (M & Hst & Hdom & Hrep).
  assert (ts_wholeCG st = jobj M0) as HM0.
  { destruct HM as [?|[_ ->]]; [done|]. destruct L as [|f L]; [done|]. apply Forall_cons in HL as [(_ & _ & _ & Hg & _) _].
    destruct (map_choose _ Hg) as (k & v & Hk). destruct (proj2 (proj1 HMt k)) as [? Hx]; [|by rewrite lookup_empty in Hx].
    exists v. unfold entries_of. simpl. apply elem_of_app. left. by apply elem_of_ordered_iter. }
  unfold mergeFileFormatTwo, readIPCG, attachFormatTwoHeader, jfields.
  rewrite Hwhole, bind_ret, jis_null_jmk. cbn [negb]. rewrite Hr, bind_ret, HM0, jiter_keys_obj, bind_ret, Hst, bind_ret.
  rewrite jset_obj, bind_ret, S3. cbn [andb]. rewrite S4.
  destruct (decide (data_of L = [])) as [Ed|Ed].
  - rewrite bool_decide_false, bind_ret by (intros ?; done). eexists _, M, (ts_File1Data st). split; [done|].
    rewrite lookup_insert_eq. split_and!; [done|apply S5| |done|done]. by simplify_map_eq.
  - rewrite bool_decide_true, jset_obj, bind_ret by done. eexists _, M, (ts_File1Data st). split; [done|].
    rewrite lookup_insert_ne, lookup_insert_eq by done. split_and!; [done|apply S5| |done|done]. by rewrite lookup_insert_eq.
Qed.
End files.
