(* ===== verification/AliasExamples.v ===== *)
(** * The alias analysis on small programs

    The theorems on a C program with a call through a function pointer and on a
    C++ program with a virtual method, and what happens where they do not apply:
    a call whose callee expression names the function itself, and a class that
    is erased while its objects are visited; and on the data of two translation units that are merged. *)

From S2P Require Import Prelude AliasNames AliasClasses AliasWf AliasClosure.
From S2P Require Import AliasRecursion AliasExtractor AliasInit AliasExtractorProps.
From Stdlib Require Import Floats.SpecFloat.
From S2P Require Import AliasProgram Json Collector CollectorMergeProps AliasClasses AliasMerge AliasMergeProps.
From S2P Require Import AliasMergeResult CollectorMergeTwo.

Module AliasExample.

(** Declarations are their names; each is its own canonical declaration. *)
Abbreviation canon := (id : string → string).

Definition var (n : string) (level : Z) : ObjectNameDereference := derefOB (mkObjectName n false) level.
Definition fn (n : string) : ObjectNameDereference := derefOB (mkObjectName n true) 0.
Definition object_set (l : list ObjectNameDereference) : list ObjectNameDereference :=
  foldr set_emplace [] l.

Definition container (infos : gmap string FunctionInfo) (calls : gmap string CallInfo)
    (parents : gmap string string) : EquivClassContainer :=
  mkEquivClassContainer list_empty ∅ infos calls ∅ parents ∅.
Definition extractor (D : EquivClassContainer) (decls : list string) : Extractor (Decl := string) :=
  mkExtractor D (list_to_map ((λ d, (d, d)) <$> decls)) (mkCallGraph ∅ []) ∅.

Lemma object_set_ok l :
  Forall (λ o, plain_deref o = true) l →
  Forall (λ o, match getMb o with Some m => member_Member m ≠ EmptyString | None => True end) l →
  objects_ok (object_set l).
Proof.
  intros Hp Hn.
  assert (∀ o, o ∈ object_set l → o ∈ l) as Hin.
  { unfold object_set. intros o. induction l as [|x l IH]; simpl; [done|].
    apply Forall_cons in Hp as [_ Hp], Hn as [_ Hn].
    intros [->|Ho]%elem_of_set_emplace; [by left|right; auto]. }
  rewrite Forall_forall in Hp, Hn. split.
  - clear. unfold object_set. induction l as [|x l IH]; simpl; [constructor|by apply set_emplace_sorted].
  - apply Forall_forall. auto.
  - intros o m Ho Hm. specialize (Hn o (Hin o Ho)). by rewrite Hm in Hn.
Qed.

(** [int *q; void f(int *p) { q = p; }]
    [int main() { void (*fp)(int *) = f; int x; fp(&x); f(q); *q; }] *)
Definition program : Collected :=
  mkCollected
    (object_set [fn "f"; var "f@SRETURN" 0; fn "main"; var "main@SRETURN" 0; var "p" 0; var "q" 0;
                 var "q" 1; var "x" 0; var "x" (-1); var "fp" 0; var "call1" 0; var "call2" 0])
    [(var "fp" 0, OtherExpr ["f"], OtherType)] [(["q"], ["p"])] [] [] [] []
    [mkDirectCall (mkCallInfo ["f"] [["q"]]) "main" "call2" "f"] [] [].
Definition program_state : Extractor :=
  extractor
    (container
       {["f" := mkFunctionInfo ["_Z1fPi"] ["p"] ["f@SRETURN"] false;
         "main" := mkFunctionInfo ["main"] [] ["main@SRETURN"] false]}
       {["call1" := mkCallInfo ["fp"] [["&x"]]]} {["call1" := "main"]})
    ["f"; "main"].
Definition started (C : Collected) (X : Extractor (Decl := string)) : Extractor :=
  match start_state C X with Ret X => X | _ => X end.
Definition program_start : Extractor := started program program_state.

Lemma program_objects : objects_ok (ObjectSet program).
Proof. apply object_set_ok; repeat constructor; done. Qed.
Lemma program_starts : start_state program program_state ⇓ program_start.
Proof. by vm_compute. Qed.
Lemma program_ok : collected_ok program_start program.
Proof. apply collected_check_ok. apply (bool_decide_unpack _). by vm_compute. Qed.
Lemma program_no_pairs p : ¬ call_pair (Data program_start) p.
Proof.
  intros [[f Hf] (o & Ho & i & Hi & Hj)].
  assert (map_Forall (λ F _, map_Forall (λ o _, FindMap (Data program_start) !! F ≠
    FindMap (Data program_start) !! o) (ReferencedInCalls (Data program_start)))
    (FunctionMap (Data program_start))) as Hall.
  { apply (bool_decide_unpack _). by vm_compute. }
  destruct (ReferencedInCalls (Data program_start) !! o) as [cs|] eqn:E; [|by apply elem_of_nil in Ho].
  apply (Hall _ _ Hf _ _ E). congruence.
Qed.

Definition edges_of (X : Extractor (Decl := string)) (f : string) : list (option string) :=
  CalledFunctions (cg_node (CG X) (Some f)).

(** The call through [fp] reaches [f], whose parameter may point to [x]. *)
Example program_resolved :
  match calculatePERelation canon 13 program program_state with
  | Ret X =>
      let cls o := FindMap (Data X) !! o in
      (edges_of X "main", bool_decide (cls "fp" = cls "f"), bool_decide (cls "q" = cls "&x"),
        bool_decide (cls "*q" = cls "x"), bool_decide (cls "x" = cls "q")) =
      ([Some "f"; Some "f"], true, true, true, false)
  | _ => False
  end.
Proof. by vm_compute. Qed.

(** [struct A { virtual void m(); }; struct B : A { void m(); };] and a call
    [o.m()] of the method [A::m] on an object [o]. *)
Definition virtual_program : Collected :=
  mkCollected (object_set [fn "A::m"; var "A::m@THIS" 0; fn "B::m"; var "B::m@THIS" 0; var "o" 0; fn "main"])
    [] [] [] [] [("o", "A::m")] [("A::m", "B::m")] [] [] [].
Definition virtual_state : Extractor :=
  extractor
    (container
       {["A::m" := mkFunctionInfo ["_ZN1A1mEv"] [] [] false; "B::m" := mkFunctionInfo ["_ZN1B1mEv"] [] [] false;
         "main" := mkFunctionInfo ["main"] [] [] false]} ∅ ∅)
    ["A::m"; "B::m"; "main"].
Definition virtual_start : Extractor := started virtual_program virtual_state.

(** The object may be a [B]: the this pointer of [B::m] is joined with it. *)
Lemma calculatePERelation_correct_witness :
  ∃ X', calculatePERelation canon 7 virtual_program virtual_state ⇓ X' ∧
    analysis_result canon virtual_program virtual_state virtual_start X' ∧
    same (Data X') "B::m@THIS" "o".
Proof.
  destruct (calculatePERelation_correct canon virtual_program virtual_state virtual_start 7)
    as (X1 & _ & H1 & [[Hub _]|(X' & Hr & HR & Hthis)]).
  - apply object_set_ok; repeat constructor; done.
  - reflexivity.
  - reflexivity.
  - reflexivity.
  - reflexivity.
  - by vm_compute.
  - apply collected_check_ok. apply (bool_decide_unpack _). by vm_compute.
  - vm_compute. lia.
  - vm_compute in Hub. discriminate Hub.
  - exists X'. split; [done|]. split; [done|].
    apply (Hthis "o" "A::m" ltac:(by left) "B::m" "B::m").
    + apply (ar_requested _ _ _ _ _ H1), rq_override. by left.
    + by vm_compute.
    + apply (bool_decide_unpack _). by vm_compute.
Defined.

Lemma calculatePERelation_exact_witness :
  ∃ X', calculatePERelation canon 13 program program_state ⇓ X' ∧
    (∀ a b, same (Data X') a b ↔ known (Data program_start) a ∧ known (Data program_start) b ∧
       alias_closure (Data program_start) program a b) ∧
    ∀ f g, cg_edge X' f g ↔ cg_edge program_state f g ∨
      (∃ a b, (a, b) ∈ direct_edges program ∧ resolves canon program_start a b f g) ∨
      (∃ F o c name, FunctionMap (Data program_start) !! F = Some name ∧ known (Data program_start) o ∧
         c ∈ default [] (ReferencedInCalls (Data program_start) !! o) ∧
         alias_closure (Data program_start) program F o ∧
         resolves canon program_start (parent program_start c) name f g).
Proof.
  assert (num_classes (Data program_start) < 13) as Hn by (vm_compute; lia).
  apply (calculatePERelation_exact canon program program_state program_start 13
    program_objects eq_refl eq_refl eq_refl eq_refl program_starts program_ok Hn eq_refl program_no_pairs).
Defined.

Lemma initial_classes_consistent_witness :
  ∃ D, initPrefixClasses (ObjectSet program) (initEquivClasses (ObjectSet program) (Data program_state)) ⇓ D
    ∧ container_ok D ∧ (∀ s, known D s ↔ s ∈ GetStringRepr <$> ObjectSet program) ∧
    (∀ a b, same D a b → a = b) ∧
    ∀ s p, prefix_of D s p ↔ known D s ∧ known D (pf_Object p) ∧ spelled_prefix s p.
Proof.
  apply (initial_classes_consistent (ObjectSet program) (Data program_state) program_objects
    eq_refl eq_refl eq_refl).
Defined.

(** Merging [q] with [&x] in the initial classes: [*q] and [x] follow. *)
Lemma program_container : container_ok (Data program_start).
Proof.
  apply (start_facts program program_state program_start program_objects eq_refl eq_refl eq_refl eq_refl program_starts).
Qed.

Definition class_number (X : Extractor (Decl := string)) (o : string) : nat :=
  default 0 (FindMap (Data X) !! o).
Definition class_at (X : Extractor (Decl := string)) (o : string) : EquivClass :=
  default (mkEquivClass [] []) (cells_of (Data X) !! class_number X o).

Lemma mergeRecurisve_closure_witness :
  class_number program_start "q" ≠ class_number program_start "&x" ∧
  ∃ D' calls i,
    mergeRecurisve 12 (Data program_start) (class_number program_start "q")
      (class_number program_start "&x") ⇓ (D', (calls, i)) ∧ container_ok D' ∧
    (∀ o o', same D' o o' ↔ known (Data program_start) o ∧ known (Data program_start) o' ∧
       merge_closure (Data program_start) (class_at program_start "q") (class_at program_start "&x") o o') ∧
    (∀ p, call_pair D' p → call_pair (Data program_start) p ∨ p ∈ calls) ∧
    (∀ p, p ∈ calls → call_pair D' p).
Proof.
  assert (class_number program_start "q" ≠ class_number program_start "&x") as Hne by by vm_compute.
  split; [exact Hne|].
  apply (mergeRecurisve_closure (Data program_start) _ _ (class_at program_start "q")
    (class_at program_start "&x") 12 program_container Hne); [by vm_compute..|].
  vm_compute. lia.
Defined.

Example merge_follows_prefixes :
  match mergeRecurisve 12 (Data program_start) (class_number program_start "q")
          (class_number program_start "&x") with
  | Ret (D', _) => FindMap D' !! "*q" = FindMap D' !! "x"
  | _ => False
  end.
Proof. by vm_compute. Qed.

(** [(c ? f : g)()]: the callee expression names the functions themselves, and
    no merge brings them together with the call: no edge is added. *)
Definition conditional : Collected :=
  mkCollected (object_set [fn "f"; fn "g"; fn "main"; var "call" 0]) [] [] [] [] [] [] [] [] [].
Definition conditional_state : Extractor :=
  extractor
    (container
       {["f" := mkFunctionInfo ["f"] [] [] false; "g" := mkFunctionInfo ["g"] [] [] false;
         "main" := mkFunctionInfo ["main"] [] [] false]}
       {["call" := mkCallInfo ["f"; "g"] []]} {["call" := "main"]}) ["f"; "g"; "main"].

Definition conditional_start : Extractor := started conditional conditional_state.

Example named_callee_not_resolved :
  start_state conditional conditional_state ⇓ conditional_start ∧
  call_pair (Data conditional_start) ("f", "call") ∧
  match calculatePERelation canon 13 conditional conditional_state with
  | Ret X => edges_of X "main" = []
  | _ => False
  end.
Proof.
  split_and!; [by vm_compute| |by vm_compute].
  assert (known (Data conditional_start) "f") as Hf by (apply (bool_decide_unpack _); by vm_compute).
  split; [apply (bool_decide_unpack _); by vm_compute|]. exists "f". split; [|by apply same_refl].
  apply (bool_decide_unpack _). by vm_compute.
Qed.

(** A method [m] in one class with the object [obj] that it is called on: binding
    its this pointer merges, and so erases, the class that the loop visits. *)
Definition this_program : Collected :=
  mkCollected (object_set [fn "m"; var "m@THIS" 0; var "obj" 0; fn "main"]) []
    [(["obj"], ["m"])] [] [] [("obj", "m")] [] [] [] [].
Definition this_state : Extractor :=
  extractor
    (container
       {["m" := mkFunctionInfo ["m"] [] [] false; "main" := mkFunctionInfo ["main"] [] [] false]}
       ∅ ∅) ["m"; "main"].
Definition this_start : Extractor := started this_program this_state.

Example this_pointer_erases_class :
  calculatePERelation canon 13 this_program this_state = UB ∧
  start_state this_program this_state ⇓ this_start ∧ collected_ok this_start this_program.
Proof.
  split_and!; [by vm_compute..|].
  apply collected_check_ok. apply (bool_decide_unpack _). by vm_compute.
Qed.

(** The prefixes of a merged class are not made unique: both classes have the
    prefix [x], and so has the merged one, twice. *)
Definition two_classes : EquivClassContainer :=
  with_classes container_new
    (mkListType [0; 1]
       {[0 := mkEquivClass ["a"] [mkPrefix "x" ""]; 1 := mkEquivClass ["b"] [mkPrefix "x" ""]]} 2)
    {["a" := 0; "b" := 1]}.
Example merge_keeps_duplicates :
  match merge two_classes 0 1 with
  | Ret (D', _) =>
      list_elems (EquivClasses D') = [mkEquivClass ["a"; "b"] [mkPrefix "x" ""; mkPrefix "x" ""]]
  | _ => False
  end.
Proof. by vm_compute. Qed.
End AliasExample.

(** * Two translation units

    The first one calls what its parameter points to, the second one passes the
    address of a function: the call is found when the data of both is merged. *)

Module AliasMergeExample.
Import JsonTree.
#[local] Existing Instance canonical_order.

(** [void apply(void ( *fp)(void)) { fp(); }] *)
Definition apply_info : FunctionInfo := mkFunctionInfo ["apply"] ["fp"] [] false.
Definition first_unit : EquivClassContainer :=
  reread (mkEquivClassContainer
    (list_of [mkEquivClass ["fp"] [mkPrefix "*fp" ""]; mkEquivClass ["*fp"] []; mkEquivClass ["call"] [];
       mkEquivClass ["apply"] []])
    {["apply" := "apply"]} {["apply" := apply_info]}
    {["call" := mkCallInfo ["*fp"] []]} ∅ {["call" := "apply"]} ∅).

(** [void apply(void ( *arg)(void)); void target(void); int main() { apply(&target); }] *)
Definition second_unit : EquivClassContainer :=
  reread (mkEquivClassContainer
    (list_of [mkEquivClass ["arg"; "&target"] [mkPrefix "target" ""]; mkEquivClass ["target"] [];
       mkEquivClass ["apply"] []; mkEquivClass ["main"] []])
    {["apply" := "apply"; "target" := "target"; "main" := "main"]}
    {["apply" := mkFunctionInfo ["apply"] ["arg"] [] false; "target" := mkFunctionInfo ["target"] [] [] false;
      "main" := mkFunctionInfo ["main"] [] [] false]} ∅ ∅ ∅ ∅).

Lemma first_unit_ok : file_ok first_unit.
Proof. apply file_check_ok, (bool_decide_unpack _). by vm_compute. Qed.
Lemma second_unit_ok : file_ok second_unit.
Proof. apply file_check_ok, (bool_decide_unpack _). by vm_compute. Qed.

Lemma units_agree : infos_agree first_unit second_unit.
Proof.
  intros f i1 i2 H1 H2. change (FunctionInfoMap first_unit) with ({["apply" := apply_info]} : gmap string FunctionInfo) in H1.
  apply lookup_singleton_Some in H1 as [<- <-]. vm_compute in H2. injection H2 as <-. done.
Qed.

(** The call graph that has been merged before the classes are. *)
Definition node_of (callees callers : gset string) : json_node := mkJsonNode callees callers ∅.
Definition node_value (n : json_node) : json :=
  jobj (<["callees" := jof_set (jn_callees n)]> (<["callers" := jof_set (jn_callers n)]> ∅)).
Definition merged_nodes : gmap string json_node :=
  <["apply" := node_of ∅ {["main"]}]> (<["target" := node_of ∅ ∅]> (<["main" := node_of {["apply"]} ∅]> ∅)).
Definition merged_calls : json :=
  jobj (<["apply" := node_value (node_of ∅ {["main"]})]> (<["target" := node_value (node_of ∅ ∅)]>
    (<["main" := node_value (node_of {["apply"]} ∅)]> ∅))).

Lemma node_value_ok callees callers : node_json (node_value (node_of callees callers)) (node_of callees callers).
Proof.
  eexists. split; [done|]. split_and!.
  - eexists. split; [by rewrite lookup_insert_eq|apply jget_set_of].
  - eexists. split; [by rewrite lookup_insert_ne, lookup_insert_eq|apply jget_set_of].
  - by vm_compute.
Qed.

Lemma merged_calls_ok : graph_of merged_calls merged_nodes.
Proof.
  repeat (eapply graph_of_insert; [done| |apply node_value_ok]). exists ∅. split; [done|].
  intros f. by rewrite lookup_empty.
Qed.

Lemma first_unit_callers : callers_listed first_unit merged_nodes.
Proof.
  intros c f i Hc Hf. change (CallExprParentMap first_unit) with ({["call" := "apply"]} : gmap string string) in Hc.
  apply lookup_singleton_Some in Hc as [<- <-]. vm_compute in Hf. injection Hf as <-.
  repeat constructor. by eexists.
Qed.
Lemma second_unit_callers : callers_listed second_unit merged_nodes.
Proof. intros c f i Hc. change (CallExprParentMap second_unit) with (∅ : gmap string string) in Hc. by apply lookup_empty_Some in Hc. Qed.

Lemma alias_data_roundtrip_witness :
  ∃ D', container_fromJson (container_toJson first_unit) ⇓ D' ∧ file_ok D'.
Proof.
  destruct (alias_data_roundtrip first_unit first_unit_ok) as (D' & H1 & H2 & _). exists D'. by split.
Defined.

Lemma mergeEquivalenceClasses_correct_witness :
  ∃ D J' M', mergeEquivalenceClasses 9 first_unit (container_toJson second_unit) merged_calls ⇓ (D, J') ∧
    (∀ a b, same D a b ↔ known D a ∧ known D b ∧ unit_closure first_unit (reread second_unit) a b) ∧
    graph_of J' M' ∧ graph_grows merged_nodes M' (class_edges D) (class_edges D).
Proof.
  destruct (mergeEquivalenceClasses_correct first_unit (reread second_unit) (container_toJson second_unit)
    merged_calls merged_nodes 9) as (D & J' & M' & H1 & _ & _ & _ & _ & H2 & H3 & H4).
  - apply first_unit_ok.
  - apply reread_file_ok, second_unit_ok.
  - exact units_agree.
  - apply container_fromJson_toJson.
  - apply merged_calls_ok.
  - apply first_unit_callers.
  - exact second_unit_callers.
  - vm_compute. lia.
  - exists D, J', M'. by split_and!.
Defined.

(** [apply] calls [target], and [fp] and the address of [target] are in one class. *)
Example call_across_units :
  match mergeEquivalenceClasses 9 first_unit (container_toJson second_unit) merged_calls with
  | Ret (D, J) =>
      (v ← jat J "apply"; get_at jget_set v "callees") ⇓ {["target"]} ∧
      (v ← jat J "target"; get_at jget_set v "callers") ⇓ {["apply"]} ∧
      bool_decide (same D "fp" "&target") = true ∧ bool_decide (same D "*fp" "target") = true
  | _ => False
  end.
Proof. vm_compute. split_and!; reflexivity. Qed.
(** ** Both files, merged by the program *)

(** Numbers without a fraction, as far as the example needs them. *)
#[local] Instance whole_doubles : JsonDouble := {
  jget_double e := match jview e with
    | VInt z => Ret (binary_normalize 53 1024 z 0 false)
    | _ => Throw json_type_error
    end;
  jdouble f := jint (match f with
    | S754_finite s m e => (if s then Z.opp else id) (Z.shiftl (Zpos m) e)
    | _ => 0%Z
    end)
}.

(** What the collector writes for a function. *)
Definition function_value (n : function_two) : json :=
  jfields [("callees", jof_set (f2_callees n)); ("callers", jof_set (f2_callers n));
    ("overrides", jof_set (f2_overrides n)); ("overriddenBy", jof_set (f2_overriddenBy n));
    ("isVirtual", jbool false); ("doesOverride", jbool false); ("hasBody", jbool (f2_hasBody n));
    ("meta", jfields [("numStatements", jint (f2_numStatements n));
       ("fileProperties", jfields [("origin", jstr "a.cpp"); ("systemInclude", jbool false)])])].

Lemma function_value_ok n : is_int (f2_numStatements n) → represents_two (function_value n) n.
Proof.
  intros Hn. eexists. split; [reflexivity|].
  split; try (eexists; split; [reflexivity|apply jget_set_of]); try (by eexists).
  eexists. split; [reflexivity|]. split; [done..| |done|done]. by exists "a.cpp", false; eexists.
Qed.

Definition first_functions : list (string * function_two) := [
  ("apply", mkFunctionTwo ∅ ∅ ∅ ∅ true 1)].
Definition second_functions : list (string * function_two) := [
  ("apply", mkFunctionTwo ∅ {["main"]} ∅ ∅ false 0);
  ("target", mkFunctionTwo ∅ ∅ ∅ ∅ false 0);
  ("main", mkFunctionTwo {["apply"]} ∅ ∅ ∅ true 1)].
Definition graph_of_functions (l : list (string * function_two)) : gmap string json :=
  function_value <$> (list_to_map l : gmap string function_two).

Definition unit_file (l : list (string * function_two)) (D : EquivClassContainer) : json :=
  jfields [("_CG", jobj (graph_of_functions l)); ("PointerEquivalenceData", container_toJson D)].
Definition units_on_disk : gmap string json :=
  <["whole" := jnull]> (<["a" := unit_file first_functions first_unit]>
    {["b" := unit_file second_functions second_unit]}).
Definition unit_inputs : list InputFile :=
  [mkInputFile "a" (graph_of_functions first_functions) (Some (reread first_unit));
   mkInputFile "b" (graph_of_functions second_functions) (Some (reread second_unit))].

Lemma names_in_check D (P : string → Prop) :
  map_Forall (λ _ i, Forall P (MangledNames i)) (FunctionInfoMap D) → names_in D P.
Proof. intros H f i n Hi. pose proof (H f i Hi) as HF. rewrite Forall_forall in HF. apply HF. Qed.

Lemma unit_inputs_on_disk : Forall (on_disk units_on_disk) unit_inputs.
Proof.
  apply Forall_cons; split; [|apply Forall_singleton]; eexists; (split; [reflexivity|]); (split; [reflexivity|]);
    (split; [by apply (bool_decide_unpack _); vm_compute|]); eexists; (split; [reflexivity|]);
    (split; [apply container_fromJson_toJson|]).
  - split; [apply reread_file_ok, first_unit_ok|]. apply names_in_check, (bool_decide_unpack _). by vm_compute.
  - split; [apply reread_file_ok, second_unit_ok|]. apply names_in_check, (bool_decide_unpack _). by vm_compute.
Qed.

(** What the merge requires of the functions, as checks. *)
Lemma functions_checked E (l : list (string * function_two)) :
  (∀ k v, (k, v) ∈ E → ∃ n, (k, n) ∈ l ∧ v = function_value n) →
  Forall (λ e, is_int (f2_numStatements e.2) ∧ (f2_hasBody e.2 = true ∨ f2_callees e.2 = ∅) ∧
    Forall (λ e', e.1 = e'.1 → f2_hasBody e.2 = true → f2_hasBody e'.2 = true →
      f2_numStatements e.2 = f2_numStatements e'.2) l) l →
  entries_two_ok E.
Proof.
  intros HE Hl. rewrite Forall_forall in Hl.
  assert (∀ k n, occurs_two E k n → (k, n) ∈ l) as Ho.
  { intros k n (v & Hv & Hn). destruct (HE k v Hv) as (n' & Hn' & ->). destruct (Hl _ Hn') as [Hi _].
    by rewrite (represents_two_inj _ _ _ Hn (function_value_ok n' Hi)). }
  split.
  - intros k v Hv. destruct (HE k v Hv) as (n & Hn & ->). exists n. by apply function_value_ok, (Hl _ Hn).
  - intros k n Hn%Ho Hb. destruct (Hl _ Hn) as (_ & [Hc|Hc] & _); [|done]. simpl in Hc. congruence.
  - intros k n n' Hn%Ho Hn'%Ho Hb Hb'. destruct (Hl _ Hn) as (_ & _ & Hs). rewrite Forall_forall in Hs.
    by apply (Hs _ Hn').
Qed.

Lemma unit_entries_ok : entries_two_ok (entries_of unit_inputs).
Proof.
  apply (functions_checked _ (first_functions ++ second_functions)).
  - intros k v. unfold entries_of, unit_inputs. simpl. rewrite !elem_of_app, elem_of_nil, !elem_of_ordered_iter.
    intros [H|[H|[]]]; apply lookup_fmap_Some in H as (n & <- & Hn%elem_of_list_to_map_2); exists n;
      (split; [apply (proj2 (elem_of_app first_functions second_functions (k, n))); auto|done]).
  - apply (bool_decide_unpack _). by vm_compute.
Qed.

Lemma unit_infos_agree D1 D2 : D1 ∈ data_of unit_inputs → D2 ∈ data_of unit_inputs → infos_agree D1 D2.
Proof.
  assert (∀ D, infos_agree D D) as Hrefl by (intros D f i1 i2 H1 H2; by simplify_eq).
  assert (infos_agree (reread first_unit) (reread second_unit)) as H by exact units_agree.
  unfold data_of, unit_inputs. simpl. rewrite !elem_of_cons, !elem_of_nil.
  intros [->|[->|[]]] [->|[->|[]]]; [done|done| |done].
  intros f i1 i2 H1 H2. by destruct (H f i2 i1 H2 H1) as (-> & -> & ->).
Qed.

Lemma mergeFileFormatTwo_union_witness :
  ∃ out M D, mergeFileFormatTwo units_on_disk 20 0 7 "sha" "whole" ["a"; "b"] ⇓ jobj out ∧
    out !! "_CG" = Some (jobj M) ∧ data_merged (data_of unit_inputs) D ∧
    ∀ k w, M !! k = Some w → ∃ n, represents_two w n ∧
      union_two (entries_of unit_inputs) (class_edges D) k n.
Proof.
  destruct (mergeFileFormatTwo_union units_on_disk 20 0 7 "sha" "whole" unit_inputs)
    as (out & M & D & H1 & H2 & H3 & _ & _ & H4).
  - reflexivity.
  - discriminate.
  - apply unit_inputs_on_disk.
  - apply unit_entries_ok.
  - apply unit_infos_agree.
  - vm_compute. lia.
  - exists out, M, D. split; [exact H1|]. split; [exact H2|]. split; [exact H3|]. intros k w Hw.
    destruct (H4 k w Hw) as (n & Hn & Hu & _). exists n. exact (conj Hn Hu).
Defined.

(** The program writes a graph in which [apply] calls [target]: neither file
    has this call. *)
Example merged_files :
  match cgmerge_main (λ _, true) units_on_disk 20 0 7 "sha" ["whole"; "a"; "b"] with
  | Ret (files, 0%Z) =>
      (w ← readIPCG files "whole"; g ← jat w "_CG"; v ← jat g "apply"; get_at jget_set v "callees") ⇓ {["target"]} ∧
      (w ← readIPCG files "whole"; g ← jat w "_CG"; v ← jat g "target"; get_at jget_set v "callers") ⇓ {["apply"]}
  | _ => False
  end.
Proof. vm_compute. split; reflexivity. Qed.

(** Call counts are sets of pairs: what both files have is kept once. *)
Definition with_counts (l : list (Z * string)) : json :=
  jfields [("meta", jfields [("estimateCallCount", jfields [
    ("calls", jfields [("g", jarr ((λ c, jarr [jint c.1; jstr c.2]) <$> l))]); ("codeRegions", jfields [])])])].
Example merged_call_counts :
  (c ← merge_call_counts (with_counts [(2, ""); (7, "loop")]%Z) (with_counts [(3, ""); (7, "loop")]%Z);
   m ← jat c "meta"; e ← jat m "estimateCallCount"; a ← jat e "calls"; s ← jat a "g"; Ret (jdump s)) =
  Ret (jdump (jarr ((λ c, jarr [jint c.1; jstr c.2]) <$> [(2, ""); (3, ""); (7, "loop")]%Z))).
Proof. vm_compute. reflexivity. Qed.
End AliasMergeExample.
