(* ===== verification/Tools.v ===== *)
(** * The command-line tools around the library

    The main functions of [tools/cgconvert], [tools/cgmerge2], [tools/cgformat]
    and [tools/cgtodot]: each reads graphs from files, works on them and writes
    a file.  Files map paths to the JSON values stored there (printing and
    parsing a JSON text is the JSON library's); the result of a tool is the
    files afterwards and the exit code.  The version of the project that the
    build system puts into the files is a parameter, as is the command line
    parser (cxxopts). *)

From Stdlib Require Import Ascii.
From S2P Require Import Prelude Json MetaData Util Callgraph CallgraphOps.
From S2P Require Import Merge Manager Format4 Format2 Dot Query.

Definition EXIT_SUCCESS : ExitCode := 0%Z.
Definition EXIT_FAILURE : ExitCode := 1%Z.

(** [std::stoi]: white space and a sign are skipped; no digits, or a value that
    is no [int], is an exception. *)
Fixpoint stoi_digits (s : string) : outcome Z :=
  match s with
  | String c s' =>
      if is_space c then stoi_digits s'
      else
        let '(sign, s) :=
          if decide (c = "-"%char) then ((-1)%Z, s')
          else if decide (c = "+"%char) then (1%Z, s') else (1%Z, s) in
        match s with
        | String d _ =>
            if Query.is_digit d then
              let v := (sign * digits_prefix s 0)%Z in
              if decide (is_int v) then Ret v else Throw out_of_range
            else Throw invalid_argument
        | EmptyString => Throw invalid_argument
        end
  | EmptyString => Throw invalid_argument
  end.

Definition stoi : string → outcome Z := stoi_digits.

(** [s.rfind(c)] *)
Fixpoint string_rfind (c : ascii) (s : string) : option nat :=
  match s with
  | EmptyString => None
  | String c' s =>
      match string_rfind c s with
      | Some n => Some (S n)
      | None => if decide (c' = c) then Some 0 else None
      end
  end.

(** [s.substr(pos)] for a position that is not past the end *)
Definition substr_from (pos : nat) (s : string) : string :=
  String.substring pos (String.length s - pos) s.

(** [std::filesystem::path::stem]: the file name without its extension. *)
Definition path_stem (path : string) : string :=
  let filename :=
    match string_rfind "/"%char path with Some n => substr_from (S n) path | None => path end in
  if decide (filename = "." ∨ filename = "..") then filename
  else match string_rfind "."%char filename with
       | Some (S n) => String.substring 0 (S n) filename
       | _ => filename
       end.

Section tools.
Context {JO : JsonOps} {MDI : MetaDataI} {IO : IterOrder}.
(** [MetaCG_VERSION_MAJOR], [MetaCG_VERSION_MINOR] and [MetaCG_GIT_SHA] *)
Context (version_major version_minor : Z) (git_sha : string).
Context (files : gmap string json).

(** The writers as their factory makes them: with the default arguments. *)
Definition write_default (w : MCGWriter) (cg : Callgraph) : outcome json :=
  write w (mkGenerator "CGCollector" version_major version_minor git_sha)
    (mkGenerator "MetaCG" version_major version_minor git_sha) false false cg.

(** ** [cgconvert] *)

(** The reader is used without a test for null. *)
Definition cgconvert_main (u : nat) (argv : list string)
    : outcome (gmap string json * ExitCode) :=
  match argv with
  | _ :: inputFile :: outputFile :: rest =>
      outputMcgVersion ← match rest with s :: _ => stoi s | [] => Ret 4%Z end;
      graph ← load files u inputFile;
      match createWriter outputMcgVersion with
      | None => Ret (files, EXIT_FAILURE)
      | Some mcgWriter =>
          j ← write_default mcgWriter graph;
          Ret (<[outputFile := j]> files, EXIT_SUCCESS)
      end
  | _ => Ret (files, EXIT_FAILURE)
  end.

(** ** [cgmerge2] *)

(** The manager of the process, after [resetManager]. *)
Definition manager_at_start : MCGManager := resetManager (mkManager ∅ ∅ None).

(** The body of the loop over the input files, with the manager or the exit
    code of a [return]; the new graph has an address that is not in use. *)
Definition merge_input (st : MCGManager + ExitCode) (inFile : string)
    : outcome (MCGManager + ExitCode) :=
  match st with
  | inr code => Ret (inr code)
  | inl m =>
      src ← FileSource_get files inFile;
      if jis_null src then Ret (inl m)
      else
        (* a different version only leads to a warning *)
        _ ← getFormatVersion src;
        r ← createReader src;
        match r with
        | None => Ret (inr EXIT_FAILURE)
        | Some mcgReader =>
            let u := fresh (dom (heap m)) in
            p ← read mcgReader u src;
            a ← addToManagedGraphs m inFile (Some (u, p.1)) true;
            Ret (inl a.1)
        end
  end.

Definition cgmerge2_main (argv : list string) : outcome (gmap string json * ExitCode) :=
  match argv with
  | _ :: outfile :: inFile :: rest =>
      src ← FileSource_get files inFile;
      versionStr ← getFormatVersion src;
      mcgVersion ← stoi versionStr;
      st ← foldM merge_input (inl manager_at_start) (inFile :: rest);
      match st with
      | inr code => Ret (files, code)
      | inl m =>
          m ← mergeIntoActiveGraph MergeByName m;
          match createWriter mcgVersion with
          | None => Ret (files, EXIT_FAILURE)
          | Some mcgWriter =>
              cg ← match activeGraph m with
                   | Some p => g ← deref (heap m !! p); Ret (Some g)
                   | None => Ret None
                   end;
              j ← write_graph mcgWriter (mkGenerator "CGCollector" version_major version_minor git_sha)
                    (mkGenerator "MetaCG" version_major version_minor git_sha) false false cg jnull;
              Ret (<[outfile := j]> files, EXIT_SUCCESS)
          end
      end
  | _ => Ret (files, EXIT_FAILURE)
  end.
End tools.

(** ** [cgformat] *)

(** The values of the options; the number of blanks for the indentation does not
    change the JSON value. *)
Record FormatOptions := mkFormatOptions {
  fo_help : bool;
  fo_input : outcome string;
  fo_output : string;
  fo_apply : bool;
  fo_abort_after_error : bool;
  fo_origin_prefix : string;
  fo_origin_prefix_to_replace : string;
  fo_ignore_system_includes : bool;
  fo_discard_failed_metadata : bool
}.

Definition replacePathPrefix (originalPath targetDir newPrefix : string) : option string :=
  let search := "/" +:+ targetDir in
  match String.index 0 search originalPath with
  | None => None
  | Some pos => Some (newPrefix +:+ substr_from (pos + String.length search) originalPath)
  end.

Section cgformat.
Context {JO : JsonOps} {MDI : MetaDataI} {IO : IterOrder}.
Context (version_major version_minor : Z) (git_sha : string).
Context (files : gmap string json).
Context (o : FormatOptions).

Definition checkOnly : bool := negb (fo_apply o).

Definition is_system_include (n : CgNode) : outcome bool :=
  if fo_ignore_system_includes o then
    match md_get (node_md n) FilePropertiesMD_key with
    | Some md => md_fromSystemInclude md
    | None => Ret false
    end
  else Ret false.

Definition has_prefix (origin : string) : bool :=
  bool_decide (String.length (fo_origin_prefix o) ≤ String.length origin) &&
  bool_decide (String.substring 0 (String.length (fo_origin_prefix o)) origin = fo_origin_prefix o).

(** What an error leads to while only checking. *)
Definition check_failed (g : Callgraph) : (Callgraph * bool) + ExitCode :=
  if fo_abort_after_error o then inr EXIT_FAILURE else inl (g, false).

(** The body of the loop over the nodes; the state is the graph and
    [checkSucceeded], or the exit code of a [return]. *)
Definition format_node (st : (Callgraph * bool) + ExitCode) (node : option CgNode)
    : outcome ((Callgraph * bool) + ExitCode) :=
  match st with
  | inr code => Ret (inr code)
  | inl (g, checkSucceeded) =>
      n ← deref node;
      match origin n with
      | None => Ret st
      | Some orig =>
          if decide (orig = "") then
            if checkOnly then Ret (check_failed g)
            else Ret (inl (update_node g (node_id n) (setOrigin None), checkSucceeded))
          else
            isSysInclude ← is_system_include n;
            if negb isSysInclude && negb (has_prefix orig) then
              if checkOnly then Ret (check_failed g)
              else if decide (fo_origin_prefix_to_replace o = "") then Ret st
              else
                match replacePathPrefix orig (fo_origin_prefix_to_replace o) (fo_origin_prefix o) with
                | Some newOrigin =>
                    Ret (inl (update_node g (node_id n) (setOrigin (Some newOrigin)), checkSucceeded))
                | None => Ret st
                end
            else Ret st
      end
  end.

(** The node container with its erased entries, as [getNodes] returns it. *)
Definition format_graph (g : Callgraph) : outcome ((Callgraph * bool) + ExitCode) :=
  if decide (fo_origin_prefix o = "") then Ret (inl (g, true))
  else foldM format_node (inl (g, true)) (nodes g).

Definition cgformat_run (u : nat) : outcome (gmap string json * ExitCode) :=
  if fo_help o then Ret (files, EXIT_SUCCESS)
  else
    inputFile ← fo_input o;
    let outputFile := if decide (fo_output o = "") then inputFile else fo_output o in
    let overwriting := bool_decide (inputFile = outputFile) in
    src ← FileSource_get files inputFile;
    r ← createReader src;
    mcgReader ← deref r;
    p ← read mcgReader u src;
    let failedToRead := p.2 in
    st ← format_graph p.1;
    match st with
    | inr code => Ret (files, code)
    | inl (g, checkSucceeded) =>
        if checkOnly then Ret (files, if (checkSucceeded : bool) then EXIT_SUCCESS else EXIT_FAILURE)
        else if negb (bool_decide (length failedToRead = 0)) &&
                (negb (fo_discard_failed_metadata o) || overwriting)
        then Ret (files, EXIT_FAILURE)
        else
          versionStr ← getFormatVersion src;
          outputMcgVersion ← stoi versionStr;
          match createWriter outputMcgVersion with
          | None => Ret (files, EXIT_FAILURE)
          | Some mcgWriter =>
              j ← write_default version_major version_minor git_sha mcgWriter g;
              Ret (<[outputFile := j]> files, EXIT_SUCCESS)
          end
    end.
End cgformat.

(** [main] of [cgformat]: the parser may throw. *)
Definition cgformat_main {JO : JsonOps} {MDI : MetaDataI} {IO : IterOrder}
    (version_major version_minor : Z) (git_sha : string) (files : gmap string json)
    (parse : list string → outcome FormatOptions) (u : nat) (argv : list string)
    : outcome (gmap string json * ExitCode) :=
  o ← parse argv;
  cgformat_run version_major version_minor git_sha files o u.

(** ** [cgtodot] *)

Record DotOptions := mkDotOptions {
  do_help : bool;
  do_input : option string;
  do_output : option string
}.

(** Returns the text file that was written, and the exit code. *)
Definition cgtodot_main {JO : JsonOps} {MDI : MetaDataI} {IO : IterOrder}
    (files : gmap string json) (parse : list string → outcome DotOptions) (u : nat)
    (argv : list string) : outcome (option (string * string) * ExitCode) :=
  o ← parse argv;
  if do_help o then Ret (None, EXIT_SUCCESS)
  else match do_input o with
  | None => Ret (None, EXIT_FAILURE)
  | Some inputFile =>
      if negb (bool_decide (is_Some (files !! inputFile))) then Ret (None, EXIT_FAILURE)
      else
        let outputFile :=
          match do_output o with Some f => f | None => path_stem inputFile +:+ ".dot" end in
        src ← FileSource_get files inputFile;
        r ← createReader src;
        match r with
        | None => Ret (None, EXIT_FAILURE)
        | Some mcgReader =>
            p ← read mcgReader u src;
            text ← generate true p.1;
            Ret (Some (outputFile, text), EXIT_SUCCESS)
        end
  end.
