(* ===== verification/ToolsProps.v ===== *)
(** * Converting and merging files

    [cgconvert] and [cgmerge2] from the files on disk to the files on disk: the
    composition of the choice of the reader, the reader, the graph manager, the
    merge, the choice of the writer and the writer. *)

From S2P Require Import Prelude Json MetaData BuiltinMD Util Callgraph.
From S2P Require Import CallgraphWf CallgraphOps CallgraphSpec CallgraphProps Merge MergeProps.
From S2P Require Import MergeExamples Manager Format4 Roundtrip4 Format4Examples Exchange.
From S2P Require Import Format2 Format2Examples Dot Query QueryProps Tools.

(** ** Files of format 4 *)

Section files.
Context {JO : JsonOps} {JL : JsonLaws} {MDI : MetaDataI} {MDL : MetaDataLaws} {IO : IterOrder}.
Context (rt : MD → Prop).

(** The writer for format 4 made this file out of the graph. *)
Definition written (file : json) (g : Callgraph) : Prop :=
  ∃ gen b sorted, exportable rt g b ∧ version_readable gen ∧
    write4 (mkFileInfo (MCGFileFormatInfo_new 4 0) gen) b sorted g ⇓ file.

(** What the tools see of such a file. *)
Record file4_of (file : json) (u : nat) (g g' : Callgraph) (π : GraphMapping) : Prop := {
  fo_version : getFormatVersion file ⇓ "4.0";
  fo_not_null : jis_null file = false;
  fo_reader : createReader file ⇓ Some VersionFourMCGReader;
  fo_read : read VersionFourMCGReader u file ⇓ (g', []);
  fo_as_read : as_read g';
  fo_renumbered : renumbered π g g';
  fo_again : exportable rt g' false
}.

Context {RT : RoundTrip rt} {TR : Transferable rt}.

Lemma written_wf file g : written file g → wf g.
Proof. intros (gen & b & sorted & Hex & _). apply (ex_wf _ _ _ Hex). Qed.

Lemma written_file file g : written file g → ∀ u, ∃ g' π, file4_of file u g g' π.
Proof using All.
  intros (gen & b & sorted & Hex & Hgen & Hw) u.
  destruct (format4_read_back rt gen g b sorted u Hex Hgen) as (j & g' & π & Hj & Hr & Har & Hrn).
  assert (j = file) as -> by congruence. exists g', π. split; [| | |done|done|done|].
  - destruct sorted; [rewrite write_sorted_same in Hw|]; by eapply header_version; [|exact Hw].
  - assert (∃ M Mg, file = file4 (mkFileInfo (MCGFileFormatInfo_new 4 0) gen) M Mg) as (M & Mg & ->).
    { destruct sorted; [rewrite write_sorted_same in Hw|]; by eapply write4_shape. }
    unfold file4, attachMCGFormatHeader. by rewrite jview_jmk, jis_null_jmk.
  - by apply (createReader_written VersionFourMCGWriter gen gen b sorted g).
  - by eapply (renumbered_exportable π g g').
Qed.

(** The file that a tool of the given version writes for format 4. *)
Definition tool_version (major minor : Z) (sha : string) : Prop :=
  version_readable (mkGenerator "MetaCG" major minor sha).

Lemma write_default_ok major minor sha g :
  tool_version major minor sha → exportable rt g false →
  ∃ file, write_default major minor sha VersionFourMCGWriter g ⇓ file ∧ written file g.
Proof using All.
  intros Hv Hex. destruct (format4_read_back rt _ g false false 0 Hex Hv) as (j & _ & _ & Hj & _).
  exists j. split; [done|]. by exists (mkGenerator "MetaCG" major minor sha), false, false.
Qed.

Lemma load_written files path file u g g' π :
  files !! path = Some file → file4_of file u g g' π → load files u path ⇓ g'.
Proof. intros Hf [_ _ Hc Hr _ _ _]. by eapply load_ret. Qed.
End files.

Lemma stoi_4 : stoi "4" ⇓ 4%Z ∧ stoi "4.0" ⇓ 4%Z.
Proof. vm_compute. done. Qed.

(** ** [cgconvert] *)

Section convert.
Context {JO : JsonOps} {JL : JsonLaws} {MDI : MetaDataI} {MDL : MetaDataLaws} {IO : IterOrder}.
Context {MC : MappingComposes} (rt : MD → Prop) {RT : RoundTrip rt} {TR : Transferable rt}.

(** C14: [cgconvert] with the default version, or version 4, on a file that the
    format-4 writer made from an exportable graph (consistent, nonempty names,
    distinct identifiers in the file, no metadata on edges, and node and graph
    metadata that survives its JSON value and a renumbering), and with a
    version of the tool that can be parsed: it succeeds, writes exactly the
    output file, and the graph in that file is the graph in the input file up
    to an injective renumbering of its nodes, with the same names, origins,
    bodies, edges, node metadata and graph metadata. *)
Theorem cgconvert_keeps_graph major minor sha files u program inputFile outputFile rest file g :
  tool_version major minor sha → files !! inputFile = Some file → written rt file g →
  (rest = [] ∨ ∃ r, rest = "4" :: r) →
  ∃ out, cgconvert_main major minor sha files u (program :: inputFile :: outputFile :: rest)
      ⇓ (<[outputFile := out]> files, EXIT_SUCCESS) ∧
    ∀ u', ∃ g' π, load (<[outputFile := out]> files) u' outputFile ⇓ g' ∧ wf g' ∧ renumbered π g g'.
Proof.
  intros Hv Hf Hw Hrest. destruct (written_file rt file g Hw u) as (g1 & π1 & H1).
  destruct (write_default_ok rt major minor sha g1 Hv (fo_again _ _ _ _ _ _ H1)) as (out & Hout & Hw1).
  exists out. split.
  - unfold cgconvert_main. assert (match rest with s :: _ => stoi s | [] => Ret 4%Z end ⇓ 4%Z) as ->.
    { destruct Hrest as [-> |[r ->]]; [done|apply stoi_4]. }
    rewrite bind_ret, (load_written rt files inputFile file u g g1 π1 Hf H1), bind_ret.
    change (createWriter 4) with (Some VersionFourMCGWriter). cbv iota. by rewrite Hout.
  - intros u'. destruct (written_file rt out g1 Hw1 u') as (g2 & π2 & H2). exists g2, (π2 ∘ₘ π1).
    split; [|split].
    + eapply (load_written rt); [apply lookup_insert_eq|exact H2].
    + apply (fo_as_read _ _ _ _ _ _ H2).
    + destruct Hw as (gen & b & sorted & Hex & _).
      by eapply renumbered_trans; [exact Hex|apply H1|apply H2].
Qed.
End convert.

(** ** [cgmerge2] *)

Section merge_files.
Context {JO : JsonOps} {JL : JsonLaws} {MDI : MetaDataI} {MDL : MetaDataLaws} {IO : IterOrder}.
Context (good : MD → Prop) {RT : RoundTrip good} {MG : Mergeable good}.
Context (files : gmap string json) (graph_of : string → Callgraph).

(** Each input file holds a graph in which names are unique. *)
Definition input_file (path : string) : Prop :=
  ∃ file, files !! path = Some file ∧ written good file (graph_of path) ∧ unique_names (graph_of path).

(** [h] is what was read from the file of [g]. *)
Record loaded (g h : Callgraph) : Prop := {
  ld_source : good_source good h;
  ld_edges : edge_md_free h;
  ld_named : hasNode_name h "" = false;
  ld_names : ∀ f, hasNode_name h f = hasNode_name g f;
  ld_calls : ∀ s t, existsAnyEdge h s t = existsAnyEdge g s t
}.

Lemma file4_loaded file u g h π :
  wf g → unique_names g → file4_of good file u g h π → loaded g h.
Proof.
  intros Hwf Hu [_ _ _ _ Har Hrn Hex]. pose proof (ar_wf _ Har) as Hwf'. split.
  - eapply read_source; [exact Hex| |done]. by eapply renumbered_unique.
  - apply Har.
  - apply not_true_iff_false. intros (i & n & Hn & Hf)%hasNode_name_true; [|done].
    by eapply (ex_names _ _ _ Hex).
  - intros f. by eapply renumbered_hasNode.
  - intros s t. by eapply renumbered_existsAnyEdge.
Qed.

(** The manager after the files [dn] were loaded. *)
Record managed (dn : list string) (m : MCGManager) : Prop := {
  mn_wf : mgr_wf m;
  mn_names : ∀ n, is_Some (managedGraphs m !! n) ↔ n ∈ dn;
  mn_graphs : ∀ n q, managedGraphs m !! n = Some q →
    ∃ h, heap m !! q = Some h ∧ loaded (graph_of n) h;
  mn_active : dn ≠ [] → is_Some (activeGraph m)
}.

Lemma managed_start : managed [] manager_at_start.
Proof.
  split; [apply mgr_wf_empty| |done|done]. intros n. unfold manager_at_start. cbn.
  rewrite lookup_empty. split; [by intros [? ?]|by intros ?%elem_of_nil].
Qed.

Lemma merge_input_step dn m path :
  managed dn m → input_file path → path ≠ "" →
  ∃ m', merge_input files (inl m) path ⇓ inl m' ∧ managed (dn ++ [path]) m'.
Proof using All.
  intros [Hm Hn Hg Ha] (file & Hf & Hw & Hu) Hp.
  set (u := fresh (dom (heap m))).
  destruct (written_file good file _ Hw u) as (h & π & H4).
  pose proof (file4_loaded file u _ h π (written_wf good _ _ Hw) Hu H4) as Hl.
  assert (heap m !! u = None) as Hfresh by apply not_elem_of_dom, is_fresh.
  destruct (addToManaged_wf m path u h true Hm Hfresh Hp) as (m' & Hadd & Hm' & Hu' & Hp'); [done|].
  exists m'. split.
  { unfold merge_input, FileSource_get. destruct H4 as [Hv Hnull Hc Hr _ _ _].
    rewrite Hf, bind_ret, Hnull, Hv, bind_ret, Hc, bind_ret. fold u. rewrite Hr, bind_ret.
    cbn [fst]. by rewrite Hadd. }
  unfold addToManagedGraphs in Hadd. cbn in Hadd. injection Hadd as <-.
  split; simpl in *; [done|..].
  - intros n. rewrite lookup_insert_is_Some', Hn, elem_of_app, list_elem_of_singleton.
    split; intros [?|?]; auto.
  - intros n q [[<- <-]|[Hne Hq]]%lookup_insert_Some; [by exists h|].
    destruct (Hg n q Hq) as (k & Hk & Hlk). exists k. split; [|done].
    rewrite lookup_insert_ne by (intros ->; congruence).
    destruct (managedGraphs m !! path) as [old|] eqn:Hold; [|done].
    rewrite lookup_delete_ne; [done|]. intros ->. by eapply Hne, (mw_inj _ Hm).
  - by eexists.
Qed.

Lemma merge_inputs inputs :
  (∀ p, p ∈ inputs → input_file p ∧ p ≠ "") →
  ∃ m, foldM (merge_input files) (inl manager_at_start) inputs ⇓ inl m ∧ managed inputs m.
Proof using All.
  intros Hin. destruct (foldM_ind (λ dn st, ∃ m, st = inl m ∧ managed dn m)
    (merge_input files) inputs (inl manager_at_start)) as (st & Hr & m & -> & Hm).
  - exists manager_at_start. split; [done|apply managed_start].
  - intros dn p rest st Hl (m & -> & Hm). destruct (Hin p) as [Hp Hne]; [rewrite Hl; set_solver|].
    destruct (merge_input_step dn m p Hm Hp Hne) as (m' & Hr & Hm').
    exists (inl m'). split; [done|]. by exists m'.
  - by exists m.
Qed.

(** Merging what was loaded. *)
Lemma managed_merge inputs m :
  managed inputs m → inputs ≠ [] →
  ∃ p g', activeGraph m = Some p ∧ mergeIntoActiveGraph MergeByName m ⇓ set_graph m p g' ∧
    wf g' ∧ exportable good g' false ∧
    (∀ f, hasNode_name g' f = true ↔ ∃ n, n ∈ inputs ∧ hasNode_name (graph_of n) f = true) ∧
    (∀ s t, existsAnyEdge g' s t = true ↔ ∃ n, n ∈ inputs ∧ existsAnyEdge (graph_of n) s t = true).
Proof using MDL MG.
  intros [Hm Hn Hg Ha] Hne. destruct (Ha Hne) as [p Hp].
  destruct (mw_active _ Hm p Hp) as [np Hnp]. destruct (Hg np p Hnp) as (g & Hgp & Hl).
  assert (∀ (Q : Callgraph → bool), (∀ n h, loaded (graph_of n) h → Q h = Q (graph_of n)) →
    (∃ n q h, managedGraphs m !! n = Some q ∧ heap m !! q = Some h ∧ Q h = true) ↔
    ∃ n, n ∈ inputs ∧ Q (graph_of n) = true) as Hex.
  { intros Q HQ. split.
    - intros (n & q & h & Hq & Hh & Hb). exists n. destruct (Hg n q Hq) as (h' & Hh' & Hl').
      assert (h' = h) as -> by congruence. rewrite <- (HQ n h Hl'). split; [|done]. apply Hn. by exists q.
    - intros (n & [q Hq]%Hn & Hb). destruct (Hg n q Hq) as (h & Hh & Hl'). exists n, q, h.
      by rewrite (HQ n h Hl'). }
  destruct (mergeIntoActiveGraph_ret good MergeByName edge_md_free) with (m := m) (p := p) (g := g)
    as (g' & Hrun & (Hwf' & Hok' & He') & Hnames & Hcalls); [|done..| | |].
  - intros g1 h1 g2 r Hf1 Hf2 Hr. by eapply merge_edge_md_free.
  - destruct (ld_source _ _ Hl) as [[Hwf _] _ _ Hok _]. split; [done|]. split; [done|apply Hl].
  - intros n q h Hq _ Hh. destruct (Hg n q Hq) as (h' & Hh' & Hl'). assert (h' = h) as -> by congruence.
    split; apply Hl'.
  - exists p, g'. split_and!; [done..| | |].
    + apply merged_exportable; [done..|]. apply not_true_iff_false. rewrite Hnames.
      intros (n & q & h & Hq & Hh & Hb). destruct (Hg n q Hq) as (h' & Hh' & Hl').
      assert (h' = h) as -> by congruence. by rewrite (ld_named _ _ Hl') in Hb.
    + intros f. rewrite Hnames. apply (Hex (λ h, hasNode_name h f)). intros n h Hlh. apply Hlh.
    + intros s t. rewrite Hcalls. apply (Hex (λ h, existsAnyEdge h s t)). intros n h Hlh. apply Hlh.
Qed.

(** C13: [cgmerge2] on a nonempty list of files, in any order and the same file
    possibly twice, each of them a file that the format-4 writer made from an
    exportable graph (consistent, with distinct identifiers in the file,
    nonempty and unique names, no metadata on edges) whose metadata survives
    its JSON value and always merges (which excludes the classes that add
    counters, because a sum may overflow), and with a version of the tool that
    can be parsed: it succeeds, writes exactly the output file, and the graph
    in that file is the union of the graphs in the input files: a function name
    is there exactly if one of them has it, and a call between two names
    exactly if one of them has it.  The path [""] names no file. *)
Theorem cgmerge2_union major minor sha program outfile inputs :
  tool_version major minor sha → files !! "" = None → inputs ≠ [] →
  (∀ p, p ∈ inputs → input_file p) →
  ∃ out, cgmerge2_main major minor sha files (program :: outfile :: inputs)
      ⇓ (<[outfile := out]> files, EXIT_SUCCESS) ∧
    ∀ u, ∃ g', load (<[outfile := out]> files) u outfile ⇓ g' ∧ wf g' ∧
      (∀ f, hasNode_name g' f = true ↔ ∃ p, p ∈ inputs ∧ hasNode_name (graph_of p) f = true) ∧
      (∀ s t, existsAnyEdge g' s t = true ↔
         ∃ p, p ∈ inputs ∧ existsAnyEdge (graph_of p) s t = true).
Proof using All.
  intros Hv Hempty Hne Hin.
  destruct (merge_inputs inputs) as (m & Hrun & Hm).
  { intros p Hp. split; [by apply Hin|]. intros ->. destruct (Hin "" Hp) as (? & ? & _). congruence. }
  destruct (managed_merge inputs m Hm Hne) as (p & g & Hp & Hmerge & Hwf & Hex & Hnames & Hcalls).
  destruct (write_default_ok good major minor sha g Hv Hex) as (out & Hout & Hw).
  exists out. split.
  - destruct inputs as [|path rest]; [done|]. unfold cgmerge2_main.
    destruct (Hin path) as (file & Hf & Hwr & _); [set_solver|].
    destruct (written_file good file _ Hwr 0) as (h & π & H4).
    unfold FileSource_get at 1. rewrite Hf, bind_ret, (fo_version _ _ _ _ _ _ H4), bind_ret.
    rewrite (proj2 stoi_4), bind_ret, Hrun, bind_ret, Hmerge, bind_ret.
    change (createWriter 4) with (Some VersionFourMCGWriter). cbv iota.
    unfold set_graph. cbn [activeGraph heap]. rewrite Hp, lookup_insert_eq. cbn [deref].
    rewrite !bind_ret. unfold write_graph. fold (write_default major minor sha VersionFourMCGWriter g).
    by rewrite Hout.
  - intros u. destruct (written_file good out g Hw u) as (g' & π & H4).
    pose proof (fo_as_read _ _ _ _ _ _ H4) as [Hwf' _ _]. pose proof (fo_renumbered _ _ _ _ _ _ H4) as Hrn.
    exists g'. split; [eapply load_written; [apply lookup_insert_eq|exact H4]|]. split; [done|]. split.
    + intros f. by rewrite (renumbered_hasNode π g g' Hwf Hwf' Hrn), Hnames.
    + intros s t. by rewrite (renumbered_existsAnyEdge π g g' Hwf Hwf' Hrn), Hcalls.
Qed.
End merge_files.

(** ** Files in a format without a reader *)

Section errors.
Context {JO : JsonOps} {MDI : MetaDataI} {IO : IterOrder}.

(** The tools disagree about files for which the factory has no reader, for
    example of format 3: [cgtodot] reports an error, whereas [cgconvert] and
    [cgformat] dereference the null pointer that the factory returned. *)
Theorem no_reader_is_checked_by_cgtodot_only major minor sha files u path outputFile src program o
    parse_dot dot_argv :
  files !! path = Some src → createReader src ⇓ None →
  fo_help o = false → fo_input o ⇓ path →
  (∃ output, parse_dot dot_argv ⇓ mkDotOptions false (Some path) output) →
  cgconvert_main major minor sha files u [program; path; outputFile] = UB ∧
  cgformat_run major minor sha files o u = UB ∧
  cgtodot_main files parse_dot u dot_argv ⇓ (None, EXIT_FAILURE).
Proof.
  intros Hf Hc Hh Hi [output Hp]. split_and!.
  - unfold cgconvert_main, load, FileSource_get. by rewrite bind_ret, Hf, bind_ret, Hc.
  - unfold cgformat_run, FileSource_get. by rewrite Hh, Hi, bind_ret, Hf, bind_ret, Hc.
  - unfold cgtodot_main, FileSource_get. rewrite Hp, bind_ret. cbn [do_help do_input].
    rewrite Hf, bool_decide_true by (by eexists). cbn [negb]. by rewrite bind_ret, Hc.
Qed.
End errors.
