(* ===== verification/CgFormatProps.v ===== *)
(** * Checking and repairing origins

    [cgformat]: what the check accepts, what [--apply] writes, and that a graph
    that was repaired passes the check. *)

From Stdlib Require Import Ascii.
From S2P Require Import Prelude Json MetaData BuiltinMD Util Callgraph.
From S2P Require Import CallgraphWf CallgraphOps CallgraphSpec CallgraphProps Merge MergeProps.
From S2P Require Import Format4 Roundtrip4 Format4Examples Exchange Format2.
From S2P Require Import Dot DotProps Query QueryProps Tools ToolsProps.

(** ** Prefixes and directories *)

Lemma chars_inj s t : chars s = chars t → s = t.
Proof. intros Heq. by rewrite <- (unchars_chars s), Heq, unchars_chars. Qed.

Lemma chars_substr_from n s : chars (substr_from n s) = drop n (chars s).
Proof.
  unfold substr_from. rewrite chars_substring, take_ge; [done|].
  rewrite length_drop, chars_length. lia.
Qed.

(** Where a part of a string lies. *)
Lemma substring_split s m t :
  t ≠ "" → String.substring m (String.length t) s = t →
  ∃ a, s = a +:+ t +:+ substr_from (m + String.length t) s ∧ String.length a = m.
Proof.
  intros Hne Hs. apply (f_equal chars) in Hs. rewrite chars_substring in Hs.
  assert (m < length (chars s)) as Hm.
  { destruct (decide (m < length (chars s))); [done|]. rewrite drop_ge, take_nil in Hs by lia.
    destruct t; done. }
  exists (unchars (take m (chars s))). split.
  - apply chars_inj. rewrite !chars_app, chars_unchars, chars_substr_from, <- Hs.
    by rewrite <- drop_drop, take_drop, take_drop.
  - rewrite <- chars_length, chars_unchars, length_take_le by lia. done.
Qed.

Lemma substring_app a t b :
  String.substring (String.length a) (String.length t) (a +:+ t +:+ b) = t.
Proof.
  apply chars_inj. rewrite chars_substring, !chars_app, <- !chars_length.
  by rewrite drop_app_length, take_app_length.
Qed.

(** A path is cut at the first place where the name of the directory follows a
    slash, and the part behind that name is kept. *)
Lemma replacePathPrefix_ret path dir new :
  match replacePathPrefix path dir new with
  | Some r => ∃ a b, path = a +:+ ("/" +:+ dir) +:+ b ∧ r = new +:+ b ∧
      ∀ a' b', path = a' +:+ ("/" +:+ dir) +:+ b' → String.length a ≤ String.length a'
  | None => ∀ a b, path ≠ a +:+ ("/" +:+ dir) +:+ b
  end.
Proof.
  unfold replacePathPrefix. set (t := "/" +:+ dir). assert (t ≠ "") as Ht by done.
  destruct (String.index 0 t path) as [pos|] eqn:Hi.
  - destruct (substring_split path pos t Ht) as (a & Ha & Hl); [by apply String.index_correct1 in Hi|].
    exists a, (substr_from (pos + String.length t) path). split_and!; [done|done|].
    intros a' b' Hp. rewrite Hl. apply Nat.nlt_ge. intros Hlt.
    apply (String.index_correct2 _ _ _ _ Hi (String.length a')); [lia|done|].
    rewrite Hp. apply substring_app.
  - intros a b Hp. apply (String.index_correct3 _ (String.length a) _ _ Hi Ht); [lia|].
    rewrite Hp. apply substring_app.
Qed.

(** The comparison in the check is the test for a prefix. *)
Lemma has_prefix_true o s : has_prefix o s = true ↔ ∃ t, s = fo_origin_prefix o +:+ t.
Proof.
  unfold has_prefix. rewrite andb_true_iff, !bool_decide_eq_true.
  assert (∀ t, String.substring 0 (String.length (fo_origin_prefix o)) s = t ↔
    take (String.length (fo_origin_prefix o)) (chars s) = chars t) as Hsub.
  { intros t. pose proof (chars_substring 0 (String.length (fo_origin_prefix o)) s) as Hs.
    rewrite drop_0 in Hs. rewrite <- Hs. split; [by intros ->|apply chars_inj]. }
  rewrite Hsub. split.
  - intros [_ Heq]. exists (unchars (drop (String.length (fo_origin_prefix o)) (chars s))).
    apply chars_inj. by rewrite chars_app, chars_unchars, <- Heq, take_drop.
  - intros [t ->]. rewrite chars_app, <- !chars_length, chars_app, length_app, take_app_length.
    split; [lia|done].
Qed.

(** ** Checking *)

Section check.
Context {JO : JsonOps} {MDI : MetaDataI} {IO : IterOrder}.
Context (o : FormatOptions).

(** An origin is absent, or it is not empty and starts with the prefix; system
    includes may be exempt from the prefix. *)
Definition conforms (n : CgNode) : Prop :=
  match origin n with
  | None => True
  | Some s => s ≠ "" ∧ (is_system_include o n ⇓ true ∨ ∃ t, s = fo_origin_prefix o +:+ t)
  end.

(** The graph passes the check; without a prefix there is nothing to check. *)
Definition passes (g : Callgraph) : Prop :=
  fo_origin_prefix o ≠ "" → ∀ i n, node_at g i = Some n → conforms n.

(** Every node tells whether it is a system include. *)
Definition determined (g : Callgraph) : Prop :=
  ∀ i n, node_at g i = Some n → ∃ b, is_system_include o n ⇓ b.

Lemma conforms_cases n b : is_system_include o n ⇓ b →
  conforms n ∧ (origin n = None ∨ ∃ s, origin n = Some s ∧ s ≠ "" ∧ b || has_prefix o s = true) ∨
  (¬ conforms n) ∧ ∃ s, origin n = Some s ∧ (s = "" ∨ (s ≠ "" ∧ b = false ∧ has_prefix o s = false)).
Proof.
  intros Hb. unfold conforms. rewrite Hb. destruct (origin n) as [s|]; [|left; by split; [|left]].
  destruct (decide (s = "")) as [->|Hs].
  { right. split; [by intros [? _]|]. exists "". split; [done|by left]. }
  destruct b; [left; split; [by split; [|left]|right; by exists s]|].
  destruct (has_prefix o s) eqn:Hp; [left|right].
  - split; [|right; by exists s]. split; [done|]. right. by apply has_prefix_true.
  - split; [|exists s; by split; [|right]]. intros [_ [?|Ht%has_prefix_true]]; [done|congruence].
Qed.

Lemma check_node g ok n b :
  checkOnly o = true → is_system_include o n ⇓ b →
  conforms n ∧ format_node o (inl (g, ok)) (Some n) ⇓ inl (g, ok) ∨
  (¬ conforms n) ∧ format_node o (inl (g, ok)) (Some n) ⇓ check_failed o g.
Proof.
  intros Hc Hb. unfold format_node. cbn [deref]. rewrite bind_ret, Hc, Hb.
  destruct (conforms_cases n b Hb) as [(Hn & [-> |(s & -> & Hs & Hp)])|(Hn & s & -> & Hs)].
  - by left.
  - left. split; [done|]. rewrite decide_False, bind_ret by done. by destruct b, (has_prefix o s).
  - right. split; [done|]. destruct Hs as [-> |(Hs & -> & Hp)]; [by rewrite decide_True|].
    by rewrite decide_False, bind_ret, Hp by done.
Qed.

Lemma format_graph_check g :
  checkOnly o = true → (∀ x, x ∈ nodes g → is_Some x) → determined g →
  ∃ st, format_graph o g ⇓ st ∧
    (st = inl (g, true) ∧ passes g ∨
     (st = inl (g, false) ∨ st = inr EXIT_FAILURE) ∧ ¬ passes g).
Proof.
  intros Hc Hfull Hdet. unfold format_graph, passes. case_decide as Hpre.
  { eexists. split; [done|]. by left. }
  destruct (foldM_ind (λ dn st,
      st = inl (g, true) ∧ (∀ n, Some n ∈ dn → conforms n) ∨
      (st = inl (g, false) ∨ st = inr EXIT_FAILURE) ∧ ∃ n, Some n ∈ dn ∧ ¬ conforms n)
    (format_node o) (nodes g) (inl (g, true))) as (st & Hrun & Hst).
  - left. split; [done|]. by intros n ?%elem_of_nil.
  - intros dn x rest st Hl Hst.
    assert (x ∈ nodes g) as Hx by (rewrite Hl; set_solver). destruct (Hfull x Hx) as [n ->].
    apply list_elem_of_lookup in Hx as [i Hi%node_at_Some]. destruct (Hdet i n Hi) as [b Hb].
    destruct Hst as [[-> Hall]|[Hst (m & Hm & Hbad)]].
    + destruct (check_node g true n b Hc Hb) as [[Hn ->]|[Hn ->]]; eexists; (split; [done|]).
      * left. split; [done|]. intros m [?|[= ->]%list_elem_of_singleton]%elem_of_app; auto.
      * right. split; [unfold check_failed; case_match; auto|]. exists n. set_solver.
    + assert (∃ m, Some m ∈ dn ++ [Some n] ∧ ¬ conforms m) as Hbad' by (exists m; set_solver).
      destruct Hst as [-> | ->]; [|eexists; split; [done|]; right; auto].
      destruct (check_node g false n b Hc Hb) as [[_ ->]|[_ ->]]; eexists; (split; [done|]); right;
        (split; [unfold check_failed; try case_match; auto|done]).
  - exists st. split; [done|]. destruct Hst as [[-> Hall]|[Hst (n & Hn & Hbad)]]; [left|right].
    + split; [done|]. intros _ i n Hi%node_at_Some. apply Hall. by eapply list_elem_of_lookup_2.
    + split; [done|]. intros Hp. apply list_elem_of_lookup in Hn as [i Hi%node_at_Some].
      by eapply Hbad, Hp.
Qed.

Context (files : gmap string json) (major minor : Z) (sha : string) (u : nat).

Lemma cgformat_check_ret path src r g fl :
  fo_help o = false → fo_input o ⇓ path → fo_apply o = false →
  files !! path = Some src → createReader src ⇓ Some r → read r u src ⇓ (g, fl) →
  (∀ x, x ∈ nodes g → is_Some x) → determined g →
  ∃ code, cgformat_run major minor sha files o u ⇓ (files, code) ∧
    (code = EXIT_SUCCESS ∧ passes g ∨ code = EXIT_FAILURE ∧ ¬ passes g).
Proof.
  intros Hh Hi Ha Hf Hc Hr Hfull Hdet. assert (checkOnly o = true) as Hco by (unfold checkOnly; by rewrite Ha).
  destruct (format_graph_check g Hco Hfull Hdet) as (st & Hrun & Hst).
  unfold cgformat_run, FileSource_get. rewrite Hh, Hi, bind_ret, Hf, bind_ret, Hc, bind_ret.
  cbn [deref]. rewrite bind_ret, Hr, bind_ret. cbn [fst]. rewrite Hrun, bind_ret, Hco.
  destruct Hst as [[-> Hp]|[[-> | ->] Hp]]; eexists; (split; [done|]); auto.
Qed.
End check.

(** ** Repairing *)

(** The mark of a system include does not depend on node IDs. *)
Class IncludeStable {JO : JsonOps} {MDI : MetaDataI} :=
  include_stable m π m' : md_applyMapping m π ⇓ m' → md_fromSystemInclude m' = md_fromSystemInclude m.

Section repair.
Context {JO : JsonOps} {MDI : MetaDataI} {IO : IterOrder}.
Context (o : FormatOptions).

Definition included (n : CgNode) : bool :=
  match is_system_include o n with Ret b => b | _ => false end.

(** The origin of a node after [--apply]. *)
Definition fixed_origin (n : CgNode) : option string :=
  match origin n with
  | None => None
  | Some s =>
      if decide (s = "") then None
      else if included n || has_prefix o s then Some s
      else match replacePathPrefix s (fo_origin_prefix_to_replace o) (fo_origin_prefix o) with
           | Some s' => Some s'
           | None => Some s
           end
  end.

(** The directory to be replaced occurs in an origin that needs a repair. *)
Definition repairable (n : CgNode) : Prop :=
  match origin n with
  | None => True
  | Some s => s = "" ∨ is_system_include o n ⇓ true ∨ (∃ t, s = fo_origin_prefix o +:+ t) ∨
      ∃ a b, s = a +:+ ("/" +:+ fo_origin_prefix_to_replace o) +:+ b
  end.

Lemma fixed_conforms n b :
  fo_origin_prefix o ≠ "" → is_system_include o n ⇓ b → repairable n →
  conforms o (setOrigin (fixed_origin n) n).
Proof.
  intros Hp Hb Hr. unfold conforms, fixed_origin, repairable, included in *. cbn [origin setOrigin].
  change (is_system_include o (setOrigin _ n)) with (is_system_include o n).
  rewrite Hb in *. destruct (origin n) as [s|]; [|done]. case_decide as Hs; [done|].
  destruct (b || has_prefix o s) eqn:Hok.
  - split; [done|]. destruct b; [by left|right]. by apply has_prefix_true.
  - apply orb_false_iff in Hok as [-> Hnp].
    pose proof (replacePathPrefix_ret s (fo_origin_prefix_to_replace o) (fo_origin_prefix o)) as Hrep.
    destruct (replacePathPrefix _ _ _) as [s'|].
    + destruct Hrep as (a & rest & _ & -> & _). split; [by destruct (fo_origin_prefix o)|]. right. by exists rest.
    + exfalso. destruct Hr as [?|[?|[?%has_prefix_true|(a & c & Heq)]]]; [done|done|congruence|].
      by apply (Hrep a c).
Qed.

(** [g'] is [g] with the origins repaired. *)
Record repaired (g g' : Callgraph) : Prop := {
  rp_wf : wf g';
  rp_edges : edges g' = edges g;
  rp_md : cg_md g' = cg_md g;
  rp_nodes : ∀ i, node_at g' i = (λ n, setOrigin (fixed_origin n) n) <$> node_at g i
}.

Lemma setOrigin_same n : setOrigin (origin n) n = n.
Proof. by destruct n. Qed.

Lemma apply_node g ok n b :
  checkOnly o = false → fo_origin_prefix_to_replace o ≠ "" → is_system_include o n ⇓ b →
  wf g → node_at g (node_id n) = Some n →
  ∃ g', format_node o (inl (g, ok)) (Some n) ⇓ inl (g', ok) ∧ wf g' ∧ edges g' = edges g ∧
    cg_md g' = cg_md g ∧ ∀ i, node_at g' i =
      if decide (i = node_id n) then Some (setOrigin (fixed_origin n) n) else node_at g i.
Proof.
  intros Hc Hd Hb Hwf Hn.
  assert (fixed_origin n = origin n → ∀ i, node_at g i =
    if decide (i = node_id n) then Some (setOrigin (fixed_origin n) n) else node_at g i) as Hsame.
  { intros -> i. rewrite setOrigin_same. by case_decide; subst. }
  assert (∀ s, fixed_origin n = s → let g' := update_node g (node_id n) (setOrigin s) in wf g' ∧
    edges g' = edges g ∧ cg_md g' = cg_md g ∧ ∀ i, node_at g' i =
      if decide (i = node_id n) then Some (setOrigin (fixed_origin n) n) else node_at g i) as Hupd.
  { intros s -> g'. split; [by apply update_node_wf; auto with metacg|]. split_and!; [done..|].
    intros i. unfold g'. rewrite update_node_at. repeat case_decide; subst; try done. by rewrite Hn. }
  unfold format_node, fixed_origin, included in *. cbn [deref]. rewrite bind_ret, Hc. rewrite Hb in *.
  destruct (origin n) as [s|]; [|exists g; split_and!; auto].
  destruct (decide (s = "")) as [->|Hs]; [eexists; split; [done|by apply Hupd]|].
  rewrite bind_ret. destruct b, (has_prefix o s); cbn [negb orb andb] in *;
    try (exists g; split_and!; by auto).
  rewrite decide_False by done. destruct (replacePathPrefix s _ _) as [s'|];
    [eexists; split; [done|by apply Hupd]|exists g; split_and!; by auto].
Qed.

Lemma format_graph_apply g :
  checkOnly o = false → fo_origin_prefix o ≠ "" → fo_origin_prefix_to_replace o ≠ "" →
  as_read g → determined o g →
  ∃ g', format_graph o g ⇓ inl (g', true) ∧ repaired g g'.
Proof.
  intros Hc Hp Hd [Hwf _ Hfull] Hdet. unfold format_graph. rewrite decide_False by done.
  destruct (foldM_ind (λ dn (st : (Callgraph * bool) + ExitCode), ∃ g', st = inl (g', true) ∧ wf g' ∧
      edges g' = edges g ∧ cg_md g' = cg_md g ∧ ∀ i, node_at g' i =
        (λ n, if decide (i < length dn) then setOrigin (fixed_origin n) n else n) <$> node_at g i)
    (format_node o) (nodes g) (inl (g, true))) as (st & Hrun & g' & -> & Hwf' & He & Hm & Hn).
  - exists g. split_and!; [done..|]. intros i. by destruct (node_at g i).
  - intros dn x rest st Hl (g' & -> & Hwf' & He & Hm & Hn).
    destruct (Hfull x) as [n ->]; [rewrite Hl; set_solver|].
    assert (node_at g (length dn) = Some n) as Hat
      by (apply node_at_Some; rewrite Hl; by apply list_lookup_middle).
    destruct (wf_ids _ Hwf _ _ Hat) as [Hid _]. destruct (Hdet _ n Hat) as [b Hb].
    destruct (apply_node g' true n b Hc Hd Hb Hwf') as (g2 & Hrun & Hwf2 & He2 & Hm2 & Hn2).
    { rewrite Hid, Hn, Hat. cbn. by rewrite decide_False by lia. }
    exists (inl (g2, true)). split; [done|]. exists g2. split_and!; [done|done|congruence|congruence|].
    intros i. rewrite Hn2, Hn, Hid, length_app. cbn [length].
    destruct (decide (i = length dn)) as [->|Hne].
    + rewrite Hat. cbn. by rewrite decide_True by lia.
    + destruct (node_at g i); cbn; [|done]. repeat case_decide; done || lia.
  - exists g'. split; [done|]. split; [done..|]. intros i. rewrite Hn.
    destruct (node_at g i) as [n|] eqn:Hi; cbn; [|done]. by rewrite decide_True by (by apply node_at_lt in Hi).
Qed.

Lemma repaired_exportable (rt : MD → Prop) g g' :
  exportable rt g false → repaired g g' → exportable rt g' false.
Proof.
  intros [_ _ Hnames Hmd He Hg] [Hwf' Hes Hcm Hn].
  assert (∀ i, live g' i ↔ live g i) as Hlive by (intros i; rewrite Hn, fmap_is_Some; done).
  assert (∀ m, named_md_ok rt (λ i, live g i) m → named_md_ok rt (λ i, live g' i) m) as Hmono.
  { intros m. apply named_md_ok_mono. intros i. by apply Hlive. }
  split; [done|by apply distinct_ids_numbers| | |by eapply edge_md_free_eq|].
  - intros i n'. rewrite Hn. intros (n & Hi & ->)%fmap_Some_1. exact (Hnames i n Hi).
  - intros i n'. rewrite Hn. intros (n & Hi & ->)%fmap_Some_1. exact (Hmono _ (Hmd i n Hi)).
  - rewrite Hcm. by apply Hmono.
Qed.

Lemma repaired_names g g' : wf g → repaired g g' → ∀ f, hasNode_name g' f = hasNode_name g f.
Proof.
  intros Hwf [Hwf' _ _ Hn] f. apply eq_true_iff_eq. rewrite !hasNode_name_true by done. split.
  - intros (i & n' & Hi & <-). rewrite Hn in Hi. apply fmap_Some_1 in Hi as (n & Hi & ->). by exists i, n.
  - intros (i & n & Hi & <-). exists i, (setOrigin (fixed_origin n) n). by rewrite Hn, Hi.
Qed.

Lemma repaired_calls g g' : wf g → repaired g g' → ∀ s t, existsAnyEdge g' s t = existsAnyEdge g s t.
Proof.
  intros Hwf [Hwf' He _ Hn] s t. apply eq_true_iff_eq. rewrite !existsAnyEdge_true by done. split.
  - intros (i & j & n' & m' & Hi & <- & Hj & <- & Hij). rewrite Hn in Hi, Hj. rewrite He in Hij.
    apply fmap_Some_1 in Hi as (n & Hi & ->). apply fmap_Some_1 in Hj as (m & Hj & ->).
    by exists i, j, n, m.
  - intros (i & j & n & m & Hi & <- & Hj & <- & Hij).
    exists i, j, (setOrigin (fixed_origin n) n), (setOrigin (fixed_origin m) m).
    by rewrite !Hn, Hi, Hj, He.
Qed.
End repair.

(** ** From the file to the repaired file *)

Section composition.
Context {JO : JsonOps} {JL : JsonLaws} {MDI : MetaDataI} {MDL : MetaDataLaws} {IO : IterOrder}.
Context {IS : IncludeStable} (rt : MD → Prop).

Lemma include_renumbered o (L : NodeId → Prop) π n n' :
  named_md_ok rt L (node_md n) → (∀ i, L i → is_Some (π !! i)) →
  md_related π (node_md n) (node_md n') → is_system_include o n' = is_system_include o n.
Proof using IS MDL.
  intros [_ Hok] Hdom Hm. unfold is_system_include, md_get. destruct (fo_ignore_system_includes o); [|done].
  destruct (node_md n !! FilePropertiesMD_key) as [md|] eqn:Hmd.
  - destruct (Hok _ _ Hmd) as [_ Hrefs]. destruct (md_applyMapping_total md π) as [md' Ha].
    { intros i Hi. by apply elem_of_dom, Hdom, Hrefs. }
    rewrite (proj2 (Hm _ md')) by (by exists md). by apply (include_stable md π).
  - destruct (node_md n' !! FilePropertiesMD_key) as [md'|] eqn:Hmd'; [|done].
    apply Hm in Hmd' as (md & ? & _). congruence.
Qed.

Context {RT : RoundTrip rt} {TR : Transferable rt}.

(** Reading a file back keeps what the check looks at. *)
Lemma include_read o file u g g' π b i k n n' :
  exportable rt g b → file4_of rt file u g g' π → π !! i = Some k →
  node_at g i = Some n → node_at g' k = Some n' →
  origin n' = origin n ∧ is_system_include o n' = is_system_include o n.
Proof using IS MDL.
  intros Hex H4 Hi Hn Hn'. pose proof (fo_renumbered _ _ _ _ _ _ H4) as Hrn.
  destruct (rn_node _ _ _ Hrn i k n Hi Hn) as (n2 & Hn2 & _ & Ho & _ & Hm).
  assert (n2 = n') as -> by congruence. split; [done|].
  eapply (include_renumbered o (λ i, live g i) π); [by eapply ex_nodes| |done].
  intros j Hj. by apply (rn_dom _ _ _ Hrn).
Qed.

Lemma determined_read o file u g g' π b :
  exportable rt g b → file4_of rt file u g g' π → determined o g → determined o g'.
Proof using IS MDL.
  intros Hex H4 Hdet k n' Hk. pose proof (fo_renumbered _ _ _ _ _ _ H4) as Hrn.
  destruct (renumbered_back π g g' Hrn k n' Hk) as (i & n & Hi & Hn & _).
  destruct (include_read o file u g g' π b i k n n' Hex H4 Hi Hn Hk) as [_ ->]. by eapply Hdet.
Qed.

(** The options for checking the output of a run with the options [o]. *)
Definition checking (o : FormatOptions) (path : string) : FormatOptions :=
  mkFormatOptions false (Ret path) "" false (fo_abort_after_error o) (fo_origin_prefix o)
    (fo_origin_prefix_to_replace o) (fo_ignore_system_includes o) (fo_discard_failed_metadata o).

Definition output_file (o : FormatOptions) (path : string) : string :=
  if decide (fo_output o = "") then path else fo_output o.

Lemma cgformat_apply_ret o major minor sha files u path file g :
  tool_version major minor sha → fo_help o = false → fo_input o ⇓ path → fo_apply o = true →
  fo_origin_prefix o ≠ "" → fo_origin_prefix_to_replace o ≠ "" →
  files !! path = Some file → written rt file g → determined o g →
  ∃ out g1 π g2, file4_of rt file u g g1 π ∧ repaired o g1 g2 ∧ written rt out g2 ∧
    cgformat_run major minor sha files o u ⇓ (<[output_file o path := out]> files, EXIT_SUCCESS).
Proof using All.
  intros Hv Hh Hi Ha Hp Hd Hf Hw Hdet. pose proof Hw as (gen & b & sorted & Hex & _).
  destruct (written_file rt file g Hw u) as (g1 & π & H4).
  assert (checkOnly o = false) as Hc by (unfold checkOnly; by rewrite Ha).
  destruct (format_graph_apply o g1 Hc Hp Hd) as (g2 & Hrun & Hrep).
  { apply H4. } { by eapply determined_read. }
  destruct (write_default_ok rt major minor sha g2 Hv) as (out & Hout & Hwo).
  { eapply repaired_exportable; [apply H4|done]. }
  exists out, g1, π, g2. split_and!; [done..|].
  destruct H4 as [Hver _ Hcr Hr _ _ _]. unfold cgformat_run, FileSource_get.
  rewrite Hh, Hi, bind_ret, Hf, bind_ret, Hcr, bind_ret. cbn [deref]. rewrite bind_ret, Hr, bind_ret.
  cbn [fst snd]. rewrite Hrun, bind_ret, Hc. cbn [length]. rewrite bool_decide_true by done. cbn [negb andb].
  rewrite Hver, bind_ret, (proj2 stoi_4), bind_ret.
  change (createWriter 4) with (Some VersionFourMCGWriter). cbv iota. by rewrite Hout.
Qed.

(** C16: [cgformat --apply] on a file that the format-4 writer made from an exportable
    graph (consistent, with nonempty names, distinct identifiers in the file, no
    metadata on edges, and metadata that survives its JSON value), in which every
    origin that does not have the prefix contains the directory to be replaced:
    it succeeds and writes exactly the output file; checking the output with the
    same options succeeds as well; and names and calls are those of the input. *)
Theorem cgformat_repairs o major minor sha files u path file g :
  tool_version major minor sha → fo_help o = false → fo_input o ⇓ path → fo_apply o = true →
  fo_origin_prefix o ≠ "" → fo_origin_prefix_to_replace o ≠ "" →
  files !! path = Some file → written rt file g → determined o g →
  (∀ i n, node_at g i = Some n → repairable o n) →
  ∃ out, let out_path := output_file o path in let files' := <[out_path := out]> files in
    cgformat_run major minor sha files o u ⇓ (files', EXIT_SUCCESS) ∧
    (∀ u', cgformat_run major minor sha files' (checking o out_path) u' ⇓ (files', EXIT_SUCCESS)) ∧
    ∀ u', ∃ g', load files' u' out_path ⇓ g' ∧ wf g' ∧
      (∀ f, hasNode_name g' f = hasNode_name g f) ∧
      (∀ s t, existsAnyEdge g' s t = existsAnyEdge g s t).
Proof using All.
  intros Hv Hh Hi Ha Hp Hd Hf Hw Hdet Hrepair. pose proof Hw as (gen & b & sorted & Hex & _).
  destruct (cgformat_apply_ret o major minor sha files u path file g) as
    (out & g1 & π & g2 & H4 & Hrep & Hwo & Hrun); [done..|].
  exists out. intros out_path files'. split; [done|].
  assert (wf g1) as Hwf1 by apply H4. pose proof Hwo as (gen' & b' & sorted' & Hex2 & _).
  assert (∀ i n, node_at g2 i = Some n → conforms o n ∧ ∃ c, is_system_include o n ⇓ c) as Hconf.
  { intros k n2. rewrite (rp_nodes _ _ _ Hrep). intros (n1 & Hn1 & ->)%fmap_Some_1.
    destruct (renumbered_back π g g1 (fo_renumbered _ _ _ _ _ _ H4) k n1 Hn1) as (i & n & Hik & Hn & _).
    destruct (include_read o file u g g1 π b i k n n1 Hex H4 Hik Hn Hn1) as [Ho Hsys].
    destruct (Hdet i n Hn) as [c Hc]. split; [|exists c; by rewrite <- Hc, <- Hsys].
    eapply (fixed_conforms o n1 c); [done|congruence|]. unfold repairable. rewrite Ho, Hsys.
    by apply (Hrepair i). }
  split; intros u'; destruct (written_file rt out g2 Hwo u') as (g3 & ρ & H4').
  - destruct (cgformat_check_ret (checking o out_path) files' major minor sha u' out_path out
      VersionFourMCGReader g3 []) as (code & Hcode & Hres); 
      [done|done|done|apply lookup_insert_eq|apply H4'|apply H4'|apply (fo_as_read _ _ _ _ _ _ H4')| |].
    { eapply (determined_read (checking o out_path)); [exact Hex2|exact H4'|].
      intros k n Hn. by apply (Hconf k n). }
    rewrite Hcode. destruct Hres as [[-> _]|[_ Hbad]]; [done|]. exfalso. apply Hbad. intros _ k n3 Hk.
    destruct (renumbered_back ρ g2 g3 (fo_renumbered _ _ _ _ _ _ H4') k n3 Hk) as (i & n2 & Hik & Hn & _).
    destruct (include_read (checking o out_path) out u' g2 g3 ρ b' i k n2 n3 Hex2 H4' Hik Hn Hk) as [Ho Hsys].
    unfold conforms. rewrite Ho, Hsys. by apply (Hconf i n2).
  - exists g3. pose proof (fo_renumbered _ _ _ _ _ _ H4') as Hr3. pose proof (fo_renumbered _ _ _ _ _ _ H4) as Hr1.
    assert (wf g3) as Hwf3 by apply H4'. assert (wf g2) as Hwf2 by apply Hrep.
    split; [eapply load_written; [apply lookup_insert_eq|exact H4']|]. split; [done|]. split.
    + intros f. rewrite (renumbered_hasNode ρ g2 g3 Hwf2 Hwf3 Hr3), (repaired_names o g1 g2 Hwf1 Hrep).
      by apply (renumbered_hasNode π g g1 (ex_wf _ _ _ Hex) Hwf1 Hr1).
    + intros s t. rewrite (renumbered_existsAnyEdge ρ g2 g3 Hwf2 Hwf3 Hr3), (repaired_calls o g1 g2 Hwf1 Hrep).
      by apply (renumbered_existsAnyEdge π g g1 (ex_wf _ _ _ Hex) Hwf1 Hr1).
Qed.
End composition.

(** [cgformat] without [--apply] never changes a file; it succeeds exactly if
    there is no prefix to check, or if every node passes: it has no origin, or its
    origin is not empty and starts with the prefix, or is not empty and belongs
    to a system include that is exempt. *)
Theorem cgformat_check {JO : JsonOps} {MDI : MetaDataI} {IO : IterOrder} o major minor sha files u
    path src r g fl :
  fo_help o = false → fo_input o ⇓ path → fo_apply o = false →
  files !! path = Some src → createReader src ⇓ Some r → read r u src ⇓ (g, fl) →
  (∀ x, x ∈ nodes g → is_Some x) → determined o g →
  ∃ code, cgformat_run major minor sha files o u ⇓ (files, code) ∧
    (code = EXIT_SUCCESS ∧ passes o g ∨ code = EXIT_FAILURE ∧ ¬ passes o g).
Proof. apply cgformat_check_ret. Qed.

(** C36: Unless the user allows it and names another output file, [cgformat --apply]
    does not write anything when some metadata of the input could not be read. *)
Theorem cgformat_protects_metadata {JO : JsonOps} {MDI : MetaDataI} {IO : IterOrder} o major minor
    sha files u path src r g fl st :
  fo_help o = false → fo_input o ⇓ path → fo_apply o = true →
  files !! path = Some src → createReader src ⇓ Some r → read r u src ⇓ (g, fl) →
  fl ≠ [] → fo_discard_failed_metadata o = false ∨ output_file o path = path →
  format_graph o g ⇓ inl st →
  cgformat_run major minor sha files o u ⇓ (files, EXIT_FAILURE).
Proof.
  intros Hh Hi Ha Hf Hc Hr Hfl Hkeep Hst. unfold cgformat_run, FileSource_get, checkOnly.
  rewrite Hh, Hi, bind_ret, Hf, bind_ret, Hc, bind_ret. cbn [deref]. rewrite bind_ret, Hr, bind_ret.
  cbn [fst snd]. rewrite Hst, bind_ret, Ha. destruct st as [g' ok]. cbn [negb].
  rewrite (bool_decide_false (length fl = 0)) by (by destruct fl). cbn [negb andb].
  fold (output_file o path). destruct Hkeep as [-> | ->]; [done|].
  by rewrite bool_decide_true, orb_true_r.
Qed.

(** [replacePathPrefix] finds the first occurrence of the directory name behind
    a slash, replaces everything up to the end of that name, and gives up only if
    there is none; it does not ask for the name to end there. *)
Theorem replacePathPrefix_correct (path dir new : string) :
  match replacePathPrefix path dir new with
  | Some r => ∃ a b, path = a +:+ ("/" +:+ dir) +:+ b ∧ r = new +:+ b ∧
      ∀ a' b', path = a' +:+ ("/" +:+ dir) +:+ b' → String.length a ≤ String.length a'
  | None => ∀ a b, path ≠ a +:+ ("/" +:+ dir) +:+ b
  end.
Proof. apply replacePathPrefix_ret. Qed.

(** The directory [src] is found in [src2]. *)
Example replacePathPrefix_inside_name :
  replacePathPrefix "/home/src2/a.c" "src" "/opt/x" = Some "/opt/x2/a.c".
Proof. reflexivity. Qed.
