(* ===== verification/ToolsExamples.v ===== *)
(** * The tools on concrete files *)

From Stdlib Require Import Ascii.
From S2P Require Import Prelude Json MetaData BuiltinMD Util Callgraph.
From S2P Require Import CallgraphWf CallgraphOps CallgraphSpec CallgraphProps Merge MergeProps.
From S2P Require Import MergeExamples Dominators DominatorExamples Format4 Roundtrip4 Format4Examples.
From S2P Require Import Exchange Format2 Format2Examples Dot Query.
From S2P Require Import QueryProps Tools ToolsProps CgFormatProps.

#[export] Instance builtin_include_stable {JO : JsonOps} : IncludeStable.
Proof. intros m π m'. destruct m; simpl; intros H; invert_outcome; done. Qed.

(** Names are unique in a graph whose flag for duplicates is off. *)
Lemma unique_names_flag {JO : JsonOps} {MDI : MetaDataI} g :
  wf g → hasDuplicates g = false → unique_names g.
Proof.
  intros Hwf Hdup i j n m Hn Hm Hf.
  assert (length (getNodes_name g (functionName n)) ≤ 1) as Hlen.
  { rewrite getNodes_name_entry, (wf_names _ Hwf). by apply (wf_dup _ Hwf). }
  assert (i ∈ getNodes_name g (functionName n)) as Hi by (apply elem_of_getNodes_name; [done|by exists n]).
  assert (j ∈ getNodes_name g (functionName n)) as Hj by (apply elem_of_getNodes_name; [done|by exists m]).
  destruct (getNodes_name g (functionName n)) as [|x [|y l]]; simpl in Hlen; [|set_solver|lia].
  by apply elem_of_nil in Hi.
Qed.

(** A property of all nodes, checked node by node. *)
Lemma nodes_check {JO : JsonOps} {MDI : MetaDataI} (P : CgNode → bool) g :
  forallb (λ x, match x with Some n => P n | None => true end) (nodes g) = true →
  ∀ i n, node_at g i = Some n → P n = true.
Proof.
  rewrite forallb_forall. intros Hall i n Hi%node_at_Some%list_elem_of_lookup_2%list_elem_of_In.
  apply (Hall (Some n) Hi).
Qed.

Module ToolsExample.
Import GraphExamples MergeExample Format4Example DominatorExample.

#[local] Existing Instance canonical_order.

Definition file_of (g : Callgraph) : json :=
  match write4 file_info true false g with Ret j => j | _ => jnull end.

Lemma generator_readable : version_readable generator.
Proof. split; eexists; vm_compute; reflexivity. Qed.

Lemma tool_version_0_9 : tool_version 0 9 "sha".
Proof. exact generator_readable. Qed.

Lemma file_of_written (rt : MD → Prop) {RT : RoundTrip rt} g :
  exportable rt g true → written rt (file_of g) g.
Proof.
  intros Hex. exists generator, true, false. split; [done|]. split; [apply generator_readable|].
  destruct (format4_read_back (JL := JsonTree.laws) (MDI := builtin_md) rt generator g true false 7 Hex
    generator_readable) as (j & _ & _ & Hj & _).
  unfold file_of, file_info. by rewrite Hj.
Qed.

(** A graph that can be merged and written, as a check. *)
Lemma portable_check g :
  wf g → hasDuplicates g = false → check_export portable g = true →
  exportable portable g true ∧ unique_names g.
Proof.
  intros Hwf Hdup Hc. split; [|by apply unique_names_flag].
  apply check_export_ok with (H := portable_dec); [done|by apply distinct_ids_names|done].
Qed.

Lemma export_portable : exportable portable export true ∧ unique_names export.
Proof. apply portable_check; [apply export_wf|vm_compute; reflexivity..]. Qed.

Lemma diamond_portable : exportable portable diamond true ∧ unique_names diamond.
Proof. apply portable_check; [apply diamond_wf|vm_compute; reflexivity..]. Qed.

(** ** [cgconvert] *)

Lemma cgconvert_keeps_graph_witness :
  ∃ out, cgconvert_main 0 9 "sha" {["a" := file_of export]} 7 ["cgconvert"; "a"; "b"]
      ⇓ (<["b" := out]> {["a" := file_of export]}, EXIT_SUCCESS) ∧
    ∀ u', ∃ g' π, load (<["b" := out]> {["a" := file_of export]}) u' "b" ⇓ g' ∧ wf g' ∧
      renumbered π export g'.
Proof.
  apply (cgconvert_keeps_graph (JL := JsonTree.laws) (MDI := builtin_md)
    (RT := portable_RoundTrip (JL := JsonTree.laws)) portable 0 9 "sha" {["a" := file_of export]} 7
    "cgconvert" "a" "b" [] (file_of export) export).
  - exact tool_version_0_9.
  - apply lookup_singleton_eq.
  - exact (file_of_written portable (RT := portable_RoundTrip (JL := JsonTree.laws)) export (proj1 export_portable)).
  - left. reflexivity.
Defined.

(** ** [cgmerge2] *)

Definition two_files : gmap string json := {["a" := file_of export; "b" := file_of diamond]}.
Definition two_files_graph (path : string) : Callgraph :=
  if decide (path = "a") then export else diamond.

Lemma two_inputs (p : string) : p ∈ ["a"; "b"; "a"] → p = "a" ∨ p = "b".
Proof. set_solver. Qed.

Lemma two_files_inputs p : p ∈ ["a"; "b"; "a"] → input_file portable two_files two_files_graph p.
Proof.
  intros [-> | ->]%two_inputs.
  - exists (file_of export). split; [apply lookup_insert_eq|].
    split; [|apply export_portable].
    exact (file_of_written portable (RT := portable_RoundTrip (JL := JsonTree.laws)) export (proj1 export_portable)).
  - exists (file_of diamond). split.
    { unfold two_files. rewrite lookup_insert_ne by done. apply lookup_singleton_eq. }
    split; [|apply diamond_portable].
    exact (file_of_written portable (RT := portable_RoundTrip (JL := JsonTree.laws)) diamond (proj1 diamond_portable)).
Qed.

Lemma cgmerge2_union_witness :
  ∃ out, cgmerge2_main 0 9 "sha" two_files ["cgmerge2"; "out"; "a"; "b"; "a"]
      ⇓ (<["out" := out]> two_files, EXIT_SUCCESS) ∧
    ∀ u, ∃ g', load (<["out" := out]> two_files) u "out" ⇓ g' ∧ wf g' ∧
      hasNode_name g' "helper" = true ∧ hasNode_name g' "nobody" = false.
Proof.
  destruct (cgmerge2_union (JL := JsonTree.laws) (MDI := builtin_md) portable
    (RT := portable_RoundTrip (JL := JsonTree.laws)) two_files two_files_graph 0 9 "sha" "cgmerge2" "out"
    ["a"; "b"; "a"]) as (out & Hrun & Hout).
  - exact tool_version_0_9.
  - unfold two_files. by rewrite lookup_insert_ne, lookup_singleton_ne by done.
  - discriminate.
  - exact two_files_inputs.
  - exists out. split; [exact Hrun|]. intros u. destruct (Hout u) as (g' & Hl & Hwf & Hnames & _).
    exists g'. split; [exact Hl|]. split; [exact Hwf|]. split.
    + apply Hnames. exists "a". split; [by apply elem_of_cons; left|]. vm_compute. reflexivity.
    + apply not_true_iff_false. rewrite Hnames. intros (p & Hp & Hn).
      apply two_inputs in Hp as [-> | ->]; vm_compute in Hn; discriminate Hn.
Defined.

(** The run itself: how many functions there are in the output. *)
Lemma cgmerge2_count :
  match cgmerge2_main 0 9 "sha" two_files ["cgmerge2"; "out"; "a"; "b"; "a"] with
  | Ret (files, code) =>
      match load files 7 "out" with
      | Ret g => bool_decide (code = EXIT_SUCCESS ∧ getNodeCount g = 6)
      | _ => false
      end
  | _ => false
  end = true.
Proof. vm_compute. reflexivity. Qed.

(** ** Files of format 3 *)

Definition file3 : json := jfields [("_MetaCG", jfields [("version", jstr "3.0")])].

Definition check_options (apply : bool) (output : string) : FormatOptions :=
  mkFormatOptions false (Ret "a") output apply false "/opt/p" "proj" true false.

Lemma no_reader_is_checked_by_cgtodot_only_witness :
  let files : gmap string json := {["a" := file3]} in
  cgconvert_main 0 9 "sha" files 7 ["cgconvert"; "a"; "b"] = UB ∧
  cgformat_run 0 9 "sha" files (check_options false "") 7 = UB ∧
  cgtodot_main files (λ _, Ret (mkDotOptions false (Some "a") None)) 7 ["cgtodot"; "a"]
    ⇓ (None, EXIT_FAILURE).
Proof.
  apply (no_reader_is_checked_by_cgtodot_only (MDI := builtin_md) 0 9 "sha" {["a" := file3]} 7 "a" "b"
    file3 "cgconvert" (check_options false "") (λ _, Ret (mkDotOptions false (Some "a") None))
    ["cgtodot"; "a"]).
  - apply lookup_singleton_eq.
  - vm_compute. reflexivity.
  - reflexivity.
  - reflexivity.
  - exists None. reflexivity.
Defined.

(** ** [cgformat] *)

(** Origins of every sort: to be repaired, empty, absent, of a system include,
    and right. *)
Definition home : Callgraph := graph_of 1 [
  OInsert "main" (Some "/home/me/proj/main.cpp") false true; OInsert "f" (Some "") false true;
  OInsert "g" None false false; OInsert "h" (Some "/usr/include/h.h") false true;
  OInsert "k" (Some "/opt/p/k.cpp") false true; OAddEdge 0 1; OAddEdge 1 3;
  OUpdateNode 3 (AddMetaData (FilePropertiesMD (Some true)))].

Lemma home_wf : wf home.
Proof. apply graph_of_wf. by apply (bool_decide_unpack _); vm_compute. Qed.

Lemma home_portable : exportable portable home true.
Proof. apply portable_check; [apply home_wf|vm_compute; reflexivity..]. Qed.

Lemma home_written : written portable (file_of home) home.
Proof. apply (file_of_written portable (RT := portable_RoundTrip (JL := JsonTree.laws))), home_portable. Qed.

Lemma home_determined o : determined o home.
Proof.
  intros i n Hn. unfold is_system_include. destruct (fo_ignore_system_includes o); [|by eexists].
  assert (match md_get (node_md n) FilePropertiesMD_key with
    | Some md => match getFromSystemInclude md with Ret _ => true | _ => false end
    | None => true end = true) as Hc.
  { revert i n Hn. apply nodes_check. vm_compute. reflexivity. }
  destruct (md_get (node_md n) FilePropertiesMD_key) as [md|]; [|by eexists].
  cbn [md_fromSystemInclude builtin_md]. destruct (getFromSystemInclude md); try discriminate Hc. by eexists.
Qed.

Lemma home_repairable i n :
  node_at home i = Some n → repairable (check_options true "out") n.
Proof.
  intros Hn. unfold repairable.
  assert (match origin n with
    | None => true
    | Some s => bool_decide (s = "") || included (check_options true "out") n ||
        has_prefix (check_options true "out") s ||
        match replacePathPrefix s "proj" "/opt/p" with Some _ => true | None => false end
    end = true) as Hc.
  { revert i n Hn. apply nodes_check. vm_compute. reflexivity. }
  destruct (origin n) as [s|]; [|done]. rewrite !orb_true_iff, bool_decide_eq_true in Hc.
  destruct Hc as [[[?|Hi]|Hp]|Hr]; [by left|right; left|right; right; left|right; right; right].
  - unfold included in Hi. destruct (is_system_include _ n) as [[]| | | |]; done.
  - by apply has_prefix_true in Hp.
  - pose proof (replacePathPrefix_ret s "proj" "/opt/p") as Hs.
    destruct (replacePathPrefix s "proj" "/opt/p"); [|discriminate Hr].
    destruct Hs as (a & b & Hs & _). by exists a, b.
Qed.

Lemma cgformat_repairs_witness :
  ∃ out, let files' : gmap string json := <["out" := out]> {["a" := file_of home]} in
    cgformat_run 0 9 "sha" {["a" := file_of home]} (check_options true "out") 7 ⇓ (files', EXIT_SUCCESS) ∧
    (∀ u', cgformat_run 0 9 "sha" files' (checking (check_options true "out") "out") u'
       ⇓ (files', EXIT_SUCCESS)) ∧
    ∀ u', ∃ g', load files' u' "out" ⇓ g' ∧ wf g' ∧
      (∀ f, hasNode_name g' f = hasNode_name home f) ∧
      (∀ s t, existsAnyEdge g' s t = existsAnyEdge home s t).
Proof.
  apply (cgformat_repairs (JL := JsonTree.laws) (MDI := builtin_md) portable
    (RT := portable_RoundTrip (JL := JsonTree.laws)) (check_options true "out") 0 9 "sha"
    {["a" := file_of home]} 7 "a" (file_of home) home).
  - exact tool_version_0_9.
  - reflexivity.
  - reflexivity.
  - reflexivity.
  - discriminate.
  - discriminate.
  - apply lookup_singleton_eq.
  - exact home_written.
  - apply home_determined.
  - exact home_repairable.
Defined.

(** What the reader makes of the file. *)
Definition home_read : Callgraph :=
  match read4 7 (file_of home) with Ret p => p.1 | _ => Callgraph_new 7 end.

Definition origins (g : Callgraph) : list (option string) :=
  (λ x, match x with Some n => origin n | None => None end) <$> nodes g.

Lemma read_back_ok (x : Callgraph) (file : json) :
  exportable portable x true → written portable file x → determined (check_options false "") x →
  let r := match read4 7 file with Ret p => p.1 | _ => Callgraph_new 7 end in
  createReader file ⇓ Some VersionFourMCGReader ∧
  read VersionFourMCGReader 7 file ⇓ (r, []) ∧
  (∀ n, n ∈ nodes r → is_Some n) ∧ determined (check_options false "") r ∧
  ∃ π, file4_of portable file 7 x r π.
Proof.
  intros Hex Hw Hdet r. destruct (written_file (JL := JsonTree.laws) (MDI := builtin_md)
    (RT := portable_RoundTrip (JL := JsonTree.laws)) portable file x Hw 7) as (g & π & H4).
  assert (r = g) as ->.
  { pose proof (fo_read _ _ _ _ _ _ H4) as Hr. cbn [read] in Hr. unfold r. rewrite Hr. reflexivity. }
  split_and!; [apply H4..| |exists π; exact H4].
  by apply (determined_read (MDI := builtin_md) portable (check_options false "") file 7 x g π true Hex H4).
Qed.

Lemma home_read_ok :
  createReader (file_of home) ⇓ Some VersionFourMCGReader ∧
  read VersionFourMCGReader 7 (file_of home) ⇓ (home_read, []) ∧
  (∀ x, x ∈ nodes home_read → is_Some x) ∧ determined (check_options false "") home_read ∧
  ∃ π, file4_of portable (file_of home) 7 home home_read π.
Proof. exact (read_back_ok home (file_of home) home_portable home_written (home_determined _)). Qed.

Lemma cgformat_check_witness :
  ∃ code, cgformat_run 0 9 "sha" {["a" := file_of home]} (check_options false "") 7
      ⇓ ({["a" := file_of home]}, code) ∧
    (code = EXIT_SUCCESS ∧ passes (check_options false "") home_read ∨
     code = EXIT_FAILURE ∧ ¬ passes (check_options false "") home_read).
Proof.
  destruct home_read_ok as (Hc & Hr & Hfull & Hdet & _).
  apply (cgformat_check (check_options false "") 0 9 "sha" {["a" := file_of home]} 7 "a" (file_of home)
    VersionFourMCGReader home_read []).
  - reflexivity.
  - reflexivity.
  - reflexivity.
  - apply lookup_singleton_eq.
  - exact Hc.
  - exact Hr.
  - exact Hfull.
  - exact Hdet.
Defined.

(** The origins before and after, in the order of the file; the check fails
    before and succeeds after. *)
Lemma cgformat_runs :
  match cgformat_run 0 9 "sha" {["a" := file_of home]} (check_options false "") 7,
        cgformat_run 0 9 "sha" {["a" := file_of home]} (check_options true "out") 7 with
  | Ret (_, code), Ret (files', code') =>
      match load files' 7 "out" with
      | Ret g => bool_decide (code = EXIT_FAILURE ∧ code' = EXIT_SUCCESS ∧
          Permutation (origins g) [None; None; Some "/usr/include/h.h"; Some "/opt/p/k.cpp"; Some "/opt/p/main.cpp"])
      | _ => false
      end
  | _, _ => false
  end = true.
Proof. vm_compute. reflexivity. Qed.

(** A file with metadata that nobody knows. *)
Definition odd_file : json :=
  match jupdate (file_of home) "_CG" (λ cg, jset cg "meta" (jfields [("unknownMD", jnull)])) with
  | Ret j => j | _ => jnull
  end.
Definition odd_read : Callgraph :=
  match read4 7 odd_file with Ret p => p.1 | _ => Callgraph_new 7 end.
Definition odd_failed : list FailedMetadata :=
  match read4 7 odd_file with Ret p => p.2 | _ => [] end.

Lemma odd_read_ok : read VersionFourMCGReader 7 odd_file ⇓ (odd_read, odd_failed) ∧ odd_failed ≠ [].
Proof.
  assert (match read4 7 odd_file with Ret p => bool_decide (length p.2 = 1) | _ => false end = true) as Hr
    by (vm_compute; reflexivity).
  cbn [read]. unfold odd_read, odd_failed. destruct (read4 7 odd_file) as [[g fl]| | | |]; try discriminate Hr.
  split; [reflexivity|]. apply bool_decide_eq_true in Hr. cbn [snd] in *. by destruct fl.
Qed.

Lemma cgformat_protects_metadata_witness :
  cgformat_run 0 9 "sha" {["a" := odd_file]} (mkFormatOptions false (Ret "a") "" true false "" "" true true) 7
    ⇓ ({["a" := odd_file]}, EXIT_FAILURE).
Proof.
  apply (cgformat_protects_metadata (mkFormatOptions false (Ret "a") "" true false "" "" true true) 0 9 "sha"
    {["a" := odd_file]} 7 "a" odd_file VersionFourMCGReader odd_read odd_failed (odd_read, true)).
  - reflexivity.
  - reflexivity.
  - reflexivity.
  - apply lookup_singleton_eq.
  - vm_compute. reflexivity.
  - apply odd_read_ok.
  - apply odd_read_ok.
  - right. reflexivity.
  - reflexivity.
Defined.
End ToolsExample.
